(* ===== verification/_CoqProject ===== *)
-Q . S2P
Prelude.v
Common.v
Wire.v
Scan.v
RecordCodec.v
Storage.v
Journal.v
Marker.v
Recovery.v
Store.v
Shard.v
Engine.v
EngineFacts.v
Durability.v
Client.v
Lifecycle.v
EngineInterface.v
Service.v
Ipc.v
Requests.v
Config.v
Replace.v
Win32Replace.v
Startup.v
Volume.v
Win32File.v
Win32Open.v
ServiceHost.v
IpcThread.v
PipeServer.v
Gui.v
Installer.v
Logging.v
Threads.v
CrashPoints.v
Lifetime.v
Interleaving.v
Untouched.v
ServiceThreads.v
ServiceProcess.v
Examples.v
Races.v
OuterExamples.v
Win32Examples.v
HostExamples.v
LifeExamples.v
InterfaceExamples.v
