(* ===== verification/Prelude.v ===== *)
(** * QuantumCache: a verification library

    QuantumCache is a write-back cache: a service keeps key/value entries in
    memory, journals every change before it takes effect, stores entries in a
    backing file when they are flushed, and after a crash rebuilds the entries
    that were not flushed from the journal.  This library models the parts that
    decide whether an acknowledged write can be lost, and proves when it cannot.

    ** The program and its model

    The core, its parts calling each other downwards:

<<
      Service     start, stop, pre-shutdown       Service.v     Service/src/main_service.cpp
        |-- Recovery   replay or not              Recovery.v    PowerResilience/src/RecoveryManager.cpp
        |     '-- Marker   was the last stop clean?  Marker.v   PowerResilience/src/SessionMarker.cpp
        '-- Engine     the cache                  Shard.v, Engine.v, Threads.v
              |                                                 CoreEngine/src/CacheEngine.cpp
              |        behind its interface       EngineInterface.v   CoreEngine/include/.../ICacheEngine.h
              |-- RecordCodec  journal payloads   RecordCodec.v CoreEngine/src/JournalRecordCodec.cpp
              |-- Journal      write-ahead log    Journal.v     PowerResilience/src/WriteAheadJournal.cpp
              '-- Store        backing file       Store.v       Storage/src/FileBackingStore.cpp
      Marker, Journal, Store work on
        Storage    durable files                  Storage.v     Storage/include/.../IFile.h,
                                                                Storage/src/PortableFile.cpp
        Win32File  the same on Windows            Win32File.v   Storage/src/Win32File.cpp
      and everything uses
        Common     errors, results, CRC-32        Common.v      Common/include, Common/src/Crc32.cpp
        Wire       integers in byte buffers       Wire.v        the templates of the two codecs
>>

    and what is around it:

<<
      ServiceProcess   all the threads, wmain     ServiceProcess.v   main_service.cpp
        |-- ServiceHost   control manager         ServiceHost.v Service/src/Win32ServiceHost.cpp
        |-- Startup   configuration, paths, files Startup.v     main_service.cpp, PortableFile.cpp
        |     |-- Config   JSON, validation       Config.v      Configuration/src/JsonConfigStore.cpp
        |     |     '-- Replace   file on disk    Replace.v, Win32Replace.v   JsonConfigStore.cpp
        |     '-- Win32Open   OpenFile on Windows Win32Open.v   Storage/src/Win32File.cpp
        |-- IpcThread   the pipe thread, the join IpcThread.v   main_service.cpp
        |     |-- PipeServer   accept, shutdown   PipeServer.v  Ipc/src/Win32NamedPipeTransport.cpp
        |     '-- Requests   one request          Requests.v    main_service.cpp
        |           '-- Ipc   codec and framing   Ipc.v         Ipc/src/MessageCodec.cpp, transport
        |-- Logging   levels, sinks               Logging.v     Logging/src
        '-- Installer   the SCM's database        Installer.v   Service/src/Win32ServiceInstaller.cpp
      Gui   the status client and its window      Gui.v         src/gui/.../RecoveryStatusClient.cpp,
                                                                MainWindow.xaml.cpp
      Volume   the space on a drive               Volume.v      Storage/src/*Volume.cpp (called by no other part)
>>

    (paths under src/src/ but for those of the GUI).  Each of these files holds the data
    and the operations of its part under the names of the source, then its
    theorems.

    - A C++ object is a record of its fields; an operation takes it and returns
      its result with the new object.  [Result<T>] is [Common.Result]; where the
      code ignores a result, so does the model.
    - An unsigned integer is a [Z] wrapped where the code computes
      ([wrap32], [wrap64]); bytes are [list byte]; a [std::string] is a
      [string]; an [unordered_map] is a [gmap]; the engine's [std::list] is a
      list of named nodes, an iterator being a name, so that a dangling iterator
      would show.
    - Interfaces are type classes: [IFile], [ISessionMarker],
      [IWriteAheadJournal], [IBackingStore], [ICacheEngine], [IVolume].  Their
      contracts are type classes too ([IFileSpec], [JournalSpec],
      [BackingStoreSpec], [ICacheEngineSpec]), that allow every operation to
      fail; a client is proved against the contract and each implementation is
      proved to meet it: [PortableFile] over a model of the C library calls with
      injected faults, the journal and the backing store over any file, the
      engine over any journal and backing store.
    - A power cut is a predicate: [crash_image f d] says that [d] may be found
      on the medium when the power fails with the file in state [f].  Of the
      writes and truncations since the last successful sync, a prefix is found,
      the last of them possibly torn at any byte.  The moments at which the power
      can fail within an operation are read off the operation itself, by running
      it on a file that records what it was after each call
      ([Storage.Recorded], [Journal.Append_files]).
    - The contract of files promises nothing of the bytes of a file that
      [SetLength] or a write behind the end has extended, as IFile.h does not;
      the code does neither.

    Operating systems are modelled where the code talks to them: the C library's
    files (Storage.v, Startup.v), inodes and directories with updates that reach
    the medium at their own time (Replace.v), the Win32 calls as a class with
    their documentation (Win32File.v), as a kernel that answers the calls of a
    program (PipeServer.v), or as tables (Win32Open.v, Installer.v).

    Files without a counterpart in the source: Prelude.v (scope, tactics, hints,
    lists, words), Scan.v (logs of framed records, shared by Journal and Store),
    EngineFacts.v (the engine's blocks as changes of a map), Durability.v (what
    the engine holds against what a restart recovers), Client.v (runs of public
    operations), Lifecycle.v (states, admission, shutdown), CrashPoints.v (a
    power cut at any block of an operation), Lifetime.v (histories of any number
    of processes on the same files), Interleaving.v (the invariant of all
    schedules), Untouched.v (what no client changes, on any schedule, and power
    cuts among the threads), ServiceThreads.v (the engine calls of the threads of a
    service, as scripts of the pool of Interleaving.v),
    Races.v (schedules that lose something); Examples.v, OuterExamples.v, Win32Examples.v, HostExamples.v, LifeExamples.v and
    InterfaceExamples.v: concrete systems on which the theorems with hypotheses
    are applied.

    ** What is proved

    - Files: the CRC is the remainder of the message by the generator polynomial
      of IEEE 802.3 ([Common.Crc32.Compute_is_polynomial_remainder]) and detects
      any change of one byte; codecs round-trip and reject what they should; [PortableFile]
      meets [IFileSpec] whatever faults its calls report.
    - Journal: an acknowledged append is found by every scan of every crash
      image; an append cut short adds its record or nothing; replay terminates
      and delivers the records in order; truncation is durable.
    - Store: an acknowledged put or removal survives any crash and the next
      start-up; [Get] is the lookup of the map the records stand for; the
      start-up scan rebuilds that map and cuts the torn tail.
    - Marker and recovery: what is written is read back; what a torn write may
      read as; the outcome of a start-up on every branch.
    - Shard: the list, index and counters agree in every state reachable by the
      blocks run under the shard's mutex, in any order; eviction takes clean
      entries, least recently used first, and only as many as needed; versions
      do not go back.
    - Engine: [Durability.view] is the map clients see and
      [Durability.recovered] the one a restart finds.  Every run of operations
      has the outcomes of a map, whatever fails ([Client.run_refines_map]), and
      in every lifecycle and for every call of its interface it is a lifecycle
      beside a map ([EngineInterface.interface_refines_map]); nothing is served
      before recovery ([EngineInterface.served_only_after_recovery]); a
      write-through that succeeds is stored ([EngineInterface.Put_write_through]);
      a replay may be repeated ([EngineInterface.replay_twice]); a restart after
      any run shows what the engine showed ([Client.run_then_restart_recovers]).
    - Whole lives: at every block of every operation the files are those of a
      state before or after it ([CrashPoints.operation_crash_atomic]), so that
      the next process starts after a power cut anywhere, a torn record left in
      either file too ([Lifetime.restart_after_power_cut_anywhere]);
      over any history of operations, of orderly stops that leave no dirty entry
      and of power cuts at any block of an operation that leave the journal
      untorn, each key develops as in a map ([Lifetime.life_is_a_map]), and an
      acknowledged write stays until the key is written again
      ([Lifetime.acknowledged_write_survives]).  In such a history the data file
      may be torn again and again, since each start repairs it; a torn journal
      no start repairs, and what is written behind the tear is lost at the next
      power cut ([LifeExamples.write_behind_torn_record_is_lost]).  A power cut
      during a start or a stop is not an event of these histories.
    - Threads: a thread that runs alone does what the sequential engine does
      ([Threads.run_alone_run_op]); on every schedule of any number of
      clients, each with its sequence of operations, and one flusher - any
      number of flushers where nobody puts - the journal keeps the record of
      each unflushed write ([Interleaving.unflushed_writes_stay_journaled]), and
      every run can be finished ([Interleaving.every_schedule_can_finish]).  A
      key that no client writes or invalidates keeps its value for every reader
      ([Untouched.untouched_key_keeps_value]) and for the process that starts
      after a power cut at any moment, one call of the journal and one of the
      data file cut short at once ([Untouched.power_cut_keeps_untouched]).  So
      it is with the pipe thread, the pre-shutdown handler, the stop and the
      background flusher of a running service
      ([ServiceThreads.service_threads_keep_writes]).
    - Lifecycle and service: what the factory accepts, how states move, that
      admission is balanced, that a failed replay is final, what a shutdown and
      a clean stop keep, that readiness follows recovery; from a configuration
      file and paths to the running engine ([Startup.restart_after_power_cut],
      [Service.restart_after_clean_stop]).
    - The process, its threads interleaved block by block, a request or a turn of
      the flusher under way at any report: when it says [SERVICE_RUNNING] its
      engine is ready and the pipe thread has at most one write in flight
      ([ServiceProcess.running_service_serves]); when it says [SERVICE_STOPPED]
      the stop has run to its end and nothing runs any more
      ([ServiceProcess.stopped_service_was_stopped]); the join of the pipe
      thread, when it returns and that nothing runs beside the stop.
    - The protocol: messages round-trip, frames are reassembled however the pipe
      splits what follows their length prefix, untrusted requests can at most remove keys, replies and the
      user interface show the state of the service; accepting a client leaks no
      handle.
    - Configuration: what is saved is loaded, what is loaded is accepted by the
      engine, a power cut during a save leaves the old file or the new one, on
      both systems, and a save that succeeds stays, on POSIX where no call failed
      and the file is not in the root directory.
    - Windows: [Win32File] meets [IFileSpec], so that everything above holds of
      the product build, and agrees with the portable build; a file is open
      once; installing and removing the service are inverse.
    - Logging: each sink gets what is due to it.

    Some theorems say where a promise of the source's comments does not hold:
    [Journal.Append_after_torn_tail_lost],
    [Store.Initialize_read_fault_destroys], [Marker.seek_fault_reads_clean],
    [RecordCodec.Decode_refuses_large_value],
    [Examples.rewritten_key_lost_on_restart],
    [LifeExamples.write_behind_torn_record_is_lost],
    [InterfaceExamples.write_through_reports_false_failure],
    [InterfaceExamples.write_through_acknowledges_early],
    [Service.stop_forgets_unflushed],
    [Config.Save_throws_on_wide_path], [Startup.OpenFile_truncates_after_fault],
    [PipeServer.failed_wait_leaves_connect_in_flight],
    [OuterExamples.root_directory_not_synced],
    [ServiceProcess.preshutdown_never_stops], the waiting client of
    [IpcThread.stop_joins_unless_client_waits], and the schedules of Races.v.
    They explain the hypotheses of the others: a journal without a torn tail,
    values within 64 MiB, keys not invalidated since the journal was last
    emptied, a single flusher beside clients that put.

    ** Bounds and fuel

    [Journal.replay_loop] and [FileBackingStore.init_loop] run on fuel one more
    than the length of the file: every turn that goes on consumes a record of 20
    bytes at least ([Journal.replay_loop_terminates] and the lemmas of Store).
    [Shard.evict_loop] has one more than the number of nodes: every turn that
    goes on removes one.  The 64 turns of [Engine.relieve_loop] are the code's
    own [kMaxFlushAttemptsPerCall].  The loops that receive a frame
    ([Ipc.receive_loop], [Gui.gui_receive]) and the one that writes a file
    ([Replace.write_loop]) have fuel for one turn per byte, and every turn moves
    one at least.  The background thread of Threads.v has as many firings of its timer
    as the schedule is given ([Threads.background_loop]); the theorems hold for
    any number.  The flusher and the pipe thread of ServiceProcess.v have no
    bound.  Sizes and versions are kept modulo 2^64;
    theorems that need them not to wrap say so ([version_room], [room],
    [store_fits]).

    ** Assumptions

    The hash of a key and the order in which an [unordered_map] is traversed are
    arguments; the second is only assumed to be a permutation of the entries.
    Clocks, random numbers and [gmtime] are arguments.  The C library is the
    model of Storage.v: calls fail as an oracle says, and data reaches the
    medium as [FILE_crash] says.  The JSON library is a class with laws
    ([Config.NlohmannJsonSpec]), the pipe a class of reads and writes that may
    split, shorten or fail ([Ipc.Win32PipeSpec]).  The service control manager
    sends a control only when the last reported status accepts it.

    ** What is not modelled

    The XAML plumbing of the GUI's window, whose texts are in Gui.v.  Of the
    engine the log messages, which no decision reads, and of the file classes
    the destructors, which call [Close].  The mutexes of the journal, the store
    and the log sinks, each held for a whole call, are implicit in that a call
    is one step.  The tests and the benchmarks are not part of the program.

    Outside the theorems: the values of a key that several threads change at
    once.  No general promise holds of them, as the schedules of Races.v show;
    what does hold of such a key is in Interleaving.v (its unflushed write is in
    the journal) and [Threads.read_fill_never_stale].  ServiceThreads.v proves
    what the threads of a service keep of the data, ServiceProcess.v what their
    states are when the service reports its own; the data is not followed
    through the second. *)
From Stdlib Require Export ZArith Lia.
From stdpp Require Export base numbers gmap strings list.
From Stdlib Require Import Strings.Byte.

#[export] Set Default Goal Selector "!".

(** ** Scope, hint database, tactics *)

Declare Scope qc_scope.
Delimit Scope qc_scope with qc.
Open Scope qc_scope.
Create HintDb qcache.
Create Rewrite HintDb qcache_len.

Abbreviation byte := Init.Byte.byte.
Abbreviation x00 := Init.Byte.x00.
Abbreviation bytes := (list Init.Byte.byte).

(** Case analysis on every match of the context and the goal, closing the
    cases that are contradictory. *)
Ltac crush_match :=
  intros; repeat (case_match; simplify_eq/=; try done); simplify_eq/=; try done.

(** Split every [let '(a, b) := e in ...] of the goal or of a hypothesis. *)
Ltac destruct_lets :=
  repeat match goal with
  | |- context [let '(_, _) := ?e in _] => destruct e eqn:?
  | H : context [let '(_, _) := ?e in _] |- _ => destruct e eqn:?
  end.

Ltac destruct_conj :=
  repeat match goal with
  | H : _ ∧ _ |- _ => destruct H
  | H : ∃ _, _ |- _ => destruct H
  end.

(** Turns boolean comparisons of [Z] in the context into propositions. *)
Ltac zbool :=
  repeat match goal with
  | H : (_ && _) = true |- _ => apply andb_prop in H; destruct H
  | H : (_ || _) = false |- _ => apply orb_false_elim in H; destruct H
  | H : negb _ = true |- _ => apply negb_true_iff in H
  | H : negb _ = false |- _ => apply negb_false_iff in H
  | H : (_ =? _)%Z = true |- _ => apply Z.eqb_eq in H
  | H : (_ =? _)%Z = false |- _ => apply Z.eqb_neq in H
  | H : (_ <? _)%Z = true |- _ => apply Z.ltb_lt in H
  | H : (_ <? _)%Z = false |- _ => apply Z.ltb_ge in H
  | H : (_ <=? _)%Z = true |- _ => apply Z.leb_le in H
  | H : (_ <=? _)%Z = false |- _ => apply Z.leb_gt in H
  end.

(** ** Machine integers: [Z] with an explicit width *)

Definition wrap (w : Z) (z : Z) : Z := (z mod 2 ^ w)%Z.
Definition in_width (w : Z) (z : Z) : Prop := (0 ≤ z < 2 ^ w)%Z.
Abbreviation wrap32 := (wrap 32).
Abbreviation wrap64 := (wrap 64).
Abbreviation u8 := (in_width 8).
Abbreviation u32 := (in_width 32).
Abbreviation u64 := (in_width 64).

Lemma wrap_width w z : (0 ≤ w)%Z → in_width w (wrap w z).
Proof. intros; unfold wrap, in_width. apply Z.mod_pos_bound. lia. Qed.

Lemma wrap_small w z : in_width w z → wrap w z = z.
Proof. apply Z.mod_small. Qed.

Lemma wrap_wrap w z : wrap w (wrap w z) = wrap w z.
Proof. apply Zmod_mod. Qed.

Lemma wrap_add_l w a b : wrap w (wrap w a + b) = wrap w (a + b).
Proof. apply Zplus_mod_idemp_l. Qed.

Lemma wrap_sub_l w a b : wrap w (wrap w a - b) = wrap w (a - b).
Proof. apply Zminus_mod_idemp_l. Qed.

#[export] Hint Rewrite wrap_wrap wrap_add_l wrap_sub_l : qcache_len.

(** ** Bytes *)

#[export] Instance byte_eq_dec : EqDecision byte := Byte.byte_eq_dec.

#[export] Instance byte_countable : Countable byte.
Proof.
  refine (inj_countable Byte.to_N Byte.of_N _).
  intros b. apply Byte.of_to_N.
Defined.

Definition byte_val (b : byte) : Z := Z.of_N (Byte.to_N b).

Definition byte_of (z : Z) : byte :=
  match Byte.of_N (Z.to_N (z mod 256)) with Some b => b | None => Byte.x00 end.

Lemma byte_val_range b : (0 ≤ byte_val b < 256)%Z.
Proof.
  unfold byte_val. pose proof (Byte.to_N_bounded b). lia.
Qed.

Lemma byte_of_val b : byte_of (byte_val b) = b.
Proof.
  unfold byte_of. pose proof (byte_val_range b).
  rewrite Z.mod_small by lia. unfold byte_val. rewrite N2Z.id.
  by rewrite Byte.of_to_N.
Qed.

Lemma byte_val_of z : byte_val (byte_of z) = (z mod 256)%Z.
Proof.
  unfold byte_of. pose proof (Z.mod_pos_bound z 256 ltac:(lia)) as Hb.
  destruct (Byte.of_N _) as [b|] eqn:E.
  - apply Byte.to_of_N in E. unfold byte_val. lia.
  - apply Byte.of_N_None_iff in E. lia.
Qed.

Lemma byte_val_inj a b : byte_val a = byte_val b → a = b.
Proof. intros E. by rewrite <- (byte_of_val a), E, byte_of_val. Qed.

(** ** Little-endian words

    [AppendRaw] copies the object representation of an integer into a byte
    buffer and [ReadRaw] copies it back ([std::memcpy]).  The targets of the
    build (x86-64 and x86, see CMakePresets.json) are little-endian. *)

Fixpoint le_bytes (n : nat) (z : Z) : bytes :=
  match n with
  | O => []
  | S n' => byte_of z :: le_bytes n' (z / 256)
  end.

Fixpoint le_val (bs : bytes) : Z :=
  match bs with
  | [] => 0
  | b :: bs' => byte_val b + 256 * le_val bs'
  end.

Lemma length_le_bytes n z : length (le_bytes n z) = n.
Proof. revert z. induction n; intros; simpl; auto. Qed.

Lemma pow256_S n : (256 ^ Z.of_nat (S n) = 256 * 256 ^ Z.of_nat n)%Z.
Proof. rewrite Nat2Z.inj_succ, Z.pow_succ_r; lia. Qed.

Lemma pow256_pos n : (0 < 256 ^ Z.of_nat n)%Z.
Proof. apply Z.pow_pos_nonneg; lia. Qed.

Lemma le_val_range bs : (0 ≤ le_val bs < 256 ^ Z.of_nat (length bs))%Z.
Proof.
  induction bs as [|b bs IH]; [simpl; lia|].
  cbn [length le_val]. rewrite pow256_S. pose proof (byte_val_range b). lia.
Qed.

Lemma le_val_le_bytes n z : le_val (le_bytes n z) = (z mod 256 ^ Z.of_nat n)%Z.
Proof.
  revert z. induction n as [|n IH]; intros z.
  - simpl. by rewrite Z.mod_1_r.
  - cbn [le_bytes le_val]. rewrite IH, byte_val_of, pow256_S.
    pose proof (pow256_pos n). rewrite Z.rem_mul_r; lia.
Qed.

Lemma le_bytes_le_val bs : le_bytes (length bs) (le_val bs) = bs.
Proof.
  induction bs as [|b bs IH]; [done|]. cbn [length le_bytes le_val].
  pose proof (byte_val_range b).
  assert ((byte_val b + 256 * le_val bs) / 256 = le_val bs)%Z as ->.
  { rewrite Z.mul_comm, Z.div_add by lia. rewrite Z.div_small; lia. }
  rewrite IH. f_equal. apply byte_val_inj.
  rewrite byte_val_of, Z.mul_comm, Z.mod_add by lia. apply Z.mod_small; lia.
Qed.

Lemma le_val_le_bytes_small n z :
  in_width (8 * Z.of_nat n) z → le_val (le_bytes n z) = z.
Proof.
  intros [? Hz]. rewrite le_val_le_bytes. apply Z.mod_small.
  rewrite Z.pow_mul_r in Hz by lia. change (2 ^ 8)%Z with 256%Z in Hz. lia.
Qed.

Lemma le_val_width n bs : length bs = n → in_width (8 * Z.of_nat n) (le_val bs).
Proof.
  intros <-. unfold in_width. rewrite Z.pow_mul_r by lia.
  change (2 ^ 8)%Z with 256%Z. apply le_val_range.
Qed.

Arguments le_bytes : simpl never.
Arguments le_val : simpl never.

(** ** Lists indexed by [Z] *)

Definition zlen {A} (l : list A) : Z := Z.of_nat (length l).

(** [slice l off len]: the bytes of [l] from [off], [len] of them at most. *)
Definition slice {A} (l : list A) (off len : Z) : list A :=
  take (Z.to_nat len) (drop (Z.to_nat off) l).

Lemma zlen_app {A} (l k : list A) : zlen (l ++ k) = (zlen l + zlen k)%Z.
Proof. unfold zlen. rewrite length_app. lia. Qed.

Lemma zlen_nonneg {A} (l : list A) : (0 ≤ zlen l)%Z.
Proof. unfold zlen. lia. Qed.

Lemma zlen_nil {A} : zlen (@nil A) = 0%Z.
Proof. done. Qed.

Lemma zlen_cons {A} (x : A) l : zlen (x :: l) = (1 + zlen l)%Z.
Proof. unfold zlen. simpl. lia. Qed.

Lemma zlen_le_bytes n z : zlen (le_bytes n z) = Z.of_nat n.
Proof. unfold zlen. by rewrite length_le_bytes. Qed.

#[export] Hint Rewrite @zlen_app @zlen_nil @zlen_cons zlen_le_bytes : qcache_len.

Lemma zlen_slice {A} (l : list A) off len :
  (0 ≤ off)%Z → (0 ≤ len)%Z → (off + len ≤ zlen l)%Z → zlen (slice l off len) = len.
Proof.
  intros. unfold zlen, slice in *. rewrite length_take, length_drop. lia.
Qed.

Lemma zlen_slice_le {A} (l : list A) off len : (0 ≤ len)%Z → (zlen (slice l off len) ≤ len)%Z.
Proof. intros. unfold zlen, slice. rewrite length_take. lia. Qed.

(** The middle of a concatenation. *)
Lemma slice_app_mid {A} (pre mid post : list A) :
  slice (pre ++ mid ++ post) (zlen pre) (zlen mid) = mid.
Proof.
  unfold slice, zlen. rewrite !Nat2Z.id.
  rewrite drop_app_length. apply take_app_length.
Qed.

Lemma slice_app_mid' {A} (pre mid post : list A) off len :
  off = zlen pre → len = zlen mid → slice (pre ++ mid ++ post) off len = mid.
Proof. intros -> ->. apply slice_app_mid. Qed.

Lemma slice_all {A} (l : list A) len : (zlen l ≤ len)%Z → slice l 0 len = l.
Proof. intros. unfold slice, zlen in *. simpl. apply take_ge. lia. Qed.

(** [f] applied to the position [n] of a list, nothing out of range. *)
Lemma lookup_alter_list {A} (f : A → A) (l : list A) i :
  alter f i l !! i = f <$> l !! i.
Proof. apply list_lookup_alter_eq. Qed.

(** ** Strings as byte sequences

    A [std::string] holds arbitrary bytes; the code copies them to and from
    byte buffers ([insert(end, key.begin(), key.end())], [key.assign(...)]). *)

Definition str_bytes (s : string) : bytes := String.list_byte_of_string s.
Definition bytes_str (bs : bytes) : string := String.string_of_list_byte bs.
Definition str_size (s : string) : Z := zlen (str_bytes s).

Lemma bytes_str_bytes s : bytes_str (str_bytes s) = s.
Proof. apply String.string_of_list_byte_of_string. Qed.

Lemma str_bytes_str bs : str_bytes (bytes_str bs) = bs.
Proof. apply String.list_byte_of_string_of_list_byte. Qed.

Lemma str_bytes_inj s t : str_bytes s = str_bytes t → s = t.
Proof. intros E. by rewrite <- (bytes_str_bytes s), E, bytes_str_bytes. Qed.

Lemma str_size_nonneg s : (0 ≤ str_size s)%Z.
Proof. apply zlen_nonneg. Qed.

(** ** Cursors

    [cursor buf off rest]: the offset [off] is inside [buf] and [rest] are the
    bytes from there to the end.  Every length-prefixed format of the program
    is read left to right, so the round trips and the soundness of the
    decoders are stated by moving a cursor. *)

Definition cursor (buf : bytes) (off : Z) (rest : bytes) : Prop :=
  (0 ≤ off)%Z ∧ (off + zlen rest = zlen buf)%Z ∧ drop (Z.to_nat off) buf = rest.

Lemma cursor_0 buf : cursor buf 0 buf.
Proof. unfold cursor. done. Qed.

Lemma cursor_split pre rest : cursor (pre ++ rest) (zlen pre) rest.
Proof.
  unfold cursor, zlen. rewrite Nat2Z.id, length_app, drop_app_length. split; [lia|].
  split; [lia|done].
Qed.

Lemma cursor_move buf off a rest :
  cursor buf off (a ++ rest) → cursor buf (off + zlen a) rest.
Proof.
  unfold cursor, zlen. rewrite length_app. intros (? & ? & Hd).
  split; [lia|]. split; [lia|].
  replace (Z.to_nat (off + _)) with (Z.to_nat off + length a)%nat by lia.
  rewrite <- drop_drop, Hd. apply drop_app_length.
Qed.

Lemma cursor_slice buf off a rest :
  cursor buf off (a ++ rest) → slice buf off (zlen a) = a.
Proof.
  intros (? & ? & Hd). unfold slice, zlen. rewrite Hd, Nat2Z.id. apply take_app_length.
Qed.

Lemma cursor_exists buf off :
  (0 ≤ off ≤ zlen buf)%Z → cursor buf off (drop (Z.to_nat off) buf).
Proof.
  intros. unfold cursor, zlen in *. rewrite length_drop. split; [lia|]. split; [lia|done].
Qed.

(** Cutting [len] bytes off the front of what a cursor points at. *)
Lemma cursor_cut buf off len rest :
  cursor buf off rest → (0 ≤ len ≤ zlen rest)%Z →
  rest = slice buf off len ++ drop (Z.to_nat len) rest ∧
  zlen (slice buf off len) = len ∧
  cursor buf (off + len) (drop (Z.to_nat len) rest).
Proof.
  intros Hc ?. assert (slice buf off len = take (Z.to_nat len) rest) as Hs.
  { destruct Hc as (_ & _ & <-). done. }
  rewrite Hs. split; [by rewrite take_drop|].
  assert (zlen (take (Z.to_nat len) rest) = len) as Hl.
  { unfold zlen in *. rewrite length_take. lia. }
  split; [done|]. rewrite <- Hl at 1. apply cursor_move. by rewrite take_drop.
Qed.

(** ** Sums over lists *)

Definition zsum {A} (f : A → Z) (l : list A) : Z :=
  foldr (λ x acc, (f x + acc)%Z) 0%Z l.

Lemma zsum_app {A} (f : A → Z) l k : zsum f (l ++ k) = (zsum f l + zsum f k)%Z.
Proof. induction l as [|x l IH]; simpl; lia. Qed.

Lemma zsum_nonneg {A} (f : A → Z) l : (∀ x, (0 ≤ f x)%Z) → (0 ≤ zsum f l)%Z.
Proof. intros Hf. induction l as [|x l IH]; simpl; [lia|]. pose proof (Hf x). lia. Qed.

Lemma zsum_ext_in {A} (f g : A → Z) l :
  (∀ x, x ∈ l → f x = g x) → zsum f l = zsum g l.
Proof.
  induction l as [|x l IH]; intros H; simpl; [done|].
  rewrite (H x), IH; [done| |]; intros; try apply H; set_solver.
Qed.

(** A sum over a list splits at a position of the list. *)
Lemma zsum_permute {A} (f : A → Z) l k : l ≡ₚ k → zsum f l = zsum f k.
Proof. induction 1; simpl; lia. Qed.

#[export] Instance zsum_proper {A} (f : A → Z) : Proper ((≡ₚ) ==> (=)) (zsum f).
Proof. intros l k. apply zsum_permute. Qed.
