(* ===== verification/Common.v ===== *)
(** * Common: ErrorCode, Error, Result and Crc32

    Models src/src/Common: the error taxonomy of ErrorCode.h, the [Result]
    type of Result.h and the table-driven CRC-32 of Crc32.cpp.

    [std::string] is Rocq's [string] (a list of 8-bit characters), a
    [std::vector<std::uint8_t>] is a [list byte]. *)
From S2P Require Import Prelude.

(** ** ErrorCode.h *)

Module ErrorCode.
Inductive ErrorCode :=
| Ok | Unknown | InvalidArgument | NotFound | AlreadyExists
| PermissionDenied | IoError | Timeout | CorruptData | VersionMismatch
| NotImplementedStage1
| UncleanShutdownDetected | RecoveryFailed | JournalCorrupt
| PlatformUnsupported | Win32ApiFailure
| CapacityExceeded | RecoveryNotComplete | CacheDisabled
| ServiceStopping | UnflushedDirtyData.

#[global] Instance ErrorCode_eq_dec : EqDecision ErrorCode.
Proof. solve_decision. Defined.

(** [static_cast<std::uint32_t>(code)]. *)
Definition ErrorCode_val (c : ErrorCode) : Z :=
match c with
| Ok => 0 | Unknown => 1 | InvalidArgument => 2 | NotFound => 3
| AlreadyExists => 4 | PermissionDenied => 5 | IoError => 6 | Timeout => 7
| CorruptData => 8 | VersionMismatch => 9
| NotImplementedStage1 => 100
| UncleanShutdownDetected => 200 | RecoveryFailed => 201 | JournalCorrupt => 202
| PlatformUnsupported => 300 | Win32ApiFailure => 301
| CapacityExceeded => 400 | RecoveryNotComplete => 401 | CacheDisabled => 402
| ServiceStopping => 403 | UnflushedDirtyData => 404
end.

Definition ErrorCode_ToString (c : ErrorCode) : string :=
match c with
| Ok => "Ok"
| Unknown => "Unknown"
| InvalidArgument => "InvalidArgument"
| NotFound => "NotFound"
| AlreadyExists => "AlreadyExists"
| PermissionDenied => "PermissionDenied"
| IoError => "IoError"
| Timeout => "Timeout"
| CorruptData => "CorruptData"
| VersionMismatch => "VersionMismatch"
| NotImplementedStage1 => "NotImplementedStage1"
| UncleanShutdownDetected => "UncleanShutdownDetected"
| RecoveryFailed => "RecoveryFailed"
| JournalCorrupt => "JournalCorrupt"
| PlatformUnsupported => "PlatformUnsupported"
| Win32ApiFailure => "Win32ApiFailure"
| CapacityExceeded => "CapacityExceeded"
| RecoveryNotComplete => "RecoveryNotComplete"
| CacheDisabled => "CacheDisabled"
| ServiceStopping => "ServiceStopping"
| UnflushedDirtyData => "UnflushedDirtyData"
end.

(** The numeric values of the codes are pairwise distinct 32-bit values. *)
Lemma ErrorCode_val_inj c d : ErrorCode_val c = ErrorCode_val d → c = d.
Proof. by destruct c, d. Qed.

Lemma ErrorCode_val_u32 c : u32 (ErrorCode_val c).
Proof. unfold in_width. by destruct c. Qed.

End ErrorCode.

Record Error := mkError {
  code : ErrorCode.ErrorCode;
  message : string;
  platformErrorValue : Z
}.

(** The default member initializers of [struct Error]. *)
Definition Error_default : Error := mkError ErrorCode.Ok "" 0.

Definition Error_IsOk (e : Error) : bool := bool_decide (code e = ErrorCode.Ok).

(** ** Result.h

    [Result<T>] holds a value or an error; [Result<void>] a flag and an error
    which is [Error{}] on success. *)

Inductive Result (T : Type) : Type :=
  | Success (v : T)
  | Failure (e : Error).
Arguments Success {T} v.
Arguments Failure {T} e.

Definition IsOk {T} (r : Result T) : bool :=
  match r with Success _ => true | Failure _ => false end.

(** [Err()] of a [Result<void>]: [Error{}] when the operation succeeded. *)
Definition Err (r : Result unit) : Error :=
  match r with Success _ => Error_default | Failure e => e end.

Definition result_code {T} (r : Result T) : ErrorCode.ErrorCode :=
  match r with Success _ => ErrorCode.Ok | Failure e => code e end.

(** ** Crc32.cpp *)
Module Crc32.
Open Scope Z_scope.

(** The body of the inner loop of [BuildTable]. *)
Definition table_bit (c : Z) : Z :=
  if Z.testbit c 0 then Z.lxor 0xEDB88320 (Z.shiftr c 1) else Z.shiftr c 1.

(** [for (int k = 0; k < 8; ++k)]. *)
Definition table_entry (i : Z) : Z := Nat.iter 8 table_bit i.

Definition BuildTable : list Z := table_entry <$> (Z.of_nat <$> seq 0 256).

Definition kCrcTable : list Z := Eval vm_compute in BuildTable.

(** [crc = kCrcTable[(crc ^ bytes[i]) & 0xFFu] ^ (crc >> 8)]. *)
Definition step (crc : Z) (b : byte) : Z :=
  Z.lxor (nth (Z.to_nat (Z.land (Z.lxor crc (byte_val b)) 0xFF)) kCrcTable 0)
         (Z.shiftr crc 8).

(** [Compute(data, length, seed)]. *)
Definition Compute_seed (data : bytes) (seed : Z) : Z := foldl step seed data.

(** [Compute(data, length)]. *)
Definition Compute (data : bytes) : Z :=
  Z.lxor (Compute_seed data 0xFFFFFFFF) 0xFFFFFFFF.

(** *** The reference

    CRC-32 as its standard defines it, with nothing of the table in it: the
    message, the bits of each byte the low one first, is a polynomial over two
    elements; its first 32 coefficients are inverted, 32 zero coefficients
    follow it, and the checksum is the remainder of its division by the
    generator

      x^32 + x^26 + x^23 + x^22 + x^16 + x^12 + x^11 + x^10 + x^8 + x^7 + x^5 +
      x^4 + x^2 + x + 1,

    inverted, the coefficient of x^31 in the low bit. *)

(** The generator without its leading term, highest coefficient first. *)
Definition generator : list bool :=
  map (λ i, bool_decide (i ∈ [26; 23; 22; 16; 12; 11; 10; 8; 7; 5; 4; 2; 1; 0]%nat)) (rev (seq 0 32)).

Definition byte_bits (b : byte) : list bool := map (λ i, Z.testbit (byte_val b) (Z.of_nat i)) (seq 0 8).

Definition message_bits (data : bytes) : list bool := flat_map byte_bits data.

(** [a] added to the first coefficients of [p]. *)
Fixpoint add_front (a p : list bool) : list bool :=
  match a, p with
  | x :: a, y :: p => xorb x y :: add_front a p
  | _, _ => p
  end.

(** [n] steps of the long division: where the leading coefficient is one, the
    generator is subtracted, which takes it away. *)
Fixpoint long_division (n : nat) (p : list bool) : list bool :=
  match n, p with
  | S n, lead :: p => long_division n (if lead then add_front generator p else p)
  | _, _ => p
  end.

(** The number with these bits, the low one first. *)
Fixpoint bits_val (bits : list bool) : Z :=
  match bits with
  | [] => 0
  | b :: bits => Z.b2z b + 2 * bits_val bits
  end.

Definition crc32 (data : bytes) : Z :=
  let message := message_bits data in
  let dividend := add_front (repeat true 32) (message ++ repeat false 32) in
  bits_val (map negb (long_division (length message) dividend)).

(** Equations between exclusive ors, bit by bit. *)
Ltac xor_bits :=
  apply Z.bits_inj'; intros n ?; rewrite ?Z.land_spec, ?Z.lxor_spec, ?Z.land_spec;
  repeat match goal with |- context [Z.testbit ?z n] => destruct (Z.testbit z n) end;
  done.

Lemma table_bit_lxor x y : table_bit (Z.lxor x y) = Z.lxor (table_bit x) (table_bit y).
Proof.
  unfold table_bit. rewrite Z.lxor_spec, Z.shiftr_lxor.
  destruct (Z.testbit x 0), (Z.testbit y 0); cbn [xorb]; xor_bits.
Qed.

Lemma iter_table_bit_lxor n x y :
  Nat.iter n table_bit (Z.lxor x y) =
  Z.lxor (Nat.iter n table_bit x) (Nat.iter n table_bit y).
Proof. induction n as [|n IH]; [done|]. simpl. by rewrite IH, table_bit_lxor. Qed.

(** Zero bits shift out without touching the register. *)
Lemma iter_table_bit_shiftl n h :
  (n ≤ 8)%nat →
  Nat.iter n table_bit (Z.shiftl h 8) = Z.shiftl h (8 - Z.of_nat n).
Proof.
  induction n as [|n IH]; intros Hn; [done|]. simpl Nat.iter.
  rewrite IH by lia. unfold table_bit.
  rewrite Z.shiftl_spec_low by lia.
  rewrite <- Z.shiftl_opp_r, Z.shiftl_shiftl by lia. f_equal. lia.
Qed.

Lemma split_low8 z : z = Z.lxor (Z.land z 0xFF) (Z.shiftl (Z.shiftr z 8) 8).
Proof.
  change 0xFF with (Z.ones 8). apply Z.bits_inj'. intros n Hn.
  rewrite Z.lxor_spec, Z.land_spec.
  destruct (decide (n < 8)).
  - rewrite Z.ones_spec_low, Z.shiftl_spec_low by lia. by destruct (Z.testbit z n).
  - rewrite Z.ones_spec_high, Z.shiftl_spec_high, Z.shiftr_spec by lia.
    rewrite andb_false_r. simpl. f_equal. lia.
Qed.

Lemma low8_range z : 0 ≤ Z.land z 0xFF < 256.
Proof. change 0xFF with (Z.ones 8). rewrite Z.land_ones by lia. apply Z.mod_pos_bound. lia. Qed.

Lemma kCrcTable_nth i : 0 ≤ i < 256 → nth (Z.to_nat i) kCrcTable 0 = table_entry i.
Proof.
  intros Hi. change kCrcTable with BuildTable. unfold BuildTable.
  rewrite <- list_fmap_compose.
  rewrite nth_lookup, list_lookup_fmap, lookup_seq_lt by lia. simpl. f_equal. lia.
Qed.

Lemma byte_val_shiftr8 b : Z.shiftr (byte_val b) 8 = 0.
Proof.
  pose proof (byte_val_range b). rewrite Z.shiftr_div_pow2 by lia.
  apply Z.div_small. simpl. lia.
Qed.

(** A step is eight shifts of the register, the byte entering at its low end. *)
Lemma step_bits crc b : step crc b = Nat.iter 8 table_bit (Z.lxor crc (byte_val b)).
Proof.
  unfold step. rewrite kCrcTable_nth by apply low8_range.
  set (z := Z.lxor crc (byte_val b)).
  rewrite (split_low8 z) at 2. rewrite iter_table_bit_lxor.
  unfold table_entry. f_equal.
  rewrite iter_table_bit_shiftl by lia. simpl. rewrite Z.shiftl_0_r.
  unfold z. by rewrite Z.shiftr_lxor, byte_val_shiftr8, Z.lxor_0_r.
Qed.

(** *** The register stays a 32-bit value *)

Lemma u32_lxor a b : u32 a → u32 b → u32 (Z.lxor a b).
Proof.
  unfold in_width. intros [??] [??]. split; [by apply Z.lxor_nonneg|].
  destruct (decide (Z.lxor a b = 0)) as [->|Hne]; [lia|].
  assert (0 ≤ Z.lxor a b) by (by apply Z.lxor_nonneg).
  apply Z.log2_lt_pow2; [lia|].
  pose proof (Z.log2_lxor a b ltac:(lia) ltac:(lia)) as Hl.
  assert (∀ x, 0 ≤ x < 2 ^ 32 → Z.log2 x < 32) as Hx.
  { intros x ?. destruct (decide (x = 0)) as [->|]; [done|].
    apply Z.log2_lt_pow2; lia. }
  pose proof (Hx a ltac:(lia)). pose proof (Hx b ltac:(lia)). lia.
Qed.

Lemma u32_shiftr a n : 0 ≤ n → u32 a → u32 (Z.shiftr a n).
Proof.
  unfold in_width. intros ? [??]. split; [by apply Z.shiftr_nonneg|].
  rewrite Z.shiftr_div_pow2 by lia.
  apply Z.div_lt_upper_bound; [apply Z.pow_pos_nonneg; lia|].
  pose proof (Z.pow_pos_nonneg 2 n ltac:(lia) ltac:(lia)). nia.
Qed.

Lemma table_entry_u32 i : 0 ≤ i < 256 → u32 (table_entry i).
Proof.
  intros Hi.
  assert (Forall (λ x, u32 x) kCrcTable) as Hall.
  { apply List.Forall_forall. intros x Hx.
    assert (forallb (λ x, (0 <=? x) && (x <? 2 ^ 32)) kCrcTable = true) as Hb by done.
    rewrite forallb_forall in Hb. specialize (Hb x Hx).
    zbool. done. }
  rewrite Forall_lookup in Hall. rewrite <- kCrcTable_nth by done.
  eapply (Hall (Z.to_nat i)). rewrite nth_lookup.
  destruct (lookup_lt_is_Some_2 kCrcTable (Z.to_nat i)) as [x ->]; [|done].
  change (length kCrcTable) with 256%nat. lia.
Qed.

Lemma step_u32 crc b : u32 crc → u32 (step crc b).
Proof.
  intros. unfold step. rewrite kCrcTable_nth by apply low8_range.
  apply u32_lxor; [apply table_entry_u32, low8_range|]. by apply u32_shiftr.
Qed.

Lemma Compute_seed_u32 data seed : u32 seed → u32 (Compute_seed data seed).
Proof.
  revert seed. induction data as [|b data IH]; intros seed ?; [done|].
  apply IH. by apply step_u32.
Qed.

Lemma Compute_u32_aux data : u32 (Compute data).
Proof. apply u32_lxor; [|done]. by apply Compute_seed_u32. Qed.

(** *** Error detection

    The high bytes of the table entries are a permutation of the bytes, so
    a step is injective in the register and in the byte. *)

Lemma table_high_inj i j :
  0 ≤ i < 256 → 0 ≤ j < 256 →
  Z.shiftr (table_entry i) 24 = Z.shiftr (table_entry j) 24 → i = j.
Proof.
  intros Hi Hj E.
  assert (NoDup ((λ x, Z.shiftr x 24) <$> kCrcTable)) as Hnd by
    (apply (bool_decide_unpack _); by vm_compute).
  assert (∀ k, 0 ≤ k < 256 →
    ((λ x, Z.shiftr x 24) <$> kCrcTable) !! Z.to_nat k = Some (Z.shiftr (table_entry k) 24)) as Hk.
  { intros k ?. rewrite list_lookup_fmap, <- kCrcTable_nth, nth_lookup by done.
    destruct (lookup_lt_is_Some_2 kCrcTable (Z.to_nat k)) as [x ->]; [|done].
    change (length kCrcTable) with 256%nat. lia. }
  assert (Z.to_nat i = Z.to_nat j); [|lia].
  eapply NoDup_lookup; [done| by apply Hk |]. rewrite E. by apply Hk.
Qed.

Lemma step_high crc b :
  u32 crc →
  Z.shiftr (step crc b) 24 =
  Z.shiftr (table_entry (Z.land (Z.lxor crc (byte_val b)) 0xFF)) 24.
Proof.
  intros [??]. unfold step. rewrite kCrcTable_nth by apply low8_range.
  rewrite Z.shiftr_lxor, Z.shiftr_shiftr by lia. simpl (8 + 24).
  rewrite (Z.shiftr_div_pow2 crc), (Z.div_small crc) by lia. apply Z.lxor_0_r.
Qed.

Lemma lxor_cancel_l a b c : Z.lxor a b = Z.lxor a c → b = c.
Proof.
  intros E. apply (f_equal (Z.lxor a)) in E.
  by rewrite <- !Z.lxor_assoc, Z.lxor_nilpotent, !Z.lxor_0_l in E.
Qed.

Lemma step_inj_index crc crc' b b' :
  u32 crc → u32 crc' → step crc b = step crc' b' →
  Z.land (Z.lxor crc (byte_val b)) 0xFF = Z.land (Z.lxor crc' (byte_val b')) 0xFF ∧
  Z.shiftr crc 8 = Z.shiftr crc' 8.
Proof.
  intros Hc Hc' E.
  assert (Z.land (Z.lxor crc (byte_val b)) 0xFF = Z.land (Z.lxor crc' (byte_val b')) 0xFF) as Hi.
  { apply table_high_inj; [apply low8_range..|].
    by rewrite <- !step_high, E by done. }
  split; [done|]. unfold step in E. rewrite Hi in E.
  by apply lxor_cancel_l in E.
Qed.

Lemma byte_val_low8 b : Z.land (byte_val b) 0xFF = byte_val b.
Proof.
  pose proof (byte_val_range b). change 0xFF with (Z.ones 8).
  rewrite Z.land_ones by lia. apply Z.mod_small. simpl. lia.
Qed.

Lemma land_lxor_low a b :
  Z.land (Z.lxor a b) 0xFF = Z.lxor (Z.land a 0xFF) (Z.land b 0xFF).
Proof. xor_bits. Qed.

Lemma step_inj_byte crc b b' : u32 crc → step crc b = step crc b' → b = b'.
Proof.
  intros Hc E. apply byte_val_inj.
  destruct (step_inj_index _ _ _ _ Hc Hc E) as [Hi _].
  rewrite !land_lxor_low, !byte_val_low8 in Hi. by apply lxor_cancel_l in Hi.
Qed.

Lemma step_inj_crc crc crc' b : u32 crc → u32 crc' → step crc b = step crc' b → crc = crc'.
Proof.
  intros Hc Hc' E. destruct (step_inj_index _ _ _ _ Hc Hc' E) as [Hi Hs].
  rewrite !land_lxor_low, !(Z.lxor_comm _ (Z.land (byte_val b) _)) in Hi.
  apply lxor_cancel_l in Hi.
  by rewrite (split_low8 crc), (split_low8 crc'), Hi, Hs.
Qed.

Lemma Compute_seed_inj data crc crc' :
  u32 crc → u32 crc' → Compute_seed data crc = Compute_seed data crc' → crc = crc'.
Proof.
  revert crc crc'. induction data as [|b data IH]; intros crc crc' Hc Hc' E; [done|].
  apply (step_inj_crc _ _ b); [done..|]. apply IH; [by apply step_u32..|done].
Qed.

Lemma Compute_single_byte_aux pre b b' post :
  Compute (pre ++ b :: post) = Compute (pre ++ b' :: post) → b = b'.
Proof.
  unfold Compute, Compute_seed. rewrite !foldl_app. simpl. intros E.
  rewrite !(Z.lxor_comm _ 0xFFFFFFFF) in E. apply lxor_cancel_l in E.
  assert (u32 (Compute_seed pre 0xFFFFFFFF)) by (by apply Compute_seed_u32).
  apply Compute_seed_inj in E; [|by apply step_u32..]. by apply step_inj_byte in E.
Qed.

(** *** The table against the division *)

Lemma bits_val_cons b bits : bits_val (b :: bits) = Z.b2z b + 2 * bits_val bits.
Proof. done. Qed.

Lemma bits_val_bit0 b bits : Z.testbit (bits_val (b :: bits)) 0 = b.
Proof. rewrite bits_val_cons. apply Z.add_b2z_double_bit0. Qed.

Lemma bits_val_shift b bits : Z.shiftr (bits_val (b :: bits)) 1 = bits_val bits.
Proof. rewrite bits_val_cons, <- Z.div2_spec, Z.div2_div. apply Z.add_b2z_double_div2. Qed.

Lemma bits_val_snoc bits : bits_val (bits ++ [false]) = bits_val bits.
Proof. induction bits as [|b bits IH]; [done|]. cbn [app bits_val]. by rewrite IH. Qed.

(** A number from its low bit and the rest. *)
Lemma low_bit_ext x y : Z.testbit x 0 = Z.testbit y 0 → Z.shiftr x 1 = Z.shiftr y 1 → x = y.
Proof.
  intros H0 H1. rewrite (Z.div2_odd x), (Z.div2_odd y), <- !Z.bit0_odd, !Z.div2_spec, H0, H1. done.
Qed.

Lemma bits_val_add a : ∀ p, length a = length p → bits_val (add_front a p) = Z.lxor (bits_val a) (bits_val p).
Proof.
  induction a as [|x a IH]; intros [|y p] Hl; try done. apply low_bit_ext.
  - cbn [add_front]. by rewrite Z.lxor_spec, !bits_val_bit0.
  - cbn [add_front]. rewrite Z.shiftr_lxor, !bits_val_shift. apply IH. by injection Hl.
Qed.

Lemma length_add_front a : ∀ p, length (add_front a p) = length p.
Proof. induction a as [|x a IH]; intros [|y p]; cbn; try done. by rewrite IH. Qed.

Lemma add_front_assoc a : ∀ b p,
  length a = length b → (length b ≤ length p)%nat → add_front a (add_front b p) = add_front (add_front a b) p.
Proof.
  induction a as [|x a IH]; intros [|y b] [|z p]; cbn; intros; try done; try lia.
  f_equal; [by rewrite xorb_assoc|apply IH; lia].
Qed.

Lemma add_front_snoc a : ∀ p, (length a < length p)%nat → add_front (a ++ [false]) p = add_front a p.
Proof.
  induction a as [|x a IH]; intros [|z p]; cbn; intros; try done; try lia.
  f_equal. apply IH. lia.
Qed.

Lemma add_front_zeros r : add_front r (repeat false (length r)) = r.
Proof. induction r as [|x r IH]; cbn; [done|]. by rewrite IH, xorb_false_r. Qed.

(** The division with only the next 32 coefficients at hand: what is taken away
    is kept in a register, which the coefficients of the message meet one by
    one. *)
Definition divide_bit (r : list bool) (b : bool) : list bool :=
  match r with
  | [] => []
  | x :: r => if xorb x b then add_front generator (r ++ [false]) else r ++ [false]
  end.

Lemma length_divide_bit r b : length (divide_bit r b) = length r.
Proof.
  destruct r as [|x r]; [done|]. cbn [divide_bit]. destruct (xorb x b); rewrite ?length_add_front, length_app; cbn; lia.
Qed.

Lemma division_register msg : ∀ r, length r = 32%nat →
  long_division (length msg) (add_front r (msg ++ repeat false 32)) = foldl divide_bit r msg.
Proof.
  induction msg as [|b msg IH]; intros r Hr.
  - rewrite <- Hr at 1. apply add_front_zeros.
  - destruct r as [|x r]; [done|]. cbn [app add_front length long_division foldl].
    set (p := msg ++ repeat false 32).
    assert (length p = length msg + 32)%nat as Hp by (unfold p; by rewrite length_app, repeat_length).
    injection Hr as Hr.
    replace (if xorb x b then add_front generator (add_front r p) else add_front r p)
      with (add_front (divide_bit (x :: r) b) p).
    { apply IH. rewrite length_divide_bit. cbn. by rewrite Hr. }
    cbn [divide_bit]. rewrite <- (add_front_snoc r) by lia.
    destruct (xorb x b); [|done]. rewrite add_front_assoc; [done|..]; rewrite length_app, Hr; [done|cbn; lia].
Qed.

Lemma bits_val_generator : bits_val generator = 0xEDB88320.
Proof. by vm_compute. Qed.

Lemma divide_bit_val r b :
  length r = 32%nat → bits_val (divide_bit r b) = table_bit (Z.lxor (bits_val r) (Z.b2z b)).
Proof.
  destruct r as [|x r]; intros Hr; [done|]. injection Hr as Hr. unfold table_bit.
  rewrite Z.lxor_spec, bits_val_bit0, Z.b2z_bit0, Z.shiftr_lxor, bits_val_shift.
  assert (Z.shiftr (Z.b2z b) 1 = 0) as -> by (by destruct b). rewrite Z.lxor_0_r. cbn [divide_bit].
  destruct (xorb x b); [|by rewrite bits_val_snoc].
  rewrite bits_val_add, bits_val_generator, bits_val_snoc; [done|]. by rewrite length_app, Hr.
Qed.

(** A bit may enter the register before the shift or after it. *)
Lemma table_bit_in c b v : table_bit (Z.lxor c (Z.b2z b + 2 * v)) = Z.lxor (table_bit (Z.lxor c (Z.b2z b))) v.
Proof.
  unfold table_bit. rewrite !Z.lxor_spec, Z.add_b2z_double_bit0, Z.b2z_bit0, !Z.shiftr_lxor.
  assert (Z.shiftr (Z.b2z b + 2 * v) 1 = v) as -> by (rewrite <- Z.div2_spec, Z.div2_div; apply Z.add_b2z_double_div2).
  assert (Z.shiftr (Z.b2z b) 1 = 0) as -> by (by destruct b). rewrite Z.lxor_0_r.
  destruct (xorb _ _); [|done]. by rewrite Z.lxor_assoc.
Qed.

Lemma divide_bits_val bits : ∀ r, length r = 32%nat →
  length (foldl divide_bit r bits) = 32%nat ∧
  bits_val (foldl divide_bit r bits) = Nat.iter (length bits) table_bit (Z.lxor (bits_val r) (bits_val bits)).
Proof.
  induction bits as [|b bits IH]; intros r Hr; [cbn; by rewrite Z.lxor_0_r|].
  destruct (IH (divide_bit r b)) as [Hl Hv]; [by rewrite length_divide_bit|]. split; [done|].
  cbn [foldl length]. rewrite Nat.iter_succ_r, bits_val_cons, table_bit_in, <- divide_bit_val by done. exact Hv.
Qed.

Lemma bits_val_byte b : bits_val (byte_bits b) = byte_val b.
Proof. by destruct b. Qed.

Lemma divide_message data : ∀ r, length r = 32%nat →
  length (foldl divide_bit r (message_bits data)) = 32%nat ∧
  bits_val (foldl divide_bit r (message_bits data)) = Compute_seed data (bits_val r).
Proof.
  induction data as [|b data IH]; intros r Hr; [done|]. unfold message_bits. cbn [flat_map]. rewrite foldl_app.
  destruct (divide_bits_val (byte_bits b) r Hr) as [Hl Hv]. destruct (IH _ Hl) as [Hl' Hv']. split; [done|].
  unfold message_bits in Hv'. rewrite Hv', Hv, bits_val_byte. unfold Compute_seed. cbn [foldl]. by rewrite step_bits.
Qed.

Lemma bits_val_negb bits : bits_val (map negb bits) = Z.lxor (bits_val bits) (bits_val (repeat true (length bits))).
Proof.
  induction bits as [|b bits IH]; [done|]. cbn [map length repeat]. apply low_bit_ext.
  - rewrite Z.lxor_spec, !bits_val_bit0. by destruct b.
  - by rewrite Z.shiftr_lxor, !bits_val_shift.
Qed.

(** C40: the table-driven checksum is the CRC-32 of its standard: the remainder
    of the division of the message by the generator polynomial, with the
    conventions on the order of bits, initial value and complement of
    [crc32], on every input. *)
Theorem Compute_is_polynomial_remainder (data : bytes) : Compute data = crc32 data.
Proof.
  unfold crc32. cbv zeta. rewrite division_register by done.
  destruct (divide_message data (repeat true 32) eq_refl) as [Hl Hv].
  rewrite bits_val_negb, Hl, Hv. by vm_compute (bits_val (repeat true 32)).
Qed.

(** A change of one byte, anywhere, changes the checksum. *)
Theorem Compute_detects_single_byte (pre post : bytes) (b b' : byte) :
  b ≠ b' → Compute (pre ++ b :: post) ≠ Compute (pre ++ b' :: post).
Proof. intros Hne E. by apply Hne, (Compute_single_byte_aux pre _ _ post). Qed.

(** The check value of the CRC-32 catalogue ("123456789"). *)
Example Compute_check :
  Compute (String.list_byte_of_string "123456789") = 0xCBF43926.
Proof. reflexivity. Qed.

End Crc32.

(** Proofs reason on the checksum through its lemmas; [vm_compute] still
    evaluates it. *)
#[global] Opaque Crc32.Compute.
