(* ===== verification/Wire.v ===== *)
(** * Wire: raw reads and writes on byte buffers

    The templates [AppendRaw], [ReadRaw] and [ReadBytes] that
    JournalRecordCodec.cpp and MessageCodec.cpp each define for themselves.
    A reader returns the value and the advanced offset, or [None] where the
    code returns [false] and leaves its arguments alone. *)
From S2P Require Import Prelude.
Open Scope Z_scope.

(** [buffer.insert(buffer.end(), bytes, bytes + sizeof(T))]. *)
Definition AppendRaw (size : nat) (buffer : bytes) (value : Z) : bytes :=
  buffer ++ le_bytes size value.

Definition ReadRaw (size : nat) (buffer : bytes) (offset : Z) : option (Z * Z) :=
  if zlen buffer <? offset + Z.of_nat size then None
  else Some (le_val (slice buffer offset (Z.of_nat size)), offset + Z.of_nat size).

Definition ReadBytes (buffer : bytes) (offset length : Z) : option (bytes * Z) :=
  if zlen buffer <? offset + length then None
  else Some (slice buffer offset length, offset + length).

Lemma ReadRaw_cursor n buf off v rest :
  in_width (8 * Z.of_nat n) v →
  cursor buf off (le_bytes n v ++ rest) →
  ReadRaw n buf off = Some (v, off + Z.of_nat n) ∧
  cursor buf (off + Z.of_nat n) rest.
Proof.
  intros Hv Hc. pose proof (cursor_slice _ _ _ _ Hc) as Hs.
  pose proof (cursor_move _ _ _ _ Hc) as Hm. rewrite zlen_le_bytes in Hs, Hm.
  split; [|done]. unfold ReadRaw.
  destruct Hc as (_ & Hl & _). rewrite zlen_app, zlen_le_bytes in Hl.
  pose proof (zlen_nonneg rest).
  destruct (Z.ltb_spec (zlen buf) (off + Z.of_nat n)); [lia|].
  by rewrite Hs, le_val_le_bytes_small.
Qed.

Lemma ReadBytes_cursor buf off bs rest :
  cursor buf off (bs ++ rest) →
  ReadBytes buf off (zlen bs) = Some (bs, off + zlen bs) ∧
  cursor buf (off + zlen bs) rest.
Proof.
  intros Hc. pose proof (cursor_slice _ _ _ _ Hc) as Hs.
  split; [|by apply cursor_move]. unfold ReadBytes.
  destruct Hc as (_ & Hl & _). rewrite zlen_app in Hl. pose proof (zlen_nonneg rest).
  destruct (Z.ltb_spec (zlen buf) (off + zlen bs)); [lia|]. by rewrite Hs.
Qed.

(** A read past the end of the buffer is refused. *)
Lemma ReadRaw_short n buf off rest :
  cursor buf off rest → zlen rest < Z.of_nat n → ReadRaw n buf off = None.
Proof.
  intros (_ & Hl & _) ?. unfold ReadRaw.
  destruct (Z.ltb_spec (zlen buf) (off + Z.of_nat n)); [done|lia].
Qed.

Lemma ReadBytes_short buf off len rest :
  cursor buf off rest → zlen rest < len → ReadBytes buf off len = None.
Proof.
  intros (_ & Hl & _) ?. unfold ReadBytes.
  destruct (Z.ltb_spec (zlen buf) (off + len)); [done|lia].
Qed.

(** What a successful read says of the buffer. *)
Lemma ReadRaw_inv n buf off rest v off' :
  cursor buf off rest → ReadRaw n buf off = Some (v, off') →
  ∃ rest', rest = le_bytes n v ++ rest' ∧ off' = off + Z.of_nat n ∧
           cursor buf off' rest' ∧ in_width (8 * Z.of_nat n) v.
Proof.
  intros Hc. unfold ReadRaw. destruct (Z.ltb_spec (zlen buf) (off + Z.of_nat n)); [done|].
  intros ?; simplify_eq. destruct Hc as (Hoff & Hl & Hd) eqn:E; clear E.
  destruct (cursor_cut buf off (Z.of_nat n) rest) as (Hr & Hs & Hm); [done|lia|].
  eexists. split; [|split; [done|split; [exact Hm|]]].
  - rewrite Hr at 1. f_equal. rewrite <- (le_bytes_le_val (slice _ _ _)) at 1.
    f_equal. unfold zlen in Hs. lia.
  - apply le_val_width. unfold zlen in Hs. lia.
Qed.

Lemma ReadBytes_inv buf off len rest bs off' :
  0 ≤ len → cursor buf off rest → ReadBytes buf off len = Some (bs, off') →
  ∃ rest', rest = bs ++ rest' ∧ off' = off + len ∧ cursor buf off' rest' ∧ zlen bs = len.
Proof.
  intros ? Hc. unfold ReadBytes. destruct (Z.ltb_spec (zlen buf) (off + len)); [done|].
  intros ?; simplify_eq. pose proof Hc as (Hoff & Hl & Hd).
  destruct (cursor_cut buf off len rest) as (Hr & Hs & Hm); [done|lia|].
  eexists. by split.
Qed.

(** One step of a round trip: the reader at the head of the goal consumes what
    its cursor hypothesis says comes next. *)
Ltac read_next :=
  match goal with
  | Hc : cursor ?buf ?off (le_bytes ?n ?v ++ _) |- context [ReadRaw ?n ?buf ?off] =>
      let E := fresh in let Hc' := fresh "Hcur" in
      destruct (ReadRaw_cursor n buf off v _ ltac:(done) Hc) as [E Hc'];
      rewrite E; clear E Hc; cbv iota beta
  | Hc : cursor ?buf ?off (?bs ++ _) |- context [ReadBytes ?buf ?off _] =>
      let E := fresh in let Hc' := fresh "Hcur" in
      destruct (ReadBytes_cursor buf off bs _ Hc) as [E Hc'];
      rewrite E; clear E Hc; cbv iota beta
  end.
