(* ===== verification/Scan.v ===== *)
(** * Scan: logs of framed records

    The journal and the backing store keep the same kind of file: records
    framed one after the other, read from the front until something is not a
    whole record.  [Framing] is what a parser and its encoder owe each other;
    the lemmas on [scan_of] (the records a scan delivers), [encs] (a content
    made of records) and [clean_log] (nothing behind the last record) follow
    from it, once for both files. *)
From S2P Require Import Prelude.
Open Scope Z_scope.

Class Framing {R : Type} (parse : bytes → option R * bytes) (enc : R → bytes) (ok : R → Prop) := {
  parse_enc r rest : ok r → parse (enc r ++ rest) = (Some r, rest);
  parse_sound c r rest : parse c = (Some r, rest) → ok r ∧ c = enc r ++ rest;
  enc_pos r : (0 < length (enc r))%nat
}.

Fixpoint scan {R} (parse : bytes → option R * bytes) (fuel : nat) (c : bytes) : list R :=
  match fuel with
  | O => []
  | S fuel =>
    match parse c with
    | (None, _) => []
    | (Some r, rest) => r :: scan parse fuel rest
    end
  end.

(** The records of a content. *)
Definition scan_of {R} (parse : bytes → option R * bytes) (c : bytes) : list R :=
  scan parse (S (length c)) c.

(** The content made of records. *)
Definition encs {R} (enc : R → bytes) (rs : list R) : bytes := rs ≫= enc.

(** A content that is exactly its records: nothing torn. *)
Definition clean_log {R} (parse : bytes → option R * bytes) (enc : R → bytes) (c : bytes) : Prop :=
  c = encs enc (scan_of parse c).

Lemma encs_app {R} (enc : R → bytes) rs ts : encs enc (rs ++ ts) = encs enc rs ++ encs enc ts.
Proof. apply bind_app. Qed.

Lemma encs_cons {R} (enc : R → bytes) r rs : encs enc (r :: rs) = enc r ++ encs enc rs.
Proof. done. Qed.

Lemma encs_single {R} (enc : R → bytes) r : encs enc [r] = enc r.
Proof. apply app_nil_r. Qed.

Section scans.
Context `{Framing R parse enc ok}.

Lemma parse_shorter c r rest :
  parse c = (Some r, rest) → (length rest < length c)%nat.
Proof.
  intros E. apply parse_sound in E as [_ ->]. rewrite length_app. pose proof (enc_pos r). lia.
Qed.

Lemma scan_fuel n m c :
  (length c < n)%nat → (length c < m)%nat → scan parse n c = scan parse m c.
Proof.
  revert m c. induction n as [|n IH]; intros m c Hn Hm; [lia|].
  destruct m as [|m]; [lia|]. cbn [scan].
  destruct (parse c) as [[r|] rest] eqn:E; [|done].
  pose proof (parse_shorter _ _ _ E). f_equal. apply IH; lia.
Qed.

Lemma scan_of_Some c r rest :
  parse c = (Some r, rest) → scan_of parse c = r :: scan_of parse rest.
Proof.
  intros E. unfold scan_of at 1. cbn [scan]. rewrite E. f_equal.
  pose proof (parse_shorter _ _ _ E). apply scan_fuel; lia.
Qed.

Lemma scan_of_None c : fst (parse c) = None → scan_of parse c = [].
Proof. unfold scan_of. cbn [scan]. by destruct (parse c) as [[r|] rest]. Qed.

Lemma scan_of_nil : scan_of parse [] = [].
Proof.
  apply scan_of_None. destruct (parse []) as [[r|] rest] eqn:E; [|done].
  apply parse_shorter in E. cbn in E. lia.
Qed.

Lemma scan_of_ok c : Forall ok (scan_of parse c).
Proof.
  unfold scan_of. generalize (S (length c)). intros n. revert c.
  induction n as [|n IH]; intros c; cbn [scan]; [done|].
  destruct (parse c) as [[r|] rest] eqn:E; [|done].
  apply parse_sound in E as [? _]. by constructor.
Qed.

Lemma scan_of_app rs t :
  Forall ok rs → scan_of parse (encs enc rs ++ t) = rs ++ scan_of parse t.
Proof.
  induction 1 as [|r rs Hr Hrs IH]; [done|]. rewrite encs_cons, <- app_assoc.
  rewrite (scan_of_Some _ r (encs enc rs ++ t)); [|by apply parse_enc]. by rewrite IH.
Qed.

Lemma scan_of_encs rs : Forall ok rs → scan_of parse (encs enc rs) = rs.
Proof.
  intros Hrs. pose proof (scan_of_app rs [] Hrs) as E.
  by rewrite app_nil_r, scan_of_nil, app_nil_r in E.
Qed.

(** The records of a content stand at its front. *)
Lemma scan_of_front c : ∃ rest, c = encs enc (scan_of parse c) ++ rest ∧ fst (parse rest) = None.
Proof.
  unfold scan_of. assert (length c < S (length c))%nat as Hlt by lia. revert Hlt.
  generalize (S (length c)). intros n. revert c.
  induction n as [|n IH]; intros c Hlt; [lia|]. cbn [scan].
  destruct (parse c) as [[r|] rest] eqn:E.
  - pose proof (parse_shorter _ _ _ E). apply parse_sound in E as [_ ->].
    destruct (IH rest) as (t & Ht & Hn); [lia|]. exists t. split; [|done].
    rewrite encs_cons, <- app_assoc. f_equal. exact Ht.
  - exists c. by rewrite E.
Qed.

(** A frame cut short is not a record. *)
Lemma scan_of_cut r n :
  ok r → (n < length (enc r))%nat → fst (parse (take n (enc r))) = None.
Proof.
  intros Hok Hn. destruct (parse (take n (enc r))) as [[r'|] rest] eqn:E; [exfalso|done].
  apply parse_sound in E as [Hok' E].
  assert (enc r = enc r' ++ rest ++ drop n (enc r)) as Hr.
  { by rewrite app_assoc, <- E, take_drop. }
  pose proof (parse_enc r [] Hok) as P. rewrite app_nil_r, Hr in P.
  rewrite parse_enc in P by done. injection P as _ P.
  apply app_nil in P as [_ P]. apply (f_equal length) in P.
  rewrite length_drop in P. cbn [length] in P. lia.
Qed.

Lemma clean_encs rs : Forall ok rs → clean_log parse enc (encs enc rs).
Proof. intros Hrs. unfold clean_log. by rewrite scan_of_encs. Qed.

Lemma clean_nil : clean_log parse enc [].
Proof. apply (clean_encs []). constructor. Qed.

Lemma scan_of_clean_app c t :
  clean_log parse enc c → scan_of parse (c ++ t) = scan_of parse c ++ scan_of parse t.
Proof.
  intros Hc. pose proof (scan_of_app (scan_of parse c) t (scan_of_ok c)) as E.
  by rewrite <- Hc in E.
Qed.

Lemma clean_log_app c r : clean_log parse enc c → ok r → clean_log parse enc (c ++ enc r).
Proof.
  intros Hc Hok. unfold clean_log in Hc. rewrite Hc, <- (encs_single enc r), <- encs_app.
  apply clean_encs, Forall_app. split; [apply scan_of_ok|by constructor].
Qed.

Lemma scan_of_append c r :
  clean_log parse enc c → ok r → scan_of parse (c ++ enc r) = scan_of parse c ++ [r].
Proof.
  intros Hc Hok. rewrite scan_of_clean_app by done. f_equal.
  rewrite <- (encs_single enc r). apply scan_of_encs. by constructor.
Qed.

(** The first [n] bytes of a record behind a clean content. *)
Lemma scan_of_append_cut c r n :
  clean_log parse enc c → ok r → (n ≤ length (enc r))%nat →
  scan_of parse (c ++ take n (enc r)) = scan_of parse c ∨
  scan_of parse (c ++ take n (enc r)) = scan_of parse c ++ [r].
Proof.
  intros Hc Hok Hn. destruct (decide (n = length (enc r))) as [E|Hne].
  - right. rewrite take_ge by lia. by apply scan_of_append.
  - left. rewrite scan_of_clean_app, (scan_of_None (take n _)), app_nil_r; [done| |done].
    apply scan_of_cut; [done|lia].
Qed.
End scans.
