(* ===== verification/RecordCodec.v ===== *)
(** * RecordCodec: the payload format of the cache journal

    Models src/src/CoreEngine/include/.../JournalRecords.h and
    src/src/CoreEngine/src/JournalRecordCodec.cpp: the journal record type and
    its encoding.  The theorems: encode then decode is the identity on the
    records within the decoder's bounds, what the decoder accepts is an
    encoding (possibly followed by bytes it ignores), a truncated encoding is
    refused, and a value over the decoder's bound is encoded but never
    decoded. *)
From S2P Require Import Prelude Common Wire.
Open Scope Z_scope.

(** ** JournalRecords.h *)

Definition kCacheRecordFormatVersion : Z := 1.

Module CacheRecordType.
Inductive CacheRecordType := Upsert | FlushIntent | FlushComplete | Invalidate.

Definition CacheRecordType_val (t : CacheRecordType) : Z :=
match t with Upsert => 1 | FlushIntent => 2 | FlushComplete => 3 | Invalidate => 4 end.

Definition CacheRecordType_ToString (t : CacheRecordType) : string :=
match t with
| Upsert => "Upsert"
| FlushIntent => "FlushIntent"
| FlushComplete => "FlushComplete"
| Invalidate => "Invalidate"
end.

(** [static_cast<CacheRecordType>(typeRaw)] for a value in range. *)
Definition CacheRecordType_of (z : Z) : CacheRecordType :=
if z =? 1 then Upsert else if z =? 2 then FlushIntent
else if z =? 3 then FlushComplete else Invalidate.

Lemma CacheRecordType_of_val t : CacheRecordType_of (CacheRecordType_val t) = t.
Proof. by destruct t. Qed.

Lemma CacheRecordType_val_of z : 1 ≤ z ≤ 4 → CacheRecordType_val (CacheRecordType_of z) = z.
Proof.
intros. unfold CacheRecordType_of.
repeat case_match; zbool; subst; simpl; lia.
Qed.

Lemma CacheRecordType_val_range t : 1 ≤ CacheRecordType_val t ≤ 4.
Proof. destruct t; simpl; lia. Qed.
End CacheRecordType.

#[export] Instance CacheRecordType_eq_dec : EqDecision CacheRecordType.CacheRecordType.
Proof. solve_decision. Defined.

Record CacheJournalRecord := mkRecord {
  rec_formatVersion : Z;
  rec_type : CacheRecordType.CacheRecordType;
  rec_key : string;
  rec_value : bytes;
  rec_entryVersion : Z
}.

(** ** JournalRecordCodec.cpp *)

Definition Encode (record : CacheJournalRecord) : bytes :=
  let buffer := AppendRaw 4 [] (rec_formatVersion record) in
  let buffer := AppendRaw 4 buffer (CacheRecordType.CacheRecordType_val (rec_type record)) in
  let buffer := AppendRaw 8 buffer (rec_entryVersion record) in
  let buffer := AppendRaw 4 buffer (wrap32 (str_size (rec_key record))) in
  let buffer := buffer ++ str_bytes (rec_key record) in
  let buffer := AppendRaw 4 buffer (wrap32 (zlen (rec_value record))) in
  buffer ++ rec_value record.

Arguments Encode : simpl never.

(** [kMaxReasonableLength] of [Decode]: 64 MiB. *)
Definition kMaxReasonableLength : Z := 64 * 1024 * 1024.

Definition Decode_fail {T} (c : ErrorCode.ErrorCode) (msg : string) : Result T :=
  Failure (mkError c msg 0).

Definition Decode (payload : bytes) : Result CacheJournalRecord :=
  match
    ('(formatVersion, offset) ← ReadRaw 4 payload 0;
     '(typeRaw, offset) ← ReadRaw 4 payload offset;
     '(entryVersion, offset) ← ReadRaw 8 payload offset;
     '(keyLength, offset) ← ReadRaw 4 payload offset;
     Some (formatVersion, typeRaw, entryVersion, keyLength, offset))
  with
  | None => Decode_fail ErrorCode.CorruptData "cache journal record: header truncated"
  | Some (formatVersion, typeRaw, entryVersion, keyLength, offset) =>
    if negb (formatVersion =? kCacheRecordFormatVersion) then
      Decode_fail ErrorCode.VersionMismatch "cache journal record: unsupported formatVersion"
    else if (typeRaw <? CacheRecordType.CacheRecordType_val CacheRecordType.Upsert)
         || (CacheRecordType.CacheRecordType_val CacheRecordType.Invalidate <? typeRaw) then
      Decode_fail ErrorCode.CorruptData "cache journal record: invalid record type"
    else
      let type := CacheRecordType.CacheRecordType_of typeRaw in
      match (if kMaxReasonableLength <? keyLength then None
             else ReadBytes payload offset keyLength) with
      | None =>
        Decode_fail ErrorCode.CorruptData "cache journal record: key truncated or unreasonable"
      | Some (keyBytes, offset) =>
        match ReadRaw 4 payload offset with
        | None => Decode_fail ErrorCode.CorruptData "cache journal record: missing value length"
        | Some (valueLength, offset) =>
          match (if kMaxReasonableLength <? valueLength then None
                 else ReadBytes payload offset valueLength) with
          | None =>
            Decode_fail ErrorCode.CorruptData
              "cache journal record: value truncated or unreasonable"
          | Some (value, offset) =>
            Success (mkRecord formatVersion type (bytes_str keyBytes) value entryVersion)
          end
        end
      end
  end.

(** ** The records the decoder gives back *)

(** A record within the decoder's bounds. *)
Record record_ok (r : CacheJournalRecord) : Prop := {
  rok_format : rec_formatVersion r = kCacheRecordFormatVersion;
  rok_version : u64 (rec_entryVersion r);
  rok_key : str_size (rec_key r) ≤ kMaxReasonableLength;
  rok_value : zlen (rec_value r) ≤ kMaxReasonableLength
}.

Lemma Encode_shape r :
  Encode r =
    le_bytes 4 (rec_formatVersion r) ++
    le_bytes 4 (CacheRecordType.CacheRecordType_val (rec_type r)) ++
    le_bytes 8 (rec_entryVersion r) ++
    le_bytes 4 (wrap32 (str_size (rec_key r))) ++ str_bytes (rec_key r) ++
    le_bytes 4 (wrap32 (zlen (rec_value r))) ++ rec_value r.
Proof. unfold Encode, AppendRaw. by rewrite app_nil_l, <- !app_assoc. Qed.

Lemma zlen_Encode r : zlen (Encode r) = 24 + str_size (rec_key r) + zlen (rec_value r).
Proof.
  rewrite Encode_shape. autorewrite with qcache_len. unfold str_size. lia.
Qed.

Lemma type_val_u32 t : in_width (8 * Z.of_nat 4) (CacheRecordType.CacheRecordType_val t).
Proof. unfold in_width. by destruct t. Qed.

Lemma bounded_wrap32 z : 0 ≤ z ≤ kMaxReasonableLength → wrap32 z = z.
Proof. unfold kMaxReasonableLength. intros. apply wrap_small. unfold in_width. lia. Qed.

Lemma wrap32_width z : in_width (8 * Z.of_nat 4) (wrap32 z).
Proof. by apply (wrap_width 32). Qed.

Section decode_step.
Context (r : CacheJournalRecord) (Hf : rec_formatVersion r = kCacheRecordFormatVersion)
        (Hv : u64 (rec_entryVersion r)).

(** The header of an encoding, whatever follows it. *)
Lemma Decode_header payload rest :
  payload =
    le_bytes 4 (rec_formatVersion r) ++
    le_bytes 4 (CacheRecordType.CacheRecordType_val (rec_type r)) ++
    le_bytes 8 (rec_entryVersion r) ++ rest →
  cursor payload 16 rest ∧
  Decode payload =
    match ReadRaw 4 payload 16 with
    | None => Decode_fail ErrorCode.CorruptData "cache journal record: header truncated"
    | Some (keyLength, offset) =>
      match (if kMaxReasonableLength <? keyLength then None
             else ReadBytes payload offset keyLength) with
      | None =>
        Decode_fail ErrorCode.CorruptData "cache journal record: key truncated or unreasonable"
      | Some (keyBytes, offset) =>
        match ReadRaw 4 payload offset with
        | None => Decode_fail ErrorCode.CorruptData "cache journal record: missing value length"
        | Some (valueLength, offset) =>
          match (if kMaxReasonableLength <? valueLength then None
                 else ReadBytes payload offset valueLength) with
          | None =>
            Decode_fail ErrorCode.CorruptData
              "cache journal record: value truncated or unreasonable"
          | Some (value, offset) =>
            Success (mkRecord kCacheRecordFormatVersion (rec_type r) (bytes_str keyBytes)
                       value (rec_entryVersion r))
          end
        end
      end
    end.
Proof using Hf Hv.
  intros E. pose proof (cursor_0 payload) as Hc. rewrite E in Hc at 2.
  rewrite Hf in Hc.
  assert (in_width (8 * Z.of_nat 4) kCacheRecordFormatVersion) as Hw by done.
  pose proof (ReadRaw_cursor 4 _ _ _ _ Hw Hc) as [E1 Hc1].
  pose proof (ReadRaw_cursor 4 _ _ _ _ (type_val_u32 _) Hc1) as [E2 Hc2].
  pose proof (ReadRaw_cursor 8 _ _ _ _ Hv Hc2) as [E3 Hc3].
  split; [done|]. unfold Decode.
  rewrite E1. cbn [mbind option_bind]. rewrite E2. cbn [mbind option_bind].
  rewrite E3. cbn [mbind option_bind].
  change (0 + Z.of_nat 4 + Z.of_nat 4 + Z.of_nat 8) with 16.
  destruct (ReadRaw 4 payload 16) as [[kl off]|]; [|done]. cbn [mbind option_bind].
  rewrite Z.eqb_refl. cbn [negb].
  pose proof (CacheRecordType.CacheRecordType_val_range (rec_type r)) as [??].
  destruct (_ <? _) eqn:F1; [apply Z.ltb_lt in F1; simpl in F1; lia|].
  destruct (_ <? CacheRecordType.CacheRecordType_val (rec_type r)) eqn:F2;
    [apply Z.ltb_lt in F2; simpl in F2; lia|].
  cbn [orb]. by rewrite CacheRecordType.CacheRecordType_of_val.
Qed.
End decode_step.

Lemma bounded_ltb z : z ≤ kMaxReasonableLength → (kMaxReasonableLength <? z) = false.
Proof. intros. apply Z.ltb_ge. lia. Qed.

Lemma Decode_Encode_aux r trailing :
  record_ok r → Decode (Encode r ++ trailing) = Success r.
Proof.
  intros [Hf Hv Hk Hl]. pose proof (str_size_nonneg (rec_key r)).
  pose proof (zlen_nonneg (rec_value r)).
  edestruct (Decode_header r Hf Hv) as [Hc ->].
  { rewrite Encode_shape, <- !app_assoc. done. }
  rewrite !bounded_wrap32 in Hc by lia.
  destruct (ReadRaw_cursor 4 _ _ (str_size (rec_key r)) _
              ltac:(rewrite <- bounded_wrap32 by lia; apply wrap32_width) Hc) as [-> Hc1].
  rewrite bounded_ltb by done.
  destruct (ReadBytes_cursor _ _ _ _ Hc1) as [E Hc2].
  unfold str_size at 1. rewrite E.
  destruct (ReadRaw_cursor 4 _ _ (zlen (rec_value r)) _
              ltac:(rewrite <- bounded_wrap32 by lia; apply wrap32_width) Hc2) as [-> Hc3].
  rewrite bounded_ltb by done.
  destruct (ReadBytes_cursor _ _ _ _ Hc3) as [-> _].
  rewrite bytes_str_bytes, <- Hf. by destruct r.
Qed.

(** What a successful decode says of the payload. *)
Lemma Decode_inv payload r :
  Decode payload = Success r →
  record_ok r ∧ ∃ trailing, payload = Encode r ++ trailing.
Proof.
  unfold Decode. intros H. pose proof (cursor_0 payload) as Hc.
  destruct (ReadRaw 4 payload 0) as [[fv o1]|] eqn:E1; [|done].
  destruct (ReadRaw_inv _ _ _ _ _ _ Hc E1) as (r1 & P1 & -> & Hc1 & _).
  cbn [mbind option_bind] in H.
  destruct (ReadRaw 4 payload _) as [[ty o2]|] eqn:E2; [|done].
  destruct (ReadRaw_inv _ _ _ _ _ _ Hc1 E2) as (r2 & P2 & -> & Hc2 & _).
  cbn [mbind option_bind] in H.
  destruct (ReadRaw 8 payload _) as [[ev o3]|] eqn:E3; [|done].
  destruct (ReadRaw_inv _ _ _ _ _ _ Hc2 E3) as (r3 & P3 & -> & Hc3 & Hev).
  cbn [mbind option_bind] in H.
  destruct (ReadRaw 4 payload _) as [[kl o4]|] eqn:E4; [|done].
  destruct (ReadRaw_inv _ _ _ _ _ _ Hc3 E4) as (r4 & P4 & -> & Hc4 & Hkl).
  cbn [mbind option_bind] in H.
  destruct (negb (fv =? kCacheRecordFormatVersion)) eqn:Ef; [done|].
  destruct (_ || _) eqn:Et; [done|].
  destruct (kMaxReasonableLength <? kl) eqn:Bk; [done|].
  destruct (ReadBytes payload _ kl) as [[kb o5]|] eqn:E5; [|done].
  destruct (ReadBytes_inv _ _ _ _ _ _ (proj1 Hkl) Hc4 E5) as (r5 & P5 & -> & Hc5 & Lk).
  destruct (ReadRaw 4 payload _) as [[vl o6]|] eqn:E6; [|done].
  destruct (ReadRaw_inv _ _ _ _ _ _ Hc5 E6) as (r6 & P6 & -> & Hc6 & Hvl).
  destruct (kMaxReasonableLength <? vl) eqn:Bv; [done|].
  destruct (ReadBytes payload _ vl) as [[vb o7]|] eqn:E7; [|done].
  destruct (ReadBytes_inv _ _ _ _ _ _ (proj1 Hvl) Hc6 E7) as (r7 & P7 & -> & Hc7 & Lv).
  injection H as <-. zbool.
  change (CacheRecordType.CacheRecordType_val CacheRecordType.Upsert) with 1 in *.
  change (CacheRecordType.CacheRecordType_val CacheRecordType.Invalidate) with 4 in *.
  assert (str_size (bytes_str kb) = zlen kb) as Hks by (unfold str_size; by rewrite str_bytes_str).
  split.
  - constructor; cbn; [done|done|lia|lia].
  - exists r7. rewrite Encode_shape. destruct Hkl, Hvl.
    cbn [rec_formatVersion rec_type rec_key rec_value rec_entryVersion].
    rewrite <- !app_assoc.
    rewrite CacheRecordType.CacheRecordType_val_of by lia.
    rewrite Hks, str_bytes_str, !bounded_wrap32, Lk, Lv by lia.
    by rewrite P1, P2, P3, P4, P5, P6, P7.
Qed.

(** Why a payload is refused: the only error other than [CorruptData] is a
    complete header with another format version. *)
Lemma Decode_failure_code payload e :
  Decode payload = Failure e →
  code e = ErrorCode.CorruptData ∨
  (code e = ErrorCode.VersionMismatch ∧
   ∃ fv o, ReadRaw 4 payload 0 = Some (fv, o) ∧ fv ≠ kCacheRecordFormatVersion).
Proof.
  unfold Decode, Decode_fail. intros H.
  destruct (ReadRaw 4 payload 0) as [[fv o1]|]; [|injection H as <-; by left].
  cbn [mbind option_bind] in H.
  destruct (ReadRaw 4 payload o1) as [[ty o2]|]; cbn [mbind option_bind] in H;
    [|injection H as <-; by left].
  destruct (ReadRaw 8 payload o2) as [[ev o3]|]; cbn [mbind option_bind] in H;
    [|injection H as <-; by left].
  destruct (ReadRaw 4 payload o3) as [[kl o4]|]; cbn [mbind option_bind] in H;
    [|injection H as <-; by left].
  destruct (Z.eqb_spec fv kCacheRecordFormatVersion) as [|Hne]; cbn [negb] in H.
  - left. by repeat (case_match; simplify_eq).
  - injection H as <-. right. eauto.
Qed.

(** Reading inside a prefix gives what the whole buffer gives. *)
Lemma ReadRaw_prefix n buf k off v off' :
  0 ≤ off → ReadRaw n (take k buf) off = Some (v, off') → ReadRaw n buf off = Some (v, off').
Proof.
  intros Ho. unfold ReadRaw.
  destruct (Z.ltb_spec (zlen (take k buf)) (off + Z.of_nat n)) as [|Hl]; [done|].
  intros ?; simplify_eq.
  assert (zlen (take k buf) ≤ zlen buf) by (unfold zlen; rewrite length_take; lia).
  destruct (Z.ltb_spec (zlen buf) (off + Z.of_nat n)); [lia|]. do 2 f_equal.
  f_equal. unfold slice, zlen in *. rewrite length_take in Hl.
  rewrite skipn_firstn_comm, take_take. f_equal. lia.
Qed.

(** ** Properties *)

(** C38: Every record within the decoder's bounds survives the journal: decoding
    its encoding gives it back, whatever bytes follow the encoding. *)
Theorem Decode_Encode (r : CacheJournalRecord) (trailing : bytes) :
  record_ok r → Decode (Encode r ++ trailing) = Success r.
Proof. apply Decode_Encode_aux. Qed.

(** C39: [Decode] accepts nothing but encodings: a payload it accepts as [r] is
    the encoding of [r], followed by bytes it ignores, and [r] is within the
    bounds the decoder checks. *)
Theorem Decode_sound (payload : bytes) (r : CacheJournalRecord) :
  Decode payload = Success r → record_ok r ∧ ∃ trailing, payload = Encode r ++ trailing.
Proof. apply Decode_inv. Qed.

(** A record cut short anywhere is refused as corrupt data; it is never
    read as a shorter record. *)
Theorem Decode_truncated (r : CacheJournalRecord) (n : nat) :
  record_ok r → (n < length (Encode r))%nat →
  ∃ e, Decode (take n (Encode r)) = Failure e ∧ code e = ErrorCode.CorruptData.
Proof.
  intros Hok Hn. destruct (Decode (take n (Encode r))) as [r'|e] eqn:E.
  - exfalso. destruct (Decode_inv _ _ E) as (Hok' & t & Ht).
    assert (Encode r = Encode r' ++ t ++ drop n (Encode r)) as Hr.
    { rewrite app_assoc, <- Ht. by rewrite take_drop. }
    pose proof (Decode_Encode_aux r [] Hok) as D. rewrite app_nil_r, Hr in D.
    rewrite Decode_Encode_aux in D by done. injection D as <-.
    apply (f_equal length) in Ht. rewrite length_take, length_app in Ht. lia.
  - exists e. split; [done|].
    destruct (Decode_failure_code _ _ E) as [?|(_ & fv & o & Hr & Hne)]; [done|].
    exfalso. apply ReadRaw_prefix in Hr; [|lia].
    pose proof (cursor_0 (Encode r)) as Hc. rewrite Encode_shape in Hc at 2.
    rewrite (rok_format _ Hok) in Hc.
    destruct (ReadRaw_cursor 4 _ _ kCacheRecordFormatVersion _ ltac:(done) Hc) as [Hr' _].
    congruence.
Qed.

(** [Encode] has no size bound but [Decode] has one: a value of more than
    64 MiB (and less than 4 GiB) is written to the journal and refused as
    corrupt when it is read back. *)
Theorem Decode_refuses_large_value (r : CacheJournalRecord) :
  rec_formatVersion r = kCacheRecordFormatVersion → u64 (rec_entryVersion r) →
  str_size (rec_key r) ≤ kMaxReasonableLength →
  kMaxReasonableLength < zlen (rec_value r) < 2 ^ 32 →
  ∃ e, Decode (Encode r) = Failure e ∧ code e = ErrorCode.CorruptData.
Proof.
  intros Hf Hv Hk Hl. pose proof (str_size_nonneg (rec_key r)).
  edestruct (Decode_header r Hf Hv) as [Hc ->]; [apply Encode_shape|].
  rewrite bounded_wrap32 in Hc by lia. rewrite wrap_small in Hc by (unfold in_width; lia).
  destruct (ReadRaw_cursor 4 _ _ (str_size (rec_key r)) _
              ltac:(rewrite <- bounded_wrap32 by lia; apply wrap32_width) Hc) as [-> Hc1].
  rewrite bounded_ltb by done.
  destruct (ReadBytes_cursor _ _ _ _ Hc1) as [E Hc2]. unfold str_size at 1. rewrite E.
  destruct (ReadRaw_cursor 4 _ _ (zlen (rec_value r)) _
              ltac:(unfold in_width; simpl in *; lia) Hc2) as [-> _].
  destruct (Z.ltb_spec kMaxReasonableLength (zlen (rec_value r))); [|lia].
  eexists. by split.
Qed.
