(* ===== verification/Storage.v ===== *)
(** * Storage: the durable-file interface and its portable implementation

    Models src/src/Storage/include/.../IFile.h and
    src/src/Storage/src/PortableFile.cpp.

    [IFile] is the interface as a type class.  [IFileSpec] is the contract the
    journal, the session marker and the backing store rely on: what each
    operation does to the content and the position of the file, on success and
    on failure, and which contents may be found on stable storage after a power
    cut ([crash_image]).  [PortableFile] is the implementation over the C
    standard library, whose calls are modelled on a [FILE] with an oracle of
    injected faults; the [IFileSpec] instance is its proof of the contract. *)
From S2P Require Import Prelude Common.
Open Scope Z_scope.

(** Writing [bs] at position [p]: a gap beyond the end of the file reads as
    zero bytes, and writing nothing does not extend the file. *)
Definition write_at (c : bytes) (p : Z) (bs : bytes) : bytes :=
  match bs with
  | [] => c
  | _ => resize (Z.to_nat p) x00 c ++ bs ++ drop (Z.to_nat p + length bs) c
  end.

Definition set_length (c : bytes) (n : Z) : bytes := resize (Z.to_nat n) x00 c.

Lemma write_at_end c bs : write_at c (zlen c) bs = c ++ bs.
Proof.
  unfold write_at, zlen. destruct bs as [|b bs]; [by rewrite app_nil_r|].
  rewrite Nat2Z.id, resize_all, drop_ge by lia. by rewrite app_nil_r.
Qed.

Lemma write_at_nil c p : write_at c p [] = c.
Proof. done. Qed.

(** Writing at or after the end of a prefix leaves the prefix alone. *)
Lemma write_at_prefix pre c p bs :
  zlen pre ≤ p → ∃ c', write_at (pre ++ c) p bs = pre ++ c'.
Proof.
  unfold write_at, zlen. intros Hp. destruct bs as [|b bs]; [eauto|].
  exists (resize (Z.to_nat p - length pre) x00 c ++ (b :: bs) ++
          drop (Z.to_nat p + length (b :: bs)) (pre ++ c)).
  rewrite (resize_app_ge pre c) by lia. by rewrite <- app_assoc.
Qed.

(** ** IFile.h *)

Module OpenMode.
Inductive OpenMode := OpenExisting | CreateNew | OpenOrCreate.
End OpenMode.

(** [Read f n]: the bytes stored in the caller's buffer; [Value()] of the C++
    result is their number. *)
Class IFile (F : Type) := {
  Read : F → Z → Result bytes * F;
  Write : F → bytes → Result Z * F;
  Seek : F → Z → bool → Result Z * F;
  Size : F → Result Z * F;
  SetLength : F → Z → Result unit * F;
  FlushDurable : F → Result unit * F;

  (** The bytes a reader of the file sees: no operation of the interface, but
      the measure of the loops that scan a file. *)
  file_content : F → bytes
}.

(** What one call transfers: Windows counts it in a [DWORD]. *)
Definition io_limit : Z := 2 ^ 32.

(** Nothing is promised of the bytes a file gets by being extended: of a write
    behind the end of the file, or of a length beyond it, the contract says
    nothing. *)
Class IFileSpec (F : Type) `{IFile F} := {
  file_pos : F → Z;
  crash_image : F → bytes → Prop;

  file_pos_nonneg f : 0 ≤ file_pos f;
  crash_image_self (f : F) : crash_image f (file_content f);

  Read_spec f n r f' :
    0 ≤ n < io_limit → Read f n = (r, f') →
    file_content f' = file_content f ∧
    (∀ d, crash_image f' d ↔ crash_image f d) ∧
    match r with
    | Success bs => bs = slice (file_content f) (file_pos f) n ∧
                    file_pos f' = file_pos f + zlen bs
    | Failure _ => True
    end;

  Write_spec f bs r f' :
    Write f bs = (r, f') →
    ∃ k, (k ≤ length bs)%nat ∧
      (file_pos f ≤ zlen (file_content f) →
       file_content f' = write_at (file_content f) (file_pos f) (take k bs)) ∧
      (∀ d, crash_image f' d →
         ∃ d0 j, (j ≤ k)%nat ∧ crash_image f d0 ∧
                 (file_pos f ≤ zlen d0 → d = write_at d0 (file_pos f) (take j bs))) ∧
      match r with
      | Success n => n = Z.of_nat k ∧ file_pos f' = file_pos f + n
      | Failure _ => True
      end;

  Seek_spec f off fromEnd r f' :
    Seek f off fromEnd = (r, f') →
    file_content f' = file_content f ∧
    (∀ d, crash_image f' d ↔ crash_image f d) ∧
    match r with
    | Success p => p = (if fromEnd then zlen (file_content f) else 0) + off ∧
                   file_pos f' = p
    | Failure _ => True
    end;

  Size_spec f r f' :
    Size f = (r, f') →
    file_content f' = file_content f ∧
    (∀ d, crash_image f' d ↔ crash_image f d) ∧
    match r with
    | Success n => n = zlen (file_content f) ∨ n = file_pos f
    | Failure _ => True
    end;

  SetLength_spec f n r f' :
    0 ≤ n < 2 ^ 64 → SetLength f n = (r, f') →
    (∀ d, crash_image f' d →
       crash_image f d ∨ ∃ d0, crash_image f d0 ∧ (n ≤ zlen d0 → d = set_length d0 n)) ∧
    match r with
    | Success _ => n ≤ zlen (file_content f) → file_content f' = set_length (file_content f) n
    | Failure _ => file_content f' = file_content f
    end;

  FlushDurable_spec f r f' :
    FlushDurable f = (r, f') →
    file_content f' = file_content f ∧
    match r with
    | Success _ => ∀ d, crash_image f' d ↔ d = file_content f
    | Failure _ => ∀ d, crash_image f' d → crash_image f d
    end;

  (** A file on which no operation fails: a file just opened, on a device
      without errors. *)
  reliable : F → Prop;
  reliable_Read f n : reliable f → 0 ≤ n < io_limit → ∃ bs f', Read f n = (Success bs, f') ∧ reliable f';
  reliable_Write f bs : reliable f → zlen bs < io_limit → ∃ f', Write f bs = (Success (zlen bs), f') ∧ reliable f';
  reliable_Seek (f : F) (off : Z) (fromEnd : bool) :
    reliable f → 0 ≤ (if fromEnd then zlen (file_content f) else 0) + off →
    ∃ p f', Seek f off fromEnd = (Success p, f') ∧ reliable f';
  reliable_Seek_any (f : F) (off : Z) (fromEnd : bool) r f' :
    reliable f → Seek f off fromEnd = (r, f') → reliable f';
  reliable_Size (f : F) : reliable f → ∃ f', Size f = (Success (zlen (file_content f)), f') ∧ reliable f';
  reliable_SetLength f n : reliable f → 0 ≤ n < 2 ^ 63 → ∃ f', SetLength f n = (Success tt, f') ∧ reliable f';
  reliable_FlushDurable f : reliable f → ∃ f', FlushDurable f = (Success tt, f') ∧ reliable f'
}.

(** ** The C library calls PortableFile uses

    A [FILE] has the bytes on stable storage, the updates not yet forced
    there, the file position, the sticky error indicator, and the faults the
    environment injects: each call takes the next one, [None] for a call that
    works, [Some k] for one that fails after [k] bytes. *)

Inductive FileOp :=
  | OpWrite (pos : Z) (data : bytes)
  | OpLength (len : Z).

Record FILE := mkFILE {
  stable : bytes;
  unsynced : list FileOp;
  fpos : N;
  errflag : bool;
  faults : list (option nat)
}.

Definition apply_op (c : bytes) (o : FileOp) : bytes :=
  match o with
  | OpWrite p bs => write_at c p bs
  | OpLength n => set_length c n
  end.

Definition FILE_content (fp : FILE) : bytes := foldl apply_op (stable fp) (unsynced fp).

(** What a power cut leaves of an update that was under way. *)
Inductive torn : FileOp → FileOp → Prop :=
  | torn_write p bs k : torn (OpWrite p bs) (OpWrite p (take k bs)).

(** Some of the updates reached stable storage, in order, the last of them
    possibly cut short. *)
Definition FILE_crash (fp : FILE) (d : bytes) : Prop :=
  ∃ done rest, unsynced fp = done ++ rest ∧
    (d = foldl apply_op (stable fp) done ∨
     ∃ o o' rest', rest = o :: rest' ∧ torn o o' ∧
                   d = apply_op (foldl apply_op (stable fp) done) o').

Definition fpos_Z (fp : FILE) : Z := Z.of_N (fpos fp).

Definition next_fault (fp : FILE) : option nat * FILE :=
  match faults fp with
  | [] => (None, fp)
  | x :: xs => (x, mkFILE (stable fp) (unsynced fp) (fpos fp) (errflag fp) xs)
  end.

Definition with_pos (fp : FILE) (p : Z) : FILE :=
  mkFILE (stable fp) (unsynced fp) (Z.to_N p) (errflag fp) (faults fp).
Definition with_err (fp : FILE) : FILE :=
  mkFILE (stable fp) (unsynced fp) (fpos fp) true (faults fp).
Definition with_op (fp : FILE) (o : FileOp) : FILE :=
  mkFILE (stable fp) (unsynced fp ++ [o]) (fpos fp) (errflag fp) (faults fp).

Definition std_fread (fp : FILE) (n : Z) : bytes * FILE :=
  let avail := slice (FILE_content fp) (fpos_Z fp) n in
  let '(x, fp) := next_fault fp in
  match x with
  | None => (avail, with_pos fp (fpos_Z fp + zlen avail))
  | Some k => let got := take k avail in
              (got, with_err (with_pos fp (fpos_Z fp + zlen got)))
  end.

Definition std_ferror (fp : FILE) : bool := errflag fp.

Definition std_fwrite (fp : FILE) (data : bytes) : Z * FILE :=
  let '(x, fp) := next_fault fp in
  let n := match x with None => length data | Some k => min k (length data) end in
  let fp' := with_pos (with_op fp (OpWrite (fpos_Z fp) (take n data))) (fpos_Z fp + Z.of_nat n) in
  (Z.of_nat n, match x with None => fp' | Some _ => with_err fp' end).

(** [0] on success, [-1] on failure; a negative target is refused. *)
Definition std_fseek (fp : FILE) (offset : Z) (from_end : bool) : Z * FILE :=
  let '(x, fp) := next_fault fp in
  let target := (if from_end then zlen (FILE_content fp) else 0) + offset in
  match x with
  | Some _ => (-1, fp)
  | None => if target <? 0 then (-1, fp) else (0, with_pos fp target)
  end.

Definition std_ftell (fp : FILE) : Z * FILE :=
  let '(x, fp) := next_fault fp in
  (match x with None => fpos_Z fp | Some _ => -1 end, fp).

Definition posix_ftruncate (fp : FILE) (len : Z) : Z * FILE :=
  let '(x, fp) := next_fault fp in
  match x with None => (0, with_op fp (OpLength len)) | Some _ => (-1, fp) end.

Definition std_fflush (fp : FILE) : Z * FILE :=
  let '(x, fp) := next_fault fp in
  (match x with None => 0 | Some _ => -1 end, fp).

Definition posix_fsync (fp : FILE) : Z * FILE :=
  let '(x, fp) := next_fault fp in
  match x with
  | None => (0, mkFILE (FILE_content fp) [] (fpos fp) (errflag fp) (faults fp))
  | Some _ => (-1, fp)
  end.

(** ** PortableFile.cpp (the POSIX build) *)
Module PortableFile.

Definition io_error {T} (msg : string) : Result T := Failure (mkError ErrorCode.IoError msg 0).

Definition Read (fp : FILE) (n : Z) : Result bytes * FILE :=
  let '(got, fp) := std_fread fp n in
  if (zlen got <? n) && std_ferror fp then (io_error "fread failed", fp)
  else (Success got, fp).

Definition Write (fp : FILE) (data : bytes) : Result Z * FILE :=
  let '(written, fp) := std_fwrite fp data in
  if negb (written =? zlen data) then (io_error "fwrite failed", fp)
  else (Success written, fp).

Definition Seek (fp : FILE) (offset : Z) (fromEnd : bool) : Result Z * FILE :=
  let '(rc, fp) := std_fseek fp offset fromEnd in
  if negb (rc =? 0) then (io_error "fseek failed", fp)
  else
    let '(pos, fp) := std_ftell fp in
    if pos <? 0 then (io_error "ftell failed", fp) else (Success pos, fp).

Definition Size (fp : FILE) : Result Z * FILE :=
  let '(current, fp) := std_ftell fp in
  let '(_, fp) := std_fseek fp 0 true in
  let '(end_, fp) := std_ftell fp in
  let '(_, fp) := std_fseek fp current false in
  if end_ <? 0 then (io_error "ftell failed", fp) else (Success end_, fp).

Definition SetLength (fp : FILE) (length : Z) : Result unit * FILE :=
  let '(_, fp) := std_fflush fp in
  let '(rc, fp) := posix_ftruncate fp length in
  if negb (rc =? 0) then (io_error "ftruncate failed", fp)
  else let '(_, fp) := std_fseek fp 0 false in (Success tt, fp).

Definition FlushDurable (fp : FILE) : Result unit * FILE :=
  let '(rc, fp) := std_fflush fp in
  if negb (rc =? 0) then (io_error "fflush failed", fp)
  else
    let '(rc, fp) := posix_fsync fp in
    if negb (rc =? 0) then (io_error "fsync failed", fp) else (Success tt, fp).

End PortableFile.

#[export] Instance PortableFile_IFile : IFile FILE := {
  Read := PortableFile.Read;
  Write := PortableFile.Write;
  Seek := PortableFile.Seek;
  Size := PortableFile.Size;
  SetLength := PortableFile.SetLength;
  FlushDurable := PortableFile.FlushDurable;
  file_content := FILE_content
}.

(** ** The portable implementation meets the contract *)

(** What the C library calls preserve. *)
Lemma next_fault_eq fp x fp' :
  next_fault fp = (x, fp') →
  FILE_content fp' = FILE_content fp ∧ fpos fp' = fpos fp ∧
  stable fp' = stable fp ∧ unsynced fp' = unsynced fp.
Proof. unfold next_fault, FILE_content. crush_match. Qed.

Lemma FILE_crash_ext fp fp' d :
  stable fp' = stable fp → unsynced fp' = unsynced fp → FILE_crash fp' d ↔ FILE_crash fp d.
Proof. unfold FILE_crash. by intros -> ->. Qed.

Definition same_file (fp fp' : FILE) : Prop :=
  stable fp' = stable fp ∧ unsynced fp' = unsynced fp.

Lemma same_file_content fp fp' : same_file fp fp' → FILE_content fp' = FILE_content fp.
Proof. unfold FILE_content. by intros [-> ->]. Qed.

Lemma same_file_crash fp fp' : same_file fp fp' → ∀ d, FILE_crash fp' d ↔ FILE_crash fp d.
Proof. intros [??] d. by apply FILE_crash_ext. Qed.

#[export] Instance same_file_trans : Transitive same_file.
Proof. intros a b c [??] [??]. split; congruence. Qed.

#[export] Instance same_file_refl : Reflexive same_file.
Proof. by split. Qed.

Lemma next_fault_same fp x fp' : next_fault fp = (x, fp') → same_file fp fp'.
Proof. unfold next_fault. crush_match. Qed.

Lemma std_fread_same fp n got fp' : std_fread fp n = (got, fp') → same_file fp fp'.
Proof.
  unfold std_fread. destruct (next_fault fp) as [x fp1] eqn:E.
  pose proof (next_fault_same _ _ _ E) as [??]. crush_match.
Qed.

Lemma std_fseek_same fp o e rc fp' : std_fseek fp o e = (rc, fp') → same_file fp fp'.
Proof.
  unfold std_fseek. destruct (next_fault fp) as [x fp1] eqn:E.
  pose proof (next_fault_same _ _ _ E) as [??]. crush_match.
Qed.

Lemma std_ftell_same fp rc fp' : std_ftell fp = (rc, fp') → same_file fp fp'.
Proof.
  unfold std_ftell. destruct (next_fault fp) as [x fp1] eqn:E.
  pose proof (next_fault_same _ _ _ E) as [??]. crush_match.
Qed.

Lemma std_fflush_same fp rc fp' : std_fflush fp = (rc, fp') → same_file fp fp'.
Proof.
  unfold std_fflush. destruct (next_fault fp) as [x fp1] eqn:E.
  pose proof (next_fault_same _ _ _ E) as [??]. crush_match.
Qed.

#[export] Hint Resolve next_fault_same std_fread_same std_fseek_same std_ftell_same
  std_fflush_same : qcache.

Lemma FILE_crash_self fp : FILE_crash fp (FILE_content fp).
Proof. exists (unsynced fp), []. rewrite app_nil_r. auto. Qed.

(** The crash images after one more update. *)
Lemma FILE_crash_snoc fp o d :
  FILE_crash (with_op fp o) d →
  FILE_crash fp d ∨ (d = FILE_content (with_op fp o)) ∨
  ∃ o', torn o o' ∧ d = apply_op (FILE_content fp) o'.
Proof.
  intros (dn & rest & E & H). cbn [with_op stable unsynced] in E, H.
  destruct rest as [|r rest _] using rev_ind.
  - rewrite app_nil_r in E. subst dn. destruct H as [->|(?&?&?&?&?&?)]; [|done].
    right; left. done.
  - rewrite app_assoc in E. apply app_inj_tail in E as [E ->].
    destruct H as [->|(o1 & o2 & rest' & Er & Ht & ->)].
    + left. exists dn, rest. auto.
    + destruct rest as [|r0 rest].
      * rewrite app_nil_r in E. subst dn. injection Er as <- <-.
        right; right. exists o2. auto.
      * injection Er as <- <-. left. exists dn, (r0 :: rest). split; [done|]. right. eauto 10.
Qed.

Lemma FILE_crash_fsync fp d :
  FILE_crash (mkFILE (FILE_content fp) [] (fpos fp) (errflag fp) (faults fp)) d ↔
  d = FILE_content fp.
Proof.
  unfold FILE_crash. cbn [stable unsynced]. split.
  - intros (dn & rest & E & H). symmetry in E. apply app_nil in E as [-> ->].
    destruct H as [->|(?&?&?&?&?)]; [done|discriminate].
  - intros ->. exists [], []. auto.
Qed.

Lemma PortableFile_Read_spec fp n r fp' :
  0 ≤ n → PortableFile.Read fp n = (r, fp') →
  same_file fp fp' ∧
  match r with
  | Success bs => bs = slice (FILE_content fp) (fpos_Z fp) n ∧ fpos_Z fp' = fpos_Z fp + zlen bs
  | Failure _ => True
  end.
Proof.
  intros Hn. unfold PortableFile.Read.
  destruct (std_fread fp n) as [got fp1] eqn:E.
  pose proof (std_fread_same _ _ _ _ E) as Hs.
  unfold std_fread, std_ferror in *. destruct (next_fault fp) as [x fp0] eqn:E0.
  pose proof (next_fault_eq _ _ _ E0) as (_ & Hp & _ & _).
  set (avail := slice _ _ _) in *. destruct x as [k|].
  - injection E as <- <-. cbn [errflag with_err]. rewrite andb_true_r.
    destruct (Z.ltb_spec (zlen (take k avail)) n) as [|Hge].
    + intros; simplify_eq. by split.
    + intros; simplify_eq. split; [done|].
      assert (zlen avail ≤ n) by (by apply zlen_slice_le).
      unfold zlen in *. rewrite length_take in Hge.
      assert (take k avail = avail) as -> by (apply take_ge; lia).
      split; [done|]. unfold fpos_Z. cbn. rewrite Hp. unfold zlen. lia.
  - injection E as <- <-. destruct (_ && _); intros; simplify_eq; [by split|].
    split; [done|]. split; [done|]. unfold fpos_Z. cbn. rewrite Hp. unfold zlen. lia.
Qed.

Lemma torn_write_take fp p bs d :
  FILE_crash (with_op fp (OpWrite p bs)) d →
  ∃ d0 j, (j ≤ length bs)%nat ∧ FILE_crash fp d0 ∧ d = write_at d0 p (take j bs).
Proof.
  intros Hc. destruct (FILE_crash_snoc _ _ _ Hc) as [?|[->|(o' & Ht & ->)]].
  - exists d, 0%nat. split; [lia|]. split; [done|]. by rewrite take_0.
  - exists (FILE_content fp), (length bs). split; [lia|].
    split; [apply FILE_crash_self|]. rewrite take_ge by lia.
    unfold FILE_content. cbn [with_op stable unsynced]. by rewrite foldl_app.
  - inversion Ht as [p' bs' k]; subst.
    exists (FILE_content fp), (min k (length bs)). split; [lia|].
    split; [apply FILE_crash_self|]. simpl. f_equal.
    by rewrite <- (firstn_all bs) at 1; rewrite take_take.
Qed.

Lemma PortableFile_Write_spec fp bs r fp' :
  PortableFile.Write fp bs = (r, fp') →
  ∃ k, (k ≤ length bs)%nat ∧
    FILE_content fp' = write_at (FILE_content fp) (fpos_Z fp) (take k bs) ∧
    (∀ d, FILE_crash fp' d →
       ∃ d0 j, (j ≤ k)%nat ∧ FILE_crash fp d0 ∧ d = write_at d0 (fpos_Z fp) (take j bs)) ∧
    match r with
    | Success n => n = Z.of_nat k ∧ fpos_Z fp' = fpos_Z fp + n
    | Failure _ => True
    end.
Proof.
  unfold PortableFile.Write. destruct (std_fwrite fp bs) as [w fp2] eqn:E. intros H.
  unfold std_fwrite in E. destruct (next_fault fp) as [x fp1] eqn:E1.
  pose proof (next_fault_eq _ _ _ E1) as (Hc & Hp & _ & _).
  pose proof (next_fault_same _ _ _ E1) as Hs.
  set (k := match x with None => length bs | Some k => min k (length bs) end) in *.
  assert (k ≤ length bs)%nat as Hk by (unfold k; destruct x; lia).
  assert (fpos_Z fp1 = fpos_Z fp) as Hp' by (unfold fpos_Z; by rewrite Hp).
  assert (same_file (with_op fp1 (OpWrite (fpos_Z fp) (take k bs))) fp2 ∧ w = Z.of_nat k ∧
          (x = None ∨ x ≠ None) ∧ fpos_Z fp2 = fpos_Z fp + w) as (Hs2 & -> & _ & Hp2).
  { injection E as <- <-. rewrite Hp'. unfold fpos_Z in *.
    destruct x; cbn; (split; [done|]); (split; [done|]); (split; [auto|lia]). }
  assert (FILE_content fp2 = write_at (FILE_content fp) (fpos_Z fp) (take k bs) ∧
          fp' = fp2 ∧ match r with Success n => n = Z.of_nat k | Failure _ => True end)
    as (Hc2 & -> & Hr).
  { split; [|destruct (negb _); by simplify_eq].
    rewrite (same_file_content _ _ Hs2). unfold FILE_content at 1.
    cbn [with_op stable unsynced]. rewrite foldl_app. cbn. f_equal. exact Hc. }
  exists k. split; [done|]. split; [done|]. split.
  - intros d Hd. rewrite (same_file_crash _ _ Hs2) in Hd.
    destruct (torn_write_take _ _ _ _ Hd) as (d0 & j & Hj & Hd0 & ->).
    rewrite (same_file_crash _ _ Hs) in Hd0.
    exists d0, (min j k). split; [lia|]. split; [done|]. by rewrite take_take.
  - destruct r; [|done]. split; [done|]. congruence.
Qed.

Lemma PortableFile_Seek_spec fp off e r fp' :
  PortableFile.Seek fp off e = (r, fp') →
  same_file fp fp' ∧
  match r with
  | Success p => p = (if e then zlen (FILE_content fp) else 0) + off ∧ fpos_Z fp' = p
  | Failure _ => True
  end.
Proof.
  unfold PortableFile.Seek. destruct (std_fseek fp off e) as [rc fp1] eqn:E1.
  pose proof (std_fseek_same _ _ _ _ _ E1) as Hs1.
  destruct (negb (rc =? 0)) eqn:Erc; [by intros; simplify_eq|].
  destruct (std_ftell fp1) as [p fp2] eqn:E2.
  pose proof (std_ftell_same _ _ _ E2) as Hs2.
  destruct (Z.ltb_spec p 0); intros; simplify_eq; (split; [by etrans|]); [done|].
  unfold std_fseek in E1. destruct (next_fault fp) as [x fp0] eqn:E0.
  pose proof (next_fault_eq _ _ _ E0) as (Hc0 & _ & _ & _).
  unfold std_ftell in E2. destruct (next_fault fp1) as [y fp3] eqn:E3.
  pose proof (next_fault_eq _ _ _ E3) as (_ & Hp3 & _ & _).
  destruct x; [by simplify_eq|]. rewrite Hc0 in E1.
  destruct (Z.ltb_spec ((if e then zlen (FILE_content fp) else 0) + off) 0); [by simplify_eq|].
  injection E1 as <- <-. destruct y; simplify_eq; [lia|].
  assert (fpos_Z fp' = (if e then zlen (FILE_content fp) else 0) + off) as Hpos.
  { unfold fpos_Z. rewrite Hp3. unfold with_pos. cbn [fpos].
    by rewrite Z2N.id by lia. }
  done.
Qed.

Lemma PortableFile_Size_spec fp r fp' :
  PortableFile.Size fp = (r, fp') →
  same_file fp fp' ∧
  match r with
  | Success n => n = zlen (FILE_content fp) ∨ n = fpos_Z fp
  | Failure _ => True
  end.
Proof.
  unfold PortableFile.Size.
  destruct (std_ftell fp) as [cur fp1] eqn:E1.
  destruct (std_fseek fp1 0 true) as [rc fp2] eqn:E2.
  destruct (std_ftell fp2) as [e fp3] eqn:E3.
  destruct (std_fseek fp3 cur false) as [rc' fp4] eqn:E4. intros H.
  assert (fp' = fp4) as -> by (destruct (e <? 0); by simplify_eq).
  assert (same_file fp fp2) by (etrans; eauto with qcache).
  assert (same_file fp2 fp4) by (etrans; eauto with qcache).
  split; [by etrans|]. destruct r as [n|]; [|done].
  destruct (Z.ltb_spec e 0); simplify_eq.
  unfold std_ftell in E1, E3.
  destruct (next_fault fp) as [x1 fp0] eqn:F1.
  pose proof (next_fault_eq _ _ _ F1) as (Hc1 & Hp1 & _ & _).
  destruct (next_fault fp2) as [x3 fp2'] eqn:F3.
  pose proof (next_fault_eq _ _ _ F3) as (_ & Hp3 & _ & _).
  assert (n = fpos_Z fp2) as ->.
  { destruct x3; simplify_eq; [lia|]. unfold fpos_Z. by rewrite Hp3. }
  injection E1 as _ <-.
  unfold std_fseek in E2. destruct (next_fault fp0) as [x2 fp1'] eqn:F2.
  pose proof (next_fault_eq _ _ _ F2) as (Hc2 & Hp2 & _ & _).
  rewrite Hc2, Hc1 in E2. pose proof (zlen_nonneg (FILE_content fp)).
  destruct x2; [injection E2 as _ <-; right; unfold fpos_Z; congruence|].
  rewrite Z.add_0_r in E2.
  destruct (Z.ltb_spec (zlen (FILE_content fp)) 0); [lia|]. injection E2 as _ <-.
  left. unfold fpos_Z, with_pos. cbn [fpos]. by rewrite Z2N.id.
Qed.

Lemma PortableFile_SetLength_spec fp n r fp' :
  PortableFile.SetLength fp n = (r, fp') →
  (∀ d, FILE_crash fp' d →
     FILE_crash fp d ∨ ∃ d0, FILE_crash fp d0 ∧ d = set_length d0 n) ∧
  match r with
  | Success _ => FILE_content fp' = set_length (FILE_content fp) n
  | Failure _ => FILE_content fp' = FILE_content fp
  end.
Proof.
  unfold PortableFile.SetLength. destruct (std_fflush fp) as [rc0 fp1] eqn:E1.
  pose proof (std_fflush_same _ _ _ E1) as Hs1.
  destruct (posix_ftruncate fp1 n) as [rc fp2] eqn:E2.
  unfold posix_ftruncate in E2. destruct (next_fault fp1) as [x fp1'] eqn:F.
  pose proof (next_fault_same _ _ _ F) as Hs2.
  assert (same_file fp fp1') as Hs by (by etrans).
  destruct x; injection E2 as <- <-; cbn [negb Z.eqb].
  - intros H. injection H as <- <-. split; [|by apply same_file_content].
    intros d. rewrite (same_file_crash _ _ Hs). auto.
  - destruct (std_fseek _ 0 false) as [rc' fp3] eqn:E3.
    pose proof (std_fseek_same _ _ _ _ _ E3) as Hs3. intros H. injection H as <- <-.
    split.
    + intros d. rewrite (same_file_crash _ _ Hs3). intros Hd.
      destruct (FILE_crash_snoc _ _ _ Hd) as [?|[->|(o' & Ht & _)]]; [| |inversion Ht].
      * left. by rewrite <- (same_file_crash _ _ Hs).
      * right. exists (FILE_content fp). split; [apply FILE_crash_self|].
        rewrite <- (same_file_content _ _ Hs). unfold FILE_content.
        cbn [with_op stable unsynced]. by rewrite foldl_app.
    + rewrite (same_file_content _ _ Hs3), <- (same_file_content _ _ Hs).
      unfold FILE_content. cbn [with_op stable unsynced]. by rewrite foldl_app.
Qed.

Lemma PortableFile_FlushDurable_spec fp r fp' :
  PortableFile.FlushDurable fp = (r, fp') →
  FILE_content fp' = FILE_content fp ∧
  match r with
  | Success _ => ∀ d, FILE_crash fp' d ↔ d = FILE_content fp
  | Failure _ => ∀ d, FILE_crash fp' d → FILE_crash fp d
  end.
Proof.
  unfold PortableFile.FlushDurable. destruct (std_fflush fp) as [rc0 fp1] eqn:E1.
  pose proof (std_fflush_same _ _ _ E1) as Hs1.
  destruct (negb (rc0 =? 0)).
  { intros H. injection H as <- <-. split; [by apply same_file_content|].
    intros d. by rewrite (same_file_crash _ _ Hs1). }
  destruct (posix_fsync fp1) as [rc fp2] eqn:E2.
  unfold posix_fsync in E2. destruct (next_fault fp1) as [x fp1'] eqn:F.
  pose proof (next_fault_same _ _ _ F) as Hs2.
  assert (same_file fp fp1') as Hs by (by etrans).
  destruct x; injection E2 as <- <-; cbn [negb Z.eqb]; intros H; injection H as <- <-.
  - split; [by apply same_file_content|]. intros d. by rewrite (same_file_crash _ _ Hs).
  - rewrite <- (same_file_content _ _ Hs). split; [done|].
    intros d. apply FILE_crash_fsync.
Qed.

(** No fault to come and none seen. *)
Definition FILE_reliable (fp : FILE) : Prop := faults fp = [] ∧ errflag fp = false.

Ltac reliable_file :=
  match goal with
  | H : FILE_reliable ?f |- _ => destruct f as [st un p err fs]; destruct H as [Hfs He]; cbn in Hfs, He; subst fs err
  end.

Lemma FILE_reliable_Read fp n :
  FILE_reliable fp → 0 ≤ n → ∃ bs fp', PortableFile.Read fp n = (Success bs, fp') ∧ FILE_reliable fp'.
Proof.
  intros. reliable_file. unfold PortableFile.Read, std_fread. cbn. rewrite andb_false_r.
  by eexists _, _.
Qed.

Lemma FILE_reliable_Write fp bs :
  FILE_reliable fp →
  ∃ fp', PortableFile.Write fp bs = (Success (zlen bs), fp') ∧ FILE_reliable fp'.
Proof.
  intros. reliable_file. unfold PortableFile.Write, std_fwrite. cbn.
  unfold zlen. rewrite Z.eqb_refl. cbn. by eexists.
Qed.

Lemma FILE_reliable_Seek fp off (e : bool) :
  FILE_reliable fp → 0 ≤ (if e then zlen (FILE_content fp) else 0) + off →
  ∃ p fp', PortableFile.Seek fp off e = (Success p, fp') ∧ FILE_reliable fp'.
Proof.
  intros Hr Hoff. reliable_file. set (fp := mkFILE st un p false []) in *.
  unfold PortableFile.Seek, std_fseek, std_ftell. cbn [next_fault faults fp].
  set (target := (if e then zlen (FILE_content fp) else 0) + off) in *.
  destruct (Z.ltb_spec target 0); [lia|]. cbn [Z.eqb negb].
  unfold with_pos, fpos_Z. cbn [next_fault faults fpos stable unsynced errflag fp].
  destruct (Z.ltb_spec (Z.of_N (Z.to_N target)) 0); [lia|]. by eexists _, _.
Qed.

Lemma FILE_reliable_Seek_any fp off (e : bool) r fp' :
  FILE_reliable fp → PortableFile.Seek fp off e = (r, fp') → FILE_reliable fp'.
Proof.
  intros Hr. reliable_file. set (fp := mkFILE st un p false []) in *.
  unfold PortableFile.Seek, std_fseek, std_ftell. cbn [next_fault faults fp].
  destruct (_ <? 0); cbn [Z.eqb negb]; [by intros [= _ <-]|].
  unfold with_pos, fpos_Z. cbn [next_fault faults fpos stable unsynced errflag fp].
  by destruct (_ <? 0); intros [= _ <-].
Qed.

Lemma FILE_reliable_Size fp :
  FILE_reliable fp →
  ∃ fp', PortableFile.Size fp = (Success (zlen (FILE_content fp)), fp') ∧ FILE_reliable fp'.
Proof.
  intros. reliable_file. set (fp := mkFILE st un p false []).
  pose proof (zlen_nonneg (FILE_content fp)).
  unfold PortableFile.Size, std_ftell, std_fseek. cbn [next_fault faults fp].
  rewrite Z.add_0_r. destruct (Z.ltb_spec (zlen (FILE_content fp)) 0); [lia|].
  unfold with_pos, fpos_Z. cbn [next_fault faults fpos stable unsynced errflag fp].
  rewrite Z2N.id by done. destruct (Z.ltb_spec (0 + Z.of_N p) 0); [lia|].
  destruct (Z.ltb_spec (zlen (FILE_content fp)) 0); [lia|]. by eexists.
Qed.

Lemma FILE_reliable_SetLength fp n :
  FILE_reliable fp → ∃ fp', PortableFile.SetLength fp n = (Success tt, fp') ∧ FILE_reliable fp'.
Proof. intros. reliable_file. by eexists. Qed.

Lemma FILE_reliable_FlushDurable fp :
  FILE_reliable fp → ∃ fp', PortableFile.FlushDurable fp = (Success tt, fp') ∧ FILE_reliable fp'.
Proof. intros. reliable_file. by eexists. Qed.

#[export] Program Instance PortableFile_IFileSpec : IFileSpec FILE := {
  file_pos := fpos_Z;
  crash_image := FILE_crash;
  reliable := FILE_reliable
}.
Next Obligation. intros. unfold fpos_Z. lia. Qed.
Next Obligation. apply FILE_crash_self. Qed.
Next Obligation.
  intros f n r f' [Hn _] H. destruct (PortableFile_Read_spec _ _ _ _ Hn H) as [Hs Hr].
  split; [by apply same_file_content|]. split; [by apply same_file_crash|done].
Qed.
Next Obligation.
  intros f bs r f' H. destruct (PortableFile_Write_spec _ _ _ _ H) as (k & Hk & C & I & Hr).
  exists k. split; [done|]. split; [done|]. split; [|done].
  intros d Hd. destruct (I d Hd) as (d0 & j & ? & ? & ->). by exists d0, j.
Qed.
Next Obligation.
  intros f o e r f' H. destruct (PortableFile_Seek_spec _ _ _ _ _ H) as [Hs Hr].
  split; [by apply same_file_content|]. split; [by apply same_file_crash|done].
Qed.
Next Obligation.
  intros f r f' H. destruct (PortableFile_Size_spec _ _ _ H) as [Hs Hr].
  split; [by apply same_file_content|]. split; [by apply same_file_crash|done].
Qed.
Next Obligation.
  intros f n r f' [Hn _] H. destruct (PortableFile_SetLength_spec _ _ _ _ H) as [I C]. split; [|by destruct r].
  intros d Hd. destruct (I d Hd) as [?|(d0 & ? & ->)]; [by left|right]. by exists d0.
Qed.
Next Obligation. intros. by apply PortableFile_FlushDurable_spec. Qed.
Next Obligation. intros f n Hr [Hn _]. by apply FILE_reliable_Read. Qed.
Next Obligation. intros. by apply FILE_reliable_Write. Qed.
Next Obligation. intros. by apply FILE_reliable_Seek. Qed.
Next Obligation. intros. by eapply FILE_reliable_Seek_any. Qed.
Next Obligation. intros. by apply FILE_reliable_Size. Qed.
Next Obligation. intros. by apply FILE_reliable_SetLength. Qed.
Next Obligation. intros. by apply FILE_reliable_FlushDurable. Qed.

(** A file freshly opened with the given content, and no fault to come. *)
Definition FILE_of (c : bytes) : FILE := mkFILE c [] 0 false [].

Lemma FILE_of_synced c d : FILE_crash (FILE_of c) d → d = c.
Proof. by intros (dn & rest & E & [->|(o & o' & r & -> & _)]); destruct dn. Qed.

(** ** Reading exact lengths

    The helper the journal and the backing store both define: a short read,
    whether the end of the file or an error, is "no more usable data". *)
Section ReadExact.
Context {F : Type} `{IFile F}.

Definition ReadExact (f : F) (n : Z) : option bytes * F :=
  match Read f n with
  | (Success bs, f') => (if zlen bs =? n then Some bs else None, f')
  | (Failure _, f') => (None, f')
  end.
End ReadExact.

(** "Read or leave the loop". *)
Notation "'read!' x , f ':=' e 'in' k" :=
  (match e with (Some x, f) => k | (None, f) => (None, f) end)
  (at level 10, x name, f name, e at level 200, k at level 200).

(** The same on a byte sequence held in memory: the reference reader. *)
Definition take_exact (c : bytes) (n : Z) : option bytes * bytes :=
  if zlen c <? n then (None, c) else (Some (take (Z.to_nat n) c), drop (Z.to_nat n) c).

Lemma take_exact_Some c n bs c' :
  0 ≤ n → take_exact c n = (Some bs, c') ↔ zlen bs = n ∧ c = bs ++ c'.
Proof.
  intros Hn. unfold take_exact. split.
  - destruct (Z.ltb_spec (zlen c) n); [done|]. intros [= <- <-].
    split; [|by rewrite take_drop]. unfold zlen in *. rewrite length_take. lia.
  - intros [Hl ->]. rewrite zlen_app. pose proof (zlen_nonneg c').
    destruct (Z.ltb_spec (zlen bs + zlen c') n); [lia|].
    unfold zlen in Hl. assert (Z.to_nat n = length bs) as -> by lia.
    by rewrite take_app_length, drop_app_length.
Qed.

(** A length field of four bytes is within what one call transfers. *)
Lemma take_exact_length c l : fst (take_exact c 4) = Some l → 0 ≤ le_val l < io_limit.
Proof.
  destruct (take_exact c 4) as [o c'] eqn:E. cbn. intros ->.
  apply take_exact_Some in E as [Hl _]; [|done].
  split; [apply le_val_range|]. pose proof (le_val_range l) as [_ Hlt].
  unfold zlen in Hl. by rewrite Hl in Hlt.
Qed.

Lemma take_exact_app bs c n : zlen bs = n → take_exact (bs ++ c) n = (Some bs, c).
Proof. intros <-. apply take_exact_Some; [apply zlen_nonneg|done]. Qed.

Lemma take_le n z c : take_exact (le_bytes n z ++ c) (Z.of_nat n) = (Some (le_bytes n z), c).
Proof. apply take_exact_app, zlen_le_bytes. Qed.

(** The file is positioned in front of [rest]. *)
Definition reads {F} `{IFileSpec F} (f : F) (rest : bytes) : Prop :=
  cursor (file_content f) (file_pos f) rest.

Section reads.
Context {F : Type} `{IFileSpec F}.

Lemma ReadExact_sound (f : F) n o f' rest :
  0 ≤ n < io_limit → reads f rest → ReadExact f n = (o, f') →
  file_content f' = file_content f ∧ (∀ d, crash_image f' d ↔ crash_image f d) ∧
  ∀ bs, o = Some bs → ∃ rest', take_exact rest n = (Some bs, rest') ∧ reads f' rest'.
Proof.
  unfold reads, ReadExact. intros Hn Hc Hr.
  destruct (Read f n) as [r f1] eqn:E.
  destruct (Read_spec _ _ _ _ Hn E) as (Hcont & Hcr & Hres).
  assert (f1 = f') as <- by (destruct r; by simplify_eq).
  split; [done|]. split; [done|]. intros bs ->. destruct r as [bs0|]; [|by simplify_eq].
  destruct (Z.eqb_spec (zlen bs0) n) as [Hl|]; simplify_eq.
  destruct Hres as [Hbs Hpos].
  destruct (cursor_cut _ _ (zlen bs) _ Hc) as (Hrest & _ & Hc').
  { split; [apply zlen_nonneg|]. destruct Hc as (? & ? & <-).
    assert (zlen bs = zlen (slice (file_content f) (file_pos f) (zlen bs))) as -> by congruence.
    unfold slice, zlen. rewrite length_take. lia. }
  eexists. split; [|by rewrite Hcont, Hpos].
  apply take_exact_Some; [lia|]. split; [done|]. by rewrite <- Hbs in Hrest.
Qed.

Lemma ReadExact_reliable (f : F) n rest :
  0 ≤ n < io_limit → reads f rest → reliable f →
  ∃ f', ReadExact f n = (fst (take_exact rest n), f') ∧ reliable f'.
Proof.
  unfold reads, ReadExact. intros Hn Hc Hr.
  destruct (reliable_Read f n Hr Hn) as (bs & f' & E & Hr'). rewrite E.
  exists f'. split; [|done]. f_equal.
  destruct (Read_spec _ _ _ _ Hn E) as (_ & _ & -> & _).
  unfold take_exact, slice. destruct Hc as (_ & _ & ->).
  unfold zlen. rewrite length_take.
  destruct (Z.ltb_spec (Z.of_nat (length rest)) n), (Z.eqb_spec (Z.of_nat (Z.to_nat n `min` length rest)) n);
    simpl; (done || lia).
Qed.

(** A reading computation over the file against the same one over the bytes
    in front of it: it changes nothing but the position; what it delivers,
    the reference delivers; on a reliable file both deliver the same. *)
Definition read_sim {A} (f : F) (m : option A * F) (p : option A * bytes) : Prop :=
  file_content (snd m) = file_content f ∧
  (∀ d, crash_image (snd m) d ↔ crash_image f d) ∧
  (∀ x, fst m = Some x → fst p = Some x ∧ reads (snd m) (snd p)) ∧
  (reliable f → fst m = fst p ∧ reliable (snd m)).

Lemma read_sim_exact (f : F) n rest :
  0 ≤ n < io_limit → reads f rest → read_sim f (ReadExact f n) (take_exact rest n).
Proof.
  intros Hn Hr. destruct (ReadExact f n) as [o f'] eqn:E.
  destruct (ReadExact_sound _ _ _ _ _ Hn Hr E) as (C & I & S).
  split; [done|]. split; [done|]. split.
  - intros bs Hbs. destruct (S bs Hbs) as (rest' & -> & Hr'). done.
  - intros Hrel. destruct (ReadExact_reliable f n rest Hn Hr Hrel) as (f1 & E1 & Hrel1).
    rewrite E in E1. by injection E1 as -> <-.
Qed.

Lemma read_sim_none {A} (f : F) rest : read_sim f (@None A, f) (None, rest).
Proof. split; [done|]. split; [done|]. by split. Qed.

Lemma read_sim_some {A} (f : F) (x : A) rest : reads f rest → read_sim f (Some x, f) (Some x, rest).
Proof. intros Hr. split; [done|]. split; [done|]. split; [|done]. by intros y [= <-]. Qed.

Lemma read_sim_bind {A B} (f : F) (m : option A * F) (p : option A * bytes)
    (k : A → F → option B * F) (h : A → bytes → option B * bytes) :
  read_sim f m p → (∀ x f' rest', fst p = Some x → reads f' rest' → read_sim f' (k x f') (h x rest')) →
  read_sim f (read! x, f' := m in k x f') (read! x, rest := p in h x rest).
Proof.
  intros (C & I & S & R) Hk. destruct m as [[x|] f1], p as [o rest1]; cbn in *.
  - destruct (S x eq_refl) as [-> Hr1]. destruct (Hk x f1 rest1 eq_refl Hr1) as (C' & I' & S' & R').
    split; [congruence|]. split; [intros d; by rewrite I'|]. split; [done|].
    intros Hrel. apply R'. by apply R.
  - split; [done|]. split; [done|]. split; [done|]. intros Hrel.
    destruct (R Hrel) as [<- ?]. done.
Qed.
End reads.

(** ** The moments of a call

    A power cut may fall between any two calls on a file.  What it finds then is
    read off the code itself, run on a file that remembers what it was after
    each call. *)
Section recorded.
Context {F : Type} `{IFile F}.

(** The file now, and what it was after each call so far, in order. *)
Record Recorded := mkRecorded { now : F; moments : list F }.

Definition record_call {A} (op : F → A * F) (f : Recorded) : A * Recorded :=
  let '(a, f') := op (now f) in (a, mkRecorded f' (moments f ++ [f'])).

#[export] Instance Recorded_IFile : IFile Recorded := {
  Read f n := record_call (λ f, Read f n) f;
  Write f bs := record_call (λ f, Write f bs) f;
  Seek f off fromEnd := record_call (λ f, Seek f off fromEnd) f;
  Size f := record_call Size f;
  SetLength f n := record_call (λ f, SetLength f n) f;
  FlushDurable f := record_call FlushDurable f;
  file_content f := file_content (now f)
}.

Definition recording (f : F) : Recorded := mkRecorded f [f].
End recorded.
Arguments Recorded : clear implicits.

(** ** Seek, write, force

    The way the journal, the marker and the backing store put a record on the
    medium. *)
Section write_through.
Context {F : Type} `{IFile F}.

Definition write_through (f : F) (off : Z) (fromEnd : bool) (data : bytes) (short : Error)
    : Result unit * F :=
  match Seek f off fromEnd with
  | (Failure e, f) => (Failure e, f)
  | (Success _, f) =>
    match Write f data with
    | (Failure _, f) => (Failure short, f)
    | (Success written, f) =>
      if negb (written =? zlen data) then (Failure short, f) else FlushDurable f
    end
  end.

(** The file as each step leaves it; [write_through_moments] shows that these are
    the moments of [write_through]. *)
Definition write_through_files (f : F) (off : Z) (fromEnd : bool) (data : bytes) : list F :=
  let '(sr, f1) := Seek f off fromEnd in
  f :: f1 ::
  match sr with
  | Failure _ => []
  | Success _ =>
    let '(wr, f2) := Write f1 data in
    f2 :: match wr with
          | Success written =>
            if negb (written =? zlen data) then [] else [snd (FlushDurable f2)]
          | Failure _ => []
          end
  end.

Lemma write_through_files_last f off fromEnd data short :
  snd (write_through f off fromEnd data short) ∈ write_through_files f off fromEnd data.
Proof.
  unfold write_through, write_through_files.
  destruct (Seek _ _ _) as [[|] f1]; [|by repeat constructor].
  destruct (Write f1 _) as [[|] f2]; [|by repeat constructor].
  destruct (negb _); [by repeat constructor|].
  destruct (FlushDurable f2) as [[|] f3]; by repeat constructor.
Qed.
End write_through.

Lemma write_through_moments {F} `{IFile F} (f : F) off fromEnd data short :
  write_through (recording f) off fromEnd data short =
    (fst (write_through f off fromEnd data short),
     mkRecorded (snd (write_through f off fromEnd data short)) (write_through_files f off fromEnd data)).
Proof.
  unfold write_through, write_through_files, recording.
  cbn [Seek Write FlushDurable Recorded_IFile now moments]. unfold record_call. cbn [now moments].
  destruct (Seek f off fromEnd) as [[p|e] f1]; [|done]. cbn [now moments].
  destruct (Write f1 data) as [[w|e] f2]; [|done].
  destruct (negb _); [done|]. cbn [now moments]. by destruct (FlushDurable f2) as [r f3].
Qed.

Section write_through_spec.
Context {F : Type} `{IFileSpec F}.

(** The images of [f'] are those of [f] with some of the first bytes of
    [data] written at [p], as far as [p] is not beyond their end. *)
Definition images_upto (f f' : F) (p : Z) (data : bytes) : Prop :=
  ∀ d, crash_image f' d →
    ∃ d0 i, (i ≤ length data)%nat ∧ crash_image f d0 ∧ (p ≤ zlen d0 → d = write_at d0 p (take i data)).

Lemma images_upto_same (f f' : F) p data :
  (∀ d, crash_image f' d → crash_image f d) → images_upto f f' p data.
Proof.
  intros Hd d ?. exists d, 0%nat. rewrite take_0. split; [lia|]. split; [by apply Hd|done].
Qed.

Lemma images_upto_flush (f f2 : F) p data r f3 :
  images_upto f f2 p data → FlushDurable f2 = (r, f3) → images_upto f f3 p data.
Proof.
  intros Hup E d Hd. destruct (FlushDurable_spec _ _ _ E) as [_ I]. apply Hup.
  destruct r; apply I in Hd; [|done]. subst d. apply crash_image_self.
Qed.

(** After the seek and the write. *)
Lemma seek_write_images (f f1 f2 : F) off (fromEnd : bool) pos data r :
  let p := (if fromEnd then zlen (file_content f) else 0) + off in
  Seek f off fromEnd = (Success pos, f1) → Write f1 data = (r, f2) →
  images_upto f f2 p data ∧
  ∃ k, (k ≤ length data)%nat ∧
       (p ≤ zlen (file_content f) → file_content f2 = write_at (file_content f) p (take k data)) ∧
       match r with Success n => n = Z.of_nat k | Failure _ => True end.
Proof.
  intros p E1 E2. destruct (Seek_spec _ _ _ _ _ E1) as (C1 & I1 & _ & P1).
  destruct (Seek_spec _ _ _ _ _ E1) as (_ & _ & -> & _). fold p in P1.
  destruct (Write_spec _ _ _ _ E2) as (k & Hk & C2 & I2 & W2). rewrite C1, P1 in C2. split.
  - intros d Hd. destruct (I2 d Hd) as (d0 & i & Hi & Hd0 & Hw).
    exists d0, i. split; [lia|]. rewrite P1 in Hw. split; [by apply I1|done].
  - exists k. split; [done|]. split; [done|]. destruct r; [|done]. by destruct W2.
Qed.

Lemma write_through_inv (f : F) off (fromEnd : bool) data short r f' :
  let p := (if fromEnd then zlen (file_content f) else 0) + off in
  write_through f off fromEnd data short = (r, f') →
  images_upto f f' p data ∧
  (∃ k, (k ≤ length data)%nat ∧
        (p ≤ zlen (file_content f) → file_content f' = write_at (file_content f) p (take k data))) ∧
  (r = Success tt →
   (p ≤ zlen (file_content f) → file_content f' = write_at (file_content f) p data) ∧
   ∀ d, crash_image f' d ↔ d = file_content f').
Proof.
  intros p. unfold write_through.
  destruct (Seek f off fromEnd) as [[pos|e] f1] eqn:E1.
  2:{ destruct (Seek_spec _ _ _ _ _ E1) as (C1 & I1 & _). intros [= <- <-].
      split; [apply images_upto_same; intros d; apply I1|]. split; [|done].
      exists 0%nat. rewrite take_0, C1. split; [lia|done]. }
  destruct (Write f1 data) as [wr f2] eqn:E2.
  destruct (seek_write_images _ _ _ _ _ _ _ _ E1 E2) as (Hup & k & Hk & C2 & Hr). fold p in Hup, C2.
  destruct wr as [w|e]; [|intros [= <- <-]; split; [done|]; split; [eauto|done]].
  subst w. destruct (Z.eqb_spec (Z.of_nat k) (zlen data)) as [Hfull|]; cbn [negb];
    [|intros [= <- <-]; split; [done|]; split; [eauto|done]].
  intros E3. pose proof (images_upto_flush _ _ _ _ _ _ Hup E3) as Hup3.
  destruct (FlushDurable_spec _ _ _ E3) as [C3 I3]. rewrite C3.
  split; [done|]. split; [eauto|]. intros ->. split; [|done].
  intros Hp. rewrite C2 by done. f_equal. apply take_ge. unfold zlen in Hfull. lia.
Qed.

Lemma write_through_files_upto (f f' : F) off (fromEnd : bool) data :
  f' ∈ write_through_files f off fromEnd data →
  images_upto f f' ((if fromEnd then zlen (file_content f) else 0) + off) data.
Proof.
  unfold write_through_files. destruct (Seek f off fromEnd) as [sr f1] eqn:E1.
  destruct (Seek_spec _ _ _ _ _ E1) as (_ & I1 & _).
  rewrite !elem_of_cons. intros [->|[->|Hf]].
  { by apply images_upto_same. }
  { apply images_upto_same. intros d. apply I1. }
  destruct sr as [pos|e]; [|by apply not_elem_of_nil in Hf].
  destruct (Write f1 data) as [wr f2] eqn:E2.
  destruct (seek_write_images _ _ _ _ _ _ _ _ E1 E2) as (Hup & _).
  apply elem_of_cons in Hf as [->|Hf]; [done|].
  destruct wr as [w|e]; [|by apply not_elem_of_nil in Hf].
  destruct (negb _); [by apply not_elem_of_nil in Hf|].
  apply list_elem_of_singleton in Hf as ->.
  destruct (FlushDurable f2) as [fl f3] eqn:E3. by eapply images_upto_flush.
Qed.
End write_through_spec.
