(* ===== verification/Journal.v ===== *)
(** * Journal: the write-ahead journal

    Models src/src/PowerResilience/src/WriteAheadJournal.cpp over the [IFile]
    interface: the framing of a record, [Append], the replay loop, [Truncate].

    [parse_frame] is the code's frame reader run on a byte sequence;
    [frames_of] are the records a scan of a file content delivers.  The
    theorems relate them to [Append] ([frames_of] after an append), to power
    cuts ([crash_image]) and to [Replay]. *)
From S2P Require Import Prelude Common Wire Scan Storage.
Open Scope Z_scope.

Definition kFrameMagic : Z := 0x51434A31.
Definition kMaxReasonablePayloadLength : Z := 256 * 1024 * 1024.

(** ** IWriteAheadJournal.h *)

Record JournalRecord := mkJournalRecord { sequenceNumber : Z; payload : bytes }.

Module ReplayAction.
Inductive ReplayAction := Continue | StopReplaySuccess.
End ReplayAction.

(** A replay callback with its captured state. *)
Definition ReplayCallback (S : Type) : Type :=
  S → JournalRecord → Result ReplayAction.ReplayAction * S.

Class IWriteAheadJournal (J : Type) := {
  Append : J → bytes → Result Z * J;
  Replay : ∀ {S : Type}, ReplayCallback S → S → J → Result unit * S * J;
  Truncate : J → Result unit * J;
  RecordCount : J → Z
}.

(** ** WriteAheadJournal.cpp *)

(** The bytes covered by the CRC, then the whole frame. *)
Definition frame_body (seq : Z) (payload : bytes) : bytes :=
  let frame := AppendRaw 4 [] kFrameMagic in
  let frame := AppendRaw 8 frame seq in
  let frame := AppendRaw 4 frame (wrap32 (zlen payload)) in
  frame ++ payload.

Definition frame (seq : Z) (payload : bytes) : bytes :=
  AppendRaw 4 (frame_body seq payload) (Crc32.Compute (frame_body seq payload)).

Section read_frame.
Context {F : Type} (ReadExact : F → Z → option bytes * F).

(** One turn of the loop of [Replay], up to the call of the callback;
    [None] where the code leaves the loop. *)
Definition read_frame (f : F) : option JournalRecord * F :=
  read! frameMagic, f := ReadExact f 4 in
  if negb (le_val frameMagic =? kFrameMagic) then (None, f) else
  read! sequenceNumber, f := ReadExact f 8 in
  read! payloadLength, f := ReadExact f 4 in
  if kMaxReasonablePayloadLength <? le_val payloadLength then (None, f) else
  read! payload, f :=
    (if 0 <? le_val payloadLength then ReadExact f (le_val payloadLength) else (Some [], f)) in
  read! storedCrc, f := ReadExact f 4 in
  let frameForCrc := AppendRaw 4 [] (le_val frameMagic) in
  let frameForCrc := AppendRaw 8 frameForCrc (le_val sequenceNumber) in
  let frameForCrc := AppendRaw 4 frameForCrc (le_val payloadLength) in
  let frameForCrc := frameForCrc ++ payload in
  if negb (Crc32.Compute frameForCrc =? le_val storedCrc) then (None, f)
  else (Some (mkJournalRecord (le_val sequenceNumber) payload), f).
End read_frame.

Record WriteAheadJournal (F : Type) := mkJournal {
  file_ : F;
  nextSequenceNumber_ : Z;
  recordCount_ : Z
}.
Arguments mkJournal {F}.
Arguments file_ {F}.
Arguments nextSequenceNumber_ {F}.
Arguments recordCount_ {F}.

Section WriteAheadJournal.
Context {F : Type} `{IFile F}.
Implicit Types j : WriteAheadJournal F.

Definition with_file j (f : F) : WriteAheadJournal F :=
  mkJournal f (nextSequenceNumber_ j) (recordCount_ j).

Definition WriteAheadJournal_Append j (payload : bytes) : Result Z * WriteAheadJournal F :=
  let seq := nextSequenceNumber_ j in
  let frame := frame seq payload in
  match Seek (file_ j) 0 true with
  | (Failure e, f) => (Failure e, with_file j f)
  | (Success _, f) =>
    match Write f frame with
    | (Failure _, f) =>
      (Failure (mkError ErrorCode.IoError "journal append: short write" 0), with_file j f)
    | (Success written, f) =>
      if negb (written =? zlen frame) then
        (Failure (mkError ErrorCode.IoError "journal append: short write" 0), with_file j f)
      else
        match FlushDurable f with
        | (Failure e, f) => (Failure e, with_file j f)
        | (Success _, f) =>
          (Success seq, mkJournal f (wrap64 (nextSequenceNumber_ j + 1))
                                  (wrap64 (recordCount_ j + 1)))
        end
    end
  end.

(** What the loop leaves behind: the result, the callback's state, the file,
    and the last sequence number seen, if any. *)
Record loop_end (S : Type) := mkLoopEnd {
  le_result : Result unit; le_state : S; le_file : F; le_highest : option Z
}.
Arguments mkLoopEnd {S}.
Arguments le_result {S}.
Arguments le_state {S}.
Arguments le_file {S}.
Arguments le_highest {S}.

Fixpoint replay_loop {S} (callback : ReplayCallback S) (fuel : nat) (s : S) (f : F)
    (highest : option Z) : option (loop_end S) :=
  match fuel with
  | O => None
  | Datatypes.S fuel =>
    match read_frame ReadExact f with
    | (None, f) => Some (mkLoopEnd (Success tt) s f highest)
    | (Some record, f) =>
      let highest := Some (sequenceNumber record) in
      match callback s record with
      | (Failure e, s) => Some (mkLoopEnd (Failure e) s f highest)
      | (Success ReplayAction.StopReplaySuccess, s) =>
        Some (mkLoopEnd (Success tt) s f highest)
      | (Success ReplayAction.Continue, s) => replay_loop callback fuel s f highest
      end
    end
  end.

(** The fuel: a frame takes 20 bytes at least. *)
Definition replay_fuel (f : F) : nat := Datatypes.S (length (file_content f)).

Definition WriteAheadJournal_Replay {S} (callback : ReplayCallback S) (s : S) j
    : Result unit * S * WriteAheadJournal F :=
  match Seek (file_ j) 0 false with
  | (Failure e, f) => (Failure e, s, with_file j f)
  | (Success _, f) =>
    match replay_loop callback (replay_fuel f) s f None with
    | None => (Failure Error_default, s, with_file j f)
    | Some l =>
      let next :=
        match le_result l, le_highest l with
        | Success _, Some seq => wrap64 (seq + 1)
        | _, _ => nextSequenceNumber_ j
        end in
      (le_result l, le_state l, mkJournal (le_file l) next (recordCount_ j))
    end
  end.

Definition WriteAheadJournal_Truncate j : Result unit * WriteAheadJournal F :=
  match SetLength (file_ j) 0 with
  | (Failure e, f) => (Failure e, with_file j f)
  | (Success _, f) =>
    match Seek f 0 false with
    | (Failure e, f) => (Failure e, with_file j f)
    | (Success _, f) =>
      match FlushDurable f with
      | (Failure e, f) => (Failure e, with_file j f)
      | (Success _, f) => (Success tt, mkJournal f 0 0)
      end
    end
  end.

#[export] Instance WriteAheadJournal_IWriteAheadJournal : IWriteAheadJournal (WriteAheadJournal F) := {
  Append := WriteAheadJournal_Append;
  Replay := @WriteAheadJournal_Replay;
  Truncate := WriteAheadJournal_Truncate;
  RecordCount := recordCount_
}.
End WriteAheadJournal.

(** [CreateWriteAheadJournal] for a non-null file. *)
Definition CreateWriteAheadJournal {F} (file : option F) : Result (WriteAheadJournal F) :=
  match file with
  | None => Failure (mkError ErrorCode.InvalidArgument "file must not be null" 0)
  | Some f => Success (mkJournal f 0 0)
  end.

(** ** The frame reader on a byte sequence *)

Definition parse_frame (c : bytes) : option JournalRecord * bytes := read_frame take_exact c.

(** The records a scan of the file content delivers. *)
Definition frames_of (c : bytes) : list JournalRecord := scan_of parse_frame c.

Definition rec_frame (r : JournalRecord) : bytes := frame (sequenceNumber r) (payload r).
Definition frames (rs : list JournalRecord) : bytes := encs rec_frame rs.

(** The records the loop can deliver. *)
Record frame_ok (r : JournalRecord) : Prop := {
  fok_seq : u64 (sequenceNumber r);
  fok_len : zlen (payload r) ≤ kMaxReasonablePayloadLength
}.

Lemma frame_shape seq p :
  frame seq p =
    le_bytes 4 kFrameMagic ++ le_bytes 8 seq ++ le_bytes 4 (wrap32 (zlen p)) ++ p ++
    le_bytes 4 (Crc32.Compute (frame_body seq p)).
Proof. unfold frame, frame_body, AppendRaw. by rewrite app_nil_l, <- !app_assoc. Qed.

Lemma zlen_frame seq p : zlen (frame seq p) = 20 + zlen p.
Proof. rewrite frame_shape. autorewrite with qcache_len. lia. Qed.

Lemma length_rec_frame_pos r : (0 < length (rec_frame r))%nat.
Proof. pose proof (zlen_frame (sequenceNumber r) (payload r)). pose proof (zlen_nonneg (payload r)).
  unfold rec_frame, zlen in *. lia. Qed.

Lemma crc_width c : in_width (8 * Z.of_nat 4) (Crc32.Compute c).
Proof. apply Crc32.Compute_u32_aux. Qed.

Lemma payload_wrap32 (p : bytes) : zlen p ≤ kMaxReasonablePayloadLength → wrap32 (zlen p) = zlen p.
Proof.
  unfold kMaxReasonablePayloadLength. intros. pose proof (zlen_nonneg p).
  apply wrap_small. unfold in_width. lia.
Qed.

(** A frame is read back. *)
Lemma parse_frame_app r rest :
  frame_ok r → parse_frame (rec_frame r ++ rest) = (Some r, rest).
Proof.
  destruct r as [seq p]. intros [Hs Hl]. cbn in Hs, Hl. unfold rec_frame. cbn [sequenceNumber payload].
  rewrite frame_shape, <- !app_assoc. unfold parse_frame, read_frame.
  rewrite (take_le 4). rewrite (le_val_le_bytes_small 4) by done. rewrite Z.eqb_refl. cbn [negb].
  rewrite (take_le 8), (le_val_le_bytes_small 8) by done.
  rewrite (take_le 4), payload_wrap32 by done.
  pose proof (zlen_nonneg p).
  rewrite (le_val_le_bytes_small 4)
    by (unfold kMaxReasonablePayloadLength in Hl; unfold in_width; simpl; lia).
  destruct (Z.ltb_spec kMaxReasonablePayloadLength (zlen p)); [lia|].
  assert ((if 0 <? zlen p then take_exact (p ++ le_bytes 4 (Crc32.Compute (frame_body seq p)) ++ rest) (zlen p)
           else (Some [], p ++ le_bytes 4 (Crc32.Compute (frame_body seq p)) ++ rest)) =
          (Some p, le_bytes 4 (Crc32.Compute (frame_body seq p)) ++ rest)) as ->.
  { destruct (Z.ltb_spec 0 (zlen p)); [by apply take_exact_app|].
    destruct p; [done|]. rewrite zlen_cons in *. pose proof (zlen_nonneg p). lia. }
  rewrite (take_le 4), (le_val_le_bytes_small 4) by apply crc_width.
  assert (AppendRaw 4 (AppendRaw 8 (AppendRaw 4 [] kFrameMagic) seq) (zlen p) ++ p = frame_body seq p)
    as ->.
  { unfold frame_body. by rewrite payload_wrap32. }
  by rewrite Z.eqb_refl.
Qed.

(** Nothing but a frame is read. *)
Lemma parse_frame_inv c r rest :
  parse_frame c = (Some r, rest) → frame_ok r ∧ c = rec_frame r ++ rest.
Proof.
  unfold parse_frame, read_frame. intros H.
  destruct (take_exact c 4) as [[m|] c1] eqn:E1; [|done].
  destruct (negb (le_val m =? kFrameMagic)) eqn:Em; [done|].
  destruct (take_exact c1 8) as [[s|] c2] eqn:E2; [|done].
  destruct (take_exact c2 4) as [[l|] c3] eqn:E3; [|done].
  destruct (kMaxReasonablePayloadLength <? le_val l) eqn:El; [done|].
  apply take_exact_Some in E1 as [L1 ->]; [|lia].
  apply take_exact_Some in E2 as [L2 ->]; [|lia].
  apply take_exact_Some in E3 as [L3 ->]; [|lia].
  pose proof (le_val_range l) as Hl.
  destruct (if 0 <? le_val l then _ else _) as [[p|] c4] eqn:E4; [|done].
  assert (zlen p = le_val l ∧ c3 = p ++ c4) as [L4 ->].
  { destruct (Z.ltb_spec 0 (le_val l)); [apply take_exact_Some in E4; [done|lia]|].
    injection E4 as <- <-. split; [|done]. change (zlen []) with 0. lia. }
  destruct (take_exact c4 4) as [[k|] c5] eqn:E5; [|done].
  apply take_exact_Some in E5 as [L5 ->]; [|lia].
  destruct (negb _) eqn:Ek in H; [done|]. injection H as <- <-. zbool.
  assert (frame_ok (mkJournalRecord (le_val s) p)) as Hok.
  { constructor; cbn; [|lia]. apply (le_val_width 8). unfold zlen in L2. lia. }
  split; [done|]. unfold rec_frame. cbn [sequenceNumber payload]. rewrite frame_shape.
  assert (frame_body (le_val s) p = AppendRaw 4 (AppendRaw 8 (AppendRaw 4 [] (le_val m)) (le_val s)) (le_val l) ++ p) as ->.
  { unfold frame_body. rewrite payload_wrap32 by apply Hok. by rewrite Em, L4. }
  rewrite Ek, payload_wrap32, L4 by apply Hok.
  rewrite <- !app_assoc. unfold zlen in *.
  rewrite <- Em, <- (le_bytes_le_val m) at 1. f_equal; [f_equal; lia|].
  rewrite <- (le_bytes_le_val s) at 1. f_equal; [f_equal; lia|].
  rewrite <- (le_bytes_le_val l) at 1. f_equal; [f_equal; lia|]. f_equal.
  rewrite <- (le_bytes_le_val k) at 1. f_equal; f_equal; lia.
Qed.

#[export] Instance frame_Framing : Framing parse_frame rec_frame frame_ok.
Proof.
  constructor; [apply parse_frame_app|apply parse_frame_inv|apply length_rec_frame_pos].
Qed.

(** Nothing torn. *)
Definition clean_content (c : bytes) : Prop := clean_log parse_frame rec_frame c.

(** ** The operations *)

Lemma Append_write_through {F} `{IFile F} (j : WriteAheadJournal F) p :
  WriteAheadJournal_Append j p =
    let '(r, f) := write_through (file_ j) 0 true (frame (nextSequenceNumber_ j) p)
                     (mkError ErrorCode.IoError "journal append: short write" 0) in
    match r with
    | Failure e => (Failure e, with_file j f)
    | Success _ => (Success (nextSequenceNumber_ j),
                    mkJournal f (wrap64 (nextSequenceNumber_ j + 1)) (wrap64 (recordCount_ j + 1)))
    end.
Proof.
  unfold WriteAheadJournal_Append, write_through.
  destruct (Seek _ _ _) as [[|] f1]; [|done].
  destruct (Write f1 _) as [[|] f2]; [|done].
  destruct (negb _); [done|]. by destruct (FlushDurable f2) as [[[]|] f3].
Qed.

(** *** The moments of the calls that change the file *)
Section moments.
Context {F : Type} `{IFile F}.
Implicit Types j : WriteAheadJournal F.

Definition recording_journal j : WriteAheadJournal (Recorded F) :=
  mkJournal (recording (file_ j)) (nextSequenceNumber_ j) (recordCount_ j).

(** The file after each call [Append] makes: the points where a power cut can
    fall. *)
Definition Append_files j (payload : bytes) : list F :=
  moments (file_ (snd (WriteAheadJournal_Append (recording_journal j) payload))).

Lemma Append_files_write_through j p :
  Append_files j p = write_through_files (file_ j) 0 true (frame (nextSequenceNumber_ j) p).
Proof.
  unfold Append_files. rewrite Append_write_through. cbn [recording_journal file_ nextSequenceNumber_].
  rewrite write_through_moments. by destruct (write_through (file_ j) _ _ _ _) as [[[]|e] f].
Qed.

(** The last moment is the file as [Append] leaves it. *)
Lemma Append_files_last j p : file_ (snd (WriteAheadJournal_Append j p)) ∈ Append_files j p.
Proof.
  rewrite Append_files_write_through, Append_write_through.
  pose proof (write_through_files_last (file_ j) 0 true (frame (nextSequenceNumber_ j) p)
                (mkError ErrorCode.IoError "journal append: short write" 0)) as Hin.
  by destruct (write_through (file_ j) _ _ _ _) as [[[]|e] f].
Qed.

(** The file after each call [Truncate] makes. *)
Definition Truncate_files j : list F :=
  moments (file_ (snd (WriteAheadJournal_Truncate (recording_journal j)))).

Lemma Truncate_files_steps j :
  Truncate_files j =
    let '(sr, f1) := SetLength (file_ j) 0 in
    file_ j :: f1 ::
    match sr with
    | Failure _ => []
    | Success _ =>
      let '(kr, f2) := Seek f1 0 false in
      f2 :: match kr with Failure _ => [] | Success _ => [snd (FlushDurable f2)] end
    end.
Proof.
  unfold Truncate_files, WriteAheadJournal_Truncate, recording_journal, recording.
  cbn [file_ SetLength Seek FlushDurable Recorded_IFile]. unfold record_call. cbn [now moments].
  destruct (SetLength (file_ j) 0) as [[u|e] f1]; [|done]. cbn [now moments].
  destruct (Seek f1 0 false) as [[p|e] f2]; [|done]. cbn [now moments].
  by destruct (FlushDurable f2) as [[u'|e] f3].
Qed.
End moments.

Section operations.
Context {F : Type} `{IFileSpec F}.
Implicit Types j : WriteAheadJournal F.

Abbreviation content j := (file_content (file_ j)).

Lemma Append_inv j p r j' :
  WriteAheadJournal_Append j p = (r, j') →
  images_upto (file_ j) (file_ j') (zlen (content j)) (frame (nextSequenceNumber_ j) p) ∧
  match r with
  | Success seq =>
    seq = nextSequenceNumber_ j ∧
    content j' = content j ++ frame (nextSequenceNumber_ j) p ∧
    nextSequenceNumber_ j' = wrap64 (nextSequenceNumber_ j + 1) ∧
    recordCount_ j' = wrap64 (recordCount_ j + 1) ∧
    ∀ d, crash_image (file_ j') d ↔ d = content j'
  | Failure _ =>
    nextSequenceNumber_ j' = nextSequenceNumber_ j ∧ recordCount_ j' = recordCount_ j
  end.
Proof.
  rewrite Append_write_through. destruct (write_through _ _ _ _ _) as [wr f] eqn:E.
  apply write_through_inv in E as (Hup & _ & Hok). rewrite Z.add_0_r in *.
  destruct wr as [[]|e]; intros [= <- <-]; (split; [done|]); [|done].
  destruct (Hok eq_refl) as [C I]. rewrite write_at_end in C. specialize (C ltac:(lia)). done.
Qed.

(** What the records of the journal are, and when nothing is torn and
    nothing is left to be forced to stable storage. *)
Definition WAL_records j : list JournalRecord := frames_of (content j).

Record WAL_clean j : Prop := {
  wc_clean : clean_content (content j);
  wc_synced d : crash_image (file_ j) d → d = content j;
  wc_next : u64 (nextSequenceNumber_ j)
}.

Definition appended j (p : bytes) : JournalRecord :=
  mkJournalRecord (nextSequenceNumber_ j) p.

Lemma appended_ok j p :
  WAL_clean j → zlen p ≤ kMaxReasonablePayloadLength → frame_ok (appended j p).
Proof. intros []. by constructor. Qed.

(** The records of an image left by an append. *)
Lemma images_upto_records j (f' : F) p d :
  WAL_clean j → zlen p ≤ kMaxReasonablePayloadLength →
  images_upto (file_ j) f' (zlen (content j)) (frame (nextSequenceNumber_ j) p) → crash_image f' d →
  frames_of d = WAL_records j ∨ frames_of d = WAL_records j ++ [appended j p].
Proof.
  intros Hc Hp Hup Hd. destruct (Hup d Hd) as (d0 & i & Hi & Hd0 & Hw).
  apply (wc_synced j Hc) in Hd0 as ->. rewrite Hw, write_at_end by lia.
  apply (scan_of_append_cut (parse:=parse_frame) (enc:=rec_frame) (content j) (appended j p) i); [apply Hc|by apply appended_ok|done].
Qed.

Lemma Append_success_aux j p seq j' :
  WAL_clean j → zlen p ≤ kMaxReasonablePayloadLength →
  WriteAheadJournal_Append j p = (Success seq, j') →
  WAL_clean j' ∧ WAL_records j' = WAL_records j ++ [appended j p].
Proof.
  intros Hc Hp HA. destruct (Append_inv _ _ _ _ HA) as (_ & _ & C & N & _ & I).
  change (frame (nextSequenceNumber_ j) p) with (rec_frame (appended j p)) in C.
  split.
  - constructor.
    + rewrite C. apply clean_log_app; [apply Hc|by apply appended_ok].
    + intros d. apply I.
    + rewrite N. by apply wrap_width.
  - unfold WAL_records, frames_of. rewrite C. apply scan_of_append; [apply Hc|by apply appended_ok].
Qed.

(** Any outcome of an append, whatever reached the medium. *)
Lemma Append_any_aux j p r j' :
  WAL_clean j → zlen p ≤ kMaxReasonablePayloadLength →
  WriteAheadJournal_Append j p = (r, j') →
  (WAL_records j' = WAL_records j ∨ WAL_records j' = WAL_records j ++ [appended j p]) ∧
  ∀ d, crash_image (file_ j') d →
    frames_of d = WAL_records j ∨ frames_of d = WAL_records j ++ [appended j p].
Proof.
  intros Hc Hp HA. destruct (Append_inv _ _ _ _ HA) as (Hup & _). split.
  - eapply images_upto_records; [done..|]. apply crash_image_self.
  - intros d. by apply images_upto_records.
Qed.

Lemma SetLength_0 (f : F) r f' :
  SetLength f 0 = (r, f') →
  (∀ d, crash_image f' d → crash_image f d ∨ d = []) ∧
  file_content f' = match r with Success _ => [] | Failure _ => file_content f end.
Proof.
  intros E. destruct (SetLength_spec _ _ _ _ ltac:(done) E) as [I C].
  assert (∀ c, set_length c 0 = []) as Hnil by (intros c; by destruct c). split.
  - intros d Hd. destruct (I d Hd) as [?|(d0 & _ & Hw)]; [by left|right].
    rewrite Hw by apply zlen_nonneg. apply Hnil.
  - destruct r; [|done]. rewrite C by apply zlen_nonneg. apply Hnil.
Qed.

Lemma Truncate_inv j r j' :
  WriteAheadJournal_Truncate j = (r, j') →
  match r with
  | Success _ => content j' = [] ∧ nextSequenceNumber_ j' = 0 ∧ recordCount_ j' = 0 ∧
                 ∀ d, crash_image (file_ j') d ↔ d = []
  | Failure _ =>
    (content j' = content j ∨ content j' = []) ∧
    (∀ d, crash_image (file_ j') d → crash_image (file_ j) d ∨ d = []) ∧
    nextSequenceNumber_ j' = nextSequenceNumber_ j ∧ recordCount_ j' = recordCount_ j
  end.
Proof.
  unfold WriteAheadJournal_Truncate.
  destruct (SetLength (file_ j) 0) as [sr f1] eqn:E1.
  destruct (SetLength_0 _ _ _ E1) as [I1' C1]. destruct sr as [[]|e].
  2:{ intros [= <- <-]. cbn. auto. }
  destruct (Seek f1 0 false) as [kr f2] eqn:E2.
  destruct (Seek_spec _ _ _ _ _ E2) as (C2 & I2 & _).
  destruct kr as [p|e].
  2:{ intros [= <- <-]. cbn. rewrite C2, C1. split; [by right|]. split; [|done].
      intros d Hd. by apply I1', I2. }
  destruct (FlushDurable f2) as [fl f3] eqn:E3.
  destruct (FlushDurable_spec _ _ _ E3) as [C3 I3].
  destruct fl as [[]|e]; intros [= <- <-]; cbn.
  - rewrite C3, C2, C1 in *. auto.
  - rewrite C3, C2, C1. split; [by right|]. split; [|done].
    intros d Hd. by apply I1', I2, I3.
Qed.

Lemma Truncate_files_images j f d :
  f ∈ Truncate_files j → crash_image f d → crash_image (file_ j) d ∨ d = [].
Proof.
  rewrite Truncate_files_steps. destruct (SetLength (file_ j) 0) as [sr f1] eqn:E1.
  destruct (SetLength_0 _ _ _ E1) as [I1' C1].
  rewrite !elem_of_cons. intros [->|[->|Hf]]; [by left|by apply I1'|].
  destruct sr as [[]|e]; [|by apply not_elem_of_nil in Hf].
  destruct (Seek f1 0 false) as [kr f2] eqn:E2. destruct (Seek_spec _ _ _ _ _ E2) as (C2 & I2 & _).
  apply elem_of_cons in Hf as [->|Hf]; [intros Hd; by apply I1', I2|].
  destruct kr as [p|e]; [|by apply not_elem_of_nil in Hf]. apply list_elem_of_singleton in Hf as ->.
  destruct (FlushDurable f2) as [fl f3] eqn:E3. cbn [snd]. destruct (FlushDurable_spec _ _ _ E3) as [C3 I3].
  destruct fl; intros Hd; apply I3 in Hd; [right; congruence|by apply I1', I2].
Qed.

(** ** The replay loop *)

Lemma read_frame_sim (f : F) rest :
  reads f rest → read_sim f (read_frame ReadExact f) (parse_frame rest).
Proof.
  intros Hr. unfold parse_frame, read_frame.
  apply read_sim_bind; [by apply read_sim_exact|]. intros m f1 r1 _ Hr1.
  destruct (negb _); [by apply read_sim_none|].
  apply read_sim_bind; [by apply read_sim_exact|]. intros sq f2 r2 _ Hr2.
  apply read_sim_bind; [by apply read_sim_exact|]. intros l f3 r3 Hl Hr3.
  destruct (_ <? _); [by apply read_sim_none|].
  apply read_sim_bind.
  { destruct (0 <? le_val l); [|by apply read_sim_some].
    apply read_sim_exact; [by eapply take_exact_length|done]. }
  intros p f4 r4 _ Hr4.
  apply read_sim_bind; [by apply read_sim_exact|]. intros crc f5 r5 _ Hr5.
  destruct (negb _); [by apply read_sim_none|by apply read_sim_some].
Qed.

(** The callback over a list of records, stopping where it says so: its
    result, its state, and the sequence number of the last record seen. *)
Fixpoint replay_records {S} (callback : ReplayCallback S) (s : S) (highest : option Z)
    (rs : list JournalRecord) : Result unit * S * option Z :=
  match rs with
  | [] => (Success tt, s, highest)
  | r :: rs =>
    match callback s r with
    | (Failure e, s) => (Failure e, s, Some (sequenceNumber r))
    | (Success ReplayAction.StopReplaySuccess, s) => (Success tt, s, Some (sequenceNumber r))
    | (Success ReplayAction.Continue, s) => replay_records callback s (Some (sequenceNumber r)) rs
    end
  end.

Lemma replay_loop_records {S} (cb : ReplayCallback S) fuel s f highest rest :
  reads f rest → (length rest < fuel)%nat →
  ∃ l rs, replay_loop cb fuel s f highest = Some l ∧
    rs `prefix_of` frames_of rest ∧
    replay_records cb s highest rs = (le_result _ l, le_state _ l, le_highest _ l) ∧
    file_content (le_file _ l) = file_content f ∧
    (∀ d, crash_image (le_file _ l) d ↔ crash_image f d) ∧
    (reliable f → reliable (le_file _ l) ∧
       replay_records cb s highest (frames_of rest) = replay_records cb s highest rs).
Proof.
  revert s f highest rest. induction fuel as [|fuel IH]; intros s f highest rest Hr Hf; [lia|].
  cbn [replay_loop].
  destruct (read_frame_sim f rest Hr) as (C & I & Hsome & Hrel).
  destruct (read_frame ReadExact f) as [[r|] f1] eqn:E; cbn [fst snd] in *.
  - destruct (Hsome r eq_refl) as [P Hr1].
    destruct (parse_frame rest) as [o rest1] eqn:EP. cbn in P, Hr1. subst o.
    pose proof (parse_shorter _ _ _ EP).
    unfold frames_of. rewrite (scan_of_Some _ _ _ EP). fold (frames_of rest1).
    destruct (cb s r) as [[[]|e] s1] eqn:EC.
    + destruct (IH s1 f1 (Some (sequenceNumber r)) rest1 Hr1) as (l & rs & -> & Hp & Hrec & C' & I' & R');
        [lia|]. exists l, (r :: rs). split; [done|]. split; [by apply prefix_cons|].
      cbn [replay_records]. rewrite EC. split; [done|]. split; [congruence|].
      split; [intros d; by rewrite I'|]. intros Hrf. apply R'. by apply Hrel.
    + eexists _, [r]. split; [done|]. split; [apply prefix_cons, prefix_nil|].
      cbn [replay_records]. rewrite EC. split; [done|]. split; [done|]. split; [done|].
      intros Hrf. split; [by apply Hrel|done].
    + eexists _, [r]. split; [done|]. split; [apply prefix_cons, prefix_nil|].
      cbn [replay_records]. rewrite EC. split; [done|]. split; [done|]. split; [done|].
      intros Hrf. split; [by apply Hrel|done].
  - eexists _, []. split; [done|]. split; [apply prefix_nil|]. split; [done|].
    split; [done|]. split; [done|]. intros Hrf. destruct (Hrel Hrf) as [HP Hrf1].
    split; [done|]. unfold frames_of. by rewrite scan_of_None.
Qed.

(** The sequence number that follows a replay. *)
Definition next_after j (res : Result unit) (highest : option Z) : Z :=
  match res, highest with Success _, Some seq => wrap64 (seq + 1) | _, _ => nextSequenceNumber_ j end.

Lemma Replay_inv {S} (cb : ReplayCallback S) s j r s' j' :
  WriteAheadJournal_Replay cb s j = (r, s', j') →
  content j' = content j ∧ (∀ d, crash_image (file_ j') d ↔ crash_image (file_ j) d) ∧
  recordCount_ j' = recordCount_ j ∧
  ((∃ e, r = Failure e ∧ s' = s ∧ nextSequenceNumber_ j' = nextSequenceNumber_ j) ∨
   ∃ rs hi, rs `prefix_of` WAL_records j ∧ replay_records cb s None rs = (r, s', hi) ∧
            nextSequenceNumber_ j' = next_after j r hi) ∧
  (reliable (file_ j) →
   reliable (file_ j') ∧
   ∃ hi, replay_records cb s None (WAL_records j) = (r, s', hi) ∧
         nextSequenceNumber_ j' = next_after j r hi).
Proof.
  unfold WriteAheadJournal_Replay.
  destruct (Seek (file_ j) 0 false) as [sr f1] eqn:E1.
  destruct (Seek_spec _ _ _ _ _ E1) as (C1 & I1 & P1). destruct sr as [p|e].
  - destruct P1 as [-> P1]. rewrite Z.add_0_r in P1.
    assert (reads f1 (content j)) as Hr.
    { unfold reads. rewrite P1, C1. apply cursor_0. }
    destruct (replay_loop_records cb (replay_fuel f1) s f1 None _ Hr) as (l & rs & -> & Hp & Hrec & C & I & R).
    { unfold replay_fuel. rewrite C1. lia. }
    intros [= <- <- <-]. cbn [file_ recordCount_ nextSequenceNumber_].
    split; [congruence|]. split; [intros d; by rewrite I|]. split; [done|]. split.
    + right. exists rs, (le_highest _ l). auto.
    + intros Hrel. destruct (reliable_Seek (file_ j) 0 false Hrel) as (p & f1' & E1' & Hrel1); [lia|].
      rewrite E1 in E1'. injection E1' as _ <-. destruct (R Hrel1) as [Hrel2 Heq].
      split; [done|]. exists (le_highest _ l). split; [|done].
      unfold WAL_records. by rewrite Heq.
  - intros [= <- <- <-]. cbn. split; [done|]. split; [done|]. split; [done|]. split.
    + left. eauto.
    + intros Hrel. destruct (reliable_Seek (file_ j) 0 false Hrel) as (p & f1' & E1' & _); [lia|].
      by rewrite E1 in E1'.
Qed.
End operations.

(** ** Corruption and torn tails *)

Lemma rec_frame_body_crc r :
  rec_frame r = frame_body (sequenceNumber r) (payload r) ++
                le_bytes 4 (Crc32.Compute (frame_body (sequenceNumber r) (payload r))).
Proof. done. Qed.

Lemma length_rec_frame r : length (rec_frame r) = (20 + length (payload r))%nat.
Proof.
  pose proof (zlen_frame (sequenceNumber r) (payload r)). unfold rec_frame, zlen in *. lia.
Qed.

(** The length field of a frame. *)
Lemma frame_length_field r t :
  take 4 (drop 12 (rec_frame r ++ t)) = le_bytes 4 (wrap32 (zlen (payload r))).
Proof.
  unfold rec_frame. rewrite frame_shape, <- !app_assoc, app_assoc.
  rewrite drop_app_length' by (rewrite length_app, !length_le_bytes; lia).
  by rewrite take_app_length' by (by rewrite length_le_bytes).
Qed.

Lemma length_field_insert (c : bytes) i b :
  (i < 12 ∨ 16 ≤ i)%nat → take 4 (drop 12 (<[i:=b]> c)) = take 4 (drop 12 c).
Proof.
  intros [Hi|Hi]; [by rewrite drop_insert_lt by lia|].
  rewrite drop_insert_ge by lia. apply take_insert_ge. lia.
Qed.

(** Two frames whose bytes differ at one place, which is not in the length
    field, have the same length: the second is then no frame. *)
Lemma corrupt_no_frame r i b b' rest :
  frame_ok r → rec_frame r !! i = Some b → b' ≠ b → (i < 12 ∨ 16 ≤ i)%nat →
  fst (parse_frame (<[i:=b']> (rec_frame r) ++ rest)) = None.
Proof.
  intros Hok Hb Hne Hi.
  destruct (parse_frame _) as [[r'|] rest'] eqn:E; [exfalso|done].
  apply parse_frame_inv in E as [Hok' E].
  pose proof (lookup_lt_Some _ _ _ Hb) as Hlt.
  assert (length (payload r) = length (payload r')) as Hlen.
  { pose proof (frame_length_field r' rest') as E'. rewrite <- E in E'.
    rewrite <- insert_app_l, length_field_insert, frame_length_field in E' by done.
    apply (f_equal le_val) in E'.
    rewrite !payload_wrap32 in E' by (apply Hok || apply Hok').
    destruct Hok as [_ L], Hok' as [_ L']. unfold kMaxReasonablePayloadLength, zlen in *.
    rewrite !(le_val_le_bytes_small 4) in E' by (unfold in_width; simpl; lia). lia. }
  apply app_inj_1 in E as [E _]; [|by rewrite length_insert, !length_rec_frame, Hlen].
  rewrite (rec_frame_body_crc r) in *. rewrite rec_frame_body_crc in E.
  set (body := frame_body _ (payload r)) in *. set (body' := frame_body _ (payload r')) in *.
  assert (length body = length body') as Hbody.
  { pose proof (length_rec_frame r) as L. pose proof (length_rec_frame r') as L'.
    rewrite rec_frame_body_crc, length_app, length_le_bytes in L, L'. fold body in L. fold body' in L'. lia. }
  destruct (decide (i < length body)%nat) as [Hin|Hout].
  - rewrite insert_app_l in E by done. rewrite lookup_app_l in Hb by done.
    apply app_inj_1 in E as [E Ecrc]; [|by rewrite length_insert].
    apply (f_equal le_val) in Ecrc. rewrite !(le_val_le_bytes_small 4) in Ecrc by apply crc_width.
    rewrite <- E, insert_take_drop in Ecrc by done.
    rewrite <- (take_drop_middle body i b Hb) in Ecrc at 1.
    by apply Crc32.Compute_single_byte_aux in Ecrc.
  - rewrite insert_app_r_alt in E by lia.
    apply app_inj_1 in E as [E Ecrc]; [|done]. rewrite <- E in Ecrc.
    rewrite lookup_app_r in Hb by lia. apply (f_equal (lookup (i - length body)%nat)) in Ecrc.
    rewrite list_lookup_insert_eq in Ecrc by (by apply lookup_lt_Some in Hb). congruence.
Qed.

Lemma bad_magic_no_frame m c :
  zlen m = 4 → le_val m ≠ kFrameMagic → fst (parse_frame (m ++ c)) = None.
Proof.
  intros Hm Hne. unfold parse_frame, read_frame. rewrite take_exact_app by done.
  by destruct (Z.eqb_spec (le_val m) kFrameMagic).
Qed.

(** A scan that meets a piece of the magic and then another frame. *)
Lemma torn_magic_no_frame n r r' rest :
  (0 < n < 4)%nat → fst (parse_frame (take n (rec_frame r) ++ rec_frame r' ++ rest)) = None.
Proof.
  intros Hn. unfold rec_frame. rewrite !frame_shape, <- !app_assoc.
  change (le_bytes 4 kFrameMagic) with [Byte.x31; Byte.x4a; Byte.x43; Byte.x51].
  assert (n = 1 ∨ n = 2 ∨ n = 3)%nat as [->|[->| ->]] by lia.
  - by apply (bad_magic_no_frame [Byte.x31; Byte.x31; Byte.x4a; Byte.x43]).
  - by apply (bad_magic_no_frame [Byte.x31; Byte.x4a; Byte.x31; Byte.x4a]).
  - by apply (bad_magic_no_frame [Byte.x31; Byte.x4a; Byte.x43; Byte.x31]).
Qed.

(** ** The contract of the journal

    What the cache engine relies on: the records a replay delivers, the lists
    of records a restart may find after a power cut ([journal_images]), and
    the states in which an acknowledged append is safe ([journal_clean]). *)
Class JournalSpec (J : Type) `{IWriteAheadJournal J} := {
  journal_records : J → list JournalRecord;
  journal_images : J → list JournalRecord → Prop;
  journal_clean : J → Prop;
  journal_reliable : J → Prop;

  journal_images_self j : journal_images j (journal_records j);
  journal_clean_images j rs : journal_clean j → journal_images j rs → rs = journal_records j;

  Append_ok (j : J) p seq j' :
    journal_clean j → zlen p ≤ kMaxReasonablePayloadLength → Append j p = (Success seq, j') →
    journal_clean j' ∧ journal_records j' = journal_records j ++ [mkJournalRecord seq p];

  Append_any (j : J) p r j' :
    journal_clean j → zlen p ≤ kMaxReasonablePayloadLength → Append j p = (r, j') →
    ∃ n, let after rs := rs = journal_records j ∨ rs = journal_records j ++ [mkJournalRecord n p] in
         after (journal_records j') ∧ ∀ rs, journal_images j' rs → after rs;

  Truncate_ok (j : J) j' :
    Truncate j = (Success tt, j') → journal_clean j' ∧ journal_records j' = [];

  Truncate_any (j : J) r j' :
    Truncate j = (r, j') →
    (journal_records j' = journal_records j ∨ journal_records j' = []) ∧
    ∀ rs, journal_images j' rs → journal_images j rs ∨ rs = [];

  Replay_any {S} (cb : ReplayCallback S) s (j : J) r s' j' :
    Replay cb s j = (r, s', j') →
    journal_records j' = journal_records j ∧
    (∀ rs, journal_images j' rs ↔ journal_images j rs) ∧
    (journal_clean j → journal_clean j') ∧
    ((∃ e, r = Failure e ∧ s' = s) ∨
     ∃ rs hi, rs `prefix_of` journal_records j ∧ replay_records cb s None rs = (r, s', hi));

  Replay_reliable {S} (cb : ReplayCallback S) s (j : J) r s' j' :
    journal_reliable j → Replay cb s j = (r, s', j') →
    journal_reliable j' ∧
    ∃ hi, replay_records cb s None (journal_records j) = (r, s', hi);

  Append_reliable (j : J) p :
    journal_reliable j → zlen p ≤ kMaxReasonablePayloadLength →
    ∃ seq j', Append j p = (Success seq, j') ∧ journal_reliable j';

  Truncate_reliable (j : J) :
    journal_reliable j → ∃ j', Truncate j = (Success tt, j') ∧ journal_reliable j'
}.

Section contract.
Context {F : Type} `{IFileSpec F}.

Lemma next_after_u64 (j : WriteAheadJournal F) r hi :
  u64 (nextSequenceNumber_ j) → u64 (next_after j r hi).
Proof. intros ?. destruct r, hi; cbn; try done. by apply wrap_width. Qed.

#[export] Program Instance WriteAheadJournal_JournalSpec : JournalSpec (WriteAheadJournal F) := {
  journal_records := WAL_records;
  journal_images j rs := ∃ d, crash_image (file_ j) d ∧ frames_of d = rs;
  journal_clean := WAL_clean;
  journal_reliable j := reliable (file_ j)
}.
Next Obligation. intros j. exists (file_content (file_ j)). split; [apply crash_image_self|done]. Qed.
Next Obligation. intros j rs Hc (d & Hd & <-). apply (wc_synced j Hc) in Hd as ->. done. Qed.
Next Obligation.
  intros j p seq j' Hc Hp HA. destruct (Append_success_aux _ _ _ _ Hc Hp HA) as [Hc' HR].
  split; [done|]. destruct (Append_inv _ _ _ _ HA) as (_ & -> & _). done.
Qed.
Next Obligation.
  intros j p r j' Hc Hp HA. destruct (Append_any_aux _ _ _ _ Hc Hp HA) as [HR HI].
  exists (nextSequenceNumber_ j). split; [done|]. intros rs (d & Hd & <-). by apply HI.
Qed.
Next Obligation.
  intros j j' HT. apply Truncate_inv in HT as (C & N & _ & I). split.
  - constructor; [rewrite C; apply clean_nil| |by rewrite N].
    intros d Hd. rewrite C. by apply I.
  - unfold WAL_records. by rewrite C.
Qed.
Next Obligation.
  intros j r j' HT. apply Truncate_inv in HT. unfold WAL_records. destruct r as [[]|e].
  - destruct HT as (C & _ & _ & I). rewrite C. split; [by right|].
    intros rs (d & Hd & <-). right. apply I in Hd as ->. done.
  - destruct HT as ([-> | ->] & I & _); (split; [by auto|]);
      intros rs (d & Hd & <-); (destruct (I d Hd) as [?| ->]; [left; eauto|by right]).
Qed.
Next Obligation.
  intros S cb s j r s' j' HR. destruct (Replay_inv _ _ _ _ _ _ HR) as (C & I & _ & HP & _).
  unfold WAL_records. rewrite C. split; [done|]. split; [|split].
  - intros rs. split; intros (d & Hd & <-); exists d; (split; [by apply I|done]).
  - intros []. constructor; [by rewrite C|intros d; rewrite C, I; auto|].
    destruct HP as [(e & _ & _ & ->)|(rs & hi & _ & _ & ->)]; [done|by apply next_after_u64].
  - destruct HP as [(e & -> & -> & _)|(rs & hi & Hp & Hr & _)]; [left; eauto|right; eauto].
Qed.
Next Obligation.
  intros S cb s j r s' j' Hrel HR. destruct (Replay_inv _ _ _ _ _ _ HR) as (_ & _ & _ & _ & Hr).
  destruct (Hr Hrel) as (? & hi & ? & _). eauto.
Qed.
Next Obligation.
  intros j p Hr Hp. cbn. unfold WriteAheadJournal_Append.
  destruct (reliable_Seek (file_ j) 0 true Hr) as (p1 & f1 & -> & Hr1).
  { pose proof (zlen_nonneg (file_content (file_ j))). lia. }
  destruct (reliable_Write f1 (frame (nextSequenceNumber_ j) p) Hr1) as (f2 & -> & Hr2).
  { rewrite zlen_frame. unfold kMaxReasonablePayloadLength, io_limit in *. lia. }
  rewrite Z.eqb_refl. cbn [negb].
  destruct (reliable_FlushDurable f2 Hr2) as (f3 & -> & Hr3). by eexists _, _.
Qed.
Next Obligation.
  intros j Hr. cbn. unfold WriteAheadJournal_Truncate.
  destruct (reliable_SetLength (file_ j) 0 Hr ltac:(done)) as (f1 & -> & Hr1).
  destruct (reliable_Seek f1 0 false Hr1 ltac:(lia)) as (p2 & f2 & -> & Hr2).
  destruct (reliable_FlushDurable f2 Hr2) as (f3 & -> & Hr3). by eexists.
Qed.
End contract.

(** ** Properties *)
Section properties.
Context {F : Type} `{IFileSpec F}.
Implicit Types j : WriteAheadJournal F.

(** An acknowledged append is durable.  From a journal with nothing torn
    and nothing unsynced, a successful [Append] returns the sequence number
    of the record, the records of the journal are the old ones and the new
    one, they are the records of every content a power cut can leave, and
    the journal is again in such a state. *)
Theorem Append_durable j p seq j' :
  WAL_clean j → zlen p ≤ kMaxReasonablePayloadLength →
  WriteAheadJournal_Append j p = (Success seq, j') →
  seq = nextSequenceNumber_ j ∧ WAL_clean j' ∧
  WAL_records j' = WAL_records j ++ [mkJournalRecord seq p] ∧
  nextSequenceNumber_ j' = wrap64 (seq + 1) ∧
  ∀ d, crash_image (file_ j') d → frames_of d = WAL_records j ++ [mkJournalRecord seq p].
Proof.
  intros Hc Hp HA. destruct (Append_success_aux _ _ _ _ Hc Hp HA) as [Hc' HR].
  destruct (Append_inv _ _ _ _ HA) as (_ & -> & _ & N & _).
  split_and!; [done..|]. intros d Hd. by rewrite (wc_synced j' Hc' d Hd).
Qed.

(** C26: an append is atomic under power cuts.  At whatever of the calls that
    [Append] makes the power fails - the file being recorded after each of them
    - and whatever part of the pending write reached the medium, a scan of what
    is left delivers the old records, or the old records and the new one, never
    anything else; the last of these moments is the file [Append] leaves,
    and if it succeeds a scan then delivers the new record. *)
Theorem Append_crash_atomic j p r j' :
  WAL_clean j → zlen p ≤ kMaxReasonablePayloadLength → WriteAheadJournal_Append j p = (r, j') →
  let old := WAL_records j in
  let new := WAL_records j ++ [mkJournalRecord (nextSequenceNumber_ j) p] in
  (∀ f d, f ∈ Append_files j p → crash_image f d → frames_of d = old ∨ frames_of d = new) ∧
  file_ j' ∈ Append_files j p ∧
  (∀ seq d, r = Success seq → crash_image (file_ j') d → frames_of d = new).
Proof.
  intros Hc Hp HA. cbv zeta. split; [|split].
  - intros f d Hf Hd. eapply images_upto_records; [done..| |exact Hd].
    rewrite Append_files_write_through in Hf. by apply write_through_files_upto in Hf; rewrite Z.add_0_r in Hf.
  - pose proof (Append_files_last j p) as Hin. by rewrite HA in Hin.
  - intros seq d -> Hd. destruct (Append_durable j p seq j' Hc Hp HA) as (-> & _ & _ & _ & HI). by apply HI.
Qed.

(** The replay loop terminates with the fuel [Replay] gives it, from the
    start of any file, on any faults and for any callback, and what it
    returns is the run of the callback over a prefix of the records. *)
Theorem replay_loop_terminates {S} (cb : ReplayCallback S) (s : S) (f : F) hi :
  file_pos f = 0 →
  ∃ l rs, replay_loop cb (replay_fuel f) s f hi = Some l ∧
    rs `prefix_of` frames_of (file_content f) ∧
    replay_records cb s hi rs = (le_result _ l, le_state _ l, le_highest _ l).
Proof.
  intros Hp. destruct (replay_loop_records cb (replay_fuel f) s f hi (file_content f))
    as (l & rs & E & Hpre & Hr & _).
  - unfold reads. rewrite Hp. apply cursor_0.
  - unfold replay_fuel. lia.
  - eauto.
Qed.

(** On a device without errors [Replay] is the run of the callback over
    all the records of the journal, in order; it changes neither the content
    nor what a power cut leaves, and the next sequence number follows the
    last record the callback saw. *)
Theorem Replay_delivers_records {S} (cb : ReplayCallback S) (s : S) j r s' j' :
  reliable (file_ j) → WriteAheadJournal_Replay cb s j = (r, s', j') →
  file_content (file_ j') = file_content (file_ j) ∧
  (∀ d, crash_image (file_ j') d ↔ crash_image (file_ j) d) ∧
  ∃ hi, replay_records cb s None (WAL_records j) = (r, s', hi) ∧
        nextSequenceNumber_ j' = next_after j r hi.
Proof.
  intros Hrel HR. destruct (Replay_inv _ _ _ _ _ _ HR) as (C & I & _ & _ & Hr).
  split; [done|]. split; [done|]. by apply Hr.
Qed.

(** [Truncate] empties the journal durably when it succeeds; when it
    fails, what a power cut can leave is what it could leave before, or an
    empty journal. *)
Theorem Truncate_durable j r j' :
  WriteAheadJournal_Truncate j = (r, j') →
  match r with
  | Success _ => WAL_records j' = [] ∧ WAL_clean j' ∧ recordCount_ j' = 0 ∧
                 ∀ d, crash_image (file_ j') d → d = []
  | Failure _ => ∀ d, crash_image (file_ j') d → crash_image (file_ j) d ∨ d = []
  end.
Proof.
  intros HT. pose proof (Truncate_inv _ _ _ HT) as Hi. destruct r as [[]|e]; [|by apply Hi].
  destruct Hi as (C & N & R & I). split_and!; [by unfold WAL_records; rewrite C| |done|intros d; apply I].
  constructor; [rewrite C; apply clean_nil|intros d; rewrite C; apply I|by rewrite N].
Qed.

(** An append behind a torn tail is lost.  When the file ends in a piece
    of a frame's magic - what a power cut in an earlier append can leave -
    a later [Append] succeeds and its record reaches stable storage, but no
    scan delivers it: [Append] writes at the end of the file and nothing
    removes the torn tail. *)
Theorem Append_after_torn_tail_lost j rs r n p seq j' :
  Forall frame_ok rs → (0 < n < 4)%nat →
  file_content (file_ j) = frames rs ++ take n (rec_frame r) →
  WriteAheadJournal_Append j p = (Success seq, j') →
  WAL_records j' = rs ∧ ∀ d, crash_image (file_ j') d → frames_of d = rs.
Proof.
  intros Hrs Hn HC HA. destruct (Append_inv _ _ _ _ HA) as (_ & _ & C & _ & _ & I).
  assert (frames_of (file_content (file_ j')) = rs) as E.
  { unfold frames, frames_of. rewrite C, HC, <- app_assoc. unfold frames. rewrite scan_of_app by done.
    rewrite scan_of_None; [apply app_nil_r|].
    pose proof (torn_magic_no_frame n r (appended j p) [] Hn) as E.
    by rewrite app_nil_r in E. }
  split; [done|]. intros d Hd. apply I in Hd as ->. done.
Qed.
End properties.

(** A scan stops at a corrupted frame.  When one byte of a frame - of its
    magic, its sequence number, its payload or its checksum - is changed, the
    records delivered are exactly those in front of it, whatever follows. *)
Theorem scan_stops_at_corrupt_byte rs r i b b' rest :
  Forall frame_ok rs → frame_ok r → rec_frame r !! i = Some b → b' ≠ b → (i < 12 ∨ 16 ≤ i)%nat →
  frames_of (frames rs ++ <[i:=b']> (rec_frame r) ++ rest) = rs.
Proof.
  intros Hrs Hr Hb Hne Hi. unfold frames, frames_of. rewrite scan_of_app by done.
  rewrite scan_of_None; [apply app_nil_r|]. by eapply corrupt_no_frame.
Qed.

(** Framing round trip.  A content made of the frames of admissible
    records is scanned back to them, and whatever a scan delivers are
    admissible records whose frames stand at the front of the content. *)
Theorem frames_roundtrip c rs :
  (Forall frame_ok rs → frames_of (frames rs) = rs) ∧
  Forall frame_ok (frames_of c) ∧ ∃ rest, c = frames (frames_of c) ++ rest.
Proof.
  split; [apply scan_of_encs|]. split; [apply scan_of_ok|].
  destruct (scan_of_front c) as (rest & Hc & _). by exists rest.
Qed.
