(* ===== verification/Marker.v ===== *)
(** * Marker: the session marker

    Models src/src/PowerResilience/src/SessionMarker.cpp over the [IFile]
    interface: the packed 29-byte record, [ReadLastState] with every branch,
    [OnSessionStart] and [OnCleanShutdown].

    [marker_state] is what [ReadLastState] reports on a file content; the
    theorems say what it reports after each operation and after a power cut in
    the middle of one. *)
From S2P Require Import Prelude Common Wire Storage.
Open Scope Z_scope.

Definition kMagic : Z := 0x51434D31.
Definition kVersion : Z := 1.
Definition kRecordSize : Z := 29.

Record RawRecord := mkRawRecord {
  magic : Z; version : Z; generation : Z; startTimestamp : Z; closedCleanly : Z; crc32 : Z
}.

(** The packed layout; the first 25 bytes are those the CRC covers. *)
Definition RawRecord_body (raw : RawRecord) : bytes :=
  le_bytes 4 (magic raw) ++ le_bytes 4 (version raw) ++ le_bytes 8 (generation raw) ++
  le_bytes 8 (startTimestamp raw) ++ le_bytes 1 (closedCleanly raw).

Definition RawRecord_bytes (raw : RawRecord) : bytes :=
  RawRecord_body raw ++ le_bytes 4 (crc32 raw).

Definition RawRecord_of (bs : bytes) : RawRecord :=
  mkRawRecord (le_val (slice bs 0 4)) (le_val (slice bs 4 4)) (le_val (slice bs 8 8))
              (le_val (slice bs 16 8)) (le_val (slice bs 24 1)) (le_val (slice bs 25 4)).

(** ** ISessionMarker.h *)

Record SessionMarkerData := mkSessionMarkerData {
  smd_generation : Z; smd_startTimestamp : Z; smd_closedCleanly : bool
}.

(** [now] is the reading of the system clock ([NowTicks]). *)
Class ISessionMarker (M : Type) := {
  ReadLastState : M → Result SessionMarkerData * M;
  OnSessionStart : Z → M → Result unit * M;
  OnCleanShutdown : Z → M → Result unit * M;
  CurrentGeneration : M → Z
}.

(** ** SessionMarker.cpp *)

Record SessionMarker (F : Type) := mkMarker { marker_file : F; lastKnownGeneration_ : Z }.
Arguments mkMarker {F}.
Arguments marker_file {F}.
Arguments lastKnownGeneration_ {F}.

(** [static_cast<std::uint64_t>] of a clock reading in nanoseconds. *)
Definition NowTicks (now : Z) : Z := wrap64 now.

Definition sealed (gen now clean : Z) : RawRecord :=
  let raw := mkRawRecord kMagic kVersion gen (NowTicks now) clean 0 in
  mkRawRecord kMagic kVersion gen (NowTicks now) clean (Crc32.Compute (RawRecord_body raw)).

Section SessionMarker.
Context {F : Type} `{IFile F}.
Implicit Types m : SessionMarker F.

Definition with_marker_file m (f : F) : SessionMarker F := mkMarker f (lastKnownGeneration_ m).

Definition SessionMarker_ReadLastState m : Result SessionMarkerData * SessionMarker F :=
  match Size (marker_file m) with
  | (Failure e, f) => (Failure e, with_marker_file m f)
  | (Success size, f) =>
    if size =? 0 then (Success (mkSessionMarkerData 0 0 true), with_marker_file m f)
    else if size <? kRecordSize then
      (Success (mkSessionMarkerData 0 0 false), with_marker_file m f)
    else
      match Seek f 0 false with
      | (Failure e, f) => (Failure e, with_marker_file m f)
      | (Success _, f) =>
        match Read f kRecordSize with
        | (Failure _, f) =>
          (Failure (mkError ErrorCode.CorruptData "session marker truncated" 0), with_marker_file m f)
        | (Success buf, f) =>
          if negb (zlen buf =? kRecordSize) then
            (Failure (mkError ErrorCode.CorruptData "session marker truncated" 0), with_marker_file m f)
          else
            let raw := RawRecord_of buf in
            if negb (magic raw =? kMagic) || negb (version raw =? kVersion) then
              (Failure (mkError ErrorCode.CorruptData "session marker bad magic/version" 0),
               with_marker_file m f)
            else
              let expectedCrc := Crc32.Compute (RawRecord_body raw) in
              if negb (expectedCrc =? crc32 raw) then
                (Success (mkSessionMarkerData 0 0 false), with_marker_file m f)
              else
                (Success (mkSessionMarkerData (generation raw) (startTimestamp raw)
                                              (negb (closedCleanly raw =? 0))),
                 mkMarker f (generation raw))
        end
      end
  end.

Definition WriteRecord (f : F) (raw : RawRecord) : Result unit * F :=
  match Seek f 0 false with
  | (Failure e, f) => (Failure e, f)
  | (Success _, f) =>
    match Write f (RawRecord_bytes raw) with
    | (Failure _, f) =>
      (Failure (mkError ErrorCode.IoError "failed to write full session marker record" 0), f)
    | (Success written, f) =>
      if negb (written =? kRecordSize) then
        (Failure (mkError ErrorCode.IoError "failed to write full session marker record" 0), f)
      else FlushDurable f
    end
  end.

Definition SessionMarker_OnSessionStart (now : Z) m : Result unit * SessionMarker F :=
  let gen := wrap64 (lastKnownGeneration_ m + 1) in
  let '(r, f) := WriteRecord (marker_file m) (sealed gen now 0) in
  (r, mkMarker f gen).

Definition SessionMarker_OnCleanShutdown (now : Z) m : Result unit * SessionMarker F :=
  let '(r, f) := WriteRecord (marker_file m) (sealed (lastKnownGeneration_ m) now 1) in
  (r, mkMarker f (lastKnownGeneration_ m)).

#[export] Instance SessionMarker_ISessionMarker : ISessionMarker (SessionMarker F) := {
  ReadLastState := SessionMarker_ReadLastState;
  OnSessionStart := SessionMarker_OnSessionStart;
  OnCleanShutdown := SessionMarker_OnCleanShutdown;
  CurrentGeneration := lastKnownGeneration_
}.
End SessionMarker.

(** [CreateSessionMarker] for a file that may be null. *)
Definition CreateSessionMarker {F} (file : option F) : Result (SessionMarker F) :=
  match file with
  | None => Failure (mkError ErrorCode.InvalidArgument "file must not be null" 0)
  | Some f => Success (mkMarker f 0)
  end.

(** ** The layout *)

Record raw_ok (raw : RawRecord) : Prop := {
  ro_magic : u32 (magic raw); ro_version : u32 (version raw);
  ro_generation : u64 (generation raw); ro_time : u64 (startTimestamp raw);
  ro_clean : u8 (closedCleanly raw); ro_crc : u32 (crc32 raw)
}.

Lemma length_RawRecord_body raw : length (RawRecord_body raw) = 25%nat.
Proof. unfold RawRecord_body. by rewrite !length_app, !length_le_bytes. Qed.

Lemma length_RawRecord_bytes raw : length (RawRecord_bytes raw) = 29%nat.
Proof. unfold RawRecord_bytes. by rewrite length_app, length_RawRecord_body, length_le_bytes. Qed.

(** The fields of a buffer of 29 bytes make it up. *)
Lemma RawRecord_split (bs : bytes) :
  length bs = 29%nat →
  bs = slice bs 0 4 ++ slice bs 4 4 ++ slice bs 8 8 ++ slice bs 16 8 ++ slice bs 24 1 ++ slice bs 25 4.
Proof.
  intros Hl. do 29 (destruct bs as [|? bs]; [done|]). by destruct bs.
Qed.

Lemma le_slice (bs : bytes) off n len :
  len = Z.of_nat n → (Z.to_nat off + n ≤ length bs)%nat →
  le_bytes n (le_val (slice bs off len)) = slice bs off len.
Proof.
  intros -> Hl. rewrite <- (le_bytes_le_val (slice bs off (Z.of_nat n))) at 2. f_equal.
  unfold slice. rewrite length_take, length_drop. lia.
Qed.

Lemma RawRecord_bytes_of (bs : bytes) : length bs = 29%nat → RawRecord_bytes (RawRecord_of bs) = bs.
Proof.
  intros Hl. unfold RawRecord_bytes, RawRecord_body, RawRecord_of.
  cbn [magic version generation startTimestamp closedCleanly crc32].
  rewrite !le_slice by (simpl; lia).
  rewrite <- !app_assoc. symmetry. by apply RawRecord_split.
Qed.

(** Reading a field of a packed record. *)
Lemma field_0 n len z (t : bytes) :
  len = Z.of_nat n → in_width (8 * len) z → le_val (slice (le_bytes n z ++ t) 0 len) = z.
Proof.
  intros -> Hz. unfold slice. rewrite drop_0, Nat2Z.id.
  rewrite take_app_length' by (by rewrite length_le_bytes). by apply le_val_le_bytes_small.
Qed.

Lemma field_skip n z (t : bytes) off len :
  Z.of_nat n ≤ off → slice (le_bytes n z ++ t) off len = slice t (off - Z.of_nat n) len.
Proof.
  intros Hl. unfold slice. rewrite drop_app_ge by (rewrite length_le_bytes; lia).
  rewrite length_le_bytes. do 2 f_equal. lia.
Qed.

Lemma RawRecord_of_bytes raw : raw_ok raw → RawRecord_of (RawRecord_bytes raw) = raw.
Proof.
  intros []. destruct raw as [mg v g t c k]. cbn in *.
  unfold RawRecord_bytes, RawRecord_body, RawRecord_of.
  cbn [magic version generation startTimestamp closedCleanly crc32].
  rewrite <- !app_assoc, <- (app_nil_r (le_bytes 4 k)).
  f_equal; repeat (rewrite field_skip by (simpl; lia); simpl Z.sub); by rewrite field_0.
Qed.

(** ** What the marker says *)

(** What [ReadLastState] reports on a content. *)
Definition marker_state (c : bytes) : Result SessionMarkerData :=
  if zlen c =? 0 then Success (mkSessionMarkerData 0 0 true)
  else if zlen c <? kRecordSize then Success (mkSessionMarkerData 0 0 false)
  else
    let raw := RawRecord_of (slice c 0 kRecordSize) in
    if negb (magic raw =? kMagic) || negb (version raw =? kVersion) then
      Failure (mkError ErrorCode.CorruptData "session marker bad magic/version" 0)
    else if negb (Crc32.Compute (RawRecord_body raw) =? crc32 raw) then
      Success (mkSessionMarkerData 0 0 false)
    else Success (mkSessionMarkerData (generation raw) (startTimestamp raw)
                                      (negb (closedCleanly raw =? 0))).

(** A content that says "closed in an orderly way". *)
Definition says_clean (c : bytes) : Prop :=
  ∃ d, marker_state c = Success d ∧ smd_closedCleanly d = true.

Lemma sealed_ok gen now clean : u64 gen → u8 clean → raw_ok (sealed gen now clean).
Proof.
  intros. unfold sealed.
  constructor; cbn [magic version generation startTimestamp closedCleanly crc32]; try assumption.
  - done.
  - done.
  - by apply wrap_width.
  - apply Crc32.Compute_u32_aux.
Qed.

Lemma sealed_crc gen now clean :
  Crc32.Compute (RawRecord_body (sealed gen now clean)) = crc32 (sealed gen now clean).
Proof. unfold sealed. cbn [crc32]. f_equal. Qed.

Lemma slice_front (bs t : bytes) n : zlen bs = n → slice (bs ++ t) 0 n = bs.
Proof.
  intros <-. unfold slice, zlen. rewrite drop_0, Nat2Z.id. by apply take_app_length'.
Qed.

Lemma marker_state_record raw t :
  raw_ok raw →
  marker_state (RawRecord_bytes raw ++ t) =
    if negb (magic raw =? kMagic) || negb (version raw =? kVersion) then
      Failure (mkError ErrorCode.CorruptData "session marker bad magic/version" 0)
    else if negb (Crc32.Compute (RawRecord_body raw) =? crc32 raw) then
      Success (mkSessionMarkerData 0 0 false)
    else Success (mkSessionMarkerData (generation raw) (startTimestamp raw)
                                      (negb (closedCleanly raw =? 0))).
Proof.
  intros Hok. assert (zlen (RawRecord_bytes raw) = 29) as Hl.
  { unfold zlen. by rewrite length_RawRecord_bytes. }
  unfold marker_state, kRecordSize. rewrite slice_front, RawRecord_of_bytes by done.
  rewrite zlen_app, Hl. pose proof (zlen_nonneg t).
  destruct (Z.eqb_spec (29 + zlen t) 0); [lia|].
  destruct (Z.ltb_spec (29 + zlen t) 29); [lia|]. done.
Qed.

Lemma marker_state_sealed gen now clean t :
  u64 gen → u8 clean →
  marker_state (RawRecord_bytes (sealed gen now clean) ++ t) =
    Success (mkSessionMarkerData gen (NowTicks now) (negb (clean =? 0))).
Proof.
  intros Hg Hc. rewrite marker_state_record by (by apply sealed_ok).
  rewrite sealed_crc, (Z.eqb_refl (crc32 _)). reflexivity.
Qed.

Lemma write_at_front c bs : write_at c 0 bs = bs ++ drop (length bs) c.
Proof. destruct bs; [done|]. by destruct c. Qed.

Lemma WriteRecord_write_through {F} `{IFile F} (f : F) raw :
  WriteRecord f raw =
    write_through f 0 false (RawRecord_bytes raw)
      (mkError ErrorCode.IoError "failed to write full session marker record" 0).
Proof.
  unfold WriteRecord, write_through, kRecordSize, zlen. by rewrite length_RawRecord_bytes.
Qed.

Section marker_operations.
Context {F : Type} `{IFileSpec F}.
Implicit Types m : SessionMarker F.

(** The contents after a write of the record, and after a power cut in it. *)
Lemma WriteRecord_inv (f : F) raw r f' :
  WriteRecord f raw = (r, f') →
  (∀ d, crash_image f' d → ∃ d0 i, (i ≤ 29)%nat ∧ crash_image f d0 ∧
          d = take i (RawRecord_bytes raw) ++ drop i d0) ∧
  (r = Success tt →
   file_content f' = RawRecord_bytes raw ++ drop 29 (file_content f) ∧
   ∀ d, crash_image f' d ↔ d = file_content f').
Proof.
  rewrite WriteRecord_write_through. intros E.
  apply write_through_inv in E as (Hup & _ & Hok). split.
  - intros d Hd. destruct (Hup d Hd) as (d0 & i & Hi & Hd0 & Hw).
    rewrite length_RawRecord_bytes in Hi. exists d0, i. split; [done|]. split; [done|].
    rewrite Hw by apply zlen_nonneg. rewrite write_at_front, length_take, length_RawRecord_bytes. do 2 f_equal. lia.
  - intros ->. destruct (Hok eq_refl) as [C I]. split; [|done].
    rewrite C by apply zlen_nonneg. by rewrite write_at_front, length_RawRecord_bytes.
Qed.

Lemma ReadLastState_reliable m :
  reliable (marker_file m) →
  ∃ m', SessionMarker_ReadLastState m = (marker_state (file_content (marker_file m)), m') ∧
    reliable (marker_file m') ∧
    file_content (marker_file m') = file_content (marker_file m) ∧
    (∀ d, crash_image (marker_file m') d ↔ crash_image (marker_file m) d) ∧
    (lastKnownGeneration_ m' = lastKnownGeneration_ m ∨
     ∃ d, marker_state (file_content (marker_file m)) = Success d ∧
          lastKnownGeneration_ m' = smd_generation d).
Proof.
  intros Hr. unfold SessionMarker_ReadLastState, marker_state.
  destruct (reliable_Size _ Hr) as (f1 & E1 & Hr1). rewrite E1.
  destruct (Size_spec _ _ _ E1) as (C1 & I1 & _).
  set (c := file_content (marker_file m)) in *.
  destruct (zlen c =? 0) eqn:E0; [by eexists; split; [done|]; auto|].
  destruct (zlen c <? kRecordSize) eqn:Es; [by eexists; split; [done|]; auto|].
  destruct (reliable_Seek f1 0 false Hr1 ltac:(lia)) as (p & f2 & E2 & Hr2). rewrite E2.
  destruct (Seek_spec _ _ _ _ _ E2) as (C2 & I2 & Hp & P2). rewrite Hp in P2.
  assert (0 ≤ kRecordSize < io_limit) as H29 by done.
  destruct (reliable_Read f2 kRecordSize Hr2 H29) as (buf & f3 & E3 & Hr3). rewrite E3.
  destruct (Read_spec _ _ _ _ H29 E3) as (C3 & I3 & Hbuf & _).
  rewrite C2, C1, P2 in Hbuf. change (0 + 0) with 0 in Hbuf. subst buf. zbool.
  assert (zlen (slice c 0 kRecordSize) = kRecordSize) as Hl.
  { unfold slice, zlen in *. rewrite drop_0, length_take. unfold kRecordSize in *. lia. }
  rewrite Hl, Z.eqb_refl. cbn [negb].
  assert (file_content f3 = c) as C by congruence.
  assert (∀ d, crash_image f3 d ↔ crash_image (marker_file m) d) as I.
  { intros d. by rewrite I3, I2, I1. }
  destruct (negb _ || negb _); [by eexists; split; [done|]; auto|].
  destruct (negb _); [by eexists; split; [done|]; auto|].
  eexists. split; [done|]. cbn. split; [done|]. split; [done|]. split; [done|]. right. eauto.
Qed.
End marker_operations.

(** ** Torn records *)

Lemma RawRecord_of_ok (bs : bytes) : length bs = 29%nat → raw_ok (RawRecord_of bs).
Proof.
  intros Hl. unfold RawRecord_of.
  constructor; cbn [magic version generation startTimestamp closedCleanly crc32];
    (apply (le_val_width 4) || apply (le_val_width 8) || apply (le_val_width 1));
    unfold slice; rewrite length_take, length_drop; lia.
Qed.

Lemma take_body raw t : take 25 (RawRecord_bytes raw ++ t) = RawRecord_body raw.
Proof.
  unfold RawRecord_bytes. rewrite <- app_assoc.
  apply take_app_length'. by rewrite length_RawRecord_body.
Qed.

(** What a content of at least 29 bytes must satisfy to say "clean". *)
Lemma says_clean_inv (mix t : bytes) :
  length mix = 29%nat → says_clean (mix ++ t) →
  closedCleanly (RawRecord_of mix) ≠ 0 ∧ Crc32.Compute (take 25 mix) = crc32 (RawRecord_of mix).
Proof.
  intros Hl (d & Hs & Hd). rewrite <- (RawRecord_bytes_of mix Hl) in Hs.
  rewrite marker_state_record in Hs by (by apply RawRecord_of_ok).
  destruct (negb _ || negb _); [done|].
  destruct (negb (Crc32.Compute _ =? _)) eqn:E; injection Hs as <-; [done|].
  cbn [smd_closedCleanly] in Hd. zbool. split; [done|].
  rewrite <- E, <- (RawRecord_bytes_of mix Hl) at 1.
  rewrite <- (app_nil_r (RawRecord_bytes _)). by rewrite take_body.
Qed.

Lemma says_clean_short c : says_clean c → c = [] ∨ (29 ≤ length c)%nat.
Proof.
  intros (d & Hs & Hd). unfold marker_state, kRecordSize in Hs.
  destruct (Z.eqb_spec (zlen c) 0); [left; destruct c; [done|rewrite zlen_cons in *; pose proof (zlen_nonneg c); lia]|].
  destruct (Z.ltb_spec (zlen c) 29); [by injection Hs as <-|right; unfold zlen in *; lia].
Qed.

(** The first [i] bytes of a record written over a content. *)
Definition overwritten (i : nat) (raw : RawRecord) (c : bytes) : bytes :=
  take i (RawRecord_bytes raw) ++ drop i c.

Lemma closedCleanly_overwritten_lo i raw c :
  (i ≤ 24)%nat → closedCleanly (RawRecord_of (overwritten i raw c)) = closedCleanly (RawRecord_of c).
Proof.
  intros Hi. unfold RawRecord_of, overwritten. cbn [closedCleanly]. f_equal.
  assert (length (take i (RawRecord_bytes raw)) = i) as Hl.
  { rewrite length_take, length_RawRecord_bytes. lia. }
  unfold slice. rewrite drop_app_ge, drop_drop by lia. do 2 f_equal. lia.
Qed.

Lemma crc32_overwritten_lo i raw c :
  (i ≤ 25)%nat → crc32 (RawRecord_of (overwritten i raw c)) = crc32 (RawRecord_of c).
Proof.
  intros Hi. unfold RawRecord_of, overwritten. cbn [crc32]. f_equal.
  assert (length (take i (RawRecord_bytes raw)) = i) as Hl.
  { rewrite length_take, length_RawRecord_bytes. lia. }
  unfold slice. rewrite drop_app_ge, drop_drop by lia. do 2 f_equal. lia.
Qed.

Lemma body_overwritten_hi i raw c :
  (25 ≤ i ≤ 29)%nat → take 25 (overwritten i raw c) = RawRecord_body raw.
Proof.
  intros Hi. unfold overwritten.
  rewrite take_app_le by (rewrite length_take, length_RawRecord_bytes; lia).
  rewrite take_take, Nat.min_l by lia. rewrite <- (app_nil_r (RawRecord_bytes raw)). apply take_body.
Qed.

Lemma overwritten_app i raw c t :
  (i ≤ length c)%nat → overwritten i raw (c ++ t) = overwritten i raw c ++ t.
Proof. intros Hi. unfold overwritten. by rewrite drop_app_le, app_assoc. Qed.

Lemma length_overwritten i raw c :
  (i ≤ 29)%nat → length (overwritten i raw c) = max i (length c).
Proof.
  intros Hi. unfold overwritten.
  rewrite length_app, length_take, length_drop, length_RawRecord_bytes. lia.
Qed.

(** When the whole body of a sealed record is written, the flag it says "clean"
    with is its own, and the record is complete. *)
Lemma overwritten_hi_clean i gen now clean (c t : bytes) :
  u64 gen → u8 clean → length c = 29%nat → (25 ≤ i ≤ 29)%nat →
  says_clean (overwritten i (sealed gen now clean) c ++ t) →
  clean ≠ 0 ∧ overwritten i (sealed gen now clean) c = RawRecord_bytes (sealed gen now clean).
Proof.
  intros Hg Hc Hl Hi Hs. set (raw := sealed gen now clean) in *. set (mix := overwritten i raw c) in *.
  assert (length mix = 29%nat) as Hm by (unfold mix; rewrite length_overwritten; lia).
  destruct (says_clean_inv mix t Hm Hs) as [Hflag Hcrc].
  assert (take 25 mix = RawRecord_body raw) as Hb by (by apply body_overwritten_hi).
  assert (mix = RawRecord_bytes raw) as Heq.
  { rewrite <- (RawRecord_bytes_of mix Hm). unfold RawRecord_bytes.
    assert (Crc32.Compute (RawRecord_body raw) = crc32 raw) as Hk by apply sealed_crc.
    rewrite <- Hcrc, Hb, Hk. f_equal. rewrite <- Hb.
    pose proof (take_body (RawRecord_of mix) []) as T.
    by rewrite app_nil_r, RawRecord_bytes_of in T. }
  split; [|done]. rewrite Heq in Hflag. unfold raw in Hflag.
  rewrite RawRecord_of_bytes in Hflag by (by apply sealed_ok). done.
Qed.

(** *** The moments of the calls that write the marker *)
Section moments.
Context {F : Type} `{IFile F}.
Implicit Types m : SessionMarker F.

Definition recording_marker m : SessionMarker (Recorded F) :=
  mkMarker (recording (marker_file m)) (lastKnownGeneration_ m).

(** The file after each call [OnSessionStart] makes, and [OnCleanShutdown]. *)
Definition OnSessionStart_files (now : Z) m : list F :=
  moments (marker_file (snd (SessionMarker_OnSessionStart now (recording_marker m)))).

Definition OnCleanShutdown_files (now : Z) m : list F :=
  moments (marker_file (snd (SessionMarker_OnCleanShutdown now (recording_marker m)))).

Lemma OnSessionStart_files_write_through now m :
  OnSessionStart_files now m =
    write_through_files (marker_file m) 0 false
      (RawRecord_bytes (sealed (wrap64 (lastKnownGeneration_ m + 1)) now 0)).
Proof.
  unfold OnSessionStart_files, SessionMarker_OnSessionStart. cbn [recording_marker marker_file lastKnownGeneration_].
  by rewrite WriteRecord_write_through, write_through_moments.
Qed.

Lemma OnCleanShutdown_files_write_through now m :
  OnCleanShutdown_files now m =
    write_through_files (marker_file m) 0 false (RawRecord_bytes (sealed (lastKnownGeneration_ m) now 1)).
Proof.
  unfold OnCleanShutdown_files, SessionMarker_OnCleanShutdown. cbn [recording_marker marker_file lastKnownGeneration_].
  by rewrite WriteRecord_write_through, write_through_moments.
Qed.
End moments.

Section marker_properties.
Context {F : Type} `{IFileSpec F}.
Implicit Types m : SessionMarker F.

(** The images on the way of a record written over a synced content. *)
Lemma record_images (f f' : F) raw c d :
  (∀ d0, crash_image f d0 → d0 = c) →
  f' ∈ write_through_files f 0 false (RawRecord_bytes raw) → crash_image f' d →
  ∃ i, (i ≤ 29)%nat ∧ d = overwritten i raw c.
Proof.
  intros Hsync Hf Hd. apply write_through_files_upto in Hf.
  destruct (Hf d Hd) as (d0 & i & Hi & Hd0 & Hw). apply Hsync in Hd0 as ->.
  rewrite length_RawRecord_bytes in Hi. exists i. split; [done|]. unfold overwritten.
  rewrite Hw by apply zlen_nonneg. rewrite write_at_front, length_take, length_RawRecord_bytes. do 2 f_equal. lia.
Qed.

(** [ReadLastState] on a device without errors reports exactly what the
    content of the marker file says ([marker_state], branch by branch), and
    changes neither the content nor what a power cut leaves. *)
Theorem ReadLastState_reports m r m' :
  reliable (marker_file m) → SessionMarker_ReadLastState m = (r, m') →
  r = marker_state (file_content (marker_file m)) ∧
  file_content (marker_file m') = file_content (marker_file m) ∧
  (∀ d, crash_image (marker_file m') d ↔ crash_image (marker_file m) d).
Proof.
  intros Hr E. destruct (ReadLastState_reliable m Hr) as (m1 & E1 & _ & C & I & _).
  rewrite E1 in E. by injection E as <- <-.
Qed.

(** A session start or an orderly shutdown that succeeds is what the
    next process reads, after a power cut too: the generation has moved on
    by one and the session is open, or it stands and the session is closed. *)
Theorem marker_write_read_back m now m1 now' m2 :
  SessionMarker_OnSessionStart now m = (Success tt, m1) →
  SessionMarker_OnCleanShutdown now' m1 = (Success tt, m2) →
  let gen := wrap64 (lastKnownGeneration_ m + 1) in
  (∀ d, crash_image (marker_file m1) d →
     marker_state d = Success (mkSessionMarkerData gen (NowTicks now) false)) ∧
  (∀ d, crash_image (marker_file m2) d →
     marker_state d = Success (mkSessionMarkerData gen (NowTicks now') true)).
Proof.
  intros E1 E2 gen. unfold SessionMarker_OnSessionStart in E1. unfold SessionMarker_OnCleanShutdown in E2.
  destruct (WriteRecord (marker_file m) _) as [r1 f1] eqn:W1. injection E1 as -> <-.
  cbn [marker_file lastKnownGeneration_] in E2.
  destruct (WriteRecord f1 _) as [r2 f2] eqn:W2. injection E2 as -> <-.
  assert (u64 gen) as Hg by (by apply wrap_width).
  split; intros d Hd.
  - destruct (WriteRecord_inv _ _ _ _ W1) as [_ Hok]. destruct (Hok eq_refl) as [C I].
    apply I in Hd as ->. cbn [marker_file]. rewrite C. by apply marker_state_sealed.
  - destruct (WriteRecord_inv _ _ _ _ W2) as [_ Hok]. destruct (Hok eq_refl) as [C I].
    apply I in Hd as ->. cbn [marker_file]. rewrite C. by apply marker_state_sealed.
Qed.

(** A power cut during an orderly shutdown never fabricates one.
    Whatever part of the record of [OnCleanShutdown] reaches the medium over
    the record of the session start, a marker that says "closed" holds the
    whole new record. *)
Theorem OnCleanShutdown_torn m now t0 rest f d :
  u64 (lastKnownGeneration_ m) →
  (∀ d0, crash_image (marker_file m) d0 →
     d0 = RawRecord_bytes (sealed (lastKnownGeneration_ m) t0 0) ++ rest) →
  f ∈ OnCleanShutdown_files now m → crash_image f d → says_clean d →
  d = RawRecord_bytes (sealed (lastKnownGeneration_ m) now 1) ++ rest.
Proof.
  rewrite OnCleanShutdown_files_write_through. intros Hg Hsync Hf Hd Hs. set (old := sealed _ t0 0) in *.
  pose proof (length_RawRecord_bytes old) as Hold.
  destruct (record_images _ _ _ _ _ Hsync Hf Hd) as (i & Hi & ->).
  rewrite overwritten_app in * by lia. f_equal.
  destruct (decide (25 ≤ i)%nat) as [Hhi|Hlo].
  - by eapply overwritten_hi_clean.
  - exfalso. apply says_clean_inv in Hs as [Hc _]; [|rewrite length_overwritten; lia].
    rewrite closedCleanly_overwritten_lo in Hc by lia.
    unfold old in Hc. rewrite RawRecord_of_bytes in Hc by (by apply sealed_ok). done.
Qed.

(** A power cut during a session start is not read as an orderly
    shutdown.  From any synced content - fresh, torn or complete - a marker
    that says "closed" after a cut is the old content untouched, or a mixture
    that kept the old flag and checksum and whose changed body collides with
    that checksum. *)
Theorem OnSessionStart_torn m now c f d :
  (∀ d0, crash_image (marker_file m) d0 → d0 = c) →
  f ∈ OnSessionStart_files now m → crash_image f d → says_clean d →
  d = c ∨
  (d ≠ c ∧ drop 24 d = drop 24 c ∧
   Crc32.Compute (take 25 d) = crc32 (RawRecord_of (take 29 c))).
Proof.
  rewrite OnSessionStart_files_write_through. intros Hsync Hf Hd Hs.
  set (gen := wrap64 (lastKnownGeneration_ m + 1)) in *.
  assert (u64 gen) as Hg by (by apply wrap_width).
  destruct (record_images _ _ _ _ _ Hsync Hf Hd) as (i & Hi & ->). fold gen in Hs |- *.
  set (raw := sealed gen now 0) in *.
  destruct (decide (overwritten i raw c = c)) as [|Hne]; [by left|]. right. split; [done|].
  destruct (decide (i = 0%nat)) as [->|Hi0]; [done|].
  destruct (decide (29 ≤ length c)%nat) as [Hlong|Hshort].
  - rewrite <- (take_drop 29 c) in Hs |- * . set (a := take 29 c) in *. set (t := drop 29 c) in *.
    assert (length a = 29%nat) as Ha by (unfold a; rewrite length_take; lia).
    rewrite overwritten_app in Hs |- * by lia.
    destruct (decide (25 ≤ i)%nat) as [Hhi|Hlo].
    + exfalso. by destruct (overwritten_hi_clean i gen now 0 a t) as [? _].
    + pose proof (length_overwritten i raw a Hi) as Hm.
      destruct (says_clean_inv (overwritten i raw a) t) as [_ Hcrc]; [lia|done|].
      rewrite crc32_overwritten_lo in Hcrc by lia. split.
      * rewrite !drop_app_le by lia. f_equal. unfold overwritten.
        rewrite drop_app_ge; rewrite ?length_take, ?length_RawRecord_bytes; [|lia].
        rewrite drop_drop. f_equal. lia.
      * rewrite take_app_le by lia. rewrite Hcrc. f_equal. f_equal.
        by rewrite take_app_length'.
  - exfalso. pose proof (says_clean_short _ Hs) as Hl.
    assert (i = 29%nat) as ->.
    { destruct Hl as [Hl|Hl]; [apply (f_equal length) in Hl; cbn in Hl|];
        rewrite length_overwritten in Hl by done; lia. }
    destruct Hs as (sd & Hs & Hclean). unfold overwritten in Hs.
    rewrite take_ge in Hs by (by rewrite length_RawRecord_bytes).
    unfold raw in Hs. rewrite marker_state_sealed in Hs by done. by injection Hs as <-.
Qed.
End marker_properties.

(** A failed seek hides an unclean shutdown.  [PortableFile::Size] does
    not look at the result of its [fseek] to the end of the file; when that
    call fails on a file at position 0, the size read is 0 and
    [ReadLastState] reports a fresh marker, closed in an orderly way, whatever
    the file contains. *)
Theorem seek_fault_reads_clean st un err k fs gen :
  fst (SessionMarker_ReadLastState
         (mkMarker (mkFILE st un 0 err (None :: Some k :: None :: None :: fs)) gen)) =
  Success (mkSessionMarkerData 0 0 true).
Proof. reflexivity. Qed.
