(* ===== verification/Recovery.v ===== *)
(** * Recovery: the start-up protocol

    Models src/src/PowerResilience/src/RecoveryManager.cpp and RecoveryState.h
    over the [ISessionMarker] interface.

    The manager holds the journal only to keep it alive, and never calls it:
    its state here is the marker and [state_].  The replay handler is code of
    the caller that acts on the rest of the process, the world [W]. *)
From S2P Require Import Prelude Common Storage Marker.
Open Scope Z_scope.

Module RecoveryState.
Inductive RecoveryState :=
  | Unknown | CleanShutdown | UncleanShutdownDetected | RecoveryInProgress
  | RecoveryComplete | RecoveryFailed.

#[global] Instance RecoveryState_eq_dec : EqDecision RecoveryState.
Proof. solve_decision. Defined.

(** The values of the enumeration, which the service sends to its clients. *)
Definition RecoveryState_val (s : RecoveryState) : Z :=
  match s with
  | Unknown => 0 | CleanShutdown => 1 | UncleanShutdownDetected => 2
  | RecoveryInProgress => 3 | RecoveryComplete => 4 | RecoveryFailed => 5
  end.

Definition RecoveryState_ToString (s : RecoveryState) : string :=
  match s with
  | Unknown => "Unknown" | CleanShutdown => "CleanShutdown"
  | UncleanShutdownDetected => "UncleanShutdownDetected"
  | RecoveryInProgress => "RecoveryInProgress"
  | RecoveryComplete => "RecoveryComplete" | RecoveryFailed => "RecoveryFailed"
  end.
End RecoveryState.
Import RecoveryState.

(** A handler: absent, or an action on the world. *)
Definition JournalReplayHandler (W : Type) : Type := option (W → Result unit * W).

Record RecoveryManager (M : Type) := mkRecoveryManager { marker_ : M; state_ : RecoveryState }.
Arguments mkRecoveryManager {M}.
Arguments marker_ {M}.
Arguments state_ {M}.

(** [CreateRecoveryManager], for a marker and a journal that may be null. *)
Definition CreateRecoveryManager {M J} (marker : option M) (journal : option J)
    : Result (RecoveryManager M) :=
  match marker, journal with
  | Some m, Some _ => Success (mkRecoveryManager m Unknown)
  | _, _ => Failure (mkError ErrorCode.InvalidArgument "marker and journal must not be null" 0)
  end.

Section RecoveryManager.
Context {M W : Type} `{ISessionMarker M}.
Implicit Types rm : RecoveryManager M.

(** The part after the replay: open the new session. *)
Definition start_session (now : Z) (m : M) (state : RecoveryState) : Result unit * RecoveryManager M :=
  match OnSessionStart now m with
  | (Failure e, m) => (Failure e, mkRecoveryManager m RecoveryFailed)
  | (Success _, m) =>
    (Success tt,
     mkRecoveryManager m (if decide (state = CleanShutdown) then RecoveryComplete else state))
  end.

Definition InitializeAndRecover (onReplayNeeded : JournalReplayHandler W) (now : Z) rm (w : W)
    : Result unit * RecoveryManager M * W :=
  match ReadLastState (marker_ rm) with
  | (Failure e, m) => (Failure e, mkRecoveryManager m RecoveryFailed, w)
  | (Success lastState, m) =>
    if smd_closedCleanly lastState then (start_session now m CleanShutdown, w)
    else
      match onReplayNeeded with
      | None => (start_session now m RecoveryComplete, w)
      | Some handler =>
        match handler w with
        | (Failure e, w) => (Failure e, mkRecoveryManager m RecoveryFailed, w)
        | (Success _, w) => (start_session now m RecoveryComplete, w)
        end
      end
  end.

Definition CurrentState rm : RecoveryState := state_ rm.

Definition MarkCleanShutdown (now : Z) rm : Result unit * RecoveryManager M :=
  let '(r, m) := OnCleanShutdown now (marker_ rm) in (r, mkRecoveryManager m (state_ rm)).

(** What a start-up does, for every answer of the marker and of the
    replay handler.  The replay runs exactly when the marker was readable
    and said "not closed"; a new session is opened only after a successful
    replay or a clean marker; the result is a success exactly when the
    state reached is [RecoveryComplete], and [RecoveryFailed] otherwise; a
    failed replay leaves the marker as it was read, so that the next start
    finds the same unclean shutdown. *)
Theorem InitializeAndRecover_outcome onReplayNeeded now rm w r rm' w' :
  InitializeAndRecover onReplayNeeded now rm w = (r, rm', w') →
  let '(last, m) := ReadLastState (marker_ rm) in
  let '(replay, w1) :=
    match last, onReplayNeeded with
    | Success d, Some handler => if smd_closedCleanly d then (Success tt, w) else handler w
    | _, _ => (Success tt, w)
    end in
  w' = w1 ∧
  (CurrentState rm' = RecoveryComplete ∨ CurrentState rm' = RecoveryFailed) ∧
  (r = Success tt ↔ CurrentState rm' = RecoveryComplete) ∧
  match last, replay with
  | Failure e, _ => r = Failure e ∧ marker_ rm' = m
  | Success _, Failure e => r = Failure e ∧ marker_ rm' = m
  | Success _, Success _ => OnSessionStart now m = (r, marker_ rm')
  end.
Proof.
  unfold InitializeAndRecover, start_session, CurrentState.
  destruct (ReadLastState (marker_ rm)) as [[d|e] m]; [|by intros [= <- <- <-]; naive_solver].
  destruct (smd_closedCleanly d) eqn:Ed.
  - destruct (OnSessionStart now m) as [[[]|e] m'] eqn:Es; intros [= <- <- <-];
      destruct onReplayNeeded; cbn; naive_solver.
  - destruct onReplayNeeded as [handler|].
    + destruct (handler w) as [[[]|e] w1]; [|by intros [= <- <- <-]; naive_solver].
      destruct (OnSessionStart now m) as [[[]|e] m'] eqn:Es; intros [= <- <- <-]; cbn; naive_solver.
    + destruct (OnSessionStart now m) as [[[]|e] m'] eqn:Es; intros [= <- <- <-]; cbn; naive_solver.
Qed.
End RecoveryManager.
