(* ===== verification/Store.v ===== *)
(** * Store: the file-backed key/value store

    Models src/src/Storage/src/FileBackingStore.cpp over the [IFile] interface:
    the framing of a record, the start-up scan of [Initialize], and [Get],
    [Put], [Remove], [Contains], [EntryCount].

    [store_map] is the map a list of records stands for; [store_inv] relates
    the in-memory index, the end offset and the file to a list of records, and
    [BackingStoreSpec] is the contract the cache engine relies on, proved of
    [FileBackingStore] at the end of the file. *)
From S2P Require Import Prelude Common Wire Scan Storage.
Open Scope Z_scope.

(** ** IBackingStore.h *)
Module IBackingStore.
Class IBackingStore (B : Type) := {
  Get : B → string → Result bytes * B;
  Put : B → string → bytes → Result unit * B;
  Remove : B → string → Result unit * B;
  Contains : B → string → bool;
  EntryCount : B → Z
}.
End IBackingStore.

(** ** FileBackingStore.cpp *)

Record IndexEntry := mkIndexEntry { recordOffset : Z; tombstone : bool }.

(** A record as the scan reads it. *)
Record StoreRecord := mkStoreRecord {
  sr_sequence : Z; sr_tombstone : Z; sr_key : bytes; sr_value : bytes
}.

(** [static_cast<std::int64_t>]. *)
Definition to_int64 (z : Z) : Z := if z <? 2 ^ 63 then z else z - 2 ^ 64.

Module FileBackingStore.
Definition kMagic : Z := 0x51434253.
Definition kMaxReasonableLength : Z := 256 * 1024 * 1024.

(** The bytes [AppendRecord] writes. *)
Definition frame_body (sequence tombstoneByte : Z) (key value : bytes) : bytes :=
  let frame := AppendRaw 4 [] kMagic in
  let frame := AppendRaw 8 frame sequence in
  let frame := AppendRaw 1 frame tombstoneByte in
  let frame := AppendRaw 4 frame (wrap32 (zlen key)) in
  let frame := frame ++ key in
  let frame := AppendRaw 4 frame (wrap32 (zlen value)) in
  frame ++ value.

Definition frame (sequence tombstoneByte : Z) (key value : bytes) : bytes :=
  AppendRaw 4 (frame_body sequence tombstoneByte key value)
            (Crc32.Compute (frame_body sequence tombstoneByte key value)).

Section readers.
Context {F : Type} (ReadExact : F → Z → option bytes * F).

(** [n > 0 && !ReadExact(...)]: no read of zero bytes. *)
Definition ReadSome (f : F) (n : Z) : option bytes * F :=
  if 0 <? n then ReadExact f n else (Some [], f).

(** One turn of the loop of [Initialize]; [None] where the code leaves it. *)
Definition read_record (f : F) : option StoreRecord * F :=
  read! magic, f := ReadExact f 4 in
  if negb (le_val magic =? kMagic) then (None, f) else
  read! sequence, f := ReadExact f 8 in
  read! tombstone, f := ReadExact f 1 in
  read! keyLength, f := ReadExact f 4 in
  if kMaxReasonableLength <? le_val keyLength then (None, f) else
  read! keyBytes, f := ReadSome f (le_val keyLength) in
  read! valueLength, f := ReadExact f 4 in
  if kMaxReasonableLength <? le_val valueLength then (None, f) else
  read! valueBytes, f := ReadSome f (le_val valueLength) in
  read! storedCrc, f := ReadExact f 4 in
  let forCrc := AppendRaw 4 [] (le_val magic) in
  let forCrc := AppendRaw 8 forCrc (le_val sequence) in
  let forCrc := AppendRaw 1 forCrc (le_val tombstone) in
  let forCrc := AppendRaw 4 forCrc (le_val keyLength) in
  let forCrc := forCrc ++ keyBytes in
  let forCrc := AppendRaw 4 forCrc (le_val valueLength) in
  let forCrc := forCrc ++ valueBytes in
  if negb (Crc32.Compute forCrc =? le_val storedCrc) then (None, f)
  else (Some (mkStoreRecord (le_val sequence) (le_val tombstone) keyBytes valueBytes), f).

(** The header [Get] reads at an indexed offset: the key length. *)
Definition read_header (f : F) : option bytes * F :=
  read! magic, f := ReadExact f 4 in
  if negb (le_val magic =? kMagic) then (None, f) else
  read! sequence, f := ReadExact f 8 in
  read! tombstone, f := ReadExact f 1 in
  ReadExact f 4.
End readers.

Record FileBackingStore (F : Type) := mkStore {
  file_ : F;
  index_ : gmap string IndexEntry;
  endOffset_ : Z;
  nextSequence_ : Z
}.
Arguments mkStore {F}.
Arguments file_ {F}.
Arguments index_ {F}.
Arguments endOffset_ {F}.
Arguments nextSequence_ {F}.

Section FileBackingStore.
Context {F : Type} `{IFile F}.
Implicit Types s : FileBackingStore F.

Definition with_file s (f : F) : FileBackingStore F :=
  mkStore f (index_ s) (endOffset_ s) (nextSequence_ s).

(** The bytes of a record on the medium, as the loop counts them. *)
Definition record_size (r : StoreRecord) : Z :=
  4 + 8 + 1 + 4 + zlen (sr_key r) + 4 + zlen (sr_value r) + 4.

(** The scan; [offset] is also [validEnd], which the code sets to it at the
    end of each turn. *)
Fixpoint init_loop (fuel : nat) (f : F) (index : gmap string IndexEntry)
    (offset maxSequence : Z) : option (gmap string IndexEntry * Z * Z * F) :=
  match fuel with
  | O => None
  | S fuel =>
    match read_record ReadExact f with
    | (None, f) => Some (index, offset, maxSequence, f)
    | (Some r, f) =>
      let key := bytes_str (sr_key r) in
      init_loop fuel f
        (<[key := mkIndexEntry offset (negb (sr_tombstone r =? 0))]> index)
        (wrap64 (offset + record_size r))
        (Z.max maxSequence (sr_sequence r))
    end
  end.

Definition init_fuel (f : F) : nat := S (length (file_content f)).

Definition Initialize s : Result unit * FileBackingStore F :=
  match Seek (file_ s) 0 false with
  | (Failure e, f) => (Failure e, with_file s f)
  | (Success _, f) =>
    match init_loop (init_fuel f) f (index_ s) 0 0 with
    | None => (Failure Error_default, with_file s f)
    | Some (index, validEnd, maxSequence, f) =>
      let s := mkStore f index validEnd (wrap64 (maxSequence + 1)) in
      match Size (file_ s) with
      | (Success size, f) =>
        if negb (size =? validEnd) then
          match SetLength f validEnd with
          | (Failure e, f) => (Failure e, with_file s f)
          | (Success _, f) =>
            match FlushDurable f with
            | (Failure e, f) => (Failure e, with_file s f)
            | (Success _, f) => (Success tt, with_file s f)
            end
          end
        else (Success tt, with_file s f)
      | (Failure _, f) => (Success tt, with_file s f)
      end
    end
  end.

(** [OpenFileBackingStore], from the file it opened. *)
Definition OpenFileBackingStore (opened : Result F) : Result (FileBackingStore F) :=
  match opened with
  | Failure e => Failure e
  | Success f =>
    match Initialize (mkStore f ∅ 0 0) with
    | (Failure e, _) => Failure e
    | (Success _, s) => Success s
    end
  end.

Definition corrupt {T} (msg : string) : Result T := Failure (mkError ErrorCode.CorruptData msg 0).

Definition not_found {T} (key : string) : Result T :=
  Failure (mkError ErrorCode.NotFound (String.append "key not present in backing store: " key) 0).

Definition Get s (key : string) : Result bytes * FileBackingStore F :=
  match index_ s !! key with
  | None => (not_found key, s)
  | Some e =>
    if tombstone e then (not_found key, s) else
    match Seek (file_ s) (to_int64 (recordOffset e)) false with
    | (Failure e, f) => (Failure e, with_file s f)
    | (Success _, f) =>
      match read_header ReadExact f with
      | (None, f) =>
        (corrupt "backing store record header unreadable at indexed offset", with_file s f)
      | (Some keyLength, f) =>
        match ReadSome ReadExact f (le_val keyLength) with
        | (None, f) =>
          (corrupt "backing store record key unreadable at indexed offset", with_file s f)
        | (Some _, f) =>
          match ReadExact f 4 with
          | (None, f) => (corrupt "backing store record value length unreadable", with_file s f)
          | (Some valueLength, f) =>
            match ReadSome ReadExact f (le_val valueLength) with
            | (None, f) => (corrupt "backing store record value unreadable", with_file s f)
            | (Some valueBytes, f) => (Success valueBytes, with_file s f)
            end
          end
        end
      end
    end
  end.

Definition AppendRecord s (key : string) (value : bytes) (tombstone : bool)
    : Result unit * FileBackingStore F :=
  let sequence := nextSequence_ s in
  let tombstoneByte := if tombstone then 1 else 0 in
  let frame := frame sequence tombstoneByte (str_bytes key) (if tombstone then [] else value) in
  match Seek (file_ s) (to_int64 (endOffset_ s)) false with
  | (Failure e, f) => (Failure e, with_file s f)
  | (Success _, f) =>
    match Write f frame with
    | (Failure _, f) =>
      (Failure (mkError ErrorCode.IoError "backing store append: short write" 0), with_file s f)
    | (Success written, f) =>
      if negb (written =? zlen frame) then
        (Failure (mkError ErrorCode.IoError "backing store append: short write" 0), with_file s f)
      else
        match FlushDurable f with
        | (Failure e, f) => (Failure e, with_file s f)
        | (Success _, f) =>
          (Success tt,
           mkStore f (<[key := mkIndexEntry (endOffset_ s) tombstone]> (index_ s))
                   (wrap64 (endOffset_ s + zlen frame)) (wrap64 (nextSequence_ s + 1)))
        end
    end
  end.

Definition Put s (key : string) (value : bytes) : Result unit * FileBackingStore F :=
  AppendRecord s key value false.

Definition Contains s (key : string) : bool :=
  match index_ s !! key with Some e => negb (tombstone e) | None => false end.

Definition Remove s (key : string) : Result unit * FileBackingStore F :=
  match index_ s !! key with
  | None => (Success tt, s)
  | Some e => if tombstone e then (Success tt, s) else AppendRecord s key [] true
  end.

Definition EntryCount s : Z :=
  Z.of_nat (size (filter (λ ke, tombstone (snd ke) = false) (index_ s))).

#[export] Instance FileBackingStore_IBackingStore :
  IBackingStore.IBackingStore (FileBackingStore F) := {
  IBackingStore.Get := Get;
  IBackingStore.Put := Put;
  IBackingStore.Remove := Remove;
  IBackingStore.Contains := Contains;
  IBackingStore.EntryCount := EntryCount
}.
End FileBackingStore.
End FileBackingStore.
Import FileBackingStore.
#[export] Existing Instance FileBackingStore_IBackingStore.

(** ** The frame reader on a byte sequence *)

Definition parse_record (c : bytes) : option StoreRecord * bytes := read_record take_exact c.

Definition rec_frame (r : StoreRecord) : bytes :=
  frame (sr_sequence r) (sr_tombstone r) (sr_key r) (sr_value r).

Record sr_ok (r : StoreRecord) : Prop := {
  sok_seq : u64 (sr_sequence r);
  sok_tomb : u8 (sr_tombstone r);
  sok_key : zlen (sr_key r) ≤ kMaxReasonableLength;
  sok_value : zlen (sr_value r) ≤ kMaxReasonableLength
}.

Lemma record_frame_shape seq tb key value :
  frame seq tb key value =
    le_bytes 4 kMagic ++ le_bytes 8 seq ++ le_bytes 1 tb ++ le_bytes 4 (wrap32 (zlen key)) ++ key ++
    le_bytes 4 (wrap32 (zlen value)) ++ value ++
    le_bytes 4 (Crc32.Compute (frame_body seq tb key value)).
Proof. unfold frame, frame_body, AppendRaw. by rewrite app_nil_l, <- !app_assoc. Qed.

Lemma zlen_record_frame seq tb key value : zlen (frame seq tb key value) = 25 + zlen key + zlen value.
Proof. rewrite record_frame_shape. autorewrite with qcache_len. lia. Qed.

Lemma zlen_rec_frame r : zlen (rec_frame r) = record_size r.
Proof. unfold rec_frame, record_size. rewrite zlen_record_frame. lia. Qed.

Lemma bounded_len (b : bytes) :
  zlen b ≤ kMaxReasonableLength →
  wrap32 (zlen b) = zlen b ∧ in_width (8 * Z.of_nat 4) (zlen b) ∧
  (kMaxReasonableLength <? zlen b) = false.
Proof.
  unfold kMaxReasonableLength. intros Hb. pose proof (zlen_nonneg b).
  assert (in_width 32 (zlen b)) by (unfold in_width; lia).
  split; [by apply wrap_small|]. split; [done|]. by apply Z.ltb_ge.
Qed.

Lemma take_some_app (bs c : bytes) : ReadSome take_exact (bs ++ c) (zlen bs) = (Some bs, c).
Proof.
  unfold ReadSome. destruct (Z.ltb_spec 0 (zlen bs)) as [|Hl]; [by apply take_exact_app|].
  destruct bs as [|b bs]; [done|]. rewrite zlen_cons in Hl. pose proof (zlen_nonneg bs). lia.
Qed.

Lemma take_some_inv c n bs c' :
  0 ≤ n → ReadSome take_exact c n = (Some bs, c') → zlen bs = n ∧ c = bs ++ c'.
Proof.
  unfold ReadSome. intros Hn. destruct (Z.ltb_spec 0 n) as [|Hl].
  - intros E. by apply take_exact_Some in E.
  - intros [= <- <-]. rewrite zlen_nil. split; [lia|done].
Qed.

Lemma parse_record_app r rest : sr_ok r → parse_record (rec_frame r ++ rest) = (Some r, rest).
Proof.
  destruct r as [seq tb key value]. intros [Hs Ht Hk Hv]. cbn in Hs, Ht, Hk, Hv.
  unfold rec_frame. cbn [sr_sequence sr_tombstone sr_key sr_value].
  rewrite record_frame_shape, <- !app_assoc. unfold parse_record, read_record.
  destruct (bounded_len key Hk) as (Wk & Ik & Bk). destruct (bounded_len value Hv) as (Wv & Iv & Bv).
  rewrite Wk, Wv.
  rewrite (take_le 4), (le_val_le_bytes_small 4) by done. rewrite Z.eqb_refl. cbn [negb].
  rewrite (take_le 8), (le_val_le_bytes_small 8) by done.
  rewrite (take_le 1), (le_val_le_bytes_small 1) by done.
  rewrite (take_le 4), (le_val_le_bytes_small 4), Bk, take_some_app by done.
  rewrite (take_le 4), (le_val_le_bytes_small 4), Bv, take_some_app by done.
  rewrite (take_le 4), (le_val_le_bytes_small 4) by apply Crc32.Compute_u32_aux.
  rewrite <- Wk, <- Wv. fold (frame_body seq tb key value).
  by rewrite Z.eqb_refl.
Qed.

Lemma le_bytes_val (x : bytes) n : zlen x = Z.of_nat n → le_bytes n (le_val x) = x.
Proof. intros Hx. rewrite <- (le_bytes_le_val x) at 2. f_equal. unfold zlen in Hx. lia. Qed.

Lemma parse_record_inv c r rest :
  parse_record c = (Some r, rest) → sr_ok r ∧ c = rec_frame r ++ rest.
Proof.
  unfold parse_record, read_record. intros H.
  destruct (take_exact c 4) as [[m|] c1] eqn:E1; [|done].
  destruct (negb (le_val m =? kMagic)) eqn:Em; [done|].
  destruct (take_exact c1 8) as [[s|] c2] eqn:E2; [|done].
  destruct (take_exact c2 1) as [[t|] c3] eqn:E3; [|done].
  destruct (take_exact c3 4) as [[kl|] c4] eqn:E4; [|done].
  destruct (kMaxReasonableLength <? le_val kl) eqn:Ekl; [done|].
  destruct (ReadSome take_exact c4 (le_val kl)) as [[k|] c5] eqn:E5; [|done].
  destruct (take_exact c5 4) as [[vl|] c6] eqn:E6; [|done].
  destruct (kMaxReasonableLength <? le_val vl) eqn:Evl; [done|].
  destruct (ReadSome take_exact c6 (le_val vl)) as [[v|] c7] eqn:E7; [|done].
  destruct (take_exact c7 4) as [[crc|] c8] eqn:E8; [|done].
  apply take_exact_Some in E1 as [L1 ->], E2 as [L2 ->], E3 as [L3 ->], E4 as [L4 ->],
    E6 as [L6 ->], E8 as [L8 ->]; try lia.
  apply take_some_inv in E5 as [L5 ->]; [|apply le_val_range].
  apply take_some_inv in E7 as [L7 ->]; [|apply le_val_range].
  destruct (negb _) eqn:Ek in H; [done|]. injection H as <- <-. zbool.
  assert (sr_ok (mkStoreRecord (le_val s) (le_val t) k v)) as Hok.
  { constructor; cbn; [apply (le_val_width 8)|apply (le_val_width 1)| |];
      unfold zlen in *; lia. }
  split; [done|]. unfold rec_frame. cbn [sr_sequence sr_tombstone sr_key sr_value].
  rewrite record_frame_shape.
  destruct (bounded_len k) as (Wk & _ & _); [apply Hok|].
  destruct (bounded_len v) as (Wv & _ & _); [apply Hok|].
  assert (Crc32.Compute (frame_body (le_val s) (le_val t) k v) = le_val crc) as ->.
  { unfold frame_body. by rewrite Wk, Wv, L5, L7, <- Em. }
  rewrite Wk, Wv, L5, L7, <- Em, <- !app_assoc, !le_bytes_val by done. done.
Qed.

#[export] Instance record_Framing : Framing parse_record rec_frame sr_ok.
Proof.
  constructor; [apply parse_record_app|apply parse_record_inv|].
  intros r. pose proof (zlen_rec_frame r). unfold record_size, zlen in *. lia.
Qed.

(** ** The map a list of records stands for *)

Definition is_tombstone (r : StoreRecord) : bool := negb (sr_tombstone r =? 0).
Definition record_key (r : StoreRecord) : string := bytes_str (sr_key r).

Definition apply_record (m : gmap string bytes) (r : StoreRecord) : gmap string bytes :=
  if is_tombstone r then delete (record_key r) m else <[record_key r := sr_value r]> m.

Definition map_of (rs : list StoreRecord) : gmap string bytes := foldl apply_record ∅ rs.

(** The index of a content made of records. *)
Definition index_record (acc : gmap string IndexEntry * Z) (r : StoreRecord) : gmap string IndexEntry * Z :=
  (<[record_key r := mkIndexEntry (snd acc) (is_tombstone r)]> (fst acc), snd acc + record_size r).

Definition index_of (rs : list StoreRecord) : gmap string IndexEntry := fst (foldl index_record (∅, 0) rs).

Definition records (rs : list StoreRecord) : bytes := encs rec_frame rs.

Lemma zlen_records_snoc rs r : zlen (records (rs ++ [r])) = zlen (records rs) + record_size r.
Proof. unfold records. by rewrite encs_app, encs_single, zlen_app, zlen_rec_frame. Qed.

Lemma index_end rs : snd (foldl index_record (∅, 0) rs) = zlen (records rs).
Proof.
  induction rs as [|r rs IH] using rev_ind; [done|].
  by rewrite foldl_app, zlen_records_snoc, <- IH.
Qed.

Lemma index_of_snoc rs r :
  index_of (rs ++ [r]) =
    <[record_key r := mkIndexEntry (zlen (records rs)) (is_tombstone r)]> (index_of rs).
Proof. unfold index_of. rewrite foldl_app, <- index_end. done. Qed.

Lemma map_of_snoc rs r : map_of (rs ++ [r]) = apply_record (map_of rs) r.
Proof. unfold map_of. by rewrite foldl_app. Qed.

(** What the index says of a key: the last record of the key, where it is, and
    what the map holds. *)
Lemma index_of_lookup rs k :
  match index_of rs !! k with
  | None => map_of rs !! k = None
  | Some e =>
    ∃ pre r post, rs = pre ++ r :: post ∧ recordOffset e = zlen (records pre) ∧
      record_key r = k ∧ tombstone e = is_tombstone r ∧
      map_of rs !! k = if is_tombstone r then None else Some (sr_value r)
  end.
Proof.
  induction rs as [|r rs IH] using rev_ind; 
    [change (index_of []) with (∅ : gmap string IndexEntry); rewrite lookup_empty; apply lookup_empty|].
  rewrite index_of_snoc, map_of_snoc. unfold apply_record.
  destruct (decide (record_key r = k)) as [Hk|Hk].
  - rewrite Hk, lookup_insert_eq. exists rs, r, []. split_and!; [done..|].
    destruct (is_tombstone r); [by rewrite lookup_delete_eq|by rewrite lookup_insert_eq].
  - rewrite lookup_insert_ne by done.
    assert ((if is_tombstone r then delete (record_key r) (map_of rs)
             else <[record_key r := sr_value r]> (map_of rs)) !! k = map_of rs !! k) as ->.
    { destruct (is_tombstone r); [by rewrite lookup_delete_ne|by rewrite lookup_insert_ne]. }
    destruct (index_of rs !! k) as [e|]; [|done].
    destruct IH as (pre & r0 & post & -> & ?). exists pre, r0, (post ++ [r]).
    by rewrite <- app_assoc.
Qed.

(** ** The store and its file *)
(** The record an operation appends. *)
Definition new_record {F} (s : FileBackingStore F) (key : string) (value : bytes) (tb : bool) : StoreRecord :=
  mkStoreRecord (nextSequence_ s) (if tb then 1 else 0) (str_bytes key) (if tb then [] else value).

Lemma AppendRecord_write_through {F} `{IFile F} (s : FileBackingStore F) key value tb :
  AppendRecord s key value tb =
    let fr := frame (nextSequence_ s) (if tb then 1 else 0) (str_bytes key) (if tb then [] else value) in
    let '(r, f) := write_through (file_ s) (to_int64 (endOffset_ s)) false fr
                     (mkError ErrorCode.IoError "backing store append: short write" 0) in
    match r with
    | Failure e => (Failure e, with_file s f)
    | Success _ =>
      (Success tt, mkStore f (<[key := mkIndexEntry (endOffset_ s) tb]> (index_ s))
                           (wrap64 (endOffset_ s + zlen fr)) (wrap64 (nextSequence_ s + 1)))
    end.
Proof.
  unfold AppendRecord, write_through. cbv zeta.
  destruct (Seek _ _ _) as [[|] f1]; [|done].
  destruct (Write f1 _) as [[|] f2]; [|done].
  destruct (negb _); [done|]. by destruct (FlushDurable f2) as [[[]|] f3].
Qed.

(** *** The moments of an append *)
Section moments.
Context {F : Type} `{IFile F}.
Implicit Types s : FileBackingStore F.

Definition recording_store s : FileBackingStore (Recorded F) :=
  mkStore (recording (file_ s)) (index_ s) (endOffset_ s) (nextSequence_ s).

(** The file after each call [AppendRecord] makes. *)
Definition AppendRecord_files s key value tb : list F :=
  moments (file_ (snd (AppendRecord (recording_store s) key value tb))).

Lemma AppendRecord_files_write_through s key value tb :
  AppendRecord_files s key value tb =
    write_through_files (file_ s) (to_int64 (endOffset_ s)) false (rec_frame (new_record s key value tb)).
Proof.
  unfold AppendRecord_files. rewrite AppendRecord_write_through. cbn [recording_store file_ endOffset_ nextSequence_ index_].
  cbv zeta. rewrite write_through_moments. change (frame _ _ _ _) with (rec_frame (new_record s key value tb)).
  by destruct (write_through (file_ s) _ _ _ _) as [[[]|e] f].
Qed.

(** The last moment is the file as [AppendRecord] leaves it. *)
Lemma AppendRecord_files_last s key value tb :
  file_ (snd (AppendRecord s key value tb)) ∈ AppendRecord_files s key value tb.
Proof.
  rewrite AppendRecord_files_write_through, AppendRecord_write_through. cbv zeta.
  change (frame _ _ _ _) with (rec_frame (new_record s key value tb)).
  pose proof (write_through_files_last (file_ s) (to_int64 (endOffset_ s)) false
    (rec_frame (new_record s key value tb)) (mkError ErrorCode.IoError "backing store append: short write" 0)) as Hl.
  by destruct (write_through _ _ _ _ _) as [[[]|e] f].
Qed.
End moments.

Section store_inv.
Context {F : Type} `{IFileSpec F}.
Implicit Types s : FileBackingStore F.

Abbreviation content s := (file_content (file_ s)).

(** The file holds the records, then bytes of failed appends, if any; the
    index and the end offset are those of the records. *)
Record store_inv s (rs : list StoreRecord) (tail : bytes) : Prop := {
  si_content : content s = records rs ++ tail;
  si_ok : Forall sr_ok rs;
  si_index : index_ s = index_of rs;
  si_end : endOffset_ s = zlen (records rs);
  si_next : u64 (nextSequence_ s);
  si_room pre r post : rs = pre ++ r :: post → zlen (records pre) < 2 ^ 63
}.

Lemma record_size_bound r : sr_ok r → 25 ≤ record_size r < 2 ^ 30.
Proof.
  intros []. unfold record_size, kMaxReasonableLength in *.
  pose proof (zlen_nonneg (sr_key r)). pose proof (zlen_nonneg (sr_value r)). lia.
Qed.

Lemma si_end_bound s rs tail : store_inv s rs tail → 0 ≤ endOffset_ s < 2 ^ 63 + 2 ^ 30.
Proof.
  intros Hi. rewrite (si_end _ _ _ Hi). split; [apply zlen_nonneg|].
  destruct rs as [|r rs _] using rev_ind; [done|].
  rewrite zlen_records_snoc. pose proof (si_room _ _ _ Hi rs r [] eq_refl).
  pose proof (si_ok _ _ _ Hi) as Hok. apply Forall_app in Hok as [_ Hok].
  pose proof (Forall_inv Hok) as Hr. pose proof (record_size_bound r Hr). lia.
Qed.

Lemma new_record_ok s rs tail key value tb :
  store_inv s rs tail → str_size key ≤ kMaxReasonableLength → zlen value ≤ kMaxReasonableLength →
  sr_ok (new_record s key value tb).
Proof.
  intros Hi Hk Hv. constructor; cbn; [apply Hi| |done|].
  - by destruct tb.
  - destruct tb; [done|done].
Qed.

Lemma write_at_append (pre tail bs : bytes) :
  write_at (pre ++ tail) (zlen pre) bs = pre ++ bs ++ drop (length bs) tail.
Proof.
  unfold write_at, zlen. destruct bs as [|b bs]; [done|]. rewrite Nat2Z.id.
  rewrite resize_app_le, resize_all by lia. f_equal. f_equal.
  rewrite drop_app_ge by lia. f_equal. lia.
Qed.

(** A seek to an offset that fits is a seek there; to another it fails. *)
Lemma Seek_int64 (f f' : F) z p :
  0 ≤ z < 2 ^ 64 → Seek f (to_int64 z) false = (Success p, f') → z < 2 ^ 63 ∧ to_int64 z = z.
Proof.
  intros Hz E. destruct (Seek_spec _ _ _ _ _ E) as (_ & _ & Hp & Hpos).
  pose proof (file_pos_nonneg f') as Hnn. unfold to_int64 in *.
  destruct (Z.ltb_spec z (2 ^ 63)); [done|lia].
Qed.

Lemma write_through_seek (f f' : F) off data short :
  write_through f off false data short = (Success tt, f') → ∃ p f1, Seek f off false = (Success p, f1).
Proof. unfold write_through. destruct (Seek f off false) as [[p|e] f1]; [eauto|done]. Qed.

(** An append: on success the records gain one; on failure they stand, with
    some bytes of the frame over the tail. *)
Lemma AppendRecord_inv s rs tail key value tb r s' :
  store_inv s rs tail → str_size key ≤ kMaxReasonableLength → zlen value ≤ kMaxReasonableLength →
  AppendRecord s key value tb = (r, s') →
  match r with
  | Success _ =>
    store_inv s' (rs ++ [new_record s key value tb])
      (drop (length (rec_frame (new_record s key value tb))) tail) ∧
    ∀ d, crash_image (file_ s') d ↔ d = content s'
  | Failure _ => ∃ tail', store_inv s' rs tail'
  end.
Proof.
  intros Hi Hk Hv. rewrite AppendRecord_write_through. cbv zeta.
  set (nr := new_record s key value tb).
  change (frame _ _ _ _) with (rec_frame nr).
  destruct (write_through _ _ _ _ _) as [wr f] eqn:E.
  pose proof (si_end_bound _ _ _ Hi) as Hb.
  pose proof (write_through_inv _ _ _ _ _ _ _ E) as (_ & (k & Hk' & C) & Hok).
  destruct wr as [[]|e]; intros [= <- <-].
  - destruct (write_through_seek _ _ _ _ _ E) as (p & f1 & Es).
    destruct (Seek_int64 _ _ (endOffset_ s) _ ltac:(lia) Es) as [Hlt H64].
    destruct (Hok eq_refl) as [C' I]. rewrite H64, (si_content _ _ _ Hi) in C'.
    rewrite Z.add_0_l, (si_end _ _ _ Hi), write_at_append in C'.
    specialize (C' ltac:(rewrite zlen_app; pose proof (zlen_nonneg tail); lia)).
    assert (sr_ok nr) as Hnr by (by eapply new_record_ok).
    pose proof (record_size_bound nr Hnr) as Hsz.
    split; [|done]. constructor; cbn [file_ index_ endOffset_ nextSequence_].
    + rewrite C'. unfold records. by rewrite encs_app, encs_single, <- app_assoc.
    + apply Forall_app. split; [apply Hi|by constructor].
    + rewrite index_of_snoc, (si_index _ _ _ Hi), (si_end _ _ _ Hi).
      unfold record_key, nr. cbn [sr_key new_record]. rewrite bytes_str_bytes.
      by destruct tb.
    + rewrite zlen_records_snoc, <- (si_end _ _ _ Hi), zlen_rec_frame.
      apply wrap_small. unfold in_width. lia.
    + by apply wrap_width.
    + intros pre r post Hrs. destruct post as [|r' post _] using rev_ind.
      * apply app_inj_tail in Hrs as [<- <-]. rewrite <- (si_end _ _ _ Hi). lia.
      * rewrite app_comm_cons, app_assoc in Hrs. apply app_inj_tail in Hrs as [Hrs _].
        by eapply Hi.
  - unfold to_int64 in C. rewrite (si_content _ _ _ Hi), Z.add_0_l in C.
    destruct (Z.ltb_spec (endOffset_ s) (2 ^ 63)) as [Hlt|Hge].
    + rewrite (si_end _ _ _ Hi), write_at_append in C.
      specialize (C ltac:(rewrite zlen_app; pose proof (zlen_nonneg tail); lia)). eexists.
      constructor; [exact C|apply Hi..].
    + exists tail. constructor; [|apply Hi..]. cbn. rewrite <- (si_content _ _ _ Hi).
      unfold write_through in E. destruct (Seek _ _ _) as [[p|e'] f1] eqn:Es.
      * destruct (Seek_int64 _ _ (endOffset_ s) _ ltac:(lia) Es). lia.
      * injection E as _ <-. by destruct (Seek_spec _ _ _ _ _ Es).
Qed.

(** The reads of [Get], their failures told apart or not. *)
Definition read_value {F} (RE : F → Z → option bytes * F) (f : F) : option bytes * F :=
  read! keyLength, f := read_header RE f in
  read! key, f := ReadSome RE f (le_val keyLength) in
  read! valueLength, f := RE f 4 in
  ReadSome RE f (le_val valueLength).

Lemma read_some_sim (f : F) n rest :
  0 ≤ n < io_limit → reads f rest → read_sim f (ReadSome ReadExact f n) (ReadSome take_exact rest n).
Proof.
  intros Hn Hr. unfold ReadSome. destruct (0 <? n); [by apply read_sim_exact|by apply read_sim_some].
Qed.

Lemma read_header_length rest kl :
  fst (read_header take_exact rest) = Some kl → 0 ≤ le_val kl < io_limit.
Proof.
  unfold read_header. destruct (take_exact rest 4) as [[m|] r1]; [|done].
  destruct (negb _); [done|]. destruct (take_exact r1 8) as [[sq|] r2]; [|done].
  destruct (take_exact r2 1) as [[tb|] r3]; [|done]. apply take_exact_length.
Qed.

Lemma read_value_sim (f : F) rest :
  reads f rest → read_sim f (read_value ReadExact f) (read_value take_exact rest).
Proof.
  intros Hr. unfold read_value, read_header. apply read_sim_bind.
  - apply read_sim_bind; [by apply read_sim_exact|]. intros m f1 r1 _ Hr1.
    destruct (negb _); [by apply read_sim_none|].
    apply read_sim_bind; [by apply read_sim_exact|]. intros sq f2 r2 _ Hr2.
    apply read_sim_bind; [by apply read_sim_exact|]. intros tb f3 r3 _ Hr3.
    by apply read_sim_exact.
  - intros kl f1 r1 Hkl Hr1. apply read_header_length in Hkl.
    apply read_sim_bind; [by apply read_some_sim|].
    intros k f2 r2 _ Hr2. apply read_sim_bind; [by apply read_sim_exact|]. intros vl f3 r3 Hvl Hr3.
    apply read_some_sim; [by eapply take_exact_length|done].
Qed.

Lemma read_value_frame r rest :
  sr_ok r → fst (read_value take_exact (rec_frame r ++ rest)) = Some (sr_value r).
Proof.
  destruct r as [seq tb key value]. intros [Hs Ht Hk Hv]. cbn in Hs, Ht, Hk, Hv.
  unfold rec_frame. cbn [sr_sequence sr_tombstone sr_key sr_value].
  destruct (bounded_len key Hk) as (Wk & Ik & _). destruct (bounded_len value Hv) as (Wv & Iv & _).
  rewrite record_frame_shape, <- !app_assoc, Wk, Wv. unfold read_value, read_header.
  rewrite (take_le 4), (le_val_le_bytes_small 4) by done. rewrite Z.eqb_refl. cbn [negb].
  rewrite (take_le 8), (take_le 1), (take_le 4), (le_val_le_bytes_small 4), take_some_app by done.
  by rewrite (take_le 4), (le_val_le_bytes_small 4), take_some_app by done.
Qed.

Lemma Get_read_value s key e :
  index_ s !! key = Some e → tombstone e = false →
  match Seek (file_ s) (to_int64 (recordOffset e)) false with
  | (Failure e, f) => Get s key = (Failure e, with_file s f)
  | (Success _, f) =>
    match read_value ReadExact f with
    | (Some v, f) => Get s key = (Success v, with_file s f)
    | (None, f) => ∃ msg, Get s key = (corrupt msg, with_file s f)
    end
  end.
Proof.
  intros Hi Ht. unfold Get, read_value. rewrite Hi, Ht.
  destruct (Seek _ _ _) as [[p|er] f]; [|done].
  destruct (read_header ReadExact f) as [[kl|] f1]; [|eauto].
  destruct (ReadSome ReadExact f1 _) as [[k|] f2]; [|eauto].
  destruct (ReadExact f2 4) as [[vl|] f3]; [|eauto].
  destruct (ReadSome ReadExact f3 _) as [[v|] f4]; eauto.
Qed.

Lemma with_file_inv s rs tail (f : F) :
  store_inv s rs tail → file_content f = content s → store_inv (with_file s f) rs tail.
Proof. intros Hi C. constructor; [cbn; rewrite C; apply Hi|apply Hi..]. Qed.

Lemma Get_inv s rs tail key r s' :
  store_inv s rs tail → Get s key = (r, s') →
  store_inv s' rs tail ∧ (∀ d, crash_image (file_ s') d ↔ crash_image (file_ s) d) ∧
  (map_of rs !! key = None → r = not_found key) ∧
  (∀ v, r = Success v → map_of rs !! key = Some v) ∧
  (reliable (file_ s) → reliable (file_ s') ∧ ∀ v, map_of rs !! key = Some v → r = Success v).
Proof.
  intros Hi HG. pose proof (index_of_lookup rs key) as Hl. rewrite <- (si_index _ _ _ Hi) in Hl.
  destruct (index_ s !! key) as [e|] eqn:Ei.
  2:{ unfold Get in HG. rewrite Ei in HG. injection HG as <- <-. rewrite Hl. split_and!; done. }
  destruct Hl as (pre & r0 & post & Hrs & Hoff & Hkey & Htomb & Hmap).
  destruct (tombstone e) eqn:Et.
  { unfold Get in HG. rewrite Ei, Et in HG. injection HG as <- <-.
    rewrite Hmap, <- Htomb. split_and!; done. }
  rewrite <- Htomb in Hmap. rewrite Hmap.
  pose proof (Get_read_value s key e Ei Et) as Hget.
  pose proof (si_room _ _ _ Hi pre r0 post Hrs) as Hroom. pose proof (zlen_nonneg (records pre)) as Hnn.
  assert (to_int64 (recordOffset e) = zlen (records pre)) as H64.
  { rewrite Hoff. unfold to_int64. by destruct (Z.ltb_spec (zlen (records pre)) (2 ^ 63)); [|lia]. }
  rewrite H64 in Hget.
  destruct (Seek (file_ s) _ false) as [[p|er] f1] eqn:Es;
    destruct (Seek_spec _ _ _ _ _ Es) as (C1 & I1 & P1).
  2:{ rewrite Hget in HG. injection HG as <- <-.
      split; [by apply with_file_inv|]. split; [done|]. split; [done|]. split; [done|].
      intros Hrel. destruct (reliable_Seek (file_ s) (zlen (records pre)) false Hrel ltac:(lia))
        as (? & ? & E & _). by rewrite Es in E. }
  destruct P1 as [-> P1]. rewrite Z.add_0_l in P1.
  assert (sr_ok r0) as Hr0.
  { pose proof (si_ok _ _ _ Hi) as Hok. rewrite Hrs in Hok.
    apply Forall_app in Hok as [_ Hok]. apply (Forall_inv Hok). }
  assert (reads f1 (rec_frame r0 ++ records post ++ tail)) as Hreads.
  { unfold reads. rewrite P1, C1, (si_content _ _ _ Hi), Hrs. unfold records.
    rewrite encs_app, encs_cons, <- !app_assoc. apply cursor_split. }
  destruct (read_value_sim f1 _ Hreads) as (C2 & I2 & Hsome & Hrel2).
  rewrite read_value_frame in Hsome, Hrel2 by done.
  destruct (read_value ReadExact f1) as [o f2]; cbn [fst snd] in *.
  assert (s' = with_file s f2) as ->.
  { destruct o; [|destruct Hget as [msg Hget]]; rewrite Hget in HG; by injection HG. }
  split; [apply with_file_inv; [done|congruence]|].
  split; [intros d; cbn; by rewrite I2, I1|]. split; [done|]. split.
  - intros v ->. destruct o as [v0|]; [|destruct Hget as [msg Hget]];
      rewrite Hget in HG; [injection HG as ->|done].
    by destruct (Hsome v eq_refl) as [[= ->] _].
  - intros Hrel. destruct (reliable_Seek (file_ s) (zlen (records pre)) false Hrel ltac:(lia))
      as (? & ? & E & Hrel1).
    rewrite Es in E. injection E as _ <-. destruct (Hrel2 Hrel1) as [-> Hr2].
    split; [done|]. intros v [= <-]. rewrite Hget in HG. by injection HG.
Qed.

(** ** Initialize *)

Lemma read_record_sim (f : F) rest :
  reads f rest → read_sim f (read_record ReadExact f) (parse_record rest).
Proof.
  intros Hr. unfold parse_record, read_record.
  apply read_sim_bind; [by apply read_sim_exact|]. intros m f1 r1 _ Hr1.
  destruct (negb _); [by apply read_sim_none|].
  apply read_sim_bind; [by apply read_sim_exact|]. intros sq f2 r2 _ Hr2.
  apply read_sim_bind; [by apply read_sim_exact|]. intros tb f3 r3 _ Hr3.
  apply read_sim_bind; [by apply read_sim_exact|]. intros kl f4 r4 Hkl Hr4.
  destruct (_ <? _); [by apply read_sim_none|].
  apply read_sim_bind; [apply read_some_sim; [by eapply take_exact_length|done]|]. intros k f5 r5 _ Hr5.
  apply read_sim_bind; [by apply read_sim_exact|]. intros vl f6 r6 Hvl Hr6.
  destruct (_ <? _); [by apply read_sim_none|].
  apply read_sim_bind; [apply read_some_sim; [by eapply take_exact_length|done]|]. intros v f7 r7 _ Hr7.
  apply read_sim_bind; [by apply read_sim_exact|]. intros crc f8 r8 _ Hr8.
  destruct (negb _); [by apply read_sim_none|by apply read_sim_some].
Qed.

Definition content_records (c : bytes) : list StoreRecord := scan_of parse_record c.

(** The loop, with the records [pre] behind it: it indexes records that stand
    in front of it, all of them when no read fails. *)
Lemma init_loop_records fuel (f : F) pre rest mx :
  reads f rest → file_content f = records pre ++ rest → zlen (file_content f) < 2 ^ 63 →
  u64 mx → (length rest < fuel)%nat →
  ∃ rs mx' f', init_loop fuel f (index_of pre) (zlen (records pre)) mx =
      Some (index_of (pre ++ rs), zlen (records (pre ++ rs)), mx', f') ∧
    u64 mx' ∧ rs `prefix_of` content_records rest ∧ file_content f' = file_content f ∧
    (∀ d, crash_image f' d ↔ crash_image f d) ∧
    (reliable f → reliable f' ∧ rs = content_records rest).
Proof.
  revert f pre rest mx. induction fuel as [|fuel IH]; intros f pre rest mx Hr Hc Hlt Hmx Hf; [lia|].
  cbn [init_loop].
  destruct (read_record_sim f rest Hr) as (C & I & Hsome & Hrel).
  destruct (read_record ReadExact f) as [[r|] f1] eqn:E; cbn [fst snd] in *.
  - destruct (Hsome r eq_refl) as [P Hr1].
    destruct (parse_record rest) as [o rest1] eqn:EP. cbn in P, Hr1. subst o.
    pose proof (parse_shorter _ _ _ EP) as Hsh.
    assert (content_records rest = r :: content_records rest1) as Hcr by (by apply scan_of_Some).
    apply parse_record_inv in EP as [Hok Hrest].
    assert (file_content f1 = records (pre ++ [r]) ++ rest1) as Hc1.
    { rewrite C, Hc, Hrest. unfold records. by rewrite encs_app, encs_single, <- app_assoc. }
    assert (zlen (records pre) + record_size r = zlen (records (pre ++ [r]))) as Hz.
    { by rewrite zlen_records_snoc. }
    assert (zlen (records (pre ++ [r])) < 2 ^ 63).
    { rewrite <- C, Hc1, zlen_app in Hlt. pose proof (zlen_nonneg rest1). lia. }
    rewrite wrap_small, Hz.
    2:{ rewrite Hz. pose proof (zlen_nonneg (records (pre ++ [r]))). unfold in_width. lia. }
    change (bytes_str (sr_key r)) with (record_key r). fold (is_tombstone r).
    rewrite <- index_of_snoc.
    destruct (IH f1 (pre ++ [r]) rest1 (Z.max mx (sr_sequence r)))
      as (rs & mx' & f' & -> & Hmx' & Hp & C' & I' & R'); [done|done|by rewrite C| |lia|].
    { destruct Hok as [Hs _ _ _]. unfold in_width in *. lia. }
    exists (r :: rs), mx', f'. rewrite <- app_assoc. split; [done|]. split; [done|].
    rewrite Hcr. split; [by apply prefix_cons|]. split; [congruence|].
    split; [intros d; by rewrite I'|]. intros Hrf.
    destruct (R' (proj2 (Hrel Hrf))) as [? ->]. done.
  - exists [], mx, f1. rewrite app_nil_r. split; [done|]. split; [done|]. split; [apply prefix_nil|].
    split; [done|]. split; [done|]. intros Hrf. destruct (Hrel Hrf) as [HP Hrf1].
    split; [done|]. symmetry. by apply scan_of_None.
Qed.

(** The scan ends, on any device. *)
Lemma init_loop_ends (f : F) p f1 :
  zlen (file_content f) < 2 ^ 63 → Seek f 0 false = (Success p, f1) →
  ∃ index validEnd mx f2, init_loop (S (length (file_content f))) f1 ∅ 0 0 = Some (index, validEnd, mx, f2).
Proof.
  intros Hlt E. destruct (Seek_spec _ _ _ _ _ E) as (C & _ & -> & P). rewrite Z.add_0_l in P.
  assert (reads f1 (file_content f)) as Hr by (unfold reads; rewrite P, C; apply cursor_0).
  destruct (init_loop_records (S (length (file_content f))) f1 [] (file_content f) 0) as (rs & mx & f2 & E2 & _);
    [done|done|by rewrite C|done|lia|].
  change (index_of []) with (∅ : gmap string IndexEntry) in E2. change (zlen (records [])) with 0 in E2.
  by eexists _, _, _, _.
Qed.

Lemma store_room rs tail c :
  c = records rs ++ tail → zlen c < 2 ^ 63 →
  ∀ pre r post, rs = pre ++ r :: post → zlen (records pre) < 2 ^ 63.
Proof.
  intros -> Hlt pre r post ->. unfold records in Hlt. rewrite encs_app, !zlen_app in Hlt.
  pose proof (zlen_nonneg (encs rec_frame (r :: post))). pose proof (zlen_nonneg tail).
  unfold records. lia.
Qed.

Lemma prefix_front rs c :
  rs `prefix_of` content_records c → Forall sr_ok rs ∧ ∃ tail, c = records rs ++ tail.
Proof.
  intros [ts E]. pose proof (scan_of_ok (parse:=parse_record) c) as Hok. fold (content_records c) in Hok.
  rewrite E in Hok. split; [by apply Forall_app in Hok as [? _]|].
  destruct (scan_of_front (parse:=parse_record) c) as (rest & Hc & _).
  fold (content_records c) in Hc. rewrite E, encs_app, <- app_assoc in Hc. eauto.
Qed.

Lemma set_length_front (pre tail : bytes) : set_length (pre ++ tail) (zlen pre) = pre.
Proof. unfold set_length, zlen. rewrite Nat2Z.id, resize_app_le by lia. by rewrite resize_all. Qed.

Lemma Initialize_inv s r s' :
  index_ s = ∅ → zlen (content s) < 2 ^ 63 → Initialize s = (r, s') →
  (r = Success tt → ∃ rs tail, rs `prefix_of` content_records (content s) ∧ store_inv s' rs tail) ∧
  (reliable (file_ s) →
   r = Success tt ∧ store_inv s' (content_records (content s)) [] ∧ reliable (file_ s') ∧
   ((∀ d, crash_image (file_ s) d → d = content s) → ∀ d, crash_image (file_ s') d → d = content s')).
Proof.
  intros Hempty Hlt. unfold Initialize.
  destruct (Seek (file_ s) 0 false) as [[p|e] f1] eqn:E1;
    destruct (Seek_spec _ _ _ _ _ E1) as (C1 & I1 & P1).
  2:{ intros [= <- <-]. split; [done|]. intros Hrel.
      destruct (reliable_Seek (file_ s) 0 false Hrel ltac:(lia)) as (? & ? & E & _). by rewrite E1 in E. }
  destruct P1 as [-> P1]. rewrite Z.add_0_l in P1.
  assert (reads f1 (content s)) as Hr by (unfold reads; rewrite P1, C1; apply cursor_0).
  destruct (init_loop_records (init_fuel f1) f1 [] (content s) 0) as
    (rs & mx & f2 & E2 & Hmx & Hp & C2 & I2 & R2); [done|done|by rewrite C1|done| |].
  { unfold init_fuel. rewrite C1. lia. }
  rewrite Hempty. change (∅ : gmap string IndexEntry) with (index_of []).
  change 0 with (zlen (records [])) at 1. rewrite E2. cbn [app file_]. clear E2.
  destruct (prefix_front _ _ Hp) as [Hok [tail Htail]].
  assert (∀ f t, file_content f = records rs ++ t →
            store_inv (mkStore f (index_of rs) (zlen (records rs)) (wrap64 (mx + 1))) rs t) as Hinv.
  { intros f t Hc. constructor; try done; [by apply wrap_width|].
    by apply (store_room rs tail (content s)). }
  assert (reliable (file_ s) → reliable f2 ∧ rs = content_records (content s)) as Hrel.
  { intros Hrf. destruct (reliable_Seek (file_ s) 0 false Hrf ltac:(lia)) as (? & ? & E & Hrf1).
    rewrite E1 in E. injection E as _ <-. by apply R2. }
  destruct (Size f2) as [[sz|e] f3] eqn:E3; destruct (Size_spec _ _ _ E3) as (C3 & I3 & Hsz).
  2:{ intros [= <- <-]. split.
      - intros _. exists rs, tail. split; [done|]. apply Hinv. congruence.
      - intros Hrf. destruct (reliable_Size f2 (proj1 (Hrel Hrf))) as (? & E & _). by rewrite E3 in E. }
  assert (file_content f3 = records rs ++ tail) as C by congruence.
  assert (∀ d, crash_image f3 d ↔ crash_image (file_ s) d) as I.
  { intros d. by rewrite I3, I2, I1. }
  assert (reliable (file_ s) → reliable f3 ∧ rs = content_records (content s) ∧ sz = zlen (content s)) as Hrel3.
  { intros Hrf. destruct (Hrel Hrf) as [Hrf2 Hrs].
    destruct (reliable_Size f2 Hrf2) as (? & E & Hrf3). rewrite E3 in E. injection E as -> <-.
    split; [done|]. split; [done|]. congruence. }
  destruct (Z.eqb_spec sz (zlen (records rs))) as [Heq|Hne]; cbn [negb].
  { intros [= <- <-]. split; [intros _; exists rs, tail; split; [done|by apply Hinv]|].
    intros Hrf. destruct (Hrel3 Hrf) as (_ & <- & Hs). split; [done|].
    assert (tail = []) as ->.
    { rewrite Hs, Htail, zlen_app in Heq. apply length_zero_iff_nil. unfold zlen in *. lia. }
    rewrite app_nil_r in C. split; [apply Hinv; by rewrite app_nil_r|]. split; [by apply Hrel3|].
    intros Hsync d Hd. cbn. rewrite C3, C2, C1. by apply Hsync, I. }
  assert (0 ≤ zlen (records rs) < 2 ^ 63) as Hnn.
  { pose proof (zlen_nonneg (records rs)). pose proof (zlen_nonneg tail).
    assert (zlen (records rs) + zlen tail = zlen (content s)) by (rewrite <- zlen_app; congruence). lia. }
  assert (0 ≤ zlen (records rs) < 2 ^ 64) as Hnn' by lia.
  destruct (SetLength f3 (zlen (records rs))) as [[[]|e] f4] eqn:E4;
    destruct (SetLength_spec _ _ _ _ Hnn' E4) as [I4 C4].
  2:{ intros [= <- <-]. split; [done|]. intros Hrf.
      destruct (reliable_SetLength f3 _ (proj1 (Hrel3 Hrf)) Hnn) as (? & E & _). by rewrite E4 in E. }
  rewrite C, set_length_front, zlen_app in C4. specialize (C4 ltac:(pose proof (zlen_nonneg tail); lia)).
  destruct (FlushDurable f4) as [[[]|e] f5] eqn:E5;
    destruct (FlushDurable_spec _ _ _ E5) as [C5 I5]; intros [= <- <-].
  - assert (store_inv (mkStore f5 (index_of rs) (zlen (records rs)) (wrap64 (mx + 1))) rs []) as Hfin.
    { apply Hinv. rewrite app_nil_r. congruence. }
    split; [intros _; by exists rs, []|]. intros Hrf. destruct (Hrel3 Hrf) as (Hrf3 & <- & _).
    split; [done|]. split; [done|]. split.
    + destruct (reliable_SetLength f3 _ Hrf3 Hnn) as (? & E & Hrf4). rewrite E4 in E. injection E as <-.
      destruct (reliable_FlushDurable f4 Hrf4) as (? & E & Hrf5). rewrite E5 in E. by injection E as <-.
    + intros _ d Hd. apply I5 in Hd. cbn. congruence.
  - split; [done|]. intros Hrf.
    destruct (reliable_SetLength f3 _ (proj1 (Hrel3 Hrf)) Hnn) as (? & E & Hrf4).
    rewrite E4 in E. injection E as <-.
    destruct (reliable_FlushDurable f4 Hrf4) as (? & E & _). by rewrite E5 in E.
Qed.
End store_inv.

(** ** The contract of the backing store

    [store_map] is what the store holds now; [store_images] are the maps a
    restart may find after a power cut; in a [store_clean] state nothing torn
    is in the file and nothing is left to be forced. *)
Definition store_fits (key : string) (value : bytes) : Prop :=
  str_size key ≤ kMaxReasonableLength ∧ zlen value ≤ kMaxReasonableLength.

Class BackingStoreSpec (B : Type) `{IBackingStore.IBackingStore B} := {
  store_ok : B → Prop;
  store_clean : B → Prop;
  store_reliable : B → Prop;
  store_map : B → gmap string bytes;
  store_images : B → gmap string bytes → Prop;

  store_images_self b : store_clean b → store_images b (store_map b);
  store_clean_ok b : store_clean b → store_ok b;
  store_clean_images b m : store_clean b → store_images b m → m = store_map b;

  Get_spec b k r b' :
    store_ok b → IBackingStore.Get b k = (r, b') →
    store_ok b' ∧ store_map b' = store_map b ∧ (store_clean b → store_clean b') ∧
    (store_map b !! k = None → ∃ e, r = Failure e ∧ code e = ErrorCode.NotFound) ∧
    (∀ v, r = Success v → store_map b !! k = Some v) ∧
    (store_reliable b → store_reliable b' ∧ ∀ v, store_map b !! k = Some v → r = Success v);

  Put_spec b k v r b' :
    store_ok b → store_fits k v → IBackingStore.Put b k v = (r, b') →
    store_ok b' ∧
    store_map b' = match r with Success _ => <[k := v]> (store_map b) | Failure _ => store_map b end ∧
    (store_clean b → (r = Success tt → store_clean b') ∧
       ∀ m, store_images b' m → m = store_map b ∨ m = <[k := v]> (store_map b));

  Remove_spec b k r b' :
    store_ok b → store_fits k [] → IBackingStore.Remove b k = (r, b') →
    store_ok b' ∧
    store_map b' = match r with Success _ => delete k (store_map b) | Failure _ => store_map b end ∧
    (store_clean b → (r = Success tt → store_clean b') ∧
       ∀ m, store_images b' m → m = store_map b ∨ m = delete k (store_map b));

  (** Nothing tears on a device without errors: a call refused for want of
      room does not touch the file. *)
  Put_reliable b k v r b' :
    store_clean b → store_reliable b → store_fits k v → IBackingStore.Put b k v = (r, b') →
    store_clean b' ∧ store_reliable b';

  Remove_reliable b k r b' :
    store_clean b → store_reliable b → store_fits k [] → IBackingStore.Remove b k = (r, b') →
    store_clean b' ∧ store_reliable b';

  Contains_spec b k :
    store_ok b → IBackingStore.Contains b k = bool_decide (is_Some (store_map b !! k));

  EntryCount_spec b : store_ok b → IBackingStore.EntryCount b = Z.of_nat (size (store_map b))
}.

Section contract.
Context {F : Type} `{IFileSpec F}.
Implicit Types s : FileBackingStore F.

Abbreviation content s := (file_content (file_ s)).

Definition store_records s : list StoreRecord :=
  content_records (take (Z.to_nat (endOffset_ s)) (content s)).

Lemma store_inv_records s rs tail : store_inv s rs tail → store_records s = rs.
Proof.
  intros Hi. unfold store_records. rewrite (si_end _ _ _ Hi), (si_content _ _ _ Hi).
  unfold zlen. rewrite Nat2Z.id, take_app_length. apply scan_of_encs. apply Hi.
Qed.

Record fbs_clean s : Prop := {
  fc_inv : store_inv s (store_records s) [];
  fc_synced d : crash_image (file_ s) d → d = content s
}.

Definition fbs_images s (m : gmap string bytes) : Prop :=
  ∃ d, crash_image (file_ s) d ∧ map_of (content_records d) = m.

Definition fbs_ok s : Prop := ∃ rs tail, store_inv s rs tail.
Definition fbs_map s : gmap string bytes := map_of (store_records s).

Lemma clean_content s : fbs_clean s → content s = records (store_records s).
Proof. intros []. by rewrite (si_content _ _ _ fc_inv0), app_nil_r. Qed.

Lemma clean_records s : fbs_clean s → content_records (content s) = store_records s.
Proof.
  intros Hc. rewrite (clean_content s Hc) at 1. apply scan_of_encs. apply (fc_inv s Hc).
Qed.

Lemma map_of_new s rs key value tb :
  map_of (rs ++ [new_record s key value tb]) =
    if tb then delete key (map_of rs) else <[key := value]> (map_of rs).
Proof.
  rewrite map_of_snoc. unfold apply_record, record_key, is_tombstone, new_record.
  cbn [sr_key sr_tombstone sr_value]. rewrite bytes_str_bytes. by destruct tb.
Qed.

Lemma AppendRecord_images s key value tb f d :
  fbs_clean s → str_size key ≤ kMaxReasonableLength → zlen value ≤ kMaxReasonableLength →
  endOffset_ s < 2 ^ 63 →
  f ∈ AppendRecord_files s key value tb → crash_image f d →
  content_records d = store_records s ∨
  content_records d = store_records s ++ [new_record s key value tb].
Proof.
  rewrite AppendRecord_files_write_through. intros Hc Hk Hv Hend Hf Hd. apply write_through_files_upto in Hf.
  destruct (Hf d Hd) as (d0 & i & Hi & Hd0 & Hw).
  apply (fc_synced s Hc) in Hd0 as ->. pose proof (fc_inv s Hc) as Hinv.
  assert (to_int64 (endOffset_ s) = zlen (content s)) as Ee.
  { unfold to_int64. destruct (Z.ltb_spec (endOffset_ s) (2 ^ 63)); [|lia].
    by rewrite (clean_content s Hc), (si_end _ _ _ Hinv). }
  rewrite Ee, Z.add_0_l, write_at_end in Hw. rewrite Hw by lia. rewrite <- (clean_records s Hc).
  apply (scan_of_append_cut (parse:=parse_record) (enc:=rec_frame)); [|by eapply new_record_ok|done].
  unfold clean_log. fold (content_records (content s)). rewrite (clean_records s Hc).
  apply (clean_content s Hc).
Qed.

Lemma AppendRecord_contract s key value tb r s' :
  fbs_ok s → store_fits key value → AppendRecord s key value tb = (r, s') →
  let after := if tb then delete key (fbs_map s) else <[key := value]> (fbs_map s) in
  fbs_ok s' ∧
  fbs_map s' = (match r with Success _ => after | Failure _ => fbs_map s end) ∧
  (fbs_clean s → (r = Success tt → fbs_clean s') ∧
     ∀ m, fbs_images s' m → m = fbs_map s ∨ m = after).
Proof.
  intros (rs & tail & Hi) [Hk Hv] HA after. pose proof (store_inv_records _ _ _ Hi) as Hrs.
  pose proof (AppendRecord_inv _ _ _ _ _ _ _ _ Hi Hk Hv HA) as Hinv.
  assert (map_of (rs ++ [new_record s key value tb]) = after) as Hafter.
  { rewrite map_of_new. unfold after, fbs_map. by rewrite Hrs. }
  assert (fbs_map s = map_of rs) as Hm by (unfold fbs_map; by rewrite Hrs).
  assert (fbs_ok s' ∧ fbs_map s' = match r with Success _ => after | Failure _ => fbs_map s end)
    as [Hok' Hmap'].
  { destruct r as [[]|e].
    - destruct Hinv as [Hi' _]. split; [by eexists _, _|].
      unfold fbs_map at 1. by rewrite (store_inv_records _ _ _ Hi').
    - destruct Hinv as [tail' Hi']. split; [by eexists _, _|].
      unfold fbs_map at 1. by rewrite (store_inv_records _ _ _ Hi'). }
  split; [done|]. split; [done|]. intros Hc. split.
  - intros ->. destruct Hinv as [Hi' I]. pose proof (fc_inv s Hc) as Hi0. rewrite Hrs in Hi0.
    assert (tail = []) as ->.
    { pose proof (si_content _ _ _ Hi0) as E0. rewrite (si_content _ _ _ Hi), app_nil_r in E0.
      apply (app_inj_1 (records rs) (records rs) tail []); [done|by rewrite app_nil_r]. }
    rewrite drop_nil in Hi'. constructor; [|intros d; apply I].
    by rewrite (store_inv_records _ _ _ Hi').
  - intros m (d & Hd & <-). destruct (Z.lt_ge_cases (endOffset_ s) (2 ^ 63)) as [Hend|Hend].
    + assert (file_ s' = file_ (snd (AppendRecord s key value tb))) as Hs' by by rewrite HA.
      rewrite Hs' in Hd.
      destruct (AppendRecord_images s key value tb _ d Hc Hk Hv Hend
                  (AppendRecord_files_last s key value tb) Hd) as [-> | ->]; [by left|right].
      by rewrite Hrs.
    + left. rewrite AppendRecord_write_through in HA. cbv zeta in HA. unfold write_through in HA.
      pose proof (si_end_bound _ _ _ Hi) as Hb.
      destruct (Seek _ _ _) as [[p|e'] f1] eqn:Es.
      { destruct (Seek_int64 _ _ (endOffset_ s) _ ltac:(lia) Es). lia. }
      injection HA as _ <-. cbn in Hd. destruct (Seek_spec _ _ _ _ _ Es) as (_ & I & _).
      apply I, (fc_synced s Hc) in Hd as ->. unfold fbs_map. by rewrite (clean_records s Hc).
Qed.

(** On a device without errors the append works, or the file has no room for
    the record and the call is refused before anything is written. *)
Lemma AppendRecord_works s key value tb r s' :
  fbs_clean s → reliable (file_ s) → store_fits key value → AppendRecord s key value tb = (r, s') →
  reliable (file_ s') ∧
  (r = Success tt ∨
   ∃ err, r = Failure err ∧ s' = with_file s (file_ s') ∧ file_content (file_ s') = content s ∧
          ∀ f d, f ∈ AppendRecord_files s key value tb → crash_image f d → crash_image (file_ s) d).
Proof.
  intros Hc Hrel [Hk Hv] HA. pose proof (new_record_ok _ _ _ key value tb (fc_inv s Hc) Hk Hv) as Hnr.
  rewrite AppendRecord_write_through in HA. cbv zeta in HA. unfold write_through in HA.
  rewrite AppendRecord_files_write_through. unfold write_through_files.
  change (frame _ _ _ _) with (rec_frame (new_record s key value tb)) in HA.
  destruct (Seek (file_ s) _ false) as [sr f1] eqn:Es. destruct (Seek_spec _ _ _ _ _ Es) as (C & I & _).
  pose proof (reliable_Seek_any _ _ _ _ _ Hrel Es) as Hr1. destruct sr as [p|err].
  - destruct (reliable_Write f1 (rec_frame (new_record s key value tb)) Hr1) as (f2 & Ew & Hr2).
    { rewrite zlen_rec_frame. pose proof (record_size_bound _ Hnr). unfold io_limit. lia. }
    rewrite Ew, Z.eqb_refl in HA. cbn [negb] in HA.
    destruct (reliable_FlushDurable f2 Hr2) as (f3 & Ef & Hr3). rewrite Ef in HA.
    injection HA as <- <-. split; [done|by left].
  - injection HA as <- <-. split; [done|]. right. exists err. split; [done|]. split; [done|]. split; [done|].
    intros f d [->|[->|Hf%not_elem_of_nil]%elem_of_cons]%elem_of_cons; [done| |done]. apply I.
Qed.

Lemma AppendRecord_reliable s key value tb r s' :
  fbs_clean s → reliable (file_ s) → store_fits key value → AppendRecord s key value tb = (r, s') →
  fbs_clean s' ∧ reliable (file_ s').
Proof.
  intros Hc Hrel Hfit HA. destruct (AppendRecord_works _ _ _ _ _ _ Hc Hrel Hfit HA) as [Hr' Hor].
  split; [|done]. destruct Hor as [->|(err & -> & Hs & Cs & Hi)].
  - destruct (AppendRecord_contract s key value tb (Success tt) s') as (_ & _ & Hcl); [|done..|].
    { eexists _, _. apply Hc. }
    by apply Hcl.
  - pose proof (AppendRecord_files_last s key value tb) as Hl. rewrite HA in Hl. cbn [snd] in Hl.
    rewrite Hs. destruct Hc as [[] Hsync]. unfold store_records in *. constructor.
    + constructor; unfold store_records; cbn; rewrite ?Cs; done.
    + intros d Hd. cbn. rewrite Cs. apply Hsync. by apply (Hi (file_ s')).
Qed.

(** A power cut while it is under way leaves the map before or the map after. *)
Lemma AppendRecord_cut s key value tb f d :
  fbs_clean s → reliable (file_ s) → store_fits key value →
  f ∈ AppendRecord_files s key value tb → crash_image f d →
  map_of (content_records d) = fbs_map s ∨
  map_of (content_records d) = fbs_map (snd (AppendRecord s key value tb)).
Proof.
  intros Hc Hrel Hfit Hf Hd. destruct (AppendRecord s key value tb) as [r s'] eqn:HA. cbn [snd].
  destruct (AppendRecord_works _ _ _ _ _ _ Hc Hrel Hfit HA) as [_ [->|(err & -> & _ & _ & Hi)]].
  - pose proof Hc as [Hinv _]. destruct Hfit as [Hk Hv].
    assert (fbs_ok s) as Hok by (eexists _, _; apply Hinv).
    destruct (AppendRecord_contract s key value tb _ _ Hok (conj Hk Hv) HA) as (_ & Hm & _).
    rewrite AppendRecord_write_through in HA. cbv zeta in HA.
    destruct (write_through _ _ _ _ _) as [[[]|e] f1] eqn:E; [|done].
    destruct (write_through_seek _ _ _ _ _ E) as (p & f2 & Es). pose proof (si_end_bound _ _ _ Hinv) as Hb.
    destruct (Seek_int64 _ _ (endOffset_ s) _ ltac:(lia) Es) as [Hlt _].
    destruct (AppendRecord_images s key value tb f d Hc Hk Hv Hlt Hf Hd) as [-> | ->]; [by left|right].
    by rewrite Hm, map_of_new.
  - left. apply (Hi f d Hf), (fc_synced s Hc) in Hd as ->. unfold fbs_map. by rewrite (clean_records s Hc).
Qed.

Lemma fbs_Contains s rs tail k :
  store_inv s rs tail → Contains s k = bool_decide (is_Some (map_of rs !! k)).
Proof.
  intros Hi. unfold Contains. rewrite (si_index _ _ _ Hi).
  pose proof (index_of_lookup rs k) as Hl. destruct (index_of rs !! k) as [e|].
  - destruct Hl as (pre & r & post & _ & _ & _ & -> & ->). by destruct (is_tombstone r).
  - by rewrite Hl.
Qed.

Lemma fbs_EntryCount s rs tail :
  store_inv s rs tail → EntryCount s = Z.of_nat (size (map_of rs)).
Proof.
  intros Hi. unfold EntryCount. f_equal. rewrite <- !size_dom. f_equal.
  apply set_eq. intros k. rewrite !elem_of_dom.
  pose proof (index_of_lookup rs k) as Hl. rewrite (si_index _ _ _ Hi).
  rewrite <- !not_eq_None_Some.
  destruct (index_of rs !! k) as [e|] eqn:Ei.
  - destruct Hl as (pre & r & post & _ & _ & _ & Ht & ->).
    destruct (is_tombstone r).
    + rewrite map_lookup_filter_None_2; [done|]. right. intros e' He'. rewrite Ei in He'.
      injection He' as <-. cbn. by rewrite Ht.
    + rewrite (map_lookup_filter_Some_2 _ _ _ e); done.
  - rewrite Hl, map_lookup_filter_None_2; [done|by left].
Qed.

Lemma FileBackingStore_Get_contract s k r s' :
  fbs_ok s → Get s k = (r, s') →
  fbs_ok s' ∧ fbs_map s' = fbs_map s ∧ (fbs_clean s → fbs_clean s') ∧
  (fbs_map s !! k = None → ∃ e, r = Failure e ∧ code e = ErrorCode.NotFound) ∧
  (∀ v, r = Success v → fbs_map s !! k = Some v) ∧
  (reliable (file_ s) → reliable (file_ s') ∧ ∀ v, fbs_map s !! k = Some v → r = Success v).
Proof.
  intros (rs & tail & Hi) HG. destruct (Get_inv _ _ _ _ _ _ Hi HG) as (Hi' & I & Hn & Hs & Hr).
  unfold fbs_map. rewrite (store_inv_records _ _ _ Hi), (store_inv_records _ _ _ Hi').
  split; [by eexists _, _|]. split; [done|]. split.
  - intros [Hc Hsync]. rewrite (store_inv_records _ _ _ Hi) in Hc.
    pose proof (si_content _ _ _ Hc) as E0. pose proof (si_content _ _ _ Hi) as E1.
    assert (tail = []) as ->.
    { rewrite E0 in E1. by apply app_inv_head in E1. }
    constructor; [by rewrite (store_inv_records _ _ _ Hi')|].
    intros d Hd. apply I, Hsync in Hd as ->. by rewrite (si_content _ _ _ Hi'), E0.
  - split; [|done]. intros E. rewrite (Hn E). by eexists.
Qed.

#[export] Program Instance FileBackingStore_Spec : BackingStoreSpec (FileBackingStore F) := {
  store_ok := fbs_ok;
  store_clean := fbs_clean;
  store_reliable s := reliable (file_ s);
  store_map := fbs_map;
  store_images := fbs_images
}.
Next Obligation.
  intros s Hc. exists (content s). split; [apply crash_image_self|].
  unfold fbs_map. by rewrite (clean_records s Hc).
Qed.
Next Obligation. intros s []. by eexists _, _. Qed.
Next Obligation.
  intros s m Hc (d & Hd & <-). apply (fc_synced s Hc) in Hd as ->.
  unfold fbs_map. by rewrite (clean_records s Hc).
Qed.
Next Obligation. intros. by apply FileBackingStore_Get_contract. Qed.
Next Obligation. intros s k v r s' Hok Hfit E. exact (AppendRecord_contract _ _ _ _ _ _ Hok Hfit E). Qed.
Next Obligation.
  intros s k r s' Hok Hfit E. cbn in E. pose proof Hok as (rs & tail & Hi).
  assert (fbs_map s !! k = None → (r, s') = (Success tt, s) →
    fbs_ok s' ∧ fbs_map s' = match r with Success _ => delete k (fbs_map s) | Failure _ => fbs_map s end ∧
    (fbs_clean s → (r = Success tt → fbs_clean s') ∧
       ∀ m, fbs_images s' m → m = fbs_map s ∨ m = delete k (fbs_map s))) as Hnone.
  { intros Hn [= -> ->]. rewrite delete_id by done. split; [done|]. split; [done|].
    intros Hc. split; [done|]. intros m (d & Hd & <-). left.
    apply (fc_synced s Hc) in Hd as ->. unfold fbs_map. by rewrite (clean_records s Hc). }
  unfold fbs_map in Hnone at 1. rewrite (store_inv_records _ _ _ Hi) in Hnone.
  unfold Remove in E. pose proof (index_of_lookup rs k) as Hl.
  rewrite (si_index _ _ _ Hi) in E. destruct (index_of rs !! k) as [e|]; [|by apply Hnone].
  destruct Hl as (pre & r0 & post & _ & _ & _ & Ht & Hm). destruct (tombstone e).
  - apply Hnone; [by rewrite Hm, <- Ht|done].
  - exact (AppendRecord_contract _ _ _ true _ _ Hok Hfit E).
Qed.
Next Obligation. intros s k v r s' Hc Hr Hfit E. exact (AppendRecord_reliable _ _ _ _ _ _ Hc Hr Hfit E). Qed.
Next Obligation.
  intros s k r s' Hc Hr Hfit E. cbn in E. unfold Remove in E.
  destruct (index_ s !! k) as [[off []]|]; [by injection E as _ <-| |by injection E as _ <-].
  exact (AppendRecord_reliable _ _ _ true _ _ Hc Hr Hfit E).
Qed.
Next Obligation.
  intros s k (rs & tail & Hi). etrans; [apply (fbs_Contains _ _ _ _ Hi)|].
  unfold fbs_map. by rewrite (store_inv_records _ _ _ Hi).
Qed.
Next Obligation.
  intros s (rs & tail & Hi). etrans; [apply (fbs_EntryCount _ _ _ Hi)|].
  unfold fbs_map. by rewrite (store_inv_records _ _ _ Hi).
Qed.
End contract.

(** ** Properties *)
Section properties.
Context {F : Type} `{IFileSpec F}.
Implicit Types s : FileBackingStore F.

(** C27: [Put] then restart.  From a clean store, a successful [Put] maps the
    key to the value and nothing else; a store reopened on any content a
    power cut can leave, on a device without errors, opens successfully and
    holds that same map. *)
Theorem Put_durable s key value s' f r s2 :
  fbs_clean s → store_fits key value → Put s key value = (Success tt, s') →
  reliable f → crash_image (file_ s') (file_content f) → zlen (file_content f) < 2 ^ 63 →
  Initialize (mkStore f ∅ 0 0) = (r, s2) →
  fbs_map s' = <[key := value]> (fbs_map s) ∧
  r = Success tt ∧ fbs_map s2 = <[key := value]> (fbs_map s).
Proof.
  intros Hc Hfit HP Hf Hd Hlt HI.
  assert (fbs_ok s) as Hok by (destruct Hc; by eexists _, _).
  destruct (AppendRecord_contract _ _ _ false _ _ Hok Hfit HP) as (_ & Hm & Hcl).
  destruct (Hcl Hc) as [Hc' _]. specialize (Hc' eq_refl). split; [done|].
  destruct (Initialize_inv (mkStore f ∅ 0 0) r s2) as [_ HR]; [done|done|done|].
  destruct (HR Hf) as (-> & Hi & _). split; [done|].
  unfold fbs_map at 1. rewrite (store_inv_records _ _ _ Hi). cbn [file_].
  apply (fc_synced s' Hc') in Hd. by rewrite Hd, (clean_records s' Hc').
Qed.

(** A [Put] or [Remove] is atomic under power cuts: at whatever step of
    the append the power fails, what is left holds the old records, or the
    old records and the new one. *)
Theorem AppendRecord_crash_atomic s key value tb f d :
  fbs_clean s → store_fits key value → endOffset_ s < 2 ^ 63 →
  f ∈ AppendRecord_files s key value tb → crash_image f d →
  content_records d = store_records s ∨
  content_records d = store_records s ++ [new_record s key value tb].
Proof. intros Hc [Hk Hv]. by apply AppendRecord_images. Qed.

(** [Get] is lookup.  It answers [NotFound] for a key the store does not
    hold; a value it returns is the value of the key, on any faults; on a
    device without errors it returns the value of every key the store holds;
    and it changes nothing. *)
Theorem Get_is_lookup s k r s' :
  fbs_ok s → Get s k = (r, s') →
  fbs_ok s' ∧ fbs_map s' = fbs_map s ∧
  (fbs_map s !! k = None → r = not_found k) ∧
  (∀ v, r = Success v → fbs_map s !! k = Some v) ∧
  (reliable (file_ s) → ∀ v, fbs_map s !! k = Some v → r = Success v).
Proof.
  intros (rs & tail & Hi) HG. destruct (Get_inv _ _ _ _ _ _ Hi HG) as (Hi' & _ & Hn & Hs & Hr).
  unfold fbs_map. rewrite (store_inv_records _ _ _ Hi), (store_inv_records _ _ _ Hi').
  split; [by eexists _, _|]. split; [done|]. split; [done|]. split; [done|]. intros Hrel. by apply Hr.
Qed.

(** C28: the start-up scan rebuilds the store.  On any device, whatever its
    calls answer, the scan comes to its end, in at most as many turns as the
    file has bytes; a store that opens holds records that stand at the front of
    the file; one that does not is refused with the error of the seek, of the
    cut or of the flush, never for a read.  On a device without errors it
    opens, holds all the records, and the file is cut to them; of a file on
    stable storage it makes a store that nothing acknowledged later is lost
    from. *)
Theorem Initialize_rebuilds f r s' :
  zlen (file_content f) < 2 ^ 63 → Initialize (mkStore f ∅ 0 0) = (r, s') →
  (∀ p f1, Seek f 0 false = (Success p, f1) →
     ∃ index validEnd mx f2, init_loop (S (length (file_content f))) f1 ∅ 0 0 = Some (index, validEnd, mx, f2)) ∧
  (r = Success tt → ∃ rs, rs `prefix_of` content_records (file_content f) ∧
                          fbs_ok s' ∧ fbs_map s' = map_of rs) ∧
  (∀ e, r = Failure e → ∃ f1, Seek f 0 false = (Failure e, f1) ∨
     ∃ f2 n, SetLength f1 n = (Failure e, f2) ∨ FlushDurable f1 = (Failure e, f2)) ∧
  (reliable f → r = Success tt ∧
     fbs_map s' = map_of (content_records (file_content f)) ∧
     file_content (file_ s') = records (content_records (file_content f)) ∧
     ((∀ d, crash_image f d → d = file_content f) → fbs_clean s')).
Proof.
  intros Hlt HI. pose proof (λ p f1, init_loop_ends f p f1 Hlt) as Hend.
  destruct (Initialize_inv (mkStore f ∅ 0 0) r s') as [HS HR]; [done..|]. split; [exact Hend|]. split; [|split].
  - intros ->. destruct (HS eq_refl) as (rs & tail & Hp & Hi). exists rs.
    split; [done|]. split; [by eexists _, _|]. unfold fbs_map. by rewrite (store_inv_records _ _ _ Hi).
  - intros e ->. clear HS HR. unfold Initialize in HI. cbn [file_ index_] in HI.
    destruct (Seek f 0 false) as [[p|e1] f1] eqn:E1; [|injection HI as <- _; by exists f1; left].
    unfold init_fuel in HI. destruct (Seek_spec _ _ _ _ _ E1) as (C1 & _). rewrite C1 in HI.
    destruct (Hend p f1 eq_refl) as (index & validEnd & mx & f2 & E2). rewrite E2 in HI. cbn [file_] in HI.
    destruct (Size f2) as [[size|e3] f3]; [|done]. destruct (negb _); [|done]. 
    destruct (SetLength f3 validEnd) as [[u|e4] f4] eqn:E4; [|injection HI as <- _; exists f3; right; eauto].
    destruct (FlushDurable f4) as [[v|e5] f5] eqn:E5; [done|]. injection HI as <- _. exists f4; right. exists f5, 0. by right.
  - intros Hrel. destruct (HR Hrel) as (-> & Hi & _ & Hd). split; [done|].
    unfold fbs_map. rewrite (store_inv_records _ _ _ Hi). split; [done|].
    split; [by rewrite (si_content _ _ _ Hi), app_nil_r|]. intros Hsync. constructor; [|by apply Hd].
    by rewrite (store_inv_records _ _ _ Hi).
Qed.
End properties.

(** One failed read at start-up destroys the store.  The scan takes a
    failed read for a torn tail; when the first [fread] fails, once, and every
    later call works, [Initialize] succeeds, and has truncated a file of any
    content to nothing, on stable storage. *)
Theorem Initialize_read_fault_destroys (c : bytes) :
  c ≠ [] →
  let '(r, s') := Initialize (mkStore (mkFILE c [] 0 false [None; None; Some 0%nat]) ∅ 0 0) in
  r = Success tt ∧ stable (file_ s') = [] ∧ fbs_map s' = ∅.
Proof.
  intros Hc. set (f0 := mkFILE c [] 0 false [None; None; Some 0%nat]).
  assert (Seek f0 0 false = (Success 0, mkFILE c [] 0 false [Some 0%nat])) as E1 by done.
  assert (read_record ReadExact (mkFILE c [] 0 false [Some 0%nat]) = (None, mkFILE c [] 0 true [])) as E2 by done.
  unfold Initialize. cbn [file_]. rewrite E1. unfold init_fuel. cbn [init_loop]. rewrite E2. cbn [file_ index_].
  assert (∃ p, Size (mkFILE c [] 0 true []) = (Success (zlen c), mkFILE c [] p true [])) as [p E3].
  { exists 0%N. unfold Size, PortableFile_IFile, PortableFile.Size, std_ftell, std_fseek.
    pose proof (zlen_nonneg c). cbn [next_fault faults].
    change (FILE_content _) with c. rewrite Z.add_0_r.
    destruct (Z.ltb_spec (zlen c) 0); [lia|]. unfold with_pos, fpos_Z.
    cbn [next_fault faults fpos stable unsynced errflag]. rewrite Z2N.id by done.
    destruct (Z.ltb_spec (zlen c) 0); [lia|]. done. }
  rewrite E3. destruct (Z.eqb_spec (zlen c) 0) as [Hz|_]; cbn [negb].
  { destruct c; [done|]. rewrite zlen_cons in Hz. pose proof (zlen_nonneg c). lia. }
  assert (SetLength (mkFILE c [] p true []) 0 = (Success tt, mkFILE c [OpLength 0] 0 true [])) as -> by done.
  assert (FlushDurable (mkFILE c [OpLength 0] 0 true []) =
          (Success tt, mkFILE (set_length c 0) [] 0 true [])) as -> by done.
  split; [done|]. split; [by destruct c|]. done.
Qed.
