(* ===== verification/Shard.v ===== *)
(** * Shard: one shard of the cache

    Models the data and the functions of src/src/CoreEngine/src/CacheEngine.cpp
    that work on one shard under its mutex: [Entry], [Shard], the insertion and
    update of an entry, the eviction loop, and the changes of an entry's dirty
    state; the enumerations and [CacheStatistics] come from CacheTypes.h.

    [std::list] is a list of nodes with a name each, the iterators of the
    index being those names, so that a dangling iterator could be seen;
    [shard_ok] is the well-formedness invariant and says there is none. *)
From S2P Require Import Prelude Common.
Open Scope Z_scope.

(** ** CacheTypes.h *)

Module EntryDirtyState.
Inductive EntryDirtyState := Clean | Dirty | FlushInProgress.

#[global] Instance EntryDirtyState_eq_dec : EqDecision EntryDirtyState.
Proof. solve_decision. Defined.

Definition EntryDirtyState_ToString (s : EntryDirtyState) : string :=
  match s with
  | Clean => "Clean" | Dirty => "Dirty" | FlushInProgress => "FlushInProgress"
  end.
End EntryDirtyState.
Import EntryDirtyState.

Record CacheEntryInfo := mkCacheEntryInfo {
  info_key : string; info_version : Z; info_sizeBytes : Z; info_dirtyState : EntryDirtyState
}.

Module WritePolicyKind.
Inductive WritePolicyKind := WriteThrough | WriteBackDeferred.
End WritePolicyKind.

Module FlushPolicyKind.
Inductive FlushPolicyKind := Manual | PeriodicBackground.
End FlushPolicyKind.

(** The event counters of the engine ([hitCount_] and the rest). *)
Record Counters := mkCounters {
  hitCount : Z; missCount : Z; insertCount : Z; updateCount : Z;
  invalidationCount : Z; evictionCount : Z; flushSuccessCount : Z; flushFailureCount : Z
}.

Definition Counters_zero : Counters := mkCounters 0 0 0 0 0 0 0 0.

(** [fetch_add(1)] on one of them. *)
Inductive Counter := Hit | Miss | Insert | Update | Invalidation | Eviction | FlushSuccess | FlushFailure.

Definition bump (c : Counter) (n : Counters) : Counters :=
  let '(mkCounters h m i u v e s f) := n in
  match c with
  | Hit => mkCounters (wrap64 (h + 1)) m i u v e s f
  | Miss => mkCounters h (wrap64 (m + 1)) i u v e s f
  | Insert => mkCounters h m (wrap64 (i + 1)) u v e s f
  | Update => mkCounters h m i (wrap64 (u + 1)) v e s f
  | Invalidation => mkCounters h m i u (wrap64 (v + 1)) e s f
  | Eviction => mkCounters h m i u v (wrap64 (e + 1)) s f
  | FlushSuccess => mkCounters h m i u v e (wrap64 (s + 1)) f
  | FlushFailure => mkCounters h m i u v e s (wrap64 (f + 1))
  end.

(** ** CacheEngine.cpp: Entry, Shard *)

Definition kEntryOverheadBytes : Z := 64.

Record Entry := mkEntry { key : string; value : bytes; version : Z; dirtyState : EntryDirtyState }.

Definition SizeBytes (e : Entry) : Z := wrap64 (str_size (key e) + zlen (value e) + kEntryOverheadBytes).

(** The name of a node of the list: what an iterator is. *)
Definition iterator : Type := nat.
Abbreviation LruList := (list (iterator * Entry)).

Record Shard := mkShard {
  lru : LruList;
  index : gmap string iterator;
  currentBytes : Z;
  dirtyBytes : Z;
  mutationFence : Z;
  dirtyCount : Z
}.

Definition Shard_empty : Shard := mkShard [] ∅ 0 0 0 0.

(** *** std::list *)

Fixpoint deref (it : iterator) (l : LruList) : option Entry :=
  match l with
  | [] => None
  | (i, e) :: l => if decide (i = it) then Some e else deref it l
  end.

Definition erase (it : iterator) (l : LruList) : LruList := filter (λ n, fst n ≠ it) l.

(** [lru.splice(lru.begin(), lru, it)]. *)
Definition splice_front (it : iterator) (l : LruList) : LruList :=
  match deref it l with Some e => (it, e) :: erase it l | None => l end.

(** An assignment through an iterator. *)
Definition assign (it : iterator) (f : Entry → Entry) (l : LruList) : LruList :=
  map (λ n, if decide (fst n = it) then (fst n, f (snd n)) else n) l.

Definition fresh_node (l : LruList) : iterator := infinite_fresh (map fst l).

(** [index.find(key)], with the entry the iterator found points to. *)
Definition find (s : Shard) (k : string) : option (iterator * Entry) :=
  match index s !! k with
  | None => None
  | Some it => match deref it (lru s) with Some e => Some (it, e) | None => None end
  end.

(** *** The operations under the shard mutex *)

Definition is_clean (e : Entry) : bool := bool_decide (dirtyState e = Clean).

(** The removal both [InsertOrUpdateLocked] and [InvalidateImpl] perform. *)
Definition unlink (s : Shard) (it : iterator) (e : Entry) : Shard :=
  mkShard (erase it (lru s)) (delete (key e) (index s))
          (wrap64 (currentBytes s - SizeBytes e))
          (if is_clean e then dirtyBytes s else wrap64 (dirtyBytes s - SizeBytes e))
          (mutationFence s)
          (if is_clean e then dirtyCount s else wrap64 (dirtyCount s - 1)).

Definition link_front (s : Shard) (e : Entry) : Shard :=
  let it := fresh_node (lru s) in
  mkShard ((it, e) :: lru s) (<[key e := it]> (index s))
          (wrap64 (currentBytes s + SizeBytes e))
          (if is_clean e then dirtyBytes s else wrap64 (dirtyBytes s + SizeBytes e))
          (mutationFence s)
          (if is_clean e then dirtyCount s else wrap64 (dirtyCount s + 1)).

Definition move_fence (s : Shard) : Shard :=
  mkShard (lru s) (index s) (currentBytes s) (dirtyBytes s) (wrap64 (mutationFence s + 1)) (dirtyCount s).

Definition touch (s : Shard) (it : iterator) : Shard :=
  mkShard (splice_front it (lru s)) (index s) (currentBytes s) (dirtyBytes s) (mutationFence s) (dirtyCount s).

Definition index_size (s : Shard) : Z := Z.of_nat (size (index s)).

Section capacity.
(** [perShardCapacityBytes_], [perShardMaxEntries_]. *)
Context (perShardCapacityBytes perShardMaxEntries : Z).

Definition over_budget (s : Shard) : bool :=
  (perShardCapacityBytes <? currentBytes s) || (perShardMaxEntries <? index_size s).

(** The search from the back for a node that satisfies [p]. *)
Definition find_from_back (p : Entry → bool) (l : LruList) : option (iterator * Entry) :=
  head (filter (λ n, p (snd n) = true) (rev l)).

Definition evict_node (s : Shard) (it : iterator) (e : Entry) : Shard :=
  mkShard (erase it (lru s)) (delete (key e) (index s)) (wrap64 (currentBytes s - SizeBytes e))
          (dirtyBytes s) (mutationFence s) (dirtyCount s).

Fixpoint evict_loop (fuel : nat) (s : Shard) (n : Counters) : Shard * Counters :=
  match fuel with
  | O => (s, n)
  | S fuel =>
    if over_budget s && (dirtyCount s <? index_size s) then
      match find_from_back is_clean (lru s) with
      | None => (s, n)
      | Some (it, e) => evict_loop fuel (evict_node s it e) (bump Eviction n)
      end
    else (s, n)
  end.

(** The fuel: every turn that goes on removes a node. *)
Definition EvictCleanEntriesLocked (s : Shard) (n : Counters) : Shard * Counters :=
  evict_loop (S (length (lru s))) s n.

(** The second half of [InsertOrUpdateLocked], once the old entry is gone. *)
Definition insert_entry (s : Shard) (n : Counters) (c : Counter) (e : Entry) (enforceCapacity : bool)
    : Shard * Counters :=
  let s := link_front s e in
  let n := bump c n in
  let s := move_fence s in
  if enforceCapacity then EvictCleanEntriesLocked s n else (s, n).

Definition InsertOrUpdateLocked (s : Shard) (n : Counters) (k : string) (v : bytes) (ver : Z)
    (state : EntryDirtyState) (enforceCapacity : bool) : Shard * Counters :=
  match find s k with
  | Some (it, e) =>
    if (ver <=? version e) && negb ((ver =? 0) && (version e =? 0)) then (s, n)
    else insert_entry (unlink s it e) n Update (mkEntry k v ver state) enforceCapacity
  | None => insert_entry s n Insert (mkEntry k v ver state) enforceCapacity
  end.
End capacity.

Definition with_state (st : EntryDirtyState) (e : Entry) : Entry :=
  mkEntry (key e) (value e) (version e) st.

(** [it->second->dirtyState = st]. *)
Definition set_state (s : Shard) (it : iterator) (st : EntryDirtyState) : Shard :=
  mkShard (assign it (with_state st) (lru s)) (index s) (currentBytes s) (dirtyBytes s)
          (mutationFence s) (dirtyCount s).

Definition RevertFlushInProgressLocked (s : Shard) (k : string) (ver : Z) : Shard :=
  match find s k with
  | Some (it, e) =>
    if (version e =? ver) && bool_decide (dirtyState e = FlushInProgress) then set_state s it Dirty else s
  | None => s
  end.

(** The first locked block of [FlushKey]: [inl] where it returns at once. *)
Definition flush_begin (s : Shard) (k : string) (expectedVersion : Z) (checkVersion : bool)
    : (Result unit + bytes * Z) * Shard :=
  match find s k with
  | None =>
    (inl (Failure (mkError ErrorCode.NotFound (String.append "key not present in cache: " k) 0)), s)
  | Some (it, e) =>
    if checkVersion && negb (version e =? expectedVersion) then (inl (Success tt), s)
    else
      match dirtyState e with
      | Clean => (inl (Success tt), s)
      | FlushInProgress => (inl (Success tt), s)
      | Dirty => (inr (value e, version e), set_state s it FlushInProgress)
      end
  end.

(** The last one. *)
Definition flush_commit (s : Shard) (k : string) (ver : Z) : Shard :=
  match find s k with
  | Some (it, e) =>
    if (version e =? ver) && bool_decide (dirtyState e = FlushInProgress) then
      let s := set_state s it Clean in
      mkShard (lru s) (index s) (currentBytes s) (wrap64 (dirtyBytes s - SizeBytes e)) (mutationFence s)
              (wrap64 (dirtyCount s - 1))
    else s
  | None => s
  end.

(** The last locked block of [InvalidateImpl]. *)
Definition invalidate_commit (s : Shard) (k : string) (entryVersion : Z) : Shard :=
  move_fence
    match find s k with
    | Some (it, e) => if version e =? entryVersion then unlink s it e else s
    | None => s
    end.

(** ** Well-formed shards *)

Abbreviation entries l := (map snd l : list Entry).
Definition is_dirty (e : Entry) : bool := negb (is_clean e).
Definition dirty_entries (l : list Entry) : list Entry := filter (λ e, is_dirty e = true) l.

Record shard_ok (s : Shard) : Prop := {
  so_nodes : NoDup (map fst (lru s));
  so_keys : NoDup (map key (entries (lru s)));
  so_index k it : index s !! k = Some it ↔ ∃ e, (it, e) ∈ lru s ∧ key e = k;
  so_bytes : currentBytes s = wrap64 (zsum SizeBytes (entries (lru s)));
  so_dirtyBytes : dirtyBytes s = wrap64 (zsum SizeBytes (dirty_entries (entries (lru s))));
  so_dirtyCount : dirtyCount s = wrap64 (zlen (dirty_entries (entries (lru s))))
}.

Lemma Shard_empty_ok : shard_ok Shard_empty.
Proof.
  constructor; [constructor|constructor| |done..].
  intros k it. cbn. rewrite lookup_empty. split; [done|].
  intros (e & He & _). by apply not_elem_of_nil in He.
Qed.

(** Nodes. *)
Lemma deref_mid (l1 : LruList) it e l2 : it ∉ map fst l1 → deref it (l1 ++ (it, e) :: l2) = Some e.
Proof.
  induction l1 as [|[i x] l1 IH]; intros Hn; cbn in *.
  - by rewrite decide_True.
  - apply not_elem_of_cons in Hn as [Hne Hn]. rewrite decide_False by congruence. by apply IH.
Qed.

Lemma deref_Some it (l : LruList) e : deref it l = Some e → (it, e) ∈ l.
Proof.
  induction l as [|[i x] l IH]; cbn; [done|]. destruct (decide (i = it)) as [->|].
  - intros [= ->]. constructor.
  - intros E. constructor. by apply IH.
Qed.

Lemma node_split (l : LruList) it e :
  NoDup (map fst l) → (it, e) ∈ l →
  ∃ l1 l2 : LruList, l = (l1 ++ (it, e) :: l2) ∧ (it ∉ map fst l1) ∧ (it ∉ map fst l2).
Proof.
  intros Hnd Hin. apply list_elem_of_split in Hin as (l1 & l2 & ->). exists l1, l2. split; [done|].
  rewrite map_app in Hnd. cbn in Hnd. apply NoDup_app in Hnd as (_ & Hd & Hnd).
  apply NoDup_cons in Hnd as [Hn _]. split; [|done]. intros Hin. apply (Hd it Hin). constructor.
Qed.

Lemma deref_elem (l : LruList) it e : NoDup (map fst l) → (it, e) ∈ l → deref it l = Some e.
Proof.
  intros Hnd Hin. destruct (node_split _ _ _ Hnd Hin) as (l1 & l2 & -> & Hn & _). by apply deref_mid.
Qed.

Lemma erase_notin it (l : LruList) : it ∉ map fst l → erase it l = l.
Proof.
  unfold erase. induction l as [|[i x] l IH]; [done|]. intros Hn.
  apply not_elem_of_cons in Hn as [Hne Hn]. cbn in Hne.
  rewrite filter_cons_True by (cbn; congruence). by rewrite IH.
Qed.

Lemma erase_mid (l1 : LruList) it e l2 :
  it ∉ map fst l1 → it ∉ map fst l2 → erase it (l1 ++ (it, e) :: l2) = l1 ++ l2.
Proof.
  intros H1 H2. pose proof (erase_notin it l1 H1) as E1. pose proof (erase_notin it l2 H2) as E2.
  unfold erase in *. rewrite filter_app, filter_cons_False by (cbn; congruence). by rewrite E1, E2.
Qed.

Lemma assign_notin it f (l : LruList) : it ∉ map fst l → assign it f l = l.
Proof.
  unfold assign. induction l as [|[i x] l IH]; [done|]. cbn. intros Hn.
  apply not_elem_of_cons in Hn as [Hne Hn]. rewrite decide_False by congruence. by rewrite IH.
Qed.

Lemma assign_mid (l1 : LruList) it e l2 f :
  it ∉ map fst l1 → it ∉ map fst l2 →
  assign it f (l1 ++ (it, e) :: l2) = l1 ++ (it, f e) :: l2.
Proof.
  intros H1 H2. pose proof (assign_notin it f l1 H1) as E1. pose proof (assign_notin it f l2 H2) as E2.
  unfold assign in *. rewrite map_app. cbn. rewrite decide_True by done. by rewrite E1, E2.
Qed.

(** The lookup of a well-formed shard. *)
Lemma find_Some s k it e : shard_ok s → find s k = Some (it, e) ↔ (it, e) ∈ lru s ∧ key e = k.
Proof.
  intros Hs. unfold find. split.
  - destruct (index s !! k) as [i|] eqn:Ei; [|done].
    apply (so_index s Hs) in Ei as (e' & Hin & Hk).
    rewrite (deref_elem _ _ _ (so_nodes s Hs) Hin). by intros [= <- <-].
  - intros [Hin Hk]. assert (index s !! k = Some it) as -> by (apply (so_index s Hs); eauto).
    by rewrite (deref_elem _ _ _ (so_nodes s Hs) Hin).
Qed.

Lemma find_None s k : shard_ok s → find s k = None ↔ index s !! k = None.
Proof.
  intros Hs. unfold find. destruct (index s !! k) as [i|] eqn:Ei; [|done].
  apply (so_index s Hs) in Ei as (e' & Hin & Hk).
  by rewrite (deref_elem _ _ _ (so_nodes s Hs) Hin).
Qed.

Lemma find_None_notin s k : shard_ok s → find s k = None ↔ k ∉ map key (entries (lru s)).
Proof.
  intros Hs. rewrite find_None by done. split.
  - intros Hn Hin. apply list_elem_of_In, in_map_iff in Hin as (e & Hk & Hin).
    apply in_map_iff in Hin as ([it e'] & He & Hin). cbn in He. subst e'.
    assert (index s !! k = Some it) as E; [|congruence].
    apply (so_index s Hs). exists e. split; [by apply list_elem_of_In|done].
  - intros Hn. destruct (index s !! k) as [it|] eqn:Ei; [exfalso|done].
    apply (so_index s Hs) in Ei as (e & Hin & Hk). apply Hn.
    apply list_elem_of_In, in_map_iff. exists e. split; [done|].
    apply in_map_iff. exists (it, e). split; [done|by apply list_elem_of_In].
Qed.

Lemma index_size_lru s : shard_ok s → index_size s = zlen (lru s).
Proof.
  intros Hs. unfold index_size, zlen. f_equal.
  assert (NoDup (map (λ n, (key (snd n), fst n)) (lru s)).*1) as Hnd.
  { pose proof (so_keys s Hs) as Hk. rewrite map_map in Hk.
    by rewrite <- list_fmap_compose. }
  assert (index s = list_to_map (map (λ n, (key (snd n), fst n)) (lru s))) as ->.
  { apply map_eq. intros k. apply option_eq. intros it.
    rewrite (so_index s Hs), <- elem_of_list_to_map by done.
    rewrite list_elem_of_In, in_map_iff. split.
    - intros (e & Hin & <-). exists (it, e). split; [done|by apply list_elem_of_In].
    - intros ([i e] & [= <- <-] & Hin). exists e. split; [by apply list_elem_of_In|done]. }
  rewrite <- size_dom, dom_list_to_map, size_list_to_set by done.
  by rewrite length_fmap, length_map.
Qed.

(** Sums and counts over a list with an entry in the middle. *)
Lemma zsum_mid {A} (f : A → Z) l1 x l2 : zsum f (l1 ++ x :: l2) = zsum f (l1 ++ l2) + f x.
Proof. rewrite !zsum_app. unfold zsum. cbn. lia. Qed.

Lemma dirty_mid (l1 : list Entry) e l2 :
  dirty_entries (l1 ++ e :: l2) =
    if is_clean e then dirty_entries (l1 ++ l2) else dirty_entries l1 ++ e :: dirty_entries l2.
Proof.
  unfold dirty_entries, is_dirty. rewrite !filter_app. destruct (is_clean e) eqn:E.
  - rewrite filter_cons_False by (by rewrite E). done.
  - rewrite filter_cons_True by (by rewrite E). done.
Qed.

Lemma dirty_app l1 l2 : dirty_entries (l1 ++ l2) = dirty_entries l1 ++ dirty_entries l2.
Proof. apply filter_app. Qed.

Lemma dirty_sum_mid l1 e l2 :
  zsum SizeBytes (dirty_entries (l1 ++ e :: l2)) =
    zsum SizeBytes (dirty_entries (l1 ++ l2)) + (if is_clean e then 0 else SizeBytes e) ∧
  zlen (dirty_entries (l1 ++ e :: l2)) =
    zlen (dirty_entries (l1 ++ l2)) + (if is_clean e then 0 else 1).
Proof.
  rewrite dirty_mid. destruct (is_clean e); [lia|].
  rewrite zsum_mid, dirty_app, !zlen_app, zlen_cons. lia.
Qed.

(** *** Preservation *)

(** What a node in the middle of a well-formed shard says. *)
Lemma shard_split s it e :
  shard_ok s → (it, e) ∈ lru s →
  ∃ l1 l2 : LruList, lru s = l1 ++ (it, e) :: l2 ∧
    (it ∉ map fst (l1 ++ l2)) ∧ NoDup (map fst (l1 ++ l2)) ∧
    (key e ∉ map key (entries (l1 ++ l2))) ∧ NoDup (map key (entries (l1 ++ l2))) ∧
    (erase it (lru s) = l1 ++ l2) ∧ ∀ f, assign it f (lru s) = l1 ++ (it, f e) :: l2.
Proof.
  intros Hs Hin. pose proof (so_nodes s Hs) as Hn. pose proof (so_keys s Hs) as Hk.
  destruct (node_split _ _ _ Hn Hin) as (l1 & l2 & E & N1 & N2). rewrite E in Hn, Hk.
  exists l1, l2. split; [done|].
  assert (∀ (A : Type) (f : iterator * Entry → A), map f (l1 ++ (it, e) :: l2) ≡ₚ f (it, e) :: map f (l1 ++ l2)) as HP.
  { intros A f. rewrite !map_app. cbn. by rewrite Permutation_middle. }
  rewrite map_map, (HP _ _) in Hk. rewrite (HP _ _) in Hn.
  apply NoDup_cons in Hn as [? ?]. apply NoDup_cons in Hk as [? ?].
  rewrite !map_map. cbn in *. rewrite E. split_and!; [done..| |].
  - by apply erase_mid.
  - intros f. by apply assign_mid.
Qed.

Lemma not_in_keys (l : LruList) i e k : (k ∉ map key (entries l)) → (i, e) ∈ l → key e ≠ k.
Proof.
  intros Hn Hin <-. apply Hn. rewrite map_map. apply list_elem_of_In, in_map_iff.
  exists (i, e). split; [done|by apply list_elem_of_In].
Qed.

Lemma wrap_cancel a x : wrap64 (wrap64 (a + x) - x) = wrap64 a.
Proof. rewrite wrap_sub_l. f_equal. lia. Qed.

Lemma unlink_ok s it e : shard_ok s → (it, e) ∈ lru s → shard_ok (unlink s it e).
Proof.
  intros Hs Hin. destruct (shard_split s it e Hs Hin) as (l1 & l2 & E & Hn & Hnd & Hk & Hkd & He & _).
  destruct (dirty_sum_mid (entries l1) e (entries l2)) as [D1 D2].
  constructor; cbn [unlink lru index currentBytes dirtyBytes dirtyCount]; rewrite ?He; [done|done|..].
  - intros k i. destruct (decide (key e = k)) as [<-|Hne].
    + rewrite lookup_delete_eq. split; [done|]. intros (e' & Hin' & Hk'). by destruct (not_in_keys _ _ _ _ Hk Hin').
    + rewrite lookup_delete_ne, (so_index s Hs), E by done. split; intros (e' & Hin' & Hk'); exists e'; (split; [|done]).
      * apply elem_of_app in Hin' as [?|Hin']; [by apply elem_of_app; left|].
        apply elem_of_cons in Hin' as [[= -> ->]|?]; [done|]. by apply elem_of_app; right.
      * apply elem_of_app in Hin' as [?|?]; apply elem_of_app; [by left|right]. by constructor.
  - rewrite (so_bytes s Hs), E, map_app. cbn [map snd]. rewrite zsum_mid, <- map_app. apply wrap_cancel.
  - rewrite (so_dirtyBytes s Hs), E, map_app. cbn [map snd]. rewrite D1, <- map_app.
    destruct (is_clean e); [by rewrite Z.add_0_r|apply wrap_cancel].
  - rewrite (so_dirtyCount s Hs), E, map_app. cbn [map snd]. rewrite D2, <- map_app.
    destruct (is_clean e); [by rewrite Z.add_0_r|apply wrap_cancel].
Qed.

Lemma fresh_node_fresh l : fresh_node l ∉ map fst l.
Proof. apply infinite_is_fresh. Qed.

Lemma link_front_ok s e : shard_ok s → find s (key e) = None → shard_ok (link_front s e).
Proof.
  intros Hs Hf. pose proof (fresh_node_fresh (lru s)) as Hfr.
  assert (key e ∉ map key (entries (lru s))) as Hk by (by apply find_None_notin).
  destruct (dirty_sum_mid [] e (entries (lru s))) as [D1 D2]. cbn [app] in D1, D2.
  constructor; cbn [link_front lru index currentBytes dirtyBytes dirtyCount map fst snd].
  - constructor; [done|apply Hs].
  - constructor; [done|apply Hs].
  - intros k i. destruct (decide (key e = k)) as [<-|Hne].
    + rewrite lookup_insert_eq. split; [intros [= <-]; exists e; split; [constructor|done]|].
      intros (e' & Hin & Hk'). apply elem_of_cons in Hin as [[= -> _]|Hin]; [done|].
      by destruct (not_in_keys _ _ _ _ Hk Hin).
    + rewrite lookup_insert_ne, (so_index s Hs) by done.
      split; intros (e' & Hin & Hk'); exists e'; (split; [|done]); [by constructor|].
      apply elem_of_cons in Hin as [[= _ ->]|?]; done.
  - rewrite (so_bytes s Hs), wrap_add_l, Z.add_comm. done.
  - rewrite D1, (so_dirtyBytes s Hs). destruct (is_clean e); [by rewrite Z.add_0_r|apply wrap_add_l].
  - rewrite D2, (so_dirtyCount s Hs). destruct (is_clean e); [by rewrite Z.add_0_r|apply wrap_add_l].
Qed.

Lemma dirty_entries_perm l k : l ≡ₚ k → dirty_entries l ≡ₚ dirty_entries k.
Proof. intros E. unfold dirty_entries. by rewrite E. Qed.

(** The order of the list does not matter to the invariant. *)
Lemma shard_ok_perm s l :
  shard_ok s → l ≡ₚ lru s →
  shard_ok (mkShard l (index s) (currentBytes s) (dirtyBytes s) (mutationFence s) (dirtyCount s)).
Proof.
  intros Hs HP. constructor; cbn [lru index currentBytes dirtyBytes dirtyCount].
  - rewrite HP. apply Hs.
  - rewrite HP. apply Hs.
  - intros k i. rewrite (so_index s Hs). setoid_rewrite HP. done.
  - rewrite (so_bytes s Hs). f_equal. apply zsum_permute. by rewrite HP.
  - rewrite (so_dirtyBytes s Hs). f_equal. apply zsum_permute, dirty_entries_perm. by rewrite HP.
  - rewrite (so_dirtyCount s Hs). unfold zlen. do 2 f_equal.
    apply Permutation_length, dirty_entries_perm. by rewrite HP.
Qed.

Lemma splice_front_eq s it e :
  shard_ok s → (it, e) ∈ lru s → splice_front it (lru s) = (it, e) :: erase it (lru s).
Proof. intros Hs Hin. unfold splice_front. by rewrite (deref_elem _ _ _ (so_nodes s Hs) Hin). Qed.

Lemma touch_ok s it e : shard_ok s → (it, e) ∈ lru s → shard_ok (touch s it).
Proof.
  intros Hs Hin. apply shard_ok_perm; [done|]. rewrite (splice_front_eq s it e) by done.
  destruct (shard_split s it e Hs Hin) as (l1 & l2 & E & _ & _ & _ & _ & -> & _). rewrite E.
  apply Permutation_middle.
Qed.

Lemma move_fence_ok s : shard_ok s → shard_ok (move_fence s).
Proof. intros []. by constructor. Qed.

(** A change of the dirty state of an entry, with the accounts corrected by
    what the change does to the clean flag. *)
Lemma set_state_ok s it e st db dc :
  shard_ok s → (it, e) ∈ lru s →
  let adj (x : Z) := (if bool_decide (st = Clean) then 0 else x) - (if is_clean e then 0 else x) in
  db = wrap64 (dirtyBytes s + adj (SizeBytes e)) →
  dc = wrap64 (dirtyCount s + adj 1) →
  shard_ok (mkShard (assign it (with_state st) (lru s)) (index s) (currentBytes s) db (mutationFence s) dc).
Proof.
  intros Hs Hin adj -> ->.
  destruct (shard_split s it e Hs Hin) as (l1 & l2 & E & Hn & Hnd & Hk & Hkd & _ & Ha).
  destruct (dirty_sum_mid (entries l1) e (entries l2)) as [D1 D2].
  destruct (dirty_sum_mid (entries l1) (with_state st e) (entries l2)) as [D3 D4].
  assert (is_clean (with_state st e) = bool_decide (st = Clean)) as Hc by done.
  assert (SizeBytes (with_state st e) = SizeBytes e) as HS by done. rewrite Hc, HS in *.
  constructor; cbn [lru index currentBytes dirtyBytes dirtyCount]; rewrite Ha.
  - pose proof (so_nodes s Hs) as H1. rewrite E in H1. by rewrite map_app in *.
  - pose proof (so_keys s Hs) as H1. rewrite E in H1. by rewrite !map_app in *.
  - intros k i. rewrite (so_index s Hs), E. setoid_rewrite elem_of_app. setoid_rewrite elem_of_cons.
    split; intros (e' & [?|[[= -> ->]|?]] & Hk');
      ((exists e'; by auto) || (exists (with_state st e); by auto) || (exists e; by auto)).
  - rewrite (so_bytes s Hs), E, !map_app. cbn [map snd]. by rewrite !zsum_mid, HS.
  - rewrite map_app. cbn [map snd]. rewrite D3, (so_dirtyBytes s Hs), E, map_app. cbn [map snd]. rewrite D1, wrap_add_l.
    f_equal. unfold adj. lia.
  - rewrite map_app. cbn [map snd]. rewrite D4, (so_dirtyCount s Hs), E, map_app. cbn [map snd]. rewrite D2, wrap_add_l.
    f_equal. unfold adj. lia.
Qed.

(** ** Eviction *)

(** [l] without its first [m] clean nodes; without its last [m] ones. *)
Fixpoint drop_clean (m : nat) (l : LruList) : LruList :=
  match l with
  | [] => []
  | x :: l' =>
    if is_clean (snd x) then match m with O => l | S m => drop_clean m l' end
    else x :: drop_clean m l'
  end.

Definition evict_lru (m : nat) (l : LruList) : LruList := rev (drop_clean m (rev l)).

Lemma drop_clean_0 l : drop_clean 0 l = l.
Proof. induction l as [|x l IH]; [done|]. cbn. destruct (is_clean _); [done|]. by rewrite IH. Qed.

Lemma drop_clean_dirty l t m :
  Forall (λ x, is_clean (snd x) = false) l → drop_clean m (l ++ t) = l ++ drop_clean m t.
Proof. induction 1 as [|x l Hx Hl IH]; [done|]. cbn. by rewrite Hx, IH. Qed.

Lemma drop_clean_S m l x t :
  Forall (λ x, is_clean (snd x) = false) l → is_clean (snd x) = true →
  drop_clean (S m) (l ++ x :: t) = drop_clean m (l ++ t).
Proof. intros Hl Hx. rewrite !drop_clean_dirty by done. cbn. by rewrite Hx. Qed.

Lemma evict_lru_S m l1 x l2 :
  is_clean (snd x) = true → Forall (λ x, is_clean (snd x) = false) l2 →
  evict_lru (S m) (l1 ++ x :: l2) = evict_lru m (l1 ++ l2).
Proof.
  intros Hx Hl. unfold evict_lru. rewrite !rev_app_distr. cbn. rewrite <- app_assoc. cbn. f_equal.
  apply drop_clean_S; [|done]. by apply Forall_rev.
Qed.

Lemma evict_lru_0 l : evict_lru 0 l = l.
Proof. unfold evict_lru. by rewrite drop_clean_0, rev_involutive. Qed.

Lemma find_from_back_Some p l it e :
  find_from_back p l = Some (it, e) →
  ∃ l1 l2, l = l1 ++ (it, e) :: l2 ∧ p e = true ∧ Forall (λ x, p (snd x) = false) l2.
Proof.
  unfold find_from_back. induction l as [|x l IH] using rev_ind; [done|].
  rewrite rev_app_distr. cbn [rev app]. destruct (p (snd x)) eqn:Ex.
  - rewrite filter_cons_True by done. cbn. intros [= ->]. exists l, []. by split_and!.
  - rewrite filter_cons_False by (rewrite Ex; done). intros Hf.
    destruct (IH Hf) as (l1 & l2 & -> & He & Hl2). exists l1, (l2 ++ [x]).
    rewrite <- app_assoc. split_and!; [done..|]. apply Forall_app. split; [done|by constructor].
Qed.

Lemma find_from_back_None p l :
  find_from_back p l = None → Forall (λ x, p (snd x) = false) l.
Proof.
  unfold find_from_back. induction l as [|x l IH] using rev_ind; [done|].
  rewrite rev_app_distr. cbn [rev app]. destruct (p (snd x)) eqn:Ex.
  - by rewrite filter_cons_True by done.
  - rewrite filter_cons_False by (rewrite Ex; done). intros Hf.
    apply Forall_app. split; [by apply IH|by constructor].
Qed.

Lemma Forall_entries (l : LruList) :
  Forall (λ e, is_clean e = false) (entries l) → Forall (λ x, is_clean (snd x) = false) l.
Proof. induction l as [|x l IH]; [done|]. cbn. inversion 1; subst. constructor; [done|by apply IH]. Qed.

Section eviction.
Context (cap maxE : Z).

(** Within the limits of a shard. *)
Definition fits (l : LruList) : bool :=
  (wrap64 (zsum SizeBytes (entries l)) <=? cap) && (zlen l <=? maxE).

Lemma over_budget_fits s : shard_ok s → over_budget cap maxE s = negb (fits (lru s)).
Proof.
  intros Hs. unfold over_budget, fits. rewrite (so_bytes s Hs), index_size_lru by done.
  destruct (Z.ltb_spec cap (wrap64 (zsum SizeBytes (entries (lru s))))),
    (Z.leb_spec (wrap64 (zsum SizeBytes (entries (lru s)))) cap); try lia;
    destruct (Z.ltb_spec maxE (zlen (lru s))), (Z.leb_spec (zlen (lru s)) maxE); (done || lia).
Qed.

Lemma evict_node_ok s it e :
  shard_ok s → (it, e) ∈ lru s → is_clean e = true → shard_ok (evict_node s it e).
Proof.
  intros Hs Hin Hc. pose proof (unlink_ok s it e Hs Hin) as Hu. unfold unlink in Hu.
  rewrite Hc in Hu. exact Hu.
Qed.

Lemma dirty_le (l : list Entry) :
  zlen (dirty_entries l) ≤ zlen l ∧ (zlen (dirty_entries l) = zlen l → Forall (λ e, is_clean e = false) l).
Proof.
  induction l as [|e l [IH1 IH2]]; [by split; [done|constructor]|].
  pose proof (dirty_mid [] e l) as D. cbn [app] in D. rewrite D, !zlen_cons.
  destruct (is_clean e) eqn:E; [split; [lia|intros; exfalso; lia]|].
  change (dirty_entries [] ++ e :: dirty_entries l) with (e :: dirty_entries l).
  rewrite zlen_cons. split; [lia|]. intros Hl. constructor; [done|]. apply IH2. lia.
Qed.

Lemma evict_loop_spec fuel s n s' n' :
  shard_ok s → (length (lru s) < fuel)%nat → evict_loop cap maxE fuel s n = (s', n') →
  ∃ m, shard_ok s' ∧ lru s' = evict_lru m (lru s) ∧
    (∀ i, (i < m)%nat → fits (evict_lru i (lru s)) = false) ∧
    (zlen (lru s) < 2 ^ 64 →
       fits (lru s') = true ∨ Forall (λ x, is_clean (snd x) = false) (lru s')) ∧
    mutationFence s' = mutationFence s ∧
    dirty_entries (entries (lru s')) = dirty_entries (entries (lru s)) ∧
    n' = Nat.iter m (bump Eviction) n.
Proof.
  revert s n. induction fuel as [|fuel IH]; intros s n Hs Hf; [lia|]. cbn [evict_loop].
  rewrite over_budget_fits by done.
  assert (∀ m, (s, n) = (s', n') → m = 0%nat →
    (zlen (lru s) < 2 ^ 64 → fits (lru s) = true ∨ Forall (λ x, is_clean (snd x) = false) (lru s)) →
    ∃ m, shard_ok s' ∧ lru s' = evict_lru m (lru s) ∧
      (∀ i, (i < m)%nat → fits (evict_lru i (lru s)) = false) ∧
      (zlen (lru s) < 2 ^ 64 →
         fits (lru s') = true ∨ Forall (λ x, is_clean (snd x) = false) (lru s')) ∧
      mutationFence s' = mutationFence s ∧
      dirty_entries (entries (lru s')) = dirty_entries (entries (lru s)) ∧
      n' = Nat.iter m (bump Eviction) n) as Hstop.
  { intros _ [= <- <-] _ Hend. exists 0%nat. rewrite evict_lru_0. split_and!; try done. lia. }
  destruct (fits (lru s)) eqn:Efit; cbn [negb andb]; [intros E; by eapply (Hstop 0%nat); auto|].
  destruct (Z.ltb_spec (dirtyCount s) (index_size s)) as [Hd|Hd].
  - destruct (find_from_back is_clean (lru s)) as [[it e]|] eqn:Eb.
    2:{ intros E. apply (Hstop 0%nat); [done..|]. intros _. right. by apply find_from_back_None. }
    apply find_from_back_Some in Eb as (l1 & l2 & El & He & Hl2).
    assert ((it, e) ∈ lru s) as Hin by (rewrite El; apply elem_of_app; right; constructor).
    pose proof (evict_node_ok s it e Hs Hin He) as Hs1.
    assert (lru (evict_node s it e) = l1 ++ l2) as E1.
    { cbn. pose proof (so_nodes s Hs) as Hn. rewrite El in *.
      destruct (node_split _ _ _ Hn Hin) as (k1 & k2 & Ek & N1 & N2).
      rewrite map_app in Hn. cbn in Hn. apply NoDup_app in Hn as (_ & Hdis & Hn).
      apply NoDup_cons in Hn as [Hn2 _]. apply erase_mid; [|done].
      intros Hi. apply (Hdis it Hi). constructor. }
    assert (dirty_entries (entries (l1 ++ l2)) = dirty_entries (entries (lru s))) as Hdirty.
    { rewrite El, !map_app. cbn [map snd]. by rewrite dirty_mid, He. }
    intros E.
    assert (zlen (lru s) < 2 ^ 64 → zlen (l1 ++ l2) < 2 ^ 64) as Hlt1.
    { rewrite El, !zlen_app, zlen_cons. lia. }
    assert (length (l1 ++ l2) < fuel)%nat as Hf1.
    { rewrite El, length_app in Hf. cbn in Hf. rewrite length_app. lia. }
    rewrite <- E1 in Hf1.
    destruct (IH _ _ Hs1 Hf1 E) as (m & Hs' & El' & Hi & Hend & Hm & Hdd & Hn').
    rewrite E1 in *. exists (S m). rewrite El, evict_lru_S by done. rewrite <- El.
    split_and!; [done|done| |by auto|done| |].
    + intros [|i] Hlti; [by rewrite evict_lru_0|]. rewrite El, evict_lru_S by done. apply Hi. lia.
    + by rewrite Hdd, Hdirty.
    + rewrite Hn'. by rewrite Nat.iter_succ_r.
  - intros E. apply (Hstop 0%nat); [done..|]. intros Hlt. right.
    rewrite (so_dirtyCount s Hs), index_size_lru in Hd by done.
    destruct (dirty_le (entries (lru s))) as [Hle Hall].
    assert (zlen (entries (lru s)) = zlen (lru s)) as Hlen by (unfold zlen; by rewrite length_map).
    rewrite wrap_small in Hd.
    2:{ pose proof (zlen_nonneg (dirty_entries (entries (lru s)))). unfold in_width. lia. }
    apply Forall_entries, Hall. lia.
Qed.
End eviction.

(** ** A shard as a map from keys to entries *)

Definition shard_get (s : Shard) (k : string) : option Entry :=
  match find s k with Some (_, e) => Some e | None => None end.

Lemma shard_get_Some s k e : shard_ok s → shard_get s k = Some e ↔ ∃ it, (it, e) ∈ lru s ∧ key e = k.
Proof.
  intros Hs. unfold shard_get. split.
  - destruct (find s k) as [[it e']|] eqn:E; [|done]. intros [= ->].
    apply find_Some in E; [|done]. eauto.
  - intros (it & Hin & Hk). by rewrite (proj2 (find_Some s k it e Hs)).
Qed.

Lemma shard_get_key s k e : shard_ok s → shard_get s k = Some e → key e = k.
Proof. intros Hs E. apply shard_get_Some in E as (it & _ & ?); done. Qed.

Lemma find_get s k it e : shard_ok s → find s k = Some (it, e) → shard_get s k = Some e.
Proof. intros Hs E. unfold shard_get. by rewrite E. Qed.

Lemma find_None_get s k : find s k = None ↔ shard_get s k = None.
Proof. unfold shard_get. by destruct (find s k) as [[??]|]. Qed.

(** Two shards whose nodes hold the same entries. *)
Lemma shard_get_ext s s' :
  shard_ok s → shard_ok s' → (∀ e, e ∈ entries (lru s') ↔ e ∈ entries (lru s)) →
  ∀ k, shard_get s' k = shard_get s k.
Proof.
  intros Hs Hs' Heq k. apply option_eq. intros e. rewrite !shard_get_Some by done.
  assert (∀ l : LruList, e ∈ entries l ↔ ∃ it, (it, e) ∈ l) as Hin.
  { intros l. rewrite list_elem_of_In, in_map_iff. split.
    - intros ([it e'] & He & Hi). cbn in He. subst. exists it. by apply list_elem_of_In.
    - intros [it Hi]. exists (it, e). split; [done|by apply list_elem_of_In]. }
  specialize (Heq e). rewrite !Hin in Heq.
  split; intros (it & Hi & Hx);
    [destruct (proj1 Heq (ex_intro _ it Hi)) as [i Hi']|destruct (proj2 Heq (ex_intro _ it Hi)) as [i Hi']];
    eauto.
Qed.

Lemma shard_get_perm s s' :
  shard_ok s → shard_ok s' → lru s' ≡ₚ lru s → ∀ k, shard_get s' k = shard_get s k.
Proof. intros Hs Hs' HP. apply shard_get_ext; [done..|]. intros e. by rewrite HP. Qed.

Lemma touch_get s it e : shard_ok s → (it, e) ∈ lru s → ∀ k, shard_get (touch s it) k = shard_get s k.
Proof.
  intros Hs Hin. apply shard_get_perm; [done|by eapply touch_ok|]. cbn.
  rewrite (splice_front_eq s it e) by done.
  destruct (shard_split s it e Hs Hin) as (l1 & l2 & E & _ & _ & _ & _ & -> & _). rewrite E.
  apply Permutation_middle.
Qed.

Lemma move_fence_get s k : shard_get (move_fence s) k = shard_get s k.
Proof. done. Qed.

Lemma unlink_get s it e k :
  shard_ok s → (it, e) ∈ lru s →
  shard_get (unlink s it e) k = if decide (k = key e) then None else shard_get s k.
Proof.
  intros Hs Hin. pose proof (unlink_ok s it e Hs Hin) as Hu.
  destruct (shard_split s it e Hs Hin) as (l1 & l2 & E & _ & _ & Hk & _ & He & _).
  apply option_eq. intros x. rewrite shard_get_Some by done. cbn [unlink lru]. rewrite He.
  destruct (decide (k = key e)) as [->|Hne].
  - split; [|done]. intros (i & Hi & Hx). by destruct (not_in_keys _ _ _ _ Hk Hi).
  - rewrite shard_get_Some, E by done. setoid_rewrite elem_of_app. setoid_rewrite elem_of_cons.
    split; [by intros (i & [?|?] & Hx); eauto 10|].
    intros (i & [?|[[= -> ->]|?]] & Hx); eauto 10. congruence.
Qed.

Lemma link_front_get s e k :
  shard_ok s → find s (key e) = None →
  shard_get (link_front s e) k = if decide (k = key e) then Some e else shard_get s k.
Proof.
  intros Hs Hf. pose proof (link_front_ok s e Hs Hf) as Hl.
  apply find_None_notin in Hf; [|done].
  apply option_eq. intros x. rewrite shard_get_Some by done. cbn [link_front lru].
  setoid_rewrite elem_of_cons. destruct (decide (k = key e)) as [->|Hne].
  - split; [|intros [= <-]; eauto]. intros (i & [[= _ ->]|Hi] & Hx); [done|].
    by destruct (not_in_keys _ _ _ _ Hf Hi).
  - rewrite shard_get_Some by done. split; [|by intros (i & Hi & Hx); eauto].
    intros (i & [[= _ ->]|Hi] & Hx); [congruence|eauto].
Qed.

Lemma assign_get s it e st db dc k :
  shard_ok s → (it, e) ∈ lru s →
  let s' := mkShard (assign it (with_state st) (lru s)) (index s) (currentBytes s) db (mutationFence s) dc in
  shard_ok s' →
  shard_get s' k = if decide (k = key e) then Some (with_state st e) else shard_get s k.
Proof.
  intros Hs Hin s' Hs'.
  destruct (shard_split s it e Hs Hin) as (l1 & l2 & E & _ & _ & Hk & _ & _ & Ha).
  apply option_eq. intros x. rewrite shard_get_Some by done. unfold s'. cbn [lru]. rewrite Ha.
  setoid_rewrite elem_of_app. setoid_rewrite elem_of_cons. destruct (decide (k = key e)) as [->|Hne].
  - split; [|intros [= <-]; exists it; auto].
    intros (i & [Hi|[[= _ ->]|Hi]] & Hx); [|done|].
    + destruct (not_in_keys (l1 ++ l2) i x (key e) Hk); [|done]. apply elem_of_app. by left.
    + destruct (not_in_keys (l1 ++ l2) i x (key e) Hk); [|done]. apply elem_of_app. by right.
  - rewrite shard_get_Some, E by done. setoid_rewrite elem_of_app. setoid_rewrite elem_of_cons.
    split; (intros (i & [?|[Hp|?]] & Hx); [by eauto 10|injection Hp as -> ->; cbn in Hx; congruence|by eauto 10]).
Qed.

(** Eviction forgets clean entries and nothing else. *)
Definition evicted (s s' : Shard) : Prop :=
  ∀ k, shard_get s' k = shard_get s k ∨
       ∃ e, shard_get s k = Some e ∧ is_clean e = true ∧ shard_get s' k = None.

#[export] Instance evicted_refl : Reflexive evicted.
Proof. intros s k. by left. Qed.

Lemma drop_clean_sub m l x : x ∈ drop_clean m l → x ∈ l.
Proof.
  revert m. induction l as [|y l IH]; intros m; [done|]. cbn. destruct (is_clean _).
  - destruct m; [done|]. intros Hx. constructor. by apply (IH m).
  - intros Hx. apply elem_of_cons in Hx as [->|Hx]; [constructor|]. constructor. by apply (IH m).
Qed.

Lemma evict_lru_sub m l x : x ∈ evict_lru m l → x ∈ l.
Proof.
  unfold evict_lru. rewrite !list_elem_of_In, <- !in_rev, <- !list_elem_of_In. intros Hx.
  apply drop_clean_sub in Hx. by rewrite list_elem_of_In, <- in_rev, <- list_elem_of_In in Hx.
Qed.

Lemma EvictCleanEntriesLocked_get cap maxE s n s' n' :
  shard_ok s → EvictCleanEntriesLocked cap maxE s n = (s', n') →
  shard_ok s' ∧ evicted s s' ∧ mutationFence s' = mutationFence s ∧ zlen (lru s') ≤ zlen (lru s).
Proof.
  intros Hs E.
  destruct (evict_loop_spec _ _ _ _ _ _ _ Hs (Nat.lt_succ_diag_r _) E)
    as (m & Hs' & El & _ & _ & Hm & Hd & _).
  assert (∀ x, x ∈ lru s' → x ∈ lru s) as Hsub by (intros x; rewrite El; apply evict_lru_sub).
  assert (∀ k e, shard_get s' k = Some e → shard_get s k = Some e) as Hget.
  { intros k e Hg. apply shard_get_Some in Hg as (it & Hin & Hk); [|done].
    apply shard_get_Some; [done|]. eauto. }
  split; [done|]. split; [|split; [done|]].
  - intros k. destruct (shard_get s' k) as [e'|] eqn:E'; [left; symmetry; by apply Hget|].
    destruct (shard_get s k) as [e|] eqn:Eg; [|by left]. right. exists e. split; [done|].
    split; [|done]. destruct (is_clean e) eqn:Ec; [done|exfalso].
    apply shard_get_Some in Eg as (it & Hin & Hk); [|done].
    assert (e ∈ dirty_entries (entries (lru s'))) as Hin'.
    { rewrite Hd. apply list_elem_of_filter. unfold is_dirty. rewrite Ec. split; [done|].
      apply list_elem_of_In, in_map_iff. exists (it, e). split; [done|by apply list_elem_of_In]. }
    apply list_elem_of_filter in Hin' as [_ Hin']. apply list_elem_of_In, in_map_iff in Hin' as ([i x] & Hx & Hin').
    cbn in Hx. subst x. assert (shard_get s' k = Some e) as Hs1; [|congruence].
    apply shard_get_Some; [done|]. exists i. split; [by apply list_elem_of_In|done].
  - pose proof (so_nodes s' Hs') as Hn. unfold zlen.
    assert (length (map fst (lru s')) ≤ length (map fst (lru s)))%nat as Hl; [|rewrite !length_map in Hl; lia].
    apply submseteq_length, NoDup_submseteq; [done|]. intros i Hi.
    apply list_elem_of_In, in_map_iff in Hi as (x & <- & Hx). apply list_elem_of_In, in_map_iff.
    exists x. split; [done|]. apply list_elem_of_In, Hsub. by apply list_elem_of_In.
Qed.

(** ** The contracts of the operations *)

(** The map of [s'] is that of [s] but at [k]. *)
Definition updated (s s' : Shard) (k : string) (o : option Entry) : Prop :=
  ∀ k', shard_get s' k' = if decide (k' = k) then o else shard_get s k'.

Lemma updated_same s k : updated s s k (shard_get s k).
Proof. intros k'. by destruct (decide (k' = k)) as [->|]. Qed.

Lemma length_unlink s it e : shard_ok s → (it, e) ∈ lru s → zlen (lru (unlink s it e)) = zlen (lru s) - 1.
Proof.
  intros Hs Hin. destruct (shard_split s it e Hs Hin) as (l1 & l2 & E & _ & _ & _ & _ & He & _).
  cbn. rewrite He, E, !zlen_app, zlen_cons. lia.
Qed.

Lemma assign_length it f (l : LruList) : length (assign it f l) = length l.
Proof. apply length_map. Qed.

(** A write of version [ver] that the entry [o] of its key makes obsolete. *)
Definition stale (ver : Z) (o : option Entry) : bool :=
  match o with
  | Some e => (ver <=? version e) && negb ((ver =? 0) && (version e =? 0))
  | None => false
  end.

Lemma InsertOrUpdate_contract cap maxE s n k v ver st enforce s' n' :
  shard_ok s →
  InsertOrUpdateLocked cap maxE s n k v ver st enforce = (s', n') →
  if stale ver (shard_get s k) then s' = s ∧ n' = n
  else shard_ok s' ∧ mutationFence s' = wrap64 (mutationFence s + 1) ∧
       zlen (lru s') ≤ zlen (lru s) + 1 ∧
       ∃ s1, updated s s1 k (Some (mkEntry k v ver st)) ∧
             evicted s1 s' ∧ (enforce = false → s' = s1).
Proof.
  intros Hs. unfold InsertOrUpdateLocked.
  assert (∀ s0 c, shard_ok s0 → find s0 k = None → zlen (lru s0) ≤ zlen (lru s) →
    mutationFence s0 = mutationFence s →
    (∀ k', k' ≠ k → shard_get s0 k' = shard_get s k') → insert_entry cap maxE s0 n c (mkEntry k v ver st) enforce = (s', n') →
    shard_ok s' ∧ mutationFence s' = wrap64 (mutationFence s + 1) ∧
    zlen (lru s') ≤ zlen (lru s) + 1 ∧
    ∃ s1, updated s s1 k (Some (mkEntry k v ver st)) ∧ evicted s1 s' ∧ (enforce = false → s' = s1)) as Hcommit.
  { intros s0 c Hs0 Hf0 Hl0 Hm0 Hget. unfold insert_entry. cbv zeta.
    set (s1 := move_fence (link_front s0 (mkEntry k v ver st))).
    assert (shard_ok s1) as Hs1 by (by apply move_fence_ok, link_front_ok).
    assert (zlen (lru s1) = 1 + zlen (lru s0)) as Hl1 by apply zlen_cons.
    assert (updated s s1 k (Some (mkEntry k v ver st))) as Hu.
    { intros k'. unfold s1. rewrite move_fence_get, link_front_get by done. cbn [key].
      destruct (decide (k' = k)); [done|by apply Hget]. }
    assert (mutationFence s1 = wrap64 (mutationFence s + 1)) as Hm1 by (cbn; by rewrite Hm0).
    destruct enforce.
    - intros E. apply EvictCleanEntriesLocked_get in E as (Hs' & Hev & Hm & Hl); [|done].
      split; [done|]. split; [congruence|]. split; [lia|]. by exists s1.
    - intros [= <- <-]. split; [done|]. split; [done|]. split; [lia|]. by exists s1. }
  destruct (find s k) as [[it e]|] eqn:Ef.
  - rewrite (find_get s k it e) by done. cbn [stale].
    destruct (_ && _); [by intros [= <- <-]|].
    apply find_Some in Ef as [Hin Hk]; [|done].
    pose proof (unlink_get s it e k Hs Hin) as Hu. rewrite decide_True in Hu by done.
    apply Hcommit.
    + by apply unlink_ok.
    + by apply find_None_get.
    + rewrite length_unlink by done. lia.
    + done.
    + intros k' Hne. rewrite unlink_get by done. rewrite decide_False by congruence. done.
  - rewrite (proj1 (find_None_get s k)) by done. cbn [stale]. by apply Hcommit.
Qed.

(** A shard with the dirty state of one entry changed. *)
Lemma assign_contract s it e st db dc :
  shard_ok s → (it, e) ∈ lru s →
  let adj (x : Z) := (if bool_decide (st = Clean) then 0 else x) - (if is_clean e then 0 else x) in
  db = wrap64 (dirtyBytes s + adj (SizeBytes e)) → dc = wrap64 (dirtyCount s + adj 1) →
  let s' := mkShard (assign it (with_state st) (lru s)) (index s) (currentBytes s) db (mutationFence s) dc in
  shard_ok s' ∧ updated s s' (key e) (Some (with_state st e)) ∧ zlen (lru s') = zlen (lru s).
Proof.
  intros Hs Hin adj Hdb Hdc s'. assert (shard_ok s') as Hs' by (by apply (set_state_ok s it e st)).
  split; [done|]. split; [|unfold zlen, s'; cbn; by rewrite assign_length].
  intros k. by apply assign_get.
Qed.

Lemma dirty_accounts s : shard_ok s → u64 (dirtyBytes s) ∧ u64 (dirtyCount s).
Proof.
  intros Hs. rewrite (so_dirtyBytes s Hs), (so_dirtyCount s Hs).
  split; by apply wrap_width.
Qed.

(** Between two states that are not [Clean], nothing is to be accounted. *)
Lemma set_state_contract s it e st :
  shard_ok s → (it, e) ∈ lru s → is_clean e = false → st ≠ Clean →
  shard_ok (set_state s it st) ∧ updated s (set_state s it st) (key e) (Some (with_state st e)) ∧
  zlen (lru (set_state s it st)) = zlen (lru s).
Proof.
  intros Hs Hin Hc Hst. destruct (dirty_accounts s Hs) as [Hb Hd].
  apply assign_contract; [done..| |]; rewrite Hc, bool_decide_eq_false_2 by done;
    rewrite Z.sub_diag, Z.add_0_r; symmetry; by apply wrap_small.
Qed.

Lemma flush_begin_contract s k ev cv r s' :
  shard_ok s → flush_begin s k ev cv = (r, s') →
  shard_ok s' ∧ zlen (lru s') = zlen (lru s) ∧ mutationFence s' = mutationFence s ∧
  match r with
  | inl _ => s' = s
  | inr (v, ver) =>
    shard_get s k = Some (mkEntry k v ver Dirty) ∧ (cv = true → ver = ev) ∧
    updated s s' k (Some (mkEntry k v ver FlushInProgress))
  end.
Proof.
  intros Hs. unfold flush_begin. destruct (find s k) as [[it e]|] eqn:Ef; [|by intros [= <- <-]].
  pose proof (find_get s k it e Hs Ef) as Hg. apply find_Some in Ef as [Hin Hk]; [|done].
  destruct (cv && negb (version e =? ev)) eqn:Ev; [by intros [= <- <-]|].
  destruct (dirtyState e) eqn:Ed; intros [= <- <-]; [done| |done].
  assert (is_clean e = false) as Hc by (unfold is_clean; by rewrite Ed).
  destruct (set_state_contract s it e FlushInProgress Hs Hin Hc) as (Hs' & Hu & Hl); [done|].
  split; [done|]. split; [done|]. split; [done|].
  destruct e as [k0 v0 ver0 st0]. cbn in Hk, Ed, Ev, Hu |- *. subst k0 st0. split; [done|].
  split; [|done]. intros ->. cbn in Ev. by zbool.
Qed.

(** The entry a flush of version [ver] still owns. *)
Definition flushing (ver : Z) (o : option Entry) : option Entry :=
  match o with
  | Some e => if (version e =? ver) && bool_decide (dirtyState e = FlushInProgress) then Some e else None
  | None => None
  end.

Lemma flushing_not_clean ver e e' : flushing ver (Some e) = Some e' → e' = e ∧ is_clean e = false.
Proof.
  cbn. destruct (version e =? ver); [|done]. unfold is_clean.
  destruct (dirtyState e) eqn:E; cbn; try done. by intros [= <-].
Qed.

Lemma flush_commit_contract s k ver s' :
  shard_ok s → flush_commit s k ver = s' →
  shard_ok s' ∧ zlen (lru s') = zlen (lru s) ∧ mutationFence s' = mutationFence s ∧
  match flushing ver (shard_get s k) with
  | Some e => updated s s' k (Some (with_state Clean e))
  | None => s' = s
  end.
Proof.
  intros Hs. unfold flush_commit. destruct (find s k) as [[it e]|] eqn:Ef.
  2:{ intros <-. by rewrite (proj1 (find_None_get s k)) by done. }
  rewrite (find_get s k it e) by done. apply find_Some in Ef as [Hin Hk]; [|done].
  destruct (flushing ver (Some e)) as [e'|] eqn:Efl.
  - destruct (flushing_not_clean _ _ _ Efl) as [-> Hc]. cbn in Efl. destruct (_ && _); [|done].
    intros <-. destruct (assign_contract s it e Clean (wrap64 (dirtyBytes s - SizeBytes e))
      (wrap64 (dirtyCount s - 1)) Hs Hin) as (Hs' & Hu & Hl); [by rewrite Hc..|].
    rewrite <- Hk. done.
  - cbn in Efl. destruct (_ && _); [done|]. by intros <-.
Qed.

Lemma Revert_contract s k ver s' :
  shard_ok s → RevertFlushInProgressLocked s k ver = s' →
  shard_ok s' ∧ zlen (lru s') = zlen (lru s) ∧ mutationFence s' = mutationFence s ∧
  match flushing ver (shard_get s k) with
  | Some e => updated s s' k (Some (with_state Dirty e))
  | None => s' = s
  end.
Proof.
  intros Hs. unfold RevertFlushInProgressLocked. destruct (find s k) as [[it e]|] eqn:Ef.
  2:{ intros <-. by rewrite (proj1 (find_None_get s k)) by done. }
  rewrite (find_get s k it e) by done. apply find_Some in Ef as [Hin Hk]; [|done].
  destruct (flushing ver (Some e)) as [e'|] eqn:Efl.
  - destruct (flushing_not_clean _ _ _ Efl) as [-> Hc]. cbn in Efl. destruct (_ && _); [|done].
    intros <-. destruct (set_state_contract s it e Dirty Hs Hin Hc) as (Hs' & Hu & Hl); [done|].
    rewrite <- Hk. done.
  - cbn in Efl. destruct (_ && _); [done|]. by intros <-.
Qed.

Lemma invalidate_commit_contract s k ver s' :
  shard_ok s → invalidate_commit s k ver = s' →
  shard_ok s' ∧ zlen (lru s') ≤ zlen (lru s) ∧ mutationFence s' = wrap64 (mutationFence s + 1) ∧
  updated s s' k (match shard_get s k with
                  | Some e => if version e =? ver then None else Some e
                  | None => None
                  end).
Proof.
  intros Hs. unfold invalidate_commit. destruct (find s k) as [[it e]|] eqn:Ef.
  2:{ intros <-. split; [by apply move_fence_ok|]. split; [done|]. split; [done|].
      pose proof (proj1 (find_None_get s k) Ef) as Hg. rewrite Hg. intros k'. rewrite move_fence_get.
      by destruct (decide (k' = k)) as [->|]. }
  rewrite (find_get s k it e) by done. pose proof Ef as Ef'.
  apply find_Some in Ef' as [Hin Hk]; [|done]. destruct (version e =? ver); intros <-.
  - split; [by apply move_fence_ok, unlink_ok|].
    split; [cbn [lru move_fence]; rewrite length_unlink by done; lia|]. split; [done|].
    intros k'. by rewrite move_fence_get, unlink_get, Hk.
  - split; [by apply move_fence_ok|]. split; [done|]. split; [done|].
    intros k'. rewrite move_fence_get. destruct (decide (k' = k)) as [->|]; [|done].
    by apply find_get with it.
Qed.

(** ** Properties *)

(** What threads do to a shard: each step is one block under its mutex, in
    whatever order the threads take it. *)
Inductive shard_step (cap maxE : Z) : Shard → Shard → Prop :=
  | step_touch s k it e : find s k = Some (it, e) → shard_step cap maxE s (touch s it)
  | step_insert s n k v ver st enforce :
      shard_step cap maxE s (fst (InsertOrUpdateLocked cap maxE s n k v ver st enforce))
  | step_evict s n : shard_step cap maxE s (fst (EvictCleanEntriesLocked cap maxE s n))
  | step_flush_begin s k ev cv : shard_step cap maxE s (snd (flush_begin s k ev cv))
  | step_flush_commit s k ver : shard_step cap maxE s (flush_commit s k ver)
  | step_revert s k ver : shard_step cap maxE s (RevertFlushInProgressLocked s k ver)
  | step_invalidate s k ver : shard_step cap maxE s (invalidate_commit s k ver).

Lemma shard_step_ok cap maxE s s' : shard_ok s → shard_step cap maxE s s' → shard_ok s'.
Proof.
  intros Hs Hstep. destruct Hstep as [s k it e Hf|s n k v ver st en|s n|s k ev cv|s k ver|s k ver|s k ver].
  - apply find_Some in Hf as [Hin _]; [|done]. by eapply touch_ok.
  - destruct (InsertOrUpdateLocked _ _ _ _ _ _ _ _ _) as [s' n'] eqn:E. cbn.
    pose proof (InsertOrUpdate_contract _ _ _ _ _ _ _ _ _ _ _ Hs E) as HC.
    destruct (stale _ _); [by destruct HC as [-> _]|apply HC].
  - destruct (EvictCleanEntriesLocked _ _ _ _) as [s' n'] eqn:E.
    by apply EvictCleanEntriesLocked_get in E as (? & _).
  - destruct (flush_begin _ _ _ _) as [r s'] eqn:E. by apply flush_begin_contract in E as (? & _).
  - by destruct (flush_commit_contract s k ver _ Hs eq_refl).
  - by destruct (Revert_contract s k ver _ Hs eq_refl).
  - by destruct (invalidate_commit_contract s k ver _ Hs eq_refl).
Qed.

(** C24: the shard invariant.  After any interleaving of the locked blocks of
    any number of threads, from an empty shard, the index and the list agree,
    no iterator dangles, no key is held twice, and the accounts of bytes, dirty
    bytes and dirty entries are those of the entries, on 64 bits. *)
Theorem shard_reachable_ok cap maxE s :
  rtc (shard_step cap maxE) Shard_empty s →
  shard_ok s ∧ index_size s = zlen (lru s) ∧
  ∀ k it, index s !! k = Some it → ∃ e, deref it (lru s) = Some e ∧ key e = k.
Proof.
  intros Hr. assert (shard_ok s) as Hs.
  { revert Hr. generalize Shard_empty_ok. generalize Shard_empty. intros s0 H0 Hr.
    induction Hr as [|s1 s2 s3 Hstep _ IH]; [done|]. apply IH. by eapply shard_step_ok. }
  split; [done|]. split; [by apply index_size_lru|].
  intros k it Hk. apply (so_index s Hs) in Hk as (e & Hin & Hk). exists e. split; [|done].
  by apply deref_elem; [apply Hs|].
Qed.

(** C25: eviction is exact LRU.  [EvictCleanEntriesLocked] removes the least
    recently used clean entries, as many as it takes to be within the limits and
    not one more, or all the clean ones if that does not suffice; it keeps every
    dirty entry and the order of what stays, and counts what it removes. *)
Theorem EvictCleanEntriesLocked_lru cap maxE s n s' n' :
  shard_ok s → zlen (lru s) < 2 ^ 64 → EvictCleanEntriesLocked cap maxE s n = (s', n') →
  ∃ m, lru s' = evict_lru m (lru s) ∧
    (∀ i, (i < m)%nat → fits cap maxE (evict_lru i (lru s)) = false) ∧
    (fits cap maxE (lru s') = true ∨ Forall (λ x, is_clean (snd x) = false) (lru s')) ∧
    dirty_entries (map snd (lru s')) = dirty_entries (map snd (lru s)) ∧
    n' = Nat.iter m (bump Eviction) n ∧ shard_ok s'.
Proof.
  intros Hs Hlen E.
  destruct (evict_loop_spec _ _ _ _ _ _ _ Hs (Nat.lt_succ_diag_r _) E) as (m & Hs' & El & Hmin & Hend & _ & Hd & Hn).
  exists m. split_and!; try done. by apply Hend.
Qed.

(** A write never goes backwards.  [InsertOrUpdateLocked] refuses a
    version not above the entry's (two read-fills of version 0 apart), leaving
    everything as it was; otherwise a dirty entry is in the shard afterwards
    whatever the capacity, every other entry is as before or, if it was clean,
    may have been evicted, and the fence that stops concurrent read-fills has
    moved. *)
Theorem InsertOrUpdateLocked_monotone cap maxE s n k v ver st enforce s' n' :
  shard_ok s → InsertOrUpdateLocked cap maxE s n k v ver st enforce = (s', n') →
  if stale ver (shard_get s k) then s' = s ∧ n' = n
  else shard_ok s' ∧ mutationFence s' = wrap64 (mutationFence s + 1) ∧
       (st ≠ Clean ∨ enforce = false → shard_get s' k = Some (mkEntry k v ver st)) ∧
       ∀ k', k' ≠ k → shard_get s' k' = shard_get s k' ∨
         ∃ e, shard_get s k' = Some e ∧ is_clean e = true ∧ shard_get s' k' = None.
Proof.
  intros Hs E. pose proof (InsertOrUpdate_contract _ _ _ _ _ _ _ _ _ _ _ Hs E) as HC.
  destruct (stale _ _); [done|]. destruct HC as (Hs' & Hf & _ & s1 & Hu & Hev & Henf).
  split; [done|]. split; [done|]. split.
  - pose proof (Hu k) as Huk. rewrite decide_True in Huk by done. intros [Hst|Hen].
    + destruct (Hev k) as [->|(e & He & Hc & _)]; [done|]. rewrite Huk in He. injection He as <-.
      unfold is_clean in Hc. cbn in Hc. by rewrite bool_decide_eq_false_2 in Hc.
    + by rewrite (Henf Hen).
  - intros k' Hne. specialize (Hev k'). rewrite (Hu k'), decide_False in Hev by done. exact Hev.
Qed.
