(* ===== verification/Engine.v ===== *)
(** * Engine: the cache engine

    Models the class [CacheEngine] of src/src/CoreEngine/src/CacheEngine.cpp
    over the interfaces of the journal and of the backing store, as one thread
    runs it: every public operation, composed of the same locked blocks and
    unlocked I/O as the code.  Log messages are left out: they are written to a
    sink no decision reads.  A wait on the admission condition variable is
    taken when it is satisfied, which for one thread is always.  Several threads
    and the background flusher are Threads.v. *)
From S2P Require Import Prelude Common RecordCodec Storage Journal Store Shard.
Import EntryDirtyState.
Open Scope Z_scope.

Record CacheEngineOptions := mkOptions {
  enabled : bool;
  capacityBytes : Z;
  maxEntryCount : Z;
  writePolicy : WritePolicyKind.WritePolicyKind;
  flushPolicy : FlushPolicyKind.FlushPolicyKind;
  flushIntervalSeconds : Z;
  shardCount : Z
}.

Record CacheStatistics := mkCacheStatistics {
  stat_counters : Counters;
  currentEntryCount : Z;
  currentMemoryBytes : Z;
  dirtyEntryCount : Z;
  stat_dirtyBytes : Z
}.

Module EngineLifecycle.
Inductive EngineLifecycle := NotReady | Ready | Stopping | Stopped | RecoveryFailed.

#[global] Instance EngineLifecycle_eq_dec : EqDecision EngineLifecycle.
Proof. solve_decision. Defined.
End EngineLifecycle.
Import EngineLifecycle.

Definition kMaxReasonableValueBytes : Z := 64 * 1024 * 1024.
Definition kMaxFlushAttemptsPerCall : nat := 64.

(** What [ReplayFromJournal] collects for a key. *)
Record PendingEntry := mkPending { p_value : bytes; p_version : Z; p_state : EntryDirtyState }.

Record CacheEngine (B J : Type) := mkEngine {
  options_ : CacheEngineOptions;
  backingStore_ : B;
  journal_ : J;
  shards_ : list Shard;
  perShardCapacityBytes_ : Z;
  perShardMaxEntries_ : Z;
  globalVersionCounter_ : Z;
  lifecycle_ : EngineLifecycle;
  inFlightWriteCount_ : Z;
  compactionPaused_ : bool;
  counters_ : Counters
}.
Arguments mkEngine {B J}.
Arguments options_ {B J}.
Arguments backingStore_ {B J}.
Arguments journal_ {B J}.
Arguments shards_ {B J}.
Arguments perShardCapacityBytes_ {B J}.
Arguments perShardMaxEntries_ {B J}.
Arguments globalVersionCounter_ {B J}.
Arguments lifecycle_ {B J}.
Arguments inFlightWriteCount_ {B J}.
Arguments compactionPaused_ {B J}.
Arguments counters_ {B J}.

Section fields.
Context {B J : Type}.
Implicit Types e : CacheEngine B J.

Definition set_store e (b : B) : CacheEngine B J :=
  mkEngine (options_ e) b (journal_ e) (shards_ e) (perShardCapacityBytes_ e) (perShardMaxEntries_ e)
    (globalVersionCounter_ e) (lifecycle_ e) (inFlightWriteCount_ e) (compactionPaused_ e) (counters_ e).
Definition set_journal e (j : J) : CacheEngine B J :=
  mkEngine (options_ e) (backingStore_ e) j (shards_ e) (perShardCapacityBytes_ e) (perShardMaxEntries_ e)
    (globalVersionCounter_ e) (lifecycle_ e) (inFlightWriteCount_ e) (compactionPaused_ e) (counters_ e).
Definition set_shard e (i : nat) (s : Shard) : CacheEngine B J :=
  mkEngine (options_ e) (backingStore_ e) (journal_ e) (<[i := s]> (shards_ e))
    (perShardCapacityBytes_ e) (perShardMaxEntries_ e)
    (globalVersionCounter_ e) (lifecycle_ e) (inFlightWriteCount_ e) (compactionPaused_ e) (counters_ e).
Definition set_version e (v : Z) : CacheEngine B J :=
  mkEngine (options_ e) (backingStore_ e) (journal_ e) (shards_ e)
    (perShardCapacityBytes_ e) (perShardMaxEntries_ e)
    v (lifecycle_ e) (inFlightWriteCount_ e) (compactionPaused_ e) (counters_ e).
Definition set_lifecycle e (l : EngineLifecycle) : CacheEngine B J :=
  mkEngine (options_ e) (backingStore_ e) (journal_ e) (shards_ e)
    (perShardCapacityBytes_ e) (perShardMaxEntries_ e)
    (globalVersionCounter_ e) l (inFlightWriteCount_ e) (compactionPaused_ e) (counters_ e).
Definition set_admission e (n : Z) (paused : bool) : CacheEngine B J :=
  mkEngine (options_ e) (backingStore_ e) (journal_ e) (shards_ e)
    (perShardCapacityBytes_ e) (perShardMaxEntries_ e)
    (globalVersionCounter_ e) (lifecycle_ e) n paused (counters_ e).
Definition set_counters e (n : Counters) : CacheEngine B J :=
  mkEngine (options_ e) (backingStore_ e) (journal_ e) (shards_ e)
    (perShardCapacityBytes_ e) (perShardMaxEntries_ e)
    (globalVersionCounter_ e) (lifecycle_ e) (inFlightWriteCount_ e) (compactionPaused_ e) n.
Definition count (c : Counter) e : CacheEngine B J := set_counters e (bump c (counters_ e)).

Definition shard_at e (i : nat) : Shard := default Shard_empty (shards_ e !! i).
End fields.

(** The constructor. *)
Definition CacheEngine_new {B J} (options : CacheEngineOptions) (b : B) (j : J) : CacheEngine B J :=
  let shards := replicate (Z.to_nat (Z.max 1 (shardCount options))) Shard_empty in
  mkEngine options b j shards (capacityBytes options / zlen shards)
           (Z.max 1 (maxEntryCount options / zlen shards)) 0 NotReady 0 false Counters_zero.

Definition CreateCacheEngine {B J} (options : CacheEngineOptions) (backingStore : option B)
    (journal : option J) : Result (CacheEngine B J) :=
  let invalid msg := Failure (mkError ErrorCode.InvalidArgument msg 0) in
  match backingStore with
  | None => invalid "backingStore must not be null"%string
  | Some b =>
    match journal with
    | None => invalid "journal must not be null"%string
    | Some j =>
      if (shardCount options =? 0) || negb (Z.land (shardCount options) (wrap32 (shardCount options - 1)) =? 0)
      then invalid "shardCount must be a power of two >= 1"%string
      else if capacityBytes options =? 0 then invalid "capacityBytes must be > 0"%string
      else if maxEntryCount options =? 0 then invalid "maxEntryCount must be > 0"%string
      else Success (CacheEngine_new options b j)
    end
  end.

Module Engine.
Section Engine.
Context {B J : Type} `{IBackingStore.IBackingStore B} `{IWriteAheadJournal J}.

(** [std::hash<std::string>], and the order in which a loop over a
  [std::unordered_map] meets its elements: implementation-defined. *)
Context (hash : string → Z) (pending_order : gmap string PendingEntry → list (string * PendingEntry)).

Implicit Types e : CacheEngine B J.

Definition ShardFor e (k : string) : nat := Z.to_nat (hash k mod zlen (shards_ e)).

(** *** Lifecycle guards *)

Definition CheckReadyForRead e : Result unit :=
match lifecycle_ e with
| NotReady => Failure (mkError ErrorCode.RecoveryNotComplete
                         "cache engine is not ready: recovery has not completed" 0)
| RecoveryFailed => Failure (mkError ErrorCode.RecoveryFailed
                         "cache engine recovery failed; this instance is permanently unusable" 0)
| Stopped => Failure (mkError ErrorCode.ServiceStopping "cache engine has finished shutting down" 0)
| Ready | Stopping => Success tt
end.

Definition not_accepting {T} : Result T :=
Failure (mkError ErrorCode.ServiceStopping
           "cache engine is shutting down and no longer accepts new writes" 0).

Definition CheckReadyForWrite e : Result unit :=
match lifecycle_ e with
| NotReady => Failure (mkError ErrorCode.RecoveryNotComplete
                         "cache engine is not ready: recovery has not completed" 0)
| RecoveryFailed => Failure (mkError ErrorCode.RecoveryFailed
                         "cache engine recovery failed; this instance is permanently unusable" 0)
| Ready => Success tt
| Stopping | Stopped => not_accepting
end.

Definition disabled {T} : Result T :=
Failure (mkError ErrorCode.CacheDisabled "cache is disabled by configuration" 0).

(** *** Admission of writes *)

Definition TryAdmitWrite e : bool * CacheEngine B J :=
if bool_decide (lifecycle_ e = Ready)
then (true, set_admission e (wrap64 (inFlightWriteCount_ e + 1)) (compactionPaused_ e))
else (false, e).

Definition ReleaseWriteAdmission e : CacheEngine B J :=
if 0 <? inFlightWriteCount_ e
then set_admission e (inFlightWriteCount_ e - 1) (compactionPaused_ e)
else e.

(** *** Journal appends (under [journalMutex_]) *)

Definition AppendJournalRecord e (record : CacheJournalRecord) : Result unit * CacheEngine B J :=
let encoded := Encode record in
match Append (journal_ e) encoded with
| (Failure err, j) => (Failure err, set_journal e j)
| (Success _, j) => (Success tt, set_journal e j)
end.

(** The result, [outVersion], the engine. *)
Definition AppendJournalRecordWithNewVersion e (record : CacheJournalRecord)
  : Result unit * Z * CacheEngine B J :=
let outVersion := wrap64 (globalVersionCounter_ e + 1) in
let e := set_version e outVersion in
let record := mkRecord (rec_formatVersion record) (rec_type record) (rec_key record)
                       (rec_value record) outVersion in
let '(r, e) := AppendJournalRecord e record in
(r, outVersion, e).

Definition insert_or_update e (i : nat) (k : string) (v : bytes) (ver : Z)
  (state : EntryDirtyState) (enforceCapacity : bool) : CacheEngine B J :=
let '(s, n) := InsertOrUpdateLocked (perShardCapacityBytes_ e) (perShardMaxEntries_ e)
                 (shard_at e i) (counters_ e) k v ver state enforceCapacity in
set_counters (set_shard e i s) n.

Definition evict e (i : nat) : CacheEngine B J :=
let '(s, n) := EvictCleanEntriesLocked (perShardCapacityBytes_ e) (perShardMaxEntries_ e)
                 (shard_at e i) (counters_ e) in
set_counters (set_shard e i s) n.

(** *** FlushKey *)

Definition flush_failed e (k : string) (ver : Z) (err : Error) : Result unit * CacheEngine B J :=
let i := ShardFor e k in
(Failure err, count FlushFailure (set_shard e i (RevertFlushInProgressLocked (shard_at e i) k ver))).

(** The part between the two locked blocks. *)
Definition flush_io e (k : string) (v : bytes) (ver : Z) : Result unit * CacheEngine B J :=
match AppendJournalRecord e (mkRecord kCacheRecordFormatVersion CacheRecordType.FlushIntent k [] ver) with
| (Failure err, e) => (Failure err, e)
| (Success _, e) =>
  match IBackingStore.Put (backingStore_ e) k v with
  | (Failure err, b) => (Failure err, set_store e b)
  | (Success _, b) =>
    AppendJournalRecord (set_store e b)
      (mkRecord kCacheRecordFormatVersion CacheRecordType.FlushComplete k [] ver)
  end
end.

Definition FlushKey e (k : string) (expectedVersion : Z) (checkVersion : bool)
  : Result unit * CacheEngine B J :=
let i := ShardFor e k in
match flush_begin (shard_at e i) k expectedVersion checkVersion with
| (inl r, _) => (r, e)
| (inr (v, ver), s) =>
  match flush_io (set_shard e i s) k v ver with
  | (Failure err, e) => flush_failed e k ver err
  | (Success _, e) =>
    (Success tt, count FlushSuccess (set_shard e i (flush_commit (shard_at e i) k ver)))
  end
end.

(** *** RelieveCapacityPressureIfNeeded *)

Definition is_Dirty (en : Entry) : bool := bool_decide (dirtyState en = Dirty).

Fixpoint relieve_loop (attempts : nat) e (i : nat) : CacheEngine B J :=
match attempts with
| O => e
| S attempts =>
  let s := shard_at e i in
  if negb (over_budget (perShardCapacityBytes_ e) (perShardMaxEntries_ e) s) then e
  else
    let dirtyCountBefore := dirtyCount s in
    let keyToFlush := match find_from_back is_Dirty (lru s) with
                      | Some (_, en) => key en
                      | None => ""%string
                      end in
    if String.eqb keyToFlush "" then evict e i
    else
      let '(flushResult, e) := FlushKey e keyToFlush 0 false in
      let e := evict e i in
      let dirtyCountAfter := dirtyCount (shard_at e i) in
      match flushResult with
      | Failure _ => e
      | Success _ =>
        if dirtyCountBefore <=? dirtyCountAfter then e else relieve_loop attempts e i
      end
end.

Definition RelieveCapacityPressureIfNeeded e (i : nat) : CacheEngine B J :=
relieve_loop kMaxFlushAttemptsPerCall e i.

(** *** Get *)

(** The first locked block: a hit, or the fence at the miss. *)
Definition Get_lookup e (k : string) : (bytes + Z) * CacheEngine B J :=
let i := ShardFor e k in
let s := shard_at e i in
match find s k with
| Some (it, en) => (inl (value en), count Hit (set_shard e i (touch s it)))
| None => (inr (mutationFence s), e)
end.

(** The second one. *)
Definition Get_fill e (k : string) (fenceAtMiss : Z) (v : bytes) : bytes * CacheEngine B J :=
let i := ShardFor e k in
let s := shard_at e i in
if mutationFence s =? fenceAtMiss then (v, insert_or_update e i k v 0 Clean true)
else
  match find s k with
  | Some (it, en) => (value en, count Hit (set_shard e i (touch s it)))
  | None => (v, e)
  end.

Definition Get e (k : string) : Result bytes * CacheEngine B J :=
match CheckReadyForRead e with
| Failure err => (Failure err, e)
| Success _ =>
  if negb (enabled (options_ e)) then (disabled, e) else
  match Get_lookup e k with
  | (inl v, e) => (Success v, e)
  | (inr fenceAtMiss, e) =>
    let e := count Miss e in
    match IBackingStore.Get (backingStore_ e) k with
    | (Failure err, b) => (Failure err, set_store e b)
    | (Success v, b) =>
      let e := set_store e b in
      if kMaxReasonableValueBytes <? zlen v then
        (Failure (mkError ErrorCode.CorruptData
           "backing store returned an implausibly large value; refusing to cache or trust it" 0), e)
      else
        let '(v, e) := Get_fill e k fenceAtMiss v in (Success v, e)
    end
  end
end.

Definition Contains e (k : string) : bool :=
if negb (IsOk (CheckReadyForRead e)) then false
else
  match index (shard_at e (ShardFor e k)) !! k with
  | Some _ => true
  | None => IBackingStore.Contains (backingStore_ e) k
  end.

Definition GetEntryInfo e (k : string) : Result CacheEntryInfo :=
match CheckReadyForRead e with
| Failure err => Failure err
| Success _ =>
  match find (shard_at e (ShardFor e k)) k with
  | None => Failure (mkError ErrorCode.NotFound
                       "key not present in cache (may still be in backing store)" 0)
  | Some (_, en) => Success (mkCacheEntryInfo k (version en) (zlen (value en)) (dirtyState en))
  end
end.

(** *** Put *)

Definition Put_admitted e (k : string) (v : bytes) : Result unit * CacheEngine B J :=
let record := mkRecord kCacheRecordFormatVersion CacheRecordType.Upsert k v 0 in
let '(appendResult, ver, e) := AppendJournalRecordWithNewVersion e record in
match appendResult with
| Failure err => (Failure err, e)
| Success _ =>
  let i := ShardFor e k in
  let e := insert_or_update e i k v ver Dirty true in
  let e := RelieveCapacityPressureIfNeeded e i in
  match writePolicy (options_ e) with
  | WritePolicyKind.WriteThrough => FlushKey e k ver true
  | WritePolicyKind.WriteBackDeferred => (Success tt, e)
  end
end.

Definition Put e (k : string) (v : bytes) : Result unit * CacheEngine B J :=
match CheckReadyForWrite e with
| Failure err => (Failure err, e)
| Success _ =>
  if negb (enabled (options_ e)) then (disabled, e) else
  let '(admitted, e) := TryAdmitWrite e in
  if negb admitted then (not_accepting, e)
  else let '(r, e) := Put_admitted e k v in (r, ReleaseWriteAdmission e)
end.

(** *** Invalidate *)

Definition unflushed {T} (k : string) : Result T :=
Failure (mkError ErrorCode.UnflushedDirtyData
  (String.append (String.append "refusing to invalidate '" k)
    "': it has unflushed dirty data (use ForceInvalidate to override)") 0).

(** The first locked block: the version of the entry, or [None] where the
  invalidation is refused. *)
Definition Invalidate_peek e (k : string) (force : bool) : option Z :=
match find (shard_at e (ShardFor e k)) k with
| Some (_, en) => if negb force && negb (is_clean en) then None else Some (version en)
| None => Some 0
end.

Definition Invalidate_admitted e (k : string) (force : bool) : Result unit * CacheEngine B J :=
let i := ShardFor e k in
match Invalidate_peek e k force with
| None => (unflushed k, e)
| Some entryVersion =>
  let record := mkRecord kCacheRecordFormatVersion CacheRecordType.Invalidate k [] entryVersion in
  match AppendJournalRecord e record with
  | (Failure err, e) => (Failure err, e)
  | (Success _, e) =>
    match IBackingStore.Remove (backingStore_ e) k with
    | (Failure err, b) => (Failure err, set_store e b)
    | (Success _, b) =>
      let e := set_store e b in
      let e := set_shard e i (invalidate_commit (shard_at e i) k entryVersion) in
      (Success tt, count Invalidation e)
    end
  end
end.

Definition InvalidateImpl e (k : string) (force : bool) : Result unit * CacheEngine B J :=
match CheckReadyForWrite e with
| Failure err => (Failure err, e)
| Success _ =>
  let '(admitted, e) := TryAdmitWrite e in
  if negb admitted then (not_accepting, e)
  else let '(r, e) := Invalidate_admitted e k force in (r, ReleaseWriteAdmission e)
end.

Definition Invalidate e (k : string) := InvalidateImpl e k false.
Definition ForceInvalidate e (k : string) := InvalidateImpl e k true.

(** *** Flush *)

Definition Flush e (k : string) : Result unit * CacheEngine B J :=
match CheckReadyForRead e with
| Failure err => (Failure err, e)
| Success _ => FlushKey e k 0 false
end.

(** The keys a pass of [FlushAll] collects in a shard. *)
Definition dirty_keys (s : Shard) : list string :=
map (λ n, key (snd n)) (filter (λ n, is_Dirty (snd n) = true) (lru s)).

(** [lastError], when [anyFailed]. *)
Fixpoint flush_keys e (keys : list string) (last : option Error) : option Error * CacheEngine B J :=
match keys with
| [] => (last, e)
| k :: keys =>
  match FlushKey e k 0 false with
  | (Failure err, e) => flush_keys e keys (Some err)
  | (Success _, e) => flush_keys e keys last
  end
end.

Fixpoint flush_shards e (shards : list nat) (last : option Error) : option Error * CacheEngine B J :=
match shards with
| [] => (last, e)
| i :: shards =>
  let '(last, e) := flush_keys e (dirty_keys (shard_at e i)) last in
  flush_shards e shards last
end.

Definition total_dirty e : Z := foldl (λ acc s, wrap64 (acc + dirtyCount s)) 0 (shards_ e).

Definition TryCompactJournalIfFullyClean e : CacheEngine B J :=
if RecordCount (journal_ e) =? 0 then e
else
  let e := set_admission e (inFlightWriteCount_ e) true in
  let remainingDirty := total_dirty e in
  let e :=
    if remainingDirty =? 0 then
      if RecordCount (journal_ e) =? 0 then e
      else set_journal e (snd (Truncate (journal_ e)))
    else e in
  set_admission e (inFlightWriteCount_ e) false.

Definition FlushAll e : Result unit * CacheEngine B J :=
match CheckReadyForRead e with
| Failure err => (Failure err, e)
| Success _ =>
  match flush_shards e (seq 0 (length (shards_ e))) None with
  | (Some err, e) => (Failure err, e)
  | (None, e) => (Success tt, TryCompactJournalIfFullyClean e)
  end
end.

(** *** Statistics *)

Definition GetStatistics e : CacheStatistics :=
let sum (f : Shard → Z) := foldl (λ acc s, wrap64 (acc + f s)) 0 (shards_ e) in
mkCacheStatistics (counters_ e) (sum index_size) (sum currentBytes) (sum dirtyCount) (sum dirtyBytes).

(** *** Lifecycle *)

Definition Shutdown e : Result unit * CacheEngine B J :=
match lifecycle_ e with
| Stopped | Stopping => (Success tt, e)
| NotReady | RecoveryFailed =>
  (Failure (mkError ErrorCode.InvalidArgument
              "cannot shut down an engine that was never marked ready" 0), e)
| Ready =>
  let e := set_lifecycle e Stopping in
  let '(_, e) := FlushAll e in
  let e := set_lifecycle e Stopped in
  let remainingDirty := total_dirty e in
  if remainingDirty =? 0 then (Success tt, set_journal e (snd (Truncate (journal_ e))))
  else (Success tt, e)
end.

Definition MarkRecoveryComplete e : Result unit * CacheEngine B J :=
match lifecycle_ e with
| Ready => (Success tt, e)
| RecoveryFailed =>
  (Failure (mkError ErrorCode.RecoveryFailed
     "cannot mark recovery complete: a prior ReplayFromJournal() call failed and this engine instance is permanently unusable for its remaining lifetime" 0), e)
| NotReady => (Success tt, set_lifecycle e Ready)
| Stopping | Stopped =>
  (Failure (mkError ErrorCode.InvalidArgument
     "cannot mark recovery complete after the engine has begun shutting down" 0), e)
end.

(** *** ReplayFromJournal *)

(** The callback: the pending entries, and the backing store it removes
  invalidated keys from. *)
Definition replay_record : ReplayCallback (gmap string PendingEntry * B) := λ st raw,
let '(pending, b) := st in
match Decode (payload raw) with
| Failure err => (Failure err, (pending, b))
| Success record =>
  let k := rec_key record in
  let ver := rec_entryVersion record in
  let continue (pending : gmap string PendingEntry) (b : B) :=
    (Success ReplayAction.Continue, (pending, b)) in
  match rec_type record with
  | CacheRecordType.Upsert => continue (<[k := mkPending (rec_value record) ver Dirty]> pending) b
  | CacheRecordType.FlushIntent =>
    match pending !! k with
    | Some p =>
      if p_version p =? ver
      then continue (<[k := mkPending (p_value p) (p_version p) FlushInProgress]> pending) b
      else continue pending b
    | None => continue pending b
    end
  | CacheRecordType.FlushComplete =>
    match pending !! k with
    | Some p => if p_version p =? ver then continue (delete k pending) b else continue pending b
    | None => continue pending b
    end
  | CacheRecordType.Invalidate =>
    let pending := delete k pending in
    match IBackingStore.Remove b k with
    | (Failure err, b) =>
      (Failure (mkError ErrorCode.RecoveryFailed
         (String.append (String.append (String.append
            "journal replay: backing store Remove() failed for key '" k)
            "' during Invalidate replay: ") (message err))
         (platformErrorValue err)), (pending, b))
    | (Success _, b) => continue pending b
    end
  end
end.

Fixpoint insert_pending e (pending : list (string * PendingEntry)) (highest : Z) : CacheEngine B J * Z :=
match pending with
| [] => (e, highest)
| (k, p) :: pending =>
  let e := insert_or_update e (ShardFor e k) k (p_value p) (p_version p) Dirty false in
  insert_pending e pending (Z.max highest (p_version p))
end.

Definition ReplayFromJournal e : Result unit * CacheEngine B J :=
if negb (bool_decide (lifecycle_ e = NotReady)) then
  (Failure (mkError ErrorCode.InvalidArgument
              "ReplayFromJournal() may only be called before MarkRecoveryComplete()" 0), e)
else
  let '(replayResult, (pending, b), j) := Replay replay_record (∅, backingStore_ e) (journal_ e) in
  let e := set_journal (set_store e b) j in
  match replayResult with
  | Failure err => (Failure err, set_lifecycle e RecoveryFailed)
  | Success _ =>
    let '(e, highestVersionSeen) := insert_pending e (pending_order pending) 0 in
    (Success tt, set_version e (Z.max (globalVersionCounter_ e) highestVersionSeen))
  end.
End Engine.
End Engine.
