(* ===== verification/EngineFacts.v ===== *)
(** * EngineFacts: the engine as a map from keys to entries

    The contracts of the blocks the engine's operations are made of: how each
    changes the entries ([engine_get]), the backing store and the journal, over
    the contracts [BackingStoreSpec] and [JournalSpec].  [engine_ok] is the
    well-formedness invariant: well-formed shards, each key in its shard,
    clean entries equal to what the backing store holds, dirty ones small
    enough to be journaled, no version above the counter. *)
From S2P Require Import Prelude Common RecordCodec Storage Journal Store Shard Engine.
Import EntryDirtyState EngineLifecycle Engine.
Open Scope Z_scope.

Section facts.
Context {B J : Type} `{BackingStoreSpec B} `{JournalSpec J}.
Context (hash : string → Z).
Implicit Types e : CacheEngine B J.

Abbreviation ShardFor := (Engine.ShardFor hash).

Definition engine_get e (k : string) : option Entry := shard_get (shard_at e (ShardFor e k)) k.

(** An entry the journal can carry. *)
Definition journalable (en : Entry) : Prop :=
  str_size (key en) ≤ kMaxReasonableLength ∧ zlen (value en) ≤ kMaxReasonableLength ∧
  u64 (version en).

(** What an entry owes to the backing store's map [m]. *)
Definition coherent (m : gmap string bytes) (en : Entry) : Prop :=
  if is_clean en then m !! key en = Some (value en) else journalable en.

Record engine_ok e : Prop := {
  eo_some : shards_ e ≠ [];
  eo_shards : Forall shard_ok (shards_ e);
  eo_place i k en : shard_get (shard_at e i) k = Some en → ShardFor e k = i;
  eo_store : store_ok (backingStore_ e);
  eo_coherent k en : engine_get e k = Some en → coherent (store_map (backingStore_ e)) en;
  eo_version k en : engine_get e k = Some en → 0 ≤ version en ≤ globalVersionCounter_ e;
  eo_counter : 0 ≤ globalVersionCounter_ e < 2 ^ 64
}.

(** Everything but the shards, the store, the journal and the counters. *)
Definition frame_eq e e' : Prop :=
  options_ e' = options_ e ∧ perShardCapacityBytes_ e' = perShardCapacityBytes_ e ∧
  perShardMaxEntries_ e' = perShardMaxEntries_ e ∧
  globalVersionCounter_ e' = globalVersionCounter_ e ∧ lifecycle_ e' = lifecycle_ e ∧
  inFlightWriteCount_ e' = inFlightWriteCount_ e ∧ compactionPaused_ e' = compactionPaused_ e ∧
  length (shards_ e') = length (shards_ e).

#[export] Instance frame_eq_refl : Reflexive frame_eq.
Proof. by intros e. Qed.
#[export] Instance frame_eq_trans : Transitive frame_eq.
Proof. unfold frame_eq. intros a b c Hab Hbc. destruct_conj. split_and!; congruence. Qed.

Definition same_io e e' : Prop :=
  backingStore_ e' = backingStore_ e ∧ journal_ e' = journal_ e.

Lemma ShardFor_frame e e' k : length (shards_ e') = length (shards_ e) → ShardFor e' k = ShardFor e k.
Proof. unfold Engine.ShardFor, zlen. by intros ->. Qed.

Lemma ShardFor_lt e k : shards_ e ≠ [] → (ShardFor e k < length (shards_ e))%nat.
Proof.
  intros Hne. unfold Engine.ShardFor, zlen.
  assert (0 < Z.of_nat (length (shards_ e))) by (destruct (shards_ e); [done|cbn; lia]).
  pose proof (Z.mod_pos_bound (hash k) (Z.of_nat (length (shards_ e)))). lia.
Qed.

Lemma shard_at_ok e i : Forall shard_ok (shards_ e) → shard_ok (shard_at e i).
Proof.
  intros Hall. unfold shard_at. destruct (shards_ e !! i) as [s|] eqn:E; cbn; [|apply Shard_empty_ok].
  by eapply Forall_lookup_1.
Qed.

Lemma shard_at_set e i s j :
  (i < length (shards_ e))%nat →
  shard_at (set_shard e i s) j = if decide (j = i) then s else shard_at e j.
Proof.
  intros Hi. unfold shard_at, set_shard. cbn [shards_]. destruct (decide (j = i)) as [->|Hne].
  - by rewrite list_lookup_insert_eq.
  - by rewrite list_lookup_insert_ne.
Qed.

(** The shape of the shards alone: what the blocks that do no I/O keep. *)
Record shards_ok e : Prop := {
  sh_some : shards_ e ≠ [];
  sh_shards : Forall shard_ok (shards_ e);
  sh_place i k en : shard_get (shard_at e i) k = Some en → ShardFor e k = i
}.

Lemma engine_shards e : engine_ok e → shards_ok e.
Proof. intros []. by constructor. Qed.

(** Replacing the shard of [k] by one that holds nothing new but at [k]. *)
Lemma set_shard_ok e k s :
  shards_ok e → shard_ok s →
  (∀ k' en, shard_get s k' = Some en → k' = k ∨ shard_get (shard_at e (ShardFor e k)) k' ≠ None) →
  shards_ok (set_shard e (ShardFor e k) s) ∧ frame_eq e (set_shard e (ShardFor e k) s) ∧
  ∀ k', engine_get (set_shard e (ShardFor e k) s) k' =
        if decide (ShardFor e k' = ShardFor e k) then shard_get s k' else engine_get e k'.
Proof.
  intros [Hne Hall Hpl] Hs Hnew. pose proof (ShardFor_lt e k Hne) as Hi.
  assert (length (shards_ (set_shard e (ShardFor e k) s)) = length (shards_ e)) as Hlen
    by (cbn; by rewrite length_insert).
  split; [|split].
  - constructor.
    + intros E. apply (f_equal length) in E. rewrite Hlen in E. cbn in E. lia.
    + by apply Forall_insert.
    + intros j k' en. rewrite shard_at_set, (ShardFor_frame _ _ _ Hlen) by done.
      destruct (decide (j = ShardFor e k)) as [->|]; [|apply Hpl].
      intros Hg. destruct (Hnew _ _ Hg) as [->|Hold]; [done|].
      destruct (shard_get (shard_at e (ShardFor e k)) k') as [en'|] eqn:E; [|done]. by eapply Hpl.
  - unfold frame_eq. by split_and!.
  - intros k'. unfold engine_get. rewrite (ShardFor_frame _ _ _ Hlen), shard_at_set by done.
    by destruct (decide _).
Qed.

(** The map of the engine changed at one key. *)
Definition e_updated e e' (k : string) (o : option Entry) : Prop :=
  ∀ k', engine_get e' k' = if decide (k' = k) then o else engine_get e k'.

Definition e_evicted (g : string → option Entry) e' : Prop :=
  ∀ k, engine_get e' k = g k ∨ ∃ en, g k = Some en ∧ is_clean en = true ∧ engine_get e' k = None.

Lemma set_shard_updated e k s o :
  shards_ok e → shard_ok s → updated (shard_at e (ShardFor e k)) s k o →
  shards_ok (set_shard e (ShardFor e k) s) ∧ frame_eq e (set_shard e (ShardFor e k) s) ∧
  e_updated e (set_shard e (ShardFor e k) s) k o.
Proof.
  intros He Hs Hu. destruct (set_shard_ok e k s He Hs) as (Hok & Hf & Hg).
  { intros k' en Hk'. rewrite Hu in Hk'. destruct (decide (k' = k)); [by left|right; congruence]. }
  split; [done|]. split; [done|]. intros k'. rewrite Hg, Hu. unfold engine_get.
  destruct (decide (k' = k)) as [->|Hne].
  - by rewrite decide_True.
  - by destruct (decide (ShardFor e k' = ShardFor e k)) as [->|].
Qed.

(** The number of entries in memory. *)
Definition entry_count e : Z := zsum (λ s, zlen (lru s)) (shards_ e).

Lemma zsum_insert {A} (f : A → Z) (l : list A) i x y :
  l !! i = Some x → zsum f (<[i := y]> l) = zsum f l - f x + f y.
Proof.
  intros Hl. rewrite <- (take_drop_middle l i x Hl) at 2.
  rewrite insert_take_drop by (by apply lookup_lt_Some in Hl).
  rewrite !zsum_app. unfold zsum. cbn. lia.
Qed.

Lemma entry_count_set e i s :
  (i < length (shards_ e))%nat →
  entry_count (set_shard e i s) = entry_count e - zlen (lru (shard_at e i)) + zlen (lru s).
Proof.
  intros Hi. unfold entry_count, shard_at. cbn [set_shard shards_].
  destruct (lookup_lt_is_Some_2 _ _ Hi) as [s0 Hs0]. rewrite Hs0. cbn.
  by rewrite (zsum_insert _ _ _ s0).
Qed.

Lemma entry_count_same e e' : shards_ e' = shards_ e → entry_count e' = entry_count e.
Proof. unfold entry_count. by intros ->. Qed.

Lemma shards_ok_same e e' : shards_ e' = shards_ e → shards_ok e → shards_ok e'.
Proof.
  intros E []. constructor; unfold Engine.ShardFor, shard_at in *; by rewrite E.
Qed.

Lemma engine_get_same e e' k : shards_ e' = shards_ e → engine_get e' k = engine_get e k.
Proof. unfold engine_get, Engine.ShardFor, shard_at. by intros ->. Qed.

(** *** The blocks without I/O *)

Lemma insert_or_update_contract e k v ver st enforce :
  shards_ok e →
  let e' := insert_or_update e (ShardFor e k) k v ver st enforce in
  shards_ok e' ∧ frame_eq e e' ∧ same_io e e' ∧
  if stale ver (engine_get e k) then ∀ k', engine_get e' k' = engine_get e k'
  else let g := λ k', if decide (k' = k) then Some (mkEntry k v ver st) else engine_get e k' in
       e_evicted g e' ∧ (enforce = false → ∀ k', engine_get e' k' = g k').
Proof.
  intros He e'. unfold e', insert_or_update.
  pose proof (shard_at_ok e (ShardFor e k) (sh_shards e He)) as Hs.
  destruct (InsertOrUpdateLocked _ _ _ _ _ _ _ _ _) as [s n] eqn:E.
  pose proof (InsertOrUpdate_contract _ _ _ _ _ _ _ _ _ _ _ Hs E) as HC.
  fold (engine_get e k) in HC. destruct (stale ver (engine_get e k)) eqn:Est.
  - destruct HC as [-> ->].
    destruct (set_shard_updated e k _ _ He Hs (updated_same _ k)) as (Hok & Hf & Hu).
    split; [by eapply shards_ok_same; [|exact Hok]|]. split; [done|]. split; [done|].
    intros k'. erewrite engine_get_same by done. rewrite Hu.
    by destruct (decide (k' = k)) as [->|].
  - destruct HC as (Hs' & _ & _ & s1 & Hu & Hev & Henf).
    destruct (set_shard_ok e k s He Hs') as (Hok & Hf & Hg).
    { intros k' en Hk'. destruct (Hev k') as [Heq|(en' & _ & _ & Hnone)]; [|congruence].
      rewrite Heq, Hu in Hk'. destruct (decide (k' = k)); [by left|right; congruence]. }
    split; [by eapply shards_ok_same; [|exact Hok]|]. split; [done|]. split; [done|].
    assert (∀ k', engine_get (set_counters (set_shard e (ShardFor e k) s) n) k' =
              engine_get (set_shard e (ShardFor e k) s) k') as Hc by (intros; by apply engine_get_same).
    split.
    + intros k'. rewrite Hc, Hg. destruct (decide (ShardFor e k' = ShardFor e k)) as [Hsf|Hsf].
      * specialize (Hev k'). rewrite (Hu k') in Hev. unfold engine_get at 1 2.
        by rewrite Hsf.
      * left. rewrite decide_False; [done|congruence].
    + intros Hen k'. rewrite Hc, Hg, (Henf Hen), Hu. unfold engine_get.
      destruct (decide (ShardFor e k' = ShardFor e k)) as [Hsf|Hsf].
      * by rewrite Hsf.
      * rewrite decide_False; [done|congruence].
Qed.

Lemma insert_or_update_count e k v ver st enforce :
  shards_ok e →
  entry_count (insert_or_update e (ShardFor e k) k v ver st enforce) ≤ entry_count e + 1.
Proof.
  intros He. unfold insert_or_update.
  pose proof (shard_at_ok e (ShardFor e k) (sh_shards e He)) as Hs.
  destruct (InsertOrUpdateLocked _ _ _ _ _ _ _ _ _) as [s n] eqn:E.
  pose proof (InsertOrUpdate_contract _ _ _ _ _ _ _ _ _ _ _ Hs E) as HC.
  rewrite (entry_count_same (set_shard e (ShardFor e k) s)) by done.
  rewrite entry_count_set by (by apply ShardFor_lt, sh_some).
  destruct (stale _ _); [destruct HC as [-> _]; lia|]. destruct HC as (_ & _ & Hl & _). lia.
Qed.

Lemma evict_contract e i :
  shards_ok e → (i < length (shards_ e))%nat →
  shards_ok (evict e i) ∧ frame_eq e (evict e i) ∧ same_io e (evict e i) ∧
  e_evicted (engine_get e) (evict e i) ∧ entry_count (evict e i) ≤ entry_count e.
Proof.
  intros He Hi. unfold evict. pose proof (shard_at_ok e i (sh_shards e He)) as Hs.
  destruct (EvictCleanEntriesLocked _ _ _ _) as [s n] eqn:E.
  apply EvictCleanEntriesLocked_get in E as (Hs' & Hev & _ & Hl); [|done].
  set (e' := set_counters (set_shard e i s) n).
  assert (length (shards_ e') = length (shards_ e)) as Hlen by (cbn; by rewrite length_insert).
  assert (∀ j, shard_at e' j = if decide (j = i) then s else shard_at e j) as Hat
    by (intros j; by apply shard_at_set).
  destruct He as [Hne Hall Hpl]. split; [|split; [|split; [done|split]]].
  - constructor.
    + intros E0. apply (f_equal length) in E0. rewrite Hlen in E0. cbn in E0. lia.
    + by apply Forall_insert.
    + intros j k en. rewrite Hat, (ShardFor_frame _ _ _ Hlen).
      destruct (decide (j = i)) as [->|]; [|apply Hpl]. intros Hg.
      destruct (Hev k) as [Heq|(en' & _ & _ & Hn)]; [|congruence]. rewrite Heq in Hg. by eapply Hpl.
  - unfold frame_eq. by split_and!.
  - intros k. unfold engine_get. rewrite (ShardFor_frame _ _ _ Hlen), Hat.
    destruct (decide (ShardFor e k = i)) as [->|]; [|by left]. apply Hev.
  - rewrite (entry_count_same (set_shard e i s)), entry_count_set by done. lia.
Qed.

(** *** The journal as a list of cache records *)

(** [ds] are the records of a journal that has not failed. *)
Definition log_is (j : J) (ds : list CacheJournalRecord) : Prop :=
  journal_reliable j ∧ journal_clean j ∧
  Forall2 (λ r d, Decode (payload r) = Success d) (journal_records j) ds.

(** ... and of one a power cut may have left a torn record in: enough to read
    it, not to append to it. *)
Definition log_reads (j : J) (ds : list CacheJournalRecord) : Prop :=
  journal_reliable j ∧ Forall2 (λ r d, Decode (payload r) = Success d) (journal_records j) ds.

Lemma log_is_reads j ds : log_is j ds ↔ journal_clean j ∧ log_reads j ds.
Proof. unfold log_is, log_reads. tauto. Qed.

Lemma zlen_Encode_fits d : record_ok d → zlen (Encode d) ≤ kMaxReasonablePayloadLength.
Proof.
  intros [_ _ Hk Hv]. rewrite zlen_Encode.
  unfold kMaxReasonableLength, kMaxReasonablePayloadLength in *. lia.
Qed.

Lemma append_log j ds d :
  log_is j ds → record_ok d →
  ∃ seq j', Append j (Encode d) = (Success seq, j') ∧ log_is j' (ds ++ [d]).
Proof.
  intros (Hr & Hc & Hall) Hd. destruct (Append_reliable j (Encode d) Hr (zlen_Encode_fits d Hd)) as (seq & j' & E & Hr').
  exists seq, j'. split; [done|].
  destruct (Append_ok _ _ _ _ Hc (zlen_Encode_fits d Hd) E) as [Hc' HR].
  split; [done|]. split; [done|]. rewrite HR. apply Forall2_app; [done|]. constructor; [|constructor].
  cbn. pose proof (Decode_Encode_aux d [] Hd) as HD. by rewrite app_nil_r in HD.
Qed.

Lemma AppendJournalRecord_contract e d r e' :
  AppendJournalRecord e d = (r, e') →
  shards_ e' = shards_ e ∧ frame_eq e e' ∧ backingStore_ e' = backingStore_ e ∧
  ∀ ds, log_is (journal_ e) ds → record_ok d → r = Success tt ∧ log_is (journal_ e') (ds ++ [d]).
Proof.
  unfold AppendJournalRecord. destruct (Append (journal_ e) (Encode d)) as [[seq|err] j'] eqn:E;
    intros [= <- <-]; (split; [done|]); (split; [by unfold frame_eq|]); (split; [done|]);
    intros ds Hl Hd; destruct (append_log _ _ _ Hl Hd) as (seq' & j1 & E1 & Hl');
    rewrite E in E1; simplify_eq; done.
Qed.

(** *** The I/O of a flush *)

Definition flush_record (t : CacheRecordType.CacheRecordType) (k : string) (ver : Z) : CacheJournalRecord :=
  mkRecord kCacheRecordFormatVersion t k [] ver.

Definition intent := flush_record CacheRecordType.FlushIntent.
Definition complete := flush_record CacheRecordType.FlushComplete.

Lemma flush_record_ok t k ver :
  str_size k ≤ kMaxReasonableLength → u64 ver → record_ok (flush_record t k ver).
Proof. intros. by constructor. Qed.

Lemma journalable_fits k v :
  str_size k ≤ kMaxReasonableLength → zlen v ≤ kMaxReasonableLength → store_fits k v.
Proof.
  unfold store_fits, kMaxReasonableLength, FileBackingStore.kMaxReasonableLength. lia.
Qed.

Lemma flush_io_contract e k v ver r e' :
  store_ok (backingStore_ e) → journalable (mkEntry k v ver Dirty) → flush_io e k v ver = (r, e') →
  let m := store_map (backingStore_ e) in let m' := store_map (backingStore_ e') in
  shards_ e' = shards_ e ∧ frame_eq e e' ∧ store_ok (backingStore_ e') ∧
  match r with
  | Success _ => m' = <[k := v]> m
  | Failure _ => m' = m ∨ m' = <[k := v]> m
  end ∧
  ∀ ds, log_is (journal_ e) ds →
    match r with
    | Success _ => log_is (journal_ e') (ds ++ [intent k ver; complete k ver])
    | Failure _ => m' = m ∧ log_is (journal_ e') (ds ++ [intent k ver])
    end.
Proof.
  intros Hok (Hk & Hv & Hver) E m m'. cbn in Hk, Hv, Hver. unfold flush_io in E.
  pose proof (journalable_fits k v Hk Hv) as Hfit.
  pose proof (flush_record_ok CacheRecordType.FlushIntent k ver Hk Hver) as Ri.
  pose proof (flush_record_ok CacheRecordType.FlushComplete k ver Hk Hver) as Rc.
  destruct (AppendJournalRecord e _) as [[[]|err] e1] eqn:E1;
    apply AppendJournalRecord_contract in E1 as (S1 & F1 & B1 & L1).
  2:{ injection E as <- <-. unfold m'. rewrite B1. split_and!; [done..|by left|].
      intros ds Hl. by destruct (L1 ds Hl Ri). }
  rewrite B1 in E.
  destruct (IBackingStore.Put (backingStore_ e) k v) as [[[]|err] b] eqn:E2;
    destruct (Put_spec _ _ _ _ _ Hok Hfit E2) as (Hok' & Hm & _).
  - destruct (AppendJournalRecord (set_store e1 b) _) as [pr e2] eqn:E3.
    apply AppendJournalRecord_contract in E3 as (S3 & F3 & B3 & L3).
    injection E as <- <-. unfold m'. rewrite B3. cbn [backingStore_ set_store].
    split; [by rewrite S3|]. split; [by etrans; [exact F1|etrans; [|exact F3]]|]. split; [done|].
    split; [destruct pr; auto|]. intros ds Hl.
    destruct (L1 ds Hl Ri) as [_ Hl1]. destruct (L3 _ Hl1 Rc) as [-> Hl2].
    by rewrite <- app_assoc in Hl2.
  - injection E as <- <-. unfold m'. cbn [backingStore_ set_store]. split; [done|].
    split; [done|]. split; [done|]. split; [by left|]. intros ds Hl.
    destruct (L1 ds Hl Ri) as [_ Hl1]. done.
Qed.

(** *** FlushKey *)

Lemma engine_ok_intro e e' :
  engine_ok e → shards_ok e' → frame_eq e e' → store_ok (backingStore_ e') →
  (∀ k en, engine_get e' k = Some en →
     coherent (store_map (backingStore_ e')) en ∧ 0 ≤ version en ≤ globalVersionCounter_ e) →
  engine_ok e'.
Proof.
  intros He [Hs1 Hs2 Hs3] Hf Hst Hen. destruct Hf as (_ & _ & _ & Hg & _).
  constructor; try done.
  - intros k en Hk. by apply (Hen k).
  - intros k en Hk. rewrite Hg. by apply (Hen k).
  - rewrite Hg. apply He.
Qed.

Lemma engine_get_key e k en : engine_ok e → engine_get e k = Some en → key en = k.
Proof. intros He. apply shard_get_key, shard_at_ok, He. Qed.

Lemma flush_begin_engine e k ev cv r s :
  shards_ok e → flush_begin (shard_at e (ShardFor e k)) k ev cv = (r, s) →
  match r with
  | inl _ => True
  | inr (v, ver) =>
    engine_get e k = Some (mkEntry k v ver Dirty) ∧ (cv = true → ver = ev) ∧
    shards_ok (set_shard e (ShardFor e k) s) ∧ frame_eq e (set_shard e (ShardFor e k) s) ∧
    e_updated e (set_shard e (ShardFor e k) s) k (Some (mkEntry k v ver FlushInProgress)) ∧
    entry_count (set_shard e (ShardFor e k) s) = entry_count e
  end.
Proof.
  intros He E. pose proof (shard_at_ok e (ShardFor e k) (sh_shards e He)) as Hs.
  destruct (flush_begin_contract _ _ _ _ _ _ Hs E) as (Hs' & Hl & _ & HC).
  destruct r as [|[v ver]]; [done|]. destruct HC as (Hg & Hcv & Hu).
  split; [done|]. split; [done|].
  destruct (set_shard_updated e k s _ He Hs' Hu) as (? & ? & ?). split_and!; [done..|].
  rewrite entry_count_set by (by apply ShardFor_lt, He). lia.
Qed.

(** A shard of which one entry in flight is committed or reverted. *)
Lemma flush_end_engine e k v ver st s :
  shards_ok e → engine_get e k = Some (mkEntry k v ver FlushInProgress) →
  (st = Clean ∧ s = flush_commit (shard_at e (ShardFor e k)) k ver ∨
   st = Dirty ∧ s = RevertFlushInProgressLocked (shard_at e (ShardFor e k)) k ver) →
  shards_ok (set_shard e (ShardFor e k) s) ∧ frame_eq e (set_shard e (ShardFor e k) s) ∧
  e_updated e (set_shard e (ShardFor e k) s) k (Some (mkEntry k v ver st)) ∧
  entry_count (set_shard e (ShardFor e k) s) = entry_count e.
Proof.
  intros He Hg Hor. pose proof (shard_at_ok e (ShardFor e k) (sh_shards e He)) as Hs.
  unfold engine_get in Hg.
  assert (flushing ver (shard_get (shard_at e (ShardFor e k)) k) =
          Some (mkEntry k v ver FlushInProgress)) as Hfl.
  { rewrite Hg. cbn. by rewrite Z.eqb_refl. }
  destruct Hor as [[-> Hs0]|[-> Hs0]]; symmetry in Hs0.
  - destruct (flush_commit_contract _ _ _ _ Hs Hs0) as (Hs' & Hl & _ & HC). rewrite Hfl in HC.
    destruct (set_shard_updated e k s _ He Hs' HC) as (? & ? & ?). split_and!; [done..|].
    rewrite entry_count_set by (by apply ShardFor_lt, He). lia.
  - destruct (Revert_contract _ _ _ _ Hs Hs0) as (Hs' & Hl & _ & HC). rewrite Hfl in HC.
    destruct (set_shard_updated e k s _ He Hs' HC) as (? & ? & ?). split_and!; [done..|].
    rewrite entry_count_set by (by apply ShardFor_lt, He). lia.
Qed.

(** What a flush did: nothing; the entry is clean and stored; or it failed
    with the entry as it was. *)
Inductive flush_outcome e (k : string) (ev : Z) (cv : bool) e' : Result unit → Prop :=
  | flush_nothing r :
      e' = e → (r = Success tt ∨ engine_get e k = None) →
      (∀ v ver, engine_get e k = Some (mkEntry k v ver Dirty) → cv = true ∧ ver ≠ ev) →
      flush_outcome e k ev cv e' r
  | flush_done v ver :
      engine_get e k = Some (mkEntry k v ver Dirty) →
      e_updated e e' k (Some (mkEntry k v ver Clean)) →
      store_map (backingStore_ e') = <[k := v]> (store_map (backingStore_ e)) →
      (∀ ds, log_is (journal_ e) ds →
         log_is (journal_ e') (ds ++ [intent k ver; complete k ver])) →
      flush_outcome e k ev cv e' (Success tt)
  | flush_fail v ver err :
      engine_get e k = Some (mkEntry k v ver Dirty) →
      (∀ k', engine_get e' k' = engine_get e k') →
      (store_map (backingStore_ e') = store_map (backingStore_ e) ∨
       store_map (backingStore_ e') = <[k := v]> (store_map (backingStore_ e))) →
      (∀ ds, log_is (journal_ e) ds →
         store_map (backingStore_ e') = store_map (backingStore_ e) ∧
         log_is (journal_ e') (ds ++ [intent k ver])) →
      flush_outcome e k ev cv e' (Failure err).

Lemma coherent_ne m k v en : key en ≠ k → coherent (<[k := v]> m) en ↔ coherent m en.
Proof. intros Hne. unfold coherent. rewrite lookup_insert_ne by done. done. Qed.

Lemma FlushKey_contract e k ev cv r e' :
  engine_ok e → FlushKey hash e k ev cv = (r, e') →
  engine_ok e' ∧ frame_eq e e' ∧ entry_count e' = entry_count e ∧ flush_outcome e k ev cv e' r.
Proof.
  intros He E. pose proof (engine_shards e He) as Hsh. unfold FlushKey in E.
  destruct (flush_begin _ k ev cv) as [[r0|[v ver]] s] eqn:Eb.
  { injection E as <- <-. split; [done|]. split; [done|]. split; [done|].
    unfold flush_begin in Eb. unfold engine_get, shard_get.
    apply flush_nothing; [done|..]; unfold engine_get, shard_get;
      destruct (find _ k) as [[it en]|]; [|by right|intros v ver [= ->]|done].
    - left. destruct (cv && _); [by injection Eb as <- _|]. destruct (dirtyState en); by simplify_eq.
    - cbn [version dirtyState] in Eb. destruct cv; cbn [andb] in Eb; [|done].
      split; [done|]. intros ->. by rewrite Z.eqb_refl in Eb. }
  destruct (flush_begin_engine _ _ _ _ _ _ Hsh Eb) as (Hg & _ & Hsh1 & F1 & U1 & N1).
  set (e1 := set_shard e (ShardFor e k) s) in *.
  assert (journalable (mkEntry k v ver Dirty)) as Hj by apply (eo_coherent e He k _ Hg).
  destruct (flush_io e1 k v ver) as [io e2] eqn:Eio.
  destruct (flush_io_contract e1 k v ver io e2 (eo_store e He) Hj Eio) as (S2 & F2 & Hst2 & Hm2 & Hl2).
  change (backingStore_ e1) with (backingStore_ e) in *. change (journal_ e1) with (journal_ e) in *.
  assert (shards_ok e2) as Hsh2 by (by eapply shards_ok_same; [|exact Hsh1]).
  assert (engine_get e2 k = Some (mkEntry k v ver FlushInProgress)) as Hg2.
  { rewrite (engine_get_same e1 e2 k S2), U1. by rewrite decide_True. }
  assert (ShardFor e2 k = ShardFor e k) as Hsf.
  { apply ShardFor_frame. rewrite S2. apply F1. }
  assert (frame_eq e e2) as F12 by by etrans.
  destruct io as [[]|err].
  - set (s2 := flush_commit (shard_at e2 (ShardFor e k)) k ver) in *.
    destruct (flush_end_engine e2 k v ver Clean s2) as (Hsh3 & F3 & U3 & N3);
      [done|done|left; by rewrite Hsf|]. rewrite Hsf in Hsh3, F3, U3, N3. injection E as <- <-.
    set (e3 := count FlushSuccess (set_shard e2 (ShardFor e k) s2)).
    assert (e_updated e e3 k (Some (mkEntry k v ver Clean))) as U.
    { intros k'. unfold e3. rewrite (engine_get_same (set_shard e2 (ShardFor e k) s2)), U3 by done.
      destruct (decide (k' = k)) as [->|]; [done|].
      rewrite (engine_get_same e1 e2 k' S2), U1. by rewrite decide_False. }
    assert (frame_eq e e3) as F by (etrans; [exact F12|exact F3]).
    split; [|split; [done|split; [|by eapply flush_done]]].
    2:{ rewrite (entry_count_same (set_shard e2 (ShardFor e k) s2)) by done.
        by rewrite N3, (entry_count_same e1 e2 S2), N1. }
    apply (engine_ok_intro e); [done|by eapply shards_ok_same; [|exact Hsh3]|done|done|].
    intros k' en Hk'. rewrite U in Hk'. cbn [e3 count set_counters set_shard backingStore_] in *.
    rewrite Hm2. destruct (decide (k' = k)) as [->|Hne].
    + injection Hk' as <-. split; [unfold coherent; cbn; by rewrite lookup_insert_eq|].
      apply (eo_version e He k _ Hg).
    + pose proof (engine_get_key e k' en He Hk'). split; [|by apply (eo_version e He k')].
      apply coherent_ne; [congruence|]. by apply (eo_coherent e He k').
  - unfold flush_failed in E. rewrite Hsf in E.
    set (s2 := RevertFlushInProgressLocked (shard_at e2 (ShardFor e k)) k ver) in *.
    destruct (flush_end_engine e2 k v ver Dirty s2) as (Hsh3 & F3 & U3 & N3);
      [done|done|right; by rewrite Hsf|]. rewrite Hsf in Hsh3, F3, U3, N3. injection E as <- <-.
    set (e3 := count FlushFailure (set_shard e2 (ShardFor e k) s2)).
    assert (∀ k', engine_get e3 k' = engine_get e k') as U.
    { intros k'. unfold e3. rewrite (engine_get_same (set_shard e2 (ShardFor e k) s2)), U3 by done.
      destruct (decide (k' = k)) as [->|]; [done|].
      rewrite (engine_get_same e1 e2 k' S2), U1. by rewrite decide_False. }
    assert (frame_eq e e3) as F by (etrans; [exact F12|exact F3]).
    split; [|split; [done|split; [|by eapply flush_fail]]].
    2:{ rewrite (entry_count_same (set_shard e2 (ShardFor e k) s2)) by done.
        by rewrite N3, (entry_count_same e1 e2 S2), N1. }
    apply (engine_ok_intro e); [done|by eapply shards_ok_same; [|exact Hsh3]|done|done|].
    intros k' en Hk'. rewrite U in Hk'. cbn [e3 count set_counters set_shard backingStore_] in *.
    pose proof (engine_get_key e k' en He Hk') as Hkey.
    split; [|by apply (eo_version e He k')].
    pose proof (eo_coherent e He k' en Hk') as Hco.
    destruct Hm2 as [->| ->]; [done|]. destruct (decide (k' = k)) as [->|Hne].
    + assert (en = mkEntry k v ver Dirty) as -> by congruence. exact Hj.
    + apply coherent_ne; [congruence|done].
Qed.
End facts.
