(* ===== verification/Durability.v ===== *)
(** * Durability: what the engine holds, and what a restart recovers

    [view] is the map the engine presents to its clients: the entries in
    memory over the backing store.  [recovered] is the map a restart of the
    process rebuilds from the journal and the backing store.  [durable] relates
    the two; the operations of the engine are shown to implement a map and to
    keep [durable], for every behaviour of the backing store. *)
From S2P Require Import Prelude Common RecordCodec Storage Journal Store Shard Engine EngineFacts.
Import EntryDirtyState EngineLifecycle Engine.
Open Scope Z_scope.

(** ** Replay, without I/O *)

Definition pending_step (pending : gmap string PendingEntry) (d : CacheJournalRecord)
    : gmap string PendingEntry :=
  let k := rec_key d in
  let ver := rec_entryVersion d in
  match rec_type d with
  | CacheRecordType.Upsert => <[k := mkPending (rec_value d) ver Dirty]> pending
  | CacheRecordType.FlushIntent =>
    match pending !! k with
    | Some p => if p_version p =? ver
                then <[k := mkPending (p_value p) (p_version p) FlushInProgress]> pending else pending
    | None => pending
    end
  | CacheRecordType.FlushComplete =>
    match pending !! k with
    | Some p => if p_version p =? ver then delete k pending else pending
    | None => pending
    end
  | CacheRecordType.Invalidate => delete k pending
  end.

Definition is_invalidate (d : CacheJournalRecord) : bool :=
  bool_decide (rec_type d = CacheRecordType.Invalidate).

Definition store_step (m : gmap string bytes) (d : CacheJournalRecord) : gmap string bytes :=
  if is_invalidate d then delete (rec_key d) m else m.

(** The pending entries after the records; the backing store after them. *)
Definition pending_of (ds : list CacheJournalRecord) : gmap string PendingEntry := foldl pending_step ∅ ds.
Definition store_after (ds : list CacheJournalRecord) (m : gmap string bytes) : gmap string bytes :=
  foldl store_step m ds.

(** The map after a restart on these records and this backing store. *)
Definition recovered (ds : list CacheJournalRecord) (m : gmap string bytes) (k : string) : option bytes :=
  match pending_of ds !! k with
  | Some p => Some (p_value p)
  | None => store_after ds m !! k
  end.

(** The journal holds an [Invalidate] record of the key. *)
Definition invalidated (ds : list CacheJournalRecord) (k : string) : bool :=
  existsb (λ d, is_invalidate d && String.eqb (rec_key d) k) ds.

Lemma pending_of_snoc ds d : pending_of (ds ++ [d]) = pending_step (pending_of ds) d.
Proof. unfold pending_of. by rewrite foldl_app. Qed.

Lemma invalidated_app ds ts k : invalidated (ds ++ ts) k = invalidated ds k || invalidated ts k.
Proof. apply existsb_app. Qed.

Lemma store_after_lookup ds m k :
  store_after ds m !! k = if invalidated ds k then None else m !! k.
Proof.
  unfold store_after. induction ds as [|d ds IH] using rev_ind; [done|].
  rewrite foldl_app, invalidated_app. cbn [foldl invalidated existsb]. unfold store_step at 1.
  destruct (is_invalidate d); cbn [andb]; [|by rewrite !orb_false_r].
  rewrite orb_false_r. destruct (String.eqb_spec (rec_key d) k) as [->|Hne].
  - by rewrite lookup_delete_eq, orb_true_r.
  - by rewrite lookup_delete_ne, IH, orb_false_r.
Qed.

Lemma pending_step_ne pending d k : rec_key d ≠ k → pending_step pending d !! k = pending !! k.
Proof.
  intros Hne. unfold pending_step. destruct (rec_type d).
  - by rewrite lookup_insert_ne.
  - destruct (pending !! rec_key d) as [p|]; [|done]. destruct (_ =? _); [|done]. by rewrite lookup_insert_ne.
  - destruct (pending !! rec_key d) as [p|]; [|done]. destruct (_ =? _); [|done]. by rewrite lookup_delete_ne.
  - by rewrite lookup_delete_ne.
Qed.

(** What an entry in memory owes to the pending entries of its key. *)
Definition journaled (pending : option PendingEntry) (o : option Entry) : Prop :=
  match o with
  | Some en => if is_clean en then pending = None
               else ∃ st, pending = Some (mkPending (value en) (version en) st)
  | None => pending = None
  end.

Section durability.
Context {B J : Type} `{BackingStoreSpec B} `{JournalSpec J}.
Context (hash : string → Z).
Implicit Types e : CacheEngine B J.

Abbreviation engine_get := (EngineFacts.engine_get hash).
Abbreviation engine_ok := (EngineFacts.engine_ok hash).

Definition view e (k : string) : option bytes :=
  match engine_get e k with
  | Some en => Some (value en)
  | None => store_map (backingStore_ e) !! k
  end.

(** Every key not invalidated since the journal was last emptied has in the
    journal what its entry in memory needs. *)
Definition durable e (ds : list CacheJournalRecord) : Prop :=
  log_is (journal_ e) ds ∧
  ∀ k, invalidated ds k = false → journaled (pending_of ds !! k) (engine_get e k).

Lemma durable_recovered e ds k :
  engine_ok e → durable e ds → invalidated ds k = false →
  recovered ds (store_map (backingStore_ e)) k = view e k.
Proof.
  intros He [_ Hd] Hk. specialize (Hd k Hk). unfold recovered, view.
  rewrite store_after_lookup, Hk. destruct (engine_get e k) as [en|] eqn:Eg; cbn in Hd.
  - pose proof (eo_coherent hash e He k en Eg) as Hc. unfold coherent in Hc.
    pose proof (engine_get_key hash e k en He Eg) as <-.
    destruct (is_clean en); [by rewrite Hd|]. by destruct Hd as [st ->].
  - by rewrite Hd.
Qed.

(** A step that changes nothing a client sees and loses nothing. *)
Definition quiet e e' : Prop :=
  engine_ok e' ∧ frame_eq e e' ∧ entry_count e' ≤ entry_count e ∧ (∀ k, view e' k = view e k) ∧
  ∀ ds, durable e ds → ∃ ts, durable e' (ds ++ ts) ∧ forallb (λ d, negb (is_invalidate d)) ts = true.

Lemma quiet_refl e : engine_ok e → quiet e e.
Proof.
  intros He. split; [done|]. split; [done|]. split; [done|]. split; [done|].
  intros ds Hd. exists []. by rewrite app_nil_r.
Qed.

Lemma quiet_trans e1 e2 e3 : quiet e1 e2 → quiet e2 e3 → quiet e1 e3.
Proof.
  intros (_ & F1 & N1 & V1 & D1) (Ok & F2 & N2 & V2 & D2). split; [done|]. split; [by etrans|].
  split; [lia|]. split; [intros k; by rewrite V2|]. intros ds Hd.
  destruct (D1 ds Hd) as (ts & Hd1 & Hts). destruct (D2 _ Hd1) as (us & Hd2 & Hus).
  exists (ts ++ us). rewrite app_assoc. split; [done|]. by rewrite forallb_app, Hts, Hus.
Qed.

Lemma no_invalidate ts k : forallb (λ d, negb (is_invalidate d)) ts = true → invalidated ts k = false.
Proof.
  unfold invalidated. induction ts as [|d ts IH]; [done|]. cbn. intros E.
  apply andb_true_iff in E as [E1 E2]. apply negb_true_iff in E1. rewrite E1. cbn. by apply IH.
Qed.

(** Eviction is quiet. *)
Lemma evict_quiet e i :
  engine_ok e → (i < length (shards_ e))%nat → quiet e (evict e i).
Proof.
  intros He Hi.
  destruct (evict_contract hash e i (engine_shards hash e He) Hi) as (Hsh & F & [Hst Hj] & Hev & Hn).
  split; [|split; [done|split; [done|split]]].
  - apply (engine_ok_intro hash e); [done|done|done|rewrite Hst; apply He|].
    intros k en Hk. rewrite Hst. destruct (Hev k) as [Heq|(en' & _ & _ & Hnone)]; [|congruence].
    rewrite Heq in Hk. split; [by apply (eo_coherent hash e He k)|by apply (eo_version hash e He k)].
  - intros k. unfold view. rewrite Hst.
    destruct (Hev k) as [->|(en & Hg & Hc & ->)]; [done|]. rewrite Hg.
    pose proof (eo_coherent hash e He k en Hg) as Hco. unfold coherent in Hco. rewrite Hc in Hco.
    by rewrite <- (engine_get_key hash e k en He Hg).
  - intros ds [Hl Hd]. exists []. rewrite app_nil_r. split; [|done]. split; [by rewrite Hj|].
    intros k Hk. specialize (Hd k Hk). destruct (Hev k) as [->|(en & Hg & Hc & ->)]; [done|].
    rewrite Hg in Hd. cbn in Hd. by rewrite Hc in Hd.
Qed.

Lemma pending_intent ds k ver p :
  pending_of ds !! k = Some p →
  ∃ st, pending_of (ds ++ [intent k ver]) !! k = Some (mkPending (p_value p) (p_version p) st).
Proof.
  intros Hp. rewrite pending_of_snoc. unfold pending_step. cbn. rewrite Hp.
  destruct (p_version p =? ver); [rewrite lookup_insert_eq; eauto|].
  exists (p_state p). rewrite Hp. by destruct p.
Qed.

Lemma pending_complete ds k v ver st :
  pending_of ds !! k = Some (mkPending v ver st) → pending_of (ds ++ [complete k ver]) !! k = None.
Proof.
  intros Hp. rewrite pending_of_snoc. unfold pending_step. cbn. rewrite Hp. cbn.
  by rewrite Z.eqb_refl, lookup_delete_eq.
Qed.

(** A flush is quiet, whatever its outcome. *)
Lemma FlushKey_quiet e k ev cv r e' :
  engine_ok e → FlushKey hash e k ev cv = (r, e') → quiet e e'.
Proof.
  intros He E. destruct (FlushKey_contract hash e k ev cv r e' He E) as (He' & F & N & Ho).
  destruct Ho as [r -> _ _|v ver Hg Hu Hm Hl|v ver err Hg Hsame Hm Hl]; [by apply quiet_refl| |].
  - split; [done|]. split; [done|]. split; [lia|]. split.
    + intros k'. unfold view. rewrite Hu, Hm. destruct (decide (k' = k)) as [->|].
      * by rewrite Hg.
      * by rewrite lookup_insert_ne.
    + intros ds [Hlog Hd]. exists [intent k ver; complete k ver]. split; [|done].
      split; [by apply Hl|]. intros k' Hk'.
      rewrite invalidated_app in Hk'. apply orb_false_iff in Hk' as [Hk' _].
      specialize (Hd k' Hk'). rewrite Hu.
      change [intent k ver; complete k ver] with ([intent k ver] ++ [complete k ver]).
      rewrite app_assoc. destruct (decide (k' = k)) as [->|Hne].
      * rewrite Hg in Hd. destruct Hd as [st Hp]. destruct (pending_intent ds k ver _ Hp) as [st' Hp'].
        by eapply pending_complete.
      * by rewrite !pending_of_snoc, !pending_step_ne by done.
  - split; [done|]. split; [done|]. split; [lia|]. split.
    + intros k'. unfold view. rewrite Hsame. destruct Hm as [->| ->]; [done|].
      destruct (decide (k' = k)) as [->|]; [by rewrite Hg|]. by rewrite lookup_insert_ne.
    + intros ds [Hlog Hd]. destruct (Hl ds Hlog) as [_ Hlog']. exists [intent k ver]. split; [|done].
      split; [done|]. intros k' Hk'.
      rewrite invalidated_app in Hk'. apply orb_false_iff in Hk' as [Hk' _].
      specialize (Hd k' Hk'). rewrite Hsame. destruct (decide (k' = k)) as [->|Hne].
      * rewrite Hg in *. destruct Hd as [st Hp]. destruct (pending_intent ds k ver _ Hp) as [st' Hp'].
        by exists st'.
      * by rewrite pending_of_snoc, pending_step_ne by done.
Qed.

Lemma relieve_quiet n e i :
  engine_ok e → (i < length (shards_ e))%nat → quiet e (relieve_loop hash n e i).
Proof.
  revert e. induction n as [|n IH]; intros e He Hi; cbn [relieve_loop]; [by apply quiet_refl|].
  destruct (negb _); [by apply quiet_refl|]. cbv zeta.
  destruct (String.eqb _ ""); [by apply evict_quiet|].
  destruct (FlushKey hash e _ 0 false) as [r e1] eqn:E1.
  pose proof (FlushKey_quiet _ _ _ _ _ _ He E1) as Q1. pose proof Q1 as (He1 & F1 & _).
  assert (i < length (shards_ e1))%nat as Hi1 by (destruct F1 as (_ & _ & _ & _ & _ & _ & _ & ->); done).
  pose proof (evict_quiet e1 i He1 Hi1) as Q2. pose proof (quiet_trans _ _ _ Q1 Q2) as Q12.
  destruct r as [[]|err]; [|done]. destruct (_ <=? _); [done|].
  eapply quiet_trans; [exact Q12|]. destruct Q2 as (He2 & F2 & _). apply IH; [done|].
  destruct F2 as (_ & _ & _ & _ & _ & _ & _ & ->). done.
Qed.

(** ** What every public operation keeps *)

(** [invalidated] as a relation between journals. *)
Definition fewer_invalidated (ds ds' : list CacheJournalRecord) : Prop :=
  ∀ k, invalidated ds' k = true → invalidated ds k = true.

#[local] Instance fewer_invalidated_refl : Reflexive fewer_invalidated.
Proof. by intros ds k. Qed.

Definition keeps_durable e e' : Prop :=
  ∀ ds, durable e ds → ∃ ds', durable e' ds' ∧ fewer_invalidated ds ds'.

Definition preserves e e' : Prop :=
  engine_ok e' ∧ (∀ k, view e' k = view e k) ∧ keeps_durable e e'.

Lemma preserves_refl e : engine_ok e → preserves e e.
Proof. intros He. split; [done|]. split; [done|]. intros ds Hd. by exists ds. Qed.

Lemma keeps_durable_trans e1 e2 e3 : keeps_durable e1 e2 → keeps_durable e2 e3 → keeps_durable e1 e3.
Proof.
  intros D1 D2 ds Hd. destruct (D1 ds Hd) as (ds1 & Hd1 & S1). destruct (D2 ds1 Hd1) as (ds2 & Hd2 & S2).
  exists ds2. split; [done|]. intros k Hk. by apply S1, S2.
Qed.

Lemma preserves_trans e1 e2 e3 : preserves e1 e2 → preserves e2 e3 → preserves e1 e3.
Proof.
  intros (_ & V1 & D1) (Ok & V2 & D2). split; [done|]. split; [intros k; by rewrite V2|].
  by eapply keeps_durable_trans.
Qed.

Lemma quiet_preserves e e' : quiet e e' → preserves e e'.
Proof.
  intros (He & _ & _ & V & D). split; [done|]. split; [done|]. intros ds Hd.
  destruct (D ds Hd) as (ts & Hd' & Hts). exists (ds ++ ts). split; [done|].
  intros k. by rewrite invalidated_app, (no_invalidate ts k Hts), orb_false_r.
Qed.

(** Engines that differ in the lifecycle, the admission and the counters. *)
Definition core_eq e e' : Prop :=
  shards_ e' = shards_ e ∧ backingStore_ e' = backingStore_ e ∧ journal_ e' = journal_ e ∧
  globalVersionCounter_ e' = globalVersionCounter_ e.

Lemma core_eq_preserves e e' : core_eq e e' → engine_ok e → preserves e e'.
Proof.
  intros (S & Hb & Hj & Hv) He.
  assert (∀ k, engine_get e' k = engine_get e k) as Hg by (intros; by apply engine_get_same).
  split; [|split].
  - destruct (shards_ok_same hash e e' S (engine_shards hash e He)) as [S1 S2 S3].
    constructor; rewrite ?Hb, ?Hv; try apply He; try done.
    + intros k en. rewrite Hg. apply (eo_coherent hash e He).
    + intros k en. rewrite Hg. apply (eo_version hash e He).
  - intros k. unfold view. by rewrite Hg, Hb.
  - intros ds [Hl Hd]. exists ds. split; [|done]. split; [by rewrite Hj|].
    intros k Hk. rewrite Hg. by apply Hd.
Qed.

(** By how much the entries in memory and the versions grow at most. *)
Definition grows (n : Z) e e' : Prop :=
  entry_count e' ≤ entry_count e + n ∧ globalVersionCounter_ e' ≤ globalVersionCounter_ e + n.

Lemma grows_trans n m e1 e2 e3 : grows n e1 e2 → grows m e2 e3 → grows (n + m) e1 e3.
Proof. unfold grows. lia. Qed.

Lemma grows_le n m e1 e2 : n ≤ m → grows n e1 e2 → grows m e1 e2.
Proof. unfold grows. lia. Qed.

Lemma quiet_grows e e' : quiet e e' → grows 0 e e'.
Proof. intros (_ & (_ & _ & _ & V & _) & N & _). unfold grows. lia. Qed.

Lemma core_eq_grows e e' : core_eq e e' → grows 0 e e'.
Proof. intros (S & _ & _ & V). unfold grows. rewrite (entry_count_same _ _ S). lia. Qed.

(** *** Get *)

Lemma set_store_preserves e b :
  engine_ok e → store_ok b → store_map b = store_map (backingStore_ e) → preserves e (set_store e b).
Proof.
  intros He Hb Hm.
  assert (∀ k, engine_get (set_store e b) k = engine_get e k) as Hg by (intros; by apply engine_get_same).
  split; [|split].
  - destruct (shards_ok_same hash e (set_store e b) eq_refl (engine_shards hash e He)) as [S1 S2 S3].
    constructor; try done.
    + intros k en. cbn. rewrite Hm, Hg. apply (eo_coherent hash e He).
    + intros k en. rewrite Hg. apply (eo_version hash e He).
    + apply He.
  - intros k. unfold view. rewrite Hg. cbn. by rewrite Hm.
  - intros ds Hd. by exists ds.
Qed.

Lemma touch_preserves e k it en :
  engine_ok e → find (shard_at e (ShardFor hash e k)) k = Some (it, en) →
  let e' := count Hit (set_shard e (ShardFor hash e k) (touch (shard_at e (ShardFor hash e k)) it)) in
  preserves e e' ∧ grows 0 e e' ∧ view e k = Some (value en).
Proof.
  intros He Hf e'. pose proof (engine_shards hash e He) as Hsh.
  pose proof (shard_at_ok e (ShardFor hash e k) (eo_shards hash e He)) as Hs.
  pose proof (find_get _ _ _ _ Hs Hf) as Hg. apply find_Some in Hf as [Hin Hk]; [|done].
  apply and_assoc. split; [|unfold view, EngineFacts.engine_get; by rewrite Hg].
  set (s := touch (shard_at e (ShardFor hash e k)) it). set (e1 := set_shard e (ShardFor hash e k) s).
  destruct (set_shard_updated hash e k s (Some en) Hsh) as (Hsh1 & F & U).
  { by eapply touch_ok. }
  { intros k'. unfold s. rewrite (touch_get _ it en) by done.
    by destruct (decide (k' = k)) as [->|]. }
  fold e1 in Hsh1, F, U.
  assert (quiet e e1) as Q.
  { assert (∀ k', engine_get e1 k' = engine_get e k') as Hsame.
    { intros k'. rewrite U. by destruct (decide (k' = k)) as [->|]. }
    split; [|split; [done|split; [|split]]].
    + apply (engine_ok_intro hash e); [done..|apply He|]. intros k' en' Hk'. rewrite Hsame in Hk'.
      split; [by apply (eo_coherent hash e He k')|by apply (eo_version hash e He k')].
    + unfold e1. rewrite entry_count_set by (by apply ShardFor_lt, He). unfold s. cbn [lru touch].
      destruct (shard_split _ it en Hs Hin) as (l1 & l2 & E & _ & _ & _ & _ & He' & _).
      rewrite (splice_front_eq _ it en), He', E, !zlen_cons, !zlen_app, zlen_cons by done. lia.
    + intros k'. unfold view. by rewrite Hsame.
    + intros ds [Hl Hd]. exists []. rewrite app_nil_r. split; [|done]. split; [done|].
      intros k' Hk'. rewrite Hsame. by apply Hd. }
  assert (core_eq e1 e') as Hc by done.
  split; [|exact (grows_trans 0 0 _ _ _ (quiet_grows _ _ Q) (core_eq_grows _ _ Hc))].
  eapply preserves_trans; [by apply quiet_preserves|]. apply core_eq_preserves; [done|apply Q].
Qed.

(** A read fill. *)
Lemma fill_preserves e k v :
  engine_ok e → engine_get e k = None → store_map (backingStore_ e) !! k = Some v →
  preserves e (insert_or_update e (ShardFor hash e k) k v 0 Clean true).
Proof.
  intros He Hg Hm. pose proof (engine_shards hash e He) as Hsh.
  destruct (insert_or_update_contract hash e k v 0 Clean true Hsh) as (Hsh' & F & [Hst Hj] & HC).
  rewrite Hg in HC. cbn [stale] in HC. destruct HC as [Hev _].
  set (e' := insert_or_update _ _ _ _ _ _ _) in *.
  assert (coherent (store_map (backingStore_ e)) (mkEntry k v 0 Clean)) as Hco by done.
  split; [|split].
  - apply (engine_ok_intro hash e); [done|done|done|rewrite Hst; apply He|].
    intros k' en Hk'. rewrite Hst. destruct (Hev k') as [Heq|(? & _ & _ & Hn)]; [|congruence].
    rewrite Heq in Hk'. destruct (decide (k' = k)) as [->|].
    + injection Hk' as <-. split; [done|]. split; [done|apply He].
    + split; [by apply (eo_coherent hash e He k')|by apply (eo_version hash e He k')].
  - intros k'. unfold view. rewrite Hst.
    destruct (Hev k') as [->|(en & Hg' & Hc & ->)]; destruct (decide (k' = k)) as [->|]; try done.
    + by rewrite Hg.
    + by rewrite Hg.
    + rewrite Hg'. pose proof (eo_coherent hash e He k' en Hg') as Hco'. unfold coherent in Hco'.
      rewrite Hc in Hco'. by rewrite <- (engine_get_key hash e k' en He Hg').
  - intros ds [Hl Hd]. exists ds. split; [|done]. split; [by rewrite Hj|].
    intros k' Hk'. specialize (Hd k' Hk').
    destruct (Hev k') as [->|(en & Hg' & Hc & ->)]; destruct (decide (k' = k)) as [->|]; try done.
    + by rewrite Hg in Hd.
    + by rewrite Hg in Hd.
    + rewrite Hg' in Hd. cbn in Hd. by rewrite Hc in Hd.
Qed.

Lemma Get_contract e k r e' :
  engine_ok e → Get hash e k = (r, e') →
  preserves e e' ∧ grows 1 e e' ∧ (∀ v, r = Success v → view e k = Some v).
Proof.
  intros He. unfold Get.
  assert (grows 1 e e) as G0 by (unfold grows; lia).
  destruct (CheckReadyForRead e) as [[]|err];
    [|intros [= <- <-]; split; [by apply preserves_refl|done]].
  destruct (negb _); [intros [= <- <-]; split; [by apply preserves_refl|done]|].
  unfold Get_lookup. destruct (find (shard_at e (ShardFor hash e k)) k) as [[it en]|] eqn:Ef.
  { intros [= <- <-]. destruct (touch_preserves e k it en He Ef) as (Hp & Hgr & Hv). split; [done|].
    split; [by eapply grows_le; [|exact Hgr]|]. by intros v [= <-]. }
  assert (engine_get e k = None) as Hg by (by apply find_None_get).
  assert (preserves e (count Miss e)) as P1 by (by apply core_eq_preserves).
  set (e1 := count Miss e) in *. change (backingStore_ e1) with (backingStore_ e).
  destruct (IBackingStore.Get (backingStore_ e) k) as [[v|err] b] eqn:Eb;
    destruct (Get_spec _ _ _ _ (eo_store hash e He) Eb) as (Hok & Hm & _ & Hnone & Hsome & _).
  - pose proof (Hsome v eq_refl) as Hv.
    pose proof (set_store_preserves e1 b (proj1 P1) Hok Hm) as P2.
    pose proof (preserves_trans _ _ _ P1 P2) as P12.
    assert (view e k = Some v) as Hview by (unfold view; by rewrite Hg).
    destruct (_ <? _); [intros [= <- <-]; by split|].
    set (e2 := set_store e1 b) in *.
    pose proof (insert_or_update_count hash e2 k v 0 Clean true (engine_shards hash e2 (proj1 P12))) as Hcnt.
    destruct (insert_or_update_contract hash e2 k v 0 Clean true (engine_shards hash e2 (proj1 P12)))
      as (_ & (_ & _ & _ & Hvc & _) & _). unfold Get_fill.
    change (shard_at e2 (ShardFor hash e2 k)) with (shard_at e (ShardFor hash e k)).
    rewrite Z.eqb_refl. intros [= <- <-]. split; [|split; [|by intros v' [= <-]]].
    2:{ split; [exact Hcnt|]. rewrite Hvc. cbn. lia. }
    eapply preserves_trans; [exact P12|]. apply fill_preserves; [apply P12|exact Hg|].
    cbn. by rewrite Hm.
  - intros [= <- <-]. split; [|by split]. eapply preserves_trans; [exact P1|].
    apply set_store_preserves; [apply P1|done|done].
Qed.

(** *** Put *)

Definition upsert (k : string) (v : bytes) (ver : Z) : CacheJournalRecord :=
  mkRecord kCacheRecordFormatVersion CacheRecordType.Upsert k v ver.

(** What a client sees after a write of [v] at [k]. *)
Definition view_updated e e' (k : string) (v : bytes) : Prop :=
  ∀ k', view e' k' = if decide (k' = k) then Some v else view e k'.

(** The next version is new. *)
Definition version_room e : Prop := globalVersionCounter_ e + 1 < 2 ^ 64.

(** The locked block of [Put], after its record is in the journal. *)
Lemma put_insert e k v :
  engine_ok e → version_room e → str_size k ≤ kMaxReasonableLength → zlen v ≤ kMaxReasonableLength →
  let ver := globalVersionCounter_ e + 1 in
  ∀ e1, shards_ e1 = shards_ e → backingStore_ e1 = backingStore_ e → globalVersionCounter_ e1 = ver →
  let e2 := insert_or_update e1 (ShardFor hash e1 k) k v ver Dirty true in
  engine_ok e2 ∧ view_updated e e2 k v ∧
  ∀ ds, durable e ds → log_is (journal_ e1) (ds ++ [upsert k v ver]) →
        durable e2 (ds ++ [upsert k v ver]).
Proof.
  intros He Hroom Hk Hv ver e1 S1 B1 V1 e2.
  assert (shards_ok hash e1) as Hsh1 by (by eapply shards_ok_same; [|apply engine_shards]).
  assert (∀ k', engine_get e1 k' = engine_get e k') as Hg1 by (intros; by apply engine_get_same).
  destruct (insert_or_update_contract hash e1 k v ver Dirty true Hsh1) as (Hsh2 & F2 & [B2 J2] & HC).
  fold e2 in Hsh2, F2, B2, J2, HC. pose proof (eo_counter hash e He) as Hcnt. unfold version_room in Hroom.
  assert (stale ver (engine_get e1 k) = false) as Hst.
  { rewrite Hg1. destruct (engine_get e k) as [en|] eqn:Eg; [|done]. cbn.
    pose proof (eo_version hash e He k en Eg). apply andb_false_iff. left. apply Z.leb_gt. lia. }
  rewrite Hst in HC. destruct HC as [Hev _].
  set (new := mkEntry k v ver Dirty) in *.
  assert (journalable new) as Hj.
  { split; [done|]. split; [done|]. unfold in_width. cbn. lia. }
  split; [|split].
  - destruct Hsh2 as [N1 N2 N3]. constructor; try done.
    + rewrite B2, B1. apply He.
    + intros k' en Hk'. rewrite B2, B1. destruct (Hev k') as [Heq|(? & _ & _ & Hn)]; [|congruence].
      rewrite Heq in Hk'. destruct (decide (k' = k)) as [->|]; [by injection Hk' as <-|].
      rewrite Hg1 in Hk'. by apply (eo_coherent hash e He k').
    + destruct F2 as (_ & _ & _ & Fv & _). rewrite Fv, V1.
      intros k' en Hk'. destruct (Hev k') as [Heq|(? & _ & _ & Hn)]; [|congruence].
      rewrite Heq in Hk'. destruct (decide (k' = k)) as [->|]; [injection Hk' as <-; cbn; lia|].
      rewrite Hg1 in Hk'. pose proof (eo_version hash e He k' en Hk'). lia.
    + destruct F2 as (_ & _ & _ & Fv & _). rewrite Fv, V1. lia.
  - intros k'. unfold view. rewrite B2, B1.
    destruct (Hev k') as [->|(en & Hg & Hc & ->)]; destruct (decide (k' = k)) as [->|]; try done.
    + by rewrite Hg1.
    + by injection Hg as <-.
    + rewrite Hg1 in Hg. rewrite Hg.
      pose proof (eo_coherent hash e He k' en Hg) as Hco. unfold coherent in Hco. rewrite Hc in Hco.
      by rewrite <- (engine_get_key hash e k' en He Hg).
  - intros ds [_ Hd] Hlog. split; [by rewrite J2|]. intros k' Hk'.
    rewrite invalidated_app in Hk'. apply orb_false_iff in Hk' as [Hk' _]. specialize (Hd k' Hk').
    rewrite pending_of_snoc.
    destruct (Hev k') as [->|(en & Hg & Hc & ->)]; destruct (decide (k' = k)) as [->|].
    + cbn. rewrite lookup_insert_eq. by exists Dirty.
    + rewrite pending_step_ne, Hg1 by done. done.
    + by injection Hg as <-.
    + rewrite Hg1 in Hg. rewrite Hg in Hd. cbn in Hd. rewrite Hc in Hd.
      by rewrite pending_step_ne by done.
Qed.

Lemma view_updated_preserves e e1 e2 k v :
  view_updated e e1 k v → preserves e1 e2 → view_updated e e2 k v.
Proof. intros Hu (_ & V & _) k'. by rewrite V, Hu. Qed.

Lemma Put_admitted_contract e k v r e' :
  engine_ok e → version_room e → str_size k ≤ kMaxReasonableLength → zlen v ≤ kMaxReasonableLength →
  Put_admitted hash e k v = (r, e') →
  engine_ok e' ∧ keeps_durable e e' ∧ grows 1 e e' ∧
  (view_updated e e' k v ∨ (r ≠ Success tt ∧ ∀ k', view e' k' = view e k')).
Proof.
  intros He Hroom Hk Hv. unfold Put_admitted, AppendJournalRecordWithNewVersion. cbn [rec_formatVersion rec_type rec_key rec_value].
  pose proof (eo_counter hash e He) as Hcnt. unfold version_room in Hroom.
  rewrite wrap_small by (unfold in_width; lia). set (ver := globalVersionCounter_ e + 1).
  destruct (AppendJournalRecord (set_version e ver) _) as [ar e1] eqn:Ea.
  apply AppendJournalRecord_contract in Ea as (S1 & F1 & B1 & L1).
  destruct F1 as (_ & _ & _ & V1 & _). cbn [set_version shards_ backingStore_ journal_ globalVersionCounter_] in *.
  assert (record_ok (upsert k v ver)) as Hrec.
  { constructor; cbn; [done|unfold in_width; lia|done|done]. }
  destruct ar as [[]|err].
  2:{ intros [= <- <-].
      assert (∀ k', engine_get e1 k' = engine_get e k') as Hg1 by (intros; by apply engine_get_same).
      split; [|split; [|split]].
      - destruct (shards_ok_same hash e e1 S1 (engine_shards hash e He)) as [N1 N2 N3].
        constructor; rewrite ?B1, ?V1; try apply He; try done.
        + intros k' en. rewrite Hg1. apply (eo_coherent hash e He).
        + intros k' en. rewrite Hg1. intros Hk'. pose proof (eo_version hash e He k' en Hk'). lia.
        + lia.
      - intros ds [Hl _]. by destruct (L1 ds Hl Hrec).
      - split; [rewrite (entry_count_same e e1 S1); lia|lia].
      - right. split; [done|]. intros k'. unfold view. by rewrite Hg1, B1. }
  destruct (put_insert e k v He Hroom Hk Hv e1 S1 B1 V1) as (He2 & Hu & Hdur). fold ver in He2, Hu, Hdur.
  set (e2 := insert_or_update e1 _ k v ver Dirty true) in *.
  assert (keeps_durable e e2) as D2.
  { intros ds Hd. exists (ds ++ [upsert k v ver]). split.
    - apply Hdur; [done|]. apply (L1 ds); [apply Hd|done].
    - intros k'. rewrite invalidated_app. cbn. by rewrite orb_false_r. }
  assert (shards_ok hash e1) as Hsh1 by (eapply shards_ok_same; [exact S1|by apply engine_shards]).
  destruct (insert_or_update_contract hash e1 k v ver Dirty true Hsh1) as (_ & F2 & _).
  pose proof (insert_or_update_count hash e1 k v ver Dirty true Hsh1) as N2. fold e2 in F2, N2.
  assert (grows 1 e e2) as G2.
  { rewrite (entry_count_same e e1 S1) in N2. destruct F2 as (_ & _ & _ & Hv2 & _).
    split; [exact N2|]. rewrite Hv2, V1. done. }
  assert (ShardFor hash e1 k < length (shards_ e2))%nat as Hi.
  { rewrite <- (ShardFor_frame hash e1 e2 k) by apply F2. apply ShardFor_lt, He2. }
  pose proof (relieve_quiet kMaxFlushAttemptsPerCall e2 _ He2 Hi) as Q3.
  fold (RelieveCapacityPressureIfNeeded hash e2 (ShardFor hash e1 k)) in Q3.
  set (e3 := RelieveCapacityPressureIfNeeded hash e2 (ShardFor hash e1 k)) in *.
  assert (∀ e4, quiet e3 e4 → engine_ok e4 ∧ keeps_durable e e4 ∧ grows 1 e e4 ∧
            (view_updated e e4 k v ∨ (r ≠ Success tt ∧ ∀ k', view e4 k' = view e k'))) as Hend.
  { intros e4 Q4. pose proof (quiet_trans _ _ _ Q3 Q4) as Q. pose proof (quiet_preserves _ _ Q) as P.
    split; [apply P|]. split; [eapply keeps_durable_trans; [exact D2|apply P]|].
    split; [exact (grows_trans 1 0 _ _ _ G2 (quiet_grows _ _ Q))|].
    left. by eapply view_updated_preserves. }
  destruct (writePolicy (options_ e3)).
  - intros E. apply Hend. eapply FlushKey_quiet; [apply Q3|exact E].
  - intros [= <- <-]. apply Hend, quiet_refl, Q3.
Qed.

Lemma admit_core e : core_eq e (snd (TryAdmitWrite e)).
Proof. unfold TryAdmitWrite. by case_bool_decide. Qed.

Lemma release_core e : core_eq e (ReleaseWriteAdmission e).
Proof. unfold ReleaseWriteAdmission. by destruct (_ <? _). Qed.

Lemma Put_contract e k v r e' :
  engine_ok e → version_room e → str_size k ≤ kMaxReasonableLength → zlen v ≤ kMaxReasonableLength →
  Put hash e k v = (r, e') →
  engine_ok e' ∧ keeps_durable e e' ∧ grows 1 e e' ∧
  (view_updated e e' k v ∨ (r ≠ Success tt ∧ ∀ k', view e' k' = view e k')).
Proof.
  intros He Hroom Hk Hv. unfold Put.
  assert (∀ e1 err, core_eq e e1 → (@Failure unit err, e1) = (r, e') →
    engine_ok e' ∧ keeps_durable e e' ∧ grows 1 e e' ∧
    (view_updated e e' k v ∨ (r ≠ Success tt ∧ ∀ k', view e' k' = view e k'))) as Hfail.
  { intros e1 err Hc [= <- <-]. destruct (core_eq_preserves _ _ Hc He) as (Ok1 & V1 & D1).
    split; [done|]. split; [done|].
    split; [by eapply grows_le; [|apply core_eq_grows]|]. right. by split. }
  destruct (CheckReadyForWrite e) as [[]|err]; [|by apply Hfail].
  destruct (negb _); [by apply Hfail|].
  pose proof (admit_core e) as Hc. destruct (TryAdmitWrite e) as [ok e1]. cbn [snd] in Hc.
  pose proof (core_eq_preserves _ _ Hc He) as P1.
  destruct (negb ok); [by apply Hfail|].
  destruct (Put_admitted hash e1 k v) as [r1 e2] eqn:E2. intros [= -> <-].
  assert (version_room e1) as Hroom1 by (unfold version_room; by destruct Hc as (_ & _ & _ & ->)).
  destruct (Put_admitted_contract e1 k v r e2 (proj1 P1) Hroom1 Hk Hv E2) as (Ok2 & D2 & G2 & Hor).
  pose proof (core_eq_preserves _ _ (release_core e2) Ok2) as P3. destruct P1 as (_ & V1 & D1).
  split; [apply P3|]. split; [eapply keeps_durable_trans; [exact D1|eapply keeps_durable_trans; [exact D2|apply P3]]|].
  split; [exact (grows_trans 0 _ _ _ _ (core_eq_grows _ _ Hc)
                   (grows_trans 1 0 _ _ _ G2 (core_eq_grows _ _ (release_core e2))))|].
  destruct P3 as (_ & V3 & _).
  destruct Hor as [Hu|[Hr Hsame]]; [left|right].
  - intros k'. rewrite V3, Hu. by destruct (decide _).
  - split; [done|]. intros k'. by rewrite V3, Hsame.
Qed.

(** *** Invalidate *)

Definition invalidate_record (k : string) (ver : Z) : CacheJournalRecord :=
  mkRecord kCacheRecordFormatVersion CacheRecordType.Invalidate k [] ver.

Definition view_removed e e' (k : string) : Prop :=
  ∀ k', view e' k' = if decide (k' = k) then None else view e k'.

Lemma invalidated_record ds k ver k' :
  invalidated (ds ++ [invalidate_record k ver]) k' = false → k' ≠ k ∧ invalidated ds k' = false.
Proof.
  rewrite invalidated_app. cbn. rewrite orb_false_r. intros E. apply orb_false_iff in E as [E1 E2].
  split; [|done]. intros ->. by rewrite String.eqb_refl in E2.
Qed.

(** A restart finds nothing under a key whose last record is an invalidation. *)
Lemma recovered_invalidated ds k ver m : recovered (ds ++ [invalidate_record k ver]) m k = None.
Proof.
  unfold recovered. rewrite pending_of_snoc. unfold pending_step. cbn. rewrite lookup_delete_eq.
  rewrite store_after_lookup, invalidated_app. cbn. by rewrite String.eqb_refl, orb_true_r.
Qed.

(** With its record in the journal and the key gone from the store. *)
Lemma invalidate_commit_engine e k m' ver e1 :
  engine_ok e → shards_ e1 = shards_ e → globalVersionCounter_ e1 = globalVersionCounter_ e →
  store_ok (backingStore_ e1) → store_map (backingStore_ e1) = m' →
  m' = delete k (store_map (backingStore_ e)) →
  (∀ en, engine_get e k = Some en → version en = ver) →
  let e2 := set_shard e1 (ShardFor hash e1 k) (invalidate_commit (shard_at e1 (ShardFor hash e1 k)) k ver) in
  engine_ok e2 ∧ view_removed e e2 k ∧
  (∀ k', engine_get e2 k' = if decide (k' = k) then None else engine_get e k') ∧ grows 0 e e2.
Proof.
  intros He S1 V1 Hst Hm Hm' Hver e2.
  assert (shards_ok hash e1) as Hsh1 by (by eapply shards_ok_same; [|apply engine_shards]).
  assert (∀ k', engine_get e1 k' = engine_get e k') as Hg1 by (intros; by apply engine_get_same).
  pose proof (shard_at_ok e1 (ShardFor hash e1 k) (sh_shards hash e1 Hsh1)) as Hs.
  destruct (invalidate_commit_contract _ k ver _ Hs eq_refl) as (Hs' & Hl & _ & Hu).
  assert (match shard_get (shard_at e1 (ShardFor hash e1 k)) k with
          | Some en => if version en =? ver then None else Some en | None => None end = None) as Hnone.
  { change (shard_get (shard_at e1 (ShardFor hash e1 k)) k) with (engine_get e1 k). rewrite Hg1.
    destruct (engine_get e k) as [en|] eqn:Eg; [|done]. by rewrite (Hver en eq_refl), Z.eqb_refl. }
  rewrite Hnone in Hu. destruct (set_shard_updated hash e1 k _ None Hsh1 Hs' Hu) as (Hsh2 & F2 & U2).
  fold e2 in Hsh2, F2, U2.
  assert (∀ k', engine_get e2 k' = if decide (k' = k) then None else engine_get e k') as Hg2.
  { intros k'. rewrite U2. by destruct (decide (k' = k)). }
  assert (globalVersionCounter_ e2 = globalVersionCounter_ e) as V2 by (cbn; done).
  split; [|split; [|split; [done|]]].
  - destruct Hsh2 as [N1 N2 N3]. constructor; try done.
    + intros k' en Hk'. cbn [e2 set_shard backingStore_]. rewrite Hg2 in Hk'.
      destruct (decide (k' = k)) as [|Hne]; [done|]. rewrite Hm, Hm'.
      pose proof (eo_coherent hash e He k' en Hk') as Hco. pose proof (engine_get_key hash e k' en He Hk').
      unfold coherent in *. rewrite lookup_delete_ne by congruence. done.
    + intros k' en Hk'. rewrite Hg2 in Hk'. destruct (decide (k' = k)) as [|Hne]; [done|].
      rewrite V2. by apply (eo_version hash e He k').
    + rewrite V2. apply He.
  - intros k'. unfold view. rewrite Hg2. cbn [e2 set_shard backingStore_]. rewrite Hm, Hm'.
    destruct (decide (k' = k)) as [->|]; [by rewrite lookup_delete_eq|]. by rewrite lookup_delete_ne.
  - split; [|rewrite V2; lia]. unfold e2. rewrite entry_count_set by (by apply ShardFor_lt, (sh_some hash)).
    rewrite (entry_count_same e e1 S1). lia.
Qed.

Lemma durable_after_invalidate e e' ds k ver :
  durable e ds → log_is (journal_ e') (ds ++ [invalidate_record k ver]) →
  (∀ k', k' ≠ k → engine_get e' k' = engine_get e k') →
  durable e' (ds ++ [invalidate_record k ver]).
Proof.
  intros [_ Hd] Hl Hg. split; [done|]. intros k' Hk'. apply invalidated_record in Hk' as [Hne Hk'].
  rewrite Hg, pending_of_snoc, pending_step_ne by done. by apply Hd.
Qed.

(** The outcomes of an invalidation: refused or failed with the map as it
    was; done, with a restart finding nothing under the key. *)
Definition invalidate_outcome e (k : string) e' (r : Result unit) : Prop :=
  engine_ok e' ∧ grows 0 e e' ∧
  (if IsOk r then view_removed e e' k else ∀ k', view e' k' = view e k') ∧
  ∀ ds, durable e ds → ∃ ds', durable e' ds' ∧
    (∀ k', k' ≠ k → invalidated ds' k' = invalidated ds k') ∧
    (IsOk r = true → recovered ds' (store_map (backingStore_ e')) k = None).

Lemma core_eq_durable e1 e2 : core_eq e1 e2 → ∀ ds, durable e1 ds → durable e2 ds.
Proof.
  intros (S & _ & Hj & _) ds [Hl Hd]. split; [by rewrite Hj|].
  intros k' Hk'. rewrite (engine_get_same hash e1 e2 k' S). by apply Hd.
Qed.

Lemma invalidate_unchanged e k e' err :
  core_eq e e' → engine_ok e → invalidate_outcome e k e' (Failure err).
Proof.
  intros Hc He. destruct (core_eq_preserves _ _ Hc He) as (Hok & V & _).
  pose proof (core_eq_durable _ _ Hc) as D.
  split; [done|]. split; [by apply core_eq_grows|]. split; [done|]. intros ds Hd. exists ds. split; [by apply D|].
  by split.
Qed.

(** The version the first locked block reports. *)
Lemma Invalidate_peek_version e k force ver :
  engine_ok e → Invalidate_peek hash e k force = Some ver →
  u64 ver ∧ ∀ en, engine_get e k = Some en → version en = ver.
Proof.
  intros He. pose proof (shard_at_ok e (ShardFor hash e k) (eo_shards hash e He)) as Hs.
  unfold Invalidate_peek, EngineFacts.engine_get.
  destruct (find (shard_at e (ShardFor hash e k)) k) as [[it en]|] eqn:Ef.
  - pose proof (find_get _ _ _ _ Hs Ef) as Hg. rewrite Hg. destruct (_ && _); [done|].
    intros [= <-]. split; [|by intros en' [= <-]].
    pose proof (eo_version hash e He k en Hg). pose proof (eo_counter hash e He). unfold in_width. lia.
  - intros [= <-]. split; [done|]. apply find_None_get in Ef. by rewrite Ef.
Qed.

Lemma Invalidate_admitted_contract e k force r e' :
  engine_ok e → str_size k ≤ kMaxReasonableLength →
  Invalidate_admitted hash e k force = (r, e') → invalidate_outcome e k e' r.
Proof.
  intros He Hk. unfold Invalidate_admitted. cbv zeta.
  pose proof (λ ver, Invalidate_peek_version e k force ver He) as Hpeek.
  destruct (Invalidate_peek hash e k force) as [ver|].
  2:{ intros [= <- <-]. by apply invalidate_unchanged. }
  destruct (Hpeek ver eq_refl) as [Hu64 Hver].
  destruct (AppendJournalRecord e (mkRecord _ _ k [] ver)) as [ar e1] eqn:Ea.
  apply AppendJournalRecord_contract in Ea as (S1 & F1 & B1 & L1).
  fold (invalidate_record k ver) in L1.
  assert (record_ok (invalidate_record k ver)) as Hrec by (by constructor).
  assert (∀ k', engine_get e1 k' = engine_get e k') as Hg1 by (intros; by apply engine_get_same).
  assert (globalVersionCounter_ e1 = globalVersionCounter_ e) as V1 by (by destruct F1 as (_ & _ & _ & ? & _)).
  assert (∀ b, store_ok b → store_map b = store_map (backingStore_ e) → engine_ok (set_store e1 b)) as Hset.
  { intros b Hb Hm. apply (engine_ok_intro hash e); [done| |done|done|].
    - eapply shards_ok_same; [exact S1|by apply engine_shards].
    - intros k' en Hk'. rewrite (engine_get_same hash e (set_store e1 b) k' S1) in Hk'.
      cbn [set_store backingStore_]. rewrite Hm.
      split; [by apply (eo_coherent hash e He k')|by apply (eo_version hash e He k')]. }
  destruct ar as [[]|err].
  2:{ intros [= <- <-]. assert (engine_ok e1) as He1.
      { pose proof (Hset (backingStore_ e) (eo_store hash e He) eq_refl) as H1'.
        destruct H1' as [N1 N2 N3 N4 N5 N6 N7].
        constructor; try done; rewrite B1; [done|]. exact N5. }
      split; [done|]. split; [unfold grows; rewrite (entry_count_same e e1 S1); lia|].
      split; [intros k'; unfold view; by rewrite Hg1, B1|].
      intros ds Hd. by destruct (L1 ds (proj1 Hd) Hrec). }
  assert (store_ok (backingStore_ e1)) as Hst1 by (rewrite B1; apply He).
  destruct (IBackingStore.Remove (backingStore_ e1) k) as [[[]|err] b] eqn:Er;
    apply Remove_spec in Er as (Hb & Hm & _);
    try done; try (by apply journalable_fits); rewrite B1 in Hm; intros [= <- <-].
  - assert (ShardFor hash (set_store e1 b) k = ShardFor hash e k) as Hsf.
    { apply ShardFor_frame. cbn. by rewrite S1. }
    destruct (invalidate_commit_engine e k _ ver (set_store e1 b) He S1 V1 Hb eq_refl Hm Hver)
      as (Hok2 & Hv2 & Hg2 & Hgr2).
    rewrite Hsf in *. set (e2 := set_shard (set_store e1 b) _ _) in *.
    pose proof (core_eq_preserves e2 (count Invalidation e2)) as Hcore.
    destruct Hcore as (Hok3 & Hv3 & _); [done|done|]. split; [done|].
    split; [exact (grows_trans 0 0 _ _ _ Hgr2 (core_eq_grows e2 _ ltac:(done)))|].
    split; [intros k'; by rewrite Hv3, Hv2|].
    intros ds Hd. exists (ds ++ [invalidate_record k ver]). split; [|split].
    + apply (durable_after_invalidate e); [done| |].
      * cbn. by apply L1; [apply Hd|].
      * intros k' Hne. rewrite (engine_get_same hash e2) by done. rewrite Hg2. by rewrite decide_False.
    + intros k' Hne. rewrite invalidated_app. cbn.
      rewrite (proj2 (String.eqb_neq k k')) by congruence. by rewrite orb_false_r.
    + intros _. apply recovered_invalidated.
  - split; [by apply Hset|].
    split; [split; [rewrite (entry_count_same e (set_store e1 b)) by done; lia|cbn; lia]|].
    assert (∀ k', engine_get (set_store e1 b) k' = engine_get e k') as Hg2
      by (intros; by apply engine_get_same).
    split; [intros k'; unfold view; rewrite Hg2; cbn; by rewrite Hm|].
    intros ds Hd. exists (ds ++ [invalidate_record k ver]). split; [|split].
    + apply (durable_after_invalidate e); [done| |].
      * cbn. by apply L1; [apply Hd|].
      * intros k' Hne. by rewrite Hg2.
    + intros k' Hne. rewrite invalidated_app. cbn.
      rewrite (proj2 (String.eqb_neq k k')) by congruence. by rewrite orb_false_r.
    + done.
Qed.

Lemma InvalidateImpl_contract e k force r e' :
  engine_ok e → str_size k ≤ kMaxReasonableLength →
  InvalidateImpl hash e k force = (r, e') → invalidate_outcome e k e' r.
Proof.
  intros He Hk. unfold InvalidateImpl.
  destruct (CheckReadyForWrite e) as [[]|err]; [|by intros [= <- <-]; apply invalidate_unchanged].
  pose proof (admit_core e) as Hc. destruct (TryAdmitWrite e) as [ok e1]. cbn [snd] in Hc.
  pose proof (core_eq_preserves _ _ Hc He) as P1. destruct (negb ok).
  { intros [= <- <-]. by apply invalidate_unchanged. }
  destruct (Invalidate_admitted hash e1 k force) as [r1 e2] eqn:E2. intros [= -> <-].
  destruct (Invalidate_admitted_contract e1 k force r e2 (proj1 P1) Hk E2) as (Ok2 & G2 & V2 & D2).
  pose proof (release_core e2) as Hr.
  pose proof (core_eq_preserves _ _ Hr Ok2) as (Ok3 & V3 & _). destruct P1 as (_ & V1 & _).
  split; [done|]. split; [|split].
  - exact (grows_trans 0 0 _ _ _ (core_eq_grows _ _ Hc) (grows_trans 0 0 _ _ _ G2 (core_eq_grows _ _ Hr))).
  - destruct (IsOk r); intros k'; rewrite V3, V2, ?V1; by try destruct (decide _).
  - intros ds Hd. destruct (D2 ds (core_eq_durable _ _ Hc ds Hd)) as (ds' & Hd' & Hi & Hrec). exists ds'.
    split; [by apply (core_eq_durable e2)|]. split; [done|].
    by destruct Hr as (_ & -> & _ & _).
Qed.

(** *** FlushAll, compaction, Shutdown *)

Lemma flush_keys_quiet keys e last last' e' :
  engine_ok e → flush_keys hash e keys last = (last', e') → quiet e e'.
Proof.
  revert e last. induction keys as [|k keys IH]; intros e last He; cbn [flush_keys].
  - intros [= <- <-]. by apply quiet_refl.
  - destruct (FlushKey hash e k 0 false) as [r e1] eqn:E1.
    pose proof (FlushKey_quiet _ _ _ _ _ _ He E1) as Q1.
    destruct r; intros E; (eapply quiet_trans; [exact Q1|]); (eapply IH; [apply Q1|exact E]).
Qed.

Lemma flush_shards_quiet shards e last last' e' :
  engine_ok e → flush_shards hash e shards last = (last', e') → quiet e e'.
Proof.
  revert e last. induction shards as [|i shards IH]; intros e last He; cbn [flush_shards].
  - intros [= <- <-]. by apply quiet_refl.
  - destruct (flush_keys hash e _ last) as [l1 e1] eqn:E1.
    pose proof (flush_keys_quiet _ _ _ _ _ He E1) as Q1. intros E.
    eapply quiet_trans; [exact Q1|]. eapply IH; [apply Q1|exact E].
Qed.

(** The sum of the dirty counts, and what it means when it is zero. *)
Lemma wrap_foldl (f : Shard → Z) l acc :
  foldl (λ acc s, wrap64 (acc + f s)) (wrap64 acc) l = wrap64 (acc + zsum f l).
Proof.
  revert acc. induction l as [|s l IH]; intros acc; cbn [foldl].
  - f_equal. unfold zsum. cbn. lia.
  - rewrite wrap_add_l, IH. f_equal. unfold zsum. cbn. lia.
Qed.

Lemma total_dirty_zero e :
  Forall shard_ok (shards_ e) → entry_count e < 2 ^ 64 → total_dirty e = 0 →
  ∀ k en, engine_get e k = Some en → is_clean en = true.
Proof.
  intros Hall Hcount Hzero k en Hg. unfold total_dirty in Hzero. rewrite (wrap_foldl _ _ 0), Z.add_0_l in Hzero.
  assert (∀ l, Forall shard_ok l → zsum (λ s, zlen (lru s)) l < 2 ^ 64 →
    0 ≤ zsum dirtyCount l ≤ zsum (λ s, zlen (lru s)) l ∧
    (zsum dirtyCount l = 0 → ∀ s, s ∈ l → dirty_entries (map snd (lru s)) = [])) as Hsum.
  { induction 1 as [|s l Hs Hl IH]; [split; [done|]; by intros _ s Hs%not_elem_of_nil|].
    unfold zsum. cbn. fold (zsum (λ s, zlen (lru s)) l) (zsum dirtyCount l). intros Hlt.
    assert (0 ≤ zsum (λ s, zlen (lru s)) l) by (apply zsum_nonneg; intros; apply zlen_nonneg).
    pose proof (zlen_nonneg (lru s)). destruct IH as [IH1 IH2]; [lia|].
    destruct (dirty_le (map snd (lru s))) as [Hle _].
    assert (zlen (map snd (lru s)) = zlen (lru s)) as Hlm by (unfold zlen; by rewrite length_map).
    pose proof (zlen_nonneg (dirty_entries (map snd (lru s)))) as Hnn.
    rewrite (so_dirtyCount s Hs), wrap_small by (unfold in_width; lia). split; [lia|].
    intros Hz s' Hs'. apply elem_of_cons in Hs' as [->|Hs']; [|apply IH2; [lia|done]].
    apply length_zero_iff_nil. unfold zlen in *. lia. }
  destruct (Hsum _ Hall Hcount) as [Hb Hd]. unfold entry_count in Hcount.
  rewrite wrap_small in Hzero by (unfold in_width; lia).
  specialize (Hd Hzero). unfold EngineFacts.engine_get in Hg.
  destruct (shards_ e !! ShardFor hash e k) as [s|] eqn:Es.
  2:{ unfold shard_at in Hg. rewrite Es in Hg. cbn in Hg. done. }
  assert (shard_at e (ShardFor hash e k) = s) as Hat by (unfold shard_at; by rewrite Es).
  rewrite Hat in Hg. assert (s ∈ shards_ e) as Hin by (by eapply list_elem_of_lookup_2).
  pose proof (Forall_lookup_1 _ _ _ _ Hall Es) as Hs.
  apply shard_get_Some in Hg as (it & Hn & _); [|done].
  destruct (is_clean en) eqn:Ec; [done|exfalso].
  assert (en ∈ dirty_entries (map snd (lru s))) as Hind.
  { apply list_elem_of_filter. unfold is_dirty. rewrite Ec. split; [done|].
    apply list_elem_of_In, in_map_iff. exists (it, en). split; [done|by apply list_elem_of_In]. }
  rewrite (Hd s Hin) in Hind. by apply not_elem_of_nil in Hind.
Qed.

(** Emptying the journal of an engine without dirty entries. *)
Lemma truncate_preserves e :
  engine_ok e → entry_count e < 2 ^ 64 → total_dirty e = 0 →
  preserves e (set_journal e (snd (Truncate (journal_ e)))).
Proof.
  intros He Hc Hz. pose proof (total_dirty_zero e (eo_shards hash e He) Hc Hz) as Hclean.
  destruct (Truncate (journal_ e)) as [r j] eqn:Et. cbn [snd].
  assert (∀ k, engine_get (set_journal e j) k = engine_get e k) as Hg by (intros; by apply engine_get_same).
  split; [|split].
  - destruct (shards_ok_same hash e (set_journal e j) eq_refl (engine_shards hash e He)) as [S1 S2 S3].
    constructor; try done; apply He.
  - intros k. unfold view. by rewrite Hg.
  - intros ds [(Hrel & _ & _) _]. destruct (Truncate_reliable _ Hrel) as (j' & E & Hrel').
    rewrite Et in E. injection E as -> ->. destruct (Truncate_ok _ _ Et) as [Hc' Hr'].
    exists []. split; [|done]. split.
    + split; [done|]. split; [done|]. cbn [set_journal journal_]. rewrite Hr'. constructor.
    + intros k _. rewrite Hg. cbn. destruct (engine_get e k) as [en|] eqn:Eg; [|done].
      cbn. by rewrite (Hclean k en Eg).
Qed.

Lemma compact_preserves e :
  engine_ok e → entry_count e < 2 ^ 64 → preserves e (TryCompactJournalIfFullyClean e).
Proof.
  intros He Hc. unfold TryCompactJournalIfFullyClean.
  destruct (RecordCount (journal_ e) =? 0); [by apply preserves_refl|]. cbv zeta.
  set (e1 := set_admission e (inFlightWriteCount_ e) true).
  assert (preserves e e1) as P1 by (by apply core_eq_preserves).
  set (e2 := if total_dirty e1 =? 0 then _ else e1).
  assert (preserves e1 e2) as P2.
  { unfold e2. destruct (Z.eqb_spec (total_dirty e1) 0); [|apply preserves_refl, P1].
    destruct (RecordCount (journal_ e1) =? 0); [apply preserves_refl, P1|].
    apply truncate_preserves; [apply P1|done|done]. }
  eapply preserves_trans; [exact P1|]. eapply preserves_trans; [exact P2|].
  apply core_eq_preserves; [done|apply P2].
Qed.

Lemma FlushAll_contract e r e' :
  engine_ok e → entry_count e < 2 ^ 64 → FlushAll hash e = (r, e') →
  preserves e e' ∧ grows 0 e e'.
Proof.
  intros He Hc. unfold FlushAll. destruct (CheckReadyForRead e) as [[]|err].
  2:{ intros [= <- <-]. split; [by apply preserves_refl|]. unfold grows. lia. }
  destruct (flush_shards hash e _ None) as [last e1] eqn:E1.
  pose proof (flush_shards_quiet _ _ _ _ _ He E1) as Q1. pose proof (quiet_preserves _ _ Q1) as P1.
  pose proof (quiet_grows _ _ Q1) as G1.
  destruct Q1 as (He1 & _ & N1 & _). destruct last as [err|]; intros [= <- <-]; [done|].
  pose proof (compact_preserves e1 He1 ltac:(lia)) as P2. split; [by eapply preserves_trans|].
  assert (shards_ (TryCompactJournalIfFullyClean e1) = shards_ e1 ∧
          globalVersionCounter_ (TryCompactJournalIfFullyClean e1) = globalVersionCounter_ e1) as [S V].
  { unfold TryCompactJournalIfFullyClean. cbn. by repeat case_match. }
  unfold grows in *. by rewrite (entry_count_same _ _ S), V.
Qed.

Lemma Shutdown_contract e r e' :
  engine_ok e → entry_count e < 2 ^ 64 → Shutdown hash e = (r, e') →
  preserves e e' ∧ grows 0 e e'.
Proof.
  intros He Hc. unfold Shutdown. assert (grows 0 e e) as G0 by (unfold grows; lia).
  destruct (lifecycle_ e); try (intros [= <- <-]; split; [by apply preserves_refl|done]).
  set (e1 := set_lifecycle e Stopping).
  assert (preserves e e1) as P1 by (by apply core_eq_preserves).
  destruct (FlushAll hash e1) as [fr e2] eqn:E2.
  destruct (FlushAll_contract e1 fr e2 (proj1 P1) Hc E2) as (P2 & G2).
  set (e3 := set_lifecycle e2 Stopped).
  assert (preserves e2 e3) as P3 by (apply core_eq_preserves; [done|apply P2]).
  pose proof (preserves_trans _ _ _ P1 (preserves_trans _ _ _ P2 P3)) as P.
  destruct (Z.eqb_spec (total_dirty e3) 0) as [Hz|]; intros [= <- <-]; (split; [|exact G2]); [|done].
  eapply preserves_trans; [exact P|]. apply (truncate_preserves e3); [apply P| |done].
  destruct G2 as [N2 _]. change (entry_count e2 < 2 ^ 64). change (entry_count e1) with (entry_count e) in N2. lia.
Qed.

(** *** ReplayFromJournal *)

(** The records replayed by the callback: the pending entries and the store
    of the pure replay, if every removal succeeds. *)
Lemma replay_pure_run rs ds pending b res pending' b' hi hi' :
  Forall2 (λ r d, Decode (payload r) = Success d) rs ds → store_ok b →
  replay_records replay_record (pending, b) hi rs = (res, (pending', b'), hi') →
  store_ok b' ∧
  (store_clean b ∧ store_reliable b → store_clean b' ∧ store_reliable b') ∧
  (res = Success tt → pending' = foldl pending_step pending ds ∧
                      store_map b' = store_after ds (store_map b)) ∧
  ((∀ k, invalidated ds k = false) → res = Success tt).
Proof.
  intros Hall. revert pending b hi. induction Hall as [|r d rs ds Hd Hall IH]; intros pending b hi Hb.
  - cbn. intros [= <- <- <- <-]. done.
  - cbn [replay_records]. unfold replay_record at 1. rewrite Hd.
    assert (∀ p1, rec_type d ≠ CacheRecordType.Invalidate → p1 = pending_step pending d →
      replay_records replay_record (p1, b) (Some (sequenceNumber r)) rs = (res, (pending', b'), hi') →
      store_ok b' ∧ (store_clean b ∧ store_reliable b → store_clean b' ∧ store_reliable b') ∧
      (res = Success tt → pending' = foldl pending_step pending (d :: ds) ∧
                          store_map b' = store_after (d :: ds) (store_map b)) ∧
      ((∀ k, invalidated (d :: ds) k = false) → res = Success tt)) as Hgo.
    { intros p1 Ht -> E. destruct (IH _ _ _ Hb E) as (Hok & Hcl & Hres & Hall'). split; [done|]. split; [done|].
      assert (is_invalidate d = false) as Hinv by (unfold is_invalidate; by rewrite bool_decide_eq_false_2).
      split.
      - intros Hr. destruct (Hres Hr) as [-> ->]. split; [done|]. unfold store_after at 2.
        cbn [foldl]. unfold store_step at 2. by rewrite Hinv.
      - intros Hno. apply Hall'. intros k. specialize (Hno k). cbn in Hno. by rewrite Hinv in Hno. }
    destruct (rec_type d) eqn:Et.
    + apply Hgo; [done|]. unfold pending_step. by rewrite Et.
    + destruct (pending !! rec_key d) as [p|] eqn:Ep; [destruct (p_version p =? rec_entryVersion d) eqn:Ev|];
        apply Hgo; try done; unfold pending_step; by rewrite Et, Ep, ?Ev.
    + destruct (pending !! rec_key d) as [p|] eqn:Ep; [destruct (p_version p =? rec_entryVersion d) eqn:Ev|];
        apply Hgo; try done; unfold pending_step; by rewrite Et, Ep, ?Ev.
    + destruct (Decode_inv _ _ Hd) as [Hrec _].
      assert (invalidated (d :: ds) (rec_key d) = true) as Hinv.
      { cbn. unfold is_invalidate. rewrite Et, bool_decide_eq_true_2, String.eqb_refl by done. done. }
      assert (store_fits (rec_key d) []) as Hfit by (apply journalable_fits; [apply Hrec|done]).
      destruct (IBackingStore.Remove b (rec_key d)) as [[[]|err] b1] eqn:Er;
        pose proof (λ Hc Hr, Remove_reliable _ _ _ _ Hc Hr Hfit Er) as Hcl1;
        apply Remove_spec in Er as (Hb1 & Hm & _); try done.
      * intros E. destruct (IH _ _ _ Hb1 E) as (Hok & Hcl & Hres & _). split; [done|].
        split; [intros [Hc Hr]; by apply Hcl, Hcl1|]. split.
        -- intros Hr. destruct (Hres Hr) as [-> ->]. cbn [foldl].
           assert (pending_step pending d = delete (rec_key d) pending) as -> by (unfold pending_step; by rewrite Et).
           split; [done|]. unfold store_after at 2. cbn [foldl]. unfold store_step at 2, is_invalidate.
           by rewrite Et, Hm.
        -- intros Hno. by rewrite Hno in Hinv.
      * intros [= <- <- <- <-]. split; [done|]. split; [intros [Hc Hr]; by apply Hcl1|].
        split; [done|]. intros Hno. by rewrite Hno in Hinv.
Qed.

(** The insertion of the pending entries into an empty cache. *)
Definition recovered_entry (k : string) (p : PendingEntry) : Entry :=
  mkEntry k (p_value p) (p_version p) Dirty.

Lemma insert_pending_contract l e hi e' hi' :
  shards_ok hash e → NoDup l.*1 → (∀ k, k ∈ l.*1 → engine_get e k = None) →
  insert_pending hash e l hi = (e', hi') →
  shards_ok hash e' ∧ frame_eq e e' ∧ same_io e e' ∧ hi ≤ hi' ∧
  (∀ k, engine_get e' k = match (list_to_map l : gmap string PendingEntry) !! k with
                          | Some p => Some (recovered_entry k p)
                          | None => engine_get e k
                          end) ∧
  (∀ k p, (k, p) ∈ l → p_version p ≤ hi') ∧
  (∀ M, hi < M → (∀ k p, (k, p) ∈ l → p_version p < M) → hi' < M).
Proof.
  revert e hi. induction l as [|[k p] l IH]; intros e hi He Hnd Hnone; cbn [insert_pending].
  - intros [= <- <-]. split; [done|]. split; [done|]. split; [done|]. split; [done|].
    split; [done|]. split; [by intros k p Hin%not_elem_of_nil|done].
  - cbn in Hnd. apply NoDup_cons in Hnd as [Hk Hnd].
    destruct (insert_or_update_contract hash e k (p_value p) (p_version p) Dirty false He)
      as (He1 & F1 & [B1 J1] & HC).
    set (e1 := insert_or_update e _ k _ _ Dirty false) in *.
    rewrite (Hnone k) in HC by (cbn; constructor). cbn [stale] in HC. destruct HC as [_ HC].
    specialize (HC eq_refl). intros E.
    destruct (IH e1 (Z.max hi (p_version p)) He1 Hnd) with (2 := E)
      as (He' & F' & [B' J'] & Hhi & Hg & Hver & HM).
    { intros k' Hk'. rewrite HC. rewrite decide_False by (by intros ->). apply Hnone. cbn. by constructor. }
    split; [done|]. split; [by etrans|]. split; [split; congruence|]. split; [lia|]. split; [|split].
    + intros k'. rewrite Hg, HC. cbn. destruct (decide (k' = k)) as [->|Hne].
      * rewrite lookup_insert_eq. rewrite (proj1 (not_elem_of_list_to_map l k) Hk). done.
      * by rewrite lookup_insert_ne.
    + intros k' p' Hin. apply elem_of_cons in Hin as [[= -> ->]|Hin]; [lia|by apply (Hver k')].
    + intros M Hlt Hall. apply HM.
      * apply Z.max_lub_lt; [done|]. apply (Hall k). constructor.
      * intros k' p' Hin. apply (Hall k'). by constructor.
Qed.

Lemma pending_of_ok ds k p :
  Forall record_ok ds → pending_of ds !! k = Some p → journalable (recovered_entry k p).
Proof.
  revert k p. induction ds as [|d ds IH] using rev_ind; intros k p Hall.
  - done.
  - apply Forall_app in Hall as [Hall Hd]. apply Forall_inv in Hd. rewrite pending_of_snoc.
    destruct (decide (rec_key d = k)) as [<-|Hne]; [|rewrite pending_step_ne by done; by apply IH].
    unfold pending_step. destruct (rec_type d).
    + rewrite lookup_insert_eq. intros [= <-]. by destruct Hd.
    + destruct (pending_of ds !! rec_key d) as [q|] eqn:Eq; [|by rewrite Eq].
      destruct (_ =? _); [|by apply IH]. rewrite lookup_insert_eq. intros [= <-].
      exact (IH _ _ Hall Eq).
    + destruct (pending_of ds !! rec_key d) as [q|] eqn:Eq; [|by rewrite Eq].
      destruct (_ =? _); [by rewrite lookup_delete_eq|by apply IH].
    + by rewrite lookup_delete_eq.
Qed.

Lemma new_shards_ok options b j : shards_ok hash (@CacheEngine_new B J options b j).
Proof.
  assert (∀ i k, shard_get (shard_at (@CacheEngine_new B J options b j) i) k = None) as Hnone.
  { intros i k. unfold shard_at. cbn [shards_ CacheEngine_new].
    destruct (replicate _ _ !! i) as [s|] eqn:E; cbn; [|done].
    apply lookup_replicate in E as [-> _]. done. }
  constructor.
  - cbn. destruct (Z.to_nat (Z.max 1 (shardCount options))) eqn:E; [lia|done].
  - cbn. apply Forall_replicate, Shard_empty_ok.
  - intros i k en. by rewrite Hnone.
Qed.

Lemma new_get options b j k : engine_get (@CacheEngine_new B J options b j) k = None.
Proof.
  unfold EngineFacts.engine_get, shard_at. cbn [shards_ CacheEngine_new].
  destruct (replicate _ _ !! _) as [s|] eqn:E; cbn; [|done].
  apply lookup_replicate in E as [-> _]. done.
Qed.

Section replay.
Context (pending_order : gmap string PendingEntry → list (string * PendingEntry)).
Hypothesis pending_order_perm : ∀ m, pending_order m ≡ₚ map_to_list m.

Lemma ReplayFromJournal_contract options b j ds r e' :
  store_ok b → log_reads j ds →
  ReplayFromJournal hash pending_order (CacheEngine_new options b j) = (r, e') →
  (r = Success tt → engine_ok e' ∧ (journal_clean j → durable e' ds) ∧ lifecycle_ e' = NotReady ∧
                    (∀ k, view e' k = recovered ds (store_map b) k) ∧
                    (store_clean b ∧ store_reliable b →
                       store_clean (backingStore_ e') ∧ store_reliable (backingStore_ e'))) ∧
  (r ≠ Success tt → lifecycle_ e' = RecoveryFailed) ∧
  ((∀ k, invalidated ds k = false) → r = Success tt).
Proof.
  intros Hb (Hrel & Hall). unfold ReplayFromJournal. cbn [lifecycle_ CacheEngine_new].
  set (e0 := CacheEngine_new options b j). cbn [negb bool_decide decide].
  change (bool_decide (NotReady = NotReady)) with true. cbn [negb].
  change (backingStore_ e0) with b. change (journal_ e0) with j.
  destruct (Replay replay_record (∅, b) j) as [[res [pending b']] j'] eqn:Er.
  destruct (Replay_any _ _ _ _ _ _ Er) as (HR & _ & Hcl' & _).
  destruct (Replay_reliable _ _ _ _ _ _ Hrel Er) as (Hrel' & hi & Hrun).
  destruct (replay_pure_run _ _ _ _ _ _ _ _ _ Hall Hb Hrun) as (Hb' & Hsc & Hres & Hno).
  destruct res as [[]|err].
  2:{ intros [= <- <-]. split; [done|]. split; [done|]. intros Hni. by specialize (Hno Hni). }
  destruct (Hres eq_refl) as [Hp Hm]. fold (pending_of ds) in Hp. subst pending.
  set (e1 := set_journal (set_store e0 b') j').
  assert (shards_ok hash e1) as Hsh1.
  { eapply shards_ok_same; [|apply (new_shards_ok options b j)]. done. }
  assert (∀ k, engine_get e1 k = None) as Hg1.
  { intros k. rewrite (engine_get_same hash e0 e1) by done. apply new_get. }
  destruct (insert_pending hash e1 (pending_order (pending_of ds)) 0) as [e2 h] eqn:Ei.
  pose proof (pending_order_perm (pending_of ds)) as Hperm.
  assert (NoDup (pending_order (pending_of ds)).*1) as Hnd.
  { rewrite Hperm. apply NoDup_fst_map_to_list. }
  assert (∀ k, k ∈ (pending_order (pending_of ds)).*1 → engine_get e1 k = None) as Hn
    by (intros; apply Hg1).
  destruct (insert_pending_contract _ _ _ _ _ Hsh1 Hnd Hn Ei)
    as (Hsh2 & F2 & [B2 J2] & Hh & Hg2 & Hver & HM).
  assert ((list_to_map (pending_order (pending_of ds)) : gmap string PendingEntry) = pending_of ds) as Hmap.
  { rewrite (list_to_map_proper _ (map_to_list (pending_of ds))); [apply list_to_map_to_list|done|done]. }
  rewrite Hmap in Hg2.
  assert (Forall record_ok ds) as Hrec.
  { clear -Hall. induction Hall as [|r d rs ds Hd Hall IH]; constructor; [|done]. by apply Decode_inv in Hd as [? _]. }
  assert (∀ k p, pending_of ds !! k = Some p → 0 ≤ p_version p ≤ h ∧ p_version p < 2 ^ 64) as Hpv.
  { intros k p Hp. destruct (pending_of_ok ds k p Hrec Hp) as (_ & _ & Hu). unfold in_width in Hu. cbn in Hu.
    split; [|lia]. split; [lia|]. apply (Hver k). rewrite Hperm. by apply elem_of_map_to_list. }
  assert (h < 2 ^ 64) as Hh64.
  { apply HM; [done|]. intros k p Hin. rewrite Hperm in Hin. apply elem_of_map_to_list in Hin. by apply (Hpv k). }
  intros [= <- <-]. set (e3 := set_version e2 _).
  assert (∀ k, engine_get e3 k = match pending_of ds !! k with
                                 | Some p => Some (recovered_entry k p) | None => None end) as Hg3.
  { intros k. rewrite (engine_get_same hash e2 e3), Hg2, Hg1 by done. done. }
  split; [|done]. intros _.
  assert (backingStore_ e3 = b') as Hb3 by done || (cbn; by rewrite B2).
  assert (globalVersionCounter_ e2 = 0) as V2 by (by destruct F2 as (_ & _ & _ & -> & _)).
  split; [|split; [|split; [|split]]].
  - destruct (shards_ok_same hash e2 e3 eq_refl Hsh2) as [S1 S2 S3].
    constructor; [done..|by rewrite Hb3| | |].
    + intros k en. rewrite Hg3. destruct (pending_of ds !! k) as [p|] eqn:Ep; [|done].
      intros [= <-]. unfold coherent. cbn. by apply (pending_of_ok ds).
    + intros k en. rewrite Hg3. destruct (pending_of ds !! k) as [p|] eqn:Ep; [|done].
      intros [= <-]. cbn. rewrite V2. pose proof (Hpv k p Ep). lia.
    + cbn. rewrite V2. lia.
  - intros Hcl. split.
    + cbn. rewrite J2. split; [done|]. split; [by apply Hcl'|]. cbn. by rewrite HR.
    + intros k _. rewrite Hg3. destruct (pending_of ds !! k) as [p|]; [|done].
      cbn. exists (p_state p). by destruct p.
  - cbn. by destruct F2 as (_ & _ & _ & _ & -> & _).
  - intros k. unfold view, recovered. rewrite Hg3, Hb3, Hm.
    by destruct (pending_of ds !! k) as [p|].
  - by rewrite Hb3.
Qed.
End replay.
End durability.

(** A value written and flushed after an invalidation does not survive a
    replay.  When the journal holds an invalidation of a key, a later write of
    it, and the flush of that write, a replay first removes the value from the
    backing store that holds it, and then takes the completed flush for proof
    that it is there: the key is gone, whatever came before. *)
Theorem replay_loses_rewritten_key ds k ver0 v ver m :
  recovered (ds ++ [mkRecord kCacheRecordFormatVersion CacheRecordType.Invalidate k [] ver0;
                    mkRecord kCacheRecordFormatVersion CacheRecordType.Upsert k v ver;
                    intent k ver; complete k ver]) (<[k := v]> m) k = None.
Proof.
  unfold recovered. rewrite store_after_lookup, invalidated_app.
  set (ts := [_; _; _; _]).
  assert (invalidated ts k = true) as -> by (cbn; by rewrite String.eqb_refl).
  assert (pending_of (ds ++ ts) !! k = None) as ->; [|by rewrite orb_true_r].
  unfold pending_of. rewrite foldl_app. set (p0 := foldl pending_step ∅ ds). cbn [ts foldl].
  unfold pending_step at 3 4. cbn [rec_type rec_key rec_value rec_entryVersion].
  unfold pending_step at 2. cbn [rec_type rec_key rec_entryVersion intent flush_record].
  rewrite lookup_insert_eq. cbn [p_version p_value]. rewrite Z.eqb_refl.
  unfold pending_step. cbn [rec_type rec_key rec_entryVersion complete flush_record].
  rewrite lookup_insert_eq. cbn [p_version]. by rewrite Z.eqb_refl, lookup_delete_eq.
Qed.
