(* ===== verification/Client.v ===== *)
(** * Client: the engine as a client sees it

    The public operations as one type, a run of them, and the abstract map they
    implement: what every outcome says of the map, and what a restart of the
    process at any point between two operations gives back. *)
From S2P Require Import Prelude Common RecordCodec Storage Journal Store Shard Engine EngineFacts Durability.
Import EntryDirtyState EngineLifecycle Engine.
Open Scope Z_scope.

(** The state-changing operations of [ICacheEngine], in [Ready] and after. *)
Inductive Operation :=
  | OpGet (k : string)
  | OpPut (k : string) (v : bytes)
  | OpInvalidate (k : string)
  | OpForceInvalidate (k : string)
  | OpFlush (k : string)
  | OpFlushAll
  | OpShutdown
  | OpMarkRecoveryComplete.

Inductive Outcome :=
  | Value (r : Result bytes)
  | Done (r : Result unit).

(** The abstract map: what an operation with this outcome may do to it. *)
Abbreviation KvMap := (string → option bytes).

Definition map_update (k : string) (o : option bytes) (m m' : KvMap) : Prop :=
  ∀ k', m' k' = if decide (k' = k) then o else m k'.
Definition map_same (m m' : KvMap) : Prop := ∀ k, m' k = m k.

Definition allowed (op : Operation) (out : Outcome) (m m' : KvMap) : Prop :=
  match op, out with
  | OpGet k, Value (Success v) => map_same m m' ∧ m k = Some v
  | OpGet _, Value (Failure _) => map_same m m'
  | OpPut k v, Done (Success _) => map_update k (Some v) m m'
  | OpPut k v, Done (Failure _) => map_update k (Some v) m m' ∨ map_same m m'
  | (OpInvalidate k | OpForceInvalidate k), Done (Success _) => map_update k None m m'
  | (OpInvalidate _ | OpForceInvalidate _), Done (Failure _) => map_same m m'
  | (OpFlush _ | OpFlushAll | OpShutdown | OpMarkRecoveryComplete), Done _ => map_same m m'
  | _, _ => False
  end.

Inductive allowed_run : list Operation → list Outcome → KvMap → KvMap → Prop :=
  | allowed_nil m m' : map_same m m' → allowed_run [] [] m m'
  | allowed_cons op out ops outs m1 m2 m3 :
      allowed op out m1 m2 → allowed_run ops outs m2 m3 → allowed_run (op :: ops) (out :: outs) m1 m3.

(** Keys and values the journal's record format can carry. *)
Definition op_fits (op : Operation) : Prop :=
  match op with
  | OpPut k v => str_size k ≤ kMaxReasonableLength ∧ zlen v ≤ kMaxReasonableLength
  | OpInvalidate k | OpForceInvalidate k => str_size k ≤ kMaxReasonableLength
  | _ => True
  end.

(** The key an operation invalidates. *)
Definition invalidates (op : Operation) : option string :=
  match op with OpInvalidate k | OpForceInvalidate k => Some k | _ => None end.

Definition never_invalidated (ops : list Operation) (k : string) : Prop :=
  Forall (λ op, invalidates op ≠ Some k) ops.

Section client.
Context {B J : Type} `{BackingStoreSpec B} `{JournalSpec J}.
Context (hash : string → Z).
Implicit Types e : CacheEngine B J.

Abbreviation engine_ok := (EngineFacts.engine_ok hash).
Abbreviation view := (Durability.view hash).
Abbreviation durable := (Durability.durable hash).
Abbreviation preserves := (Durability.preserves hash).

Definition run_op e (op : Operation) : Outcome * CacheEngine B J :=
  let done (p : Result unit * CacheEngine B J) := (Done (fst p), snd p) in
  match op with
  | OpGet k => let '(r, e) := Get hash e k in (Value r, e)
  | OpPut k v => done (Put hash e k v)
  | OpInvalidate k => done (Invalidate hash e k)
  | OpForceInvalidate k => done (ForceInvalidate hash e k)
  | OpFlush k => done (Flush hash e k)
  | OpFlushAll => done (FlushAll hash e)
  | OpShutdown => done (Shutdown hash e)
  | OpMarkRecoveryComplete => done (MarkRecoveryComplete e)
  end.

Fixpoint run e (ops : list Operation) : list Outcome * CacheEngine B J :=
  match ops with
  | [] => ([], e)
  | op :: ops =>
    let '(out, e) := run_op e op in
    let '(outs, e) := run e ops in
    (out :: outs, e)
  end.

(** Room for [n] operations: neither the version counter nor the number of
    entries wraps. *)
Definition room e (n : Z) : Prop :=
  globalVersionCounter_ e + n < 2 ^ 64 ∧ entry_count e + n < 2 ^ 64.

Definition keeps_keys e e' (P : string → Prop) : Prop :=
  ∀ ds, durable e ds → ∃ ds', durable e' ds' ∧
    ∀ k, P k → invalidated ds k = false → invalidated ds' k = false.

Lemma keeps_durable_keys e e' P : keeps_durable hash e e' → keeps_keys e e' P.
Proof.
  intros D ds Hd. destruct (D ds Hd) as (ds' & Hd' & Hf). exists ds'. split; [done|].
  intros k _ Hk. destruct (invalidated ds' k) eqn:E; [|done]. by rewrite (Hf k E) in Hk.
Qed.

(** What every operation keeps, in one statement. *)
Definition op_contract e op out e' : Prop :=
  engine_ok e' ∧ grows 1 e e' ∧ allowed op out (view e) (view e') ∧
  keeps_keys e e' (λ k, invalidates op ≠ Some k).

Lemma preserves_contract e op out e' n :
  preserves e e' → grows n e e' → n ≤ 1 → allowed op out (view e) (view e') →
  op_contract e op out e'.
Proof.
  intros (Hok & _ & D) G Hn Ha. split; [done|]. split; [by eapply grows_le|]. split; [done|].
  by apply keeps_durable_keys.
Qed.

Lemma invalidate_run e k force r e' op :
  engine_ok e → str_size k ≤ kMaxReasonableLength → invalidates op = Some k →
  allowed op (Done r) = allowed (OpInvalidate k) (Done r) →
  InvalidateImpl hash e k force = (r, e') → op_contract e op (Done r) e'.
Proof.
  intros He Hk Hop Hal E. destruct (InvalidateImpl_contract hash e k force r e' He Hk E) as (Hok & G & V & D).
  split; [done|]. split; [by eapply grows_le; [|exact G]|]. split.
  - rewrite Hal. destruct r as [[]|err]; exact V.
  - intros ds Hd. destruct (D ds Hd) as (ds' & Hd' & Hi & _). exists ds'. split; [done|].
    intros k' Hne. rewrite Hop in Hne. rewrite Hi by congruence. done.
Qed.

Lemma run_op_contract e op out e' :
  engine_ok e → room e 1 → op_fits op → run_op e op = (out, e') → op_contract e op out e'.
Proof.
  intros He [Rv Rc] Hfit. destruct op as [k|k v|k|k|k| | |]; cbn [run_op op_fits] in *.
  - destruct (Get hash e k) as [r e1] eqn:E. intros [= <- <-].
    destruct (Get_contract hash e k r e1 He E) as (P & G & Hv).
    apply (preserves_contract _ _ _ _ 1); [done..|]. destruct P as (_ & V & _).
    destruct r as [v|err]; [split; [done|by apply Hv]|done].
  - destruct Hfit as [Hk Hv]. destruct (Put hash e k v) as [r e1] eqn:E. intros [= <- <-].
    destruct (Put_contract hash e k v r e1 He Rv Hk Hv E) as (Hok & D & G & Hor).
    split; [done|]. split; [done|]. split; [|by apply keeps_durable_keys].
    cbn. destruct r as [[]|err]; destruct Hor as [Hu|[Hr Hs]]; auto; done.
  - intros [= <- <-]. apply (invalidate_run e k false); [done..|]. apply surjective_pairing.
  - intros [= <- <-]. apply (invalidate_run e k true); [done..|]. apply surjective_pairing.
  - destruct (Flush hash e k) as [r e1] eqn:E. intros [= <- <-]. unfold Flush in E.
    destruct (CheckReadyForRead e) as [[]|err].
    + pose proof (FlushKey_quiet hash _ _ _ _ _ _ He E) as Q.
      eapply preserves_contract; [by apply quiet_preserves|by eapply quiet_grows|done|].
      by destruct Q as (_ & _ & _ & V & _).
    + injection E as <- <-. eapply (preserves_contract _ _ _ _ 0); [by apply preserves_refl|..];
        unfold grows; (lia || done).
  - destruct (FlushAll hash e) as [r e1] eqn:E. intros [= <- <-].
    assert (entry_count e < 2 ^ 64) as Hc by lia.
    destruct (FlushAll_contract hash e r e1 He Hc E) as [P G].
    eapply preserves_contract; [done|exact G|done|]. by destruct P as (_ & V & _).
  - destruct (Shutdown hash e) as [r e1] eqn:E. intros [= <- <-].
    assert (entry_count e < 2 ^ 64) as Hc by lia.
    destruct (Shutdown_contract hash e r e1 He Hc E) as [P G].
    eapply preserves_contract; [done|exact G|done|]. by destruct P as (_ & V & _).
  - intros [= <- <-].
    assert (core_eq e (snd (MarkRecoveryComplete e))) as Hc
      by (unfold MarkRecoveryComplete; by destruct (lifecycle_ e)).
    pose proof (core_eq_preserves hash _ _ Hc He) as P.
    eapply preserves_contract; [done|by apply core_eq_grows|done|]. by destruct P as (_ & V & _).
Qed.

Lemma run_contract ops e outs e' :
  engine_ok e → room e (zlen ops) → Forall op_fits ops → run e ops = (outs, e') →
  engine_ok e' ∧ allowed_run ops outs (view e) (view e') ∧ keeps_keys e e' (never_invalidated ops).
Proof.
  revert e outs. induction ops as [|op ops IH]; intros e outs He Hr Hfit; cbn [run].
  - intros [= <- <-]. split; [done|]. split; [by constructor|]. intros ds Hd. by exists ds.
  - apply Forall_cons in Hfit as [Hop Hfit]. rewrite zlen_cons in Hr.
    pose proof (zlen_nonneg ops) as Hnn.
    destruct (run_op e op) as [out e1] eqn:E1. destruct (run e1 ops) as [outs1 e2] eqn:E2.
    intros [= <- <-].
    assert (room e 1) as Hr1 by (unfold room in *; lia).
    destruct (run_op_contract e op out e1 He Hr1 Hop E1) as (Hok1 & G1 & A1 & D1).
    assert (room e1 (zlen ops)) as Hr2 by (unfold room, grows in *; lia).
    destruct (IH e1 outs1 Hok1 Hr2 Hfit E2) as (Hok2 & A2 & D2).
    split; [done|]. split; [by econstructor|].
    intros ds Hd. destruct (D1 ds Hd) as (ds1 & Hd1 & I1). destruct (D2 ds1 Hd1) as (ds2 & Hd2 & I2).
    exists ds2. split; [done|]. intros k Hk Hi. apply Forall_cons in Hk as [Hk Hks]. by apply I2, I1.
Qed.
(** *** A new engine *)

Lemma new_engine_ok options b j : store_ok b → engine_ok (@CacheEngine_new B J options b j).
Proof.
  intros Hb. destruct (new_shards_ok hash options b j) as [S1 S2 S3].
  constructor; try done; intros k en; by rewrite new_get.
Qed.

Lemma new_durable options b j ds :
  log_is j ds → (∀ k, invalidated ds k = false → pending_of ds !! k = None) →
  durable (@CacheEngine_new B J options b j) ds.
Proof. intros Hl Hp. split; [done|]. intros k Hk. rewrite new_get. cbn. by apply Hp. Qed.

Lemma new_view options b j k : view (@CacheEngine_new B J options b j) k = store_map b !! k.
Proof. unfold Durability.view. by rewrite new_get. Qed.

Lemma new_room options b j n :
  n < 2 ^ 64 → room (@CacheEngine_new B J options b j) n.
Proof.
  intros Hn. unfold room, entry_count. cbn [shards_ globalVersionCounter_ CacheEngine_new].
  enough (∀ m, zsum (λ s, zlen (lru s)) (replicate m Shard_empty) = 0) as -> by lia.
  intros m. induction m as [|m IH]; [done|]. unfold zsum in *. cbn. by rewrite IH.
Qed.

(** The engine implements a map.  Whatever the capacity, the policies,
    the hits, evictions and flushes, and whatever the backing store and the
    journal answer, the outcomes of a run of operations are those of a map: a
    read returns the last value written or what the backing store held, an
    acknowledged write or invalidation is in effect at once, a failed one
    leaves the map or, for a write, may have taken effect; nothing else
    changes what a client sees. *)
Theorem run_refines_map e ops outs e' :
  engine_ok e → room e (zlen ops) → Forall op_fits ops → run e ops = (outs, e') →
  engine_ok e' ∧ allowed_run ops outs (view e) (view e').
Proof.
  intros He Hr Hfit E. by destruct (run_contract ops e outs e' He Hr Hfit E) as (Hok & A & _).
Qed.

(** C15: reads are complete.  In an engine that accepts reads, over a backing
    store that does not fail, [Get] returns the value a client sees under the
    key whenever it is within the engine's limit of 64 MiB, and [NotFound]
    exactly when there is none, cached or not. *)
Theorem Get_complete e k r e' :
  engine_ok e → CheckReadyForRead e = Success tt → enabled (options_ e) = true →
  store_reliable (backingStore_ e) → Get hash e k = (r, e') →
  match view e k with
  | Some v => zlen v ≤ kMaxReasonableValueBytes → r = Success v
  | None => ∃ err, r = Failure err ∧ code err = ErrorCode.NotFound
  end.
Proof.
  intros He Hready Hen Hrel E. destruct (Get_contract hash e k r e' He E) as (_ & _ & Hv).
  unfold Get in E. rewrite Hready, Hen in E. cbn [negb] in E. unfold Get_lookup in E.
  unfold Durability.view in *.
  destruct (find (shard_at e (ShardFor hash e k)) k) as [[it en]|] eqn:Ef.
  { pose proof (find_get _ _ _ _ (shard_at_ok e _ (eo_shards hash e He)) Ef) as Hg.
    unfold EngineFacts.engine_get. rewrite Hg. by injection E as <- <-. }
  assert (EngineFacts.engine_get hash e k = None) as Hg by (by apply find_None_get).
  rewrite Hg in *. change (backingStore_ (count Miss e)) with (backingStore_ e) in E.
  destruct (IBackingStore.Get (backingStore_ e) k) as [gr b] eqn:Eb.
  destruct (Get_spec _ _ _ _ (eo_store hash e He) Eb) as (_ & _ & _ & Hnone & Hsome & Hr).
  destruct (store_map (backingStore_ e) !! k) as [v|] eqn:Em.
  - intros Hsz. destruct (Hr Hrel) as [_ Hrv]. specialize (Hrv v eq_refl). subst gr.
    rewrite (proj2 (Z.ltb_ge _ _)) in E by done.
    destruct (Get_fill hash _ k _ v) as [v' e1]. injection E as <- <-.
    specialize (Hv v' eq_refl). congruence.
  - destruct (Hnone eq_refl) as (err & -> & Hc). injection E as <- <-. eauto.
Qed.

(** A write, when the journal does not fail. *)
Lemma Put_succeeds e k v r e' ds :
  engine_ok e → version_room e → str_size k ≤ kMaxReasonableLength → zlen v ≤ kMaxReasonableLength →
  log_is (journal_ e) ds → lifecycle_ e = Ready → enabled (options_ e) = true →
  writePolicy (options_ e) = WritePolicyKind.WriteBackDeferred →
  Put hash e k v = (r, e') → r = Success tt.
Proof.
  intros He Hroom Hk Hv Hlog Hready Hen Hpol E. unfold Put, CheckReadyForWrite in E.
  rewrite Hready, Hen in E. cbn [negb] in E. unfold TryAdmitWrite in E.
  rewrite bool_decide_eq_true_2 in E by done. cbn [negb] in E.
  set (e0 := set_admission e _ _) in E.
  destruct (Put_admitted hash e0 k v) as [r1 e1] eqn:E1. injection E as <- _.
  unfold Put_admitted, AppendJournalRecordWithNewVersion in E1. cbn [rec_formatVersion rec_type rec_key rec_value] in E1.
  pose proof (eo_counter hash e He) as Hcnt. unfold version_room in Hroom.
  rewrite wrap_small in E1 by (unfold in_width; cbn; lia).
  set (ver := globalVersionCounter_ e0 + 1) in E1.
  destruct (AppendJournalRecord (set_version e0 ver) _) as [ar e2] eqn:Ea.
  apply AppendJournalRecord_contract in Ea as (S2 & F2 & B2 & L2).
  assert (record_ok (upsert k v ver)) as Hrec by (constructor; cbn; [done|unfold in_width, ver; cbn; lia|done|done]).
  destruct (L2 ds Hlog Hrec) as [-> _].
  assert (core_eq e e0) as Hc0 by done.
  assert (engine_ok e0) as He0 by (by apply (core_eq_preserves hash e e0)).
  assert (globalVersionCounter_ e2 = ver) as V2 by (by destruct F2 as (_ & _ & _ & V2 & _)).
  destruct (put_insert hash e0 k v He0 Hroom Hk Hv e2 S2 B2 V2) as [He3 _].
  fold ver in He3. set (e3 := insert_or_update e2 _ k v ver Dirty true) in *.
  assert (shards_ok hash e2) as Hsh2 by (apply (shards_ok_same hash e0); [exact S2|by apply engine_shards]).
  destruct (insert_or_update_contract hash e2 k v ver Dirty true Hsh2) as (_ & F3 & _). fold e3 in F3.
  assert (ShardFor hash e2 k < length (shards_ e3))%nat as Hi.
  { rewrite <- (ShardFor_frame hash e2 e3 k) by apply F3. apply ShardFor_lt, He3. }
  pose proof (relieve_quiet hash kMaxFlushAttemptsPerCall e3 _ He3 Hi) as (_ & F4 & _).
  unfold RelieveCapacityPressureIfNeeded in E1. set (e4 := relieve_loop hash _ e3 _) in *.
  assert (options_ e4 = options_ e) as Ho.
  { destruct F2 as [O2 _], F3 as [O3 _], F4 as [O4 _]. cbn in O2. congruence. }
  rewrite Ho, Hpol in E1. by injection E1 as <- _.
Qed.

(** C14: a write is acknowledged and survives.  In an engine that accepts
    writes, with write-back and a journal that does not fail, [Put] of a key and
    a value of at most 64 MiB succeeds; the value is what clients then read; and
    a restart of the process finds it on the journal and the backing store as
    they are, provided the journal held no invalidation of the key: with one
    the write can be lost ([Examples.rewritten_key_lost_on_restart]). *)
Theorem Put_acknowledged e k v r e' ds :
  engine_ok e → version_room e → str_size k ≤ kMaxReasonableLength → zlen v ≤ kMaxReasonableLength →
  durable e ds → lifecycle_ e = Ready → enabled (options_ e) = true →
  writePolicy (options_ e) = WritePolicyKind.WriteBackDeferred →
  Put hash e k v = (r, e') →
  r = Success tt ∧ view e' k = Some v ∧
  ∃ ds', durable e' ds' ∧
    (invalidated ds k = false → recovered ds' (store_map (backingStore_ e')) k = Some v).
Proof.
  intros He Hroom Hk Hv Hd Hready Hen Hpol E.
  pose proof (Put_succeeds e k v r e' ds He Hroom Hk Hv (proj1 Hd) Hready Hen Hpol E) as Hr.
  destruct (Put_contract hash e k v r e' He Hroom Hk Hv E) as (Hok & D & _ & Hor).
  destruct Hor as [Hu|[Hn _]]; [|done]. pose proof (Hu k) as Huk. rewrite decide_True in Huk by done.
  split; [done|]. split; [done|]. destruct (D ds Hd) as (ds' & Hd' & Hf). exists ds'. split; [done|].
  intros Hi. rewrite (durable_recovered hash e' ds' k Hok Hd'); [done|].
  destruct (invalidated ds' k) eqn:Ei; [|done]. by rewrite (Hf k Ei) in Hi.
Qed.

(** C16: a flush stores the entry, or leaves it dirty.  [Flush] of a dirty
    entry that succeeds puts its value in the backing store and marks it
    clean; with a journal that does not fail, the intent and the completion
    are in it, in that order.  A flush that fails leaves the entry dirty with
    its value and version, to be flushed again.  Either way clients see what
    they saw. *)
Theorem Flush_stores e k v ver r e' :
  engine_ok e → CheckReadyForRead e = Success tt →
  EngineFacts.engine_get hash e k = Some (mkEntry k v ver Dirty) → Flush hash e k = (r, e') →
  engine_ok e' ∧ (∀ k', view e' k' = view e k') ∧
  match r with
  | Success _ =>
    store_map (backingStore_ e') = <[k := v]> (store_map (backingStore_ e)) ∧
    EngineFacts.engine_get hash e' k = Some (mkEntry k v ver Clean) ∧
    ∀ ds, log_is (journal_ e) ds → log_is (journal_ e') (ds ++ [intent k ver; complete k ver])
  | Failure _ => EngineFacts.engine_get hash e' k = Some (mkEntry k v ver Dirty)
  end.
Proof.
  intros He Hready Hg. unfold Flush. rewrite Hready. intros E.
  destruct (FlushKey_quiet hash e k 0 false r e' He E) as (_ & _ & _ & V & _).
  destruct (FlushKey_contract hash e k 0 false r e' He E) as (Hok & _ & _ & Ho).
  split; [done|]. split; [exact V|].
  destruct Ho as [r -> _ Hnot|v' ver' Hg' U Hm Hl|v' ver' err Hg' Hsame _ _].
  - by destruct (Hnot v ver Hg) as [? _].
  - rewrite Hg in Hg'. injection Hg' as <- <-. split; [done|]. split; [|done].
    rewrite (U k). by rewrite decide_True.
  - by rewrite Hsame.
Qed.

(** *** Restart *)

Context (pending_order : gmap string PendingEntry → list (string * PendingEntry)).
Hypothesis pending_order_perm : ∀ m, pending_order m ≡ₚ map_to_list m.

(** The process that starts next: a new engine over the files as they are. *)
Definition restart options (b : B) (j : J) : Result unit * CacheEngine B J :=
  ReplayFromJournal hash pending_order (CacheEngine_new options b j).

(** Nothing acknowledged is lost.  After any run of operations from an
    engine whose journal is in order, a new engine that replays the journal
    shows every key, but for those invalidated since the journal was last
    emptied, as the engine that ran: with the last value written, flushed or
    not.  The replay cannot fail where nothing was invalidated; and the new
    engine is again one whose journal is in order. *)
Theorem run_then_restart_recovers e ds ops outs e' :
  engine_ok e → durable e ds → room e (zlen ops) → Forall op_fits ops → run e ops = (outs, e') →
  ∃ ds', log_is (journal_ e') ds' ∧
    ∀ options b j r e2,
      store_ok b → store_map b = store_map (backingStore_ e') → log_is j ds' →
      restart options b j = (r, e2) →
      (r = Success tt → engine_ok e2 ∧ durable e2 ds' ∧
         ∀ k, invalidated ds k = false → never_invalidated ops k → view e2 k = view e' k) ∧
      ((∀ k, invalidated ds' k = false) → r = Success tt).
Proof.
  intros He Hd Hroom Hfit E.
  destruct (run_contract ops e outs e' He Hroom Hfit E) as (Hok & _ & D).
  destruct (D ds Hd) as (ds' & Hd' & Hinv). exists ds'. split; [apply Hd'|].
  intros options b j r e2 Hb Hm Hl Er.
  destruct (ReplayFromJournal_contract hash pending_order pending_order_perm options b j ds' r e2 Hb
              (proj2 (proj1 (log_is_reads j ds') Hl)) Er)
    as (Hsucc & _ & Hno).
  split; [|done]. intros Hr. destruct (Hsucc Hr) as (Hok2 & Hd2 & _ & Hv & _). split; [done|].
  split; [apply Hd2, Hl|]. intros k Hk Hn. rewrite Hv, Hm. apply durable_recovered; [done..|]. by apply Hinv.
Qed.
End client.
