(* ===== verification/Lifecycle.v ===== *)
(** * Lifecycle: creation, states and admission of the engine

    What the factory accepts, how the lifecycle moves, that the admission of
    writes is balanced, what a failed replay and a shutdown leave behind. *)
From S2P Require Import Prelude Common RecordCodec Storage Journal Store Shard Engine EngineFacts Durability Client.
Import EntryDirtyState EngineLifecycle Engine.
Open Scope Z_scope.

(** ** The factory *)

Lemma land_pred_pow2 n : 0 ≤ n → Z.land (2 ^ n) (2 ^ n - 1) = 0.
Proof.
  intros Hn. replace (2 ^ n - 1) with (Z.ones n) by (rewrite Z.ones_equiv; lia).
  rewrite Z.land_ones by done. by apply Z.mod_same, Z.pow_nonzero.
Qed.

Lemma land_pred_zero x : 0 < x → Z.land x (x - 1) = 0 → x = 2 ^ Z.log2 x.
Proof.
  intros Hx Hl. destruct (Z.log2_spec x Hx) as [Hlo Hhi].
  destruct (decide (x = 2 ^ Z.log2 x)) as [|Hne]; [done|exfalso].
  assert (Z.log2 (x - 1) = Z.log2 x) as Hp by (apply Z.log2_unique; [apply Z.log2_nonneg|lia]).
  assert (Z.testbit (Z.land x (x - 1)) (Z.log2 x) = true) as Hb.
  { rewrite Z.land_spec, Z.bit_log2 by done. rewrite <- Hp, Z.bit_log2; [done|].
    pose proof (Z.pow_pos_nonneg 2 (Z.log2 x)). pose proof (Z.log2_nonneg x). lia. }
  by rewrite Hl, Z.bits_0 in Hb.
Qed.

Definition options_valid (o : CacheEngineOptions) : Prop :=
  (∃ n, 0 ≤ n < 32 ∧ shardCount o = 2 ^ n) ∧ capacityBytes o ≠ 0 ∧ maxEntryCount o ≠ 0.

Lemma shardCount_check o :
  u32 (shardCount o) →
  (shardCount o =? 0) || negb (Z.land (shardCount o) (wrap32 (shardCount o - 1)) =? 0) = false ↔
  ∃ n, 0 ≤ n < 32 ∧ shardCount o = 2 ^ n.
Proof.
  intros Hu. unfold in_width in Hu. cbn in Hu. rewrite orb_false_iff, Z.eqb_neq, negb_false_iff, Z.eqb_eq. split.
  - intros [Hne Hl]. rewrite wrap_small in Hl by (unfold in_width; cbn; lia).
    pose proof (land_pred_zero (shardCount o) ltac:(lia) Hl) as E. exists (Z.log2 (shardCount o)).
    split; [|done]. split; [apply Z.log2_nonneg|]. apply Z.log2_lt_pow2; cbn; lia.
  - intros (n & Hn & E). rewrite E in *. assert (0 < 2 ^ n) by (apply Z.pow_pos_nonneg; lia).
    split; [lia|]. rewrite wrap_small by (unfold in_width; cbn; lia). apply land_pred_pow2. lia.
Qed.

(** The factory creates an engine exactly when it is given both a backing
    store and a journal, a shard count that is a power of two (the bit trick
    [n & (n - 1)] on 32 bits) and limits that are not zero; the engine then has
    that many shards and is not ready. *)
Theorem CreateCacheEngine_accepts {B J} options (ob : option B) (oj : option J) :
  u32 (shardCount options) →
  match CreateCacheEngine options ob oj with
  | Success e =>
    options_valid options ∧ ob = Some (backingStore_ e) ∧ oj = Some (journal_ e) ∧
    zlen (shards_ e) = shardCount options ∧ lifecycle_ e = NotReady ∧
    perShardCapacityBytes_ e = capacityBytes options / shardCount options
  | Failure err => code err = ErrorCode.InvalidArgument ∧ (ob = None ∨ oj = None ∨ ¬ options_valid options)
  end.
Proof.
  intros Hu. unfold CreateCacheEngine. destruct ob as [b|]; [|auto]. destruct oj as [j|]; [|auto].
  pose proof (shardCount_check options Hu) as Hs. destruct (_ || _).
  { split; [done|]. do 2 right. intros [Hn _]. by apply Hs in Hn. }
  destruct (proj1 Hs eq_refl) as (n & Hn & E).
  destruct (Z.eqb_spec (capacityBytes options) 0); [split; [done|]; do 2 right; by intros (_ & ? & _)|].
  destruct (Z.eqb_spec (maxEntryCount options) 0); [split; [done|]; do 2 right; by intros (_ & _ & ?)|].
  assert (0 < 2 ^ n) by (apply Z.pow_pos_nonneg; lia).
  assert (zlen (replicate (Z.to_nat (Z.max 1 (shardCount options))) Shard_empty) = shardCount options) as Hl
    by (unfold zlen; rewrite length_replicate; lia).
  split; [by split; [exists n|]|]. cbn [CacheEngine_new backingStore_ journal_ shards_ lifecycle_ perShardCapacityBytes_].
  by rewrite Hl.
Qed.

(** ** The control state: options, lifecycle and admission *)

Section control.
Context {B J : Type} `{IBackingStore.IBackingStore B} `{IWriteAheadJournal J}.
Context (hash : string → Z).
Implicit Types e : CacheEngine B J.

Record Control := mkControl {
  c_options : CacheEngineOptions; c_lifecycle : EngineLifecycle; c_inFlight : Z; c_paused : bool
}.
Definition control e : Control :=
  mkControl (options_ e) (lifecycle_ e) (inFlightWriteCount_ e) (compactionPaused_ e).

Lemma AppendJournalRecord_control e d r e' : AppendJournalRecord e d = (r, e') → control e' = control e.
Proof. unfold AppendJournalRecord. by destruct (Append _ _) as [[?|?] j]; intros [= _ <-]. Qed.

Lemma insert_or_update_control e i k v ver st b : control (insert_or_update e i k v ver st b) = control e.
Proof. unfold insert_or_update. by destruct (InsertOrUpdateLocked _ _ _ _ _ _ _ _ _). Qed.

Lemma evict_control e i : control (evict e i) = control e.
Proof. unfold evict. by destruct (EvictCleanEntriesLocked _ _ _ _). Qed.

Lemma flush_io_control e k v ver r e' : flush_io e k v ver = (r, e') → control e' = control e.
Proof.
  unfold flush_io. destruct (AppendJournalRecord e _) as [[[]|err] e1] eqn:E1;
    apply AppendJournalRecord_control in E1; [|by intros [= _ <-]].
  destruct (IBackingStore.Put _ k v) as [[[]|err] b]; [|by intros [= _ <-]].
  intros E. by apply AppendJournalRecord_control in E as ->.
Qed.

Lemma FlushKey_control e k ev cv r e' : FlushKey hash e k ev cv = (r, e') → control e' = control e.
Proof.
  unfold FlushKey. destruct (flush_begin _ _ _ _) as [[r0|[v ver]] s]; [by intros [= _ <-]|].
  destruct (flush_io _ k v ver) as [[[]|err] e1] eqn:E; apply flush_io_control in E; by intros [= _ <-].
Qed.

Lemma relieve_control n e i : control (relieve_loop hash n e i) = control e.
Proof.
  revert e. induction n as [|n IH]; intros e; cbn [relieve_loop]; [done|].
  destruct (negb _); [done|]. cbv zeta. destruct (String.eqb _ ""); [apply evict_control|].
  destruct (FlushKey hash e _ 0 false) as [r e1] eqn:E1. apply FlushKey_control in E1.
  assert (control (evict e1 i) = control e) as Hc by (by rewrite evict_control).
  destruct r; [|done]. destruct (_ <=? _); [done|]. by rewrite IH.
Qed.

Lemma Put_admitted_control e k v r e' : Put_admitted hash e k v = (r, e') → control e' = control e.
Proof.
  unfold Put_admitted, AppendJournalRecordWithNewVersion. cbv zeta.
  destruct (AppendJournalRecord _ _) as [[[]|err] e1] eqn:E1; apply AppendJournalRecord_control in E1;
    [|by intros [= _ <-]].
  unfold RelieveCapacityPressureIfNeeded. set (e3 := relieve_loop hash _ _ _).
  assert (control e3 = control e) as H3 by (unfold e3; by rewrite relieve_control, insert_or_update_control).
  destruct (writePolicy _); [|by intros [= _ <-]]. intros E. by apply FlushKey_control in E as ->.
Qed.

Lemma Invalidate_admitted_control e k force r e' :
  Invalidate_admitted hash e k force = (r, e') → control e' = control e.
Proof.
  unfold Invalidate_admitted. destruct (Invalidate_peek _ _ _ _); [|by intros [= _ <-]].
  destruct (AppendJournalRecord _ _) as [[[]|err] e1] eqn:E1; apply AppendJournalRecord_control in E1;
    [|by intros [= _ <-]].
  destruct (IBackingStore.Remove _ k) as [[[]|err] b]; by intros [= _ <-].
Qed.

Lemma Get_control e k r e' : Get hash e k = (r, e') → control e' = control e.
Proof.
  unfold Get. destruct (CheckReadyForRead e) as [[]|]; [|by intros [= _ <-]].
  destruct (negb _); [by intros [= _ <-]|]. unfold Get_lookup.
  destruct (find _ k) as [[it en]|]; [by intros [= _ <-]|].
  destruct (IBackingStore.Get _ k) as [[v|err] b]; [|by intros [= _ <-]].
  destruct (_ <? _); [by intros [= _ <-]|]. unfold Get_fill.
  destruct (_ =? _); [intros [= _ <-]; by rewrite insert_or_update_control|].
  destruct (find _ k) as [[it en]|]; by intros [= _ <-].
Qed.

Lemma flush_shards_control shs e last last' e' :
  flush_shards hash e shs last = (last', e') → control e' = control e.
Proof.
  assert (∀ ks e last last' e', flush_keys hash e ks last = (last', e') → control e' = control e) as Hk.
  { induction ks as [|k ks IH]; intros e1 l l' e2; cbn [flush_keys]; [by intros [= _ <-]|].
    destruct (FlushKey hash e1 k 0 false) as [[[]|err] e3] eqn:E1; apply FlushKey_control in E1;
      intros E; by apply IH in E as ->. }
  revert e last. induction shs as [|i shs IH]; intros e last; cbn [flush_shards]; [by intros [= _ <-]|].
  destruct (flush_keys hash e _ last) as [l e1] eqn:E1. apply Hk in E1.
  intros E. by apply IH in E as ->.
Qed.

(** Compaction always resumes the writers it paused. *)
Definition resumed (c c' : Control) : Prop :=
  c_options c' = c_options c ∧ c_lifecycle c' = c_lifecycle c ∧ c_inFlight c' = c_inFlight c ∧
  (c_paused c' = c_paused c ∨ c_paused c' = false).

Lemma compact_control e : resumed (control e) (control (TryCompactJournalIfFullyClean e)).
Proof.
  unfold TryCompactJournalIfFullyClean. destruct (_ =? 0); [by split_and!; auto|].
  cbv zeta. repeat case_match; by split_and!; auto.
Qed.

Lemma FlushAll_control e r e' : FlushAll hash e = (r, e') → resumed (control e) (control e').
Proof.
  unfold FlushAll. destruct (CheckReadyForRead e) as [[]|]; [|intros [= _ <-]; by split_and!; auto].
  destruct (flush_shards hash e _ None) as [[err|] e1] eqn:E1; apply flush_shards_control in E1; intros [= _ <-].
  - rewrite E1. by split_and!; auto.
  - rewrite <- E1. apply compact_control.
Qed.

(** *** The state machine *)

Definition next_lifecycle (l : EngineLifecycle) (op : Operation) : EngineLifecycle :=
  match op, l with
  | OpMarkRecoveryComplete, NotReady => Ready
  | OpShutdown, Ready => Stopped
  | _, l => l
  end.

Lemma admission_balanced e e1 e2 :
  0 ≤ inFlightWriteCount_ e < 2 ^ 64 - 1 → TryAdmitWrite e = (true, e1) → control e2 = control e1 →
  control (ReleaseWriteAdmission e2) = control e.
Proof.
  intros Hn. unfold TryAdmitWrite. case_bool_decide; [|done]. intros [= <-] Hc.
  unfold control in Hc. cbn in Hc. rewrite wrap_small in Hc by (unfold in_width; cbn; lia).
  injection Hc as Ho Hl Hi Hp. unfold ReleaseWriteAdmission. rewrite Hi.
  rewrite (proj2 (Z.ltb_lt _ _)) by lia. unfold control. cbn. rewrite Ho, Hl, Hp. f_equal. lia.
Qed.

Lemma resumed_refl c : resumed c c.
Proof. by split_and!; auto. Qed.

Lemma Put_control e k v r e' :
  0 ≤ inFlightWriteCount_ e < 2 ^ 64 - 1 → Put hash e k v = (r, e') → control e' = control e.
Proof.
  intros Hn. unfold Put. destruct (CheckReadyForWrite e) as [[]|]; [|by intros [= _ <-]].
  destruct (negb _); [by intros [= _ <-]|]. destruct (TryAdmitWrite e) as [ok e1] eqn:Ea.
  destruct ok; cbn [negb].
  - destruct (Put_admitted hash e1 k v) as [r1 e2] eqn:E2. apply Put_admitted_control in E2.
    intros [= _ <-]. by eapply admission_balanced.
  - unfold TryAdmitWrite in Ea. case_bool_decide; [done|]. injection Ea as <-. by intros [= _ <-].
Qed.

Lemma InvalidateImpl_control e k force r e' :
  0 ≤ inFlightWriteCount_ e < 2 ^ 64 - 1 → InvalidateImpl hash e k force = (r, e') → control e' = control e.
Proof.
  intros Hn. unfold InvalidateImpl. destruct (CheckReadyForWrite e) as [[]|]; [|by intros [= _ <-]].
  destruct (TryAdmitWrite e) as [ok e1] eqn:Ea. destruct ok; cbn [negb].
  - destruct (Invalidate_admitted hash e1 k force) as [r1 e2] eqn:E2. apply Invalidate_admitted_control in E2.
    intros [= _ <-]. by eapply admission_balanced.
  - unfold TryAdmitWrite in Ea. case_bool_decide; [done|]. injection Ea as <-. by intros [= _ <-].
Qed.

(** The control state of the engine.  Every operation returns with the
    admission count as it found it, however it returns, with writers not left
    paused by a compaction, and with the lifecycle moved along
    [NotReady -> Ready -> Stopped] only by [MarkRecoveryComplete] and
    [Shutdown]. *)
Theorem run_op_control e op out e' :
  0 ≤ inFlightWriteCount_ e < 2 ^ 64 - 1 → run_op hash e op = (out, e') →
  options_ e' = options_ e ∧ inFlightWriteCount_ e' = inFlightWriteCount_ e ∧
  (compactionPaused_ e = false → compactionPaused_ e' = false) ∧
  lifecycle_ e' = next_lifecycle (lifecycle_ e) op.
Proof.
  intros Hn E.
  assert (∀ e1, control e1 = control e →
    options_ e1 = options_ e ∧ inFlightWriteCount_ e1 = inFlightWriteCount_ e ∧
    (compactionPaused_ e = false → compactionPaused_ e1 = false) ∧ lifecycle_ e1 = lifecycle_ e) as Hc.
  { intros e1 [= Ho Hl Hi Hp]. rewrite Hp. by split_and!. }
  destruct op as [k|k v|k|k|k| | |]; cbn [run_op next_lifecycle] in E |- *.
  - destruct (Get hash e k) as [r e1] eqn:E1. injection E as _ <-. by apply Hc, (Get_control e k r).
  - injection E as _ <-. apply Hc. eapply Put_control; [done|]. apply surjective_pairing.
  - injection E as _ <-. apply Hc. eapply InvalidateImpl_control; [done|]. apply surjective_pairing.
  - injection E as _ <-. apply Hc. eapply InvalidateImpl_control; [done|]. apply surjective_pairing.
  - injection E as _ <-. apply Hc. unfold Flush. destruct (CheckReadyForRead e) as [[]|]; [|done].
    eapply FlushKey_control, surjective_pairing.
  - injection E as _ <-. destruct (FlushAll hash e) as [r e1] eqn:E1.
    apply FlushAll_control in E1 as (Ho & Hl & Hi & Hp). cbn in *. split_and!; [done|done| |done].
    intros Hf. by destruct Hp as [->|].
  - injection E as _ <-. unfold Shutdown. destruct (lifecycle_ e) eqn:El; try (by split_and!).
    destruct (FlushAll hash (set_lifecycle e Stopping)) as [r e1] eqn:E1.
    apply FlushAll_control in E1 as (Ho & _ & Hi & Hp). cbn in *.
    case_match; cbn; split_and!; try done; intros Hf; by destruct Hp as [->|].
  - injection E as _ <-. unfold MarkRecoveryComplete. by destruct (lifecycle_ e) eqn:El.
Qed.

(** *** Engines that are over *)

Definition failed (out : Outcome) : Prop :=
  match out with Value r => IsOk r = false | Done r => IsOk r = false end.

Definition over (l : EngineLifecycle) : Prop := l = Stopped ∨ l = RecoveryFailed.

Lemma run_op_over e op :
  over (lifecycle_ e) →
  snd (run_op hash e op) = e ∧
  (failed (fst (run_op hash e op)) ∨ op = OpShutdown ∧ lifecycle_ e = Stopped).
Proof.
  intros Ho.
  assert (∃ err, CheckReadyForRead e = Failure err) as [err Hr]
    by (unfold CheckReadyForRead; destruct Ho as [-> | ->]; eauto).
  assert (∃ err, CheckReadyForWrite e = Failure err) as [err' Hw]
    by (unfold CheckReadyForWrite; destruct Ho as [-> | ->]; unfold not_accepting; eauto).
  destruct op; cbn; unfold Get, Put, Invalidate, ForceInvalidate, InvalidateImpl, Flush, FlushAll, Shutdown,
    MarkRecoveryComplete; rewrite ?Hr, ?Hw; cbn; auto; destruct Ho as [-> | ->]; cbn; auto.
Qed.

Lemma run_over ops e outs e' :
  over (lifecycle_ e) → run hash e ops = (outs, e') →
  e' = e ∧ Forall2 (λ op out, failed out ∨ op = OpShutdown ∧ lifecycle_ e = Stopped) ops outs.
Proof.
  intros Ho. revert outs. induction ops as [|op ops IH]; intros outs; cbn [run].
  - by intros [= <- <-].
  - pose proof (run_op_over e op Ho) as [Hs Hf]. destruct (run_op hash e op) as [out e1]. cbn in Hs, Hf. subst e1.
    destruct (run hash e ops) as [outs1 e2] eqn:E2. intros [= <- <-].
    destruct (IH _ eq_refl) as [-> Hall]. by split; [|constructor].
Qed.

Lemma insert_pending_control l e hi e' hi' :
  insert_pending hash e l hi = (e', hi') → control e' = control e.
Proof.
  revert e hi. induction l as [|[k q] l IH]; intros e hi; cbn [insert_pending]; [by intros [= <- _]|].
  intros E. apply IH in E as ->. apply insert_or_update_control.
Qed.

Lemma Replay_lifecycle pending_order e r e' :
  lifecycle_ e = NotReady → ReplayFromJournal hash pending_order e = (r, e') →
  lifecycle_ e' = match r with Success _ => NotReady | Failure _ => RecoveryFailed end.
Proof.
  intros Hl. unfold ReplayFromJournal. rewrite Hl, bool_decide_eq_true_2 by done. cbn [negb].
  destruct (Replay replay_record _ _) as [[rr [p b']] j']. destruct rr as [[]|err]; [|by intros [= <- <-]].
  destruct (insert_pending hash _ _ _) as [e3 h] eqn:E3. apply insert_pending_control in E3.
  intros [= <- <-]. cbn. injection E3 as _ E3 _ _. by rewrite E3.
Qed.

Lemma Replay_admission pending_order e r e' :
  ReplayFromJournal hash pending_order e = (r, e') →
  inFlightWriteCount_ e' = inFlightWriteCount_ e ∧ compactionPaused_ e' = compactionPaused_ e.
Proof.
  unfold ReplayFromJournal. destruct (negb _); [by intros [= _ <-]|].
  destruct (Replay replay_record _ _) as [[rr [p b']] j']. destruct rr as [[]|err]; [|by intros [= _ <-]].
  destruct (insert_pending hash _ _ _) as [e3 h] eqn:E3. apply insert_pending_control in E3.
  intros [= _ <-]. cbn. by injection E3 as _ _ -> ->.
Qed.

(** A failed replay is final.  If [ReplayFromJournal] of a new engine
    fails, every later operation of that engine fails, with no effect on the
    cache, the backing store or the journal. *)
Theorem failed_replay_is_final pending_order options b j err e ops outs e' :
  ReplayFromJournal hash pending_order (CacheEngine_new options b j) = (Failure err, e) →
  run hash e ops = (outs, e') → e' = e ∧ Forall failed outs.
Proof.
  intros Hr E. assert (lifecycle_ e = RecoveryFailed) as Hl by (by apply Replay_lifecycle in Hr).
  destruct (run_over ops e outs e') as [-> Hall]; [by right|done|]. split; [done|].
  clear -Hall Hl. induction Hall as [|op out ops outs Ho Hall IH]; constructor; [|done].
  destruct Ho as [|[_ Hs]]; [done|congruence].
Qed.
End control.

(** ** Shutdown and invalidation *)

Section endings.
Context {B J : Type} `{BackingStoreSpec B} `{JournalSpec J}.
Context (hash : string → Z).
Implicit Types e : CacheEngine B J.

Lemma clean_view_is_store e :
  EngineFacts.engine_ok hash e → entry_count e < 2 ^ 64 → total_dirty e = 0 →
  ∀ k, view hash e k = store_map (backingStore_ e) !! k.
Proof.
  intros He Hc Hz k. pose proof (total_dirty_zero hash e (eo_shards hash e He) Hc Hz k) as Hclean.
  unfold view. destruct (EngineFacts.engine_get hash e k) as [en|] eqn:Eg; [|done].
  specialize (Hclean en eq_refl). pose proof (eo_coherent hash e He k en Eg) as Hco.
  unfold coherent in Hco. rewrite Hclean in Hco. by rewrite <- (engine_get_key hash e k en He Eg).
Qed.

(** C18: a shutdown keeps everything.  [Shutdown] of a ready engine succeeds
    and leaves it stopped with what clients saw unchanged.  When it reports no
    dirty entry left, the backing store alone holds all of it, and the journal,
    if it does not fail, is empty; otherwise the journal still holds what a
    restart needs. *)
Theorem Shutdown_keeps e r e' :
  EngineFacts.engine_ok hash e → entry_count e < 2 ^ 64 → lifecycle_ e = Ready →
  Shutdown hash e = (r, e') →
  r = Success tt ∧ lifecycle_ e' = Stopped ∧ (∀ k, view hash e' k = view hash e k) ∧
  (total_dirty e' = 0 → ∀ k, store_map (backingStore_ e') !! k = view hash e k) ∧
  ∀ ds, durable hash e ds →
    ∃ ds', durable hash e' ds' ∧ (total_dirty e' = 0 → ds' = []) ∧
           ∀ k, invalidated ds k = false → invalidated ds' k = false.
Proof.
  intros He Hc Hl E. destruct (Shutdown_contract hash e r e' He Hc E) as [(Hok & V & D) [Hn _]].
  assert (entry_count e' < 2 ^ 64) as Hc' by lia.
  assert (r = Success tt ∧ lifecycle_ e' = Stopped ∧
          (total_dirty e' = 0 → ∃ j, journal_ e' = snd (Truncate j) ∧
             ∀ ds, durable hash e ds → ∃ ds', log_is j ds')) as (Hr & Hs & Hj).
  { unfold Shutdown in E. rewrite Hl in E.
    destruct (FlushAll hash (set_lifecycle e Stopping)) as [fr e2] eqn:E2.
    destruct (FlushAll_contract hash (set_lifecycle e Stopping) fr e2) as [(_ & _ & D2) _];
      [by apply (core_eq_preserves hash e)|done|done|].
    destruct (Z.eqb_spec (total_dirty (set_lifecycle e2 Stopped)) 0) as [|Hz]; injection E as <- <-.
    - split; [done|]. split; [done|]. intros _. exists (journal_ e2). split; [done|].
      intros ds Hd. destruct (D2 ds) as (ds2 & [Hl2 _] & _); [|by exists ds2].
      by apply (core_eq_durable hash e).
    - split; [done|]. split; [done|]. intros. by destruct Hz. }
  split; [done|]. split; [done|]. split; [done|]. split.
  - intros Hz k. by rewrite <- (clean_view_is_store e' Hok Hc' Hz), V.
  - intros ds Hd. destruct (D ds Hd) as (ds' & Hd' & Hf). exists ds'. split; [done|]. split.
    + intros Hz. destruct (Hj Hz) as (j & Ej & Hlog). destruct (Hlog ds Hd) as (ds2 & Hrel & _ & _).
      destruct (Truncate_reliable j Hrel) as (j' & Et & _). destruct (Truncate_ok _ _ Et) as [_ Hnil].
      destruct Hd' as [(_ & _ & Hall) _]. rewrite Ej, Et in Hall. cbn in Hall. rewrite Hnil in Hall.
      by inversion Hall.
    + intros k Hk. destruct (invalidated ds' k) eqn:Ei; [|done]. by rewrite (Hf k Ei) in Hk.
Qed.

(** C17: an invalidation is lasting.  When [Invalidate] or [ForceInvalidate]
    succeeds, clients find nothing under the key and everything else as it
    was, and so does a restart on the journal and the backing store as they
    are; when it fails, clients see no change. *)
Theorem Invalidate_lasting e k force r e' :
  EngineFacts.engine_ok hash e → str_size k ≤ kMaxReasonableLength →
  InvalidateImpl hash e k force = (r, e') →
  EngineFacts.engine_ok hash e' ∧
  (if IsOk r then ∀ k', view hash e' k' = if decide (k' = k) then None else view hash e k'
   else ∀ k', view hash e' k' = view hash e k') ∧
  ∀ ds, durable hash e ds → ∃ ds', durable hash e' ds' ∧
    (∀ k', k' ≠ k → invalidated ds' k' = invalidated ds k') ∧
    (IsOk r = true → recovered ds' (store_map (backingStore_ e')) k = None).
Proof.
  intros He Hk E. destruct (InvalidateImpl_contract hash e k force r e' He Hk E) as (Hok & _ & V & D).
  by split.
Qed.

(** Unflushed data is not discarded by mistake.  [Invalidate] without
    force of a key whose entry is dirty or being flushed is refused with
    [UnflushedDirtyData]: neither the cache, nor the backing store, nor the
    journal changes. *)
Theorem Invalidate_refuses_dirty e k en r e' :
  EngineFacts.engine_ok hash e → lifecycle_ e = Ready → EngineFacts.engine_get hash e k = Some en →
  dirtyState en ≠ Clean → Invalidate hash e k = (r, e') →
  (∃ err, r = Failure err ∧ code err = ErrorCode.UnflushedDirtyData) ∧
  shards_ e' = shards_ e ∧ backingStore_ e' = backingStore_ e ∧ journal_ e' = journal_ e.
Proof.
  intros He Hl Hg Hd. unfold Invalidate, InvalidateImpl, CheckReadyForWrite. rewrite Hl.
  unfold TryAdmitWrite. rewrite bool_decide_eq_true_2 by done. cbn [negb].
  unfold Invalidate_admitted, Invalidate_peek. cbn [set_admission].
  set (e1 := set_admission e _ _). unfold EngineFacts.engine_get, shard_get in Hg.
  change (find (shard_at e1 (ShardFor hash e1 k)) k) with (find (shard_at e (ShardFor hash e k)) k).
  destruct (find (shard_at e (ShardFor hash e k)) k) as [[it en']|]; [|done]. injection Hg as ->.
  unfold is_clean. rewrite bool_decide_eq_false_2 by done. cbn [negb andb].
  intros [= <- <-]. split; [by eexists|]. unfold ReleaseWriteAdmission. by destruct (_ <? _).
Qed.
End endings.
