(* ===== verification/EngineInterface.v ===== *)
(** * EngineInterface: what the engine promises to its owner and its clients

    Models src/src/CoreEngine/include/QuantumCache/CoreEngine/ICacheEngine.h:
    the interface as a class of operations, the promises its comments make as
    a class of laws, what follows for any engine that keeps them, and the proof
    that [CacheEngine] does.  At the end, two promises of single operations:
    the boundary of a write-through [Put], and a replay run twice. *)
From S2P Require Import Prelude Common RecordCodec Storage Journal Recovery Store Shard Engine EngineFacts.
From S2P Require Import Durability Client Lifecycle.
Import EntryDirtyState EngineLifecycle Client.
Open Scope Z_scope.

(** ** The interface *)

Module ICacheEngine.
Class ICacheEngine (E : Type) := {
  RequiredRecoveryState : E → RecoveryState.RecoveryState;
  ReplayFromJournal : E → Result unit * E;
  MarkRecoveryComplete : E → Result unit * E;
  Get : E → string → Result bytes * E;
  Contains : E → string → bool;
  GetEntryInfo : E → string → Result CacheEntryInfo;
  Put : E → string → bytes → Result unit * E;
  Invalidate : E → string → Result unit * E;
  ForceInvalidate : E → string → Result unit * E;
  Flush : E → string → Result unit * E;
  FlushAll : E → Result unit * E;
  GetStatistics : E → CacheStatistics;
  Shutdown : E → Result unit * E
}.
End ICacheEngine.

(** A call of the interface, and its answer. *)
Inductive Call :=
  | Operate (op : Operation)
  | CallReplay
  | CallContains (k : string)
  | CallEntryInfo (k : string)
  | CallStatistics.

Inductive Answer :=
  | Reply (out : Outcome)
  | Present (b : bool)
  | Info (r : Result CacheEntryInfo)
  | Statistics (st : CacheStatistics).

Section calls.
Context {E : Type} `{ICacheEngine.ICacheEngine E}.
Implicit Types e : E.

Definition call e (c : Call) : Answer * E :=
  let done (p : Result unit * E) := (Reply (Done (fst p)), snd p) in
  match c with
  | Operate (OpGet k) => let '(r, e) := ICacheEngine.Get e k in (Reply (Value r), e)
  | Operate (OpPut k v) => done (ICacheEngine.Put e k v)
  | Operate (OpInvalidate k) => done (ICacheEngine.Invalidate e k)
  | Operate (OpForceInvalidate k) => done (ICacheEngine.ForceInvalidate e k)
  | Operate (OpFlush k) => done (ICacheEngine.Flush e k)
  | Operate OpFlushAll => done (ICacheEngine.FlushAll e)
  | Operate OpShutdown => done (ICacheEngine.Shutdown e)
  | Operate OpMarkRecoveryComplete => done (ICacheEngine.MarkRecoveryComplete e)
  | CallReplay => done (ICacheEngine.ReplayFromJournal e)
  | CallContains k => (Present (ICacheEngine.Contains e k), e)
  | CallEntryInfo k => (Info (ICacheEngine.GetEntryInfo e k), e)
  | CallStatistics => (Statistics (ICacheEngine.GetStatistics e), e)
  end.

Fixpoint calls e (cs : list Call) : list Answer * E :=
  match cs with
  | [] => ([], e)
  | c :: cs => let '(a, e) := call e c in let '(answers, e) := calls e cs in (a :: answers, e)
  end.
End calls.

(** The methods that serve data; the answers with which they do. *)
Definition data_plane (c : Call) : bool :=
  match c with
  | Operate OpShutdown | Operate OpMarkRecoveryComplete | CallReplay | CallStatistics => false
  | _ => true
  end.

Definition granted (a : Answer) : bool :=
  match a with
  | Reply (Value r) => IsOk r
  | Reply (Done r) => IsOk r
  | Present b => b
  | Info r => IsOk r
  | Statistics _ => true
  end.

(** A refusal carries this code; [Contains] has only [false] to say. *)
Definition refused_with (ec : ErrorCode.ErrorCode) (a : Answer) : Prop :=
  match a with
  | Reply (Value (Failure err)) | Reply (Done (Failure err)) | Info (Failure err) => code err = ec
  | Present b => b = false
  | _ => False
  end.

Definition refusal_code (l : EngineLifecycle) : option ErrorCode.ErrorCode :=
  match l with
  | NotReady => Some ErrorCode.RecoveryNotComplete
  | RecoveryFailed => Some ErrorCode.RecoveryFailed
  | Stopped => Some ErrorCode.ServiceStopping
  | Ready | Stopping => None
  end.

(** What the owner's calls do to the lifecycle. *)
Definition next_phase (l : EngineLifecycle) (c : Call) (a : Answer) : EngineLifecycle :=
  match c with
  | Operate op => next_lifecycle l op
  | CallReplay =>
    match l with NotReady => if granted a then NotReady else RecoveryFailed | l => l end
  | _ => l
  end.

(** What the answer of an engine that does not refuse says of the abstract
    map, and what the call does to it. *)
Definition call_allowed (c : Call) (a : Answer) (m m' : string → option bytes) : Prop :=
  match c, a with
  | Operate op, Reply out => allowed op out m m'
  | CallContains k, Present b => map_same m m' ∧ b = bool_decide (is_Some (m k))
  | CallEntryInfo k, Info r =>
    map_same m m' ∧ ∀ i, r = Success i → info_key i = k ∧ ∃ v, m k = Some v ∧ info_sizeBytes i = zlen v
  | CallStatistics, Statistics _ => map_same m m'
  | _, _ => False
  end.

(** The abstract engine: a lifecycle and a map. *)
Definition spec_step (c : Call) (a : Answer) (s s' : EngineLifecycle * (string → option bytes)) : Prop :=
  let '(l, m) := s in
  let '(l', m') := s' in
  l' = next_phase l c a ∧
  match (if data_plane c then refusal_code l else None) with
  | Some ec => refused_with ec a ∧ map_same m m'
  | None => call_allowed c a m m'
  end.

Inductive spec_run : list Call → list Answer → EngineLifecycle * (string → option bytes) →
    EngineLifecycle * (string → option bytes) → Prop :=
  | spec_done s : spec_run [] [] s s
  | spec_call c a cs answers s1 s2 s3 :
      spec_step c a s1 s2 → spec_run cs answers s2 s3 → spec_run (c :: cs) (a :: answers) s1 s3.

Definition call_fits (c : Call) : Prop :=
  match c with Operate op => op_fits op | CallReplay => False | _ => True end.

(** ** The promises *)

(** [serves e n]: the engine's data is in order and its counters have room for
    [n] more calls.  The last law holds of these states, the others of any. *)
Class ICacheEngineSpec (E : Type) `{ICacheEngine.ICacheEngine E} := {
  phase : E → EngineLifecycle;
  contents : E → string → option bytes;
  serves : E → Z → Prop;

  required_state e : ICacheEngine.RequiredRecoveryState e = RecoveryState.RecoveryComplete;

  call_refused e c ec :
    data_plane c = true → refusal_code (phase e) = Some ec →
    refused_with ec (fst (call e c)) ∧ snd (call e c) = e;

  owner_call e c a e' :
    data_plane c = false → call e c = (a, e') →
    (c = Operate OpMarkRecoveryComplete → phase e = RecoveryFailed → granted a = false) ∧
    (c = CallReplay → phase e ≠ NotReady → granted a = false) ∧
    phase e' = next_phase (phase e) c a;

  call_serves e n c a e' :
    serves e (1 + n) → 0 ≤ n → call_fits c → call e c = (a, e') →
    serves e' n ∧ spec_step c a (phase e, contents e) (phase e', contents e')
}.

(** ** What follows for any engine that keeps them *)

Section owners.
Context {E : Type} `{ICacheEngineSpec E}.
Implicit Types e : E.

Lemma refused_not_granted ec a : refused_with ec a → granted a = false.
Proof. by destruct a as [[[]|[]]|b|[]|]; cbn; try done; intros ->. Qed.

(** An engine that refuses data for good, whatever its owner calls. *)
Definition closed (l : EngineLifecycle) : Prop := l = RecoveryFailed ∨ l = Stopped.

Lemma closed_forever cs e answers e' :
  closed (phase e) → calls e cs = (answers, e') →
  phase e' = phase e ∧
  Forall2 (λ c a, data_plane c = true → granted a = false) cs answers.
Proof.
  revert e answers. induction cs as [|c cs IH]; intros e answers Hcl; cbn [calls]; [by intros [= <- <-]|].
  destruct (call e c) as [a e1] eqn:E1. destruct (calls e1 cs) as [as1 e2] eqn:E2. intros [= <- <-].
  assert (phase e1 = phase e ∧ (data_plane c = true → granted a = false)) as [Hp Ha].
  { destruct (data_plane c) eqn:Hc.
    - destruct (refusal_code (phase e)) as [ec|] eqn:Er; [|by destruct Hcl as [Hl|Hl]; rewrite Hl in Er].
      destruct (call_refused e c ec Hc Er) as [Hr Hs]. rewrite E1 in Hr, Hs. cbn in Hr, Hs. subst e1.
      split; [done|]. intros _. by eapply refused_not_granted.
    - destruct (owner_call e c a e1 Hc E1) as (_ & _ & ->). split; [|done].
      by destruct Hcl as [-> | ->], c as [[]| | | |]. }
  destruct (IH e1 as1) as [Hp2 Hall]; [by rewrite Hp|done|]. split; [congruence|by constructor].
Qed.

(** The gate: what is served was let through by [MarkRecoveryComplete], after
    no replay had failed. *)
Lemma granted_after_mark cs e answers e' i c a :
  phase e = NotReady → calls e cs = (answers, e') →
  cs !! i = Some c → answers !! i = Some a → data_plane c = true → granted a = true →
  ∃ j am, (j < i)%nat ∧ cs !! j = Some (Operate OpMarkRecoveryComplete) ∧ answers !! j = Some am ∧
    ∀ h ah, (h < j)%nat → cs !! h = Some CallReplay → answers !! h = Some ah → granted ah = true.
Proof.
  revert e answers i. induction cs as [|c0 cs IH]; intros e answers i Hp; cbn [calls]; [by intros _ ?|].
  destruct (call e c0) as [a0 e1] eqn:E1. destruct (calls e1 cs) as [as1 e2] eqn:E2. intros [= <- <-] Hc Ha Hd Hg.
  destruct i as [|i]; cbn in Hc, Ha.
  { simplify_eq. destruct (call_refused e c ErrorCode.RecoveryNotComplete Hd) as [Hr _]; [by rewrite Hp|].
    rewrite E1 in Hr. by rewrite (refused_not_granted _ a Hr) in Hg. }
  assert (phase e1 = NotReady → (c0 = CallReplay → granted a0 = true) →
    ∃ j am, (j < S i)%nat ∧ (c0 :: cs) !! j = Some (Operate OpMarkRecoveryComplete) ∧ (a0 :: as1) !! j = Some am ∧
      ∀ h ah, (h < j)%nat → (c0 :: cs) !! h = Some CallReplay → (a0 :: as1) !! h = Some ah → granted ah = true)
    as Hlater.
  { intros Hp1 Hr. destruct (IH e1 as1 i Hp1 E2 Hc Ha Hd Hg) as (j & am & Hj & Hcj & Haj & Hall).
    exists (S j), am. split; [lia|]. split; [done|]. split; [done|].
    intros [|h] ah Hh; cbn; [intros [= ->] [= <-]; by apply Hr|]. intros. eapply (Hall h); [lia|done..]. }
  destruct (data_plane c0) eqn:Hd0.
  { destruct (call_refused e c0 ErrorCode.RecoveryNotComplete Hd0) as [_ Hs]; [by rewrite Hp|].
    rewrite E1 in Hs. cbn in Hs. subst e1. apply Hlater; [done|]. by intros ->. }
  destruct (owner_call e c0 a0 e1 Hd0 E1) as (_ & _ & Hp1). rewrite Hp in Hp1.
  destruct c0 as [[]| | | |]; try done; cbn in Hp1.
  - by apply Hlater.
  - exists 0%nat, a0. split; [lia|]. split; [done|]. split; [done|]. intros h ah Hh. lia.
  - destruct (granted a0) eqn:Hg0; [by apply Hlater|].
    destruct (closed_forever cs e1 as1 e2) as [_ Hall]; [by left|done|].
    by rewrite (Forall2_lookup_lr _ _ _ _ _ _ Hall Hc Ha Hd) in Hg.
  - by apply Hlater.
Qed.

(** Any run of calls is a run of the abstract engine. *)
Lemma calls_refine cs e answers e' :
  serves e (zlen cs) → Forall call_fits cs → calls e cs = (answers, e') →
  serves e' 0 ∧ spec_run cs answers (phase e, contents e) (phase e', contents e').
Proof.
  revert e answers. induction cs as [|c cs IH]; intros e answers Hs Hf; cbn [calls].
  - intros [= <- <-]. split; [done|]. by constructor.
  - apply Forall_cons in Hf as [Hfc Hf]. rewrite zlen_cons in Hs.
    destruct (call e c) as [a e1] eqn:E1. destruct (calls e1 cs) as [as1 e2] eqn:E2. intros [= <- <-].
    destruct (call_serves e (zlen cs) c a e1 Hs (zlen_nonneg cs) Hfc E1) as (Hs1 & Ha).
    destruct (IH e1 as1 Hs1 Hf E2) as [Hs2 Hall]. split; [done|]. by econstructor.
Qed.
End owners.

(** ** The cache engine keeps them *)

Definition ICacheEngine_RequiredRecoveryState : RecoveryState.RecoveryState := RecoveryState.RecoveryComplete.

Section engine.
Context {B J : Type} `{BackingStoreSpec B} `{JournalSpec J}.
Context (hash : string → Z) (pending_order : gmap string PendingEntry → list (string * PendingEntry)).
Implicit Types e : CacheEngine B J.

#[export] Instance CacheEngine_ICacheEngine : ICacheEngine.ICacheEngine (CacheEngine B J) := {
  ICacheEngine.RequiredRecoveryState := λ _, ICacheEngine_RequiredRecoveryState;
  ICacheEngine.ReplayFromJournal := Engine.ReplayFromJournal hash pending_order;
  ICacheEngine.MarkRecoveryComplete := Engine.MarkRecoveryComplete;
  ICacheEngine.Get := Engine.Get hash;
  ICacheEngine.Contains := Engine.Contains hash;
  ICacheEngine.GetEntryInfo := Engine.GetEntryInfo hash;
  ICacheEngine.Put := Engine.Put hash;
  ICacheEngine.Invalidate := Engine.Invalidate hash;
  ICacheEngine.ForceInvalidate := Engine.ForceInvalidate hash;
  ICacheEngine.Flush := Engine.Flush hash;
  ICacheEngine.FlushAll := Engine.FlushAll hash;
  ICacheEngine.GetStatistics := Engine.GetStatistics;
  ICacheEngine.Shutdown := Engine.Shutdown hash
}.

Definition engine_serves e (n : Z) : Prop :=
  EngineFacts.engine_ok hash e ∧ room e n ∧ 0 ≤ inFlightWriteCount_ e < 2 ^ 64 - 1.

Lemma call_run_op e op a e' :
  call e (Operate op) = (a, e') → ∃ out, a = Reply out ∧ run_op hash e op = (out, e').
Proof.
  destruct op; cbn; try (destruct (Engine.Get hash e _)); intros [= <- <-]; by eexists.
Qed.

Lemma engine_refused e c ec :
  data_plane c = true → refusal_code (lifecycle_ e) = Some ec →
  refused_with ec (fst (call e c)) ∧ snd (call e c) = e.
Proof.
  intros Hd Hr.
  assert (∃ err, Engine.CheckReadyForRead e = Failure err ∧ code err = ec) as (er & Hread & Hrc)
    by (unfold Engine.CheckReadyForRead; destruct (lifecycle_ e); cbn in Hr; simplify_eq; eauto).
  assert (∃ err, Engine.CheckReadyForWrite e = Failure err ∧ code err = ec) as (ew & Hwrite & Hwc)
    by (unfold Engine.CheckReadyForWrite, Engine.not_accepting; destruct (lifecycle_ e); cbn in Hr; simplify_eq; eauto).
  destruct c as [[]| | | |]; cbn in Hd |- *; try done;
    unfold Engine.Get, Engine.Put, Engine.Invalidate, Engine.ForceInvalidate, Engine.InvalidateImpl,
      Engine.Flush, Engine.FlushAll, Engine.Contains, Engine.GetEntryInfo;
    by rewrite ?Hread, ?Hwrite.
Qed.

Lemma engine_owner_call e c a e' :
  data_plane c = false → call e c = (a, e') →
  (c = Operate OpMarkRecoveryComplete → lifecycle_ e = RecoveryFailed → granted a = false) ∧
  (c = CallReplay → lifecycle_ e ≠ NotReady → granted a = false) ∧
  lifecycle_ e' = next_phase (lifecycle_ e) c a.
Proof.
  destruct c as [[]| | | |]; try done; intros _; cbn.
  - intros [= <- <-]. split; [done|]. split; [done|]. unfold Engine.Shutdown.
    destruct (lifecycle_ e) eqn:El; try done.
    destruct (Engine.FlushAll hash (set_lifecycle e Stopping)) as [r e1]. by case_match.
  - intros [= <- <-]. unfold Engine.MarkRecoveryComplete. by destruct (lifecycle_ e) eqn:El.
  - destruct (Engine.ReplayFromJournal hash pending_order e) as [r e1] eqn:Er. intros [= <- <-]. cbn.
    split; [done|]. destruct (decide (lifecycle_ e = NotReady)) as [Hl|Hl].
    + rewrite (Replay_lifecycle hash pending_order e r e1 Hl Er), Hl. by destruct r.
    + unfold Engine.ReplayFromJournal in Er. rewrite bool_decide_eq_false_2 in Er by done.
      injection Er as <- <-. split; [done|]. by destruct (lifecycle_ e).
  - by intros [= <- <-].
Qed.

Lemma engine_Contains_exact e n k :
  engine_serves e n → refusal_code (lifecycle_ e) = None →
  Engine.Contains hash e k = bool_decide (is_Some (view hash e k)).
Proof.
  intros (He & _) Hr. unfold Engine.Contains.
  replace (Engine.CheckReadyForRead e) with (Success tt)
    by (unfold Engine.CheckReadyForRead; by destruct (lifecycle_ e)).
  cbn [IsOk negb]. unfold view, EngineFacts.engine_get.
  set (s := shard_at e (Engine.ShardFor hash e k)).
  assert (shard_ok s) as Hs by apply (shard_at_ok e _ (eo_shards hash e He)).
  destruct (find s k) as [[it en]|] eqn:Ef.
  - rewrite (find_get _ _ _ _ Hs Ef). rewrite bool_decide_eq_true_2 by done.
    destruct (index s !! k) eqn:Ei; [done|]. apply (find_None s k Hs) in Ei. congruence.
  - rewrite (proj1 (find_None_get s k) Ef). apply (find_None s k Hs) in Ef. rewrite Ef.
    apply Contains_spec, He.
Qed.

Lemma engine_GetEntryInfo e k i :
  EngineFacts.engine_ok hash e → Engine.GetEntryInfo hash e k = Success i →
  info_key i = k ∧ ∃ v, view hash e k = Some v ∧ info_sizeBytes i = zlen v.
Proof.
  intros He. unfold Engine.GetEntryInfo. destruct (Engine.CheckReadyForRead e); [|done].
  destruct (find _ k) as [[it en]|] eqn:Ef; [|done]. intros [= <-]. split; [done|].
  exists (value en). split; [|done]. unfold view, EngineFacts.engine_get.
  by rewrite (find_get _ _ _ _ (shard_at_ok e _ (eo_shards hash e He)) Ef).
Qed.

Lemma engine_call_serves e n c a e' :
  engine_serves e (1 + n) → 0 ≤ n → call_fits c → call e c = (a, e') →
  engine_serves e' n ∧ spec_step c a (lifecycle_ e, view hash e) (lifecycle_ e', view hash e').
Proof.
  intros (He & Hroom & Hin) Hn Hf.
  assert (engine_serves e n) as Hs by (unfold engine_serves, room in *; split_and!; [done|lia..]).
  destruct (if data_plane c then refusal_code (lifecycle_ e) else None) as [ec|] eqn:Er; cbn; rewrite Er.
  { destruct (data_plane c) eqn:Hd; [|done]. intros E. pose proof (engine_refused e c ec Hd Er) as [Hr Hsame].
    rewrite E in Hr, Hsame. cbn in Hr, Hsame. subst e'. split; [done|]. split; [|done].
    by destruct c as [[]| | | |]. }
  destruct c as [op| |k|k|]; cbn [call_fits] in Hf; try done.
  - intros E. apply call_run_op in E as (out & -> & E).
    assert (room e 1) as Hr1 by (unfold room in *; lia).
    destruct (run_op_contract hash e op out e' He Hr1 Hf E) as (Hok & G & A & _).
    destruct (run_op_control hash e op out e' Hin E) as (_ & Hi & _ & Hl).
    split; [|done]. split; [done|]. rewrite Hi. split; [|done]. unfold room, grows in *. lia.
  - intros [= <- <-]. split; [done|]. split; [done|]. split; [done|]. by apply (engine_Contains_exact e n).
  - intros [= <- <-]. split; [done|]. split; [done|]. split; [done|]. intros i. by apply engine_GetEntryInfo.
  - by intros [= <- <-].
Qed.

#[export] Instance CacheEngine_ICacheEngineSpec : ICacheEngineSpec (CacheEngine B J) := {
  phase := lifecycle_;
  contents := view hash;
  serves := engine_serves;
  required_state _ := eq_refl;
  call_refused := engine_refused;
  owner_call := engine_owner_call;
  call_serves := engine_call_serves
}.

(** C7: the engine refines its interface.  Every sequence of calls of
    [ICacheEngine] but the replay, in any lifecycle, is a run of the abstract
    engine, a lifecycle and a map: what the lifecycle refuses is refused with
    its error and changes nothing; [MarkRecoveryComplete] and [Shutdown] alone
    move the lifecycle; and otherwise reads, [Contains] and [GetEntryInfo] tell
    what the map holds, writes and invalidations that are acknowledged are in
    effect, and flushes, statistics and refusals leave the map alone. *)
Theorem interface_refines_map e cs answers e' :
  engine_serves e (zlen cs) → Forall call_fits cs → calls e cs = (answers, e') →
  EngineFacts.engine_ok hash e' ∧
  spec_run cs answers (lifecycle_ e, view hash e) (lifecycle_ e', view hash e').
Proof. intros Hs Hf E. by destruct (@calls_refine _ _ CacheEngine_ICacheEngineSpec cs e answers e' Hs Hf E) as [(Hok & _) Hrun]. Qed.

(** C8: nothing is served before recovery is complete.  Whatever calls a new
    engine gets, replays included, one that serves data comes after a
    [MarkRecoveryComplete] before which no replay had failed; earlier ones, and
    all of them after a failed replay, are refused. *)
Theorem served_only_after_recovery options (b : B) (j : J) cs answers e' i c a :
  calls (CacheEngine_new options b j) cs = (answers, e') →
  cs !! i = Some c → answers !! i = Some a → data_plane c = true → granted a = true →
  ∃ n am, (n < i)%nat ∧ cs !! n = Some (Operate OpMarkRecoveryComplete) ∧ answers !! n = Some am ∧
    ∀ h ah, (h < n)%nat → cs !! h = Some CallReplay → answers !! h = Some ah → granted ah = true.
Proof. by apply (@granted_after_mark _ _ CacheEngine_ICacheEngineSpec). Qed.
End engine.

(** ** Write-through *)

Section write_through.
Context {B J : Type} `{BackingStoreSpec B} `{JournalSpec J}.
Context (hash : string → Z).
Implicit Types e : CacheEngine B J.

Abbreviation engine_get := (EngineFacts.engine_get hash).
Abbreviation engine_ok := (EngineFacts.engine_ok hash).

(** [e'] owes the backing store no entry that [e] does not owe it. *)
Definition owes_less e e' : Prop :=
  ∀ k en, engine_get e' k = Some en → is_clean en = false → engine_get e k = Some en.

#[local] Instance owes_less_preorder : PreOrder owes_less.
Proof. split; [by intros e k en|]. intros e1 e2 e3 H12 H23 k en Hg Hd. eauto. Qed.

Lemma evict_owes e i : engine_ok e → (i < length (shards_ e))%nat → owes_less e (Engine.evict e i).
Proof.
  intros He Hi k en Hg _. destruct (evict_contract hash e i (engine_shards hash e He) Hi) as (_ & _ & _ & Hev & _).
  destruct (Hev k) as [<-|(? & _ & _ & Hn)]; [done|congruence].
Qed.

Lemma FlushKey_owes e k ev cv r e' : engine_ok e → Engine.FlushKey hash e k ev cv = (r, e') → owes_less e e'.
Proof.
  intros He E k' en Hg Hd. destruct (FlushKey_contract hash e k ev cv r e' He E) as (_ & _ & _ & Ho).
  destruct Ho as [r -> _ _|v ver _ U _ _|v ver err _ Hsame _ _]; [done| |by rewrite <- Hsame].
  rewrite U in Hg. destruct (decide (k' = k)); [by injection Hg as <-|done].
Qed.

Lemma relieve_owes n e i :
  engine_ok e → (i < length (shards_ e))%nat → owes_less e (Engine.relieve_loop hash n e i).
Proof.
  revert e. induction n as [|n IH]; intros e He Hi; cbn [Engine.relieve_loop]; [done|].
  destruct (negb _); [done|]. cbv zeta. destruct (String.eqb _ ""); [by apply evict_owes|].
  destruct (Engine.FlushKey hash e _ 0 false) as [r e1] eqn:E1.
  pose proof (FlushKey_owes _ _ _ _ _ _ He E1) as D1.
  destruct (FlushKey_contract hash _ _ _ _ _ _ He E1) as (He1 & F1 & _).
  assert (i < length (shards_ e1))%nat as Hi1 by (destruct F1 as (_ & _ & _ & _ & _ & _ & _ & ->); done).
  assert (owes_less e (Engine.evict e1 i)) as D12 by (etrans; [exact D1|by apply evict_owes]).
  destruct r as [[]|err]; [|done]. destruct (_ <=? _); [done|]. etrans; [exact D12|].
  destruct (evict_quiet hash e1 i He1 Hi1) as (He2 & F2 & _). apply IH; [done|].
  destruct F2 as (_ & _ & _ & _ & _ & _ & _ & ->). done.
Qed.

(** What no entry owes is in the backing store. *)
Lemma owes_nothing_stored e k :
  engine_ok e → (∀ en, engine_get e k = Some en → is_clean en = true) →
  store_map (backingStore_ e) !! k = view hash e k.
Proof.
  intros He Hc. unfold view. destruct (EngineFacts.engine_get hash e k) as [en|] eqn:Hg; [|done].
  pose proof (eo_coherent hash e He k en Hg) as Hco. unfold coherent in Hco. rewrite (Hc en eq_refl) in Hco.
  by rewrite <- (engine_get_key hash e k en He Hg).
Qed.

(** The entry the locked block of [Put] leaves. *)
Lemma put_entry e e1 k v en :
  engine_ok e → shards_ e1 = shards_ e →
  let ver := globalVersionCounter_ e + 1 in
  engine_get (Engine.insert_or_update e1 (Engine.ShardFor hash e1 k) k v ver Dirty true) k = Some en →
  en = mkEntry k v ver Dirty.
Proof.
  intros He S1 ver Hg.
  assert (shards_ok hash e1) as Hsh by (by eapply shards_ok_same; [|apply engine_shards]).
  destruct (insert_or_update_contract hash e1 k v ver Dirty true Hsh) as (_ & _ & _ & HC).
  assert (stale ver (engine_get e1 k) = false) as Hst.
  { rewrite (engine_get_same hash e e1 k S1). destruct (engine_get e k) as [en'|] eqn:Eg; [|done].
    pose proof (eo_version hash e He k en' Eg). apply andb_false_iff. left. apply Z.leb_gt. unfold ver. lia. }
  rewrite Hst in HC. destruct HC as [Hev _]. destruct (Hev k) as [Heq|(? & _ & _ & Hn)]; [|congruence].
  rewrite Heq, decide_True in Hg by done. by injection Hg.
Qed.

(** A successful flush of the version the only unclean entry of the key has. *)
Lemma FlushKey_settles e k v ver e' :
  engine_ok e → (∀ en, engine_get e k = Some en → is_clean en = false → en = mkEntry k v ver Dirty) →
  Engine.FlushKey hash e k ver true = (Success tt, e') →
  ∀ en, engine_get e' k = Some en → is_clean en = true.
Proof.
  intros He Hown E en Hg. destruct (FlushKey_contract hash e k ver true _ e' He E) as (_ & _ & _ & Ho).
  remember (Success tt) as r eqn:Er. destruct Ho as [r -> _ Hnot|v' ver' _ U _ _|v' ver' err]; [| |done].
  - destruct (is_clean en) eqn:Hc; [done|]. pose proof (Hown en Hg Hc) as ->. by destruct (Hnot v ver Hg).
  - rewrite U, decide_True in Hg by done. by injection Hg as <-.
Qed.

Lemma Put_admitted_settles e k v e' :
  engine_ok e → version_room e → str_size k ≤ kMaxReasonableLength → zlen v ≤ kMaxReasonableLength →
  writePolicy (options_ e) = WritePolicyKind.WriteThrough →
  Engine.Put_admitted hash e k v = (Success tt, e') →
  ∀ en, engine_get e' k = Some en → is_clean en = true.
Proof.
  intros He Hroom Hk Hv Hpol. unfold Engine.Put_admitted, Engine.AppendJournalRecordWithNewVersion.
  cbn [rec_formatVersion rec_type rec_key rec_value].
  pose proof (eo_counter hash e He) as Hcnt. pose proof Hroom as Hlt. unfold version_room in Hlt.
  rewrite wrap_small by (unfold in_width; lia). set (ver := globalVersionCounter_ e + 1).
  destruct (Engine.AppendJournalRecord (set_version e ver) _) as [[[]|err] e1] eqn:Ea; [|done].
  apply AppendJournalRecord_contract in Ea as (S1 & F1 & B1 & _).
  destruct F1 as (O1 & _ & _ & V1 & _). cbn [set_version shards_ backingStore_ globalVersionCounter_ options_] in *.
  destruct (put_insert hash e k v He Hroom Hk Hv e1 S1 B1 V1) as (He2 & _). fold ver in He2.
  pose proof (λ en, put_entry e e1 k v en He S1) as Hown. fold ver in Hown.
  assert (shards_ok hash e1) as Hsh1 by (eapply shards_ok_same; [exact S1|by apply engine_shards]).
  destruct (insert_or_update_contract hash e1 k v ver Dirty true Hsh1) as (_ & F2 & _).
  set (e2 := Engine.insert_or_update e1 _ k v ver Dirty true) in *.
  assert (Engine.ShardFor hash e1 k < length (shards_ e2))%nat as Hi.
  { rewrite <- (ShardFor_frame hash e1 e2 k) by apply F2. apply ShardFor_lt, He2. }
  pose proof (relieve_quiet hash kMaxFlushAttemptsPerCall e2 _ He2 Hi) as (He3 & F3 & _).
  pose proof (relieve_owes kMaxFlushAttemptsPerCall e2 _ He2 Hi) as D3.
  unfold Engine.RelieveCapacityPressureIfNeeded. set (e3 := Engine.relieve_loop hash _ e2 _) in *.
  assert (options_ e3 = options_ e) as Ho by (destruct F2 as [O2 _], F3 as [O3 _]; congruence).
  rewrite Ho, Hpol. intros E. eapply (FlushKey_settles e3 k v ver); [done| |exact E].
  intros en Hg Hc. by apply Hown, D3.
Qed.

(** C9: a write-through [Put] that returns success has its value in the
    backing store, and no entry of the key is left to be flushed: what clients
    read under the key, and what a start on the backing store alone finds, is
    the value written, whatever the capacity relief on the way has flushed or
    evicted. *)
Theorem Put_write_through e k v e' :
  engine_ok e → version_room e → str_size k ≤ kMaxReasonableLength → zlen v ≤ kMaxReasonableLength →
  writePolicy (options_ e) = WritePolicyKind.WriteThrough →
  Engine.Put hash e k v = (Success tt, e') →
  engine_ok e' ∧ store_map (backingStore_ e') !! k = Some v ∧ view hash e' k = Some v ∧
  ∀ en, engine_get e' k = Some en → is_clean en = true.
Proof.
  intros He Hroom Hk Hv Hpol E.
  destruct (Put_contract hash e k v _ e' He Hroom Hk Hv E) as (Hok & _ & _ & [Hu|[Hr _]]); [|done].
  pose proof (Hu k) as Hvk. rewrite decide_True in Hvk by done.
  enough (∀ en, engine_get e' k = Some en → is_clean en = true) as Hclean.
  { split; [done|]. split; [|done]. by rewrite (owes_nothing_stored e' k Hok Hclean). }
  unfold Engine.Put in E. destruct (Engine.CheckReadyForWrite e); [|done]. destruct (negb _); [done|].
  unfold Engine.TryAdmitWrite in E. case_bool_decide; [|done]. cbn [negb] in E.
  set (e0 := set_admission e _ _) in E. assert (core_eq e e0) as Hc by done.
  destruct (Engine.Put_admitted hash e0 k v) as [r1 e9] eqn:E1. injection E as -> <-.
  assert (∀ k', engine_get (Engine.ReleaseWriteAdmission e9) k' = engine_get e9 k') as Hg9.
  { intros k'. apply engine_get_same. unfold Engine.ReleaseWriteAdmission. by destruct (_ <? _). }
  intros en. rewrite Hg9. apply (Put_admitted_settles e0 k v); try done.
  by apply (core_eq_preserves hash e e0).
Qed.
End write_through.

(** ** Replaying twice *)

Section replay.
Context {B J : Type} `{BackingStoreSpec B} `{JournalSpec J}.
Context (hash : string → Z) (pending_order : gmap string PendingEntry → list (string * PendingEntry)).
Hypothesis pending_order_perm : ∀ m, pending_order m ≡ₚ map_to_list m.
Implicit Types e : CacheEngine B J.

Abbreviation engine_get := (EngineFacts.engine_get hash).
Abbreviation ReplayFromJournal := (Engine.ReplayFromJournal hash pending_order).

(** The entries a replay inserts. *)
Abbreviation replayed ds := (pending_order (pending_of ds)).

(** What a replay of the records [ds] does. *)
Lemma Replay_run e ds r e' :
  lifecycle_ e = NotReady → store_ok (backingStore_ e) → log_reads (journal_ e) ds →
  ReplayFromJournal e = (r, e') →
  ((∀ k, invalidated ds k = false) → r = Success tt) ∧
  (r = Success tt → ∃ b j e2 h,
     store_map b = store_after ds (store_map (backingStore_ e)) ∧ store_ok b ∧ log_reads j ds ∧
     Engine.insert_pending hash (set_journal (set_store e b) j) (replayed ds) 0 = (e2, h) ∧
     e' = set_version e2 (Z.max (globalVersionCounter_ e2) h)).
Proof.
  intros Hl Hb (Hrel & Hall). unfold Engine.ReplayFromJournal. rewrite Hl, bool_decide_eq_true_2 by done. cbn [negb].
  destruct (Replay Engine.replay_record (∅, backingStore_ e) (journal_ e)) as [[res [pending b]] j] eqn:Er.
  destruct (Replay_any _ _ _ _ _ _ Er) as (HR & _).
  destruct (Replay_reliable _ _ _ _ _ _ Hrel Er) as (Hrel' & hi & Hrun).
  destruct (replay_pure_run _ _ _ _ _ _ _ _ _ Hall Hb Hrun) as (Hb' & _ & Hres & Hno).
  destruct res as [[]|err]; [|intros [= <- <-]; split; [|done]; intros Hni; by specialize (Hno Hni)].
  destruct (Hres eq_refl) as [-> Hm]. fold (pending_of ds).
  destruct (Engine.insert_pending hash _ _ 0) as [e2 h] eqn:Ei. intros [= <- <-]. split; [done|]. intros _.
  exists b, j, e2, h. split; [done|]. split; [done|]. split; [|done]. split; [done|]. by rewrite HR.
Qed.

Lemma store_after_twice ds m : store_after ds (store_after ds m) = store_after ds m.
Proof. apply map_eq. intros k. rewrite !store_after_lookup. by destruct (invalidated ds k). Qed.

Lemma insert_pending_highest l e hi e' hi' :
  Engine.insert_pending hash e l hi = (e', hi') → hi' = foldl (λ h kp, Z.max h (p_version (snd kp))) hi l.
Proof.
  revert e hi. induction l as [|[k p] l IH]; intros e hi; cbn [Engine.insert_pending]; [by intros [= _ <-]|].
  by intros ->%IH.
Qed.

(** What the first replay leaves. *)
Lemma first_replay options b j ds e1 :
  store_ok b → log_reads j ds → ReplayFromJournal (CacheEngine_new options b j) = (Success tt, e1) →
  store_ok (backingStore_ e1) ∧ log_reads (journal_ e1) ds ∧
  store_map (backingStore_ e1) = store_after ds (store_map b) ∧
  globalVersionCounter_ e1 = foldl (λ h kp, Z.max h (p_version (snd kp))) 0 (replayed ds) ∧
  ∀ k p, (k, p) ∈ replayed ds → engine_get e1 k = Some (recovered_entry k p).
Proof.
  intros Hb Hlog E. destruct (Replay_run (CacheEngine_new options b j) ds _ e1 eq_refl Hb Hlog E) as [_ Hrun].
  destruct (Hrun eq_refl) as (b1 & j1 & e2 & h & Hm & Hb1 & Hlog1 & Ei & ->).
  pose proof (insert_pending_highest _ _ _ _ _ Ei) as Hh.
  set (e0 := set_journal _ j1) in Ei.
  assert (shards_ok hash e0) as Hsh by (eapply shards_ok_same; [|apply (new_shards_ok hash options b j)]; done).
  pose proof (pending_order_perm (pending_of ds)) as Hperm.
  assert (NoDup (replayed ds).*1) as Hnd by (rewrite Hperm; apply NoDup_fst_map_to_list).
  destruct (insert_pending_contract hash (replayed ds) e0 0 e2 h Hsh Hnd)
    as (_ & F & [B2 J2] & Hge & Hg & _); [|done|].
  { intros k _. rewrite (engine_get_same hash (CacheEngine_new options b j)) by done. apply new_get. }
  cbn [set_version backingStore_ journal_ globalVersionCounter_]. rewrite B2, J2.
  split; [done|]. split; [done|]. split; [done|].
  assert (globalVersionCounter_ e2 = 0) as -> by (by destruct F as (_ & _ & _ & -> & _)). split; [lia|].
  intros k p Hin. rewrite (engine_get_same hash e2) by done. rewrite Hg.
  by rewrite (elem_of_list_to_map_1 (replayed ds) k p Hnd Hin).
Qed.

(** Inserting what is there changes nothing, whether or not the version check
    skips it; the highest version seen is that of the entries. *)
Lemma insert_pending_again l e hi e' hi' :
  shards_ok hash e → (∀ k p, (k, p) ∈ l → engine_get e k = Some (recovered_entry k p)) →
  Engine.insert_pending hash e l hi = (e', hi') →
  frame_eq e e' ∧ same_io e e' ∧ (∀ k, engine_get e' k = engine_get e k) ∧
  hi' = foldl (λ h kp, Z.max h (p_version (snd kp))) hi l.
Proof.
  revert e hi. induction l as [|[k p] l IH]; intros e hi He Hin; cbn [Engine.insert_pending].
  - by intros [= <- <-].
  - destruct (insert_or_update_contract hash e k (p_value p) (p_version p) Dirty false He)
      as (He1 & F1 & [B1 J1] & HC).
    set (e1 := Engine.insert_or_update e _ k _ _ Dirty false) in *.
    assert (∀ k', engine_get e1 k' = engine_get e k') as Hg1.
    { destruct (stale _ _); [done|]. destruct HC as [_ HC]. intros k'. rewrite (HC eq_refl).
      destruct (decide (k' = k)) as [->|]; [|done]. by rewrite (Hin k p) by constructor. }
    intros E. destruct (IH e1 (Z.max hi (p_version p)) He1) with (2 := E) as (F & [B2 J2] & Hg & ->).
    { intros k' p' Hk'. rewrite Hg1. apply Hin. by constructor. }
    split; [by etrans|]. split; [split; congruence|]. split; [|done]. intros k'. by rewrite Hg.
Qed.

(** C10: [ReplayFromJournal] may be called again.  On a journal that reads
    without errors, a second replay that succeeds leaves every entry, the backing
    store's map, the version counter and the lifecycle as the first left them;
    and where the journal holds no invalidation it cannot fail. *)
Theorem replay_twice options b j ds e1 r e2 :
  store_ok b → log_reads j ds →
  ReplayFromJournal (CacheEngine_new options b j) = (Success tt, e1) → ReplayFromJournal e1 = (r, e2) →
  ((∀ k, invalidated ds k = false) → r = Success tt) ∧
  (r = Success tt →
     (∀ k, engine_get e2 k = engine_get e1 k) ∧
     store_map (backingStore_ e2) = store_map (backingStore_ e1) ∧
     globalVersionCounter_ e2 = globalVersionCounter_ e1 ∧ lifecycle_ e2 = NotReady ∧
     ∀ k, view hash e2 k = recovered ds (store_map b) k).
Proof.
  intros Hb Hlog E1 E2. destruct (first_replay options b j ds e1 Hb Hlog E1) as (Hb1 & Hlog1 & Hm1 & Hv1 & Hin).
  destruct (ReplayFromJournal_contract hash pending_order pending_order_perm options b j ds _ e1 Hb Hlog E1)
    as ((Hok & _ & Hl & Hview & _) & _); [done|].
  destruct (Replay_run e1 ds r e2 Hl Hb1 Hlog1 E2) as [Hno Hrun]. split; [done|]. intros Hr.
  destruct (Hrun Hr) as (b2 & j2 & e3 & h & Hm2 & _ & _ & Ei & ->). set (e1' := set_journal _ j2) in Ei.
  assert (shards_ok hash e1') as Hsh by (eapply shards_ok_same; [|by apply (engine_shards hash e1)]; done).
  destruct (insert_pending_again (replayed ds) e1' 0 e3 h Hsh) as (F & [B3 _] & Hg & Hh); [|done|].
  { intros k p Hk. rewrite (engine_get_same hash e1) by done. by apply Hin. }
  assert (∀ k, engine_get (set_version e3 (Z.max (globalVersionCounter_ e3) h)) k = engine_get e1 k) as Hg2.
  { intros k. rewrite (engine_get_same hash e3) by done. rewrite Hg. by apply engine_get_same. }
  assert (store_map (backingStore_ (set_version e3 (Z.max (globalVersionCounter_ e3) h))) =
          store_map (backingStore_ e1)) as Hm.
  { cbn. rewrite B3. cbn. by rewrite Hm2, Hm1, store_after_twice. }
  destruct F as (_ & _ & _ & Hv & Hl3 & _). split; [done|]. split; [done|]. split; [|split].
  - cbn. rewrite Hv, Hh. cbn. rewrite Hv1. lia.
  - cbn. by rewrite Hl3.
  - intros k. rewrite <- Hview. unfold view. by rewrite Hg2, Hm.
Qed.
End replay.
