(* ===== verification/Service.v ===== *)
(** * Service: start, stop and restart of the process

    Models [OnServiceStart], [OnServiceStop] and [OnServicePreShutdown] of
    src/src/Service/src/main_service.cpp over the session marker, the journal,
    the backing store and the engine, on files as [Storage::OpenFile] gives
    them.  The configuration and the paths of the files are Startup.v, the
    process that calls these functions, block by block, is ServiceProcess.v, the
    pipe thread and its join alone are IpcThread.v.  The log is left out. *)
From S2P Require Import Prelude Common RecordCodec Scan Storage Journal Marker Recovery Store.
From S2P Require Import Shard Engine EngineFacts Durability Client Lifecycle.
Open Scope Z_scope.

Section Service.
Context {F : Type} `{IFile F}.
Context (hash : string → Z)
        (pending_order : gmap string PendingEntry → list (string * PendingEntry)).

Abbreviation Store := (FileBackingStore.FileBackingStore F).
Abbreviation Journal := (WriteAheadJournal F).

(** The globals [g_recoveryManager] and [g_cacheEngine]. *)
Record Service := mkService {
  g_recoveryManager : option (RecoveryManager (SessionMarker F));
  g_cacheEngine : option (CacheEngine Store Journal)
}.

(** The part from [InitializeAndRecover] on. *)
Definition recover_and_serve (now : Z) (rm : RecoveryManager (SessionMarker F))
    (e : CacheEngine Store Journal) : Result unit * Service :=
  let handler := Some (Engine.ReplayFromJournal hash pending_order) in
  match InitializeAndRecover handler now rm e with
  | (Failure err, rm, e) => (Failure err, mkService (Some rm) (Some e))
  | (Success _, rm, e) =>
    let '(r, e) := Engine.MarkRecoveryComplete e in (r, mkService (Some rm) (Some e))
  end.

(** The arguments are what [Storage::OpenFile] returned for the marker, the
    journal and the data file, and the reading of the clock. *)
Definition OnServiceStart (options : CacheEngineOptions) (now : Z)
    (markerFile journalFile dataFile : Result F) : Result unit * Service :=
  let failed err rm := (Failure err, mkService rm None) in
  match markerFile with Failure err => failed err None | Success mf =>
  match journalFile with Failure err => failed err None | Success jf =>
  match CreateSessionMarker (Some mf) with Failure err => failed err None | Success marker =>
  match CreateWriteAheadJournal (Some jf) with Failure err => failed err None | Success journal =>
  match CreateRecoveryManager (Some marker) (Some journal) with
  | Failure err => failed err None
  | Success rm =>
  match FileBackingStore.OpenFileBackingStore dataFile with
  | Failure err => failed err (Some rm)
  | Success store =>
  match CreateCacheEngine options (Some store) (Some journal) with
  | Failure err => failed err (Some rm)
  | Success e => recover_and_serve now rm e
  end end end end end end end.

Definition OnServicePreShutdown (s : Service) : Result unit * Service :=
  match g_cacheEngine s with
  | Some e => (Success tt, mkService (g_recoveryManager s) (Some (snd (Engine.FlushAll hash e))))
  | None => (Success tt, s)
  end.

Definition OnServiceStop (now : Z) (s : Service) : Result unit * Service :=
  let s := match g_cacheEngine s with
           | Some e => mkService (g_recoveryManager s) (Some (snd (Engine.Shutdown hash e)))
           | None => s
           end in
  match g_recoveryManager s with
  | Some rm => let '(r, rm) := MarkCleanShutdown now rm in (r, mkService (Some rm) (g_cacheEngine s))
  | None => (Success tt, s)
  end.

Lemma recover_lifecycle now rm e r rm' e' :
  lifecycle_ e = EngineLifecycle.NotReady →
  InitializeAndRecover (Some (Engine.ReplayFromJournal hash pending_order)) now rm e = (r, rm', e') →
  inFlightWriteCount_ e' = inFlightWriteCount_ e ∧
  match r with
  | Success _ => lifecycle_ e' = EngineLifecycle.NotReady ∧ CurrentState rm' = RecoveryState.RecoveryComplete
  | Failure _ => lifecycle_ e' = EngineLifecycle.NotReady ∨ lifecycle_ e' = EngineLifecycle.RecoveryFailed
  end.
Proof.
  intros Hl. unfold InitializeAndRecover, start_session.
  destruct (ReadLastState _) as [[d|err] m]; [|intros [= <- <- <-]; split; [done|by left]].
  destruct (smd_closedCleanly d).
  - destruct (OnSessionStart now m) as [[[]|err] m']; intros [= <- <- <-]; auto.
  - destruct (Engine.ReplayFromJournal hash pending_order e) as [[[]|err] e2] eqn:Er;
      pose proof (proj1 (Replay_admission _ _ _ _ _ Er)); apply Replay_lifecycle in Er; try done.
    + destruct (OnSessionStart now m) as [[[]|err] m']; intros [= <- <- <-]; auto.
    + intros [= <- <- <-]. split; [done|by right].
Qed.

Lemma CreateCacheEngine_lifecycle {B J} options (b : option B) (j : option J) e :
  CreateCacheEngine options b j = Success e →
  lifecycle_ e = EngineLifecycle.NotReady ∧ inFlightWriteCount_ e = 0.
Proof. unfold CreateCacheEngine. repeat case_match; by intros [= <-]. Qed.

(** An engine that serves: no write is in flight. *)
Definition serving (s : Service) : Prop :=
  ∃ rm e, s = mkService (Some rm) (Some e) ∧ lifecycle_ e = EngineLifecycle.Ready ∧
    inFlightWriteCount_ e = 0 ∧ CurrentState rm = RecoveryState.RecoveryComplete.

Lemma OnServiceStart_outcome options now mf jf df r s :
  OnServiceStart options now mf jf df = (r, s) →
  match r with
  | Success _ => serving s
  | Failure _ => ∀ e, g_cacheEngine s = Some e →
                      lifecycle_ e = EngineLifecycle.NotReady ∨ lifecycle_ e = EngineLifecycle.RecoveryFailed
  end.
Proof.
  unfold OnServiceStart. destruct mf as [mf|]; [|by intros [= <- <-]].
  destruct jf as [jf|]; [|by intros [= <- <-]].
  cbn [CreateSessionMarker CreateWriteAheadJournal CreateRecoveryManager].
  destruct (FileBackingStore.OpenFileBackingStore df) as [st|]; [|by intros [= <- <-]].
  destruct (CreateCacheEngine options _ _) as [e|] eqn:Ec; [|by intros [= <- <-]].
  apply CreateCacheEngine_lifecycle in Ec as [Hn Hz]. unfold recover_and_serve.
  destruct (InitializeAndRecover _ now _ e) as [[ir rm] e1] eqn:Ei.
  apply recover_lifecycle in Ei as [Hf Ei]; [|done]. destruct ir as [[]|err].
  - destruct Ei as [Hl Hc]. unfold Engine.MarkRecoveryComplete. rewrite Hl. intros [= <- <-].
    exists rm. eexists. split_and!; [done..| |done]. cbn. by rewrite Hf.
  - intros [= <- <-] e2 [= <-]. exact Ei.
Qed.

(** Readiness follows recovery.  The service starts exactly when its
    engine is [Ready] and its recovery is complete; whatever step of the start
    fails - a file, the factory, the marker, the replay - no engine is left
    that would accept an operation. *)
Theorem OnServiceStart_ready options now mf jf df r s :
  OnServiceStart options now mf jf df = (r, s) →
  match r with
  | Success _ => ∃ rm e, s = mkService (Some rm) (Some e) ∧
                         lifecycle_ e = EngineLifecycle.Ready ∧
                         CurrentState rm = RecoveryState.RecoveryComplete
  | Failure _ => ∀ e, g_cacheEngine s = Some e →
                      lifecycle_ e = EngineLifecycle.NotReady ∨ lifecycle_ e = EngineLifecycle.RecoveryFailed
  end.
Proof.
  intros E. apply OnServiceStart_outcome in E. destruct r as [[]|err]; [|done].
  destruct E as (rm & e & -> & Hl & _ & Hc). by exists rm, e.
Qed.
End Service.
Arguments Service : clear implicits.

(** ** The next process on the files a power cut, or a stop, left *)

Section restart.
Context {F : Type} `{IFileSpec F}.
Context (hash : string → Z)
        (pending_order : gmap string PendingEntry → list (string * PendingEntry)).
Hypothesis pending_order_perm : ∀ m, pending_order m ≡ₚ map_to_list m.

Abbreviation Store := (FileBackingStore.FileBackingStore F).
Abbreviation Journal := (WriteAheadJournal F).
Implicit Types e : CacheEngine Store Journal.

(** A file just opened on what a power cut left of [f0], on a device without
    errors. *)
Record reopened (f0 f : F) : Prop := {
  ro_image : crash_image f0 (file_content f);
  ro_reliable : reliable f;
  ro_synced d : crash_image f d → d = file_content f
}.

(** A journal file without a torn record at its end can be appended to. *)
Lemma reopen_clean f0 f : reopened f0 f → Journal.clean_content (file_content f) → WAL_clean (mkJournal f 0 0).
Proof. intros [_ _ Hs] Hc. by constructor. Qed.

Lemma reopen_journal (j : Journal) ds f :
  log_is j ds → reopened (file_ j) f → log_is (mkJournal f 0 0) ds.
Proof.
  intros (_ & Hc & Hall) Hro. pose proof Hro as [Hi Hr _]. pose proof (wc_synced j Hc _ Hi) as Hf.
  split; [done|]. split.
  - eapply reopen_clean; [done|]. rewrite Hf. apply Hc.
  - cbn [journal_records WriteAheadJournal_JournalSpec] in *. unfold WAL_records in *. cbn [file_].
    by rewrite Hf.
Qed.

(** The start-up scan of the data file repairs it. *)
Lemma reopen_data f0 f :
  reopened f0 f → zlen (file_content f) < 2 ^ 63 →
  ∃ s, FileBackingStore.OpenFileBackingStore (Success f) = Success s ∧ fbs_clean s ∧
       reliable (FileBackingStore.file_ s) ∧ fbs_map s = map_of (content_records (file_content f)).
Proof.
  intros [_ Hr Hs] Hlt. unfold FileBackingStore.OpenFileBackingStore.
  destruct (FileBackingStore.Initialize _) as [r s] eqn:E.
  destruct (Initialize_inv (FileBackingStore.mkStore f ∅ 0 0) r s) as [_ HR]; [done|done|done|].
  destruct (HR Hr) as (-> & Hinv & Hrel & Hsync). exists s. split; [done|]. split; [|split; [done|]].
  - constructor; [|by apply Hsync]. by rewrite (store_inv_records _ _ _ Hinv).
  - unfold fbs_map. by rewrite (store_inv_records _ _ _ Hinv).
Qed.

Lemma reopen_store (b : Store) f :
  fbs_clean b → reopened (FileBackingStore.file_ b) f → zlen (file_content f) < 2 ^ 63 →
  ∃ s, FileBackingStore.OpenFileBackingStore (Success f) = Success s ∧ fbs_clean s ∧
       reliable (FileBackingStore.file_ s) ∧ fbs_map s = fbs_map b.
Proof.
  intros Hc Hro Hlt. destruct (reopen_data _ _ Hro Hlt) as (s & E & Hs & Hr & Hm). exists s.
  split; [done|]. split; [done|]. split; [done|]. rewrite Hm.
  by rewrite (fc_synced b Hc _ (ro_image _ _ Hro)), (clean_records b Hc).
Qed.

Lemma clean_store_ok (b : Store) : fbs_clean b → store_ok b.
Proof. intros []. by eexists _, _. Qed.

(** A session that is open: whatever a power cut leaves of its marker, the next
    process replays. *)
Definition session_open (m : SessionMarker F) : Prop :=
  u64 (lastKnownGeneration_ m) ∧
  ∀ d, crash_image (marker_file m) d →
    ∃ data, marker_state d = Success data ∧ smd_closedCleanly data = false.

Lemma OnSessionStart_reliable now (m : SessionMarker F) :
  reliable (marker_file m) → ∃ m', OnSessionStart now m = (Success tt, m') ∧ session_open m'.
Proof.
  intros Hr. cbn [OnSessionStart SessionMarker_ISessionMarker]. unfold SessionMarker_OnSessionStart.
  set (raw := sealed _ now 0). destruct (WriteRecord (marker_file m) raw) as [r f] eqn:E.
  assert (r = Success tt) as ->.
  { unfold WriteRecord in E.
    destruct (reliable_Seek (marker_file m) 0 false Hr ltac:(lia)) as (p & f1 & Ek & Hr1). rewrite Ek in E.
    assert (zlen (RawRecord_bytes raw) = kRecordSize) as Hz by (unfold zlen; by rewrite length_RawRecord_bytes).
    destruct (reliable_Write f1 (RawRecord_bytes raw) Hr1) as (f2 & Ew & Hr2); [by rewrite Hz|].
    rewrite Ew, Hz, Z.eqb_refl in E. cbn [negb] in E.
    destruct (reliable_FlushDurable f2 Hr2) as (f3 & Ef & _). rewrite Ef in E. by injection E as <- _. }
  eexists. split; [done|]. destruct (WriteRecord_inv _ _ _ _ E) as [_ Hok]. destruct (Hok eq_refl) as [C I].
  assert (u64 (wrap64 (lastKnownGeneration_ m + 1))) as Hg by (by apply wrap_width).
  split; [done|]. cbn [marker_file]. intros d Hd. apply I in Hd as ->. rewrite C.
  eexists. split; [by apply marker_state_sealed|done].
Qed.

(** What every start that works leaves, besides the cache. *)
Record started (rm : RecoveryManager (SessionMarker F)) e : Prop := {
  st_session : session_open (marker_ rm);
  st_ready : lifecycle_ e = EngineLifecycle.Ready;
  st_idle : inFlightWriteCount_ e = 0;
  st_open : compactionPaused_ e = false
}.

(** The start on a readable marker, whatever the marker says. *)
Lemma OnServiceStart_steps options now mf jf df b d :
  options_valid options → u32 (shardCount options) → reliable mf →
  FileBackingStore.OpenFileBackingStore (Success df) = Success b →
  marker_state (file_content mf) = Success d →
  let e0 := CacheEngine_new options b (mkJournal jf 0 0) in
  let '(rr, e1) := if smd_closedCleanly d then (Success tt, e0)
                   else Engine.ReplayFromJournal hash pending_order e0 in
  match rr with
  | Success _ =>
    ∃ rm, let e2 := set_lifecycle e1 EngineLifecycle.Ready in
      started rm e2 ∧
      OnServiceStart hash pending_order options now (Success mf) (Success jf) (Success df) =
        (Success tt, mkService (Some rm) (Some e2))
  | Failure err =>
    fst (OnServiceStart hash pending_order options now (Success mf) (Success jf) (Success df)) = Failure err
  end.
Proof.
  intros (Hsc & Hcap & Hmax) Hu Hmf Hopen Hd e0.
  assert (CreateCacheEngine options (Some b) (Some (mkJournal jf 0 0)) = Success e0) as Hcreate.
  { unfold CreateCacheEngine. apply (shardCount_check options Hu) in Hsc. rewrite Hsc.
    by rewrite (proj2 (Z.eqb_neq _ _) Hcap), (proj2 (Z.eqb_neq _ _) Hmax). }
  unfold OnServiceStart. cbn [CreateSessionMarker CreateWriteAheadJournal CreateRecoveryManager].
  rewrite Hopen, Hcreate. unfold recover_and_serve, InitializeAndRecover, start_session. cbn [marker_].
  destruct (ReadLastState_reliable (mkMarker mf 0) Hmf) as (m' & Er & Hrel & _). cbn [marker_file] in Er.
  cbn [ReadLastState SessionMarker_ISessionMarker]. rewrite Er, Hd.
  destruct (OnSessionStart_reliable now m' Hrel) as (m2 & Es & Hopen2).
  destruct (smd_closedCleanly d).
  - rewrite Es. cbn. eexists. split; [|reflexivity]. by constructor.
  - destruct (Engine.ReplayFromJournal hash pending_order e0) as [[[]|err] e1] eqn:Ep; [|done].
    destruct (Replay_admission _ _ _ _ _ Ep) as [Hi Hpa].
    apply Replay_lifecycle in Ep; [|done]. rewrite Es. cbn. unfold Engine.MarkRecoveryComplete. rewrite Ep.
    eexists. split; [|reflexivity]. by constructor.
Qed.

Lemma set_ready_engine e ds :
  EngineFacts.engine_ok hash e →
  EngineFacts.engine_ok hash (set_lifecycle e EngineLifecycle.Ready) ∧
  (durable hash e ds → durable hash (set_lifecycle e EngineLifecycle.Ready) ds).
Proof.
  intros He. assert (core_eq e (set_lifecycle e EngineLifecycle.Ready)) as Hc by done.
  split; [by apply (core_eq_preserves hash _ _ Hc)|by apply (core_eq_durable hash _ _ Hc)].
Qed.

(** The files of a process that ended as the next process finds them. *)
Record next_files e (jf df : F) : Prop := {
  nf_journal : reopened (file_ (journal_ e)) jf;
  nf_data : reopened (FileBackingStore.file_ (backingStore_ e)) df;
  nf_size : zlen (file_content df) < 2 ^ 63
}.

(** The start that replays a journal, torn or not. *)
Lemma start_replaying options now mf jf df b ds d r s :
  FileBackingStore.OpenFileBackingStore (Success df) = Success b → fbs_clean b →
  reliable (FileBackingStore.file_ b) → log_reads (mkJournal jf 0 0) ds →
  reliable mf → marker_state (file_content mf) = Success d → smd_closedCleanly d = false →
  options_valid options → u32 (shardCount options) →
  OnServiceStart hash pending_order options now (Success mf) (Success jf) (Success df) = (r, s) →
  (r = Success tt →
     ∃ rm e2, s = mkService (Some rm) (Some e2) ∧ started rm e2 ∧ EngineFacts.engine_ok hash e2 ∧
       (WAL_clean (mkJournal jf 0 0) → durable hash e2 ds) ∧
       fbs_clean (backingStore_ e2) ∧ reliable (FileBackingStore.file_ (backingStore_ e2)) ∧
       ∀ k, view hash e2 k = recovered ds (fbs_map b) k) ∧
  ((∀ k, invalidated ds k = false) → r = Success tt).
Proof.
  intros Hopen Hb Hbr Hl Hmf Hms Hnc Hopt Hu E.
  pose proof (OnServiceStart_steps options now mf jf df b d Hopt Hu Hmf Hopen Hms) as Hsteps.
  cbv zeta in Hsteps. rewrite Hnc in Hsteps.
  set (e0 := CacheEngine_new options b (mkJournal jf 0 0)) in *.
  destruct (Engine.ReplayFromJournal hash pending_order e0) as [rr e1] eqn:Er.
  destruct (ReplayFromJournal_contract hash pending_order pending_order_perm options b (mkJournal jf 0 0) ds rr e1
              (clean_store_ok b Hb) Hl Er) as (Hok & _ & Hno).
  destruct rr as [[]|err].
  2:{ rewrite E in Hsteps. cbn in Hsteps. subst r. split; [done|]. intros Hn. by specialize (Hno Hn). }
  destruct Hsteps as (rm & Hst & Es). rewrite Es in E. injection E as <- <-. split; [|done]. intros _.
  destruct (Hok eq_refl) as (He1 & Hd1 & _ & Hv & Hcl). destruct (set_ready_engine e1 ds He1) as [He2 Hd2].
  destruct (Hcl (conj Hb Hbr)) as [Hc2 Hr2].
  eexists rm, _. split; [done|]. split; [done|]. split; [done|].
  split; [intros Hw; by apply Hd2, Hd1|]. by split_and!.
Qed.

(** The start on the files a power cut left between two operations. *)
Lemma start_after_power_cut options now e ds mf jf df d r s :
  EngineFacts.engine_ok hash e → durable hash e ds → fbs_clean (backingStore_ e) →
  next_files e jf df → reliable mf →
  marker_state (file_content mf) = Success d → smd_closedCleanly d = false →
  options_valid options → u32 (shardCount options) →
  OnServiceStart hash pending_order options now (Success mf) (Success jf) (Success df) = (r, s) →
  (r = Success tt →
     ∃ rm e2, s = mkService (Some rm) (Some e2) ∧ EngineFacts.engine_ok hash e2 ∧ durable hash e2 ds ∧
              ∀ k, invalidated ds k = false → view hash e2 k = view hash e k) ∧
  ((∀ k, invalidated ds k = false) → r = Success tt).
Proof.
  intros He Hd Hclean [Hj Hdf Hsz] Hmf Hms Hnc Hopt Hu E.
  pose proof (reopen_journal _ _ _ (proj1 Hd) Hj) as Hl. pose proof (proj1 (log_is_reads _ _) Hl) as [Hw Hreads].
  destruct (reopen_store _ _ Hclean Hdf Hsz) as (b & Hopen & Hb & Hr & Hm).
  destruct (start_replaying options now mf jf df b ds d r s Hopen Hb Hr Hreads Hmf Hms Hnc Hopt Hu E) as [Hok Hno].
  split; [|done]. intros Hrs. destruct (Hok Hrs) as (rm & e2 & -> & _ & He2 & Hd2 & _ & _ & Hv).
  exists rm, e2. split; [done|]. split; [done|]. split; [by apply Hd2|]. intros k Hk.
  rewrite Hv, Hm. exact (durable_recovered hash e ds k He Hd Hk).
Qed.

(** After a stop whose mark was written, the next start does not replay: it
    shows the backing store. *)
Lemma start_after_stop options now now' rm e s mf jf df r s2 :
  OnServiceStop hash now (mkService (Some rm) (Some e)) = (Success tt, s) →
  u64 (lastKnownGeneration_ (marker_ rm)) →
  ∃ rm' e', s = mkService (Some rm') (Some e') ∧ e' = snd (Engine.Shutdown hash e) ∧
    (fbs_clean (backingStore_ e') → next_files e' jf df → reliable mf →
     crash_image (marker_file (marker_ rm')) (file_content mf) →
     options_valid options → u32 (shardCount options) →
     OnServiceStart hash pending_order options now' (Success mf) (Success jf) (Success df) = (r, s2) →
     r = Success tt ∧ ∃ rm2 e2, s2 = mkService (Some rm2) (Some e2) ∧ started rm2 e2 ∧
       EngineFacts.engine_ok hash e2 ∧
       (∀ ds, log_is (journal_ e') ds → (∀ k, invalidated ds k = false → pending_of ds !! k = None) →
              durable hash e2 ds) ∧
       fbs_clean (backingStore_ e2) ∧ reliable (FileBackingStore.file_ (backingStore_ e2)) ∧
       ∀ k, view hash e2 k = store_map (backingStore_ e') !! k).
Proof.
  intros Es Hgen. unfold OnServiceStop in Es. cbn [g_cacheEngine g_recoveryManager] in Es.
  unfold MarkCleanShutdown in Es. cbn [OnCleanShutdown SessionMarker_ISessionMarker] in Es.
  unfold SessionMarker_OnCleanShutdown in Es.
  destruct (WriteRecord _ _) as [wr f] eqn:Ew. injection Es as -> <-. eexists _, _.
  split; [done|]. split; [done|]. intros Hclean [Hj Hdf Hsz] Hmf Him Hopt Hu E.
  destruct (reopen_store _ _ Hclean Hdf Hsz) as (b & Hopen & Hb & Hbr & Hm).
  destruct (WriteRecord_inv _ _ _ _ Ew) as [_ Hw]. destruct (Hw eq_refl) as [C I].
  cbn [marker_ marker_file] in Him. apply I in Him. rewrite C in Him.
  assert (marker_state (file_content mf) = Success (mkSessionMarkerData
            (lastKnownGeneration_ (marker_ rm)) (NowTicks now) true)) as Hms
    by (rewrite Him; by apply marker_state_sealed).
  pose proof (OnServiceStart_steps options now' mf jf df b _ Hopt Hu Hmf Hopen Hms) as Hsteps.
  cbv zeta in Hsteps. cbn [smd_closedCleanly] in Hsteps. destruct Hsteps as (rm2 & Hst & Es). rewrite Es in E.
  injection E as <- <-. split; [done|]. eexists _, _. split; [done|]. split; [done|].
  set (e0 := CacheEngine_new options b (mkJournal jf 0 0)) in *.
  pose proof (new_engine_ok hash options b (mkJournal jf 0 0) (clean_store_ok b Hb)) as Hok0. fold e0 in Hok0.
  destruct (set_ready_engine e0 [] Hok0) as [Hok _]. split; [done|]. split; [|split; [done|split; [done|]]].
  - intros ds Hl Hp. apply (set_ready_engine e0 ds Hok0), new_durable; [|done].
    by apply (reopen_journal (journal_ (snd (Engine.Shutdown hash e)))).
  - intros k. pose proof (new_view hash options b (mkJournal jf 0 0) k) as Hnv. fold e0 in Hnv.
    change (store_map b) with (fbs_map b) in Hnv. rewrite Hm in Hnv. exact Hnv.
Qed.

(** A clean stop and start changes nothing.  When [OnServiceStop] writes
    its mark and its engine reports no dirty entry left, the next process
    starts, and shows every key as the stopped engine did. *)
Theorem restart_after_clean_stop options now now' rm e rm' e' mf jf df r s2 :
  EngineFacts.engine_ok hash e → entry_count e < 2 ^ 64 → u64 (lastKnownGeneration_ (marker_ rm)) →
  OnServiceStop hash now (mkService (Some rm) (Some e)) = (Success tt, mkService (Some rm') (Some e')) →
  Engine.total_dirty e' = 0 → fbs_clean (backingStore_ e') → next_files e' jf df → reliable mf →
  crash_image (marker_file (marker_ rm')) (file_content mf) →
  options_valid options → u32 (shardCount options) →
  OnServiceStart hash pending_order options now' (Success mf) (Success jf) (Success df) = (r, s2) →
  r = Success tt ∧ ∃ rm2 e2, s2 = mkService (Some rm2) (Some e2) ∧ ∀ k, view hash e2 k = view hash e k.
Proof.
  intros He Hcnt Hgen Es Hz Hcl Hn Hmf Him Hopt Hu E.
  destruct (start_after_stop options now now' rm e _ mf jf df r s2 Es Hgen) as (rm1 & e1 & [= <- <-] & He' & Hstart).
  destruct (Hstart Hcl Hn Hmf Him Hopt Hu E) as (-> & rm2 & e2 & -> & _ & _ & _ & _ & _ & Hv).
  split; [done|]. exists rm2, e2. split; [done|]. intros k. rewrite Hv.
  destruct (Engine.Shutdown hash e) as [sr e1] eqn:Esh. cbn in He'. subst e1.
  destruct (Shutdown_contract hash e sr e' He Hcnt Esh) as [(Hok & V & _) [G _]].
  rewrite <- (clean_view_is_store hash e' Hok) by (lia || done). apply V.
Qed.

(** A stop forgets what it could not flush.  [OnServiceStop] writes its
    "closed" mark whatever [Shutdown] left dirty; the next process then starts
    without a replay, and shows a key whose last value was not flushed as the
    data file has it, although the journal still holds the value. *)
Theorem stop_forgets_unflushed options now now' rm e rm' e' mf jf df r s2 k v :
  u64 (lastKnownGeneration_ (marker_ rm)) →
  OnServiceStop hash now (mkService (Some rm) (Some e)) = (Success tt, mkService (Some rm') (Some e')) →
  view hash e' k = Some v → store_map (backingStore_ e') !! k ≠ Some v →
  fbs_clean (backingStore_ e') → next_files e' jf df → reliable mf →
  crash_image (marker_file (marker_ rm')) (file_content mf) →
  options_valid options → u32 (shardCount options) →
  OnServiceStart hash pending_order options now' (Success mf) (Success jf) (Success df) = (r, s2) →
  r = Success tt ∧ ∃ rm2 e2, s2 = mkService (Some rm2) (Some e2) ∧ view hash e2 k ≠ Some v.
Proof.
  intros Hgen Es _ Hlost Hcl Hn Hmf Him Hopt Hu E.
  destruct (start_after_stop options now now' rm e _ mf jf df r s2 Es Hgen) as (rm1 & e1 & [= <- <-] & _ & Hstart).
  destruct (Hstart Hcl Hn Hmf Him Hopt Hu E) as (-> & rm2 & e2 & -> & _ & _ & _ & _ & _ & Hv).
  split; [done|]. exists rm2, e2. split; [done|]. by rewrite Hv.
Qed.
End restart.
