(* ===== verification/Ipc.v ===== *)
(** * Ipc: the protocol between the service and its clients

    Models src/src/Ipc: Protocol.h, MessageCodec.cpp, and the framing of
    Win32NamedPipeTransport.cpp ([ReceiveFrame], [SendFrame]) over the calls
    [ReadFile] and [WriteFile], which are a parameter.

    The theorems: every message decodes to itself; a decoder accepts only whole
    frames that say what they are; a frame is reassembled however the pipe
    splits its payload, and no peer makes the receiver read more than 16 MiB. *)
From S2P Require Import Prelude Common Wire.
Open Scope Z_scope.

(** ** Protocol.h *)

Definition kProtocolVersion : Z := 2.

Module MessageType.
Inductive MessageType :=
| GetStatusRequest | GetStatusResponse | RecoveryStateChanged
| GetCacheStatisticsRequest | GetCacheStatisticsResponse
| FlushAllRequest | FlushAllResponse
| InvalidateKeyRequest | InvalidateKeyResponse
| ProtocolError.

#[global] Instance MessageType_eq_dec : EqDecision MessageType.
Proof. solve_decision. Defined.

(** [static_cast<std::uint32_t>(type)]. *)
Definition MessageType_val (t : MessageType) : Z :=
  match t with
  | GetStatusRequest => 1 | GetStatusResponse => 2 | RecoveryStateChanged => 3
  | GetCacheStatisticsRequest => 4 | GetCacheStatisticsResponse => 5
  | FlushAllRequest => 6 | FlushAllResponse => 7
  | InvalidateKeyRequest => 8 | InvalidateKeyResponse => 9
  | ProtocolError => 0xFFFFFFFF
  end.

Lemma MessageType_val_u32 t : in_width (8 * Z.of_nat 4) (MessageType_val t).
Proof. unfold in_width. by destruct t. Qed.

Lemma MessageType_val_inj t u : MessageType_val t = MessageType_val u → t = u.
Proof. by destruct t, u. Qed.
End MessageType.
Import MessageType.

Record StatusResponsePayload := mkStatus {
  recoveryState : Z;
  sessionGeneration : Z;
  cacheEngineActive : bool
}.

Record CacheStatisticsPayload := mkStatistics {
  hitCount : Z; missCount : Z; insertCount : Z; updateCount : Z;
  invalidationCount : Z; evictionCount : Z; flushSuccessCount : Z; flushFailureCount : Z;
  currentEntryCount : Z; currentMemoryBytes : Z; dirtyEntryCount : Z; dirtyBytes : Z
}.

Record OperationResultPayload := mkOperationResult {
  succeeded : bool;
  errorCode : Z;
  op_message : string
}.

Record InvalidateKeyRequestPayload := mkInvalidateKey { inv_key : string }.

(** ** MessageCodec.cpp *)

Definition AppendHeaderPlaceholder (frame : bytes) (type : MessageType) : bytes :=
  let frame := AppendRaw 4 frame 0 in
  let frame := AppendRaw 4 frame (MessageType_val type) in
  AppendRaw 4 frame kProtocolVersion.

(** [std::memcpy(frame.data(), &totalLength, sizeof(totalLength))]. *)
Definition PatchLength (frame : bytes) : bytes :=
  le_bytes 4 (wrap32 (zlen frame)) ++ drop 4 frame.

Definition AppendString (frame : bytes) (s : string) : bytes :=
  let frame := AppendRaw 4 frame (wrap32 (str_size s)) in
  frame ++ str_bytes s.

Definition kMaxStringLength : Z := 64 * 1024.

Definition ReadString (frame : bytes) (offset : Z) : option (string * Z) :=
  '(length, offset) ← ReadRaw 4 frame offset;
  if (kMaxStringLength <? length) || (zlen frame <? offset + length) then None
  else Some (bytes_str (slice frame offset length), offset + length).

Definition fail {T} (c : ErrorCode.ErrorCode) (msg : string) : Result T := Failure (mkError c msg 0).

(** The offset after the header, or the error. *)
Definition CheckHeader (frame : bytes) (expectedType : MessageType) : Result Z :=
  match
    ('(totalLength, offset) ← ReadRaw 4 frame 0;
     '(typeRaw, offset) ← ReadRaw 4 frame offset;
     '(version, offset) ← ReadRaw 4 frame offset;
     Some (totalLength, typeRaw, version, offset))
  with
  | None => fail ErrorCode.CorruptData "IPC frame too short for header"
  | Some (totalLength, typeRaw, version, offset) =>
    if negb (totalLength =? zlen frame) then fail ErrorCode.CorruptData "IPC frame length mismatch"
    else if negb (typeRaw =? MessageType_val expectedType) then
      fail ErrorCode.InvalidArgument "unexpected IPC message type for this decoder"
    else if negb (version =? kProtocolVersion) then
      fail ErrorCode.VersionMismatch "unsupported IPC protocol version"
    else Success offset
  end.

Definition EncodeStatusResponse (p : StatusResponsePayload) : bytes :=
  let frame := AppendHeaderPlaceholder [] GetStatusResponse in
  let frame := AppendRaw 4 frame (recoveryState p) in
  let frame := AppendRaw 8 frame (sessionGeneration p) in
  let frame := AppendRaw 1 frame (if cacheEngineActive p then 1 else 0) in
  PatchLength frame.

(** The header is checked here by code of its own; the two checks differ in the
    message for another type. *)
Definition DecodeStatusResponse (frame : bytes) : Result StatusResponsePayload :=
  match
    ('(totalLength, offset) ← ReadRaw 4 frame 0;
     '(typeRaw, offset) ← ReadRaw 4 frame offset;
     '(version, offset) ← ReadRaw 4 frame offset;
     Some (totalLength, typeRaw, version, offset))
  with
  | None => fail ErrorCode.CorruptData "IPC frame too short for header"
  | Some (totalLength, typeRaw, version, offset) =>
    if negb (totalLength =? zlen frame) then fail ErrorCode.CorruptData "IPC frame length mismatch"
    else if negb (typeRaw =? MessageType_val GetStatusResponse) then
      fail ErrorCode.InvalidArgument "not a GetStatusResponse frame"
    else if negb (version =? kProtocolVersion) then
      fail ErrorCode.VersionMismatch "unsupported IPC protocol version"
    else
      match
        ('(state, offset) ← ReadRaw 4 frame offset;
         '(generation, offset) ← ReadRaw 8 frame offset;
         '(activeByte, offset) ← ReadRaw 1 frame offset;
         Some (mkStatus state generation (negb (activeByte =? 0))))
      with
      | None => fail ErrorCode.CorruptData "IPC frame truncated payload"
      | Some payload => Success payload
      end
  end.

Definition EncodeEmpty (type : MessageType) : bytes :=
  PatchLength (AppendHeaderPlaceholder [] type).

(** The numeric value: a [static_cast] to the enumeration accepts any. *)
Definition PeekMessageType (frame : bytes) : Result Z :=
  match
    ('(_, offset) ← ReadRaw 4 frame 0;
     '(typeRaw, _) ← ReadRaw 4 frame offset;
     Some typeRaw)
  with
  | None => fail ErrorCode.CorruptData "IPC frame too short to contain a type"
  | Some typeRaw => Success typeRaw
  end.

Definition EncodeCacheStatisticsResponse (p : CacheStatisticsPayload) : bytes :=
  let frame := AppendHeaderPlaceholder [] GetCacheStatisticsResponse in
  let frame := AppendRaw 8 frame (hitCount p) in
  let frame := AppendRaw 8 frame (missCount p) in
  let frame := AppendRaw 8 frame (insertCount p) in
  let frame := AppendRaw 8 frame (updateCount p) in
  let frame := AppendRaw 8 frame (invalidationCount p) in
  let frame := AppendRaw 8 frame (evictionCount p) in
  let frame := AppendRaw 8 frame (flushSuccessCount p) in
  let frame := AppendRaw 8 frame (flushFailureCount p) in
  let frame := AppendRaw 8 frame (currentEntryCount p) in
  let frame := AppendRaw 8 frame (currentMemoryBytes p) in
  let frame := AppendRaw 8 frame (dirtyEntryCount p) in
  let frame := AppendRaw 8 frame (dirtyBytes p) in
  PatchLength frame.

Definition DecodeCacheStatisticsResponse (frame : bytes) : Result CacheStatisticsPayload :=
  match CheckHeader frame GetCacheStatisticsResponse with
  | Failure e => Failure e
  | Success offset =>
    match
      ('(hit, offset) ← ReadRaw 8 frame offset;
       '(miss, offset) ← ReadRaw 8 frame offset;
       '(insert, offset) ← ReadRaw 8 frame offset;
       '(update, offset) ← ReadRaw 8 frame offset;
       '(invalidation, offset) ← ReadRaw 8 frame offset;
       '(eviction, offset) ← ReadRaw 8 frame offset;
       '(flushSuccess, offset) ← ReadRaw 8 frame offset;
       '(flushFailure, offset) ← ReadRaw 8 frame offset;
       '(entryCount, offset) ← ReadRaw 8 frame offset;
       '(memoryBytes, offset) ← ReadRaw 8 frame offset;
       '(dirtyEntries, offset) ← ReadRaw 8 frame offset;
       '(dirty, offset) ← ReadRaw 8 frame offset;
       Some (mkStatistics hit miss insert update invalidation eviction flushSuccess flushFailure
                          entryCount memoryBytes dirtyEntries dirty))
    with
    | None => fail ErrorCode.CorruptData "IPC frame truncated cache statistics payload"
    | Some payload => Success payload
    end
  end.

Definition EncodeOperationResult (type : MessageType) (p : OperationResultPayload) : bytes :=
  let frame := AppendHeaderPlaceholder [] type in
  let frame := AppendRaw 1 frame (if succeeded p then 1 else 0) in
  let frame := AppendRaw 4 frame (errorCode p) in
  let frame := AppendString frame (op_message p) in
  PatchLength frame.

Definition DecodeOperationResult (frame : bytes) (expectedType : MessageType)
    : Result OperationResultPayload :=
  match CheckHeader frame expectedType with
  | Failure e => Failure e
  | Success offset =>
    match
      ('(succeededByte, offset) ← ReadRaw 1 frame offset;
       '(errorCode, offset) ← ReadRaw 4 frame offset;
       '(message, offset) ← ReadString frame offset;
       Some (mkOperationResult (negb (succeededByte =? 0)) errorCode message))
    with
    | None => fail ErrorCode.CorruptData "IPC frame truncated operation-result payload"
    | Some payload => Success payload
    end
  end.

Definition EncodeInvalidateKeyRequest (p : InvalidateKeyRequestPayload) : bytes :=
  let frame := AppendHeaderPlaceholder [] InvalidateKeyRequest in
  let frame := AppendString frame (inv_key p) in
  PatchLength frame.

Definition DecodeInvalidateKeyRequest (frame : bytes) : Result InvalidateKeyRequestPayload :=
  match CheckHeader frame InvalidateKeyRequest with
  | Failure e => Failure e
  | Success offset =>
    match ReadString frame offset with
    | None => fail ErrorCode.CorruptData "IPC frame truncated invalidate-key payload"
    | Some (key, _) => Success (mkInvalidateKey key)
    end
  end.

(** ** Frames *)

(** A whole frame: its length, its type, the protocol version, its payload. *)
Definition whole_frame (type : Z) (body : bytes) : bytes :=
  le_bytes 4 (12 + zlen body) ++ le_bytes 4 type ++ le_bytes 4 kProtocolVersion ++ body.

Definition frame_fits (body : bytes) : Prop := 12 + zlen body < 2 ^ 32.

Definition StatusResponse_body (p : StatusResponsePayload) : bytes :=
  le_bytes 4 (recoveryState p) ++ le_bytes 8 (sessionGeneration p) ++
  le_bytes 1 (if cacheEngineActive p then 1 else 0).

Definition CacheStatistics_fields (p : CacheStatisticsPayload) : list Z :=
  [hitCount p; missCount p; insertCount p; updateCount p; invalidationCount p; evictionCount p;
   flushSuccessCount p; flushFailureCount p; currentEntryCount p; currentMemoryBytes p;
   dirtyEntryCount p; dirtyBytes p].

Definition CacheStatistics_body (p : CacheStatisticsPayload) : bytes :=
  concat (map (le_bytes 8) (CacheStatistics_fields p)).

Definition string_body (s : string) : bytes := le_bytes 4 (str_size s) ++ str_bytes s.

Definition OperationResult_body (p : OperationResultPayload) : bytes :=
  le_bytes 1 (if succeeded p then 1 else 0) ++ le_bytes 4 (errorCode p) ++ string_body (op_message p).

Lemma PatchLength_header type body :
  frame_fits body →
  PatchLength (AppendHeaderPlaceholder [] type ++ body) = whole_frame (MessageType_val type) body.
Proof.
  unfold frame_fits, PatchLength, AppendHeaderPlaceholder, AppendRaw, whole_frame. intros Hf.
  pose proof (zlen_nonneg body). rewrite app_nil_l. autorewrite with qcache_len.
  rewrite wrap_small by (unfold in_width; lia). by rewrite <- !app_assoc.
Qed.

Lemma CheckHeader_whole type body :
  frame_fits body →
  CheckHeader (whole_frame (MessageType_val type) body) type = Success 12 ∧
  cursor (whole_frame (MessageType_val type) body) 12 body.
Proof.
  intros Hf. unfold frame_fits in Hf. pose proof (zlen_nonneg body). set (frame := whole_frame _ body).
  pose proof (cursor_0 frame) as Hc. unfold frame at 2 in Hc. unfold whole_frame in Hc.
  assert (in_width (8 * Z.of_nat 4) (12 + zlen body)) as Hl by (unfold in_width; cbn; lia).
  destruct (ReadRaw_cursor 4 _ _ _ _ Hl Hc) as [E1 Hc1].
  destruct (ReadRaw_cursor 4 _ _ _ _ (MessageType_val_u32 type) Hc1) as [E2 Hc2].
  assert (in_width (8 * Z.of_nat 4) kProtocolVersion) as Hv by done.
  destruct (ReadRaw_cursor 4 _ _ _ _ Hv Hc2) as [E3 Hc3]. split; [|exact Hc3].
  unfold CheckHeader. rewrite E1. cbn [mbind option_bind]. rewrite E2. cbn [mbind option_bind].
  rewrite E3. cbn [mbind option_bind].
  assert (zlen frame = 12 + zlen body) as ->
    by (unfold frame, whole_frame; autorewrite with qcache_len; lia).
  by rewrite !Z.eqb_refl.
Qed.

(** The header check accepts whole frames only, of the type it is asked for. *)
Lemma CheckHeader_inv frame type offset :
  CheckHeader frame type = Success offset →
  offset = 12 ∧ ∃ body, frame = whole_frame (MessageType_val type) body ∧ frame_fits body ∧
                        cursor frame 12 body.
Proof.
  unfold CheckHeader, fail. intros H. pose proof (cursor_0 frame) as Hc.
  destruct (ReadRaw 4 frame 0) as [[len o1]|] eqn:E1; [|done]. cbn [mbind option_bind] in H.
  destruct (ReadRaw_inv _ _ _ _ _ _ Hc E1) as (r1 & P1 & -> & Hc1 & Hlen).
  destruct (ReadRaw 4 frame _) as [[ty o2]|] eqn:E2; [|done]. cbn [mbind option_bind] in H.
  destruct (ReadRaw_inv _ _ _ _ _ _ Hc1 E2) as (r2 & -> & -> & Hc2 & _).
  destruct (ReadRaw 4 frame _) as [[ver o3]|] eqn:E3; [|done]. cbn [mbind option_bind] in H.
  destruct (ReadRaw_inv _ _ _ _ _ _ Hc2 E3) as (r3 & -> & -> & Hc3 & _).
  destruct (negb (len =? zlen frame)) eqn:Bl; [done|].
  destruct (negb (ty =? _)) eqn:Bt; [done|]. destruct (negb (ver =? _)) eqn:Bv; [done|].
  injection H as <-. zbool. split; [done|]. exists r3.
  assert (zlen frame = 12 + zlen r3) as Hz by (rewrite P1; autorewrite with qcache_len; lia).
  split; [|split; [|exact Hc3]].
  - rewrite P1. unfold whole_frame. by subst ty ver; rewrite Bl, Hz.
  - unfold frame_fits, in_width in *. cbn in Hlen. lia.
Qed.

Lemma whole_frame_type type body : PeekMessageType (whole_frame (MessageType_val type) body) = Success (MessageType_val type).
Proof.
  unfold PeekMessageType. set (frame := whole_frame _ body). pose proof (cursor_0 frame) as Hc.
  unfold frame at 2 in Hc. unfold whole_frame in Hc.
  assert (ReadRaw 4 frame 0 = Some (le_val (slice frame 0 4), 4)) as ->.
  { unfold ReadRaw. destruct Hc as (_ & Hl & _). autorewrite with qcache_len in Hl. pose proof (zlen_nonneg body).
    by rewrite (proj2 (Z.ltb_ge _ _)) by lia. }
  cbn [mbind option_bind]. apply cursor_move in Hc. rewrite zlen_le_bytes in Hc. change (0 + Z.of_nat 4) with 4 in Hc.
  by destruct (ReadRaw_cursor 4 _ _ _ _ (MessageType_val_u32 type) Hc) as [-> _].
Qed.

Lemma ReadString_cursor frame off s rest :
  str_size s ≤ kMaxStringLength → cursor frame off (string_body s ++ rest) →
  ReadString frame off = Some (s, off + 4 + str_size s) ∧ cursor frame (off + 4 + str_size s) rest.
Proof.
  intros Hs Hc. pose proof (str_size_nonneg s). unfold string_body in Hc. rewrite <- app_assoc in Hc.
  assert (in_width (8 * Z.of_nat 4) (str_size s)) as Hw by (unfold in_width, kMaxStringLength in *; cbn; lia).
  destruct (ReadRaw_cursor 4 _ _ _ _ Hw Hc) as [E Hc1]. unfold ReadString. rewrite E. cbn [mbind option_bind].
  rewrite (proj2 (Z.ltb_ge _ _)) by lia. change (off + Z.of_nat 4) with (off + 4) in *.
  pose proof (cursor_slice _ _ _ _ Hc1) as Hsl. pose proof (cursor_move _ _ _ _ Hc1) as Hm.
  fold (str_size s) in Hsl, Hm. destruct Hc1 as (_ & Hl & _). rewrite zlen_app in Hl. fold (str_size s) in Hl.
  pose proof (zlen_nonneg rest). rewrite (proj2 (Z.ltb_ge _ _)) by lia. cbn [orb].
  by rewrite Hsl, bytes_str_bytes.
Qed.

Lemma ReadString_inv frame off rest s off' :
  cursor frame off rest → ReadString frame off = Some (s, off') →
  str_size s ≤ kMaxStringLength ∧ ∃ rest', rest = string_body s ++ rest' ∧ cursor frame off' rest'.
Proof.
  intros Hc. unfold ReadString. destruct (ReadRaw 4 frame off) as [[len o]|] eqn:E; [|done].
  cbn [mbind option_bind]. destruct (ReadRaw_inv _ _ _ _ _ _ Hc E) as (r1 & -> & -> & Hc1 & Hl).
  destruct (_ || _) eqn:B; [done|]. zbool. intros [= <- <-].
  assert (ReadBytes frame (off + Z.of_nat 4) len =
          Some (slice frame (off + Z.of_nat 4) len, off + Z.of_nat 4 + len)) as Hrb
    by (unfold ReadBytes; by rewrite (proj2 (Z.ltb_ge _ _)) by lia).
  destruct (ReadBytes_inv _ _ _ _ _ _ (proj1 Hl) Hc1 Hrb) as (r2 & -> & _ & Hc2 & Hsz).
  set (bs := slice _ _ _) in *. unfold str_size. rewrite str_bytes_str. split; [lia|].
  exists r2. split; [|done]. unfold string_body, str_size. by rewrite str_bytes_str, Hsz, <- app_assoc.
Qed.

(** A string of more than 64 KiB is refused before it is read. *)
Lemma ReadString_long frame off s rest :
  kMaxStringLength < str_size s < 2 ^ 32 → cursor frame off (string_body s ++ rest) → ReadString frame off = None.
Proof.
  intros Hs Hc. unfold string_body in Hc. rewrite <- app_assoc in Hc. unfold ReadString.
  assert (in_width (8 * Z.of_nat 4) (str_size s)) as Hw by (unfold in_width, kMaxStringLength in *; cbn; lia).
  destruct (ReadRaw_cursor 4 _ _ _ _ Hw Hc) as [-> _]. cbn [mbind option_bind].
  by rewrite (proj2 (Z.ltb_lt _ _)) by lia.
Qed.

Lemma AppendString_body frame s :
  str_size s < 2 ^ 32 → AppendString frame s = frame ++ string_body s.
Proof.
  intros Hs. pose proof (str_size_nonneg s). unfold AppendString, AppendRaw, string_body.
  rewrite wrap_small by (unfold in_width; lia). by rewrite <- app_assoc.
Qed.

(** ** Round trips *)

(** Reads the next field of a body. *)
Ltac read_field := read_next; cbn [mbind option_bind].

Record status_ok (p : StatusResponsePayload) : Prop := {
  sok_state : u32 (recoveryState p);
  sok_generation : u64 (sessionGeneration p)
}.

Definition statistics_ok (p : CacheStatisticsPayload) : Prop := Forall u64 (CacheStatistics_fields p).

Record operation_ok (p : OperationResultPayload) : Prop := {
  ook_code : u32 (errorCode p);
  ook_message : str_size (op_message p) ≤ kMaxStringLength
}.

Lemma flag_u8 (b : bool) : in_width (8 * Z.of_nat 1) (if b then 1 else 0).
Proof. unfold in_width. by destruct b. Qed.

Lemma flag_val (b : bool) : negb ((if b then 1 else 0) =? 0) = b.
Proof. by destruct b. Qed.

Lemma EncodeStatusResponse_shape p :
  EncodeStatusResponse p = whole_frame (MessageType_val GetStatusResponse) (StatusResponse_body p).
Proof.
  unfold EncodeStatusResponse, AppendRaw. rewrite <- !app_assoc. apply PatchLength_header.
  unfold frame_fits, StatusResponse_body. by autorewrite with qcache_len.
Qed.

Lemma zlen_CacheStatistics_body p : zlen (CacheStatistics_body p) = 96.
Proof. unfold CacheStatistics_body. cbn [map concat CacheStatistics_fields]. by autorewrite with qcache_len. Qed.

Lemma EncodeCacheStatisticsResponse_shape p :
  EncodeCacheStatisticsResponse p =
  whole_frame (MessageType_val GetCacheStatisticsResponse) (CacheStatistics_body p).
Proof.
  unfold EncodeCacheStatisticsResponse, AppendRaw. rewrite <- !app_assoc.
  rewrite <- (app_nil_r (le_bytes 8 (dirtyBytes p))). apply PatchLength_header.
  unfold frame_fits. by rewrite zlen_CacheStatistics_body.
Qed.

Lemma OperationResult_fits p : str_size (op_message p) < 2 ^ 31 → frame_fits (OperationResult_body p).
Proof.
  unfold frame_fits, OperationResult_body, string_body. intros Hs.
  autorewrite with qcache_len. unfold str_size in Hs. lia.
Qed.

Lemma EncodeOperationResult_shape type p :
  str_size (op_message p) < 2 ^ 31 →
  EncodeOperationResult type p = whole_frame (MessageType_val type) (OperationResult_body p).
Proof.
  intros Hs. unfold EncodeOperationResult. rewrite AppendString_body by lia.
  unfold AppendRaw. rewrite <- !app_assoc. by apply PatchLength_header, OperationResult_fits.
Qed.

Lemma string_fits s trailing :
  frame_fits (string_body s ++ trailing) ↔ 16 + str_size s + zlen trailing < 2 ^ 32.
Proof. unfold frame_fits, string_body, str_size. autorewrite with qcache_len. lia. Qed.

Lemma EncodeInvalidateKeyRequest_shape p :
  str_size (inv_key p) < 2 ^ 31 →
  EncodeInvalidateKeyRequest p = whole_frame (MessageType_val InvalidateKeyRequest) (string_body (inv_key p)).
Proof.
  intros Hs. unfold EncodeInvalidateKeyRequest.
  rewrite AppendString_body by lia. apply PatchLength_header.
  rewrite <- (app_nil_r (string_body _)). apply string_fits. autorewrite with qcache_len. lia.
Qed.

Lemma EncodeEmpty_shape type : EncodeEmpty type = whole_frame (MessageType_val type) [].
Proof. by destruct type. Qed.

Lemma kMaxStringLength_31 n : n ≤ kMaxStringLength → n < 2 ^ 31.
Proof. unfold kMaxStringLength. lia. Qed.

Lemma DecodeStatusResponse_header frame offset :
  CheckHeader frame GetStatusResponse = Success offset →
  DecodeStatusResponse frame =
    match
      ('(state, offset) ← ReadRaw 4 frame offset;
       '(generation, offset) ← ReadRaw 8 frame offset;
       '(activeByte, offset) ← ReadRaw 1 frame offset;
       Some (mkStatus state generation (negb (activeByte =? 0))))
    with
    | None => fail ErrorCode.CorruptData "IPC frame truncated payload"
    | Some payload => Success payload
    end.
Proof. unfold CheckHeader, DecodeStatusResponse, fail. intros H. by repeat (case_match; simplify_eq/=). Qed.

Lemma DecodeStatusResponse_Encode p : status_ok p → DecodeStatusResponse (EncodeStatusResponse p) = Success p.
Proof.
  intros [Hs Hg]. rewrite EncodeStatusResponse_shape.
  destruct (CheckHeader_whole GetStatusResponse (StatusResponse_body p)) as [E Hc].
  { unfold frame_fits, StatusResponse_body. by autorewrite with qcache_len. }
  rewrite (DecodeStatusResponse_header _ _ E). unfold StatusResponse_body in Hc at 2.
  pose proof (flag_u8 (cacheEngineActive p)).
  rewrite <- (app_nil_r (le_bytes 1 _)) in Hc. do 3 read_field. rewrite flag_val. by destruct p.
Qed.

Lemma DecodeCacheStatisticsResponse_Encode p :
  statistics_ok p → DecodeCacheStatisticsResponse (EncodeCacheStatisticsResponse p) = Success p.
Proof.
  unfold statistics_ok, CacheStatistics_fields. intros Hf.
  repeat match goal with H : Forall _ (_ :: _) |- _ => apply Forall_cons in H as [? H] end.
  rewrite EncodeCacheStatisticsResponse_shape.
  destruct (CheckHeader_whole GetCacheStatisticsResponse (CacheStatistics_body p)) as [E Hc].
  { unfold frame_fits. by rewrite zlen_CacheStatistics_body. }
  unfold DecodeCacheStatisticsResponse. rewrite E. unfold CacheStatistics_body in Hc at 2.
  cbn [map concat CacheStatistics_fields] in Hc. do 12 read_field. by destruct p.
Qed.

Lemma DecodeOperationResult_Encode type p :
  operation_ok p → DecodeOperationResult (EncodeOperationResult type p) type = Success p.
Proof.
  intros [Hcode Hm]. pose proof (kMaxStringLength_31 _ Hm) as Hm31. rewrite EncodeOperationResult_shape by done.
  destruct (CheckHeader_whole type (OperationResult_body p)) as [E Hc]; [by apply OperationResult_fits|].
  unfold DecodeOperationResult. rewrite E. unfold OperationResult_body in Hc at 2.
  pose proof (flag_u8 (succeeded p)). do 2 read_field.
  rewrite <- (app_nil_r (string_body _)) in Hcur0. destruct (ReadString_cursor _ _ _ _ Hm Hcur0) as [-> _].
  cbn [mbind option_bind]. rewrite flag_val. by destruct p.
Qed.

(** A message the sender lets through and the receiver does not. *)
Lemma DecodeOperationResult_long type p :
  u32 (errorCode p) → kMaxStringLength < str_size (op_message p) < 2 ^ 31 →
  DecodeOperationResult (EncodeOperationResult type p) type =
    fail ErrorCode.CorruptData "IPC frame truncated operation-result payload".
Proof.
  intros Hcode Hm. rewrite EncodeOperationResult_shape by lia.
  destruct (CheckHeader_whole type (OperationResult_body p)) as [E Hc]; [apply OperationResult_fits; lia|].
  assert (kMaxStringLength < str_size (op_message p) < 2 ^ 32) as Hm' by lia.
  unfold DecodeOperationResult. rewrite E. unfold OperationResult_body in Hc at 2.
  pose proof (flag_u8 (succeeded p)). do 2 read_field.
  rewrite <- (app_nil_r (string_body _)) in Hcur0. by rewrite (ReadString_long _ _ _ _ Hm' Hcur0).
Qed.

Lemma DecodeInvalidateKeyRequest_long key :
  kMaxStringLength < str_size (inv_key key) < 2 ^ 31 →
  DecodeInvalidateKeyRequest (EncodeInvalidateKeyRequest key) =
    fail ErrorCode.CorruptData "IPC frame truncated invalidate-key payload".
Proof.
  intros Hk. rewrite EncodeInvalidateKeyRequest_shape by lia.
  destruct (CheckHeader_whole InvalidateKeyRequest (string_body (inv_key key))) as [E Hc].
  { rewrite <- (app_nil_r (string_body _)). apply string_fits. autorewrite with qcache_len. lia. }
  unfold DecodeInvalidateKeyRequest. rewrite E. rewrite <- (app_nil_r (string_body _)) in Hc at 2.
  assert (kMaxStringLength < str_size (inv_key key) < 2 ^ 32) as Hk' by lia.
  by rewrite (ReadString_long _ _ _ _ Hk' Hc).
Qed.

Lemma DecodeInvalidateKeyRequest_whole key trailing :
  str_size key ≤ kMaxStringLength → frame_fits (string_body key ++ trailing) →
  DecodeInvalidateKeyRequest
    (whole_frame (MessageType_val InvalidateKeyRequest) (string_body key ++ trailing)) =
  Success (mkInvalidateKey key).
Proof.
  intros Hs Hf. destruct (CheckHeader_whole InvalidateKeyRequest _ Hf) as [E Hc].
  unfold DecodeInvalidateKeyRequest. rewrite E. by destruct (ReadString_cursor _ _ _ _ Hs Hc) as [-> _].
Qed.

Lemma DecodeInvalidateKeyRequest_inv frame key :
  DecodeInvalidateKeyRequest frame = Success (mkInvalidateKey key) →
  str_size key ≤ kMaxStringLength ∧
  ∃ trailing, frame_fits (string_body key ++ trailing) ∧
    frame = whole_frame (MessageType_val InvalidateKeyRequest) (string_body key ++ trailing).
Proof.
  unfold DecodeInvalidateKeyRequest, fail. intros H.
  destruct (CheckHeader frame InvalidateKeyRequest) as [off|] eqn:E; [|done].
  destruct (CheckHeader_inv _ _ _ E) as (-> & body & -> & Hf & Hc).
  destruct (ReadString _ 12) as [[s o]|] eqn:Er; [|done]. injection H as ->.
  destruct (ReadString_inv _ _ _ _ _ Hc Er) as (Hs & rest & -> & _). split; [done|]. by exists rest.
Qed.

(** ** Win32NamedPipeTransport.cpp *)

(** [ReadFile] and [WriteFile] on the handle of a pipe: [None] where the call
    fails; [GetLastError] says why. *)
Class Win32Pipe (P : Type) := {
  ReadFile : P → Z → option bytes * P;
  WriteFile : P → bytes → option Z * P;
  GetLastError : P → Z
}.

(** What their documentation says: a read returns bytes in the order they were
    written, at most as many as it is asked for; on a pipe whose peer stays
    connected ([delivers]) it returns some once there are some. *)
Class Win32PipeSpec (P : Type) `{Win32Pipe P} := {
  pending : P → bytes;
  delivers : P → Prop;
  ReadFile_ok p n got p' :
    ReadFile p n = (Some got, p') → pending p = got ++ pending p' ∧ zlen got ≤ n;
  ReadFile_delivers p n :
    delivers p → 0 < n → pending p ≠ [] →
    ∃ got p', ReadFile p n = (Some got, p') ∧ got ≠ [] ∧ delivers p'
}.

Definition kMaxFrameLength : Z := 16 * 1024 * 1024.

Section transport.
Context {P : Type} `{Win32Pipe P}.
Implicit Types p : P.

Definition MakeWin32Error {T} p (context : string) : Result T :=
  Failure (mkError ErrorCode.Win32ApiFailure context (GetLastError p)).

Definition SendFrame p (frame : bytes) : Result unit * P :=
  match WriteFile p frame with
  | (Some written, p) =>
    if written =? zlen frame then (Success tt, p)
    else (MakeWin32Error p "WriteFile on named pipe failed", p)
  | (None, p) => (MakeWin32Error p "WriteFile on named pipe failed", p)
  end.

(** The loop over the payload; [None] without fuel. *)
Fixpoint receive_loop (fuel : nat) p (frame : bytes) (remaining : Z) : option (Result bytes * P) :=
  if remaining <=? 0 then Some (Success frame, p) else
  match fuel with
  | O => None
  | S fuel =>
    match ReadFile p remaining with
    | (Some got, p) =>
      if zlen got =? 0 then Some (MakeWin32Error p "ReadFile (payload) on named pipe failed", p)
      else receive_loop fuel p (frame ++ got) (remaining - zlen got)
    | (None, p) => Some (MakeWin32Error p "ReadFile (payload) on named pipe failed", p)
    end
  end.

Definition ReceiveFrame p : Result bytes * P :=
  match ReadFile p 4 with
  | (None, p) => (MakeWin32Error p "ReadFile (length prefix) on named pipe failed", p)
  | (Some prefix, p) =>
    if negb (zlen prefix =? 4) then
      (MakeWin32Error p "ReadFile (length prefix) on named pipe failed", p)
    else
      let totalLength := le_val prefix in
      if (totalLength <? 4) || (kMaxFrameLength <? totalLength) then
        (fail ErrorCode.CorruptData "IPC frame length out of sane bounds", p)
      else
        (* A turn receives a byte at least. *)
        match receive_loop (Z.to_nat (totalLength - 4)) p prefix (totalLength - 4) with
        | Some r => r
        | None => (Failure Error_default, p)
        end
  end.
End transport.

(** A frame as the transport takes it: its length first, within the bound. *)
Record sendable (frame : bytes) : Prop := {
  se_length : le_val (take 4 frame) = zlen frame;
  se_bounds : 4 ≤ zlen frame ≤ kMaxFrameLength
}.

Section transport_spec.
Context {P : Type} `{Win32PipeSpec P}.
Implicit Types p : P.

Lemma receive_loop_end fuel p frame remaining :
  (Z.to_nat remaining ≤ fuel)%nat → 0 ≤ remaining →
  ∃ r p', receive_loop fuel p frame remaining = Some (r, p') ∧
    match r with
    | Success f => ∃ got, f = frame ++ got ∧ zlen got = remaining ∧ pending p = got ++ pending p'
    | Failure e => code e = ErrorCode.Win32ApiFailure
    end.
Proof.
  revert p frame remaining. induction fuel as [|fuel IH]; intros p frame remaining Hf Hr; cbn [receive_loop].
  - rewrite (proj2 (Z.leb_le _ _)) by lia. exists (Success frame), p. split; [done|]. exists [].
    rewrite app_nil_r. split; [done|]. split; [by autorewrite with qcache_len; lia|done].
  - destruct (Z.leb_spec remaining 0) as [|Hpos].
    { exists (Success frame), p. split; [done|]. exists []. rewrite app_nil_r. split; [done|].
      split; [by autorewrite with qcache_len; lia|done]. }
    destruct (ReadFile p remaining) as [[got|] p1] eqn:E; [|by eexists _, _].
    destruct (ReadFile_ok _ _ _ _ E) as [Hp Hz]. pose proof (zlen_nonneg got).
    destruct (Z.eqb_spec (zlen got) 0); [by eexists _, _|].
    destruct (IH p1 (frame ++ got) (remaining - zlen got)) as (r & p' & -> & Hr'); [lia..|].
    exists r, p'. split; [done|]. destruct r as [f|e]; [|done]. destruct Hr' as (got' & -> & Hz' & Hp').
    exists (got ++ got'). split; [by rewrite <- app_assoc|]. split; [autorewrite with qcache_len; lia|].
    by rewrite Hp, Hp', app_assoc.
Qed.

Lemma receive_loop_delivers fuel p frame body rest :
  (length body ≤ fuel)%nat → delivers p → pending p = body ++ rest →
  ∃ p', receive_loop fuel p frame (zlen body) = Some (Success (frame ++ body), p') ∧ pending p' = rest.
Proof.
  revert p frame body. induction fuel as [|fuel IH]; intros p frame body Hf Hd Hp; cbn [receive_loop].
  - destruct body; [|cbn in Hf; lia]. exists p. by rewrite app_nil_r.
  - destruct (Z.leb_spec (zlen body) 0) as [|Hpos].
    { destruct body; [|by rewrite zlen_cons in *; pose proof (zlen_nonneg body); lia].
      exists p. by rewrite app_nil_r. }
    assert (pending p ≠ []) as Hne by (rewrite Hp; by destruct body).
    destruct (ReadFile_delivers p (zlen body) Hd Hpos Hne) as (got & p1 & E & Hg & Hd1). rewrite E.
    destruct (ReadFile_ok _ _ _ _ E) as [Hp1 Hz].
    destruct (Z.eqb_spec (zlen got) 0) as [Hz0|_]; [by destruct got; [|rewrite zlen_cons in Hz0; pose proof (zlen_nonneg got); lia]|].
    rewrite Hp in Hp1. assert (∃ body1, body = got ++ body1) as [body1 ->].
    { exists (drop (length got) body). unfold zlen in Hz. apply (f_equal (take (length got))) in Hp1.
      rewrite take_app_le, take_app_length in Hp1 by lia. by rewrite <- Hp1 at 1; rewrite take_drop. }
    rewrite <- app_assoc in Hp1. apply app_inv_head in Hp1. rewrite length_app in Hf.
    destruct (IH p1 (frame ++ got) body1) as (p' & Er & Hr); [|done|done|].
    { destruct got; [done|]. cbn in Hf. lia. }
    exists p'. rewrite zlen_app. replace (zlen got + zlen body1 - zlen got) with (zlen body1) by lia.
    by rewrite Er, app_assoc.
Qed.

Lemma ReceiveFrame_inv p r p' :
  ReceiveFrame p = (r, p') →
  match r with
  | Success frame => sendable frame ∧ pending p = frame ++ pending p'
  | Failure e => code e = ErrorCode.Win32ApiFailure ∨ code e = ErrorCode.CorruptData
  end.
Proof.
  unfold ReceiveFrame, MakeWin32Error, fail.
  destruct (ReadFile p 4) as [[prefix|] p1] eqn:E; [|intros [= <- <-]; by left].
  destruct (ReadFile_ok _ _ _ _ E) as [Hp _].
  destruct (Z.eqb_spec (zlen prefix) 4) as [Hz|]; cbn [negb]; [|intros [= <- <-]; by left].
  destruct ((le_val prefix <? 4) || _) eqn:B; [intros [= <- <-]; by right|]. zbool.
  destruct (receive_loop_end (Z.to_nat (le_val prefix - 4)) p1 prefix (le_val prefix - 4))
    as (r' & p2 & -> & Hr); [lia..|]. intros [= <- <-].
  destruct r' as [f|e]; [|by left]. destruct Hr as (got & -> & Hg & Hp1).
  assert (zlen (prefix ++ got) = le_val prefix) as Hl by (rewrite zlen_app; lia).
  split; [|by rewrite Hp, Hp1, app_assoc]. split; [|lia].
  rewrite take_app_length' by (unfold zlen in Hz; lia). done.
Qed.
End transport_spec.

Lemma whole_frame_sendable type body : 12 + zlen body ≤ kMaxFrameLength → sendable (whole_frame type body).
Proof.
  unfold kMaxFrameLength. intros Hb. pose proof (zlen_nonneg body).
  assert (zlen (whole_frame type body) = 12 + zlen body) as Hz
    by (unfold whole_frame; autorewrite with qcache_len; lia).
  split; [|rewrite Hz; unfold kMaxFrameLength; lia]. rewrite Hz. unfold whole_frame.
  rewrite take_app_length' by (by rewrite length_le_bytes).
  apply le_val_le_bytes_small. unfold in_width. cbn. lia.
Qed.

(** ** Properties *)

(** C33: Every message survives the wire.  What the service or a client encodes,
    the other side decodes to the same payload, for integers of their width and
    strings of at most 64 KiB, and the type of the message is read from its
    frame, whichever the message and whatever its payload; a string of more than
    64 KiB the sender accepts and the receiver refuses.  A message without
    payload passes the check of its header. *)
Theorem messages_roundtrip status statistics type result key :
  status_ok status → statistics_ok statistics → u32 (errorCode result) →
  str_size (op_message result) < 2 ^ 31 → str_size (inv_key key) < 2 ^ 31 →
  let type_of frame := PeekMessageType frame in
  (DecodeStatusResponse (EncodeStatusResponse status) = Success status ∧
   type_of (EncodeStatusResponse status) = Success (MessageType_val GetStatusResponse)) ∧
  (DecodeCacheStatisticsResponse (EncodeCacheStatisticsResponse statistics) = Success statistics ∧
   type_of (EncodeCacheStatisticsResponse statistics) = Success (MessageType_val GetCacheStatisticsResponse)) ∧
  (DecodeOperationResult (EncodeOperationResult type result) type =
     (if str_size (op_message result) <=? kMaxStringLength then Success result
      else fail ErrorCode.CorruptData "IPC frame truncated operation-result payload") ∧
   type_of (EncodeOperationResult type result) = Success (MessageType_val type)) ∧
  (DecodeInvalidateKeyRequest (EncodeInvalidateKeyRequest key) =
     (if str_size (inv_key key) <=? kMaxStringLength then Success key
      else fail ErrorCode.CorruptData "IPC frame truncated invalidate-key payload") ∧
   type_of (EncodeInvalidateKeyRequest key) = Success (MessageType_val InvalidateKeyRequest)) ∧
  (CheckHeader (EncodeEmpty type) type = Success (zlen (EncodeEmpty type)) ∧
   type_of (EncodeEmpty type) = Success (MessageType_val type)).
Proof.
  intros Hs Hst Hcode Hm Hk. cbv zeta. split_and!.
  - by apply DecodeStatusResponse_Encode.
  - rewrite EncodeStatusResponse_shape. apply whole_frame_type.
  - by apply DecodeCacheStatisticsResponse_Encode.
  - rewrite EncodeCacheStatisticsResponse_shape. apply whole_frame_type.
  - destruct (Z.leb_spec (str_size (op_message result)) kMaxStringLength).
    + by apply DecodeOperationResult_Encode.
    + by apply DecodeOperationResult_long.
  - rewrite EncodeOperationResult_shape by done. apply whole_frame_type.
  - destruct (Z.leb_spec (str_size (inv_key key)) kMaxStringLength) as [Hle|].
    + rewrite EncodeInvalidateKeyRequest_shape, <- (app_nil_r (string_body _)) by done.
      rewrite DecodeInvalidateKeyRequest_whole; [by destruct key|done|].
      apply string_fits. autorewrite with qcache_len. lia.
    + by apply DecodeInvalidateKeyRequest_long.
  - rewrite EncodeInvalidateKeyRequest_shape by done. apply whole_frame_type.
  - by destruct type.
  - rewrite EncodeEmpty_shape. apply whole_frame_type.
Qed.

(** The service's one decoder of untrusted payloads accepts exactly the
    frames that are whole, of its type and version, and hold a key of at most
    64 KiB, whatever bytes follow the key in the frame. *)
Theorem DecodeInvalidateKeyRequest_exact frame key :
  DecodeInvalidateKeyRequest frame = Success (mkInvalidateKey key) ↔
  str_size key ≤ kMaxStringLength ∧
  ∃ trailing, frame_fits (string_body key ++ trailing) ∧
    frame = whole_frame (MessageType_val InvalidateKeyRequest) (string_body key ++ trailing).
Proof.
  split; [apply DecodeInvalidateKeyRequest_inv|].
  intros (Hs & trailing & Hf & ->). by apply DecodeInvalidateKeyRequest_whole.
Qed.

(** C34: Frames arrive whole, or not at all.  [ReceiveFrame] ends; a frame it
    returns is what the peer wrote, of the length it announces and of at most
    16 MiB, and nothing beyond it was consumed.  The length must come in one
    piece: of a prefix that is split the call fails, and the frame is lost.
    A length out of bounds is refused with the prefix consumed and no byte of
    the payload asked for.  After a whole prefix a frame the peer sent is
    returned, in however many pieces its payload arrives. *)
Theorem ReceiveFrame_framing {P} `{Win32PipeSpec P} (p : P) :
  match ReceiveFrame p with
  | (Success frame, p') => sendable frame ∧ pending p = frame ++ pending p'
  | (Failure e, _) => code e = ErrorCode.Win32ApiFailure ∨ code e = ErrorCode.CorruptData
  end ∧
  (∀ prefix p1, ReadFile p 4 = (Some prefix, p1) → zlen prefix ≠ 4 →
     ∃ e, ReceiveFrame p = (Failure e, p1) ∧ code e = ErrorCode.Win32ApiFailure) ∧
  (∀ prefix p1, ReadFile p 4 = (Some prefix, p1) → zlen prefix = 4 →
     le_val prefix < 4 ∨ kMaxFrameLength < le_val prefix →
     ∃ e, ReceiveFrame p = (Failure e, p1) ∧ code e = ErrorCode.CorruptData) ∧
  ∀ frame rest p1, sendable frame → pending p = frame ++ rest →
    ReadFile p 4 = (Some (take 4 frame), p1) → delivers p1 →
    ∃ p', ReceiveFrame p = (Success frame, p') ∧ pending p' = rest.
Proof.
  split; [destruct (ReceiveFrame p) as [r p'] eqn:E; by apply ReceiveFrame_inv in E|]. split; [|split].
  - intros prefix p1 E Hz. unfold ReceiveFrame. rewrite E. rewrite (proj2 (Z.eqb_neq _ _) Hz). by eexists.
  - intros prefix p1 E Hz Hl. unfold ReceiveFrame. rewrite E, Hz. cbn [negb Z.eqb Pos.eqb].
    assert ((le_val prefix <? 4) || (kMaxFrameLength <? le_val prefix) = true) as ->; [|by eexists].
    apply orb_true_iff. rewrite !Z.ltb_lt. lia.
  - intros frame rest p1 [Hl Hb] Hp E Hd. destruct (ReadFile_ok _ _ _ _ E) as [Hp1 _].
    unfold ReceiveFrame. rewrite E. unfold zlen in Hb.
    assert (zlen (take 4 frame) = 4) as Hz by (unfold zlen; rewrite length_take; lia).
    rewrite Hz, Hl. cbn [negb Z.eqb Pos.eqb]. unfold zlen at 1 2.
    rewrite (proj2 (Z.ltb_ge _ _)), (proj2 (Z.ltb_ge _ _)) by lia. cbn [orb].
    rewrite <- (take_drop 4 frame) in Hp at 1. rewrite Hp1, <- app_assoc in Hp. apply app_inv_head in Hp.
    assert (zlen (drop 4 frame) = zlen frame - 4) as Hd4 by (unfold zlen; rewrite length_drop; lia).
    destruct (receive_loop_delivers (Z.to_nat (zlen frame - 4)) p1 (take 4 frame) (drop 4 frame) rest)
      as (p' & Er & Hr); [unfold zlen in *; lia|done..|].
    exists p'. rewrite Hd4 in Er. by rewrite Er, take_drop.
Qed.
