(* ===== verification/Requests.v ===== *)
(** * Requests: the requests a client sends to the service

    Models [ToIpcPayload], [HandleOneIpcRequest] and [IpcServerThreadBody] of
    src/src/Service/src/main_service.cpp: one request of a connected client,
    and the loop over the connections.  The pipe is the transport of Ipc.v; what
    [AcceptOnce] returns and when the service is told to stop come from
    outside. *)
From S2P Require Import Prelude Common RecordCodec Storage Journal Marker Recovery Store Shard.
From S2P Require Import Engine EngineFacts Durability Client Service Ipc.
Open Scope Z_scope.

Definition ToIpcPayload (stats : CacheStatistics) : CacheStatisticsPayload :=
  let c := stat_counters stats in
  mkStatistics (Shard.hitCount c) (Shard.missCount c) (Shard.insertCount c) (Shard.updateCount c)
    (Shard.invalidationCount c) (Shard.evictionCount c) (Shard.flushSuccessCount c)
    (Shard.flushFailureCount c) (Engine.currentEntryCount stats) (Engine.currentMemoryBytes stats)
    (Engine.dirtyEntryCount stats) (stat_dirtyBytes stats).

Section requests.
Context {F : Type} `{IFile F}.
Context (hash : string → Z).

Abbreviation Store := (FileBackingStore.FileBackingStore F).
Abbreviation Journal := (WriteAheadJournal F).
Implicit Types (s : Service F) (e : CacheEngine Store Journal).

Definition is_Some_b {A} (o : option A) : bool := match o with Some _ => true | None => false end.

(** The case of [GetStatusRequest]. *)
Definition status_payload s : StatusResponsePayload :=
  let state := match g_recoveryManager s with
               | Some rm => CurrentState rm
               | None => RecoveryState.Unknown
               end in
  mkStatus (RecoveryState.RecoveryState_val state) 0
    (is_Some_b (g_cacheEngine s) && is_Some_b (g_recoveryManager s) &&
     bool_decide (state = RecoveryState.RecoveryComplete)).

Definition failed_result (e : Error) : OperationResultPayload :=
  mkOperationResult false (ErrorCode.ErrorCode_val (code e)) (message e).

Definition engine_unavailable : OperationResultPayload :=
  mkOperationResult false (ErrorCode.ErrorCode_val ErrorCode.RecoveryNotComplete)
    "cache engine is not available".

(** The result of an operation of the engine. *)
Definition operation_result (r : Result unit) (done : string) : OperationResultPayload :=
  mkOperationResult (IsOk r) (ErrorCode.ErrorCode_val (code (Err r)))
    (if IsOk r then done else message (Err r)).

Definition with_engine s e : Service F := mkService (g_recoveryManager s) (Some e).

(** The body of [HandleOneIpcRequest] once a frame is received: the frame it
    sends, if any. *)
Definition HandleFrame (frame : bytes) s : option bytes * Service F :=
  match PeekMessageType frame with
  | Failure _ => (None, s)
  | Success type =>
    if type =? MessageType.MessageType_val MessageType.GetStatusRequest then
      (Some (EncodeStatusResponse (status_payload s)), s)
    else if type =? MessageType.MessageType_val MessageType.GetCacheStatisticsRequest then
      match g_cacheEngine s with
      | None => (None, s)
      | Some e => (Some (EncodeCacheStatisticsResponse (ToIpcPayload (Engine.GetStatistics e))), s)
      end
    else if type =? MessageType.MessageType_val MessageType.FlushAllRequest then
      let '(result, s) :=
        match g_cacheEngine s with
        | None => (engine_unavailable, s)
        | Some e =>
          let '(r, e) := Engine.FlushAll hash e in (operation_result r "flush complete", with_engine s e)
        end in
      (Some (EncodeOperationResult MessageType.FlushAllResponse result), s)
    else if type =? MessageType.MessageType_val MessageType.InvalidateKeyRequest then
      let '(result, s) :=
        match DecodeInvalidateKeyRequest frame with
        | Failure err => (failed_result err, s)
        | Success request =>
          match g_cacheEngine s with
          | None => (engine_unavailable, s)
          | Some e =>
            let '(r, e) := Engine.ForceInvalidate hash e (inv_key request) in
            (operation_result r "invalidated", with_engine s e)
          end
        end in
      (Some (EncodeOperationResult MessageType.InvalidateKeyResponse result), s)
    else (None, s)
  end.

Section transport.
Context {P : Type} `{Win32Pipe P}.

Definition HandleOneIpcRequest (transport : P) s : P * Service F :=
  match ReceiveFrame transport with
  | (Failure _, transport) => (transport, s)
  | (Success frame, transport) =>
    match HandleFrame frame s with
    | (Some reply, s) => (snd (SendFrame transport reply), s)
    | (None, s) => (transport, s)
    end
  end.

(** What a turn of the accept loop meets: the stop flag when the turn starts,
    what [AcceptOnce] returns, the stop flag then. *)
Record Turn := mkTurn { stop_before : bool; accepted : Result P; stop_after : bool }.

(** The transports in the order they are closed. *)
Fixpoint IpcServerThreadBody (turns : list Turn) s : list P * Service F :=
  match turns with
  | [] => ([], s)
  | t :: turns =>
    if stop_before t then ([], s)
    else if stop_after t then ([], s)
    else
      match accepted t with
      | Failure err =>
        if decide (code err = ErrorCode.ServiceStopping) then ([], s) else IpcServerThreadBody turns s
      | Success transport =>
        let '(transport, s) := HandleOneIpcRequest transport s in
        let '(closed, s) := IpcServerThreadBody turns s in (transport :: closed, s)
      end
  end.
End transport.
End requests.

(** ** What clients can do *)

Section effects.
Context {F : Type} `{IFileSpec F}.
Context (hash : string → Z).

Abbreviation Store := (FileBackingStore.FileBackingStore F).
Abbreviation Journal := (WriteAheadJournal F).
Implicit Types (s : Service F) (e : CacheEngine Store Journal).

(** From [e] to [e'], at most the keys of [ks] went away; the journal is still
    in order if it was. *)
Definition removed (ks : list string) e e' : Prop :=
  EngineFacts.engine_ok hash e' ∧ entry_count e' ≤ entry_count e ∧
  (∀ k, view hash e' k = view hash e k ∨ k ∈ ks ∧ view hash e' k = None) ∧
  ∀ ds, durable hash e ds → ∃ ds', durable hash e' ds'.

Lemma removed_refl ks e : EngineFacts.engine_ok hash e → removed ks e e.
Proof. intros He. split; [done|]. split; [lia|]. split; [by left|]. intros ds Hd. by exists ds. Qed.

Lemma removed_trans ks1 ks2 e1 e2 e3 :
  removed ks1 e1 e2 → removed ks2 e2 e3 → removed (ks1 ++ ks2) e1 e3.
Proof.
  intros (_ & N1 & V1 & D1) (He & N2 & V2 & D2). split; [done|]. split; [lia|]. split.
  - intros k. destruct (V2 k) as [->|[Hin ->]]; [|right; split; [set_solver|done]].
    destruct (V1 k) as [->|[Hin ->]]; [by left|right; split; [set_solver|done]].
  - intros ds Hd. destruct (D1 ds Hd) as [ds' Hd']. by apply (D2 ds').
Qed.

(** The key a received frame asks to remove. *)
Definition asked (frame : bytes) : list string :=
  match DecodeInvalidateKeyRequest frame with
  | Success request => [inv_key request]
  | Failure _ => []
  end.

Lemma key_journalable key : str_size key ≤ kMaxStringLength → str_size key ≤ kMaxReasonableLength.
Proof. unfold kMaxStringLength, kMaxReasonableLength. lia. Qed.

Lemma ForceInvalidate_steps e key r e' :
  EngineFacts.engine_ok hash e → str_size key ≤ kMaxStringLength →
  Engine.ForceInvalidate hash e key = (r, e') →
  removed [key] e e' ∧
  ∀ k, view hash e' k = if IsOk r then (if decide (k = key) then None else view hash e k) else view hash e k.
Proof.
  intros He Hk E. destruct (InvalidateImpl_contract hash e key true r e' He (key_journalable _ Hk) E)
    as (Hok & [N _] & V & D).
  assert (∀ k, view hash e' k = if IsOk r then (if decide (k = key) then None else view hash e k)
                                else view hash e k) as Hv by (by destruct r).
  split; [|done]. split; [done|]. split; [lia|]. split.
  - intros k. rewrite Hv. destruct (IsOk r); [|by left]. case_decide as Hd; [right|by left].
    split; [|done]. rewrite Hd. constructor.
  - intros ds Hd. destruct (D ds Hd) as (ds' & Hd' & _). by exists ds'.
Qed.

Lemma HandleFrame_effect frame s e reply s' :
  g_cacheEngine s = Some e → EngineFacts.engine_ok hash e → entry_count e < 2 ^ 64 →
  HandleFrame hash frame s = (reply, s') →
  g_recoveryManager s' = g_recoveryManager s ∧
  ∃ e', g_cacheEngine s' = Some e' ∧ removed (asked frame) e e'.
Proof.
  intros Hs He Hc. unfold HandleFrame. rewrite Hs.
  assert (∀ e', removed (asked frame) e e' →
    g_recoveryManager (with_engine s e') = g_recoveryManager s ∧
    ∃ e'', g_cacheEngine (with_engine s e') = Some e'' ∧ removed (asked frame) e e'') as Hwith
    by (intros e' Hr; split; [done|]; by exists e').
  assert (g_recoveryManager s = g_recoveryManager s ∧
          ∃ e', g_cacheEngine s = Some e' ∧ removed (asked frame) e e') as Hsame
    by (split; [done|]; exists e; split; [done|]; by apply removed_refl).
  destruct (PeekMessageType frame) as [type|]; [|by intros [= _ <-]].
  destruct (type =? _); [by intros [= _ <-]|]. destruct (type =? _); [by intros [= _ <-]|].
  destruct (type =? _).
  { destruct (Engine.FlushAll hash e) as [r e1] eqn:E. intros [= _ <-]. apply Hwith.
    destruct (FlushAll_contract hash e r e1 He Hc E) as [(Hok & V & D) [N _]].
    split; [done|]. split; [lia|]. split; [by left|].
    intros ds Hd. destruct (D ds Hd) as (ds' & Hd' & _). by exists ds'. }
  destruct (type =? _); [|by intros [= _ <-]]. unfold asked in *.
  destruct (DecodeInvalidateKeyRequest frame) as [[key]|err] eqn:Ed; [|by intros [= _ <-]].
  destruct (Engine.ForceInvalidate hash e _) as [r e1] eqn:E. intros [= _ <-]. apply Hwith.
  apply DecodeInvalidateKeyRequest_inv in Ed as [Hk _]. cbn [inv_key] in *.
  by apply (ForceInvalidate_steps e key r e1).
Qed.

Lemma removed_weaken ks ks' e e' : ks ⊆ ks' → removed ks e e' → removed ks' e e'.
Proof.
  intros Hsub (Hok & N & V & D). split; [done|]. split; [done|]. split; [|done].
  intros k. destruct (V k) as [?|[Hin ?]]; [by left|right]. split; [by apply Hsub|done].
Qed.

Section serving.
Context {P : Type} `{Win32Pipe P}.

(** The keys the clients of some turns ask to remove. *)
Definition asked_by (t : Turn (P := P)) : list string :=
  match accepted t with
  | Failure _ => []
  | Success transport =>
    match ReceiveFrame transport with
    | (Success frame, _) => asked frame
    | (Failure _, _) => []
    end
  end.

Lemma HandleOneIpcRequest_effect (transport transport' : P) s e s' :
  g_cacheEngine s = Some e → EngineFacts.engine_ok hash e → entry_count e < 2 ^ 64 →
  HandleOneIpcRequest hash transport s = (transport', s') →
  g_recoveryManager s' = g_recoveryManager s ∧
  ∃ e', g_cacheEngine s' = Some e' ∧
    removed (match ReceiveFrame transport with (Success frame, _) => asked frame | _ => [] end) e e'.
Proof.
  intros Hs He Hc. unfold HandleOneIpcRequest. destruct (ReceiveFrame transport) as [[frame|err] t1].
  - destruct (HandleFrame hash frame s) as [reply s1] eqn:E.
    pose proof (HandleFrame_effect frame s e reply s1 Hs He Hc E). destruct reply; by intros [= _ <-].
  - intros [= _ <-]. split; [done|]. exists e. split; [done|]. by apply removed_refl.
Qed.

(** C36: Clients can flush, and remove the keys they name; nothing else.  Whatever
    frames arrive on however many connections, well-formed or not, the engine
    stays well-formed with its journal in order, the recovery manager is not
    touched, and every key that no request names shows what it showed. *)
Theorem requests_only_remove (turns : list (Turn (P := P))) s e closed s' :
  g_cacheEngine s = Some e → EngineFacts.engine_ok hash e → entry_count e < 2 ^ 64 →
  IpcServerThreadBody hash turns s = (closed, s') →
  g_recoveryManager s' = g_recoveryManager s ∧
  ∃ e', g_cacheEngine s' = Some e' ∧ EngineFacts.engine_ok hash e' ∧
    (∀ k, k ∉ concat (map asked_by turns) → view hash e' k = view hash e k) ∧
    ∀ ds, durable hash e ds → ∃ ds', durable hash e' ds'.
Proof.
  intros Hs He Hc E.
  enough (g_recoveryManager s' = g_recoveryManager s ∧
          ∃ e', g_cacheEngine s' = Some e' ∧ removed (concat (map asked_by turns)) e e')
    as (Hrm & e' & Hs' & Hok & _ & V & D).
  { split; [done|]. exists e'. split; [done|]. split; [done|]. split; [|done].
    intros k Hk. by destruct (V k) as [|[? _]]. }
  revert s e closed Hs He Hc E. induction turns as [|t turns IH]; intros s e closed Hs He Hc; cbn [IpcServerThreadBody].
  { intros [= _ <-]. split; [done|]. exists e. split; [done|]. by apply removed_refl. }
  cbn [map concat].
  assert (g_recoveryManager s = g_recoveryManager s ∧ ∃ e', g_cacheEngine s = Some e' ∧
          removed (asked_by t ++ concat (map asked_by turns)) e e') as Hsame
    by (split; [done|]; exists e; split; [done|]; by apply removed_refl).
  destruct (stop_before t); [by intros [= _ <-]|]. destruct (stop_after t); [by intros [= _ <-]|].
  unfold asked_by at 1. destruct (accepted t) as [transport|err].
  - destruct (HandleOneIpcRequest hash transport s) as [t1 s1] eqn:E1.
    destruct (HandleOneIpcRequest_effect _ _ _ _ _ Hs He Hc E1) as (Hrm1 & e1 & Hs1 & R1).
    destruct (IpcServerThreadBody hash turns s1) as [closed1 s2] eqn:E2. intros [= _ <-].
    pose proof R1 as (He1 & N1 & _). destruct (IH s1 e1 closed1 Hs1 He1 ltac:(lia) E2) as (Hrm2 & e2 & Hs2 & R2).
    split; [by rewrite Hrm2|]. exists e2. split; [done|].
    destruct (ReceiveFrame transport) as [[frame|] ?]; by eapply removed_trans.
  - case_decide; [intros [= _ <-]; split; [done|]; exists e; split; [done|]; by apply removed_refl|].
    intros E2. by apply (IH s e closed).
Qed.
End serving.

(** *** Replies *)

(** What a reply says of the outcome of an operation: whether it succeeded, the
    code of the error and its message; and a client that decodes it reads this,
    unless the message is longer than a client takes. *)
Definition says_outcome (reply : bytes) (type : MessageType.MessageType) (r : Result unit) (done : string) : Prop :=
  ∃ p, reply = EncodeOperationResult type p ∧
    succeeded p = IsOk r ∧ errorCode p = ErrorCode.ErrorCode_val (code (Err r)) ∧
    op_message p = (if IsOk r then done else message (Err r)) ∧
    (str_size (message (Err r)) ≤ kMaxStringLength → DecodeOperationResult reply type = Success p).

Lemma operation_result_says type r done :
  str_size done ≤ kMaxStringLength → says_outcome (EncodeOperationResult type (operation_result r done)) type r done.
Proof.
  intros Hd. exists (operation_result r done). split_and!; try done. intros Hm. apply DecodeOperationResult_Encode.
  split; [apply ErrorCode.ErrorCode_val_u32|]. unfold operation_result. cbn [op_message]. by destruct (IsOk r).
Qed.

Lemma failed_result_says type err done : says_outcome (EncodeOperationResult type (failed_result err)) type (Failure err) done.
Proof. exact (operation_result_says type (Failure err) "" ltac:(done)). Qed.

Lemma sum_u64 {A} (f : A → Z) l : ∀ acc, u64 acc → u64 (foldl (λ acc x, wrap64 (acc + f x)) acc l).
Proof. induction l as [|x l IH]; intros acc Ha; [done|]. apply IH, wrap_width. lia. Qed.

(** The counters of the engine are [std::atomic<std::uint64_t>]. *)
Definition counters_ok (c : Counters) : Prop :=
  Forall u64 [Shard.hitCount c; Shard.missCount c; Shard.insertCount c; Shard.updateCount c;
    Shard.invalidationCount c; Shard.evictionCount c; Shard.flushSuccessCount c; Shard.flushFailureCount c].

Lemma bump_ok c n : counters_ok n → counters_ok (bump c n).
Proof.
  unfold counters_ok. destruct n. cbn. intros Hn. repeat (apply Forall_cons in Hn as [? Hn]).
  destruct c; cbn; repeat (apply Forall_cons_2; [first [done|by apply wrap_width]|]); apply Forall_nil_2.
Qed.

Lemma statistics_payload_ok e : counters_ok (counters_ e) → statistics_ok (ToIpcPayload (Engine.GetStatistics e)).
Proof.
  intros Hc. unfold statistics_ok, CacheStatistics_fields, ToIpcPayload, Engine.GetStatistics.
  cbn [stat_counters Engine.currentEntryCount Engine.currentMemoryBytes Engine.dirtyEntryCount stat_dirtyBytes
       hitCount missCount insertCount updateCount invalidationCount evictionCount flushSuccessCount flushFailureCount
       currentEntryCount currentMemoryBytes dirtyEntryCount dirtyBytes].
  apply (Forall_app_2 _ _ _ Hc). repeat (apply Forall_cons_2; [by apply sum_u64|]). apply Forall_nil_2.
Qed.

(** What the type of a request makes of it. *)
Lemma HandleFrame_invalidate frame s :
  PeekMessageType frame = Success (MessageType.MessageType_val MessageType.InvalidateKeyRequest) →
  HandleFrame hash frame s =
    let '(result, s') :=
      match DecodeInvalidateKeyRequest frame with
      | Failure err => (failed_result err, s)
      | Success request =>
        match g_cacheEngine s with
        | None => (engine_unavailable, s)
        | Some e => let '(r, e) := Engine.ForceInvalidate hash e (inv_key request) in
                    (operation_result r "invalidated", with_engine s e)
        end
      end in
    (Some (EncodeOperationResult MessageType.InvalidateKeyResponse result), s').
Proof. intros E. unfold HandleFrame. by rewrite E. Qed.

Lemma HandleFrame_flush s :
  HandleFrame hash (EncodeEmpty MessageType.FlushAllRequest) s =
    let '(result, s') :=
      match g_cacheEngine s with
      | None => (engine_unavailable, s)
      | Some e => let '(r, e) := Engine.FlushAll hash e in (operation_result r "flush complete", with_engine s e)
      end in
    (Some (EncodeOperationResult MessageType.FlushAllResponse result), s').
Proof. unfold HandleFrame. rewrite EncodeEmpty_shape, whole_frame_type. done. Qed.

(** What is answered where there is no engine. *)
Definition no_engine : Result unit :=
  Failure (mkError ErrorCode.RecoveryNotComplete "cache engine is not available" 0).

Lemma engine_unavailable_says type done : says_outcome (EncodeOperationResult type engine_unavailable) type no_engine done.
Proof.
  assert (engine_unavailable = failed_result (mkError ErrorCode.RecoveryNotComplete "cache engine is not available" 0))
    as -> by done. apply failed_result_says.
Qed.

(** C37: Replies are truthful.  The state of the recovery is answered, without a
    change of the service, by a message that decodes to it, and reports the
    engine active exactly when there is one and recovery is complete; the
    statistics decode to those of the engine.  A request to flush everything is
    answered by the outcome of [FlushAll], and one to remove a key by that of
    [ForceInvalidate]: success or not, the code of the error, and its message,
    which the client decodes if the message has at most 64 KiB; when it says that the key
    was removed, clients find nothing under it and everything else as it was,
    and otherwise, and after a flush, they see no change.  A request to remove
    that does not decode, and any while there is no engine, is answered by an
    error and changes nothing; other types are not answered. *)
Theorem replies_are_truthful s :
  (∃ reply p, HandleFrame hash (EncodeEmpty MessageType.GetStatusRequest) s = (Some reply, s) ∧
     DecodeStatusResponse reply = Success p ∧ sessionGeneration p = 0 ∧
     recoveryState p = RecoveryState.RecoveryState_val
       (match g_recoveryManager s with Some rm => CurrentState rm | None => RecoveryState.Unknown end) ∧
     (cacheEngineActive p = true ↔ g_cacheEngine s ≠ None ∧
        ∃ rm, g_recoveryManager s = Some rm ∧ CurrentState rm = RecoveryState.RecoveryComplete)) ∧
  (∀ frame err, PeekMessageType frame = Success (MessageType.MessageType_val MessageType.InvalidateKeyRequest) →
     DecodeInvalidateKeyRequest frame = Failure err →
     ∃ reply, HandleFrame hash frame s = (Some reply, s) ∧
       says_outcome reply MessageType.InvalidateKeyResponse (Failure err) "") ∧
  (∀ frame, (∀ t, t ∈ [MessageType.GetStatusRequest; MessageType.GetCacheStatisticsRequest;
                       MessageType.FlushAllRequest; MessageType.InvalidateKeyRequest] →
                  PeekMessageType frame ≠ Success (MessageType.MessageType_val t)) →
     HandleFrame hash frame s = (None, s)) ∧
  match g_cacheEngine s with
  | None =>
    HandleFrame hash (EncodeEmpty MessageType.GetCacheStatisticsRequest) s = (None, s) ∧
    (∃ reply, HandleFrame hash (EncodeEmpty MessageType.FlushAllRequest) s = (Some reply, s) ∧
       says_outcome reply MessageType.FlushAllResponse no_engine "") ∧
    ∀ key, str_size key ≤ kMaxStringLength →
      ∃ reply, HandleFrame hash (EncodeInvalidateKeyRequest (mkInvalidateKey key)) s = (Some reply, s) ∧
        says_outcome reply MessageType.InvalidateKeyResponse no_engine ""
  | Some e =>
    EngineFacts.engine_ok hash e → entry_count e < 2 ^ 64 →
    (∃ reply, HandleFrame hash (EncodeEmpty MessageType.GetCacheStatisticsRequest) s = (Some reply, s) ∧
       (counters_ok (counters_ e) →
        DecodeCacheStatisticsResponse reply = Success (ToIpcPayload (Engine.GetStatistics e)))) ∧
    (∃ reply r e', Engine.FlushAll hash e = (r, e') ∧
       HandleFrame hash (EncodeEmpty MessageType.FlushAllRequest) s = (Some reply, with_engine s e') ∧
       says_outcome reply MessageType.FlushAllResponse r "flush complete" ∧
       ∀ k, view hash e' k = view hash e k) ∧
    ∀ key, str_size key ≤ kMaxStringLength →
      ∃ reply r e', Engine.ForceInvalidate hash e key = (r, e') ∧
        HandleFrame hash (EncodeInvalidateKeyRequest (mkInvalidateKey key)) s = (Some reply, with_engine s e') ∧
        says_outcome reply MessageType.InvalidateKeyResponse r "invalidated" ∧
        ∀ k, view hash e' k = if IsOk r then (if decide (k = key) then None else view hash e k) else view hash e k
  end.
Proof.
  split; [|split; [|split]].
  - exists (EncodeStatusResponse (status_payload s)), (status_payload s). split; [by vm_compute|].
    split; [|split; [done|split; [done|]]].
    + apply DecodeStatusResponse_Encode. split; unfold in_width; cbn; [|lia].
      destruct (match g_recoveryManager s with Some rm => _ | None => _ end); cbn; lia.
    + unfold status_payload. cbn [cacheEngineActive].
      destruct (g_cacheEngine s); cbn [is_Some_b andb]; [|by split; [|intros [? _]]].
      destruct (g_recoveryManager s) as [rm|]; cbn [is_Some_b andb].
      * rewrite bool_decide_eq_true. split; [intros ?; split; [done|by exists rm]|]. by intros (_ & ? & [= <-] & ?).
      * split; [done|]. by intros (_ & ? & ? & _).
  - intros frame err Ht Ed. rewrite HandleFrame_invalidate, Ed by done. eexists. split; [done|]. apply failed_result_says.
  - intros frame Hno. unfold HandleFrame. destruct (PeekMessageType frame) as [type|]; [|done].
    repeat (match goal with |- context [type =? MessageType.MessageType_val ?t] =>
      destruct (Z.eqb_spec type (MessageType.MessageType_val t)) as [->|_];
        [by destruct (Hno t ltac:(set_solver))|] end). done.
  - assert (∀ key, str_size key ≤ kMaxStringLength →
      DecodeInvalidateKeyRequest (EncodeInvalidateKeyRequest (mkInvalidateKey key)) = Success (mkInvalidateKey key) ∧
      PeekMessageType (EncodeInvalidateKeyRequest (mkInvalidateKey key)) =
        Success (MessageType.MessageType_val MessageType.InvalidateKeyRequest)) as Hkey.
    { intros key Hk. pose proof (kMaxStringLength_31 _ Hk) as Hk31. rewrite EncodeInvalidateKeyRequest_shape by done.
      split; [|apply whole_frame_type]. rewrite <- (app_nil_r (string_body _)).
      apply DecodeInvalidateKeyRequest_whole; [done|]. apply string_fits. cbn [inv_key]. autorewrite with qcache_len. lia. }
    destruct (g_cacheEngine s) as [e|] eqn:Hs.
    + intros He Hc. split; [|split].
      * eexists. split; [unfold HandleFrame; rewrite EncodeEmpty_shape, whole_frame_type, Hs; done|].
        intros Hco. by apply DecodeCacheStatisticsResponse_Encode, statistics_payload_ok.
      * destruct (Engine.FlushAll hash e) as [r e'] eqn:E.
        destruct (FlushAll_contract hash e r e' He Hc E) as [(_ & V & _) _].
        eexists _, r, e'. split; [done|]. split; [by rewrite HandleFrame_flush, Hs, E|]. split; [by apply operation_result_says|done].
      * intros key Hk. destruct (Hkey key Hk) as [Ed Ep]. destruct (Engine.ForceInvalidate hash e key) as [r e'] eqn:E.
        destruct (ForceInvalidate_steps e key r e' He Hk E) as [_ Hv].
        eexists _, r, e'. split; [done|]. split; [rewrite HandleFrame_invalidate, Ed, Hs by done; cbn [inv_key]; by rewrite E|].
        split; [by apply operation_result_says|done].
    + split; [unfold HandleFrame; rewrite EncodeEmpty_shape, whole_frame_type, Hs; done|]. split.
      * eexists. split; [by rewrite HandleFrame_flush, Hs|]. apply engine_unavailable_says.
      * intros key Hk. destruct (Hkey key Hk) as [Ed Ep]. eexists.
        split; [by rewrite HandleFrame_invalidate, Ed, Hs by done|]. apply engine_unavailable_says.
Qed.
End effects.
