(* ===== verification/Config.v ===== *)
(** * Config: the configuration and its JSON form

    Models src/src/Configuration: AppConfig.h and the conversion, validation,
    [Load] and [Save] of JsonConfigStore.cpp, and [BuildEngineOptions] of
    src/src/Service/src/main_service.cpp.

    The JSON library (nlohmann::json) is a parameter: [NlohmannJson] has the
    calls the code makes, [NlohmannJsonSpec] what its documentation says of
    them.  The replacement of the file on disk is Replace.v and, on Windows,
    Win32Replace.v. *)
From S2P Require Import Prelude Common Shard Engine Lifecycle.
Open Scope Z_scope.

(** ** AppConfig.h *)

(** [std::wstring]: its code units. *)
Definition wstring : Type := list Z.

(** A wide literal of ASCII characters. *)
Definition L (s : string) : wstring := map byte_val (str_bytes s).

Record AppConfig := mkConfig {
  schemaVersion : Z;
  stateDirectory : wstring;
  logDirectory : wstring;
  minimumLogLevel : Z;
  ipcPipeName : wstring;
  cacheEnabled : bool;
  backingStoreDataFile : wstring;
  cacheCapacityBytes : Z;
  cacheMaxEntryCount : Z;
  cacheShardCount : Z;
  evictionPolicy : string;
  cfg_writePolicy : string;
  cfg_flushPolicy : string;
  cfg_flushIntervalSeconds : Z
}.

(** The default member initializers. *)
Definition AppConfig_default : AppConfig :=
  mkConfig 2 (L "C:\ProgramData\QuantumCache\State") (L "C:\ProgramData\QuantumCache\Logs") 2
    (L "\\.\pipe\QuantumCacheControl") true
    (L "C:\ProgramData\QuantumCache\State\backingstore.data") (256 * 1024 * 1024) 100000 16
    "LeastRecentlyUsed" "WriteBackDeferred" "Manual" 30.

(** The integers are of their C++ type. *)
Record config_typed (c : AppConfig) : Prop := {
  ct_schema : u32 (schemaVersion c);
  ct_level : - 2 ^ 31 ≤ minimumLogLevel c < 2 ^ 31;
  ct_capacity : u64 (cacheCapacityBytes c);
  ct_entries : u64 (cacheMaxEntryCount c);
  ct_shards : u32 (cacheShardCount c);
  ct_interval : u32 (cfg_flushIntervalSeconds c)
}.

(** ** JsonConfigStore.cpp *)

(** [static_cast<char>(c)] of each code unit. *)
Definition NarrowFromWide (wide : wstring) : string := bytes_str (map byte_of wide).

Definition WideFromNarrow (narrow : string) : wstring := map byte_val (str_bytes narrow).

(** The values the code stores in an object. *)
Inductive JsonValue := JNumber (z : Z) | JBool (b : bool) | JString (s : string).

(** The calls the code makes.  A call that may throw returns [inl] of the
    exception's text.  [set j k v] is [j[k] = v]; [get_u32 j k] is
    [j.at(k).get<std::uint32_t>()], and so on; [dump] is [dump(2)]; [parse] the
    extraction from a stream. *)
Class NlohmannJson (json : Type) := {
  json_null : json;
  set : json → string → JsonValue → json;
  contains : json → string → bool;
  get_u32 : json → string → string + Z;
  get_u64 : json → string → string + Z;
  get_int : json → string → string + Z;
  get_bool : json → string → string + bool;
  get_string : json → string → string + string;
  dump : json → string + string;
  parse : string → string + json
}.

(** The outcome of a call from which an exception may escape. *)
Inductive Outcome (T : Type) := Returned (r : T) | Thrown (what : string).
Arguments Returned {T}.
Arguments Thrown {T}.

(** [x] thrown, or the rest of the [try] block. *)
Notation "'try!' x := e 'in' k" :=
  (match e with inl what => inl what | inr x => k end)
  (at level 10, x name, e at level 100, k at level 200, only parsing) : qc_scope.

Section JsonConfigStore.
Context {json : Type} `{NlohmannJson json}.

Definition ToJson (config : AppConfig) : json :=
  let j := json_null in
  let j := set j "schemaVersion" (JNumber (schemaVersion config)) in
  let j := set j "stateDirectory" (JString (NarrowFromWide (stateDirectory config))) in
  let j := set j "logDirectory" (JString (NarrowFromWide (logDirectory config))) in
  let j := set j "minimumLogLevel" (JNumber (minimumLogLevel config)) in
  let j := set j "ipcPipeName" (JString (NarrowFromWide (ipcPipeName config))) in
  let j := set j "cacheEnabled" (JBool (cacheEnabled config)) in
  let j := set j "backingStoreDataFile" (JString (NarrowFromWide (backingStoreDataFile config))) in
  let j := set j "cacheCapacityBytes" (JNumber (cacheCapacityBytes config)) in
  let j := set j "cacheMaxEntryCount" (JNumber (cacheMaxEntryCount config)) in
  let j := set j "cacheShardCount" (JNumber (cacheShardCount config)) in
  let j := set j "evictionPolicy" (JString (evictionPolicy config)) in
  let j := set j "writePolicy" (JString (cfg_writePolicy config)) in
  let j := set j "flushPolicy" (JString (cfg_flushPolicy config)) in
  set j "flushIntervalSeconds" (JNumber (cfg_flushIntervalSeconds config)).

(** [if (j.contains(k)) field = j.at(k).get<T>();] *)
Definition get_if {T} (j : json) (k : string) (get : json → string → string + T) (default : T) : string + T :=
  if contains j k then get j k else inr default.

Definition get_wide (j : json) (k : string) : string + wstring :=
  try! s := get_string j k in inr (WideFromNarrow s).

(** The [try] block. *)
Definition FromJson_try (j : json) : string + AppConfig :=
  let config := AppConfig_default in
  try! schemaVersion := get_u32 j "schemaVersion" in
  try! stateDirectory := get_wide j "stateDirectory" in
  try! logDirectory := get_wide j "logDirectory" in
  try! minimumLogLevel := get_int j "minimumLogLevel" in
  try! ipcPipeName := get_wide j "ipcPipeName" in
  try! cacheEnabled := get_if j "cacheEnabled" get_bool (cacheEnabled config) in
  try! dataFile := get_if j "backingStoreDataFile" get_wide (backingStoreDataFile config) in
  try! capacity := get_if j "cacheCapacityBytes" get_u64 (cacheCapacityBytes config) in
  try! maxEntries := get_if j "cacheMaxEntryCount" get_u64 (cacheMaxEntryCount config) in
  try! shards := get_if j "cacheShardCount" get_u32 (cacheShardCount config) in
  try! eviction := get_if j "evictionPolicy" get_string (evictionPolicy config) in
  try! write := get_if j "writePolicy" get_string (cfg_writePolicy config) in
  try! flush := get_if j "flushPolicy" get_string (cfg_flushPolicy config) in
  try! interval := get_if j "flushIntervalSeconds" get_u32 (cfg_flushIntervalSeconds config) in
  inr (mkConfig schemaVersion stateDirectory logDirectory minimumLogLevel ipcPipeName cacheEnabled
         dataFile capacity maxEntries shards eviction write flush interval).

Definition FromJson (j : json) : Result AppConfig :=
  match FromJson_try j with
  | inl what => Failure (mkError ErrorCode.CorruptData (String.append "config JSON malformed: " what) 0)
  | inr config => Success config
  end.

Definition invalid (msg : string) : Result unit := Failure (mkError ErrorCode.InvalidArgument msg 0).

Definition kMaxSaneCapacityBytes : Z := 1024 * 1024 * 1024 * 1024.

(** [name.rfind(L"\\\\.\\pipe\\", 0) == 0]: the prefix of a local pipe. *)
Definition is_pipe_path (name : wstring) : bool :=
  bool_decide (take 9 name = L "\\.\pipe\").

Definition Validate (config : AppConfig) : Result unit :=
  if (schemaVersion config =? 0) || (2 <? schemaVersion config) then
    Failure (mkError ErrorCode.VersionMismatch
      "unsupported config schemaVersion (this build supports versions 1-2)" 0)
  else if bool_decide (stateDirectory config = []) then invalid "stateDirectory must not be empty"
  else if bool_decide (logDirectory config = []) then invalid "logDirectory must not be empty"
  else if (minimumLogLevel config <? 0) || (5 <? minimumLogLevel config) then
    invalid "minimumLogLevel out of range [0,5]"
  else if bool_decide (ipcPipeName config = []) || negb (is_pipe_path (ipcPipeName config)) then
    invalid "ipcPipeName must be a well-formed local named pipe path"
  else if bool_decide (backingStoreDataFile config = []) then invalid "backingStoreDataFile must not be empty"
  else if cacheCapacityBytes config =? 0 then invalid "cacheCapacityBytes must be > 0"
  else if kMaxSaneCapacityBytes <? cacheCapacityBytes config then
    invalid "cacheCapacityBytes exceeds the maximum sane value (1 TiB)"
  else if cacheMaxEntryCount config =? 0 then invalid "cacheMaxEntryCount must be > 0"
  else if (cacheShardCount config =? 0) ||
          negb (Z.land (cacheShardCount config) (wrap32 (cacheShardCount config - 1)) =? 0) then
    invalid "cacheShardCount must be a power of two >= 1"
  else if 4096 <? cacheShardCount config then
    invalid "cacheShardCount exceeds the maximum sane value (4096)"
  else if negb (String.eqb (evictionPolicy config) "LeastRecentlyUsed") then
    invalid "evictionPolicy must be 'LeastRecentlyUsed' (the only policy implemented)"
  else if negb (String.eqb (cfg_writePolicy config) "WriteThrough") &&
          negb (String.eqb (cfg_writePolicy config) "WriteBackDeferred") then
    invalid "writePolicy must be 'WriteThrough' or 'WriteBackDeferred'"
  else if negb (String.eqb (cfg_flushPolicy config) "Manual") &&
          negb (String.eqb (cfg_flushPolicy config) "PeriodicBackground") then
    invalid "flushPolicy must be 'Manual' or 'PeriodicBackground'"
  else if String.eqb (cfg_flushPolicy config) "PeriodicBackground" && (cfg_flushIntervalSeconds config =? 0) then
    invalid "flushIntervalSeconds must be >= 1 when flushPolicy is 'PeriodicBackground'"
  else Success tt.

(** [content]: what the file at [path] holds, if it can be opened. *)
Definition Load (path : string) (content : option string) : Result AppConfig :=
  match content with
  | None => Failure (mkError ErrorCode.NotFound (String.append "config file not found: " path) 0)
  | Some text =>
    match parse text with
    | inl what => Failure (mkError ErrorCode.CorruptData (String.append "config JSON parse error: " what) 0)
    | inr parsed =>
      match FromJson parsed with
      | Failure e => Failure e
      | Success config =>
        match Validate config with
        | Failure e => Failure e
        | Success _ => Success config
        end
      end
    end
  end.

(** The factory: a store is its path. *)
Definition CreateJsonConfigStore (path : string) : Result string :=
  if String.eqb path "" then Failure (mkError ErrorCode.InvalidArgument "path must not be empty" 0)
  else Success path.

(** The part of [Save] before the file is touched: the text to store, the
    error, or the exception of [dump], which nothing catches. *)
Definition Save_serialize (config : AppConfig) : Outcome (Result string) :=
  match Validate config with
  | Failure e => Returned (Failure e)
  | Success _ =>
    match dump (ToJson config) with
    | inl what => Thrown what
    | inr serialized => Returned (Success serialized)
    end
  end.
End JsonConfigStore.

(** ** main_service.cpp *)

(** [evictionPolicy] has one value and is never read. *)
Definition BuildEngineOptions (config : AppConfig) : CacheEngineOptions :=
  mkOptions (cacheEnabled config) (cacheCapacityBytes config) (cacheMaxEntryCount config)
    (if String.eqb (cfg_writePolicy config) "WriteThrough" then WritePolicyKind.WriteThrough
     else WritePolicyKind.WriteBackDeferred)
    (if String.eqb (cfg_flushPolicy config) "PeriodicBackground" then FlushPolicyKind.PeriodicBackground
     else FlushPolicyKind.Manual)
    (cfg_flushIntervalSeconds config) (cacheShardCount config).

(** ** CacheTypes.h: the policies by name *)

Module EvictionPolicyKind.
Inductive EvictionPolicyKind := LeastRecentlyUsed.

Definition EvictionPolicyKind_ToString (policy : EvictionPolicyKind) : string :=
  match policy with LeastRecentlyUsed => "LeastRecentlyUsed" end.
End EvictionPolicyKind.

Definition WritePolicyKind_ToString (policy : WritePolicyKind.WritePolicyKind) : string :=
  match policy with
  | WritePolicyKind.WriteThrough => "WriteThrough"
  | WritePolicyKind.WriteBackDeferred => "WriteBackDeferred"
  end.

Definition FlushPolicyKind_ToString (policy : FlushPolicyKind.FlushPolicyKind) : string :=
  match policy with
  | FlushPolicyKind.Manual => "Manual"
  | FlushPolicyKind.PeriodicBackground => "PeriodicBackground"
  end.

(** ** What the library's documentation says *)

Inductive built {json} `{NlohmannJson json} : json → Prop :=
  | built_null : built json_null
  | built_set j k v : built j → built (set j k v).

Definition ascii_bytes (bs : bytes) : Prop := Forall (λ b, byte_val b < 128) bs.

(** [members] are the scalar members of an object.  Conversions of a number
    that fits its type are exact; a string is written only if it is valid
    UTF-8, which ASCII is, and which a byte above 0x7F at the end of ASCII is
    not; what was written is read back. *)
Class NlohmannJsonSpec (json : Type) `{NlohmannJson json} := {
  members : json → gmap string JsonValue;
  utf8 : string → bool;
  members_null : members json_null = ∅;
  members_set j k v : members (set j k v) = <[k := v]> (members j);
  contains_member j k v : members j !! k = Some v → contains j k = true;
  get_u32_member j k z : members j !! k = Some (JNumber z) → u32 z → get_u32 j k = inr z;
  get_u64_member j k z : members j !! k = Some (JNumber z) → u64 z → get_u64 j k = inr z;
  get_int_member j k z :
    members j !! k = Some (JNumber z) → - 2 ^ 31 ≤ z < 2 ^ 31 → get_int j k = inr z;
  get_bool_member j k b : members j !! k = Some (JBool b) → get_bool j k = inr b;
  get_string_member j k s : members j !! k = Some (JString s) → get_string j k = inr s;
  get_u32_range j k z : get_u32 j k = inr z → u32 z;
  get_u64_range j k z : get_u64 j k = inr z → u64 z;
  get_int_range j k z : get_int j k = inr z → - 2 ^ 31 ≤ z < 2 ^ 31;
  utf8_ascii bs : ascii_bytes bs → utf8 (bytes_str bs) = true;
  utf8_stray bs b : ascii_bytes bs → 128 ≤ byte_val b → utf8 (bytes_str (bs ++ [b])) = false;
  dump_built j :
    built j →
    (∀ k v, members j !! k = Some v →
       match v with
       | JNumber z => - 2 ^ 63 ≤ z < 2 ^ 64
       | JString s => utf8 s = true
       | JBool _ => True
       end) →
    ∃ text j', dump j = inr text ∧ parse text = inr j' ∧ members j' = members j;
  dump_refuses j k s :
    built j → members j !! k = Some (JString s) → utf8 s = false → ∃ what, dump j = inl what
}.

(** ** The configuration that comes back *)

(** A path as [Save] writes it and [Load] reads it: the low bytes of its code
    units. *)
Definition narrowed_path (w : wstring) : wstring := WideFromNarrow (NarrowFromWide w).

Definition narrowed (c : AppConfig) : AppConfig :=
  mkConfig (schemaVersion c) (narrowed_path (stateDirectory c)) (narrowed_path (logDirectory c))
    (minimumLogLevel c) (narrowed_path (ipcPipeName c)) (cacheEnabled c)
    (narrowed_path (backingStoreDataFile c)) (cacheCapacityBytes c) (cacheMaxEntryCount c)
    (cacheShardCount c) (evictionPolicy c) (cfg_writePolicy c) (cfg_flushPolicy c)
    (cfg_flushIntervalSeconds c).

Definition paths (c : AppConfig) : list wstring :=
  [stateDirectory c; logDirectory c; ipcPipeName c; backingStoreDataFile c].

(** The low bytes of the path are ASCII; its code units are. *)
Definition narrow_ascii (w : wstring) : Prop := Forall (λ u, u mod 256 < 128) w.
Definition ascii_path (w : wstring) : Prop := Forall (λ u, 0 ≤ u < 128) w.

Lemma narrowed_path_ascii w : ascii_path w → narrowed_path w = w.
Proof.
  unfold narrowed_path, WideFromNarrow, NarrowFromWide. rewrite str_bytes_str, map_map. intros Ha.
  induction Ha as [|u w Hu _ IH]; [done|]. cbn. rewrite byte_val_of, IH, Z.mod_small by lia. done.
Qed.

Lemma length_narrowed_path w : length (narrowed_path w) = length w.
Proof. unfold narrowed_path, WideFromNarrow, NarrowFromWide. by rewrite str_bytes_str, !length_map. Qed.

Lemma narrowed_path_app w v : narrowed_path (w ++ v) = narrowed_path w ++ narrowed_path v.
Proof. unfold narrowed_path, WideFromNarrow, NarrowFromWide. by rewrite !str_bytes_str, !map_app. Qed.

Lemma narrowed_id c : Forall ascii_path (paths c) → narrowed c = c.
Proof.
  unfold paths, narrowed. rewrite !Forall_cons. intros (H1 & H2 & H3 & H4 & _).
  rewrite !narrowed_path_ascii by done. by destruct c.
Qed.

Lemma narrowed_empty w : bool_decide (narrowed_path w = []) = bool_decide (w = []).
Proof.
  apply bool_decide_ext. pose proof (length_narrowed_path w). split; intros E; [|by subst].
  rewrite E in *. by destruct w.
Qed.

Lemma pipe_prefix_ascii : ascii_path (L "\\.\pipe\").
Proof. unfold ascii_path. vm_compute. repeat (constructor; [split; congruence|]). constructor. Qed.

Lemma narrowed_pipe w : is_pipe_path w = true → is_pipe_path (narrowed_path w) = true.
Proof.
  unfold is_pipe_path. rewrite !bool_decide_eq_true. intros E. rewrite <- (take_drop 9 w), E, narrowed_path_app.
  rewrite (narrowed_path_ascii _ pipe_prefix_ascii). done.
Qed.

(** What [Validate] accepts. *)
Lemma Validate_success c :
  Validate c = Success tt →
  (schemaVersion c ≠ 0 ∧ schemaVersion c ≤ 2) ∧
  (stateDirectory c ≠ [] ∧ logDirectory c ≠ [] ∧ backingStoreDataFile c ≠ []) ∧
  0 ≤ minimumLogLevel c ≤ 5 ∧ is_pipe_path (ipcPipeName c) = true ∧
  (cacheCapacityBytes c ≠ 0 ∧ cacheCapacityBytes c ≤ kMaxSaneCapacityBytes) ∧ cacheMaxEntryCount c ≠ 0 ∧
  (cacheShardCount c =? 0) || negb (Z.land (cacheShardCount c) (wrap32 (cacheShardCount c - 1)) =? 0) = false ∧
  cacheShardCount c ≤ 4096 ∧ evictionPolicy c = "LeastRecentlyUsed"%string ∧
  (cfg_writePolicy c = "WriteThrough" ∨ cfg_writePolicy c = "WriteBackDeferred")%string ∧
  (cfg_flushPolicy c = "Manual" ∨ cfg_flushPolicy c = "PeriodicBackground")%string.
Proof.
  unfold Validate, invalid. intros H.
  repeat match type of H with
  | (if ?b then _ else _) = _ => let E := fresh in destruct b eqn:E; [discriminate H|]
  end.
  repeat match goal with
  | E : (_ && _) = false |- _ => apply andb_false_iff in E
  | E : bool_decide _ = false |- _ => apply bool_decide_eq_false in E
  end.
  zbool.
  repeat match goal with
  | E : String.eqb _ _ = true |- _ => apply String.eqb_eq in E
  | E : negb (String.eqb _ _) = false ∨ _ |- _ => rewrite !negb_false_iff, !String.eqb_eq in E
  | E : bool_decide _ = false |- _ => apply bool_decide_eq_false in E
  end.
  split_and!; try done; try lia.
Qed.

Section spec.
Context {json : Type} `{NlohmannJsonSpec json}.

Lemma built_ToJson c : built (ToJson c).
Proof. unfold ToJson. repeat constructor. Qed.

Lemma members_ToJson c :
  members (ToJson c) =
    <["flushIntervalSeconds" := JNumber (cfg_flushIntervalSeconds c)]>
    (<["flushPolicy" := JString (cfg_flushPolicy c)]>
    (<["writePolicy" := JString (cfg_writePolicy c)]>
    (<["evictionPolicy" := JString (evictionPolicy c)]>
    (<["cacheShardCount" := JNumber (cacheShardCount c)]>
    (<["cacheMaxEntryCount" := JNumber (cacheMaxEntryCount c)]>
    (<["cacheCapacityBytes" := JNumber (cacheCapacityBytes c)]>
    (<["backingStoreDataFile" := JString (NarrowFromWide (backingStoreDataFile c))]>
    (<["cacheEnabled" := JBool (cacheEnabled c)]>
    (<["ipcPipeName" := JString (NarrowFromWide (ipcPipeName c))]>
    (<["minimumLogLevel" := JNumber (minimumLogLevel c)]>
    (<["logDirectory" := JString (NarrowFromWide (logDirectory c))]>
    (<["stateDirectory" := JString (NarrowFromWide (stateDirectory c))]>
    (<["schemaVersion" := JNumber (schemaVersion c)]> (∅ : gmap string JsonValue)))))))))))))).
Proof. unfold ToJson. by rewrite !members_set, members_null. Qed.

(** Reads a member [ToJson] wrote. *)
Ltac read_member :=
  match goal with
  | E : members ?j = _ |- context [contains ?j ?k] =>
      rewrite (contains_member j k _ ltac:(rewrite E; by simplify_map_eq))
  | E : members ?j = _ |- context [get_u32 ?j ?k] =>
      rewrite (get_u32_member j k _ ltac:(rewrite E; by simplify_map_eq) ltac:(done))
  | E : members ?j = _ |- context [get_u64 ?j ?k] =>
      rewrite (get_u64_member j k _ ltac:(rewrite E; by simplify_map_eq) ltac:(done))
  | E : members ?j = _ |- context [get_int ?j ?k] =>
      rewrite (get_int_member j k _ ltac:(rewrite E; by simplify_map_eq) ltac:(done))
  | E : members ?j = _ |- context [get_bool ?j ?k] =>
      rewrite (get_bool_member j k _ ltac:(rewrite E; by simplify_map_eq))
  | E : members ?j = _ |- context [get_string ?j ?k] =>
      rewrite (get_string_member j k _ ltac:(rewrite E; by simplify_map_eq))
  end.

Lemma FromJson_members c j :
  config_typed c → members j = members (ToJson c) → FromJson j = Success (narrowed c).
Proof.
  intros [Hs Hl Hc Hm Hsh Hi] E. rewrite members_ToJson in E. unfold FromJson, FromJson_try, get_if, get_wide.
  repeat read_member. done.
Qed.

Lemma ascii_narrow w : narrow_ascii w → ascii_bytes (map byte_of w).
Proof.
  intros Ha. induction Ha as [|u w Hu _ IH]; constructor; [|exact IH]. by rewrite byte_val_of.
Qed.

Lemma dump_ToJson c :
  config_typed c → Validate c = Success tt → Forall narrow_ascii (paths c) →
  ∃ text j', dump (ToJson c) = inr text ∧ parse text = inr j' ∧ members j' = members (ToJson c).
Proof.
  intros [Hs Hl Hc Hm Hsh Hi] Hv Hp. unfold paths in Hp. rewrite !Forall_cons in Hp.
  destruct Hp as (P1 & P2 & P3 & P4 & _). apply ascii_narrow, utf8_ascii in P1, P2, P3, P4.
  apply Validate_success in Hv as (_ & _ & _ & _ & _ & _ & _ & _ & He & Hw & Hf).
  assert (∀ s, Forall (λ b, byte_val b < 128) (str_bytes s) → utf8 s = true) as Hu
    by (intros s Hb; rewrite <- (bytes_str_bytes s); by apply utf8_ascii).
  assert (utf8 (evictionPolicy c) = true) as U1
    by (rewrite He; apply Hu; vm_compute; by repeat constructor).
  assert (utf8 (cfg_writePolicy c) = true) as U2
    by (destruct Hw as [-> | ->]; apply Hu; vm_compute; by repeat constructor).
  assert (utf8 (cfg_flushPolicy c) = true) as U3
    by (destruct Hf as [-> | ->]; apply Hu; vm_compute; by repeat constructor).
  apply dump_built; [apply built_ToJson|]. rewrite members_ToJson. intros k v Hk. unfold in_width in *.
  repeat (apply lookup_insert_Some in Hk as [[_ <-]|[_ Hk]]; [first [done|lia]|]).
  by rewrite lookup_empty in Hk.
Qed.

Lemma Validate_narrowed c : Validate c = Success tt → Validate (narrowed c) = Success tt.
Proof.
  intros Hv. pose proof (Validate_success c Hv) as (_ & _ & _ & Hpipe & _). revert Hv. unfold Validate.
  cbn [narrowed schemaVersion stateDirectory logDirectory minimumLogLevel ipcPipeName cacheEnabled
       backingStoreDataFile cacheCapacityBytes cacheMaxEntryCount cacheShardCount evictionPolicy
       cfg_writePolicy cfg_flushPolicy cfg_flushIntervalSeconds].
  by rewrite !narrowed_empty, Hpipe, (narrowed_pipe _ Hpipe).
Qed.

Lemma saved_text_loads path c :
  config_typed c → Validate c = Success tt → Forall narrow_ascii (paths c) →
  ∃ text, Save_serialize c = Returned (Success text) ∧ Load path (Some text) = Success (narrowed c).
Proof.
  intros Ht Hv Hp. destruct (dump_ToJson c Ht Hv Hp) as (text & j' & Ed & Ep & Em).
  exists text. split; [unfold Save_serialize; by rewrite Hv, Ed|].
  unfold Load. by rewrite Ep, (FromJson_members c j' Ht Em), (Validate_narrowed c Hv).
Qed.

Lemma ascii_paths_narrow c : Forall ascii_path (paths c) → Forall narrow_ascii (paths c).
Proof.
  intros Hp. eapply Forall_impl; [exact Hp|]. intros w Hw. eapply Forall_impl; [exact Hw|].
  intros u Hu. cbv beta in *. rewrite Z.mod_small; lia.
Qed.

(** What is saved is loaded.  A valid configuration whose paths have ASCII low
    bytes is written, and what is read back is the same configuration with the
    code units of its paths cut to their low bytes: the very configuration when
    the paths are ASCII. *)
Theorem Save_then_Load path c :
  config_typed c → Validate c = Success tt → Forall narrow_ascii (paths c) →
  ∃ text, Save_serialize c = Returned (Success text) ∧ Load path (Some text) = Success (narrowed c) ∧
    (Forall ascii_path (paths c) → narrowed c = c).
Proof.
  intros Ht Hv Hp. destruct (saved_text_loads path c Ht Hv Hp) as (text & Hs & Hl).
  exists text. split; [done|]. split; [done|apply narrowed_id].
Qed.

(** A path that does not end in an ASCII character makes [Save] throw: the
    configuration is valid, the text is not, and no one catches the exception
    of [dump]. *)
Theorem Save_throws_on_wide_path c pre u :
  Validate c = Success tt → stateDirectory c = pre ++ [u] → narrow_ascii pre → 128 ≤ u mod 256 →
  ∃ what, Save_serialize c = Thrown what.
Proof.
  intros Hv Hd Hp Hu. unfold Save_serialize. rewrite Hv.
  assert (∃ what, dump (ToJson c) = inl what) as [what ->]; [|by exists what].
  apply (dump_refuses _ "stateDirectory" (NarrowFromWide (stateDirectory c))); [apply built_ToJson| |].
  - rewrite members_ToJson. by simplify_map_eq.
  - rewrite Hd. unfold NarrowFromWide. rewrite map_app. apply utf8_stray; [by apply ascii_narrow|].
    by rewrite byte_val_of.
Qed.

(** A property of the default and of what is read holds of the field. *)
Lemma get_if_range {T} (P : T → Prop) (j : json) k (get : json → string → string + T) default x :
  get_if j k get default = inr x → P default → (∀ y, get j k = inr y → P y) → P x.
Proof. unfold get_if. destruct (contains j k); [eauto|by intros [= <-]]. Qed.

Lemma FromJson_typed j c : FromJson j = Success c → config_typed c.
Proof.
  assert (config_typed AppConfig_default) as [D1 D2 D3 D4 D5 D6]
    by (constructor; unfold in_width; cbn; lia).
  unfold FromJson. destruct (FromJson_try j) as [|c'] eqn:E; [done|]. intros [= ->]. revert E.
  unfold FromJson_try.
  destruct (get_u32 j "schemaVersion") as [|x1] eqn:G1; [done|].
  destruct (get_wide j "stateDirectory") as [|x2]; [done|].
  destruct (get_wide j "logDirectory") as [|x3]; [done|].
  destruct (get_int j "minimumLogLevel") as [|x4] eqn:G4; [done|].
  destruct (get_wide j "ipcPipeName") as [|x5]; [done|].
  destruct (get_if j "cacheEnabled" _ _) as [|x6]; [done|].
  destruct (get_if j "backingStoreDataFile" _ _) as [|x7]; [done|].
  destruct (get_if j "cacheCapacityBytes" _ _) as [|x8] eqn:G8; [done|].
  destruct (get_if j "cacheMaxEntryCount" _ _) as [|x9] eqn:G9; [done|].
  destruct (get_if j "cacheShardCount" _ _) as [|x10] eqn:G10; [done|].
  destruct (get_if j "evictionPolicy" _ _) as [|x11]; [done|].
  destruct (get_if j "writePolicy" _ _) as [|x12]; [done|].
  destruct (get_if j "flushPolicy" _ _) as [|x13]; [done|].
  destruct (get_if j "flushIntervalSeconds" _ _) as [|x14] eqn:G14; [done|].
  intros [= <-]. split; cbn [schemaVersion minimumLogLevel cacheCapacityBytes cacheMaxEntryCount
    cacheShardCount cfg_flushIntervalSeconds].
  - by apply (get_u32_range j "schemaVersion").
  - by apply (get_int_range j "minimumLogLevel").
  - apply (get_if_range u64 _ _ _ _ _ G8 D3). intros y. apply get_u64_range.
  - apply (get_if_range u64 _ _ _ _ _ G9 D4). intros y. apply get_u64_range.
  - apply (get_if_range u32 _ _ _ _ _ G10 D5). intros y. apply get_u32_range.
  - apply (get_if_range u32 _ _ _ _ _ G14 D6). intros y. apply get_u32_range.
Qed.

Lemma loaded_options path content c :
  Load path content = Success c → options_valid (BuildEngineOptions c) ∧ u32 (cacheShardCount c).
Proof.
  unfold Load. destruct content as [text|]; [|done]. destruct (parse text) as [|parsed]; [done|].
  destruct (FromJson parsed) as [c'|] eqn:Ej; [|done]. destruct (Validate c') as [[]|] eqn:Ev; [|done].
  intros [= ->]. apply FromJson_typed in Ej as [_ _ _ _ Hsh _].
  pose proof (Validate_success c Ev) as (_ & _ & _ & _ & (Hc & _) & Hm & Hs & _).
  split; [|done]. split; [|done]. by apply (shardCount_check (BuildEngineOptions c)).
Qed.

(** The service runs with the policies the configuration names. *)
Lemma policies_as_named c :
  Validate c = Success tt →
  EvictionPolicyKind.EvictionPolicyKind_ToString EvictionPolicyKind.LeastRecentlyUsed = evictionPolicy c ∧
  WritePolicyKind_ToString (writePolicy (BuildEngineOptions c)) = cfg_writePolicy c ∧
  FlushPolicyKind_ToString (flushPolicy (BuildEngineOptions c)) = cfg_flushPolicy c.
Proof.
  intros Hv. destruct (Validate_success c Hv) as (_ & _ & _ & _ & _ & _ & _ & _ & He & Hw & Hf).
  split; [done|]. cbn. destruct Hw as [-> | ->], Hf as [-> | ->]; done.
Qed.

(** C32: A configuration that loads starts an engine.  Whatever the file says, a
    configuration [Load] returns is valid, and the options the service builds
    from it are accepted by the factory: as many shards as configured, at most
    4096, of an equal share of at most 1 TiB. *)
Theorem loaded_config_accepted {B J} path content c (b : B) (j : J) :
  Load path content = Success c →
  Validate c = Success tt ∧
  (WritePolicyKind_ToString (writePolicy (BuildEngineOptions c)) = cfg_writePolicy c ∧
   FlushPolicyKind_ToString (flushPolicy (BuildEngineOptions c)) = cfg_flushPolicy c) ∧
  CreateCacheEngine (BuildEngineOptions c) (Some b) (Some j) =
    Success (CacheEngine_new (BuildEngineOptions c) b j) ∧
  options_valid (BuildEngineOptions c) ∧
  cacheShardCount c ≤ 4096 ∧ cacheCapacityBytes c ≤ kMaxSaneCapacityBytes.
Proof.
  unfold Load. destruct content as [text|]; [|done]. destruct (parse text) as [|parsed]; [done|].
  destruct (FromJson parsed) as [c'|] eqn:Ej; [|done]. destruct (Validate c') as [[]|] eqn:Ev; [|done].
  intros [= ->]. apply FromJson_typed in Ej as [_ _ _ _ Hsh _].
  pose proof (Validate_success c Ev) as (_ & _ & _ & _ & (Hc & Hcm) & Hm & Hs & Hsm & _).
  split; [done|]. split; [by apply policies_as_named|]. split; [|split; [|done]].
  - unfold CreateCacheEngine. cbn [BuildEngineOptions shardCount capacityBytes maxEntryCount]. rewrite Hs.
    by rewrite (proj2 (Z.eqb_neq _ _) Hc), (proj2 (Z.eqb_neq _ _) Hm).
  - split; [|done]. by apply (shardCount_check (BuildEngineOptions c)).
Qed.
End spec.
