(* ===== verification/Replace.v ===== *)
(** * Replace: the replacement of a file on disk

    Models [AtomicallyReplaceFileContents] of
    src/src/Configuration/src/JsonConfigStore.cpp (the POSIX build) and the
    [Save] that ends with it, over a model of the file system: inodes and a
    directory whose updates are separate and reach the medium at their own
    time.

    Every system call is recorded, so that a power cut at any point of the
    function is a state of its trace. *)
From S2P Require Import Prelude Common Storage Shard Engine Lifecycle Config.
Open Scope Z_scope.

(** ** Paths *)

(** The character ['/']. *)
Definition slash : Ascii.ascii := Ascii.ascii_of_nat 47.

(** [find_last_of('/')]. *)
Fixpoint last_slash (path : string) : option nat :=
  match path with
  | EmptyString => None
  | String c rest =>
    match last_slash rest with
    | Some i => Some (S i)
    | None => if Ascii.eqb c slash then Some 0%nat else None
    end
  end.

(** The directory a file is in, as POSIX resolves its path. *)
Definition parent (path : string) : string :=
  match last_slash path with
  | None => "."
  | Some O => "/"
  | Some i => String.substring 0 i path
  end.

(** A file of the root directory. *)
Definition in_root (path : string) : Prop := last_slash path = Some 0%nat.

Lemma last_slash_append path suffix :
  last_slash suffix = None → last_slash (String.append path suffix) = last_slash path.
Proof. intros Hs. induction path as [|c path IH]; [done|].
  change (String.append (String c path) suffix) with (String c (String.append path suffix)). cbn [last_slash]. by rewrite IH.
Qed.

Lemma last_slash_length path i : last_slash path = Some i → (i < String.length path)%nat.
Proof.
  revert i. induction path as [|c path IH]; intros i; [done|]. cbn.
  destruct (last_slash path) as [j|]; [intros [= <-]; specialize (IH j eq_refl); lia|].
  destruct (Ascii.eqb c slash); [intros [= <-]; lia|done].
Qed.

Lemma substring_append i : ∀ path suffix,
  (i ≤ String.length path)%nat → String.substring 0 i (String.append path suffix) = String.substring 0 i path.
Proof.
  induction i as [|i IH]; intros path suffix Hi; [by destruct path, suffix|].
  destruct path as [|c path]; [cbn in Hi; lia|]. cbn [String.length] in Hi.
  change (String c (String.substring 0 i (String.append path suffix)) = String c (String.substring 0 i path)).
  f_equal. apply IH. lia.
Qed.

Lemma parent_append path suffix : last_slash suffix = None → parent (String.append path suffix) = parent path.
Proof.
  intros Hs. unfold parent. rewrite last_slash_append by done. destruct (last_slash path) as [[|i]|] eqn:E; try done.
  apply substring_append. apply last_slash_length in E. lia.
Qed.

(** ** The file system *)

Record INode := mkINode { in_stable : bytes; in_unsynced : list FileOp }.

(** The content of an inode, and what a power cut leaves of it: those of a file
    of Storage.v. *)
Definition in_file (i : INode) : FILE := mkFILE (in_stable i) (in_unsynced i) 0 false [].
Definition in_content (i : INode) : bytes := FILE_content (in_file i).

Inductive DirOp := Link (name : string) (ino : nat) | Unlink (name : string) | Rename (from to : string).

Abbreviation Directory := (gmap string nat).

Definition apply_dir (m : Directory) (o : DirOp) : Directory :=
  match o with
  | Link name ino => <[name := ino]> m
  | Unlink name => delete name m
  | Rename from to =>
    match m !! from with Some ino => <[to := ino]> (delete from m) | None => m end
  end.

(** What a system call may meet: nothing, an error, a short count. *)
Inductive Fault := NoFault | Fails | Short (n : nat).

Record Disk := mkDisk {
  inodes : gmap nat INode;
  dir_stable : Directory;
  dir_unsynced : list DirOp;
  disk_faults : list Fault
}.

Definition dir_of (m : Directory) (ops : list DirOp) : Directory := foldl apply_dir m ops.
Definition dir (d : Disk) : Directory := dir_of (dir_stable d) (dir_unsynced d).

(** What a reader finds under a name. *)
Definition read_name (d : Disk) (name : string) : option bytes :=
  ino ← dir d !! name; i ← inodes d !! ino; Some (in_content i).

(** What a reader finds after a power cut: some of the updates of the directory
    were stored, in order, and what was stored of the file. *)
Definition disk_crash (d : Disk) (name : string) (found : option bytes) : Prop :=
  ∃ stored lost, dir_unsynced d = stored ++ lost ∧
    match dir_of (dir_stable d) stored !! name with
    | None => found = None
    | Some ino => ∃ i c, inodes d !! ino = Some i ∧ FILE_crash (in_file i) c ∧ found = Some c
    end.

(** ** System calls *)

Definition disk_fault (d : Disk) : Fault * Disk :=
  match disk_faults d with
  | [] => (NoFault, d)
  | x :: xs => (x, mkDisk (inodes d) (dir_stable d) (dir_unsynced d) xs)
  end.

Definition with_inode (d : Disk) (ino : nat) (i : INode) : Disk :=
  mkDisk (<[ino := i]> (inodes d)) (dir_stable d) (dir_unsynced d) (disk_faults d).

Definition with_dir_op (d : Disk) (o : DirOp) : Disk :=
  mkDisk (inodes d) (dir_stable d) (dir_unsynced d ++ [o]) (disk_faults d).

Definition add_op (i : INode) (o : FileOp) : INode := mkINode (in_stable i) (in_unsynced i ++ [o]).

(** [open(name, O_WRONLY | O_CREAT | O_TRUNC)]: the inode, or [None] for -1. *)
Definition sys_open (name : string) (d : Disk) : option nat * Disk :=
  let '(x, d) := disk_fault d in
  match x with
  | Fails => (None, d)
  | NoFault | Short _ =>
    match dir d !! name with
    | Some ino =>
      match inodes d !! ino with
      | Some i => (Some ino, with_inode d ino (add_op i (OpLength 0)))
      | None => (None, d)
      end
    | None =>
      let ino := fresh (dom (inodes d)) in
      (Some ino, with_dir_op (with_inode d ino (mkINode [] [])) (Link name ino))
    end
  end.

(** [write] at the offset [pos] of a non-empty buffer: a count of at least one
    byte, or [None] for -1. *)
Definition sys_write (ino : nat) (pos : Z) (data : bytes) (d : Disk) : option Z * Disk :=
  let '(x, d) := disk_fault d in
  match x, inodes d !! ino with
  | Fails, _ | _, None => (None, d)
  | _, Some i =>
    let n := match x with Short k => Nat.max 1 (Nat.min k (length data)) | _ => length data end in
    (Some (Z.of_nat n), with_inode d ino (add_op i (OpWrite pos (take n data))))
  end.

Definition sys_fsync (ino : nat) (d : Disk) : Z * Disk :=
  let '(x, d) := disk_fault d in
  match x, inodes d !! ino with
  | Fails, _ | _, None => (-1, d)
  | _, Some i => (0, with_inode d ino (mkINode (in_content i) []))
  end.

Definition sys_unlink (name : string) (d : Disk) : Z * Disk :=
  let '(x, d) := disk_fault d in
  match x with Fails => (-1, d) | _ => (0, with_dir_op d (Unlink name)) end.

Definition sys_rename (from to : string) (d : Disk) : Z * Disk :=
  let '(x, d) := disk_fault d in
  match x with Fails => (-1, d) | _ => (0, with_dir_op d (Rename from to)) end.

(** [open(path, O_RDONLY)] of a directory; an empty path names nothing
    ([ENOENT]). *)
Definition sys_opendir (path : string) (d : Disk) : option string * Disk :=
  let '(x, d) := disk_fault d in
  match x with
  | Fails => (None, d)
  | _ => match path with EmptyString => (None, d) | _ => (Some path, d) end
  end.

(** The directories an update changes. *)
Definition updates (path : string) (o : DirOp) : bool :=
  match o with
  | Link name _ | Unlink name => bool_decide (parent name = path)
  | Rename from to => bool_decide (parent from = path) || bool_decide (parent to = path)
  end.

(** The updates behind the last one of a directory: those that [fsync] of the
    directory does not force, updates being stored in order. *)
Fixpoint unforced (path : string) (ops : list DirOp) : list DirOp :=
  match ops with
  | [] => []
  | o :: rest => if existsb (updates path) ops then unforced path rest else ops
  end.

Definition forced (path : string) (ops : list DirOp) : list DirOp :=
  take (length ops - length (unforced path ops)) ops.

Definition sys_fsyncdir (path : string) (d : Disk) : Z * Disk :=
  let '(x, d) := disk_fault d in
  match x with
  | Fails => (-1, d)
  | _ => (0, mkDisk (inodes d) (dir_of (dir_stable d) (forced path (dir_unsynced d)))
                    (unforced path (dir_unsynced d)) (disk_faults d))
  end.

(** ** Programs of system calls *)

(** The disk after each call, the result, the disk at the end. *)
Definition Sys (A : Type) : Type := Disk → list Disk * A * Disk.

#[export] Instance Sys_ret : MRet Sys := λ A a d, ([], a, d).
#[export] Instance Sys_bind : MBind Sys := λ A B f m d,
  let '(tr, a, d) := m d in
  let '(tr', b, d) := f a d in
  (tr ++ tr', b, d).

Definition call {A} (f : Disk → A * Disk) : Sys A := λ d, let '(a, d) := f d in ([d], a, d).

Definition io_failure (msg : string) : Result unit := Failure (mkError ErrorCode.IoError msg 0).

(** The loop of [write]s: whether all was written; [None] without fuel. *)
Fixpoint write_loop (fuel : nat) (ino : nat) (content : bytes) (totalWritten : Z) : Sys (option bool) :=
  if zlen content <=? totalWritten then mret (Some true) else
  match fuel with
  | O => mret None
  | S fuel =>
    n ← call (sys_write ino totalWritten (drop (Z.to_nat totalWritten) content));
    match n with
    | None => mret (Some false)
    | Some n => write_loop fuel ino content (totalWritten + n)
    end
  end.

Definition temp_path (targetPath : string) : string := String.append targetPath ".tmp".

(** The fuel: every turn writes a byte at least.  [close] has no effect that
    the disk shows. *)
Definition AtomicallyReplaceFileContents (targetPath : string) (content : bytes) : Sys (Result unit) :=
  let tempPath := temp_path targetPath in
  fd ← call (sys_open tempPath);
  match fd with
  | None => mret (io_failure "AtomicallyReplaceFileContents: open (temp) failed")
  | Some fd =>
    written ← write_loop (length content) fd content 0;
    match written with
    | None => mret (Failure Error_default)
    | Some false =>
      _ ← call (sys_unlink tempPath);
      mret (io_failure "AtomicallyReplaceFileContents: write (temp) failed")
    | Some true =>
      synced ← call (sys_fsync fd);
      if negb (synced =? 0) then
        _ ← call (sys_unlink tempPath);
        mret (io_failure "AtomicallyReplaceFileContents: fsync (temp) failed")
      else
        renamed ← call (sys_rename tempPath targetPath);
        if negb (renamed =? 0) then
          _ ← call (sys_unlink tempPath);
          mret (io_failure "AtomicallyReplaceFileContents: rename failed")
        else
          let dirPath := match last_slash targetPath with None => "." | Some i => String.substring 0 i targetPath end in
          dirFd ← call (sys_opendir dirPath);
          match dirFd with
          | Some dirFd =>
            _ ← call (sys_fsyncdir dirFd);
            mret (Success tt)
          | None => mret (Success tt)
          end
    end
  end.

(** [Save] of the configuration store at [path]. *)
Definition Save {json} `{NlohmannJson json} (path : string) (config : AppConfig) : Sys (Outcome (Result unit)) :=
  match Save_serialize config with
  | Thrown what => mret (Thrown what)
  | Returned (Failure e) => mret (Returned (Failure e))
  | Returned (Success serialized) =>
    r ← AtomicallyReplaceFileContents path (str_bytes serialized);
    mret (Returned r)
  end.

(** ** Reasoning about programs of system calls *)

(** From a disk with [P], every disk of the trace has [I] and the end [Q]. *)
Definition hoare {A} (P : Disk → Prop) (m : Sys A) (I : Disk → Prop) (Q : A → Disk → Prop) : Prop :=
  ∀ d, P d → let '(tr, a, d') := m d in Forall I tr ∧ Q a d'.

Lemma hoare_ret {A} (P : Disk → Prop) I (Q : A → Disk → Prop) a : (∀ d, P d → Q a d) → hoare P (mret a) I Q.
Proof. intros HQ d HP. split; [constructor|by apply HQ]. Qed.

Lemma hoare_call {A} (P : Disk → Prop) I (Q : A → Disk → Prop) f :
  (∀ d a d', P d → f d = (a, d') → I d' ∧ Q a d') → hoare P (call f) I Q.
Proof.
  intros Hf d HP. unfold call. destruct (f d) as [a d'] eqn:E. destruct (Hf d a d' HP E). split; [|done].
  by repeat constructor.
Qed.

Lemma hoare_bind {A B} P I (R : A → Disk → Prop) (Q : B → Disk → Prop) (m : Sys A) f :
  hoare P m I R → (∀ a, hoare (R a) (f a) I Q) → hoare P (m ≫= f) I Q.
Proof.
  intros Hm Hf d HP. specialize (Hm d HP). unfold mbind, Sys_bind. destruct (m d) as [[tr a] d1].
  destruct Hm as [Htr HR]. specialize (Hf a d1 HR). destruct (f a d1) as [[tr' b] d2].
  destruct Hf as [Htr' HQ]. split; [by apply Forall_app|done].
Qed.

Lemma hoare_weaken {A} (P P' : Disk → Prop) I (Q : A → Disk → Prop) m :
  (∀ d, P' d → P d) → hoare P m I Q → hoare P' m I Q.
Proof. intros HP Hm d Hd. by apply Hm, HP. Qed.

(** The directories a power cut may leave. *)
Definition stored_dir (d : Disk) (p : Directory) : Prop :=
  ∃ stored lost, dir_unsynced d = stored ++ lost ∧ p = dir_of (dir_stable d) stored.

Lemma stored_dir_current d : stored_dir d (dir d).
Proof. exists (dir_unsynced d), []. by rewrite app_nil_r. Qed.

Lemma stored_dir_op d o p :
  stored_dir (with_dir_op d o) p ↔ stored_dir d p ∨ p = apply_dir (dir d) o.
Proof.
  unfold stored_dir, with_dir_op. cbn [dir_unsynced dir_stable]. split.
  - intros (stored & lost & E & ->). destruct lost as [|x lost _] using rev_ind.
    + rewrite app_nil_r in E. subst stored. right. unfold dir, dir_of. by rewrite foldl_app.
    + left. rewrite app_assoc in E. apply app_inj_tail in E as [E _]. by exists stored, lost.
  - intros [(stored & lost & E & ->)| ->].
    + exists stored, (lost ++ [o]). by rewrite E, app_assoc.
    + exists (dir_unsynced d ++ [o]), []. rewrite app_nil_r. split; [done|].
      unfold dir, dir_of. by rewrite foldl_app.
Qed.

Lemma disk_crash_stored d name found :
  disk_crash d name found ↔
  ∃ p, stored_dir d p ∧
    match p !! name with
    | None => found = None
    | Some ino => ∃ i c, inodes d !! ino = Some i ∧ FILE_crash (in_file i) c ∧ found = Some c
    end.
Proof.
  split.
  - intros (stored & lost & E & Hm). eexists. split; [by exists stored, lost|done].
  - intros (p & (stored & lost & E & ->) & Hm). by exists stored, lost.
Qed.

(** Every name leads to an inode. *)
Definition disk_wf (d : Disk) : Prop :=
  ∀ p name ino, stored_dir d p → p !! name = Some ino → is_Some (inodes d !! ino).

Lemma disk_fault_spec d x d1 :
  disk_fault d = (x, d1) →
  inodes d1 = inodes d ∧ dir_stable d1 = dir_stable d ∧ dir_unsynced d1 = dir_unsynced d ∧
  (disk_faults d = [] → x = NoFault ∧ disk_faults d1 = []).
Proof.
  unfold disk_fault. destruct (disk_faults d) eqn:E; intros [= <- <-]; [|done]. split_and!; try done.
Qed.

(** What does not depend on the faults to come. *)
Definition same_disk (d d1 : Disk) : Prop :=
  inodes d1 = inodes d ∧ dir_stable d1 = dir_stable d ∧ dir_unsynced d1 = dir_unsynced d.

Lemma same_stored d d1 : same_disk d d1 → ∀ p, stored_dir d1 p ↔ stored_dir d p.
Proof. intros (_ & S & U) p. unfold stored_dir. by rewrite S, U. Qed.

Lemma same_crash d d1 : same_disk d d1 → ∀ name o, disk_crash d1 name o ↔ disk_crash d name o.
Proof. intros (N & S & U) name o. unfold disk_crash. by rewrite N, S, U. Qed.

Lemma same_dir d d1 : same_disk d d1 → dir d1 = dir d.
Proof. intros (_ & S & U). unfold dir. by rewrite S, U. Qed.

Lemma same_read d d1 : same_disk d d1 → ∀ name, read_name d1 name = read_name d name.
Proof. intros Hs name. unfold read_name. rewrite (same_dir _ _ Hs). destruct Hs as (-> & _). done. Qed.

Lemma with_inode_stored d ino i p : stored_dir (with_inode d ino i) p ↔ stored_dir d p.
Proof. done. Qed.

(** An inode that no stored directory has under the name does not show there. *)
Lemma with_inode_crash d ino i name o :
  (∀ p, stored_dir d p → p !! name ≠ Some ino) →
  disk_crash (with_inode d ino i) name o → disk_crash d name o.
Proof.
  intros Hn. rewrite !disk_crash_stored. intros (p & Hp & Hm). exists p. split; [done|].
  destruct (p !! name) as [ino'|] eqn:E; [|done]. cbn [inodes with_inode] in Hm.
  rewrite lookup_insert_ne in Hm; [done|]. intros ->. by apply (Hn p Hp).
Qed.

Lemma with_inode_read d ino i name : dir d !! name ≠ Some ino → read_name (with_inode d ino i) name = read_name d name.
Proof.
  intros Hn. unfold read_name. change (dir (with_inode d ino i)) with (dir d).
  destruct (dir d !! name) as [ino'|] eqn:E; [|done]. cbn [mbind option_bind inodes with_inode].
  rewrite lookup_insert_ne; [done|]. by intros ->.
Qed.

Lemma with_inode_wf d ino i : disk_wf d → disk_wf (with_inode d ino i).
Proof.
  intros Hw p name ino' Hp E. cbn [inodes with_inode]. destruct (decide (ino = ino')) as [->|].
  - rewrite lookup_insert_eq. done.
  - rewrite lookup_insert_ne by done. by apply (Hw p name).
Qed.

Lemma dir_op_crash d o name found :
  apply_dir (dir d) o !! name = dir d !! name → disk_crash (with_dir_op d o) name found → disk_crash d name found.
Proof.
  intros Hn. rewrite !disk_crash_stored. intros (p & Hp & Hm).
  apply stored_dir_op in Hp as [Hp| ->]; [by exists p|]. exists (dir d).
  split; [apply stored_dir_current|]. by rewrite Hn in Hm.
Qed.

Lemma dir_with_op d o : dir (with_dir_op d o) = apply_dir (dir d) o.
Proof. unfold dir, dir_of, with_dir_op. cbn. by rewrite foldl_app. Qed.

Lemma dir_op_wf d o :
  disk_wf d → (∀ name ino, apply_dir (dir d) o !! name = Some ino → is_Some (inodes d !! ino)) →
  disk_wf (with_dir_op d o).
Proof.
  intros Hw Ho p name ino Hp E. apply stored_dir_op in Hp as [Hp| ->]; [by apply (Hw p name)|by apply (Ho name)].
Qed.

Lemma dir_op_read d o name :
  apply_dir (dir d) o !! name = dir d !! name → read_name (with_dir_op d o) name = read_name d name.
Proof. intros Hn. unfold read_name. by rewrite dir_with_op, Hn. Qed.

Lemma parent_temp_path target : parent (temp_path target) = parent target.
Proof. by apply parent_append. Qed.

(** The path [dirPath] is the directory of the file, but for a file of the root. *)
Lemma dirPath_parent target :
  ¬ in_root target →
  match last_slash target with None => "." | Some i => String.substring 0 i target end = parent target ∧
  parent target ≠ ""%string.
Proof.
  unfold in_root, parent. destruct (last_slash target) as [[|i]|] eqn:E; [done|intros _|done]. split; [done|].
  apply last_slash_length in E. destruct target as [|c target]; [cbn in E; lia|done].
Qed.

(** Forcing a directory keeps what is seen, and of what a power cut may leave
    some. *)
Lemma unforced_suffix path ops : ∃ front, ops = front ++ unforced path ops.
Proof.
  induction ops as [|o ops [front IH]]; [by exists []|]. cbn [unforced].
  destruct (existsb _ _); [|by exists []]. exists (o :: front). cbn. by rewrite <- IH.
Qed.

Lemma forced_unforced path ops : forced path ops ++ unforced path ops = ops.
Proof.
  unfold forced. destruct (unforced_suffix path ops) as [front E]. set (u := unforced path ops) in *. clearbody u. subst ops.
  rewrite length_app. replace (length front + length u - length u)%nat with (length front) by lia.
  by rewrite take_app_length.
Qed.

Lemma unforced_last path ops o : updates path o = true → unforced path (ops ++ [o]) = [].
Proof.
  intros Ho. induction ops as [|o' ops IH]; cbn [app unforced existsb]; [by rewrite Ho|].
  assert (existsb (updates path) (ops ++ [o]) = true) as Hex.
  { rewrite existsb_app. cbn. by rewrite Ho, orb_true_r. }
  by rewrite Hex, orb_true_r.
Qed.

Definition synced_dir (path : string) (d : Disk) : Disk :=
  mkDisk (inodes d) (dir_of (dir_stable d) (forced path (dir_unsynced d))) (unforced path (dir_unsynced d)) (disk_faults d).

Lemma synced_dir_view path d : dir (synced_dir path d) = dir d.
Proof.
  unfold dir, synced_dir, dir_of. cbn [dir_stable dir_unsynced]. rewrite <- foldl_app. by rewrite forced_unforced.
Qed.

Lemma synced_dir_stored path d p : stored_dir (synced_dir path d) p → stored_dir d p.
Proof.
  intros (st & lost & El & ->). cbn [synced_dir dir_unsynced dir_stable] in *.
  exists (forced path (dir_unsynced d) ++ st), lost. rewrite <- app_assoc, <- El, forced_unforced. split; [done|].
  unfold dir_of. by rewrite foldl_app.
Qed.

Lemma temp_path_ne target : temp_path target ≠ target.
Proof.
  unfold temp_path. induction target as [|c s IH]; [done|]. cbn. intros [= E]. by apply IH.
Qed.

(** ** The phases of a replacement *)

Section replace.
Context (d0 : Disk) (target tmp : string) (content : bytes).
Hypothesis tmp_ne : tmp ≠ target.

(** A power cut shows what one before the replacement would have shown, or the
    new content. *)
Definition old_or_new (d : Disk) : Prop :=
  ∀ found, disk_crash d target found → disk_crash d0 target found ∨ found = Some content.

Record core (d : Disk) : Prop := {
  c_wf : disk_wf d;
  c_crash : old_or_new d;
  c_reliable : disk_faults d0 = [] → disk_faults d = []
}.

(** The inode of the temporary file never was the target's. *)
Definition apart (d : Disk) : Prop :=
  ∀ p ino, dir d !! tmp = Some ino → stored_dir d p → p !! target ≠ Some ino.

Record untouched (d : Disk) : Prop := {
  u_core : core d;
  u_read : read_name d target = read_name d0 target;
  u_apart : apart d
}.

(** The temporary file is the inode [ino], which holds [bs]. *)
Record working (ino : nat) (bs : bytes) (d : Disk) : Prop := {
  w_untouched : untouched d;
  w_temp : dir d !! tmp = Some ino;
  w_inode : ∃ i, inodes d !! ino = Some i ∧ in_content i = bs
}.

(** The new content is in place, and stored as far as the inode goes. *)
Record replaced (d : Disk) : Prop := {
  r_core : core d;
  r_temp : dir d !! tmp = None;
  r_target : ∃ ino, dir d !! target = Some ino ∧ inodes d !! ino = Some (mkINode content []);
  r_last : dir_unsynced d = [] ∨ ∃ ops, dir_unsynced d = ops ++ [Rename tmp target]
}.

Lemma same_disk_refl d x d1 : disk_fault d = (x, d1) → same_disk d d1.
Proof. intros E. by apply disk_fault_spec in E as (? & ? & ? & _). Qed.

Lemma core_fault d x d1 : core d → disk_fault d = (x, d1) → core d1 ∧ (x = Fails → disk_faults d0 ≠ []).
Proof.
  intros [W C R] E. pose proof (same_disk_refl _ _ _ E) as S. apply disk_fault_spec in E as (N & _ & _ & Hr).
  split.
  - split.
    + intros p name ino Hp. rewrite N. apply (W p name), (same_stored _ _ S), Hp.
    + intros found Hf. by apply C, (same_crash _ _ S).
    + intros H0. by apply Hr, R.
  - intros -> H0. by destruct (Hr (R H0)).
Qed.

Lemma untouched_fault d x d1 :
  untouched d → disk_fault d = (x, d1) → untouched d1 ∧ (x = Fails → disk_faults d0 ≠ []).
Proof.
  intros [C Hr Ha] E. pose proof (same_disk_refl _ _ _ E) as S. destruct (core_fault _ _ _ C E) as [C1 Hx].
  split; [|done]. split; [done| |].
  - by rewrite (same_read _ _ S).
  - intros p ino Ht Hp. rewrite (same_dir _ _ S) in Ht. apply (Ha p ino Ht), (same_stored _ _ S), Hp.
Qed.

Lemma working_fault ino bs d x d1 :
  working ino bs d → disk_fault d = (x, d1) → working ino bs d1 ∧ (x = Fails → disk_faults d0 ≠ []).
Proof.
  intros [U Ht Hi] E. destruct (untouched_fault _ _ _ U E) as [U1 Hx].
  pose proof (same_disk_refl _ _ _ E) as S. split; [|done].
  split; [done|by rewrite (same_dir _ _ S)|]. destruct S as (-> & _). done.
Qed.

Lemma working_not_target ino bs d p : working ino bs d → stored_dir d p → p !! target ≠ Some ino.
Proof. intros [[_ _ Ha] Ht _]. by apply Ha. Qed.

(** The temporary file may be changed. *)
Lemma working_inode ino bs d i :
  working ino bs d → working ino (in_content i) (with_inode d ino i).
Proof.
  intros W. pose proof (λ p, working_not_target ino bs d p W) as Hn. destruct W as [[[Wf C R] Hr Ha] Ht _].
  split; [split; [split| |]|done|].
  - by apply with_inode_wf.
  - intros found Hf. by apply C, (with_inode_crash d ino i).
  - done.
  - rewrite with_inode_read; [done|]. apply Hn, stored_dir_current.
  - done.
  - exists i. split; [|done]. cbn. by rewrite lookup_insert_eq.
Qed.

(** *** The system calls, phase by phase *)

Lemma open_rule :
  hoare untouched (call (sys_open tmp)) old_or_new
    (λ fd d, match fd with
             | Some ino => working ino [] d
             | None => untouched d ∧ disk_faults d0 ≠ []
             end).
Proof.
  apply hoare_call. intros d a d' U. unfold sys_open. destruct (disk_fault d) as [x d1] eqn:E.
  destruct (untouched_fault _ _ _ U E) as [U1 Hx]. clear U E.
  assert ((None, d1) = (a, d') → x = Fails → old_or_new d' ∧
    match a with Some ino => working ino [] d' | None => untouched d' ∧ disk_faults d0 ≠ [] end) as Hfail.
  { intros [= <- <-] ->. split; [apply U1|]. split; [done|]. by apply Hx. }
  assert (match dir d1 !! tmp with
          | Some ino => match inodes d1 !! ino with
                        | Some i => (Some ino, with_inode d1 ino (add_op i (OpLength 0)))
                        | None => (None, d1) end
          | None => let ino := fresh (dom (inodes d1)) in
                    (Some ino, with_dir_op (with_inode d1 ino (mkINode [] [])) (Link tmp ino))
          end = (a, d') → old_or_new d' ∧
    match a with Some ino => working ino [] d' | None => untouched d' ∧ disk_faults d0 ≠ [] end) as Hok.
  2:{ destruct x; [exact Hok|intros Ee; by apply Hfail|exact Hok]. }
  clear Hfail Hx. destruct (dir d1 !! tmp) as [ino|] eqn:Et.
  - pose proof (c_wf _ (u_core _ U1) _ _ _ (stored_dir_current d1) Et) as [i Ei]. rewrite Ei.
    intros [= <- <-].
    assert (working ino (in_content (add_op i (OpLength 0))) (with_inode d1 ino (add_op i (OpLength 0)))) as W.
    { apply (working_inode _ (in_content i)). split; [done|done|by exists i]. }
    split; [apply W|].
    assert (in_content (add_op i (OpLength 0)) = []) as Ec
      by (unfold in_content, FILE_content; cbn; rewrite foldl_app; apply resize_0).
    by rewrite Ec in W.
  - cbv zeta. set (ino := fresh (dom (inodes d1))). intros [= <- <-].
    assert (inodes d1 !! ino = None) as Hfresh by (apply not_elem_of_dom, is_fresh).
    destruct U1 as [[Wf C R] Hr Ha].
    assert (∀ p name, stored_dir d1 p → p !! name ≠ Some ino) as Hn.
    { intros p name Hp En. destruct (Wf p name ino Hp En) as [i Ei]. congruence. }
    set (d2 := with_inode d1 ino (mkINode [] [])).
    assert (apply_dir (dir d2) (Link tmp ino) !! target = dir d2 !! target) as Htgt
      by (cbn; by apply lookup_insert_ne).
    assert (old_or_new (with_dir_op d2 (Link tmp ino))) as Cd.
    { intros found Hf. apply C. apply (with_inode_crash d1 ino (mkINode [] [])); [by intros; apply Hn|].
      by apply (dir_op_crash d2 (Link tmp ino)). }
    split; [done|]. split; [split; [split| |]|..].
    + apply dir_op_wf; [by apply with_inode_wf|]. intros name ino'. cbn. intros E.
      apply lookup_insert_Some in E as [[<- <-]|[_ E]]; [by rewrite lookup_insert_eq|].
      rewrite lookup_insert_ne; [by apply (Wf _ name _ (stored_dir_current d1))|].
      intros <-. by apply (Hn _ name (stored_dir_current d1)).
    + done.
    + done.
    + rewrite dir_op_read by done. unfold d2. rewrite with_inode_read; [done|]. apply Hn, stored_dir_current.
    + intros p ino' Ht Hp. rewrite dir_with_op in Ht. cbn in Ht. rewrite lookup_insert_eq in Ht. injection Ht as <-.
      apply stored_dir_op in Hp as [Hp| ->]; [by apply Hn|]. rewrite Htgt. apply Hn, (stored_dir_current d1).
    + rewrite dir_with_op. cbn. by rewrite lookup_insert_eq.
    + exists (mkINode [] []). split; [|done]. cbn. by rewrite lookup_insert_eq.
Qed.

(** More of the content is appended to what the temporary file has. *)
Lemma working_append ino total n i d :
  0 ≤ total ≤ zlen content → working ino (take (Z.to_nat total) content) d → inodes d !! ino = Some i →
  working ino (take (Z.to_nat total + n) content)
    (with_inode d ino (add_op i (OpWrite total (take n (drop (Z.to_nat total) content))))).
Proof.
  intros Ht W Ei. set (o := OpWrite _ _). pose proof (working_inode _ _ _ (add_op i o) W) as W2.
  destruct (w_inode _ _ _ W) as (i' & Ei' & Ec). rewrite Ei in Ei'. injection Ei' as <-.
  replace (take (Z.to_nat total + n) content) with (in_content (add_op i o)); [done|].
  unfold in_content, FILE_content, add_op. cbn [in_file in_unsynced stable unsynced in_stable].
  rewrite foldl_app. cbn [foldl apply_op]. change (foldl apply_op (in_stable i) (in_unsynced i)) with (in_content i).
  rewrite Ec. unfold o. cbn [apply_op].
  assert (total = zlen (take (Z.to_nat total) content)) as Hz by (unfold zlen in *; rewrite length_take; lia).
  pose proof (write_at_end (take (Z.to_nat total) content) (take n (drop (Z.to_nat total) content))) as Hw.
  rewrite <- Hz in Hw. rewrite Hw. apply take_take_drop.
Qed.

Lemma write_rule ino total :
  0 ≤ total < zlen content →
  hoare (working ino (take (Z.to_nat total) content))
    (call (sys_write ino total (drop (Z.to_nat total) content))) old_or_new
    (λ n d, match n with
            | Some n => 0 < n ∧ total + n ≤ zlen content ∧ working ino (take (Z.to_nat (total + n)) content) d
            | None => (∃ bs, working ino bs d) ∧ disk_faults d0 ≠ []
            end).
Proof.
  intros Ht. apply hoare_call. intros d a d' W. unfold sys_write. destruct (disk_fault d) as [x d1] eqn:E.
  destruct (working_fault _ _ _ _ _ W E) as [W1 Hx]. clear W E.
  destruct (w_inode _ _ _ W1) as (i & Ei & _). rewrite Ei. set (data := drop (Z.to_nat total) content).
  assert (0 < length data)%nat as Hd by (unfold data, zlen in *; rewrite length_drop; lia).
  assert (∀ n, (0 < n ≤ length data)%nat →
    (Some (Z.of_nat n), with_inode d1 ino (add_op i (OpWrite total (take n data)))) = (a, d') →
    old_or_new d' ∧ match a with
      | Some n => 0 < n ∧ total + n ≤ zlen content ∧ working ino (take (Z.to_nat (total + n)) content) d'
      | None => (∃ bs, working ino bs d') ∧ disk_faults d0 ≠ [] end) as Hok.
  { intros n Hn [= <- <-]. assert (0 ≤ total ≤ zlen content) as Ht' by lia.
    pose proof (working_append ino total n i d1 Ht' W1 Ei) as W2. split; [apply W2|]. split; [lia|].
    replace (Z.to_nat (total + Z.of_nat n)) with (Z.to_nat total + n)%nat by lia. split; [|done].
    unfold data, zlen in *. rewrite length_drop in Hn. lia. }
  destruct x.
  - apply Hok. lia.
  - intros [= <- <-]. split; [apply W1|]. split; [by eexists|]. by apply Hx.
  - apply Hok. lia.
Qed.

Lemma write_loop_rule fuel ino total :
  0 ≤ total ≤ zlen content → (Z.to_nat (zlen content - total) ≤ fuel)%nat →
  hoare (working ino (take (Z.to_nat total) content)) (write_loop fuel ino content total) old_or_new
    (λ r d, match r with
            | Some true => working ino content d
            | Some false => (∃ bs, working ino bs d) ∧ disk_faults d0 ≠ []
            | None => False
            end).
Proof.
  revert total. induction fuel as [|fuel IH]; intros total Ht Hf; cbn [write_loop];
    destruct (Z.leb_spec (zlen content) total) as [Hle|Hlt];
    try (apply hoare_ret; intros d W; rewrite take_ge in W by (unfold zlen in *; lia); exact W); [lia|].
  eapply hoare_bind; [apply write_rule; lia|]. intros [n|].
  - intros d (Hn & Hle & W). apply (IH (total + n)); [lia|lia|done].
  - by apply hoare_ret.
Qed.

Lemma fsync_rule ino :
  hoare (working ino content) (call (sys_fsync ino)) old_or_new
    (λ r d, working ino content d ∧
            if r =? 0 then inodes d !! ino = Some (mkINode content []) else disk_faults d0 ≠ []).
Proof.
  apply hoare_call. intros d a d' W. unfold sys_fsync. destruct (disk_fault d) as [x d1] eqn:E.
  destruct (working_fault _ _ _ _ _ W E) as [W1 Hx]. clear W E.
  destruct (w_inode _ _ _ W1) as (i & Ei & Ec). rewrite Ei.
  assert ((0, with_inode d1 ino (mkINode (in_content i) [])) = (a, d') → old_or_new d' ∧ working ino content d' ∧
    if a =? 0 then inodes d' !! ino = Some (mkINode content []) else disk_faults d0 ≠ []) as Hok.
  { intros [= <- <-]. rewrite Ec. pose proof (working_inode _ _ _ (mkINode content []) W1) as W2.
    change (in_content (mkINode content [])) with content in W2. split; [apply W2|]. split; [done|].
    cbn. by rewrite lookup_insert_eq. }
  destruct x; [exact Hok| |exact Hok]. intros [= <- <-]. split; [apply W1|]. split; [done|]. by apply Hx.
Qed.

(** Every failure path removes the temporary file. *)
Lemma unlink_rule ino bs :
  hoare (working ino bs) (call (sys_unlink tmp)) old_or_new (λ _ d, untouched d).
Proof.
  apply hoare_call. intros d a d' W. unfold sys_unlink. destruct (disk_fault d) as [x d1] eqn:E.
  destruct (working_fault _ _ _ _ _ W E) as [W1 _]. clear W E.
  assert ((0, with_dir_op d1 (Unlink tmp)) = (a, d') → old_or_new d' ∧ untouched d') as Hok.
  { intros [= <- <-]. destruct W1 as [[[Wf C R] Hr Ha] _ _].
    assert (apply_dir (dir d1) (Unlink tmp) !! target = dir d1 !! target) as Htgt
      by (cbn; by apply lookup_delete_ne).
    assert (old_or_new (with_dir_op d1 (Unlink tmp))) as Cd
      by (intros found Hf; by apply C, (dir_op_crash d1 (Unlink tmp))).
    split; [done|]. split; [split| |].
    - apply dir_op_wf; [done|]. intros name ino'. cbn. intros En. apply lookup_delete_Some in En as [_ En].
      by apply (Wf _ name _ (stored_dir_current d1)).
    - done.
    - done.
    - by rewrite dir_op_read.
    - intros p ino' Ht. rewrite dir_with_op in Ht. cbn in Ht. by rewrite lookup_delete_eq in Ht. }
  destruct x; [exact Hok| |exact Hok]. intros [= <- <-]. split; apply W1.
Qed.

Lemma rename_rule ino :
  hoare (λ d, working ino content d ∧ inodes d !! ino = Some (mkINode content []))
    (call (sys_rename tmp target)) old_or_new
    (λ r d, if r =? 0 then replaced d else working ino content d ∧ disk_faults d0 ≠ []).
Proof.
  apply hoare_call. intros d a d' [W Hi]. unfold sys_rename. destruct (disk_fault d) as [x d1] eqn:E.
  destruct (working_fault _ _ _ _ _ W E) as [W1 Hx].
  assert (inodes d1 !! ino = Some (mkINode content [])) as Hi1
    by (apply disk_fault_spec in E as (-> & _); done).
  clear W E Hi.
  assert ((0, with_dir_op d1 (Rename tmp target)) = (a, d') → old_or_new d' ∧
    if a =? 0 then replaced d' else working ino content d' ∧ disk_faults d0 ≠ []) as Hok.
  { intros [= <- <-]. destruct W1 as [[[Wf C R] Hr Ha] Ht _].
    assert (apply_dir (dir d1) (Rename tmp target) = <[target := ino]> (delete tmp (dir d1))) as Hdir
      by (cbn; by rewrite Ht).
    assert (old_or_new (with_dir_op d1 (Rename tmp target))) as Cd.
    { intros found Hf. apply disk_crash_stored in Hf as (p & Hp & Hm).
      apply stored_dir_op in Hp as [Hp| ->]; [apply C, disk_crash_stored; by exists p|].
      right. rewrite Hdir, lookup_insert_eq in Hm. destruct Hm as (i & c & Ei & Hc & ->).
      cbn in Ei. rewrite Hi1 in Ei. injection Ei as <-. f_equal. by apply (FILE_of_synced content). }
    split; [done|]. split; [split| | |].
    - apply dir_op_wf; [done|]. rewrite Hdir. intros name ino'.
      rewrite lookup_insert_Some, lookup_delete_Some. intros [[_ <-]|(_ & _ & En)]; [done|].
      by apply (Wf _ name _ (stored_dir_current d1)).
    - done.
    - done.
    - rewrite dir_with_op, Hdir. rewrite lookup_insert_ne by congruence.
      by rewrite lookup_delete_eq.
    - exists ino. rewrite dir_with_op, Hdir, lookup_insert_eq. by split.
    - right. by exists (dir_unsynced d1). }
  destruct x; [exact Hok| |exact Hok]. intros [= <- <-]. split; [apply W1|]. split; [done|]. by apply Hx.
Qed.

Lemma replaced_fault d x d1 :
  replaced d → disk_fault d = (x, d1) → replaced d1 ∧ (x = Fails → disk_faults d0 ≠ []).
Proof.
  intros [C Ht Hg Hl] E. pose proof (same_disk_refl _ _ _ E) as S. destruct (core_fault _ _ _ C E) as [C1 Hx].
  split; [|done]. split; [done|by rewrite (same_dir _ _ S)| |by destruct S as (_ & _ & ->)].
  rewrite (same_dir _ _ S). by destruct S as (-> & _).
Qed.

Lemma opendir_rule path :
  hoare replaced (call (sys_opendir path)) old_or_new
    (λ opened d, replaced d ∧ match opened with
       | Some opened => opened = path
       | None => path = ""%string ∨ disk_faults d0 ≠ []
       end).
Proof.
  apply hoare_call. intros d a d' Rp. unfold sys_opendir. destruct (disk_fault d) as [x d1] eqn:E.
  destruct (replaced_fault _ _ _ Rp E) as [R1 Hx].
  destruct x, path; intros [= <- <-]; (split; [apply R1|]; split; [done|]); try done; try (by left); right; by apply Hx.
Qed.

(** A synced directory has only the new content under the name. *)
Lemma replaced_synced d :
  replaced d → dir_unsynced d = [] → ∀ found, disk_crash d target found → found = Some content.
Proof.
  intros [_ _ (ino & Ht & Hi) _] Hu found Hf. apply disk_crash_stored in Hf as (p & (st & lost & El & ->) & Hm).
  rewrite Hu in El. symmetry in El. apply app_eq_nil in El as [-> ->].
  unfold dir in Ht. rewrite Hu in Ht. rewrite Ht in Hm. destruct Hm as (i & c & Ei & Hc & ->).
  rewrite Hi in Ei. injection Ei as <-. f_equal. by apply (FILE_of_synced content).
Qed.

(** A directory that is stored as it is keeps all that held. *)
Lemma replaced_stored d : replaced d → replaced (mkDisk (inodes d) (dir d) [] (disk_faults d)).
Proof.
  set (d2 := mkDisk (inodes d) (dir d) [] (disk_faults d)). intros [[Wf C R] Ht Hg _].
  assert (∀ p, stored_dir d2 p → stored_dir d p) as Hp.
  { intros p (st & lost & El & ->). cbn in El. symmetry in El. apply app_eq_nil in El as [-> ->].
    apply stored_dir_current. }
  split; [split|done|done|by left].
  - intros p name ino H. by apply (Wf p name), Hp.
  - intros found Hf. apply C. apply disk_crash_stored in Hf as (p & Hs & Hm). apply disk_crash_stored.
    exists p. split; [by apply Hp|done].
  - done.
Qed.

(** So does one part of which is stored; with the directory of the file, the
    replacement itself is. *)
Lemma replaced_synced_dir path d :
  replaced d → replaced (synced_dir path d) ∧ (parent target = path → dir_unsynced (synced_dir path d) = []).
Proof.
  intros [[Wf C R] Ht Hg Hl]. pose proof (synced_dir_stored path d) as Hp.
  assert (dir_unsynced (synced_dir path d) = [] ∨ ∃ ops, dir_unsynced (synced_dir path d) = ops ++ [Rename tmp target]) as Hl'.
  { cbn [synced_dir dir_unsynced]. destruct (unforced_suffix path (dir_unsynced d)) as [front Ef].
    destruct Hl as [->|[ops Eo]]; [by left|]. destruct (unforced path (dir_unsynced d)) as [|o rest _] eqn:Eu using rev_ind; [by left|right].
    rewrite Eo, app_assoc in Ef. apply app_inj_tail in Ef as [_ <-]. by exists rest. }
  split; [split; [split| | |done]|].
  - intros p name ino H. by apply (Wf p name), Hp.
  - intros found Hf. apply C. apply disk_crash_stored in Hf as (p & Hs & Hm). apply disk_crash_stored.
    exists p. split; [by apply Hp|done].
  - done.
  - by rewrite synced_dir_view.
  - by rewrite synced_dir_view.
  - intros <-. cbn [synced_dir dir_unsynced]. destruct Hl as [->|[ops ->]]; [done|]. apply unforced_last. cbn [updates].
    by rewrite (bool_decide_eq_true_2 (parent target = parent target)), orb_true_r by done.
Qed.

Definition durable_content (d : Disk) : Prop :=
  disk_faults d0 = [] → ¬ in_root target → ∀ found, disk_crash d target found → found = Some content.

Lemma fsyncdir_rule path :
  hoare replaced (call (sys_fsyncdir path)) old_or_new
    (λ _ d, replaced d ∧ (parent target = path → durable_content d)).
Proof.
  apply hoare_call. intros d a d' Rp. unfold sys_fsyncdir. destruct (disk_fault d) as [x d1] eqn:E.
  destruct (replaced_fault _ _ _ Rp E) as [R1 Hx]. clear Rp E.
  destruct (replaced_synced_dir path _ R1) as [R2 Hu]. fold (synced_dir path d1).
  assert ((0, synced_dir path d1) = (a, d') → old_or_new d' ∧ replaced d' ∧ (parent target = path → durable_content d')) as Hok.
  { intros [= _ <-]. split; [apply R2|]. split; [done|]. intros Hp _ _. by apply replaced_synced, Hu. }
  destruct x; [exact Hok| |exact Hok]. intros [= _ <-]. split; [apply R1|]. split; [done|].
  intros _ H0. by destruct (Hx eq_refl).
Qed.

Definition replace_post (r : Result unit) (d : Disk) : Prop :=
  match r with
  | Success _ => replaced d ∧ durable_content d
  | Failure e => untouched d ∧ disk_faults d0 ≠ [] ∧ code e = ErrorCode.IoError
  end.

Lemma cleanup_rule ino bs msg :
  disk_faults d0 ≠ [] →
  hoare (working ino bs) (_ ← call (sys_unlink tmp); mret (io_failure msg)) old_or_new replace_post.
Proof.
  intros H0. eapply hoare_bind; [apply unlink_rule|]. intros ?. apply hoare_ret. by intros d U.
Qed.

End replace.

Lemma replace_rule d0 target content :
  hoare (untouched d0 target (temp_path target) content) (AtomicallyReplaceFileContents target content)
    (old_or_new d0 target content) (replace_post d0 target (temp_path target) content).
Proof.
  pose proof (temp_path_ne target) as tmp_ne. unfold AtomicallyReplaceFileContents.
  eapply hoare_bind; [by apply open_rule|]. intros [fd|]; [|by apply hoare_ret; intros d [U H0]].
  eapply hoare_bind; [apply (write_loop_rule _ _ _ _ _ fd 0); unfold zlen; lia|].
  intros [[]|].
  2:{ intros d [[bs W] H0]. exact (cleanup_rule _ _ _ _ tmp_ne fd bs _ H0 d W). }
  2:{ by intros d W. }
  eapply hoare_bind; [by apply fsync_rule|]. intros synced. cbv beta. destruct (synced =? 0); cbn [negb].
  2:{ intros d [W H0]. exact (cleanup_rule _ _ _ _ tmp_ne fd content _ H0 d W). }
  eapply hoare_bind; [by apply rename_rule|]. intros renamed. cbv beta. destruct (renamed =? 0); cbn [negb].
  2:{ intros d [W H0]. exact (cleanup_rule _ _ _ _ tmp_ne fd content _ H0 d W). }
  cbv zeta. set (dirPath := match last_slash target with None => _ | Some i => _ end).
  eapply hoare_bind; [apply opendir_rule|]. intros [dirFd|].
  - intros d [Rp ->]. revert d Rp. eapply hoare_bind; [apply fsyncdir_rule|]. intros ?. apply hoare_ret.
    intros d [Rp Hd]. split; [done|]. intros H0 Hroot. destruct (dirPath_parent _ Hroot) as [Ep _]. by apply Hd.
  - apply hoare_ret. intros d [Rp Hf]. split; [done|]. intros H0 Hroot.
    destruct (dirPath_parent _ Hroot) as [Ep Hne]. fold dirPath in Ep. destruct Hf as [Hf|]; [congruence|done].
Qed.

(** ** Saving a configuration *)

(** A disk on which the file may be replaced: names lead to inodes, and a
    temporary file left behind is not, and never was, the file itself. *)
Record disk_ok (d : Disk) (target : string) : Prop := {
  do_wf : disk_wf d;
  do_apart : apart target (temp_path target) d
}.

Section save.
Context {json : Type} `{NlohmannJsonSpec json}.

(** C29: A power cut during [Save] leaves the old configuration or the new one.
    Whatever system calls fail and wherever the power does, what is found at the
    path is what could have been found before, or loads as the new
    configuration; when [Save] succeeds the new one is loaded, and for good if
    no call failed and the file is not in the root directory, whose path the
    code gets wrong ([OuterExamples.root_directory_not_synced]); when it fails the file is as
    it was.  The disk can be saved to again. *)
Theorem Save_is_atomic path c d trace r d' :
  config_typed c → Validate c = Success tt → Forall ascii_path (paths c) → disk_ok d path →
  Save path c d = (trace, r, d') →
  disk_ok d' path ∧
  (∀ di found, di ∈ trace → disk_crash di path found →
     disk_crash d path found ∨ Load path (bytes_str <$> found) = Success c) ∧
  ∃ res, r = Returned res ∧
    match res with
    | Success _ =>
      Load path (bytes_str <$> read_name d' path) = Success c ∧
      (disk_faults d = [] → ¬ in_root path → ∀ found, disk_crash d' path found →
         Load path (bytes_str <$> found) = Success c)
    | Failure e => read_name d' path = read_name d path ∧ code e = ErrorCode.IoError ∧ disk_faults d ≠ []
    end.
Proof.
  intros Ht Hv Hp [Wf Ha].
  destruct (saved_text_loads path c Ht Hv (ascii_paths_narrow c Hp)) as (text & Es & El).
  rewrite (narrowed_id c Hp) in El. unfold Save. rewrite Es. unfold mbind, Sys_bind, mret, Sys_ret.
  assert (untouched d path (temp_path path) (str_bytes text) d) as U.
  { split; [split|done|done]; [done| |done]. intros found Hf. by left. }
  pose proof (replace_rule d path (str_bytes text) d U) as Hr.
  destruct (AtomicallyReplaceFileContents path (str_bytes text) d) as [[trace' r'] d1].
  destruct Hr as [Htr Hpost]. rewrite app_nil_r. intros [= <- <- <-]. rename d1 into d', r' into r, trace' into trace.
  assert (∀ found, found = Some (str_bytes text) → Load path (bytes_str <$> found) = Success c) as Hnew
    by (intros found ->; cbn; by rewrite bytes_str_bytes).
  split; [|split].
  - destruct r as [[]|e]; [destruct Hpost as [[[Wf' _ _] Ht' _ _] _]|destruct Hpost as [[[Wf' _ _] _ Ha'] _]].
    + split; [done|]. intros p ino Et. by rewrite Ht' in Et.
    + by split.
  - intros di found Hdi Hf. rewrite Forall_forall in Htr. destruct (Htr di Hdi found Hf); [by left|right; by apply Hnew].
  - exists r. split; [done|]. destruct r as [[]|e].
    + destruct Hpost as [[_ _ (ino & Et & Ei) _] Hd]. split.
      * apply Hnew. unfold read_name. rewrite Et. cbn. by rewrite Ei.
      * intros Hnf Hroot found Hf. by apply Hnew, Hd.
    + destruct Hpost as ([_ Hread _] & Hnf & Hc). done.
Qed.
End save.
