(* ===== verification/Win32Replace.v ===== *)
(** * Win32Replace: the replacement of a file on Windows

    Models the [_WIN32] branch of [AtomicallyReplaceFileContents] of
    src/src/Configuration/src/JsonConfigStore.cpp and the [Save] that ends with
    it, over the file system of Replace.v, whose rules for the phases of a
    replacement it shares.  The temporary file has a random name, its content
    is written by one call, and the move that puts it in place writes through,
    so that a [Save] that succeeds is durable whatever calls failed on the way.

    [MultiByteToWideChar] and [GetLastError] are parameters. *)
From stdpp Require Import pretty.
From S2P Require Import Prelude Common Storage Shard Engine Lifecycle Config Replace.
Open Scope Z_scope.

(** [std::to_wstring] of an unsigned number. *)
Definition to_wstring (n : N) : wstring := L (pretty n).

(** The name under which the file system keeps a wide name: its code units, two
    bytes each. *)
Definition entry (name : wstring) : string :=
  bytes_str (flat_map (λ u, [byte_of (u / 256); byte_of u]) name).

Section calls.
Context (MultiByteToWideChar : string → option wstring) (GetLastError : Disk → Z).

(** [None] is a conversion that fails. *)
Definition NarrowPathToWide (narrow : string) : wstring :=
  match narrow with
  | EmptyString => []
  | _ => match MultiByteToWideChar narrow with Some wide => wide | None => [] end
  end.

(** [WriteFile] at the start of a new file: how many bytes were written, or
    [None] for [FALSE]. *)
Definition WriteFile (ino : nat) (data : bytes) (d : Disk) : option Z * Disk :=
  let '(x, d) := disk_fault d in
  match x, inodes d !! ino with
  | Fails, _ | _, None => (None, d)
  | _, Some i =>
    let n := match x with Short k => Nat.min k (length data) | _ => length data end in
    (Some (Z.of_nat n), with_inode d ino (add_op i (OpWrite 0 (take n data))))
  end.

(** What was written through is stored before the call returns. *)
Definition write_through (d : Disk) : unit * Disk := (tt, mkDisk (inodes d) (dir d) [] (disk_faults d)).

(** [MoveFileExW] with [MOVEFILE_REPLACE_EXISTING | MOVEFILE_WRITE_THROUGH]: a
    call that fails moves nothing. *)
Definition MoveFileExW (from to : string) : Sys bool :=
  moved ← call (sys_rename from to);
  if moved =? 0 then (_ ← call write_through; mret true) else mret false.

Definition last_error : Sys Z := λ d, ([], GetLastError d, d).

Definition win32_io_failure (msg : string) (err : Z) : Result unit := Failure (mkError ErrorCode.IoError msg err).

(** [written == content.size()], of a call that was given the low 32 bits of
    the size. *)
Definition sizeOk (written : option Z) (content : bytes) : bool :=
  match written with Some n => n =? zlen content | None => false end.

Definition temp_wide (targetWide : wstring) (rd : N) : wstring := targetWide ++ L ".tmp" ++ to_wstring rd.

(** [rd] is the number [std::random_device] gives.  Closing a handle has no
    effect that the disk shows. *)
Definition ReplaceOnWindows (targetPath : string) (content : bytes) (rd : N) : Sys (Result unit) :=
  let targetWide := NarrowPathToWide targetPath in
  let tempWide := temp_wide targetWide rd in
  tempHandle ← call (sys_open (entry tempWide));
  match tempHandle with
  | None =>
    err ← last_error;
    mret (win32_io_failure "AtomicallyReplaceFileContents: CreateFileW (temp) failed" err)
  | Some tempHandle =>
    let size := zlen content mod io_limit in
    written ← call (WriteFile tempHandle (take (Z.to_nat size) content));
    if negb (sizeOk written content) then
      err ← last_error;
      _ ← call (sys_unlink (entry tempWide));
      mret (win32_io_failure "AtomicallyReplaceFileContents: WriteFile (temp) failed" err)
    else
      flushed ← call (sys_fsync tempHandle);
      if negb (flushed =? 0) then
        err ← last_error;
        _ ← call (sys_unlink (entry tempWide));
        mret (win32_io_failure "AtomicallyReplaceFileContents: FlushFileBuffers (temp) failed" err)
      else
        moved ← MoveFileExW (entry tempWide) (entry targetWide);
        if negb moved then
          err ← last_error;
          _ ← call (sys_unlink (entry tempWide));
          mret (win32_io_failure "AtomicallyReplaceFileContents: MoveFileExW failed" err)
        else mret (Success tt)
  end.

(** [Save] of the configuration store at [path]. *)
Definition SaveOnWindows {json} `{NlohmannJson json} (path : string) (config : AppConfig) (rd : N) :
    Sys (Outcome (Result unit)) :=
  match Save_serialize config with
  | Thrown what => mret (Thrown what)
  | Returned (Failure e) => mret (Returned (Failure e))
  | Returned (Success serialized) =>
    r ← ReplaceOnWindows path (str_bytes serialized) rd;
    mret (Returned r)
  end.

(** ** The phases *)

Lemma entry_ne w v : length w ≠ length v → entry w ≠ entry v.
Proof.
  intros Hl E. apply Hl. assert (∀ u : wstring, length (flat_map (λ u, [byte_of (u / 256); byte_of u]) u) = 2 * length u)%nat as H2
    by (induction u as [|x u IH]; cbn in *; lia).
  unfold entry in E. apply (f_equal str_bytes) in E. rewrite !str_bytes_str in E.
  apply (f_equal length) in E. rewrite !H2 in E. lia.
Qed.

Lemma temp_entry_ne w rd : entry (temp_wide w rd) ≠ entry w.
Proof. apply entry_ne. unfold temp_wide. rewrite length_app. cbn. lia. Qed.

Section phases.
Context (d0 : Disk) (target tmp : string) (content : bytes).
Hypothesis tmp_ne : tmp ≠ target.

Local Abbreviation old_or_new := (old_or_new d0 target content).
Local Abbreviation working := (working d0 target tmp content).
Local Abbreviation replaced := (replaced d0 target tmp content).

(** What a failure may be due to. *)
Definition excused : Prop := disk_faults d0 ≠ [] ∨ io_limit ≤ zlen content.

Definition win32_post (r : Result unit) (d : Disk) : Prop :=
  match r with
  | Success _ => replaced d ∧ ∀ found, disk_crash d target found → found = Some content
  | Failure e => untouched d0 target tmp content d ∧ excused ∧ code e = ErrorCode.IoError
  end.

Lemma WriteFile_rule ino :
  hoare (working ino []) (call (WriteFile ino (take (Z.to_nat (zlen content mod io_limit)) content))) old_or_new
    (λ n d, if sizeOk n content then working ino content d else (∃ bs, working ino bs d) ∧ excused).
Proof.
  apply hoare_call. intros d a d' W. unfold WriteFile. destruct (disk_fault d) as [x d1] eqn:E.
  destruct (working_fault _ _ _ _ _ _ _ _ _ W E) as [W1 Hx].
  assert (x ≠ NoFault → disk_faults d0 ≠ []) as Hshort.
  { intros Hn H0. apply disk_fault_spec in E as (_ & _ & _ & Hr).
    by destruct (Hr (c_reliable _ _ _ _ (u_core _ _ _ _ _ (w_untouched _ _ _ _ _ _ _ W)) H0)) as [-> _]. }
  clear W E. destruct (w_inode _ _ _ _ _ _ _ W1) as (i & Ei & _). rewrite Ei.
  set (data := take _ content).
  assert (∀ n, (n ≤ length data)%nat → (n = length data ∨ disk_faults d0 ≠ []) →
    (Some (Z.of_nat n), with_inode d1 ino (add_op i (OpWrite 0 (take n data)))) = (a, d') →
    old_or_new d' ∧ if sizeOk a content then working ino content d' else (∃ bs, working ino bs d') ∧ excused) as Hok.
  { intros n Hn Hwhy [= <- <-]. pose proof (zlen_nonneg content) as Hz.
    assert (take n data = take n content) as Et by (unfold data in *; rewrite length_take in Hn; rewrite take_take; f_equal; lia).
    pose proof (working_append d0 target tmp content ino 0 n i d1 ltac:(lia) W1 Ei) as W2.
    cbn [drop Z.to_nat] in W2. rewrite Et. split; [apply W2|]. cbn [sizeOk].
    destruct (Z.eqb_spec (Z.of_nat n) (zlen content)) as [En|En].
    - rewrite take_ge in W2 by (unfold zlen in En; lia). done.
    - split; [by eexists|]. destruct Hwhy as [->|]; [|by left]. right.
      destruct (Z.lt_ge_cases (zlen content) io_limit) as [Hlt|]; [|done]. destruct En.
      unfold data. rewrite Z.mod_small by lia. rewrite take_ge by (unfold zlen; lia). done. }
  destruct x as [| |k].
  - apply Hok; [lia|by left].
  - intros [= <- <-]. split; [apply W1|]. split; [by eexists|]. left. by apply Hx.
  - apply Hok; [lia|]. right. by apply Hshort.
Qed.

Lemma last_error_rule {A} (P : Disk → Prop) I (Q : A → Disk → Prop) f :
  (∀ err, hoare P (f err) I Q) → hoare P (last_error ≫= f) I Q.
Proof. intros Hf d HP. unfold mbind, Sys_bind, last_error. specialize (Hf (GetLastError d) d HP). by destruct (f _ d) as [[tr b] d2]. Qed.

Lemma win32_cleanup_rule ino bs msg :
  excused →
  hoare (working ino bs) (err ← last_error; _ ← call (sys_unlink tmp); mret (win32_io_failure msg err))
    old_or_new win32_post.
Proof.
  intros He. apply last_error_rule. intros err. eapply hoare_bind; [by apply unlink_rule|]. intros ?.
  apply hoare_ret. by intros d U.
Qed.

Lemma MoveFileExW_rule ino :
  hoare (λ d, working ino content d ∧ inodes d !! ino = Some (mkINode content []))
    (MoveFileExW tmp target) old_or_new
    (λ moved d, if moved : bool then replaced d ∧ ∀ found, disk_crash d target found → found = Some content
                else working ino content d ∧ excused).
Proof.
  unfold MoveFileExW. eapply hoare_bind; [by apply rename_rule|]. intros moved. cbv beta.
  destruct (moved =? 0).
  2:{ apply hoare_ret. intros d [W H0]. split; [done|by left]. }
  eapply hoare_bind.
  - apply (hoare_call _ _ (λ _ d, replaced d ∧ ∀ found, disk_crash d target found → found = Some content)).
    intros d [] d' Rp [= <-]. pose proof (replaced_stored d0 target tmp content d Rp) as R2.
    split; [apply R2|]. split; [done|]. by apply (replaced_synced d0 target tmp content).
  - intros ?. by apply hoare_ret.
Qed.
End phases.

Lemma ReplaceOnWindows_rule d0 path content rd :
  let target := entry (NarrowPathToWide path) in
  let tmp := entry (temp_wide (NarrowPathToWide path) rd) in
  hoare (untouched d0 target tmp content) (ReplaceOnWindows path content rd)
    (old_or_new d0 target content) (win32_post d0 target tmp content).
Proof.
  intros target tmp. pose proof (temp_entry_ne (NarrowPathToWide path) rd) as tmp_ne. fold target tmp in tmp_ne.
  unfold ReplaceOnWindows. cbv zeta. fold target tmp.
  eapply hoare_bind; [by apply open_rule|]. intros [fd|].
  2:{ apply last_error_rule. intros err. apply hoare_ret. intros d [U H0]. split; [done|]. split; [by left|done]. }
  eapply hoare_bind; [apply WriteFile_rule|]. intros written. cbv beta. destruct (sizeOk written content); cbn [negb].
  2:{ intros d [[bs W] He]. exact (win32_cleanup_rule _ _ _ _ tmp_ne fd bs _ He d W). }
  eapply hoare_bind; [by apply fsync_rule|]. intros flushed. cbv beta. destruct (flushed =? 0); cbn [negb].
  2:{ intros d [W H0]. exact (win32_cleanup_rule _ _ _ _ tmp_ne fd content _ (or_introl H0) d W). }
  eapply hoare_bind; [by apply MoveFileExW_rule|]. intros []; cbn [negb].
  - by apply hoare_ret.
  - intros d [W He]. exact (win32_cleanup_rule _ _ _ _ tmp_ne fd content _ He d W).
Qed.
End calls.

(** ** Saving a configuration on Windows *)

Section save.
Context {json : Type} `{NlohmannJsonSpec json}.
Context (MultiByteToWideChar : string → option wstring) (GetLastError : Disk → Z).

Local Abbreviation wide := (NarrowPathToWide MultiByteToWideChar).

(** C30: On Windows a [Save] that succeeds is durable.  Whatever calls fail and
    wherever the power does, what is found under the wide name of the path is
    what could have been found before, or loads as the new configuration; when
    [Save] succeeds, only the new one is found, after a power cut too; when it
    fails, the file is as it was, and a call failed or the text has 2^32 bytes
    or more. *)
Theorem SaveOnWindows_is_durable path c rd d trace r d' :
  config_typed c → Validate c = Success tt → Forall ascii_path (paths c) →
  disk_wf d → apart (entry (wide path)) (entry (temp_wide (wide path) rd)) d →
  SaveOnWindows MultiByteToWideChar GetLastError path c rd d = (trace, r, d') →
  let saved found := Load path (bytes_str <$> found) = Success c in
  disk_wf d' ∧
  (∀ di found, di ∈ trace → disk_crash di (entry (wide path)) found →
     disk_crash d (entry (wide path)) found ∨ saved found) ∧
  ∃ res, r = Returned res ∧
    match res with
    | Success _ => saved (read_name d' (entry (wide path))) ∧
                   ∀ found, disk_crash d' (entry (wide path)) found → saved found
    | Failure e => read_name d' (entry (wide path)) = read_name d (entry (wide path)) ∧
                   code e = ErrorCode.IoError ∧
                   (disk_faults d ≠ [] ∨
                    ∃ text, Save_serialize c = Returned (Success text) ∧ io_limit ≤ zlen (str_bytes text))
    end.
Proof.
  intros Ht Hv Hp Wf Ha.
  destruct (saved_text_loads path c Ht Hv (ascii_paths_narrow c Hp)) as (text & Es & El).
  rewrite (narrowed_id c Hp) in El. unfold SaveOnWindows. rewrite Es. unfold mbind at 1, Sys_bind at 1, mret at 1, Sys_ret at 1.
  set (target := entry (wide path)) in *. set (tmp := entry (temp_wide (wide path) rd)) in *.
  assert (untouched d target tmp (str_bytes text) d) as U.
  { split; [split|done|done]; [done| |done]. intros found Hf. by left. }
  pose proof (ReplaceOnWindows_rule MultiByteToWideChar GetLastError d path (str_bytes text) rd d U) as Hr.
  fold target tmp in Hr.
  destruct (ReplaceOnWindows _ _ path (str_bytes text) rd d) as [[trace' r'] d1].
  destruct Hr as [Htr Hpost]. rewrite app_nil_r. intros [= <- <- <-].
  assert (∀ found, found = Some (str_bytes text) → Load path (bytes_str <$> found) = Success c) as Hnew
    by (intros found ->; cbn; by rewrite bytes_str_bytes).
  split; [|split].
  - destruct r' as [[]|e]; destruct Hpost as [[[Wf' _ _] _ _] _]; done.
  - intros di found Hdi Hf. rewrite Forall_forall in Htr. destruct (Htr di Hdi found Hf); [by left|right; by apply Hnew].
  - exists r'. split; [done|]. destruct r' as [[]|e].
    + destruct Hpost as [[_ _ (ino & Et & Ei) _] Hd]. split.
      * apply Hnew. unfold read_name. rewrite Et. cbn. by rewrite Ei.
      * intros found Hf. by apply Hnew, Hd.
    + destruct Hpost as ([_ Hread _] & He & Hc). split; [done|]. split; [done|].
      destruct He as [|Hbig]; [by left|right; by exists text].
Qed.
End save.
