(* ===== verification/Startup.v ===== *)
(** * Startup: from a configuration file to a running engine

    Models how the process comes to the objects Service.v starts with: the
    part of [OnServiceStart] of src/src/Service/src/main_service.cpp that reads
    the configuration and names the files, and [OpenFile] and
    [Close] of src/src/Storage/src/PortableFile.cpp over a model of [fopen] and
    [fclose].  A
    configuration that is missing or does not load is replaced by the default
    one; whatever it says, the engine's factory accepts the options, and a
    power cut loses nothing that was acknowledged. *)
From S2P Require Import Prelude Common RecordCodec Scan Storage Journal Marker Recovery Store.
From S2P Require Import Shard Engine EngineFacts Durability Client Lifecycle Service Config.
Open Scope Z_scope.

(** ** PortableFile.cpp: OpenFile *)

Definition NarrowPath (wide : wstring) : string := bytes_str (map byte_of wide).

(** The modes of [std::fopen] the code uses: r+b, w+bx, a+b, w+b. *)
Inductive FopenMode := fopen_rb | fopen_wbx | fopen_ab | fopen_wb.

(** The files by name, and whether the next calls fail. *)
Record FileSystem := mkFileSystem {
  fs_files : gmap string bytes;
  fs_faults : list bool
}.

Definition std_fopen (fs : FileSystem) (path : string) (mode : FopenMode) : option FILE * FileSystem :=
  let '(fault, faults) := match fs_faults fs with [] => (false, []) | x :: xs => (x, xs) end in
  let found := fs_files fs !! path in
  let unchanged := mkFileSystem (fs_files fs) faults in
  let created := mkFileSystem (<[path := []]> (fs_files fs)) faults in
  if fault : bool then (None, unchanged) else
  match mode, found with
  | fopen_rb, Some c => (Some (FILE_of c), unchanged)
  | fopen_rb, None => (None, unchanged)
  | fopen_wbx, Some _ => (None, unchanged)
  | fopen_wbx, None => (Some (FILE_of []), created)
  | fopen_ab, Some c => (Some (FILE_of c), unchanged)
  | fopen_ab, None => (Some (FILE_of []), created)
  | fopen_wb, _ => (Some (FILE_of []), created)
  end.

Definition is_create (mode : OpenMode.OpenMode) : bool :=
  match mode with OpenMode.OpenOrCreate => true | _ => false end.

Definition modeStr (mode : OpenMode.OpenMode) : FopenMode :=
  match mode with
  | OpenMode.OpenExisting => fopen_rb
  | OpenMode.CreateNew => fopen_wbx
  | OpenMode.OpenOrCreate => fopen_ab
  end.

Definition OpenFile (fs : FileSystem) (path : wstring) (mode : OpenMode.OpenMode) : Result FILE * FileSystem :=
  let narrowPath := NarrowPath path in
  let '(fp, fs) := std_fopen fs narrowPath (modeStr mode) in
  let '(fp, fs) :=
    match fp with
    | None => if is_create mode then std_fopen fs narrowPath fopen_wb else (None, fs)
    | Some fp => (Some fp, fs)
    end in
  match fp with
  | None => (Failure (mkError ErrorCode.IoError (String.append "fopen failed for " narrowPath) 0), fs)
  | Some fp =>
    if is_create mode then
      match std_fopen fs narrowPath fopen_rb with
      | (None, fs) => (Failure (mkError ErrorCode.IoError (String.append "fopen (r+b) failed for " narrowPath) 0), fs)
      | (Some fp, fs) => (Success fp, fs)
      end
    else (Success fp, fs)
  end.

(** ** main_service.cpp: the start of the process *)

Section startup.
Context {F : Type} `{IFile F} {json : Type} `{NlohmannJson json}.
Context (hash : string → Z)
        (pending_order : gmap string PendingEntry → list (string * PendingEntry)).

Definition kConfigPath : string := "QuantumCacheService.config.json".

(** [content]: what the configuration file holds, if it can be opened. *)
Definition start_config (content : option string) : AppConfig :=
  match CreateJsonConfigStore kConfigPath with
  | Failure _ => AppConfig_default
  | Success path =>
    match Load path content with
    | Success config => config
    | Failure _ => AppConfig_default
    end
  end.

Definition marker_path (config : AppConfig) : wstring := stateDirectory config ++ L "\session.marker".
Definition journal_path (config : AppConfig) : wstring := stateDirectory config ++ L "\writeahead.journal".

(** [open]: what [Storage::OpenFile] returns for a path. *)
Definition ServiceStart (content : option string) (now : Z)
    (open : wstring → OpenMode.OpenMode → Result F) : Result unit * Service F :=
  let config := start_config content in
  OnServiceStart hash pending_order (BuildEngineOptions config) now
    (open (marker_path config) OpenMode.OpenOrCreate)
    (open (journal_path config) OpenMode.OpenOrCreate)
    (open (backingStoreDataFile config) OpenMode.OpenOrCreate).
End startup.

(** ** Properties *)

(** What an opening may do to the files: the one it names may be created. *)
Definition opened_files (fs : FileSystem) (path : string) (fs' : FileSystem) : Prop :=
  ∀ p, fs_files fs' !! p = fs_files fs !! p ∨ p = path ∧ fs_files fs !! p = None ∧ fs_files fs' !! p = Some [].

Lemma std_fopen_files fs path mode r fs' :
  std_fopen fs path mode = (r, fs') →
  (mode = fopen_wb → fs_files fs !! path = None) → opened_files fs path fs'.
Proof.
  unfold std_fopen, opened_files. destruct (match fs_faults fs with [] => _ | _ => _ end) as [[|] faults].
  { intros [= _ <-] _ p. by left. }
  intros E Hw p. destruct (decide (p = path)) as [->|Hne].
  - destruct mode, (fs_files fs !! path) as [c|] eqn:Ef; injection E as _ <-; cbn [fs_files];
      rewrite ?Ef; try (by left); try (by specialize (Hw eq_refl)); right; by rewrite lookup_insert_eq.
  - left. destruct mode, (fs_files fs !! path) as [c|]; injection E as _ <-; cbn [fs_files];
      by rewrite ?lookup_insert_ne.
Qed.

Lemma std_fopen_quiet fs path mode :
  fs_faults fs = [] →
  std_fopen fs path mode =
    match mode, fs_files fs !! path with
    | fopen_rb, Some c | fopen_ab, Some c => (Some (FILE_of c), mkFileSystem (fs_files fs) [])
    | fopen_rb, None | fopen_wbx, Some _ => (None, mkFileSystem (fs_files fs) [])
    | _, _ => (Some (FILE_of []), mkFileSystem (<[path := []]> (fs_files fs)) [])
    end.
Proof. unfold std_fopen. intros ->. by destruct mode, (fs_files fs !! path). Qed.

(** Opening a file.  While no call fails, an existing file is opened with
    its content by [OpenExisting] and [OpenOrCreate] and refused by
    [CreateNew]; a missing one is refused by [OpenExisting] and created empty by
    the others; no other file is touched.  Only in the mode [OpenOrCreate], and
    only after a failed call, is the content of an existing file at risk. *)
Theorem OpenFile_modes fs path mode r fs' :
  OpenFile fs path mode = (r, fs') →
  (fs_faults fs = [] →
     opened_files fs (NarrowPath path) fs' ∧
     match fs_files fs !! NarrowPath path, mode with
     | Some c, OpenMode.CreateNew => IsOk r = false
     | Some c, _ => r = Success (FILE_of c) ∧ fs_files fs' = fs_files fs
     | None, OpenMode.OpenExisting => IsOk r = false
     | None, _ => r = Success (FILE_of [])
     end) ∧
  (mode ≠ OpenMode.OpenOrCreate → opened_files fs (NarrowPath path) fs').
Proof.
  set (name := NarrowPath path). unfold OpenFile. fold name. intros E. split.
  - intros Hq. rewrite std_fopen_quiet in E by done. unfold opened_files.
    destruct (fs_files fs !! name) as [c|] eqn:Ef, mode; cbn [modeStr is_create] in E;
      try (injection E as <- <-; split; [intros p; by left|done]).
    + rewrite std_fopen_quiet in E by done. cbn [fs_files] in E. rewrite Ef in E. injection E as <- <-.
      split; [intros p; by left|done].
    + injection E as <- <-. split; [|done]. intros p. cbn [fs_files].
      destruct (decide (p = name)) as [->|]; [right; by rewrite lookup_insert_eq|left; by rewrite lookup_insert_ne].
    + rewrite std_fopen_quiet in E by done. cbn [fs_files] in E. rewrite lookup_insert_eq in E. injection E as <- <-.
      split; [|done]. intros p. cbn [fs_files].
      destruct (decide (p = name)) as [->|]; [right; by rewrite lookup_insert_eq|left; by rewrite lookup_insert_ne].
  - intros Hm. destruct (std_fopen fs name (modeStr mode)) as [[fp|] fs1] eqn:E1;
      apply std_fopen_files in E1; try (by destruct mode).
    + assert (is_create mode = false) as Hc by (by destruct mode). rewrite Hc in E. by injection E as _ <-.
    + assert (is_create mode = false) as Hc by (by destruct mode). rewrite Hc in E. by injection E as _ <-.
Qed.

(** When the first call fails and the second works, [OpenOrCreate] truncates an
    existing file and reports success. *)
Lemma OpenFile_truncates_after_fault path c :
  let name := NarrowPath path in
  let '(r, fs') := OpenFile (mkFileSystem {[name := c]} [true]) path OpenMode.OpenOrCreate in
  r = Success (FILE_of []) ∧ fs_files fs' !! name = Some [].
Proof.
  unfold OpenFile, std_fopen. cbn [fs_faults fs_files modeStr is_create].
  rewrite lookup_insert_eq. cbn [fs_files]. by rewrite lookup_insert_eq.
Qed.

(** ** PortableFile.cpp: Close *)

(** [std::fclose] writes out what is buffered, unless it fails; its result is
    not looked at.  A cut-short write leaves a prefix of the updates. *)
Definition std_fclose (fs : FileSystem) (name : string) (fp : FILE) : FileSystem :=
  let '(fault, _) := next_fault fp in
  let left := match fault with
              | None => FILE_content fp
              | Some k => foldl apply_op (stable fp) (take k (unsynced fp))
              end in
  mkFileSystem (<[name := left]> (fs_files fs)) (fs_faults fs).

(** The field [fp_] afterwards. *)
Definition PortableFile_Close (fs : FileSystem) (name : string) (fp_ : option FILE) : option FILE * FileSystem :=
  match fp_ with
  | Some fp => (None, std_fclose fs name fp)
  | None => (None, fs)
  end.

(** A file that is closed, again by the destructor, and opened has the content
    it was left with; other files are untouched. *)
Theorem close_then_open fs path fp mode :
  fs_faults fs = [] → faults fp = [] → mode ≠ OpenMode.CreateNew →
  let '(field, fs1) := PortableFile_Close fs (NarrowPath path) (Some fp) in
  let '(field', fs2) := PortableFile_Close fs1 (NarrowPath path) field in
  field' = None ∧
  OpenFile fs2 path mode = (Success (FILE_of (FILE_content fp)), fs2) ∧
  ∀ p, p ≠ NarrowPath path → fs_files fs2 !! p = fs_files fs !! p.
Proof.
  intros Hq Hf Hm. cbn [PortableFile_Close]. unfold std_fclose, next_fault. rewrite Hf.
  split; [done|]. split; [|intros p Hp; cbn; by rewrite lookup_insert_ne].
  assert (∀ m, (m = fopen_rb ∨ m = fopen_ab) →
    std_fopen (mkFileSystem (<[NarrowPath path:=FILE_content fp]> (fs_files fs)) (fs_faults fs)) (NarrowPath path) m =
    (Some (FILE_of (FILE_content fp)),
     mkFileSystem (<[NarrowPath path:=FILE_content fp]> (fs_files fs)) (fs_faults fs))) as Ho.
  { intros m Hma. rewrite Hq, std_fopen_quiet by done. cbn [fs_files]. rewrite lookup_insert_eq.
    by destruct Hma as [-> | ->]. }
  unfold OpenFile. destruct mode; [|done|]; cbn [modeStr is_create]; rewrite !Ho; auto.
Qed.

Section restart.
Context {F : Type} `{IFileSpec F} {json : Type} `{NlohmannJsonSpec json}.
Context (hash : string → Z)
        (pending_order : gmap string PendingEntry → list (string * PendingEntry)).
Hypothesis pending_order_perm : ∀ m, pending_order m ≡ₚ map_to_list m.

Lemma start_config_options content :
  options_valid (BuildEngineOptions (start_config content)) ∧
  u32 (shardCount (BuildEngineOptions (start_config content))).
Proof.
  unfold start_config. cbn [CreateJsonConfigStore String.eqb kConfigPath].
  destruct (Load kConfigPath content) as [c|] eqn:E.
  - by apply loaded_options in E.
  - split; [|done]. split; [by exists 4|done].
Qed.

(** A power cut loses nothing that was acknowledged.  The power fails
    between two operations of an engine whose journal is in order and whose
    data file has no failed write; the next process reads whatever
    configuration there is, and opens the files it names on whatever the cut
    left, with a marker that does not say "closed".  If it starts, its engine
    shows every key that was not invalidated since the journal was last
    emptied as the old engine did; and it does start when no key was. *)
Theorem restart_after_power_cut content now open e ds mf jf df d r s :
  EngineFacts.engine_ok hash e → durable hash e ds → fbs_clean (backingStore_ e) →
  let config := start_config content in
  open (marker_path config) OpenMode.OpenOrCreate = Success mf →
  open (journal_path config) OpenMode.OpenOrCreate = Success jf →
  open (backingStoreDataFile config) OpenMode.OpenOrCreate = Success df →
  next_files e jf df → reliable mf →
  marker_state (file_content mf) = Success d → smd_closedCleanly d = false →
  ServiceStart hash pending_order content now open = (r, s) →
  (r = Success tt →
     ∃ rm e2, s = mkService (Some rm) (Some e2) ∧ EngineFacts.engine_ok hash e2 ∧ durable hash e2 ds ∧
              ∀ k, invalidated ds k = false → view hash e2 k = view hash e k) ∧
  ((∀ k, invalidated ds k = false) → r = Success tt).
Proof.
  intros He Hd Hc config Om Oj Od Hn Hmf Hms Hnc E. destruct (start_config_options content) as [Hv Hu].
  unfold ServiceStart in E. fold config in E. rewrite Om, Oj, Od in E.
  exact (start_after_power_cut hash pending_order pending_order_perm _ now e ds mf jf df d r s
           He Hd Hc Hn Hmf Hms Hnc Hv Hu E).
Qed.
End restart.
