(* ===== verification/Volume.v ===== *)
(** * Volume: what the program can ask of a volume

    Models src/src/Storage/include/QuantumCache/Storage/IVolume.h and its two
    implementations, PortableVolume.cpp over [std::filesystem] and
    Win32Volume.cpp over three Win32 calls, each a class of the calls with what
    their documentation says.  The theorem compares the two builds on one
    volume: they agree on everything but the free space. *)
From S2P Require Import Prelude Common Config Startup.
Open Scope Z_scope.

Record VolumeInfo := mkVolumeInfo {
  vi_rootPath : wstring;
  vi_volumeGuidPath : wstring;
  vi_totalBytes : Z;
  vi_freeBytes : Z;
  vi_isFixedDrive : bool;
  vi_isRemovable : bool
}.

Module IVolume.
Class IVolume (V : Type) := {
  QueryInfo : V → Result VolumeInfo;
  IsAvailable : V → bool;
  RootPath : V → wstring
}.
End IVolume.

(** [OpenVolume], of either build: [make] is its [std::make_unique]. *)
Definition OpenVolume {V} (make : wstring → V) (rootPath : wstring) : Result V :=
  if bool_decide (rootPath = []) then
    Failure (mkError ErrorCode.InvalidArgument "rootPath must not be empty" 0)
  else Success (make rootPath).

(** ** PortableVolume.cpp *)

(** [std::filesystem::space_info]. *)
Record SpaceInfo := mkSpaceInfo { capacity : Z; free : Z; available : Z }.

(** [space] and [exists] with an [error_code]: [inl] is the message of the
    error.  The bytes available to the process are among the free ones. *)
Class StdFilesystem := {
  fs_space : string → string + SpaceInfo;
  fs_exists : string → string + bool;
  fs_space_ok p i : fs_space p = inr i → 0 ≤ available i ≤ free i ∧ free i ≤ capacity i
}.

Record PortableVolume := mkPortableVolume { p_rootPath : wstring }.

Module PortableVolume.
Section portable.
Context `{StdFilesystem}.

Definition QueryInfo (v : PortableVolume) : Result VolumeInfo :=
  match fs_space (NarrowPath (p_rootPath v)) with
  | inl ec => Failure (mkError ErrorCode.IoError (String.append "std::filesystem::space failed: " ec) 0)
  | inr space => Success (mkVolumeInfo (p_rootPath v) [] (capacity space) (available space) true false)
  end.

Definition IsAvailable (v : PortableVolume) : bool :=
  match fs_exists (NarrowPath (p_rootPath v)) with
  | inl _ => false
  | inr b => b
  end.
End portable.
End PortableVolume.

#[export] Instance PortableVolume_IVolume `{StdFilesystem} : IVolume.IVolume PortableVolume := {
  IVolume.QueryInfo := PortableVolume.QueryInfo;
  IVolume.IsAvailable := PortableVolume.IsAvailable;
  IVolume.RootPath := p_rootPath
}.

(** ** Win32Volume.cpp *)

Definition DRIVE_UNKNOWN : Z := 0.
Definition DRIVE_NO_ROOT_DIR : Z := 1.
Definition DRIVE_REMOVABLE : Z := 2.
Definition DRIVE_FIXED : Z := 3.

(** [GetDiskFreeSpaceExW]: the last error, or the bytes available to the caller,
    the bytes in total and the free bytes.  A drive type is at most
    [DRIVE_RAMDISK]. *)
Class Win32VolumeApi := {
  GetDiskFreeSpaceExW : wstring → Z + Z * Z * Z;
  GetDriveTypeW : wstring → Z;
  GetVolumeNameForVolumeMountPointW : wstring → option wstring;
  GetDiskFreeSpaceExW_ok p a t f :
    GetDiskFreeSpaceExW p = inr (a, t, f) → 0 ≤ a ≤ f ∧ a ≤ t ∧ t < 2 ^ 64 ∧ f < 2 ^ 64;
  GetDriveTypeW_ok p : 0 ≤ GetDriveTypeW p ≤ 6
}.

Record Win32Volume := mkWin32Volume { w_rootPath : wstring }.

Module Win32Volume.
Section win32.
Context `{Win32VolumeApi}.

Definition QueryInfo (v : Win32Volume) : Result VolumeInfo :=
  match GetDiskFreeSpaceExW (w_rootPath v) with
  | inl lastError => Failure (mkError ErrorCode.Win32ApiFailure "GetDiskFreeSpaceExW failed" lastError)
  | inr (_, totalBytes, totalFreeBytes) =>
    let driveType := GetDriveTypeW (w_rootPath v) in
    let volumeGuidPath := default [] (GetVolumeNameForVolumeMountPointW (w_rootPath v)) in
    Success (mkVolumeInfo (w_rootPath v) volumeGuidPath totalBytes totalFreeBytes
               (driveType =? DRIVE_FIXED) (driveType =? DRIVE_REMOVABLE))
  end.

Definition IsAvailable (v : Win32Volume) : bool :=
  let driveType := GetDriveTypeW (w_rootPath v) in
  negb (driveType =? DRIVE_NO_ROOT_DIR) && negb (driveType =? DRIVE_UNKNOWN).
End win32.
End Win32Volume.

#[export] Instance Win32Volume_IVolume `{Win32VolumeApi} : IVolume.IVolume Win32Volume := {
  IVolume.QueryInfo := Win32Volume.QueryInfo;
  IVolume.IsAvailable := Win32Volume.IsAvailable;
  IVolume.RootPath := w_rootPath
}.

(** ** The two builds *)

(** One fixed drive, as either build sees it: the same path, the same sizes. *)
Definition same_drive `{StdFilesystem, Win32VolumeApi} (rootPath : wstring) (i : SpaceInfo) : Prop :=
  fs_space (NarrowPath rootPath) = inr i ∧ fs_exists (NarrowPath rootPath) = inr true ∧
  GetDiskFreeSpaceExW rootPath = inr (available i, capacity i, free i) ∧ GetDriveTypeW rootPath = DRIVE_FIXED.

(** On one fixed drive both builds open any path but the empty one, find the
    volume available, and report the same root, size and kind.  Under the name
    [freeBytes] the portable build reports what the process may use, the
    Windows build everything that is free: never less, and more where a quota
    or a reserve applies. *)
Theorem volume_builds_compare `{StdFilesystem, Win32VolumeApi} rootPath i pv wv :
  same_drive rootPath i →
  OpenVolume mkPortableVolume rootPath = Success pv → OpenVolume mkWin32Volume rootPath = Success wv →
  rootPath ≠ [] ∧ IVolume.RootPath pv = rootPath ∧ IVolume.RootPath wv = rootPath ∧
  IVolume.IsAvailable pv = true ∧ IVolume.IsAvailable wv = true ∧
  ∃ p w, IVolume.QueryInfo pv = Success p ∧ IVolume.QueryInfo wv = Success w ∧
    vi_rootPath p = vi_rootPath w ∧ vi_totalBytes p = vi_totalBytes w ∧
    vi_isFixedDrive p = vi_isFixedDrive w ∧ vi_isRemovable p = vi_isRemovable w ∧
    vi_freeBytes p ≤ vi_freeBytes w ≤ vi_totalBytes w ∧
    (vi_freeBytes p = vi_freeBytes w ↔ available i = free i).
Proof.
  intros (Hs & He & Hd & Ht). unfold OpenVolume. case_bool_decide as Hne; [done|]. intros [= <-] [= <-].
  pose proof (fs_space_ok _ _ Hs) as Hok. split; [done|]. split; [done|]. split; [done|]. cbn.
  unfold PortableVolume.IsAvailable, Win32Volume.IsAvailable, PortableVolume.QueryInfo, Win32Volume.QueryInfo.
  cbn [p_rootPath w_rootPath]. rewrite Hs, He, Hd, Ht. split; [done|]. split; [done|].
  eexists _, _. split; [done|]. split; [done|]. cbn. split_and!; (done || lia).
Qed.

(** What a Windows volume says of its drive is consistent: it is not both fixed
    and removable, and it is neither where it is not available. *)
Theorem Win32Volume_consistent `{Win32VolumeApi} (v : Win32Volume) i :
  Win32Volume.QueryInfo v = Success i →
  vi_rootPath i = w_rootPath v ∧ vi_isFixedDrive i && vi_isRemovable i = false ∧
  (Win32Volume.IsAvailable v = false → vi_isFixedDrive i = false ∧ vi_isRemovable i = false).
Proof.
  unfold Win32Volume.QueryInfo, Win32Volume.IsAvailable.
  destruct (GetDiskFreeSpaceExW _) as [|[[a t] f]]; [done|]. intros [= <-]. cbn. split; [done|].
  unfold DRIVE_FIXED, DRIVE_REMOVABLE, DRIVE_NO_ROOT_DIR, DRIVE_UNKNOWN.
  destruct (GetDriveTypeW _) as [|[p|p|]|p]; try done; destruct p as [p|p|]; done.
Qed.

(** A drive where such a reserve applies. *)
Definition reserved : SpaceInfo := mkSpaceInfo 1000 600 500.

Definition reserved_filesystem : StdFilesystem.
Proof. refine (Build_StdFilesystem (λ _, inr reserved) (λ _, inr true) _). by intros p i [= <-]. Defined.

Definition reserved_api : Win32VolumeApi.
Proof.
  refine (Build_Win32VolumeApi (λ _, inr (500, 1000, 600)) (λ _, DRIVE_FIXED) (λ _, None) _ _); [|done].
  by intros p a t f [= <- <- <-].
Defined.

Lemma volume_builds_compare_witness :
  ∃ p w, PortableVolume.QueryInfo (H := reserved_filesystem) (mkPortableVolume [68]) = Success p ∧
    Win32Volume.QueryInfo (H := reserved_api) (mkWin32Volume [68]) = Success w ∧
    vi_freeBytes p = 500 ∧ vi_freeBytes w = 600 ∧ vi_freeBytes p ≤ vi_freeBytes w ≤ vi_totalBytes w.
Proof.
  destruct (@volume_builds_compare reserved_filesystem reserved_api [68] reserved (mkPortableVolume [68])
              (mkWin32Volume [68])) as (_ & _ & _ & _ & _ & p & w & Ep & Ew & _ & _ & _ & _ & Hf & _); [done..|].
  exists p, w. split; [exact Ep|]. split; [exact Ew|]. cbn in Ep, Ew. injection Ep as <-. injection Ew as <-. done.
Defined.
