(* ===== verification/Win32File.v ===== *)
(** * Win32File: durable files on Windows

    Models src/src/Storage/src/Win32File.cpp, the implementation of [IFile] in
    the product build.  The Win32 calls are a class, [Win32FileApi], with what
    their documentation says of a file opened for one process as
    [Win32FileDoc]; under it [Win32File] meets the contract [IFileSpec], so
    that every theorem on files holds of the product build, and the product
    and the portable build agree on every client that seeks before it reads
    or writes. *)
From S2P Require Import Prelude Common Storage.
Open Scope Z_scope.

(** ** The calls

    A call is told the handle and gives back the handle as the kernel leaves
    it; [None] and [false] stand for [FALSE]. *)
Class Win32FileApi (H : Type) := {
  (** The buffer is filled with the bytes read. *)
  ReadFile : H → Z → option bytes * H;
  (** [WriteFile h buffer n]: the number of bytes written. *)
  WriteFile : H → bytes → Z → option Z * H;
  (** The new position. *)
  SetFilePointerEx : H → Z → bool → option Z * H;
  GetFileSizeEx : H → option Z * H;
  SetEndOfFile : H → bool * H;
  FlushFileBuffers : H → bool * H;
  GetLastError : H → Z;

  handle_content : H → bytes
}.

(** What the documentation of the calls says: [ReadFile] reads from the file
    pointer, fewer bytes only at the end of the file; [WriteFile] may stop
    early, and a power cut may leave any part of it; a target before the start
    of the file is refused; [SetEndOfFile] cuts the file at the pointer, or
    extends it to the pointer, and then "the contents of the file between the
    old end of the file and the new end of the file are not defined", so that
    nothing is said of the bytes of an extended file, nor of a file written
    beyond its end;
    [FlushFileBuffers] leaves nothing in a buffer.  The pointer of the handle
    moves only where a call says so. *)
Class Win32FileDoc (H : Type) `{Win32FileApi H} := {
  handle_pos : H → Z;
  handle_images : H → bytes → Prop;
  handle_sound : H → Prop;

  handle_pos_nonneg h : 0 ≤ handle_pos h;
  handle_images_self (h : H) : handle_images h (handle_content h);

  ReadFile_doc h n r h' :
    0 ≤ n < 2 ^ 32 → ReadFile h n = (r, h') →
    handle_content h' = handle_content h ∧
    (∀ d, handle_images h' d ↔ handle_images h d) ∧
    (∀ bs, r = Some bs → bs = slice (handle_content h) (handle_pos h) n ∧
                         handle_pos h' = handle_pos h + zlen bs) ∧
    (handle_sound h → is_Some r ∧ handle_sound h');

  WriteFile_doc h buffer n r h' :
    0 ≤ n < 2 ^ 32 → n ≤ zlen buffer → WriteFile h buffer n = (r, h') →
    (∃ k, Z.of_nat k ≤ n ∧
      (handle_pos h ≤ zlen (handle_content h) →
       handle_content h' = write_at (handle_content h) (handle_pos h) (take k buffer)) ∧
      (∀ d, handle_images h' d → ∃ d0 j, (j ≤ k)%nat ∧ handle_images h d0 ∧
         (handle_pos h ≤ zlen d0 → d = write_at d0 (handle_pos h) (take j buffer))) ∧
      (∀ w, r = Some w → w = Z.of_nat k ∧ handle_pos h' = handle_pos h + w)) ∧
    (handle_sound h → r = Some n ∧ handle_sound h');

  SetFilePointerEx_doc h distance fromEnd r h' :
    SetFilePointerEx h distance fromEnd = (r, h') →
    let target := (if fromEnd then zlen (handle_content h) else 0) + distance in
    handle_content h' = handle_content h ∧
    (∀ d, handle_images h' d ↔ handle_images h d) ∧
    (∀ p, r = Some p → p = target ∧ handle_pos h' = target) ∧
    (handle_sound h → handle_sound h' ∧ (0 ≤ target → is_Some r));

  GetFileSizeEx_doc h r h' :
    GetFileSizeEx h = (r, h') →
    handle_content h' = handle_content h ∧
    (∀ d, handle_images h' d ↔ handle_images h d) ∧
    (∀ n, r = Some n → n = zlen (handle_content h)) ∧
    (handle_sound h → is_Some r ∧ handle_sound h');

  SetEndOfFile_doc h ok h' :
    SetEndOfFile h = (ok, h') →
    (∀ d, handle_images h' d →
       handle_images h d ∨ ∃ d0, handle_images h d0 ∧
         (handle_pos h ≤ zlen d0 → d = set_length d0 (handle_pos h))) ∧
    (if ok : bool
     then handle_pos h ≤ zlen (handle_content h) →
          handle_content h' = set_length (handle_content h) (handle_pos h)
     else handle_content h' = handle_content h) ∧
    (handle_sound h → ok = true ∧ handle_sound h');

  FlushFileBuffers_doc h ok h' :
    FlushFileBuffers h = (ok, h') →
    handle_content h' = handle_content h ∧
    (if ok : bool then ∀ d, handle_images h' d ↔ d = handle_content h
     else ∀ d, handle_images h' d → handle_images h d) ∧
    (handle_sound h → ok = true ∧ handle_sound h')
}.

(** [static_cast<LONGLONG>] of a 64-bit unsigned integer. *)
Definition LONGLONG (n : Z) : Z := if wrap64 n <? 2 ^ 63 then wrap64 n else wrap64 n - 2 ^ 64.

(** ** Win32File.cpp *)
Module Win32File.
Section Win32File.
Context {H : Type} `{Win32FileApi H}.

Definition MakeWin32Error {T} (handle : H) (context : string) : Result T :=
  Failure (mkError ErrorCode.Win32ApiFailure context (GetLastError handle)).

(** The counts go through [static_cast<DWORD>]. *)
Definition Read (handle : H) (n : Z) : Result bytes * H :=
  match ReadFile handle (wrap32 n) with
  | (None, handle) => (MakeWin32Error handle "ReadFile failed", handle)
  | (Some buffer, handle) => (Success buffer, handle)
  end.

Definition Write (handle : H) (buffer : bytes) : Result Z * H :=
  match WriteFile handle buffer (wrap32 (zlen buffer)) with
  | (None, handle) => (MakeWin32Error handle "WriteFile failed", handle)
  | (Some bytesWritten, handle) => (Success bytesWritten, handle)
  end.

Definition Seek (handle : H) (offset : Z) (fromEnd : bool) : Result Z * H :=
  match SetFilePointerEx handle offset fromEnd with
  | (None, handle) => (MakeWin32Error handle "SetFilePointerEx failed", handle)
  | (Some newPos, handle) => (Success newPos, handle)
  end.

Definition Size (handle : H) : Result Z * H :=
  match GetFileSizeEx handle with
  | (None, handle) => (MakeWin32Error handle "GetFileSizeEx failed", handle)
  | (Some size, handle) => (Success size, handle)
  end.

Definition SetLength (handle : H) (length : Z) : Result unit * H :=
  match SetFilePointerEx handle (LONGLONG length) false with
  | (None, handle) => (MakeWin32Error handle "SetFilePointerEx (SetLength) failed", handle)
  | (Some _, handle) =>
    match SetEndOfFile handle with
    | (false, handle) => (MakeWin32Error handle "SetEndOfFile failed", handle)
    | (true, handle) => (Success tt, handle)
    end
  end.

Definition FlushDurable (handle : H) : Result unit * H :=
  match FlushFileBuffers handle with
  | (false, handle) => (MakeWin32Error handle "FlushFileBuffers failed", handle)
  | (true, handle) => (Success tt, handle)
  end.
End Win32File.
End Win32File.

(** ** The product build meets the contract *)

Section contract.
Context {H : Type} `{Win32FileDoc H}.
Implicit Types h : H.

#[export] Instance Win32File_IFile : IFile H := {
  Read := Win32File.Read;
  Write := Win32File.Write;
  Seek := Win32File.Seek;
  Size := Win32File.Size;
  SetLength := Win32File.SetLength;
  FlushDurable := Win32File.FlushDurable;
  file_content := handle_content
}.

Lemma DWORD_small n : 0 ≤ n < io_limit → wrap32 n = n.
Proof. intros Hn. apply wrap_small. exact Hn. Qed.

Lemma DWORD_le (bs : bytes) : 0 ≤ wrap32 (zlen bs) < 2 ^ 32 ∧ wrap32 (zlen bs) ≤ zlen bs.
Proof. unfold wrap. pose proof (zlen_nonneg bs). split; [by apply Z.mod_pos_bound|by apply Z.mod_le]. Qed.

Lemma LONGLONG_nonneg n : 0 ≤ n < 2 ^ 64 → 0 ≤ LONGLONG n → LONGLONG n = n.
Proof.
  intros Hn. unfold LONGLONG, wrap. rewrite Z.mod_small by exact Hn.
  destruct (Z.ltb_spec n (2 ^ 63)); lia.
Qed.

Lemma LONGLONG_small n : 0 ≤ n < 2 ^ 63 → LONGLONG n = n.
Proof.
  intros Hn. unfold LONGLONG, wrap. rewrite Z.mod_small by lia.
  destruct (Z.ltb_spec n (2 ^ 63)); lia.
Qed.

Lemma Win32File_SetLength_spec h n r h' :
  0 ≤ n < 2 ^ 64 → Win32File.SetLength h n = (r, h') →
  (∀ d, handle_images h' d →
     handle_images h d ∨ ∃ d0, handle_images h d0 ∧ (n ≤ zlen d0 → d = set_length d0 n)) ∧
  match r with
  | Success _ => n ≤ zlen (handle_content h) → handle_content h' = set_length (handle_content h) n
  | Failure _ => handle_content h' = handle_content h
  end.
Proof.
  intros Hn. unfold Win32File.SetLength, Win32File.MakeWin32Error.
  destruct (SetFilePointerEx _ _ _) as [[p|] h1] eqn:E1;
    destruct (SetFilePointerEx_doc _ _ _ _ _ E1) as (C1 & I1 & P1 & _).
  2:{ intros [= <- <-]. split; [|done]. intros d Hd. left. by apply I1. }
  destruct (P1 p eq_refl) as [_ Hpos]. rewrite Z.add_0_l in Hpos.
  assert (handle_pos h1 = n) as Hpos1.
  { pose proof (handle_pos_nonneg h1). rewrite Hpos in *. by apply LONGLONG_nonneg. }
  destruct (SetEndOfFile h1) as [ok h2] eqn:E2.
  destruct (SetEndOfFile_doc _ _ _ E2) as (I2 & C2 & _). rewrite Hpos1, C1 in *.
  assert (∀ d, handle_images h2 d →
     handle_images h d ∨ ∃ d0, handle_images h d0 ∧ (n ≤ zlen d0 → d = set_length d0 n)) as I.
  { intros d Hd. destruct (I2 d Hd) as [?|(d0 & ? & ?)]; [left; by apply I1|].
    right. exists d0. split; [by apply I1|done]. }
  destruct ok; intros [= <- <-]; by split.
Qed.

#[export] Program Instance Win32File_IFileSpec : IFileSpec H := {
  file_pos := handle_pos;
  crash_image := handle_images;
  reliable := handle_sound
}.
Next Obligation. exact handle_pos_nonneg. Qed.
Next Obligation. exact handle_images_self. Qed.
Next Obligation.
  intros h n r h' Hn. cbn [Read Win32File_IFile]. unfold Win32File.Read, Win32File.MakeWin32Error.
  rewrite DWORD_small by done. destruct (ReadFile h n) as [o h1] eqn:E.
  destruct (ReadFile_doc _ _ _ _ Hn E) as (C & I & R & _).
  destruct o as [bs|]; intros [= <- <-]; auto.
Qed.
Next Obligation.
  intros h bs r h'. cbn [Write Win32File_IFile]. unfold Win32File.Write, Win32File.MakeWin32Error.
  destruct (DWORD_le bs) as [Hn Hle]. destruct (WriteFile h bs _) as [o h1] eqn:E.
  destruct (WriteFile_doc _ _ _ _ _ Hn Hle E) as ((k & Hk & C & I & W) & _).
  intros Hr. assert (h1 = h') as <- by (by destruct o as [w|]; simplify_eq). exists k. split; [unfold zlen in *; lia|]. split; [done|]. split; [done|].
  destruct o as [w|]; simplify_eq; [by apply W|done].
Qed.
Next Obligation.
  intros h off fromEnd r h'. cbn [Seek Win32File_IFile]. unfold Win32File.Seek, Win32File.MakeWin32Error.
  destruct (SetFilePointerEx h off fromEnd) as [o h1] eqn:E.
  destruct (SetFilePointerEx_doc _ _ _ _ _ E) as (C & I & P & _).
  destruct o as [p|]; intros [= <- <-]; split_and!; try done; destruct (P p eq_refl) as [-> ?]; done.
Qed.
Next Obligation.
  intros h r h'. cbn [Size Win32File_IFile]. unfold Win32File.Size, Win32File.MakeWin32Error.
  destruct (GetFileSizeEx h) as [o h1] eqn:E. destruct (GetFileSizeEx_doc _ _ _ E) as (C & I & P & _).
  destruct o as [n|]; intros [= <- <-]; split_and!; try done. left. by apply P.
Qed.
Next Obligation. exact Win32File_SetLength_spec. Qed.
Next Obligation.
  intros h r h'. cbn [FlushDurable Win32File_IFile]. unfold Win32File.FlushDurable, Win32File.MakeWin32Error.
  destruct (FlushFileBuffers h) as [ok h1] eqn:E. destruct (FlushFileBuffers_doc _ _ _ E) as (C & I & _).
  destruct ok; intros [= <- <-]; by split.
Qed.
Next Obligation.
  intros h n Hs Hn. cbn [Read Win32File_IFile]. unfold Win32File.Read. rewrite DWORD_small by done.
  destruct (ReadFile h n) as [o h1] eqn:E. destruct (ReadFile_doc _ _ _ _ Hn E) as (_ & _ & _ & S).
  destruct (S Hs) as [[bs ->] ?]. by eexists _, _.
Qed.
Next Obligation.
  intros h bs Hs Hn. cbn [Write Win32File_IFile]. unfold Win32File.Write.
  rewrite DWORD_small by (split; [apply zlen_nonneg|done]).
  destruct (WriteFile h bs _) as [o h1] eqn:E.
  destruct (WriteFile_doc h bs (zlen bs) o h1 (conj (zlen_nonneg bs) Hn) (Z.le_refl _) E) as (_ & S).
  destruct (S Hs) as [-> ?]. by eexists.
Qed.
Next Obligation.
  intros h off fromEnd Hs Ht. cbn [Seek Win32File_IFile file_content] in *. unfold Win32File.Seek.
  destruct (SetFilePointerEx h off fromEnd) as [o h1] eqn:E.
  destruct (SetFilePointerEx_doc _ _ _ _ _ E) as (_ & _ & _ & S).
  destruct (S Hs) as [? G]. destruct (G Ht) as [p ->]. by eexists _, _.
Qed.
Next Obligation.
  intros h off fromEnd r h' Hs. cbn [Seek Win32File_IFile]. unfold Win32File.Seek.
  destruct (SetFilePointerEx h off fromEnd) as [o h1] eqn:E.
  destruct (SetFilePointerEx_doc _ _ _ _ _ E) as (_ & _ & _ & S).
  destruct (S Hs) as [? _]. by destruct o; intros [= _ <-].
Qed.
Next Obligation.
  intros h Hs. cbn [Size Win32File_IFile file_content]. unfold Win32File.Size.
  destruct (GetFileSizeEx h) as [o h1] eqn:E. destruct (GetFileSizeEx_doc _ _ _ E) as (_ & _ & P & S).
  destruct (S Hs) as [[n ->] ?]. rewrite (P n eq_refl). by eexists.
Qed.
Next Obligation.
  intros h n Hs Hn. cbn [SetLength Win32File_IFile]. unfold Win32File.SetLength.
  destruct (SetFilePointerEx _ _ _) as [o h1] eqn:E.
  destruct (SetFilePointerEx_doc _ _ _ _ _ E) as (_ & _ & _ & S).
  destruct (S Hs) as [Hs1 G]. destruct G as [p ->]; [rewrite LONGLONG_small by done; lia|].
  destruct (SetEndOfFile h1) as [ok h2] eqn:E2. destruct (SetEndOfFile_doc _ _ _ E2) as (_ & _ & S2).
  destruct (S2 Hs1) as [-> ?]. by eexists.
Qed.
Next Obligation.
  intros h Hs. cbn [FlushDurable Win32File_IFile]. unfold Win32File.FlushDurable.
  destruct (FlushFileBuffers h) as [ok h1] eqn:E. destruct (FlushFileBuffers_doc _ _ _ E) as (_ & _ & S).
  destruct (S Hs) as [-> ?]. by eexists.
Qed.
End contract.

(** ** A reference file, and the agreement of the builds

    What a client that keeps to the contract - it seeks before it reads or
    writes, and again after a call that may move the position; it writes within
    the file or at its end, and never lengthens it by [SetLength], which
    "extends with undefined content" (IFile.h) - sees of a file on a device
    without errors: [None] for a call outside the contract. *)
Inductive FileCall :=
  | CallRead (n : Z)
  | CallWrite (data : bytes)
  | CallSeek (offset : Z) (fromEnd : bool)
  | CallSize
  | CallSetLength (length : Z)
  | CallFlushDurable.

Inductive FileAnswer :=
  | Bytes (r : Result bytes)
  | Number (r : Result Z)
  | Ack (r : Result unit).

(** The content, the position where it is known, and whether all of the content
    is on stable storage. *)
Record RefFile := mkRefFile { ref_content : bytes; ref_pos : option Z; ref_synced : bool }.

Definition ref_step (s : RefFile) (c : FileCall) : option (FileAnswer * RefFile) :=
  let content := ref_content s in
  match c with
  | CallRead n =>
    p ← ref_pos s;
    guard ((0 <=? n) && (n <? io_limit) = true);;
    let got := slice content p n in
    Some (Bytes (Success got), mkRefFile content (Some (p + zlen got)) (ref_synced s))
  | CallWrite data =>
    p ← ref_pos s;
    guard ((zlen data <? io_limit) && (p <=? zlen content) = true);;
    Some (Number (Success (zlen data)), mkRefFile (write_at content p data) (Some (p + zlen data)) false)
  | CallSeek offset fromEnd =>
    let target := (if fromEnd then zlen content else 0) + offset in
    guard ((0 <=? target) = true);;
    Some (Number (Success target), mkRefFile content (Some target) (ref_synced s))
  | CallSize => Some (Number (Success (zlen content)), mkRefFile content None (ref_synced s))
  | CallSetLength length =>
    guard ((0 <=? length) && (length <? 2 ^ 63) && (length <=? zlen content) = true);;
    Some (Ack (Success tt), mkRefFile (set_length content length) None false)
  | CallFlushDurable => Some (Ack (Success tt), mkRefFile content None true)
  end.

Fixpoint ref_run (s : RefFile) (calls : list FileCall) : option (list FileAnswer * RefFile) :=
  match calls with
  | [] => Some ([], s)
  | c :: calls =>
    '(a, s) ← ref_step s c;
    '(answers, s) ← ref_run s calls;
    Some (a :: answers, s)
  end.

Section calls.
Context {F : Type} `{IFile F}.

Definition file_step (f : F) (c : FileCall) : FileAnswer * F :=
  match c with
  | CallRead n => let '(r, f) := Read f n in (Bytes r, f)
  | CallWrite data => let '(r, f) := Write f data in (Number r, f)
  | CallSeek offset fromEnd => let '(r, f) := Seek f offset fromEnd in (Number r, f)
  | CallSize => let '(r, f) := Size f in (Number r, f)
  | CallSetLength length => let '(r, f) := SetLength f length in (Ack r, f)
  | CallFlushDurable => let '(r, f) := FlushDurable f in (Ack r, f)
  end.

Fixpoint file_run (f : F) (calls : list FileCall) : list FileAnswer * F :=
  match calls with
  | [] => ([], f)
  | c :: calls =>
    let '(a, f) := file_step f c in
    let '(answers, f) := file_run f calls in
    (a :: answers, f)
  end.
End calls.

Section agreement.
Context {F : Type} `{IFileSpec F}.
Implicit Types f : F.

Record refines f (s : RefFile) : Prop := {
  rf_reliable : reliable f;
  rf_content : file_content f = ref_content s;
  rf_pos p : ref_pos s = Some p → file_pos f = p;
  rf_synced : ref_synced s = true → ∀ d, crash_image f d ↔ d = ref_content s
}.

Lemma step_refines f s c a s' :
  refines f s → ref_step s c = Some (a, s') → ∃ f', file_step f c = (a, f') ∧ refines f' s'.
Proof.
  intros [Hr Hc Hp Hs] HR. destruct s as [content pos synced]. cbn [ref_content ref_pos ref_synced] in *.
  destruct c as [n|data|off fromEnd| |n|]; cbn [ref_step ref_content ref_pos ref_synced] in HR; cbn [file_step].
  - destruct pos as [p|]; [cbn in HR|done]. case_guard as Hg; [cbn in HR|done]. injection HR as <- <-.
    apply andb_true_iff in Hg as [Hg1 Hg2]. zbool. assert (0 ≤ n < io_limit) as Hn by done.
    destruct (reliable_Read f n Hr Hn) as (bs & f' & E & Hr'). rewrite E. exists f'.
    destruct (Read_spec _ _ _ _ Hn E) as (C & I & Hbs & P). rewrite Hc, (Hp p eq_refl) in Hbs.
    rewrite <- Hbs. split; [done|]. split; cbn; [done|congruence| |].
    + intros q [= <-]. by rewrite P, (Hp p eq_refl).
    + intros Hsy d. by rewrite I, (Hs Hsy).
  - destruct pos as [p|]; [cbn in HR|done]. case_guard as Hg; [cbn in HR|done]. injection HR as <- <-.
    apply andb_true_iff in Hg as [Hg Hin]. zbool. destruct (reliable_Write f data Hr Hg) as (f' & E & Hr'). rewrite E. exists f'.
    destruct (Write_spec _ _ _ _ E) as (k & Hk & C & _ & Hn & P).
    split; [done|]. split; cbn; [done| | |done].
    + rewrite C, Hc, (Hp p eq_refl), take_ge; [done| |by rewrite Hc, (Hp p eq_refl)]. unfold zlen in Hn. lia.
    + intros q [= <-]. by rewrite P, (Hp p eq_refl).
  - case_guard as Hg; [cbn in HR|done]. injection HR as <- <-. zbool. rewrite <- Hc in Hg.
    destruct (reliable_Seek f off fromEnd Hr Hg) as (p & f' & E & Hr'). rewrite E. exists f'.
    destruct (Seek_spec _ _ _ _ _ E) as (C & I & Hpos & P). rewrite Hc in Hpos. subst p.
    split; [done|]. split; cbn; [done|congruence| |].
    + by intros q [= <-].
    + intros Hsy d. by rewrite I, (Hs Hsy).
  - injection HR as <- <-. destruct (reliable_Size f Hr) as (f' & E & Hr'). rewrite E, Hc. exists f'.
    destruct (Size_spec _ _ _ E) as (C & I & _). split; [done|]. split; cbn; [done|congruence|done|].
    intros Hsy d. by rewrite I, (Hs Hsy).
  - case_guard as Hg; [cbn in HR|done]. injection HR as <- <-.
    apply andb_true_iff in Hg as [Hg Hin]. apply andb_true_iff in Hg as [Hg1 Hg2]. zbool.
    destruct (reliable_SetLength f n Hr (conj Hg1 Hg2)) as (f' & E & Hr'). rewrite E. exists f'.
    assert (0 ≤ n < 2 ^ 64) as Hn by lia. destruct (SetLength_spec _ _ _ _ Hn E) as (_ & C).
    split; [done|]. split; cbn; [done| |done|done]. rewrite <- Hc in *. by apply C.
  - injection HR as <- <-. destruct (reliable_FlushDurable f Hr) as (f' & E & Hr'). rewrite E. exists f'.
    destruct (FlushDurable_spec _ _ _ E) as (C & I). split; [done|]. split; cbn; [done|congruence|done|].
    intros _ d. by rewrite I, Hc.
Qed.

Lemma run_refines calls : ∀ f s answers s',
  refines f s → ref_run s calls = Some (answers, s') →
  ∃ f', file_run f calls = (answers, f') ∧ refines f' s'.
Proof.
  induction calls as [|c calls IH]; intros f s answers s' Hf HR.
  - injection HR as <- <-. by exists f.
  - cbn [ref_run] in HR. destruct (ref_step s c) as [[a s1]|] eqn:E1; [cbn in HR|done].
    destruct (ref_run s1 calls) as [[as2 s2]|] eqn:E2; [cbn in HR|done]. injection HR as <- <-.
    destruct (step_refines f s c a s1 Hf E1) as (f1 & F1 & Hf1).
    destruct (IH f1 s1 as2 s2 Hf1 E2) as (f2 & F2 & Hf2).
    exists f2. cbn [file_run]. by rewrite F1, F2.
Qed.

Lemma opened_refines f c : reliable f → file_content f = c → refines f (mkRefFile c None false).
Proof. by split. Qed.
End agreement.

