(* ===== verification/Win32Open.v ===== *)
(** * Win32Open: opening and closing files on Windows

    Models [OpenFile] and [Win32File::Close] of
    src/src/Storage/src/Win32File.cpp over a table of open handles.  A file is
    opened for reading and writing and shared for reading only, so that the
    kernel refuses to open it again while a handle is open: two processes never
    write to one journal.  Opening never changes the content of a file. *)
From stdpp Require Import gmap.
From S2P Require Import Prelude Common Storage Config.
Open Scope Z_scope.

Module Win32Open.

(** The dispositions of [CreateFileW]. *)
Inductive Creation := OPEN_EXISTING | CREATE_NEW | OPEN_ALWAYS.

Definition ERROR_FILE_NOT_FOUND : Z := 2.
Definition ERROR_SHARING_VIOLATION : Z := 32.
Definition ERROR_FILE_EXISTS : Z := 80.

(** The files by name, the file each handle leads to, the last error, and the
    errors of the next calls, 0 for none.  Every handle was opened for writing
    and shares reading. *)
Record Volume := mkVolume {
  v_files : gmap wstring bytes;
  v_open : gmap nat wstring;
  v_error : Z;
  v_faults : list Z
}.

Definition is_open (v : Volume) (name : wstring) : Prop := map_Exists (λ _ n, n = name) (v_open v).
#[global] Instance is_open_dec v name : Decision (is_open v name).
Proof. unfold is_open. apply _. Defined.

Definition fails (v : Volume) (e : Z) : option nat * Volume :=
  (None, mkVolume (v_files v) (v_open v) e (v_faults v)).

Definition opens (v : Volume) (name : wstring) (files : gmap wstring bytes) : option nat * Volume :=
  let h := fresh (dom (v_open v)) in
  (Some h, mkVolume files (<[h := name]> (v_open v)) (v_error v) (v_faults v)).

Section open.
(** The file system ignores case. *)
Context (fold_name : wstring → wstring).

(** [CreateFileW] with [GENERIC_READ | GENERIC_WRITE] and [FILE_SHARE_READ]. *)
Definition CreateFileW (path : wstring) (creation : Creation) (v : Volume) : option nat * Volume :=
  let name := fold_name path in
  let '(fault, v) := match v_faults v with
                     | [] => (0, v)
                     | e :: rest => (e, mkVolume (v_files v) (v_open v) (v_error v) rest)
                     end in
  if negb (fault =? 0) then fails v fault else
  match v_files v !! name, creation with
  | Some _, CREATE_NEW => fails v ERROR_FILE_EXISTS
  | Some _, _ => if bool_decide (is_open v name) then fails v ERROR_SHARING_VIOLATION else opens v name (v_files v)
  | None, OPEN_EXISTING => fails v ERROR_FILE_NOT_FOUND
  | None, _ => opens v name (<[name := []]> (v_files v))
  end.

Definition MakeWin32Error (v : Volume) (context : string) : Error :=
  mkError ErrorCode.Win32ApiFailure context (v_error v).

Definition creation (mode : OpenMode.OpenMode) : Creation :=
  match mode with
  | OpenMode.OpenExisting => OPEN_EXISTING
  | OpenMode.CreateNew => CREATE_NEW
  | OpenMode.OpenOrCreate => OPEN_ALWAYS
  end.

Definition OpenFile (path : wstring) (mode : OpenMode.OpenMode) (v : Volume) : Result nat * Volume :=
  match CreateFileW path (creation mode) v with
  | (None, v) => (Failure (MakeWin32Error v "CreateFileW failed"), v)
  | (Some handle, v) => (Success handle, v)
  end.

(** [Close], of the field [handle_], with [None] for [INVALID_HANDLE_VALUE]: the
    field afterwards. *)
Definition Close (handle_ : option nat) (v : Volume) : option nat * Volume :=
  match handle_ with
  | Some h => (None, mkVolume (v_files v) (delete h (v_open v)) (v_error v) (v_faults v))
  | None => (None, v)
  end.

(** ** What opening promises *)

(** No file is open twice, and an open file exists. *)
Record volume_ok (v : Volume) : Prop := {
  vo_exclusive h1 h2 name : v_open v !! h1 = Some name → v_open v !! h2 = Some name → h1 = h2;
  vo_exists h name : v_open v !! h = Some name → is_Some (v_files v !! name)
}.

(** Where no call fails, the outcome by mode; [mode = OpenOrCreate] and
    [CreateNew] create a missing file. *)
Definition open_outcome (v : Volume) (name : wstring) (mode : OpenMode.OpenMode) : option Z :=
  match v_files v !! name, mode with
  | Some _, OpenMode.CreateNew => Some ERROR_FILE_EXISTS
  | Some _, _ => if bool_decide (is_open v name) then Some ERROR_SHARING_VIOLATION else None
  | None, OpenMode.OpenExisting => Some ERROR_FILE_NOT_FOUND
  | None, _ => None
  end.

Lemma CreateFileW_runs path c v r v' :
  CreateFileW path c v = (r, v') →
  match r with
  | Some h => v_open v !! h = None ∧ ¬ (is_Some (v_files v !! fold_name path) ∧ is_open v (fold_name path)) ∧
              v_open v' = <[h := fold_name path]> (v_open v) ∧
              (v_files v' = v_files v ∧ is_Some (v_files v !! fold_name path) ∨
               v_files v' = <[fold_name path := []]> (v_files v) ∧ v_files v !! fold_name path = None)
  | None => v_open v' = v_open v ∧ v_files v' = v_files v
  end.
Proof.
  unfold CreateFileW. set (name := fold_name path).
  destruct (match v_faults v with [] => (0, v) | _ => _ end) as [fault v1] eqn:E1.
  assert (v_files v1 = v_files v ∧ v_open v1 = v_open v) as [Ef Eo]
    by (destruct (v_faults v); injection E1 as _ <-; done).
  clear E1. destruct (negb (fault =? 0)); [by intros [= <- <-]|]. rewrite Ef.
  match goal with |- _ → ?P => set (post := P) end.
  assert (∀ files, (v_files v !! name = None ∨ ¬ is_open v1 name) →
    (files = v_files v ∧ is_Some (v_files v !! name) ∨ files = <[name := []]> (v_files v) ∧ v_files v !! name = None) →
    opens v1 name files = (r, v') → post) as Hopens.
  { intros files Hfree Hfiles. unfold opens. rewrite Eo. intros [= <- <-]. cbn.
    split; [apply not_elem_of_dom, is_fresh|]. split; [|by split].
    intros [[x Hx] Ho]. destruct Hfree as [Hn|Hn]; [congruence|]. apply Hn. unfold is_open. by rewrite Eo. }
  destruct (v_files v !! name) as [bs|] eqn:En, c; try (case_bool_decide as Ho);
    try (by intros [= <- <-]); apply Hopens; eauto.
Qed.

(** What opening promises of the outcome. *)
Definition open_post (path : wstring) (mode : OpenMode.OpenMode) (v : Volume) (r : Result nat) (v' : Volume) : Prop :=
  let name := fold_name path in
  match r with
  | Success h => v_open v !! h = None ∧ v_open v' = <[h := name]> (v_open v) ∧ ¬ is_open v name ∧
                 v_files v' = match v_files v !! name with
                              | Some _ => v_files v
                              | None => <[name := []]> (v_files v)
                              end
  | Failure e => v_open v' = v_open v ∧ v_files v' = v_files v ∧ code e = ErrorCode.Win32ApiFailure
  end ∧
  (v_faults v = [] →
   match open_outcome v name mode with
   | Some err => r = Failure (mkError ErrorCode.Win32ApiFailure "CreateFileW failed" err)
   | None => IsOk r = true
   end).

Lemma OpenFile_runs path mode v r v' :
  volume_ok v → OpenFile path mode v = (r, v') → open_post path mode v r v'.
Proof.
  intros [_ Hex] E. unfold OpenFile in E. destruct (CreateFileW path (creation mode) v) as [h v1] eqn:Ec.
  pose proof (CreateFileW_runs _ _ _ _ _ Ec) as Hr. split.
  - destruct h as [h|]; injection E as <- <-.
    + destruct Hr as (Hh & Hn & Ho & Hf). split; [done|]. split; [done|]. split.
      * intros Hopen. apply Hn. split; [|done]. apply map_Exists_lookup in Hopen as (i & x & Hi & ->). by apply (Hex i).
      * destruct Hf as [[-> [x ->]]|[-> ->]]; done.
    + destruct Hr. by split_and!.
  - intros Hq. unfold CreateFileW in Ec. rewrite Hq in Ec. cbn [Z.eqb negb] in Ec. unfold open_outcome.
    destruct (v_files v !! fold_name path), mode; cbn [creation] in Ec; try (case_bool_decide);
      injection Ec as <- <-; by injection E as <- <-.
Qed.

Lemma OpenFile_ok path mode v r v' : volume_ok v → OpenFile path mode v = (r, v') → volume_ok v'.
Proof.
  intros Hok E. destruct (OpenFile_runs _ _ _ _ _ Hok E) as [Hr _]. destruct Hok as [Hex Hfi]. destruct r as [h|e].
  - destruct Hr as (Hh & Eo & Hn & Ef).
    assert (∀ i name, v_open v !! i = Some name → name ≠ fold_name path) as Hne.
    { intros i name Hi ->. apply Hn, map_Exists_lookup. by exists i, (fold_name path). }
    split; rewrite Eo.
    + intros h1 h2 name H1 H2. apply lookup_insert_Some in H1 as [[<- <-]|[_ H1]];
        apply lookup_insert_Some in H2 as [[<- E2]|[_ H2]]; try done.
      * by destruct (Hne _ _ H2).
      * subst name. by destruct (Hne _ _ H1).
      * by eapply Hex.
    + intros i name Hi. rewrite Ef. destruct (v_files v !! fold_name path) as [bs|] eqn:Ep.
      * apply lookup_insert_Some in Hi as [[_ <-]|[_ Hi]]; [by eexists|by eapply Hfi].
      * apply lookup_insert_is_Some'. apply lookup_insert_Some in Hi as [[_ <-]|[_ Hi]]; [by left|right; by eapply Hfi].
  - destruct Hr as (Eo & Ef & _). by split; rewrite ?Eo, ?Ef.
Qed.

Lemma Close_ok h v : volume_ok v → volume_ok (Close h v).2.
Proof.
  intros [Hex Hfi]. destruct h as [h|]; [|done]. split; cbn.
  - intros h1 h2 name H1 H2. apply lookup_delete_Some in H1 as [_ H1]. apply lookup_delete_Some in H2 as [_ H2]. by eapply Hex.
  - intros i name Hi. apply lookup_delete_Some in Hi as [_ Hi]. by eapply Hfi.
Qed.

(** ** Any number of processes *)

(** A client opens a file, or closes a file object it has: a handle it was
    given, once or twice. *)
Inductive Op := OpOpen (path : wstring) (mode : OpenMode.OpenMode) | OpClose (h : nat).

Definition step (v : Volume) (o : Op) : Volume :=
  match o with
  | OpOpen path mode => (OpenFile path mode v).2
  | OpClose h => let '(field, v) := Close (Some h) v in (Close field v).2
  end.

Definition run (v : Volume) (ops : list Op) : Volume := foldl step v ops.

Lemma run_ok ops v : volume_ok v → volume_ok (run v ops).
Proof.
  revert v. induction ops as [|o ops IH]; intros v Hok; [done|]. apply IH. destruct o as [path mode|h].
  - cbn. destruct (OpenFile path mode v) as [r v'] eqn:E. by eapply OpenFile_ok.
  - cbn. by apply (Close_ok (Some h)).
Qed.

(** No content of a file changes: a file that is missing may be created. *)
Lemma run_files ops v name bs : volume_ok v → v_files v !! name = Some bs → v_files (run v ops) !! name = Some bs.
Proof.
  revert v. induction ops as [|o ops IH]; intros v Hok Hf; [done|]. apply IH.
  - by apply (run_ok [o]).
  - destruct o as [path mode|h]; [|done]. cbn. destruct (OpenFile path mode v) as [r v'] eqn:E.
    destruct (OpenFile_runs _ _ _ _ _ Hok E) as [Hr _]. cbn. destruct r as [h|e].
    + destruct Hr as (_ & _ & _ & ->). destruct (v_files v !! fold_name path) eqn:Ep; [done|].
      rewrite lookup_insert_ne; [done|]. congruence.
    + destruct Hr as (_ & -> & _). done.
Qed.

(** On Windows a file is open once and opening changes no content.  After
    any openings and closings by any clients, whatever calls failed, no file is
    open through two handles and every content there was is as it was; an
    opening that succeeds is of a file that was not open, and creates it empty
    where it was missing; one that fails opens nothing; and where no call fails
    the outcome is the one the mode, the file and the handles call for. *)
Theorem OpenFile_exclusive ops v path mode r v' :
  volume_ok v → OpenFile path mode (run v ops) = (r, v') →
  open_post path mode (run v ops) r v' ∧ volume_ok v' ∧
  (∀ name bs, v_files v !! name = Some bs → v_files v' !! name = Some bs).
Proof.
  intros Hok E. pose proof (run_ok ops v Hok) as Hok1. split; [by apply OpenFile_runs|].
  split; [by eapply OpenFile_ok|]. intros name bs Hb. pose proof (run_files (ops ++ [OpOpen path mode]) v name bs Hok Hb) as H.
  unfold run in *. rewrite foldl_app in H. cbn in H. by rewrite E in H.
Qed.
End open.
End Win32Open.
