(* ===== verification/ServiceHost.v ===== *)
(** * ServiceHost: the process under the Service Control Manager

    Models src/src/Service/src/Win32ServiceHost.cpp: the thread that runs
    [ServiceMain], the dispatcher thread that runs [HandleControl], and the
    statuses both report.  Each of the two is a step function over the fields
    of the host, a step being what runs without the other thread being able to
    show: a report, the call of a callback and its return, a store to the stop
    event.  The control manager is a predicate on the status it saw last: which
    controls it may send.

    The rest of the process is a parameter: a state, and a relation that is
    what all its threads may do to it, between any two steps of the host, in the
    middle of a callback too.  The steps of the whole are a relation, and the
    theorems here are invariants of the states reachable by it;
    ServiceProcess.v instantiates them with the threads and the callbacks of
    the service. *)
From S2P Require Import Prelude Common.
Open Scope Z_scope.

(** ** Statuses and controls of the Win32 headers *)
Module ServiceState.
Inductive ServiceState :=
  SERVICE_STOPPED | SERVICE_START_PENDING | SERVICE_STOP_PENDING | SERVICE_RUNNING.

#[global] Instance ServiceState_eq_dec : EqDecision ServiceState.
Proof. solve_decision. Defined.
End ServiceState.
Import ServiceState.

Module Control.
Inductive Control :=
  | SERVICE_CONTROL_INTERROGATE
  | SERVICE_CONTROL_PRESHUTDOWN
  | SERVICE_CONTROL_STOP
  | SERVICE_CONTROL_SHUTDOWN
  | OtherControl (code : Z).
End Control.
Import Control.

Definition NO_ERROR : Z := 0.
Definition ERROR_CALL_NOT_IMPLEMENTED : Z := 120.
Definition ERROR_SERVICE_SPECIFIC_ERROR : Z := 1066.

(** [dwControlsAccepted]: all of stop, shutdown and pre-shutdown, or none. *)
Record SERVICE_STATUS := mkStatus {
  dwCurrentState : ServiceState;
  dwWin32ExitCode : Z;
  dwWaitHint : Z;
  acceptsControls : bool;
  dwCheckPoint : Z
}.

(** ** IServiceHost.h and the host *)
Section Host.
Context {W : Type}.

(** A callback that runs beside the other threads: its call, and its return once
    the process has come to the end of it. *)
Record Callback := mkCallback { enter : W → W; leave : W → option (Result unit * W) }.

(** [None] for an empty [std::function].  The start callback is one step: it
    creates the other threads as the last things it does to the process. *)
Record ServiceCallbacks := mkCallbacks {
  onStart : option (W → Result unit * W);
  onStop : option Callback;
  onPreShutdown : option Callback
}.

(** The fields of [Win32ServiceHost], the statuses reported so far, the last one
    first, and the rest of the process. *)
Record Host := mkHost {
  statusHandle_ : bool;
  stopEvent_ : bool;
  checkpoint_ : Z;
  runResult_ : Result unit;
  reported : list SERVICE_STATUS;
  process : W
}.

Definition with_process (h : Host) (w : W) : Host :=
  mkHost (statusHandle_ h) (stopEvent_ h) (checkpoint_ h) (runResult_ h) (reported h) w.
Definition with_result (h : Host) (r : Result unit) : Host :=
  mkHost (statusHandle_ h) (stopEvent_ h) (checkpoint_ h) r (reported h) (process h).

Definition ReportStatus (state : ServiceState) (exitCode waitHintMs : Z) (h : Host) : Host :=
  let accepted := negb (bool_decide (state = SERVICE_START_PENDING)) in
  let idle := bool_decide (state = SERVICE_RUNNING) || bool_decide (state = SERVICE_STOPPED) in
  let checkpoint := if idle then checkpoint_ h else wrap32 (checkpoint_ h + 1) in
  let status := mkStatus state exitCode waitHintMs accepted (if idle then 0 else checkpoint) in
  mkHost (statusHandle_ h) (stopEvent_ h) checkpoint (runResult_ h) (status :: reported h) (process h).

(** A callback, if there is one. *)
Definition call (callback : option (W → Result unit * W)) (h : Host) : Result unit * Host :=
  match callback with
  | None => (Success tt, h)
  | Some f => let '(r, w) := f (process h) in (r, with_process h w)
  end.

(** Where [ServiceMain] stands. *)
Inductive MainPc :=
  | main_entry
  | main_registered
  | main_starting
  | main_started
  | main_failed (r : Result unit)
  | main_waiting
  | main_woken
  | main_returned.

(** [registered]: what [RegisterServiceCtrlHandlerExW] and [GetLastError]
    answer.  [None]: the thread waits. *)
Definition main_step (callbacks : ServiceCallbacks) (registered : bool) (lastError : Z) (pc : MainPc) (h : Host) :
    option (MainPc * Host) :=
  match pc with
  | main_entry =>
    if registered then
      Some (main_registered, mkHost true (stopEvent_ h) (checkpoint_ h) (runResult_ h) (reported h) (process h))
    else
      Some (main_returned, with_result h (Failure
        (mkError ErrorCode.Win32ApiFailure "RegisterServiceCtrlHandlerExW failed" lastError)))
  | main_registered => Some (main_starting, ReportStatus SERVICE_START_PENDING NO_ERROR 3000 h)
  | main_starting =>
    match call (onStart callbacks) h with
    | (Success _, h) => Some (main_started, h)
    | (Failure e, h) => Some (main_failed (Failure e), h)
    end
  | main_failed r =>
    Some (main_returned, with_result (ReportStatus SERVICE_STOPPED ERROR_SERVICE_SPECIFIC_ERROR 0 h) r)
  | main_started => Some (main_waiting, ReportStatus SERVICE_RUNNING NO_ERROR 0 h)
  | main_waiting => if stopEvent_ h then Some (main_woken, h) else None
  | main_woken => Some (main_returned, with_result (ReportStatus SERVICE_STOPPED NO_ERROR 0 h) (Success tt))
  | main_returned => None
  end.

(** Where [HandleControl] stands. *)
Inductive HandlerPc :=
  | idle
  | entered (control : Control)
  | reported_pending (control : Control)
  | in_callback (control : Control)
  | stop_called.

(** The controls that ask the service to end. *)
Definition ends_service (c : Control) : bool :=
  match c with
  | SERVICE_CONTROL_PRESHUTDOWN | SERVICE_CONTROL_STOP | SERVICE_CONTROL_SHUTDOWN => true
  | _ => false
  end.

(** The callback of such a control, and where the handler goes on after it. *)
Definition callback_of (callbacks : ServiceCallbacks) (c : Control) : option Callback :=
  match c with
  | SERVICE_CONTROL_PRESHUTDOWN => onPreShutdown callbacks
  | SERVICE_CONTROL_STOP | SERVICE_CONTROL_SHUTDOWN => onStop callbacks
  | _ => None
  end.

Definition after_callback (c : Control) : HandlerPc :=
  match c with SERVICE_CONTROL_PRESHUTDOWN => idle | _ => stop_called end.

Definition handler_step (callbacks : ServiceCallbacks) (pc : HandlerPc) (h : Host) : option (HandlerPc * Host) :=
  match pc with
  | idle => None
  | entered SERVICE_CONTROL_INTERROGATE => Some (idle, h)
  | entered SERVICE_CONTROL_PRESHUTDOWN =>
    Some (reported_pending SERVICE_CONTROL_PRESHUTDOWN, ReportStatus SERVICE_STOP_PENDING NO_ERROR 10000 h)
  | entered ((SERVICE_CONTROL_STOP | SERVICE_CONTROL_SHUTDOWN) as control) =>
    Some (reported_pending control, ReportStatus SERVICE_STOP_PENDING NO_ERROR 5000 h)
  | reported_pending control =>
    match callback_of callbacks control with
    | None => Some (after_callback control, h)
    | Some f => Some (in_callback control, with_process h (enter f (process h)))
    end
  | in_callback control =>
    f ← callback_of callbacks control;
    '(_, w) ← leave f (process h);
    Some (after_callback control, with_process h w)
  | stop_called =>
    Some (idle, mkHost (statusHandle_ h) true (checkpoint_ h) (runResult_ h) (reported h) (process h))
  | entered (OtherControl _) => Some (idle, h)
  end.

(** What [HandleControl] returns to the dispatcher. *)
Definition HandleControl_code (control : Control) : Z :=
  match control with OtherControl _ => ERROR_CALL_NOT_IMPLEMENTED | _ => NO_ERROR end.

(** [Run]: the dispatcher returns when the service has stopped, or fails. *)
Definition Run_result (dispatched : bool) (lastError : Z) (h : Host) : Result unit :=
  if negb dispatched then Failure (mkError ErrorCode.Win32ApiFailure
    "StartServiceCtrlDispatcherW failed (note: this call only succeeds when the process was actually launched by the Service Control Manager, not when run interactively)"
    lastError)
  else runResult_ h.

Definition Host_new (w : W) : Host := mkHost false false 0 (Success tt) [] w.
End Host.
Arguments Callback : clear implicits.
Arguments ServiceCallbacks : clear implicits.
Arguments Host : clear implicits.

Definition CreateServiceHost {W} (serviceName : list Z) (w : W) : Result (Host W) :=
  if bool_decide (serviceName = []) then
    Failure (mkError ErrorCode.InvalidArgument "serviceName must not be empty" 0)
  else Success (Host_new w).

(** ** The process *)

Record System W := mkSystem { main : MainPc; handler : HandlerPc; host : Host W }.
Arguments mkSystem {W} _ _ _.
Arguments main {W} _.
Arguments handler {W} _.
Arguments host {W} _.

Definition last_state {W} (s : System W) : option ServiceState :=
  dwCurrentState <$> head (reported (host s)).

Section system.
Context {W : Type}.
Context (callbacks : ServiceCallbacks W) (registered : bool) (lastError : Z).

(** Which controls the control manager may send a service whose last status it
    is told. *)
Context (may_send : SERVICE_STATUS → Control → bool).

(** What the rest of the process does: the threads the start callback has
    created, and the callbacks while they run. *)
Context (other : W → W → Prop).

Inductive sys_step : System W → System W → Prop :=
  | step_main m p h m' h' :
      main_step callbacks registered lastError m h = Some (m', h') →
      sys_step (mkSystem m p h) (mkSystem m' p h')
  | step_handler m p h p' h' :
      handler_step callbacks p h = Some (p', h') →
      sys_step (mkSystem m p h) (mkSystem m p' h')
  | step_control m h st earlier c :
      reported h = st :: earlier → may_send st c = true →
      sys_step (mkSystem m idle h) (mkSystem m (entered c) h)
  | step_other m p h w :
      other (process h) w → sys_step (mkSystem m p h) (mkSystem m p (with_process h w)).

Definition sys_start (w : W) : System W := mkSystem main_entry idle (Host_new w).

(** The dispatcher has nothing at hand that could end the service. *)
Definition harmless (p : HandlerPc) : Prop :=
  p = idle ∨ ∃ c, p = entered c ∧ ends_service c = false.

(** It has not reported a stop yet. *)
Definition unreported (p : HandlerPc) : Prop := p = idle ∨ ∃ c, p = entered c.

Lemma harmless_step p h p' h' :
  harmless p → handler_step callbacks p h = Some (p', h') → p' = idle ∧ h' = h.
Proof. intros [->|(c & -> & Hc)]; [done|]. destruct c; simpl in *; try done; by intros [= <- <-]. Qed.

Lemma harmless_idle : harmless idle.
Proof. by left. Qed.

Lemma unreported_idle : unreported idle.
Proof. by left. Qed.

Lemma harmless_unreported p : harmless p → unreported p.
Proof. intros [->|(c & -> & _)]; [by left|right; eauto]. Qed.

(** An invariant of the reachable states by induction along the run. *)
Lemma sys_invariant (I : System W → Prop) s0 s :
  I s0 → (∀ a b, I a → sys_step a b → I b) → rtc sys_step s0 s → I s.
Proof. intros H0 Hstep Hr. revert H0. induction Hr; eauto. Qed.

(** *** What a running service has done *)
Section running.
Context (start : W → Result unit * W) (P : W → Prop).
Hypothesis starts : onStart callbacks = Some start.
Hypothesis start_establishes : ∀ w w', start w = (Success tt, w') → P w'.
Hypothesis other_keeps : ∀ w w', other w w' → P w → P w'.
(** A control that ends the service is sent only to one that accepts it. *)
Hypothesis may_send_accepted : ∀ st c,
  may_send st c = true → ends_service c = true → acceptsControls st = true.

Definition starting_inv (p : HandlerPc) (h : Host W) (st : option ServiceState) : Prop :=
  harmless p ∧ stopEvent_ h = false ∧ dwCurrentState <$> head (reported h) = st ∧
  (∀ s, head (reported h) = Some s → acceptsControls s = false).

Definition running_inv (s : System W) : Prop :=
  let h := host s in
  match main s with
  | main_entry | main_registered => starting_inv (handler s) h None
  | main_starting | main_failed _ => starting_inv (handler s) h (Some SERVICE_START_PENDING)
  | main_started => starting_inv (handler s) h (Some SERVICE_START_PENDING) ∧ P (process h)
  | main_waiting =>
    (unreported (handler s) ∧ stopEvent_ h = false ∧ last_state s = Some SERVICE_RUNNING ∧ P (process h)) ∨
    last_state s = Some SERVICE_STOP_PENDING
  | main_woken | main_returned => last_state s ≠ Some SERVICE_RUNNING
  end.

(** The handler reports nothing but that it is stopping. *)
Lemma handler_reports m p h p' h' :
  handler_step callbacks p h = Some (p', h') →
  last_state (mkSystem m p' h') = last_state (mkSystem m p h) ∨
  last_state (mkSystem m p' h') = Some SERVICE_STOP_PENDING.
Proof.
  unfold last_state. cbn [host]. destruct p as [|c|c|c|]; cbn [handler_step]; [done| | | |].
  - destruct c; intros [= <- <-]; auto.
  - destruct (callback_of callbacks c); intros [= <- <-]; auto.
  - destruct (callback_of callbacks c) as [f|]; [|done]. cbn. destruct (leave f (process h)) as [[r w]|]; [|done].
    intros [= <- <-]. auto.
  - intros [= <- <-]. auto.
Qed.

Lemma handler_keeps_not_running m p h p' h' :
  last_state (mkSystem m p h) ≠ Some SERVICE_RUNNING →
  handler_step callbacks p h = Some (p', h') → last_state (mkSystem m p' h') ≠ Some SERVICE_RUNNING.
Proof.
  intros Hl Hh. by destruct (handler_reports m _ _ _ _ Hh) as [->| ->].
Qed.

Lemma handler_keeps_pending m p h p' h' :
  last_state (mkSystem m p h) = Some SERVICE_STOP_PENDING →
  handler_step callbacks p h = Some (p', h') → last_state (mkSystem m p' h') = Some SERVICE_STOP_PENDING.
Proof.
  intros Hl Hh. by destruct (handler_reports m _ _ _ _ Hh) as [->| ->].
Qed.

Lemma starting_handler p h st p' h' :
  starting_inv p h st → handler_step callbacks p h = Some (p', h') → starting_inv p' h' st.
Proof.
  intros (Hp & Hrest) E. destruct (harmless_step _ _ _ _ Hp E) as [-> ->].
  split; [apply harmless_idle|done].
Qed.

Lemma starting_control h st s earlier c :
  starting_inv idle h st → reported h = s :: earlier → may_send s c = true → starting_inv (entered c) h st.
Proof.
  intros (_ & Hs & Hst & Hacc) Hrep Hc. split; [|done]. right. exists c. split; [done|].
  destruct (ends_service c) eqn:Ee; [|done]. pose proof (may_send_accepted s c Hc Ee) as Ha.
  rewrite Hrep in Hacc. by rewrite (Hacc s eq_refl) in Ha.
Qed.

Lemma running_main m p h m' h' :
  running_inv (mkSystem m p h) → main_step callbacks registered lastError m h = Some (m', h') →
  running_inv (mkSystem m' p h').
Proof.
  unfold running_inv, last_state. cbn [main handler host]. intros HI Hm.
  destruct m; cbn [main_step] in Hm.
  - destruct registered; injection Hm as <- <-; [done|]. destruct HI as (_ & _ & Hl & _). cbn. by rewrite Hl.
  - injection Hm as <- <-. destruct HI as (Hp & Hs & _). split_and!; try done. by intros s [= <-].
  - rewrite starts in Hm. unfold call in Hm. destruct (start (process h)) as [[[]|e] w] eqn:Es;
      injection Hm as <- <-; [|done]. split; [done|]. by eapply start_establishes.
  - injection Hm as <- <-. destruct HI as ((Hp & Hs & _) & HP). left. split_and!; try done.
    by apply harmless_unreported.
  - by injection Hm as <- <-.
  - destruct (stopEvent_ h) eqn:Es; [|done]. injection Hm as <- <-.
    destruct HI as [(_ & Hf & _)| ->]; [congruence|done].
  - by injection Hm as <- <-.
  - done.
Qed.

Lemma running_handler m p h p' h' :
  running_inv (mkSystem m p h) → handler_step callbacks p h = Some (p', h') →
  running_inv (mkSystem m p' h').
Proof.
  unfold running_inv. cbn [main handler host]. intros HI Hh. destruct m; cbn [main handler host].
  1-3,5: by eapply starting_handler.
  - destruct HI as [Hst HP]. split; [by eapply starting_handler|].
    destruct Hst as (Hp & _). by destruct (harmless_step _ _ _ _ Hp Hh) as [_ ->].
  - destruct HI as [(Hp & Hs & Hl & HP)|Hl]; [|right; by eapply handler_keeps_pending].
    destruct Hp as [->|[c ->]]; [done|]. destruct c; injection Hh as <- <-.
    all: try (left; split_and!; [apply unreported_idle|done..]). all: by right.
  - by eapply handler_keeps_not_running.
  - by eapply handler_keeps_not_running.
Qed.

Lemma running_control m h st earlier c :
  running_inv (mkSystem m idle h) → reported h = st :: earlier → may_send st c = true →
  running_inv (mkSystem m (entered c) h).
Proof.
  unfold running_inv. cbn [main handler host]. intros HI Hr Hc. destruct m; cbn [main handler host].
  1-3,5: by eapply starting_control.
  - destruct HI as [Hst HP]. split; [by eapply starting_control|done].
  - destruct HI as [(_ & Hs & Hl & HP)|Hl]; [left|by right]. split_and!; try done. right; eauto.
  - exact HI.
  - exact HI.
Qed.

Lemma running_other m p h w :
  running_inv (mkSystem m p h) → other (process h) w → running_inv (mkSystem m p (with_process h w)).
Proof.
  unfold running_inv, last_state. cbn [main handler host]. intros HI Ho. destruct m; try exact HI.
  - destruct HI as [Hst HP]. split; [done|]. by eapply other_keeps.
  - destruct HI as [(Hp & Hs & Hl & HP)|Hl]; [left|by right]. split_and!; try done. by eapply other_keeps.
Qed.

(** A status [SERVICE_RUNNING] means that the start callback succeeded and
    nothing has ended the service since. *)
Lemma running_started w s :
  rtc sys_step (sys_start w) s → last_state s = Some SERVICE_RUNNING → P (process (host s)).
Proof.
  intros Hr Hl. assert (running_inv s) as HI.
  { eapply (sys_invariant running_inv); [|intros a b Ha Hb|exact Hr].
    - split_and!; try done. apply harmless_idle.
    - destruct Hb; [by eapply running_main|by eapply running_handler|by eapply running_control|by eapply running_other]. }
  destruct s as [m p h]. unfold running_inv, last_state in *. cbn [main handler host] in *.
  destruct m; try (destruct HI as (_ & _ & HI & _); congruence).
  - destruct HI as ((_ & _ & HI & _) & _). congruence.
  - destruct HI as [(_ & _ & _ & HP)|HI]; [done|congruence].
  - done.
  - done.
Qed.
End running.

(** *** What a stopped service has done *)
Section stopping.
Context (start : W → Result unit * W) (stop : Callback W) (P R Q : W → Prop).
Hypothesis starts : onStart callbacks = Some start.
Hypothesis stops : onStop callbacks = Some stop.
Hypothesis start_establishes : ∀ w w', start w = (Success tt, w') → P w'.
Hypothesis other_keeps : ∀ w w', other w w' → P w → P w'.
(** While the stop callback runs there is [R]; when it has returned, [Q], and
    then nothing of the process runs any more. *)
Hypothesis stop_enters : ∀ w, P w → R (enter stop w).
Hypothesis other_keeps_stopping : ∀ w w', other w w' → R w → R w'.
Hypothesis stop_leaves : ∀ w r w', R w → leave stop w = Some (r, w') → Q w'.
Hypothesis stopped_rests : ∀ w w', Q w → ¬ other w w'.
(** A control that ends the service is sent only while its last status is
    [SERVICE_RUNNING]: to a service that is pending or stopped the control
    manager answers [ERROR_SERVICE_CANNOT_ACCEPT_CTRL]. *)
Hypothesis may_send_running : ∀ st c,
  may_send st c = true → ends_service c = true → dwCurrentState st = SERVICE_RUNNING.

Definition quiet_inv (p : HandlerPc) (h : Host W) (st : option ServiceState) : Prop :=
  harmless p ∧ stopEvent_ h = false ∧ dwCurrentState <$> head (reported h) = st.

(** A control that ends the service is being handled. *)
Definition ending (p : HandlerPc) (h : Host W) : Prop :=
  (∃ c, p = reported_pending c ∧ ends_service c = true ∧ P (process h)) ∨
  p = in_callback SERVICE_CONTROL_PRESHUTDOWN ∨
  (∃ c, p = in_callback c ∧ callback_of callbacks c = onStop callbacks ∧ after_callback c = stop_called ∧ R (process h)) ∨
  (p = stop_called ∧ Q (process h)).

Definition stopping_inv (s : System W) : Prop :=
  let p := handler s in
  let h := host s in
  let last := last_state s in
  match main s with
  | main_entry | main_registered => quiet_inv p h None
  | main_starting | main_failed _ => quiet_inv p h (Some SERVICE_START_PENDING)
  | main_started => quiet_inv p h (Some SERVICE_START_PENDING) ∧ P (process h)
  | main_waiting =>
    (last = Some SERVICE_RUNNING ∧ unreported p ∧ stopEvent_ h = false ∧ P (process h)) ∨
    (last = Some SERVICE_STOP_PENDING ∧ stopEvent_ h = false ∧ (harmless p ∨ ending p h)) ∨
    (last = Some SERVICE_STOP_PENDING ∧ stopEvent_ h = true ∧ harmless p ∧ Q (process h))
  | main_woken => last = Some SERVICE_STOP_PENDING ∧ harmless p ∧ Q (process h)
  | main_returned =>
    harmless p ∧ (last = None ∨ ∃ st, head (reported h) = Some st ∧ dwCurrentState st = SERVICE_STOPPED ∧
                                      (dwWin32ExitCode st = NO_ERROR → Q (process h)))
  end.

Lemma other_keeps_stopped w w' : other w w' → Q w → Q w'.
Proof. intros Ho HQ. by destruct (stopped_rests w w' HQ). Qed.

Lemma quiet_handler p h st p' h' :
  quiet_inv p h st → handler_step callbacks p h = Some (p', h') → quiet_inv p' h' st.
Proof.
  intros (Hp & Hrest) E. destruct (harmless_step _ _ _ _ Hp E) as [-> ->].
  split; [apply harmless_idle|done].
Qed.

(** Where the last status is not [SERVICE_RUNNING] only harmless controls come. *)
Lemma control_harmless st c :
  may_send st c = true → dwCurrentState st ≠ SERVICE_RUNNING →
  harmless (entered c).
Proof.
  intros Hc Hst. right. exists c. split; [done|]. destruct (ends_service c) eqn:Ee; [|done].
  by destruct Hst; eapply may_send_running.
Qed.

Lemma stopping_main m p h m' h' :
  stopping_inv (mkSystem m p h) → main_step callbacks registered lastError m h = Some (m', h') →
  stopping_inv (mkSystem m' p h').
Proof.
  unfold stopping_inv, last_state. cbn [main handler host]. intros HI Hm.
  destruct m; cbn [main_step] in Hm.
  - destruct registered; injection Hm as <- <-; [done|]. destruct HI as (Hp & _ & Hl).
    split; [done|]. left. exact Hl.
  - injection Hm as <- <-. destruct HI as (Hp & Hs & _). by split_and!.
  - rewrite starts in Hm. unfold call in Hm. destruct (start (process h)) as [[[]|e] w] eqn:Es;
      injection Hm as <- <-; [|done]. split; [done|]. by eapply start_establishes.
  - injection Hm as <- <-. destruct HI as ((Hp & Hs & _) & HP). left. split_and!; try done.
    by apply harmless_unreported.
  - injection Hm as <- <-. destruct HI as (Hp & _ & _). split; [done|]. right. by eexists.
  - destruct (stopEvent_ h) eqn:Es; [|done]. injection Hm as <- <-.
    destruct HI as [(_ & _ & Hf & _)|[(_ & Hf & _)|(Hl & _ & Hp & HQ)]]; congruence || done.
  - injection Hm as <- <-. destruct HI as (_ & Hp & HQ). split; [done|]. right. by eexists.
  - done.
Qed.

Lemma stopping_handler m p h p' h' :
  stopping_inv (mkSystem m p h) → handler_step callbacks p h = Some (p', h') →
  stopping_inv (mkSystem m p' h').
Proof.
  unfold stopping_inv. cbn [main handler host]. intros HI Hh. destruct m; cbn [main handler host].
  1-3,5: by eapply quiet_handler.
  - destruct HI as [Hst HP]. split; [by eapply quiet_handler|].
    destruct Hst as (Hp & _). by destruct (harmless_step _ _ _ _ Hp Hh) as [_ ->].
  - destruct HI as [(Hl & Hp & Hs & HP)|[(Hl & Hs & Hp)|(Hl & Hs & Hp & HQ)]].
    + destruct Hp as [->|[c ->]]; [done|]. destruct c; injection Hh as <- <-.
      1,5: by left; split_and!; try done; apply unreported_idle.
      all: right; left; split_and!; try done; right; left; by eexists.
    + destruct Hp as [Hp|[(c & -> & Hc & HP)|[->|[(c & -> & Ec & Ea & HR)|[-> HQ]]]]].
      * destruct (harmless_step _ _ _ _ Hp Hh) as [-> ->]. right; left. split_and!; try done.
        left. apply harmless_idle.
      * destruct c; try done; simpl in Hh.
        -- right; left. destruct (onPreShutdown callbacks); injection Hh as <- <-; split_and!; try done;
             [right; right; by left|left; apply harmless_idle].
        -- rewrite stops in Hh. injection Hh as <- <-. right; left. split_and!; try done. right; right; right; left.
           exists SERVICE_CONTROL_STOP. split_and!; [done..|]. by apply stop_enters.
        -- rewrite stops in Hh. injection Hh as <- <-. right; left. split_and!; try done. right; right; right; left.
           exists SERVICE_CONTROL_SHUTDOWN. split_and!; [done..|]. by apply stop_enters.
      * cbn in Hh. destruct (onPreShutdown callbacks) as [f|]; [|done]. cbn in Hh.
        destruct (leave f (process h)) as [[r w]|]; [|done]. injection Hh as <- <-. right; left.
        split_and!; try done. left. apply harmless_idle.
      * cbn [handler_step] in Hh. rewrite Ec, stops in Hh. cbn in Hh.
        destruct (leave stop (process h)) as [[r w]|] eqn:Es; [|done]. injection Hh as <- <-. right; left.
        split_and!; try done. right; right; right; right. split; [done|]. by eapply stop_leaves.
      * injection Hh as <- <-. right; right. split_and!; try done. apply harmless_idle.
    + destruct (harmless_step _ _ _ _ Hp Hh) as [-> ->]. right; right. split_and!; try done.
      apply harmless_idle.
  - destruct HI as (Hl & Hp & HQ). destruct (harmless_step _ _ _ _ Hp Hh) as [-> ->].
    split_and!; try done. apply harmless_idle.
  - destruct HI as (Hp & HQ). destruct (harmless_step _ _ _ _ Hp Hh) as [-> ->].
    split; [apply harmless_idle|done].
Qed.

Lemma stopping_control m h st earlier c :
  stopping_inv (mkSystem m idle h) → reported h = st :: earlier → may_send st c = true →
  stopping_inv (mkSystem m (entered c) h).
Proof.
  intros HI Hr Hc.
  assert (last_state (mkSystem m idle h) ≠ Some SERVICE_RUNNING → harmless (entered c)) as Hh.
  { intros Hl. eapply control_harmless; [done..|]. intros Hst. apply Hl. unfold last_state.
    cbn [host]. rewrite Hr. cbn. by rewrite Hst. }
  unfold stopping_inv in *. cbn [main handler host] in *. fold (last_state (mkSystem m idle h)) in *.
  destruct m; cbn [main handler host] in *.
  1-2: by destruct HI as (_ & _ & Hl); rewrite Hr in Hl.
  1,3: destruct HI as (_ & Hs & Hl); split_and!; try done; apply Hh; unfold last_state; cbn [host]; by rewrite Hl.
  - destruct HI as ((_ & Hs & Hl) & HP). split; [|done]. split_and!; try done.
    apply Hh; unfold last_state; cbn [host]; by rewrite Hl.
  - destruct HI as [(Hl & _ & Hs & HP)|[(Hl & Hs & _)|(Hl & Hs & _ & HQ)]].
    + left. split_and!; try done. right; eauto.
    + right; left. split_and!; try done. left. apply Hh. by rewrite Hl.
    + right; right. split_and!; try done. apply Hh. by rewrite Hl.
  - destruct HI as (Hl & _ & HQ). split_and!; try done. apply Hh. by rewrite Hl.
  - destruct HI as (_ & HQ). split; [|done]. apply Hh. destruct HQ as [->|(s & Hs & Hst & _)]; [done|].
    unfold last_state. cbn [host]. rewrite Hs. cbn. by rewrite Hst.
Qed.

Lemma stopping_other m p h w :
  stopping_inv (mkSystem m p h) → other (process h) w → stopping_inv (mkSystem m p (with_process h w)).
Proof.
  unfold stopping_inv, last_state. cbn [main handler host]. intros HI Ho. destruct m; try exact HI.
  - destruct HI as [Hq HP]. split; [done|]. by eapply other_keeps.
  - destruct HI as [(Hl & Hp & Hs & HP)|[(Hl & Hs & Hp)|(Hl & Hs & Hp & HQ)]].
    + left. split_and!; try done. by eapply other_keeps.
    + right; left. split_and!; [done..|]. destruct Hp as [?|[(c & ? & ? & HP)|[?|[(c & ? & ? & ? & HR)|[? HQ]]]]]; [by left|..];
        right; [left|right; left|right; right; left|right; right; right]; [|done|..].
      * exists c. split_and!; try done. by eapply other_keeps.
      * exists c. split_and!; try done. by eapply other_keeps_stopping.
      * split; [done|]. by eapply other_keeps_stopped.
    + right; right. split_and!; try done. by eapply other_keeps_stopped.
  - destruct HI as (Hl & Hp & HQ). split_and!; try done. by eapply other_keeps_stopped.
  - destruct HI as (Hp & [HI|(st & Hst & Hx & HQ)]); (split; [done|]); [by left|right]. exists st.
    split_and!; try done. intros ?. eapply other_keeps_stopped; [done|]. by apply HQ.
Qed.

Lemma stopping_reachable w s : rtc sys_step (sys_start w) s → stopping_inv s.
Proof.
  apply sys_invariant; [|intros a b Ha Hb].
  - split_and!; try done. apply harmless_idle.
  - destruct Hb; [by eapply stopping_main|by eapply stopping_handler|by eapply stopping_control|by eapply stopping_other].
Qed.

(** A status [SERVICE_STOPPED] without an error code is reported after the stop
    callback, and last. *)
Lemma stopped_done w s st :
  rtc sys_step (sys_start w) s → head (reported (host s)) = Some st →
  dwCurrentState st = SERVICE_STOPPED → dwWin32ExitCode st = NO_ERROR →
  Q (process (host s)) ∧ ∀ s', rtc sys_step s s' → host s' = host s.
Proof.
  intros Hr Hst Hs Hx. pose proof (stopping_reachable w s Hr) as HI.
  destruct s as [m p h]. cbn [host] in Hst.
  assert (last_state (mkSystem m p h) = Some SERVICE_STOPPED) as Hl.
  { unfold last_state. cbn [host]. rewrite Hst. cbn. by rewrite Hs. }
  unfold last_state in Hl. cbn [host] in Hl.
  unfold stopping_inv, last_state in HI. cbn [main handler host] in HI.
  destruct m; try (destruct HI as (_ & _ & HI); congruence).
  - destruct HI as ((_ & _ & HI) & _). congruence.
  - destruct HI as [(HI & _)|[(HI & _)|(HI & _)]]; congruence.
  - destruct HI as (HI & _). congruence.
  - destruct HI as (Hp & [HI|(st' & Hst' & _ & HQ)]); [congruence|].
    rewrite Hst in Hst'. injection Hst' as <-. split; [by apply HQ|]. intros s' Hs'.
    assert (main s' = main_returned ∧ harmless (handler s') ∧ host s' = h) as (_ & _ & ->); [|done].
    revert Hs'. apply (sys_invariant (λ s, main s = main_returned ∧ harmless (handler s) ∧ host s = h)); [done|].
    intros a b (Ha1 & Ha2 & Ha3) Hb.
    destruct Hb as [m1 p1 h1 m2 h2 Hm|m1 p1 h1 p2 h2 Hm|m1 h1 s1 e1 c1 Hrep Hc|m1 p1 h1 w1 Ho];
      cbn [main handler host] in *; subst; [done| | |].
    + destruct (harmless_step _ _ _ _ Ha2 Hm) as [-> ->]. split_and!; try done. apply harmless_idle.
    + split_and!; try done. eapply control_harmless; [done..|]. rewrite Hrep in Hst. injection Hst as <-.
      by rewrite Hs.
    + by destruct (stopped_rests _ _ (HQ Hx) Ho).
Qed.

(** Once the stop callback has returned the service comes to its end. *)
Lemma stop_completes w s c r w' :
  rtc sys_step (sys_start w) s → c ≠ SERVICE_CONTROL_PRESHUTDOWN →
  handler s = in_callback c → leave stop (process (host s)) = Some (r, w') →
  ∃ s' st, rtc sys_step s s' ∧ main s' = main_returned ∧ handler s' = idle ∧
    head (reported (host s')) = Some st ∧ dwCurrentState st = SERVICE_STOPPED ∧ dwWin32ExitCode st = NO_ERROR ∧
    process (host s') = w' ∧ runResult_ (host s') = Success tt.
Proof.
  intros Hr Hpre Hp Es. pose proof (stopping_reachable w s Hr) as HI. destruct s as [m p h].
  cbn [handler host] in *. subst p.
  assert (¬ harmless (in_callback c)) as Hh by (by intros [?|(c' & ? & ?)]).
  assert (m = main_waiting ∧ callback_of callbacks c = Some stop ∧ after_callback c = stop_called) as (-> & Ec & Ea).
  { unfold stopping_inv in HI. cbn [main handler host] in HI. destruct m; try (by destruct HI as (? & _)).
    - by destruct HI as ((? & _) & _).
    - split; [done|]. destruct HI as [(_ & [?|(? & ?)] & _)|[(_ & _ & [?|HE])|(_ & _ & ? & _)]]; try done.
      destruct HE as [(? & ? & _)|[[= ->]|[(c' & [= <-] & Ec & Ea & _)|[? _]]]]; try done. by rewrite Ec.
    - by destruct HI as (_ & ? & _). }
  set (h2 := with_process h w').
  set (h3 := mkHost (statusHandle_ h2) true (checkpoint_ h2) (runResult_ h2) (reported h2) (process h2)).
  set (h4 := with_result (ReportStatus SERVICE_STOPPED NO_ERROR 0 h3) (Success tt)).
  exists (mkSystem main_returned idle h4), (mkStatus SERVICE_STOPPED NO_ERROR 0 true 0).
  split; [|done].
  eapply (rtc_l _ _ (mkSystem main_waiting stop_called h2)).
  { apply step_handler. cbn [handler_step]. rewrite Ec. cbn. by rewrite Es, Ea. }
  eapply (rtc_l _ _ (mkSystem main_waiting idle h3)); [by apply step_handler|].
  eapply (rtc_l _ _ (mkSystem main_woken idle h3)); [by apply step_main|].
  apply rtc_once. by apply step_main.
Qed.

(** Where the handler of a pre-shutdown is. *)
Definition preshutting (p : HandlerPc) : Prop :=
  p = reported_pending SERVICE_CONTROL_PRESHUTDOWN ∨ p = in_callback SERVICE_CONTROL_PRESHUTDOWN.

(** Once a pre-shutdown has been reported the service stays pending: no control
    that would stop it comes any more, and the stop callback does not run. *)
Lemma preshutdown_pending w s :
  rtc sys_step (sys_start w) s → handler s = reported_pending SERVICE_CONTROL_PRESHUTDOWN →
  ∀ s', rtc sys_step s s' →
    main s' = main_waiting ∧ last_state s' = Some SERVICE_STOP_PENDING ∧ stopEvent_ (host s') = false ∧
    (preshutting (handler s') ∨ harmless (handler s')).
Proof.
  intros Hr Hp. pose proof (stopping_reachable w s Hr) as HI. destruct s as [m p h].
  cbn [handler] in Hp. subst p.
  assert (¬ harmless (reported_pending SERVICE_CONTROL_PRESHUTDOWN)) as Hh by (by intros [?|(? & ? & _)]).
  intros s'. apply (sys_invariant (λ s, main s = main_waiting ∧ last_state s = Some SERVICE_STOP_PENDING ∧
    stopEvent_ (host s) = false ∧
    (preshutting (handler s) ∨ harmless (handler s)))).
  { destruct m; try (by destruct HI as (? & _)); [by destruct HI as ((? & _) & _)| |by destruct HI as (_ & ? & _)].
    destruct HI as [(_ & [?|(? & ?)] & _)|[(Hl & Hs & _)|(_ & _ & ? & _)]]; try done.
    split_and!; try done. left. by left. }
  intros a b (Ha1 & Hl & Hs & Ha2) Hb.
  destruct Hb as [m1 p1 h1 m2 h2 Hm|m1 p1 h1 p2 h2 Hm|m1 h1 s1 e1 c1 Hrep Hc|m1 p1 h1 w1 Ho];
    unfold last_state in *; cbn [main handler host] in *; subst.
  - exfalso. cbn [main_step] in Hm. by rewrite Hs in Hm.
  - destruct Ha2 as [[->| ->]|Hp]; cbn [handler_step callback_of after_callback] in Hm.
    + destruct (onPreShutdown callbacks) as [f|]; injection Hm as <- <-; split_and!; try done;
        [left; by right|right; apply harmless_idle].
    + destruct (onPreShutdown callbacks) as [f|]; [|done]. cbn in Hm.
      destruct (leave f (process h1)) as [[r w1]|]; [|done]. injection Hm as <- <-.
      split_and!; try done. right. apply harmless_idle.
    + destruct (harmless_step _ _ _ _ Hp Hm) as [-> ->]. split_and!; [done..|]. right. apply harmless_idle.
  - split_and!; [done..|]. right. eapply control_harmless; [done|]. intros Hst.
    rewrite Hrep in Hl. cbn in Hl. by rewrite Hst in Hl.
  - by split_and!.
Qed.
End stopping.
End system.
