(* ===== verification/IpcThread.v ===== *)
(** * IpcThread: the pipe thread and the stop that joins it

    Models the threads around [IpcServerThreadBody] of
    src/src/Service/src/main_service.cpp: the thread that accepts clients and
    serves one request each, the thread that runs [OnServiceStop] (the flag, the
    shutdown request, the join, then the rest), and the client at the other end
    of the pipe, which may send, read, leave or stay silent.

    [AcceptOnce] is what PipeServer.v shows it to be, a wait that a client or
    the stop event ends; the request is [HandleFrame] of Requests.v.  A read
    from a connected client waits for its frame, and the closing of the pipe
    ([FlushFileBuffers]) for the client to read the reply. *)
From S2P Require Import Prelude Common Storage Journal Marker Recovery Store Shard Engine.
From S2P Require Import EngineFacts Durability Client Lifecycle Service Ipc Requests.
Open Scope Z_scope.

Module IpcThread.

(** Where [IpcServerThreadBody] stands. *)
Inductive ThreadPc :=
  | t_check
  | t_accepting
  | t_accepted (r : Result unit)
  | t_receiving
  | t_closing
  | t_exited.

(** Where [OnServiceStop] stands. *)
Inductive StopPc := s_entry | s_flagged | s_requested | s_joined | s_stopped.

(** The client of the pipe: the frame it has sent and that was not received yet,
    whether a reply waits to be read, whether it has left. *)
Record PipeClient := mkClient { sent : option bytes; unread : bool; gone : bool }.

Section ipc_thread.
Context {F : Type} `{IFile F}.
Context (hash : string → Z) (stopTime : Z).

Record System := mkSystem {
  thread : ThreadPc;
  stopper : StopPc;
  g_ipcShouldStop : bool;
  shutdown_requested : bool;       (** the stop event of the server *)
  client : option PipeClient;
  service : Service F
}.

Definition with_thread (s : System) (t : ThreadPc) (c : option PipeClient) (w : Service F) : System :=
  mkSystem t (stopper s) (g_ipcShouldStop s) (shutdown_requested s) c w.

Definition with_client (s : System) (c : PipeClient) : System :=
  mkSystem (thread s) (stopper s) (g_ipcShouldStop s) (shutdown_requested s) (Some c) (service s).

(** The steps of [IpcServerThreadBody]; the transport that goes out of scope
    with a return is closed by its destructor. *)
Inductive thread_step (s : System) : System → Prop :=
  | check_stop : thread s = t_check → g_ipcShouldStop s = true →
      thread_step s (with_thread s t_exited None (service s))
  | check_go : thread s = t_check → g_ipcShouldStop s = false →
      thread_step s (with_thread s t_accepting None (service s))
  | accept_client c : thread s = t_accepting → client s = Some c →
      thread_step s (with_thread s (t_accepted (Success tt)) (client s) (service s))
  | accept_stopping e : thread s = t_accepting → shutdown_requested s = true → code e = ErrorCode.ServiceStopping →
      thread_step s (with_thread s (t_accepted (Failure e)) None (service s))
  | accept_fails e : thread s = t_accepting → code e ≠ ErrorCode.ServiceStopping →
      thread_step s (with_thread s (t_accepted (Failure e)) None (service s))
  | accepted_stop r : thread s = t_accepted r → g_ipcShouldStop s = true →
      thread_step s (with_thread s t_exited None (service s))
  | accepted_client : thread s = t_accepted (Success tt) → g_ipcShouldStop s = false →
      thread_step s (with_thread s t_receiving (client s) (service s))
  | accepted_stopping e : thread s = t_accepted (Failure e) → g_ipcShouldStop s = false →
      code e = ErrorCode.ServiceStopping → thread_step s (with_thread s t_exited None (service s))
  | accepted_failure e : thread s = t_accepted (Failure e) → g_ipcShouldStop s = false →
      code e ≠ ErrorCode.ServiceStopping → thread_step s (with_thread s t_check None (service s))
  | serve c frame reply w : thread s = t_receiving → client s = Some c → sent c = Some frame →
      HandleFrame hash frame (service s) = (reply, w) →
      thread_step s (with_thread s t_closing (Some (mkClient None (is_Some_b reply) (gone c))) w)
  | receive_fails c : thread s = t_receiving → client s = Some c → gone c = true →
      thread_step s (with_thread s t_closing (client s) (service s))
  | close c : thread s = t_closing → client s = Some c → unread c = false ∨ gone c = true →
      thread_step s (with_thread s t_check None (service s)).

(** What the client may do: connect while the server listens, send, read, leave. *)
Inductive client_step (s : System) : System → Prop :=
  | client_connects : thread s = t_accepting → client s = None →
      client_step s (with_client s (mkClient None false false))
  | client_sends c frame : client s = Some c → gone c = false →
      client_step s (with_client s (mkClient (Some frame) (unread c) false))
  | client_reads c : client s = Some c → gone c = false →
      client_step s (with_client s (mkClient (sent c) false false))
  | client_leaves c : client s = Some c →
      client_step s (with_client s (mkClient (sent c) (unread c) true)).

(** The steps of [OnServiceStop]. *)
Inductive stop_step (s : System) : System → Prop :=
  | stop_flags : stopper s = s_entry →
      stop_step s (mkSystem (thread s) s_flagged true (shutdown_requested s) (client s) (service s))
  | stop_requests : stopper s = s_flagged →
      stop_step s (mkSystem (thread s) s_requested (g_ipcShouldStop s) true (client s) (service s))
  | stop_joins : stopper s = s_requested → thread s = t_exited →
      stop_step s (mkSystem (thread s) s_joined (g_ipcShouldStop s) (shutdown_requested s) (client s) (service s))
  | stop_finishes : stopper s = s_joined →
      stop_step s (mkSystem (thread s) s_stopped (g_ipcShouldStop s) (shutdown_requested s) (client s)
                     (OnServiceStop hash stopTime (service s)).2).

Definition step (s s' : System) : Prop := thread_step s s' ∨ client_step s s' ∨ stop_step s s'.

(** The thread has just been started. *)
Definition start (w : Service F) : System := mkSystem t_check s_entry false false None w.

(** The thread waits for the client. *)
Definition waits_for_client (s : System) : Prop :=
  ∃ c, client s = Some c ∧ gone c = false ∧
    (thread s = t_receiving ∧ sent c = None ∨ thread s = t_closing ∧ unread c = true).

(** ** Invariant *)

Definition serves (t : ThreadPc) : bool :=
  match t with t_receiving | t_closing => true | t_accepted (Success _) => true | _ => false end.

Record ipc_inv (s : System) : Prop := {
  i_flag : stopper s ≠ s_entry → g_ipcShouldStop s = true;
  i_event : shutdown_requested s = true ↔ (stopper s = s_requested ∨ stopper s = s_joined ∨ stopper s = s_stopped);
  i_joined : stopper s = s_joined ∨ stopper s = s_stopped → thread s = t_exited;
  i_client : serves (thread s) = true → is_Some (client s)
}.

Lemma start_inv w : ipc_inv (start w).
Proof. split; cbn; intuition congruence. Qed.

Lemma thread_step_keeps s s' :
  thread_step s s' →
  stopper s' = stopper s ∧ g_ipcShouldStop s' = g_ipcShouldStop s ∧ shutdown_requested s' = shutdown_requested s ∧
  thread s ≠ t_exited.
Proof. intros Hs. destruct Hs; (split_and!; [done..|congruence]). Qed.

Lemma thread_step_inv s s' : ipc_inv s → thread_step s s' → ipc_inv s'.
Proof.
  intros [If Ie Ij Ic] Hs. destruct (thread_step_keeps _ _ Hs) as (Es & Ef & Ev & Hne).
  split; rewrite ?Es, ?Ef, ?Ev; [done|done|intros Hj; by destruct (Hne (Ij Hj))|].
  destruct Hs; cbn; intros Hc; try done; try (by eexists); try (apply Ic; by match goal with E : thread s = _ |- _ => rewrite E end).
Qed.

Lemma client_step_inv s s' : ipc_inv s → client_step s s' → ipc_inv s'.
Proof. intros [If Ie Ij Ic] Hs. destruct Hs; split; cbn; try done; intros _; by eexists. Qed.

Lemma stop_step_inv s s' : ipc_inv s → stop_step s s' → ipc_inv s'.
Proof. intros [If Ie Ij Ic] Hs. destruct Hs as [E|E|E Et|E]; rewrite E in *; split; cbn; intuition congruence. Qed.

Lemma step_inv s s' : ipc_inv s → step s s' → ipc_inv s'.
Proof. intros Hi [Hs|[Hs|Hs]]; [by eapply thread_step_inv|by eapply client_step_inv|by eapply stop_step_inv]. Qed.

Lemma reachable_inv w s : rtc step (start w) s → ipc_inv s.
Proof.
  intros Hr. assert (∀ a b, rtc step a b → ipc_inv a → ipc_inv b) as H0; [|by apply (H0 _ _ Hr), start_inv].
  clear. intros a b Hr. induction Hr as [|a b c Hs Hr IH]; [done|]. intros Ha. by apply IH, (step_inv a).
Qed.

(** ** Once the stop is requested *)

(** How many steps the thread has left at most. *)
Definition steps_left (s : System) : nat :=
  match thread s with
  | t_exited => 0
  | t_check | t_accepted _ => 1
  | t_accepting | t_closing => 2
  | t_receiving => 3
  end.

Lemma stopping_decreases s s' :
  g_ipcShouldStop s = true → thread_step s s' → (steps_left s' < steps_left s)%nat ∧ g_ipcShouldStop s' = true.
Proof.
  intros Hf Hs. unfold steps_left. destruct Hs; cbn [thread with_thread g_ipcShouldStop]; try congruence;
    (match goal with E : thread s = _ |- _ => rewrite E end; split; [lia|done]).
Qed.

(** A thread that cannot step has exited, or waits for its client. *)
Lemma stopping_progress s :
  ipc_inv s → g_ipcShouldStop s = true → shutdown_requested s = true →
  thread s = t_exited ∨ waits_for_client s ∨ ∃ s', thread_step s s'.
Proof.
  intros [_ _ _ Ic] Hf He. destruct (thread s) as [| |r| | |] eqn:Et.
  - right. right. eexists. by apply check_stop.
  - right. right. eexists. by apply (accept_stopping s (mkError ErrorCode.ServiceStopping "" 0)).
  - right. right. eexists. by eapply accepted_stop.
  - destruct (Ic eq_refl) as [c Hc]. right. destruct (gone c) eqn:Eg; [right; eexists; by eapply receive_fails|].
    destruct (sent c) as [frame|] eqn:Es; [right|left; exists c; naive_solver].
    destruct (HandleFrame hash frame (service s)) as [reply w] eqn:Eh. eexists. by eapply serve.
  - destruct (Ic eq_refl) as [c Hc]. right. destruct (gone c) eqn:Eg; [right; eexists; eapply close; naive_solver|].
    destruct (unread c) eqn:Eu; [left; exists c; naive_solver|right; eexists; eapply close; naive_solver].
  - by left.
Qed.

(** The thread alone, from a state where the stop is requested. *)
Lemma stopping_runs n s :
  (steps_left s ≤ n)%nat → ipc_inv s → g_ipcShouldStop s = true → shutdown_requested s = true →
  ∃ s', rtc thread_step s s' ∧ ipc_inv s' ∧ stopper s' = stopper s ∧ (thread s' = t_exited ∨ waits_for_client s').
Proof.
  revert s. induction n as [|n IH]; intros s Hn Hi Hf He;
    (destruct (stopping_progress s Hi Hf He) as [Hx|[Hw|[s1 Hs]]]; [exists s; by eauto using rtc_refl..|]);
    destruct (stopping_decreases _ _ Hf Hs) as [Hd Hf1]; [lia|].
  destruct (thread_step_keeps _ _ Hs) as (Es & _ & Ee & _).
  destruct (IH s1) as (s' & Hr & Hi' & Est & Hend); [lia|by eapply thread_step_inv|done|congruence|].
  exists s'. split; [by eapply rtc_l|]. split; [done|]. split; [congruence|done].
Qed.

(** A thread that waits for its client waits until the client acts. *)
Lemma waits_until_client s s' : waits_for_client s → thread_step s s' ∨ stop_step s s' → waits_for_client s' ∧ thread s' = thread s.
Proof.
  intros (c & Hc & Hg & Hw) [Hs|Hs].
  - exfalso. destruct Hs as [Et _|Et _|c1 Et _|e Et _ _|e Et _|r Et _|Et _|e Et _ _|e Et _ _|c1 fr re w Et E1 E2 _|c1 Et E1 E2|c1 Et E1 E2];
      destruct Hw as [[Ew Hsent]|[Ew Hun]]; rewrite Ew in Et; try done; rewrite Hc in E1; injection E1 as <-.
    + congruence.
    + congruence.
    + destruct E2; congruence.
  - split; [exists c; by destruct Hs|by destruct Hs].
Qed.

(** ** Properties *)

(** C21: The stop joins the pipe thread unless a client keeps it waiting.  Once
    [OnServiceStop] has set the flag and requested the shutdown, the thread
    takes at most three more steps on its own; it ends exited, whereupon the
    join returns, or waits for a client that has connected and neither sends,
    reads nor leaves.  As long as that client does nothing no step of the
    process changes this: the stop does not return.  If the client leaves, the
    thread exits. *)
Theorem stop_joins_unless_client_waits w s :
  rtc step (start w) s → stopper s = s_requested →
  (∀ s', thread_step s s' → (steps_left s' < steps_left s ≤ 3)%nat) ∧
  (∃ s', rtc thread_step s s' ∧ (thread s' = t_exited ∧ (∃ s2, stop_step s' s2) ∨ waits_for_client s')) ∧
  (waits_for_client s → ∀ s', rtc (λ a b, thread_step a b ∨ stop_step a b) s s' → waits_for_client s' ∧ stopper s' = s_requested) ∧
  (waits_for_client s → ∃ s1 s2, client_step s s1 ∧ rtc thread_step s1 s2 ∧ thread s2 = t_exited).
Proof.
  intros Hr Hst. pose proof (reachable_inv w s Hr) as Hi.
  assert (g_ipcShouldStop s = true) as Hf by (apply Hi; congruence).
  assert (shutdown_requested s = true) as He by (apply Hi; by left).
  split; [|split; [|split]].
  - intros s' Hs. destruct (stopping_decreases _ _ Hf Hs) as [Hd _]. split; [done|].
    unfold steps_left. destruct (thread s); lia.
  - destruct (stopping_runs (steps_left s) s) as (s' & Hrun & _ & Es & Hend); [lia|done..|].
    exists s'. split; [done|]. destruct Hend as [Hx|Hw]; [left|by right]. split; [done|].
    eexists. apply stop_joins; congruence.
  - intros Hw s' Hrun. clear Hr Hi Hf He. revert Hw Hst. induction Hrun as [|a b c Hs Hrun IH]; [done|]. intros Hw Ha.
    destruct (waits_until_client a b Hw Hs) as [Hwb Et]. apply IH; [done|].
    + destruct Hs as [Hs|Hs]; [destruct (thread_step_keeps _ _ Hs) as (-> & _); done|].
      destruct Hw as (c1 & _ & _ & Hw). destruct Hs as [E|E|E Ex|E]; try congruence. destruct Hw as [[Ew _]|[Ew _]]; congruence.
  - intros (c & Hc & _ & Hw). set (s1 := with_client s (mkClient (sent c) (unread c) true)).
    assert (client_step s s1) as Hs1 by (by eapply client_leaves).
    destruct (stopping_runs (steps_left s1) s1) as (s2 & Hrun & _ & _ & Hend); [lia|by eapply client_step_inv|done..|].
    exists s1, s2. split; [done|]. split; [done|]. destruct Hend as [|(c2 & Hc2 & Hg2 & Hw2)]; [done|]. exfalso.
    assert (∀ a b, rtc thread_step a b → g_ipcShouldStop a = true →
      (∀ x, client a = Some x → gone x = true) → (thread a ≠ t_accepting) →
      (∀ x, client b = Some x → gone x = true) ∧ thread b ≠ t_accepting) as Hgone.
    { clear. intros a b Hrun. induction Hrun as [|a b c Hs Hrun IH]; [done|]. intros Hf Hg Hn. apply IH.
      - by destruct (thread_step_keeps _ _ Hs) as (_ & -> & _).
      - destruct Hs; cbn; try done; intros x Hx; try (by apply Hg); injection Hx as <-. cbn. by eapply Hg.
      - destruct Hs; cbn; congruence. }
    destruct (Hgone s1 s2 Hrun) as [Hall _]; [done|by intros x [= <-]|by destruct Hw as [[Ew _]|[Ew _]]; cbn; rewrite Ew|].
    by rewrite (Hall c2 Hc2) in Hg2.
Qed.

(** Nothing runs beside the stop.  In every reachable state where the stop
    has passed the join, the pipe thread has exited and no request is served
    any more; when the stop has finished, the service is what [OnServiceStop]
    made of the state the join found. *)
Theorem stop_runs_alone w s :
  rtc step (start w) s → stopper s = s_joined →
  thread s = t_exited ∧
  ∀ s', rtc step s s' →
    thread s' = t_exited ∧
    match stopper s' with
    | s_stopped => service s' = (OnServiceStop hash stopTime (service s)).2
    | _ => stopper s' = s_joined ∧ service s' = service s
    end.
Proof.
  intros Hr Hst. pose proof (reachable_inv w s Hr) as Hi. split; [apply Hi; by left|]. intros s' Hrun.
  assert (∀ a b, rtc step a b → ipc_inv a →
    (stopper a = s_joined ∧ service a = service s ∨
     stopper a = s_stopped ∧ service a = (OnServiceStop hash stopTime (service s)).2) →
    ipc_inv b ∧ (stopper b = s_joined ∧ service b = service s ∨
     stopper b = s_stopped ∧ service b = (OnServiceStop hash stopTime (service s)).2)) as Hall.
  { clear. intros a b Hrun. induction Hrun as [|a b c Hs Hrun IH]; [done|]. intros Ha Hj.
    apply IH; [by eapply step_inv|]. assert (thread a = t_exited) as Hx by (apply Ha; destruct Hj as [[? _]|[? _]]; auto).
    destruct Hs as [Hs|[Hs|Hs]].
    - by destruct (thread_step_keeps _ _ Hs) as (_ & _ & _ & []).
    - by destruct Hs.
    - destruct Hj as [[Es Ew]|[Es _]]; destruct Hs as [E|E|E _|E]; rewrite Es in E; try done.
      right. cbn. by rewrite Ew. }
  destruct (Hall s s' Hrun Hi) as [Hi' Hj]; [by left|]. split; [apply Hi'; destruct Hj as [[? _]|[? _]]; auto|].
  destruct Hj as [[-> ?]|[-> ?]]; done.
Qed.
End ipc_thread.
End IpcThread.
