(* ===== verification/PipeServer.v ===== *)
(** * PipeServer: accepting a client, or a shutdown

    Models the server side of src/src/Ipc/src/Win32NamedPipeTransport.cpp:
    [AcceptOnce] with its overlapped connect, [RequestShutdown], the connection
    of a client, and the closing of a transport.  The functions are programs
    over the Win32 calls they make; the calls are answered by a kernel of which
    only what their documentation says is assumed: which handles are open,
    whether a connect is still in flight, whether the stop event is signalled.
    Between any two calls a client may connect and a shutdown be requested. *)
From stdpp Require Import gmap.
From S2P Require Import Prelude Common.
Open Scope Z_scope.

Abbreviation HANDLE := nat.

(** A null stop event is one that could not be created. *)
Inductive Call : Type → Type :=
  | WaitForSingleObject (stopEvent : bool) : Call bool
  | ConvertSecurityDescriptor : Call bool
  | LocalFree : Call unit
  | CreateNamedPipeW : Call (option HANDLE)
  | CreateFileW : Call (option HANDLE)
  | CreateEventW : Call (option HANDLE)
  | ConnectNamedPipe (pipe event : HANDLE) : Call bool
  | WaitForMultipleObjects (event : HANDLE) (stopEvent : bool) : Call Z
  | CancelIoEx (pipe : HANDLE) : Call unit
  | GetOverlappedResult (pipe : HANDLE) (wait : bool) : Call bool
  | FlushFileBuffers (pipe : HANDLE) : Call unit
  | DisconnectNamedPipe (pipe : HANDLE) : Call unit
  | SetNamedPipeHandleState (pipe : HANDLE) : Call unit
  | CloseHandle (handle : HANDLE) : Call unit
  | GetLastError : Call Z.

Inductive Win (A : Type) : Type :=
  | Return (a : A)
  | Do {T : Type} (c : Call T) (k : T → Win A).
Arguments Return {A} a.
Arguments Do {A T} c k.

Notation "'do!' x ':=' c 'in' k" := (Do c (λ x, k))
  (at level 10, x name, c at level 200, k at level 200, right associativity).

Definition ERROR_IO_PENDING : Z := 997.
Definition ERROR_PIPE_CONNECTED : Z := 535.
Definition WAIT_OBJECT_0 : Z := 0.

(** ** Win32NamedPipeTransport.cpp *)

(** [stopEvent_]: whether the constructor's [CreateEventW] gave an event. *)
Record Win32NamedPipeServer := mkServer { pipeName_ : list Z; stopEvent_ : bool }.

Definition win32_failure {T} (context : string) (lastError : Z) : Result T :=
  Failure (mkError ErrorCode.Win32ApiFailure context lastError).

Definition stopping {T} (message : string) : Result T :=
  Failure (mkError ErrorCode.ServiceStopping message 0).

(** [MakeWin32Error]. *)
Definition fail_with_last_error {T} (context : string) : Win (Result T) :=
  do! lastError := GetLastError in Return (win32_failure context lastError).

Definition AcceptOnce (s : Win32NamedPipeServer) : Win (Result HANDLE) :=
  do! stop := WaitForSingleObject (stopEvent_ s) in
  if stop : bool then Return (stopping "AcceptOnce: shutdown already requested") else
  do! converted := ConvertSecurityDescriptor in
  if negb converted then fail_with_last_error "ConvertStringSecurityDescriptorToSecurityDescriptorW failed" else
  do! handle := CreateNamedPipeW in
  do! _ := LocalFree in
  match handle with
  | None => fail_with_last_error "CreateNamedPipeW failed"
  | Some handle =>
    do! connectEvent := CreateEventW in
    match connectEvent with
    | None =>
      do! lastError := GetLastError in
      do! _ := CloseHandle handle in
      Return (win32_failure "CreateEventW (connect) failed" lastError)
    | Some connectEvent =>
      let connected : Win (Result HANDLE) := do! _ := CloseHandle connectEvent in Return (Success handle) in
      let failed context error : Win (Result HANDLE) :=
        do! _ := CloseHandle connectEvent in
        do! _ := CloseHandle handle in
        Return (win32_failure context error) in
      do! ok := ConnectNamedPipe handle connectEvent in
      do! connectError := GetLastError in
      if negb ok && (connectError =? ERROR_IO_PENDING) then
        do! waitResult := WaitForMultipleObjects connectEvent (stopEvent_ s) in
        if waitResult =? WAIT_OBJECT_0 + 1 then
          do! _ := CancelIoEx handle in
          do! _ := GetOverlappedResult handle true in
          do! _ := CloseHandle connectEvent in
          do! _ := CloseHandle handle in
          Return (stopping "AcceptOnce: shutdown requested while waiting for a client")
        else if negb (waitResult =? WAIT_OBJECT_0) then
          do! waitErr := GetLastError in
          do! _ := CancelIoEx handle in
          failed "AcceptOnce: WaitForMultipleObjects failed"%string waitErr
        else
          do! completed := GetOverlappedResult handle false in
          if negb completed then
            do! resultErr := GetLastError in
            failed "AcceptOnce: GetOverlappedResult (connect) failed"%string resultErr
          else connected
      else if negb ok && negb (connectError =? ERROR_PIPE_CONNECTED) then
        failed "ConnectNamedPipe failed"%string connectError
      else connected
    end
  end.

Definition CreateNamedPipeServer (pipeName : list Z) : Win (Result Win32NamedPipeServer) :=
  if bool_decide (pipeName = []) then
    Return (Failure (mkError ErrorCode.InvalidArgument "pipeName must not be empty" 0))
  else
    do! event := CreateEventW in
    Return (Success (mkServer pipeName (match event with Some _ => true | None => false end))).

Definition ConnectNamedPipeClient : Win (Result HANDLE) :=
  do! handle := CreateFileW in
  match handle with
  | None => fail_with_last_error "CreateFileW (named pipe client) failed"
  | Some handle =>
    do! _ := SetNamedPipeHandleState handle in
    Return (Success handle)
  end.

(** [Close] of a transport: the field [handle_] afterwards; the destructor calls
    it again. *)
Definition Close (handle_ : option HANDLE) : Win (option HANDLE) :=
  match handle_ with
  | None => Return None
  | Some handle =>
    do! _ := FlushFileBuffers handle in
    do! _ := DisconnectNamedPipe handle in
    do! _ := CloseHandle handle in
    Return None
  end.

(** ** The kernel *)

Record Kernel := mkKernel {
  open_handles : gset HANDLE;
  descriptor : bool;              (** a security descriptor is allocated *)
  connecting : option HANDLE;     (** a connect that has not completed *)
  stop_signalled : bool;
  last_error : Z;
  misuse : bool                   (** something was closed or freed that was not open *)
}.

Definition with_open (k : Kernel) (hs : gset HANDLE) : Kernel :=
  mkKernel hs (descriptor k) (connecting k) (stop_signalled k) (last_error k) (misuse k).
Definition with_error (k : Kernel) (e : Z) : Kernel :=
  mkKernel (open_handles k) (descriptor k) (connecting k) (stop_signalled k) e (misuse k).
Definition with_connecting (k : Kernel) (c : option HANDLE) : Kernel :=
  mkKernel (open_handles k) (descriptor k) c (stop_signalled k) (last_error k) (misuse k).
Definition with_descriptor (k : Kernel) (b : bool) : Kernel :=
  mkKernel (open_handles k) b (connecting k) (stop_signalled k) (last_error k) (misuse k).
Definition with_misuse (k : Kernel) (b : bool) : Kernel :=
  mkKernel (open_handles k) (descriptor k) (connecting k) (stop_signalled k) (last_error k) (misuse k || b).

(** [RequestShutdown]: [SetEvent], where there is an event. *)
Definition RequestShutdown (s : Win32NamedPipeServer) (k : Kernel) : Kernel :=
  if stopEvent_ s then mkKernel (open_handles k) (descriptor k) (connecting k) true (last_error k) (misuse k) else k.

(** What may happen between two calls: a client completes the connect, another
    thread requests the shutdown. *)
Definition meanwhile (k k' : Kernel) : Prop :=
  ∃ c s, (c = connecting k ∨ c = None) ∧ (stop_signalled k = true → s = true) ∧
    k' = mkKernel (open_handles k) (descriptor k) c s (last_error k) (misuse k).

(** A new handle, or an error. *)
Definition creates (k : Kernel) (r : option HANDLE) (k' : Kernel) : Prop :=
  match r with
  | Some h => (h ∉ open_handles k) ∧ k' = with_open k ({[h]} ∪ open_handles k)
  | None => ∃ e, k' = with_error k e
  end.

(** What the documentation of each call says of its answer. *)
Definition answers {T} (k : Kernel) (c : Call T) : T → Kernel → Prop :=
  match c in Call T return T → Kernel → Prop with
  | WaitForSingleObject ev => λ t k', t = (ev && stop_signalled k) ∧ k' = k
  | ConvertSecurityDescriptor => λ t k',
      if t : bool then k' = with_descriptor k true else ∃ e, k' = with_error k e
  | LocalFree => λ _ k', k' = with_misuse (with_descriptor k false) (negb (descriptor k))
  | CreateNamedPipeW => creates k
  | CreateFileW => creates k
  | CreateEventW => creates k
  | ConnectNamedPipe h _ => λ t k',
      ∃ e, k' = with_error (if negb t && (e =? ERROR_IO_PENDING) then with_connecting k (Some h) else k) e
  | WaitForMultipleObjects _ ev => λ t k',
      (∃ e, k' = with_error k e) ∧
      (t = WAIT_OBJECT_0 → ev = true ∧ connecting k = None) ∧
      (t = WAIT_OBJECT_0 + 1 → ev = true ∧ stop_signalled k = true)
  | CancelIoEx _ => λ _ k', k' = k
  | GetOverlappedResult _ wait => λ t k',
      (∃ e, k' = with_error (if wait || t then with_connecting k None else k) e) ∧
      (t = true → wait = false → connecting k = None)
  | FlushFileBuffers _ | DisconnectNamedPipe _ | SetNamedPipeHandleState _ => λ _ k', k' = k
  | CloseHandle h => λ _ k',
      k' = with_misuse (with_open k (open_handles k ∖ {[h]})) (negb (bool_decide (h ∈ open_handles k)))
  | GetLastError => λ t k', t = last_error k ∧ k' = k
  end.

(** The runs of a program. *)
Fixpoint exec {A} (m : Win A) (k : Kernel) (a : A) (k' : Kernel) : Prop :=
  match m with
  | Return x => a = x ∧ k' = k
  | Do c f => ∃ k0 t k1, meanwhile k k0 ∧ answers k0 c t k1 ∧ exec (f t) k1 a k'
  end.

(** ** Reasoning about runs *)

(** These handles are open and nothing was misused; a descriptor is allocated or
    not; with [pend] false no connect is in flight; with [stop] true the stop
    event is signalled. *)
Record holds (hs : gset HANDLE) (sd pend stop : bool) (k : Kernel) : Prop := {
  h_open : open_handles k = hs;
  h_use : misuse k = false;
  h_descriptor : descriptor k = sd;
  h_connecting : pend = false → connecting k = None;
  h_stop : stop = true → stop_signalled k = true
}.

Lemma holds_meanwhile hs sd pend stop k k' : meanwhile k k' → holds hs sd pend stop k → holds hs sd pend stop k'.
Proof.
  intros (c & s & Hc & Hs & ->) [Ho Hu Hd Hp Ht]. split; cbn; auto.
  intros Hf. specialize (Hp Hf). by destruct Hc as [-> | ->].
Qed.

Lemma holds_handles hs hs' sd pend stop k : hs' = hs → holds hs sd pend stop k → holds hs' sd pend stop k.
Proof. by intros ->. Qed.

Section wp.
Context {A : Type}.
Implicit Types (Q : A → Kernel → Prop).

Definition wp (m : Win A) Q (k : Kernel) : Prop := ∀ a k', exec m k a k' → Q a k'.

Lemma wp_return Q a k : Q a k → wp (Return a) Q k.
Proof. intros HQ a' k' [-> ->]. exact HQ. Qed.

Lemma wp_call {T} (c : Call T) (f : T → Win A) Q hs sd pend stop k :
  holds hs sd pend stop k →
  (∀ k0 t k1, holds hs sd pend stop k0 → answers k0 c t k1 → wp (f t) Q k1) → wp (Do c f) Q k.
Proof.
  intros Hk Hf a k' (k0 & t & k1 & Hm & Ha & He). eapply Hf; [|exact Ha|exact He].
  by eapply holds_meanwhile.
Qed.

Lemma wp_last_error (f : Z → Win A) Q hs sd pend stop k :
  holds hs sd pend stop k → (∀ e k1, holds hs sd pend stop k1 → wp (f e) Q k1) → wp (Do GetLastError f) Q k.
Proof. intros Hk Hf. eapply wp_call; [exact Hk|]. intros k0 e k1 H0 [-> ->]. by apply Hf. Qed.

Lemma wp_wait_stop ev (f : bool → Win A) Q hs sd pend stop k :
  holds hs sd pend stop k →
  (∀ k1, holds hs sd pend true k1 → wp (f true) Q k1) →
  (ev && stop = false → ∀ k1, holds hs sd pend stop k1 → wp (f false) Q k1) →
  wp (Do (WaitForSingleObject ev) f) Q k.
Proof.
  intros Hk Ht Hf. eapply wp_call; [exact Hk|]. intros k0 t k1 H0 [-> ->].
  destruct (ev && stop_signalled k0) eqn:E.
  - apply Ht. apply andb_true_iff in E as [_ E]. by destruct H0.
  - apply Hf; [|done]. destruct ev, stop; try done. by rewrite (h_stop _ _ _ _ _ H0) in E.
Qed.

Lemma wp_descriptor (f : bool → Win A) Q hs pend stop k :
  holds hs false pend stop k →
  (∀ t k1, holds hs t pend stop k1 → wp (f t) Q k1) → wp (Do ConvertSecurityDescriptor f) Q k.
Proof.
  intros Hk Hf. eapply wp_call; [exact Hk|]. intros k0 t k1 [] Ha. cbn in Ha. apply Hf.
  destruct t; [subst k1|destruct Ha as [e ->]]; by split.
Qed.

Lemma wp_free (f : unit → Win A) Q hs pend stop k :
  holds hs true pend stop k → (∀ k1, holds hs false pend stop k1 → wp (f tt) Q k1) → wp (Do LocalFree f) Q k.
Proof.
  intros Hk Hf. eapply wp_call; [exact Hk|]. intros k0 [] k1 [Ho Hu Hd Hp Hs] ->. apply Hf.
  split; cbn; auto. by rewrite Hu, Hd.
Qed.

Lemma wp_creates (c : Call (option HANDLE)) (f : option HANDLE → Win A) Q hs sd pend stop k :
  (∀ k0 t k1, answers k0 c t k1 → creates k0 t k1) → holds hs sd pend stop k →
  (∀ h k1, h ∉ hs → holds ({[h]} ∪ hs) sd pend stop k1 → wp (f (Some h)) Q k1) →
  (∀ k1, holds hs sd pend stop k1 → wp (f None) Q k1) → wp (Do c f) Q k.
Proof.
  intros Hc Hk Hs Hn. eapply wp_call; [exact Hk|]. intros k0 t k1 [Ho Hu Hd Hp Ht] Ha. apply Hc in Ha.
  destruct t as [h|]; cbn in Ha.
  - destruct Ha as [Hh ->]. apply Hs; [by rewrite <- Ho|]. split; cbn; auto. by rewrite Ho.
  - destruct Ha as [e ->]. apply Hn. by split.
Qed.

(** [ConnectNamedPipe] and the error that says how it went. *)
Lemma wp_connect h ev (f : bool → Z → Win A) Q hs sd stop k :
  holds hs sd false stop k →
  (∀ t e k1, holds hs sd (negb t && (e =? ERROR_IO_PENDING)) stop k1 → wp (f t e) Q k1) →
  wp (Do (ConnectNamedPipe h ev) (λ t, Do GetLastError (f t))) Q k.
Proof.
  intros Hk Hf. eapply wp_call; [exact Hk|]. intros k0 t k1 [Ho Hu Hd Hp Hs] [e ->].
  intros a k' (k2 & e' & k3 & Hm & [-> ->] & He).
  assert (last_error k2 = e) as Hle.
  { destruct Hm as (c & s & _ & _ & ->). cbn. by destruct (negb t && _). }
  rewrite Hle in He. eapply Hf; [|exact He]. eapply holds_meanwhile; [exact Hm|].
  destruct (negb t && (e =? ERROR_IO_PENDING)); split; by cbn; auto.
Qed.

Lemma wp_wait e ev (f : Z → Win A) Q hs sd pend stop k :
  holds hs sd pend stop k →
  (∀ k1, holds hs sd false stop k1 → wp (f WAIT_OBJECT_0) Q k1) →
  (∀ k1, holds hs sd pend true k1 → wp (f (WAIT_OBJECT_0 + 1)) Q k1) →
  (∀ t k1, t ≠ WAIT_OBJECT_0 → t ≠ WAIT_OBJECT_0 + 1 → holds hs sd pend stop k1 → wp (f t) Q k1) →
  wp (Do (WaitForMultipleObjects e ev) f) Q k.
Proof.
  intros Hk H0 H1 Hf. eapply wp_call; [exact Hk|]. intros k0 t k1 [Ho Hu Hd Hp Hs] ([x ->] & Ht0 & Ht1).
  destruct (Z.eq_dec t WAIT_OBJECT_0) as [->|N0].
  { apply H0. destruct (Ht0 eq_refl). by split. }
  destruct (Z.eq_dec t (WAIT_OBJECT_0 + 1)) as [->|N1].
  { apply H1. destruct (Ht1 eq_refl). by split. }
  apply Hf; [done|done|by split].
Qed.

Lemma wp_overlapped h w (f : bool → Win A) Q hs sd pend stop k :
  holds hs sd pend stop k →
  (∀ t k1, holds hs sd (if w || t then false else pend) stop k1 → wp (f t) Q k1) →
  wp (Do (GetOverlappedResult h w) f) Q k.
Proof.
  intros Hk Hf. eapply wp_call; [exact Hk|]. intros k0 t k1 [Ho Hu Hd Hp Hs] ([x ->] & _).
  apply Hf. destruct (w || t); split; cbn; auto.
Qed.

Lemma wp_close h (f : unit → Win A) Q hs sd pend stop k :
  holds hs sd pend stop k → h ∈ hs →
  (∀ k1, holds (hs ∖ {[h]}) sd pend stop k1 → wp (f tt) Q k1) → wp (Do (CloseHandle h) f) Q k.
Proof.
  intros Hk Hh Hf. eapply wp_call; [exact Hk|]. intros k0 [] k1 [Ho Hu Hd Hp Hs] ->. apply Hf.
  split; cbn; auto; [by rewrite Ho|]. rewrite bool_decide_eq_true_2 by (by rewrite Ho). by rewrite Hu.
Qed.

Lemma wp_still (c : Call unit) (f : unit → Win A) Q hs sd pend stop k :
  (∀ k0 k1, answers k0 c tt k1 → k1 = k0) → holds hs sd pend stop k →
  (∀ k1, holds hs sd pend stop k1 → wp (f tt) Q k1) → wp (Do c f) Q k.
Proof.
  intros Hc Hk Hf. eapply wp_call; [exact Hk|]. intros k0 [] k1 H0 Ha. apply Hc in Ha as ->. by apply Hf.
Qed.
End wp.

(** ** What the functions promise *)

(** A result after which nothing but the pipe of a connected client is open, and
    a failure after which nothing is; in flight is a connect at most after a
    wait that failed. *)
Definition wait_failed : string := "AcceptOnce: WaitForMultipleObjects failed".

Definition accepted_or_not (hs : gset HANDLE) (r : Result HANDLE) (k : Kernel) : Prop :=
  match r with
  | Success h => (h ∉ hs) ∧ holds ({[h]} ∪ hs) false false false k
  | Failure e =>
    holds hs false (String.eqb (message e) wait_failed) false k ∧
    (code e = ErrorCode.ServiceStopping → stop_signalled k = true)
  end.

Lemma holds_weaken hs sd pend pend' stop k :
  (pend' = false → pend = false) → holds hs sd pend stop k → holds hs sd pend' false k.
Proof. intros Hp [? ? ? ? ?]. split; auto. done. Qed.

Lemma failed_without hs stop c msg e k :
  String.eqb msg wait_failed = false → c ≠ ErrorCode.ServiceStopping →
  holds hs false false stop k → accepted_or_not hs (Failure (mkError c msg e)) k.
Proof. intros Hm Hc Hk. split; [|done]. cbn [message]. rewrite Hm. by eapply holds_weaken. Qed.

(** The sets met on the way back. *)
Lemma close_one (hs : gset HANDLE) h : h ∉ hs → ({[h]} ∪ hs) ∖ {[h]} = hs.
Proof. intros. by rewrite difference_union_distr_l_L, difference_diag_L, (left_id_L ∅ _), difference_disjoint_L by set_solver. Qed.

Lemma AcceptOnce_wp s hs stop k :
  holds hs false false stop k → wp (AcceptOnce s) (accepted_or_not hs) k.
Proof.
  intros Hk. unfold AcceptOnce, fail_with_last_error.
  eapply wp_wait_stop; [exact Hk|intros k1 H1|intros _ k1 H1].
  { apply wp_return. split; [|intros _; by eapply h_stop]. by eapply holds_weaken. }
  eapply wp_descriptor; [exact H1|]. intros [|] k2 H2; cbn [negb].
  2:{ eapply wp_last_error; [exact H2|]. intros e k3 H3. apply wp_return. by eapply failed_without. }
  eapply wp_creates; [done|exact H2| |].
  2:{ intros k3 H3. eapply wp_free; [exact H3|]. intros k4 H4. eapply wp_last_error; [exact H4|].
      intros e k5 H5. apply wp_return. by eapply failed_without. }
  intros h k3 Hh H3. eapply wp_free; [exact H3|]. intros k4 H4.
  eapply wp_creates; [done|exact H4| |].
  2:{ intros k5 H5. eapply wp_last_error; [exact H5|]. intros e k6 H6.
      eapply wp_close; [exact H6|set_solver|]. intros k7 H7. rewrite close_one in H7 by done.
      apply wp_return. by eapply failed_without. }
  intros ev k5 Hev H5.
  assert (∀ st k6, holds ({[ev]} ∪ ({[h]} ∪ hs)) false false st k6 →
    wp (do! _ := CloseHandle ev in Return (Success h)) (accepted_or_not hs) k6) as Hconnected.
  { intros st k6 H6. eapply wp_close; [exact H6|set_solver|]. intros k7 H7.
    rewrite close_one in H7 by done. apply wp_return. split; [done|]. by eapply holds_weaken. }
  assert (∀ st p c msg e k6, holds ({[ev]} ∪ ({[h]} ∪ hs)) false p st k6 →
    (String.eqb msg wait_failed = false → p = false) →
    (c = ErrorCode.ServiceStopping → st = true) →
    wp (do! _ := CloseHandle ev in do! _ := CloseHandle h in Return (Failure (mkError c msg e)))
       (accepted_or_not hs) k6) as Hclosed.
  { intros st p c msg e k6 H6 Hm Hst. eapply wp_close; [exact H6|set_solver|]. intros k7 H7.
    rewrite close_one in H7 by done. eapply wp_close; [exact H7|set_solver|]. intros k8 H8.
    rewrite close_one in H8 by done. apply wp_return. split; [by eapply holds_weaken|].
    intros Hc. eapply h_stop; [exact H8|by apply Hst]. }
  eapply wp_connect; [exact H5|]. intros t e k6 H6.
  destruct (negb t && (e =? ERROR_IO_PENDING)) eqn:Ep.
  - eapply wp_wait; [exact H6| | |].
    + intros k7 H7. cbn [Z.eqb WAIT_OBJECT_0 Z.add negb]. eapply wp_overlapped; [exact H7|].
      intros [|] k8 H8; cbn [negb orb] in *; [by eapply Hconnected|].
      eapply wp_last_error; [exact H8|]. intros x k9 H9. by eapply Hclosed.
    + intros k7 H7. cbn [Z.eqb Pos.eqb WAIT_OBJECT_0 Z.add].
      eapply wp_still; [done|exact H7|]. intros k8 H8.
      eapply wp_overlapped; [exact H8|]. intros o k9 H9. cbn [orb] in H9. by eapply Hclosed.
    + intros w k7 N0 N1 H7. rewrite (proj2 (Z.eqb_neq _ _) N1), (proj2 (Z.eqb_neq _ _) N0). cbn [negb].
      eapply wp_last_error; [exact H7|]. intros x k8 H8. eapply wp_still; [done|exact H8|].
      intros k9 H9. by eapply Hclosed.
  - destruct (negb t && negb (e =? ERROR_PIPE_CONNECTED)); [by eapply Hclosed|by eapply Hconnected].
Qed.

Lemma Close_wp hs h stop k :
  h ∉ hs → holds ({[h]} ∪ hs) false false stop k →
  wp (Close (Some h)) (λ handle_ k', handle_ = None ∧ holds hs false false stop k') k.
Proof.
  intros Hh Hk. unfold Close. eapply wp_still; [done|exact Hk|]. intros k1 H1.
  eapply wp_still; [done|exact H1|]. intros k2 H2. eapply wp_close; [exact H2|set_solver|]. intros k3 H3.
  rewrite close_one in H3 by done. by apply wp_return.
Qed.

Fixpoint then_ {A B} (m : Win A) (f : A → Win B) : Win B :=
  match m with Return a => f a | Do c k => Do c (λ t, then_ (k t) f) end.

Lemma wp_then {A B} (m : Win A) (f : A → Win B) (Q : A → Kernel → Prop) (R : B → Kernel → Prop) k :
  wp m Q k → (∀ a k', Q a k' → wp (f a) R k') → wp (then_ m f) R k.
Proof.
  revert k. induction m as [a|T c g IH]; intros k Hm Hf; cbn [then_].
  - apply Hf. by apply Hm.
  - intros b k' (k0 & t & k1 & Hmw & Ha & He). eapply IH; [|exact Hf|exact He].
    intros a k2 He2. apply Hm. by exists k0, t, k1.
Qed.

(** A client is served: what was accepted is closed, and closed again by the
    destructor. *)
Definition serve (s : Win32NamedPipeServer) : Win (Result HANDLE) :=
  then_ (AcceptOnce s) (λ r,
    match r with
    | Failure _ => Return r
    | Success h => then_ (then_ (Close (Some h)) Close) (λ _, Return r)
    end).

(** ** Properties *)

(** C35: Accepting a client leaks nothing.  However the calls answer, [AcceptOnce]
    closes and frees what it opened, once, except the pipe of a client it
    accepted, which the transport then closes once; no connect into its stack
    frame is still in flight when it returns, unless the wait itself failed;
    and it says [ServiceStopping] only after a shutdown was requested. *)
Theorem AcceptOnce_leaks_nothing s k r k' :
  misuse k = false → descriptor k = false → connecting k = None →
  (exec (AcceptOnce s) k r k' →
   misuse k' = false ∧ descriptor k' = false ∧
   match r with
   | Success h => (h ∉ open_handles k) ∧ open_handles k' = {[h]} ∪ open_handles k ∧ connecting k' = None
   | Failure e => open_handles k' = open_handles k ∧
                  (message e ≠ wait_failed → connecting k' = None) ∧
                  (code e = ErrorCode.ServiceStopping → stop_signalled k' = true)
   end) ∧
  (exec (serve s) k r k' → misuse k' = false ∧ open_handles k' = open_handles k).
Proof.
  intros Hu Hd Hc. assert (holds (open_handles k) false false false k) as Hk by (by split).
  pose proof (AcceptOnce_wp s (open_handles k) false k Hk) as HA. split.
  - intros E. specialize (HA r k' E). destruct r as [h|e]; cbn [accepted_or_not] in HA.
    + destruct HA as [Hh [? ? ? Hp ?]]. by split_and!; auto.
    + destruct HA as [[? ? ? Hp ?] Hs]. split_and!; try done. intros Hm. apply Hp.
      by apply String.eqb_neq.
  - assert (wp (serve s) (λ _ k', misuse k' = false ∧ open_handles k' = open_handles k) k) as HS; [|apply HS].
    unfold serve. eapply wp_then; [exact HA|]. intros [h|e] k1 H1; cbn [accepted_or_not] in H1.
    + destruct H1 as [Hh H1]. eapply (wp_then _ _ (λ _ k', holds (open_handles k) false false false k')).
      * eapply wp_then; [by eapply Close_wp|]. intros a k2 [-> H2]. by apply wp_return.
      * intros a k2 [? ? ? ? ?]. by apply wp_return.
    + destruct H1 as [[? ? ? ? ?] _]. by apply wp_return.
Qed.

(** Shutdown ends the accepting.  Once [RequestShutdown] has returned, every
    [AcceptOnce] of the server says [ServiceStopping], without opening anything. *)
Theorem RequestShutdown_ends_accepting s k r k' :
  stopEvent_ s = true → exec (AcceptOnce s) (RequestShutdown s k) r k' →
  (∃ msg, r = stopping msg) ∧ open_handles k' = open_handles k ∧ stop_signalled k' = true.
Proof.
  unfold RequestShutdown. intros Hs. rewrite Hs.
  intros (k0 & t & k1 & (c & b & _ & Hb & ->) & [-> ->] & He).
  rewrite Hs, (Hb eq_refl) in He. cbn [andb stop_signalled] in He. destruct He as [-> ->].
  split; [by eexists|]. by split.
Qed.

Lemma meanwhile_refl k : meanwhile k k.
Proof. exists (connecting k), (stop_signalled k). split_and!; auto. by destruct k. Qed.

Lemma exec_call {A T} (c : Call T) (f : T → Win A) k t k1 a k' :
  answers k c t k1 → exec (f t) k1 a k' → exec (Do c f) k a k'.
Proof. intros Ha He. exists k, t, k1. split; [apply meanwhile_refl|done]. Qed.

(** After a wait that failed the cancelled connect is not awaited: it may still
    be in flight when the stack frame with its [OVERLAPPED] is gone. *)
Lemma failed_wait_leaves_connect_in_flight (ev : bool) :
  ∃ k' e, exec (AcceptOnce (mkServer [] ev)) (mkKernel ∅ false None false 0 false) (Failure e) k' ∧
          connecting k' = Some 0%nat ∧ open_handles k' = ∅.
Proof.
  set (k1 := mkKernel ∅ true None false 0 false).
  set (k2 := with_misuse (with_descriptor (with_open k1 ({[0%nat]} ∪ ∅)) false) false).
  set (k3 := with_open k2 ({[1%nat]} ∪ ({[0%nat]} ∪ ∅))).
  set (k4 := with_error (with_connecting k3 (Some 0%nat)) ERROR_IO_PENDING).
  set (k5 := with_error k4 6).
  eexists _, _. split; [|split].
  - unfold AcceptOnce. apply (exec_call _ _ _ false (mkKernel ∅ false None false 0 false)); [cbn; by rewrite andb_false_r|].
    apply (exec_call _ _ _ true k1); [done|]. cbn [negb].
    apply (exec_call _ _ _ (Some 0%nat) (with_open k1 ({[0%nat]} ∪ ∅))); [by split; [set_solver|]|].
    apply (exec_call _ _ _ tt k2); [done|].
    apply (exec_call _ _ _ (Some 1%nat) k3); [split; [by vm_compute|done]|].
    apply (exec_call _ _ _ false k4); [by exists ERROR_IO_PENDING|].
    apply (exec_call _ _ _ ERROR_IO_PENDING k4); [done|].
    apply (exec_call _ _ _ (-1) k5); [by split; [exists 6|]|].
    apply (exec_call _ _ _ 6 k5); [done|].
    apply (exec_call _ _ _ tt k5); [done|].
    eapply (exec_call _ _ _ tt); [reflexivity|]. eapply (exec_call _ _ _ tt); [reflexivity|]. by split.
  - done.
  - cbn. set_solver.
Qed.
