(* ===== verification/Gui.v ===== *)
(** * Gui: the status client of the user interface and its window

    Models src/gui/QuantumCacheGui/RecoveryStatusClient.cpp, which speaks the
    protocol with code of its own - a request written out by hand, a loop that
    receives the reply, and a decoder by offsets - and the texts the window of
    MainWindow.xaml.cpp makes of the answer.  The theorems: the client accepts
    what the codec of the service accepts, and the window shows what the service
    knows. *)
From stdpp Require Import pretty.
From S2P Require Import Prelude Common Wire Storage Journal Marker Recovery Store Shard Engine.
From S2P Require Import EngineFacts Durability Client Lifecycle Service Ipc Requests Config.
Open Scope Z_scope.

Record RecoveryStatus := mkRecoveryStatus {
  gui_recoveryState : Z;
  gui_sessionGeneration : Z;
  gui_cacheEngineActive : bool
}.

Definition kGetStatusRequest : Z := MessageType.MessageType_val MessageType.GetStatusRequest.
Definition kGetStatusResponse : Z := MessageType.MessageType_val MessageType.GetStatusResponse.

(** The array [request], filled by [memcpy]. *)
Definition gui_request : bytes :=
  le_bytes 4 12 ++ le_bytes 4 kGetStatusRequest ++ le_bytes 4 kProtocolVersion.

(** What follows the receipt: the checks, then the fields at their offsets. *)
Definition gui_decode (buffer : bytes) : option RecoveryStatus :=
  let type := le_val (slice buffer 4 4) in
  let version := le_val (slice buffer 8 4) in
  if negb (type =? kGetStatusResponse) || negb (version =? kProtocolVersion) then None
  else if zlen buffer <? 12 + 4 + 8 + 1 then None
  else Some (mkRecoveryStatus (le_val (slice buffer 12 4)) (le_val (slice buffer 16 8))
                              (negb (le_val (slice buffer 24 1) =? 0))).

Section client.
Context {P : Type} `{Win32Pipe P}.

(** [gotTotal] bytes of [remaining] are in the buffer. *)
Fixpoint gui_receive (fuel : nat) (pipe : P) (buffer : bytes) (gotTotal remaining : Z) : option bytes * P :=
  if remaining <=? gotTotal then (Some buffer, pipe) else
  match fuel with
  | O => (None, pipe)
  | S fuel =>
    match ReadFile pipe (remaining - gotTotal) with
    | (Some got, pipe) =>
      if zlen got =? 0 then (None, pipe)
      else gui_receive fuel pipe (buffer ++ got) (gotTotal + zlen got) remaining
    | (None, pipe) => (None, pipe)
    end
  end.

(** [pipe]: what [CreateFileW] opened.  The handle is closed on every path. *)
Definition FetchStatus (pipe : option P) : option RecoveryStatus * option P :=
  match pipe with
  | None => (None, None)
  | Some pipe =>
    match WriteFile pipe gui_request with
    | (None, pipe) => (None, Some pipe)
    | (Some written, pipe) =>
      if negb (written =? 12) then (None, Some pipe) else
      match ReadFile pipe 4 with
      | (None, pipe) => (None, Some pipe)
      | (Some prefix, pipe) =>
        if negb (zlen prefix =? 4) then (None, Some pipe) else
        let responseLength := le_val prefix in
        if (responseLength <? 12) || (4096 <? responseLength) then (None, Some pipe) else
        (* A turn receives a byte at least. *)
        match gui_receive (Z.to_nat (responseLength - 4)) pipe prefix 0 (responseLength - 4) with
        | (None, pipe) => (None, Some pipe)
        | (Some buffer, pipe) => (gui_decode buffer, Some pipe)
        end
      end
    end
  end.

(** The client's loop is the transport's. *)
Lemma gui_receive_loop fuel pipe buffer gotTotal remaining :
  gui_receive fuel pipe buffer gotTotal remaining =
  match receive_loop fuel pipe buffer (remaining - gotTotal) with
  | Some (Success frame, pipe) => (Some frame, pipe)
  | Some (Failure _, pipe) => (None, pipe)
  | None => gui_receive fuel pipe buffer gotTotal remaining
  end.
Proof.
  revert pipe buffer gotTotal. induction fuel as [|fuel IH]; intros pipe buffer gotTotal;
    cbn [gui_receive receive_loop];
    destruct (Z.leb_spec remaining gotTotal), (Z.leb_spec (remaining - gotTotal) 0); try lia; try done.
  destruct (ReadFile pipe (remaining - gotTotal)) as [[got|] p1]; [|done].
  destruct (zlen got =? 0); [done|]. rewrite IH at 1.
  by replace (remaining - (gotTotal + zlen got)) with (remaining - gotTotal - zlen got) by lia.
Qed.
End client.

(** ** The decoder against the codec *)

Definition payload_of (st : RecoveryStatus) : StatusResponsePayload :=
  mkStatus (gui_recoveryState st) (gui_sessionGeneration st) (gui_cacheEngineActive st).

Lemma take_slice {n} (c : bytes) : slice c 0 (Z.of_nat n) = take n c.
Proof. unfold slice. by rewrite Nat2Z.id, drop_0. Qed.

Lemma gui_decode_codec frame :
  le_val (take 4 frame) = zlen frame → 12 ≤ zlen frame →
  match gui_decode frame with
  | Some st => DecodeStatusResponse frame = Success (payload_of st)
  | None => ∃ e, DecodeStatusResponse frame = Failure e
  end.
Proof.
  intros Hl Hb. unfold gui_decode, DecodeStatusResponse, ReadRaw.
  change (0 + Z.of_nat 4) with 4. rewrite (proj2 (Z.ltb_ge (zlen frame) 4)) by lia. cbn [mbind option_bind].
  change (4 + Z.of_nat 4) with 8. rewrite (proj2 (Z.ltb_ge (zlen frame) 8)) by lia. cbn [mbind option_bind].
  change (8 + Z.of_nat 4) with 12. rewrite (proj2 (Z.ltb_ge (zlen frame) 12)) by lia. cbn [mbind option_bind].
  rewrite take_slice, Hl, Z.eqb_refl. cbn [negb]. change (Z.of_nat 4) with 4.
  unfold kGetStatusResponse, fail. destruct (_ =? MessageType.MessageType_val _); cbn [negb orb]; [|by eexists].
  destruct (_ =? kProtocolVersion); cbn [negb]; [|by eexists].
  change (12 + 4) with 16. change (16 + Z.of_nat 8) with 24. change (24 + Z.of_nat 1) with 25.
  change (16 + 8 + 1) with 25. change (Z.of_nat 8) with 8. change (Z.of_nat 1) with 1.
  destruct (Z.ltb_spec (zlen frame) 25).
  - eexists. destruct (Z.ltb_spec (zlen frame) 16); cbn [mbind option_bind]; [done|]. change (16 + 8) with 24.
    destruct (Z.ltb_spec (zlen frame) 24); cbn [mbind option_bind]; [done|]. change (24 + 1) with 25.
    by rewrite (proj2 (Z.ltb_lt (zlen frame) 25)) by lia.
  - rewrite (proj2 (Z.ltb_ge (zlen frame) 16)) by lia. cbn [mbind option_bind]. change (16 + 8) with 24.
    rewrite (proj2 (Z.ltb_ge (zlen frame) 24)) by lia. cbn [mbind option_bind]. change (24 + 1) with 25.
    by rewrite (proj2 (Z.ltb_ge (zlen frame) 25)) by lia.
Qed.

Lemma gui_request_is : gui_request = EncodeEmpty MessageType.GetStatusRequest.
Proof. vm_compute. reflexivity. Qed.

(** ** The client against the service *)

Section client_spec.
Context {P : Type} `{Win32PipeSpec P}.

Lemma FetchStatus_inv pipe st pipe' :
  FetchStatus (Some pipe) = (Some st, Some pipe') →
  ∃ p1 frame, WriteFile pipe gui_request = (Some 12, p1) ∧
    le_val (take 4 frame) = zlen frame ∧ 12 ≤ zlen frame ≤ 4096 ∧
    pending p1 = frame ++ pending pipe' ∧ gui_decode frame = Some st.
Proof.
  unfold FetchStatus. destruct (WriteFile pipe gui_request) as [[w|] p1]; [|done].
  destruct (Z.eqb_spec w 12) as [->|]; cbn [negb]; [|done].
  destruct (ReadFile p1 4) as [[prefix|] p2] eqn:E; [|done]. destruct (ReadFile_ok _ _ _ _ E) as [Hp _].
  destruct (Z.eqb_spec (zlen prefix) 4) as [Hz|]; cbn [negb]; [|done].
  destruct ((le_val prefix <? 12) || _) eqn:B; [done|]. zbool. rewrite gui_receive_loop, Z.sub_0_r.
  destruct (receive_loop_end (Z.to_nat (le_val prefix - 4)) p2 prefix (le_val prefix - 4))
    as (r' & p3 & -> & Hr); [lia..|]. destruct r' as [f|e]; [|done].
  destruct Hr as (got & -> & Hg & Hp2). intros [= Hd <-]. exists p1, (prefix ++ got).
  assert (zlen (prefix ++ got) = le_val prefix) as Hl by (rewrite zlen_app; lia).
  split; [done|]. rewrite take_app_length' by (unfold zlen in Hz; lia).
  split_and!; [done|lia|lia|by rewrite Hp, Hp2, app_assoc|done].
Qed.

Lemma FetchStatus_complete pipe p1 p2 frame rest :
  le_val (take 4 frame) = zlen frame → 12 ≤ zlen frame ≤ 4096 →
  WriteFile pipe gui_request = (Some 12, p1) → pending p1 = frame ++ rest →
  ReadFile p1 4 = (Some (take 4 frame), p2) → delivers p2 →
  ∃ p', FetchStatus (Some pipe) = (gui_decode frame, Some p') ∧ pending p' = rest.
Proof.
  intros Hl Hb Ew Hp E Hd. destruct (ReadFile_ok _ _ _ _ E) as [Hp1 _].
  unfold FetchStatus. rewrite Ew. cbn [negb Z.eqb Pos.eqb]. rewrite E. unfold zlen in Hb.
  assert (zlen (take 4 frame) = 4) as Hz by (unfold zlen; rewrite length_take; lia).
  rewrite Hz, Hl. cbn [negb Z.eqb Pos.eqb]. unfold zlen at 1 2.
  rewrite (proj2 (Z.ltb_ge _ _)), (proj2 (Z.ltb_ge _ _)) by lia. cbn [orb].
  rewrite <- (take_drop 4 frame) in Hp at 1. rewrite Hp1, <- app_assoc in Hp. apply app_inv_head in Hp.
  assert (zlen (drop 4 frame) = zlen frame - 4) as Hd4 by (unfold zlen; rewrite length_drop; lia).
  destruct (receive_loop_delivers (Z.to_nat (zlen frame - 4)) p2 (take 4 frame) (drop 4 frame) rest)
    as (p' & Er & Hr); [unfold zlen in *; lia|done..|].
  exists p'. rewrite gui_receive_loop, Z.sub_0_r. rewrite Hd4 in Er. by rewrite Er, take_drop.
Qed.
End client_spec.

(** A service that answers on a pipe that delivers. *)
Lemma FetchStatus_answered {P F} `{Win32PipeSpec P} `{IFile F} (hash : string → Z) (pipe : P) (s : Service F)
    p1 p2 reply rest :
  WriteFile pipe gui_request = (Some 12, p1) →
  HandleFrame hash gui_request s = (Some reply, s) →
  pending p1 = reply ++ rest → ReadFile p1 4 = (Some (take 4 reply), p2) → delivers p2 →
  ∃ p' st, FetchStatus (Some pipe) = (Some st, Some p') ∧ payload_of st = status_payload s.
Proof.
  intros Ew Eh Hp Er Hd.
  assert (reply = EncodeStatusResponse (status_payload s)) as Hreply
    by (rewrite gui_request_is in Eh; by injection Eh).
  assert (status_ok (status_payload s)) as Hok.
  { split; unfold in_width; cbn; [|lia].
    destruct (match g_recoveryManager s with Some rm => _ | None => _ end); cbn; lia. }
  pose proof (DecodeStatusResponse_Encode _ Hok) as HD.
  assert (frame_fits (StatusResponse_body (status_payload s))) as Hf
    by (unfold frame_fits, StatusResponse_body; by autorewrite with qcache_len).
  assert (zlen reply = 25) as Hz.
  { rewrite Hreply, EncodeStatusResponse_shape. unfold whole_frame, StatusResponse_body.
    by autorewrite with qcache_len. }
  assert (le_val (take 4 reply) = zlen reply) as Hl.
  { rewrite Hz, Hreply, EncodeStatusResponse_shape. unfold whole_frame.
    rewrite take_app_length' by (by rewrite length_le_bytes). unfold StatusResponse_body.
    autorewrite with qcache_len. by rewrite le_val_le_bytes_small. }
  destruct (FetchStatus_complete pipe p1 p2 reply rest Hl ltac:(lia) Ew Hp Er Hd) as (p' & E & _).
  pose proof (gui_decode_codec reply Hl ltac:(lia)) as HG. rewrite Hreply, HD in HG. rewrite <- Hreply in HG.
  destruct (gui_decode reply) as [st|]; [|by destruct HG].
  exists p', st. split; [exact E|congruence].
Qed.

(** The user interface shows what the service knows.  A status it shows was
    received as a whole frame that the codec decodes to the same fields; and
    when the service answers the request on a pipe that delivers, in however
    many pieces, what is shown is the state of the service's recovery, and
    the engine active exactly when recovery is complete. *)
Theorem FetchStatus_shows {P F} `{Win32PipeSpec P} `{IFile F} (hash : string → Z) (pipe : P) :
  (∀ st pipe', FetchStatus (Some pipe) = (Some st, Some pipe') →
     ∃ p1 frame, WriteFile pipe (EncodeEmpty MessageType.GetStatusRequest) = (Some 12, p1) ∧
       pending p1 = frame ++ pending pipe' ∧ zlen frame ≤ 4096 ∧
       DecodeStatusResponse frame = Success (payload_of st)) ∧
  (∀ (s : Service F) p1 p2 reply rest,
     WriteFile pipe (EncodeEmpty MessageType.GetStatusRequest) = (Some 12, p1) →
     HandleFrame hash (EncodeEmpty MessageType.GetStatusRequest) s = (Some reply, s) →
     pending p1 = reply ++ rest → ReadFile p1 4 = (Some (take 4 reply), p2) → delivers p2 →
     ∃ p' st, FetchStatus (Some pipe) = (Some st, Some p') ∧ payload_of st = status_payload s).
Proof.
  rewrite <- gui_request_is. split.
  - intros st pipe' E. destruct (FetchStatus_inv _ _ _ E) as (p1 & frame & Ew & Hl & Hb & Hp & Hd).
    exists p1, frame. split_and!; [done|done|lia|].
    pose proof (gui_decode_codec frame Hl ltac:(lia)) as HD. by rewrite Hd in HD.
  - intros s p1 p2 reply rest. by apply FetchStatus_answered.
Qed.

(** ** MainWindow.xaml.cpp *)

(** The texts of the window, as code units; 8212 is the dash. *)
Definition dash : wstring := [8212].

Definition kPipeName : wstring := L "\\.\pipe\QuantumCacheControl".

Definition DescribeRecoveryState (state : Z) : wstring :=
  match state with
  | 0 => L "Unknown"
  | 1 => L "Clean shutdown (no recovery needed)"
  | 2 => L "Unclean shutdown detected (possible power loss)"
  | 3 => L "Recovery in progress..."
  | 4 => L "Recovery complete"
  | 5 => L "Recovery FAILED " ++ dash ++ L " store may be inconsistent"
  | _ => L "Invalid state value"
  end.

Record MainWindow := mkMainWindow { RecoveryStateText : wstring; SessionGenerationText : wstring }.

Definition RefreshStatus {P} `{Win32Pipe P} (pipe : option P) : MainWindow * option P :=
  match FetchStatus pipe with
  | (None, pipe) =>
    (mkMainWindow (L "Service unreachable (not running, or IPC pipe not yet available).")
                  (L "Session generation: " ++ dash), pipe)
  | (Some status, pipe) =>
    (mkMainWindow (DescribeRecoveryState (gui_recoveryState status))
                  (L "Session generation: " ++ L (pretty (gui_sessionGeneration status))), pipe)
  end.

(** The window tells the state of the service.  It asks on the pipe the default
    configuration names; what it shows tells the states of recovery apart from
    each other, from an invalid value and from an unreachable service; and when
    the service answers, the text is that of its state, with a session
    generation that is always 0. *)
Theorem RefreshStatus_tells {P F} `{Win32PipeSpec P} `{IFile F} (hash : string → Z) (pipe : P) (s : Service F)
    p1 p2 reply rest :
  WriteFile pipe gui_request = (Some 12, p1) → HandleFrame hash gui_request s = (Some reply, s) →
  pending p1 = reply ++ rest → ReadFile p1 4 = (Some (take 4 reply), p2) → delivers p2 →
  kPipeName = ipcPipeName AppConfig_default ∧
  ∃ p', RefreshStatus (Some pipe) =
    (mkMainWindow (DescribeRecoveryState (recoveryState (status_payload s))) (L "Session generation: 0"), Some p') ∧
  (∀ st st', DescribeRecoveryState (RecoveryState.RecoveryState_val st) =
             DescribeRecoveryState (RecoveryState.RecoveryState_val st') → st = st') ∧
  ∀ st, DescribeRecoveryState (RecoveryState.RecoveryState_val st) ≠
        RecoveryStateText (fst (RefreshStatus (P := P) None)).
Proof.
  intros Ew Eh Hp Er Hd. split; [vm_compute; reflexivity|].
  destruct (FetchStatus_answered hash pipe s p1 p2 reply rest Ew Eh Hp Er Hd) as (p' & st & E & Hst).
  exists p'. unfold RefreshStatus. rewrite E. rewrite <- Hst. split; [|split].
  - assert (gui_sessionGeneration st = 0) as -> by (by apply (f_equal sessionGeneration) in Hst). reflexivity.
  - intros [] []; vm_compute; congruence.
  - intros []; vm_compute; congruence.
Qed.
