(* ===== verification/Installer.v ===== *)
(** * Installer: the service in the service control manager's database

    Models src/src/Service/src/Win32ServiceInstaller.cpp: [InstallService] and
    [UninstallService] over a model of the service control manager, with the
    guard whose destructor closes a handle on every way out.  A service that is
    marked for deletion stays in the database until it is stopped and the last
    handle to it is closed, as the documentation of [DeleteService] says. *)
From stdpp Require Import gmap.
From S2P Require Import Prelude Common Storage Shard Engine Config.
Open Scope Z_scope.

Module Installer.

Inductive StartType := SERVICE_AUTO_START | SERVICE_DEMAND_START.

Record ServiceInstallOptions := mkInstallOptions {
  serviceName : wstring;
  displayName : wstring;
  description : wstring;
  binaryPath : wstring;
  autoStart : bool
}.

(** ** The service control manager *)

Record Entry := mkEntry {
  e_display : wstring;
  e_start : StartType;
  e_binary : wstring;
  e_description : wstring;
  e_running : bool;
  e_delete : bool                 (** marked for deletion *)
}.

(** A handle leads to a service, or, with [None], to the manager.  The faults
    are the errors of the next calls, 0 for none. *)
Record Scm := mkScm {
  services : gmap wstring Entry;
  handles : gmap nat (option wstring);
  last_error : Z;
  faults : list Z
}.

Definition with_services (s : Scm) (m : gmap wstring Entry) : Scm := mkScm m (handles s) (last_error s) (faults s).
Definition with_handles (s : Scm) (m : gmap nat (option wstring)) : Scm := mkScm (services s) m (last_error s) (faults s).
Definition with_error (s : Scm) (e : Z) : Scm := mkScm (services s) (handles s) e (faults s).

Definition M (A : Type) : Type := Scm → A * Scm.
#[export] Instance M_ret : MRet M := λ A a s, (a, s).
#[export] Instance M_bind : MBind M := λ A B f m s, let '(a, s) := m s in f a s.

(** A call that may fail: the injected error, or the call. *)
Definition attempt {A} (failed : A) (f : Scm → A * Scm) : M A := λ s,
  match faults s with
  | [] => f s
  | e :: rest =>
    let s := mkScm (services s) (handles s) (last_error s) rest in
    if e =? 0 then f s else (failed, with_error s e)
  end.

Definition new_handle (target : option wstring) (s : Scm) : option nat * Scm :=
  let h := fresh (dom (handles s)) in
  (Some h, with_handles s (<[h := target]> (handles s))).

Definition ERROR_SERVICE_DOES_NOT_EXIST : Z := 1060.
Definition ERROR_SERVICE_MARKED_FOR_DELETE : Z := 1072.
Definition ERROR_SERVICE_EXISTS : Z := 1073.

Section calls.
(** The name under which the manager keeps a service: it ignores case. *)
Context (fold_name : wstring → wstring).

Definition OpenSCManagerW : M (option nat) := attempt None (new_handle None).

Definition CreateServiceW (name display : wstring) (start : StartType) (binary : wstring) : M (option nat) :=
  attempt None (λ s,
    match services s !! fold_name name with
    | Some e => (None, with_error s (if e_delete e then ERROR_SERVICE_MARKED_FOR_DELETE else ERROR_SERVICE_EXISTS))
    | None =>
      new_handle (Some (fold_name name))
        (with_services s (<[fold_name name := mkEntry display start binary [] false false]> (services s)))
    end).

Definition OpenServiceW (name : wstring) : M (option nat) :=
  attempt None (λ s,
    match services s !! fold_name name with
    | Some _ => new_handle (Some (fold_name name)) s
    | None => (None, with_error s ERROR_SERVICE_DOES_NOT_EXIST)
    end).

(** The entry a handle of a service leads to. *)
Definition entry_of (s : Scm) (h : nat) : option (wstring * Entry) :=
  match handles s !! h with
  | Some (Some k) => e ← services s !! k; Some (k, e)
  | _ => None
  end.

Definition ERROR_INVALID_HANDLE : Z := 6.

Definition ChangeServiceConfig2W (h : nat) (text : wstring) : M bool :=
  attempt false (λ s,
    match entry_of s h with
    | Some (k, e) =>
      (true, with_services s
        (<[k := mkEntry (e_display e) (e_start e) (e_binary e) text (e_running e) (e_delete e)]> (services s)))
    | None => (false, with_error s ERROR_INVALID_HANDLE)
    end).

Definition marked (e : Entry) : Entry :=
  mkEntry (e_display e) (e_start e) (e_binary e) (e_description e) (e_running e) true.

Definition DeleteService (h : nat) : M bool :=
  attempt false (λ s,
    match entry_of s h with
    | Some (k, e) =>
      if e_delete e then (false, with_error s ERROR_SERVICE_MARKED_FOR_DELETE)
      else (true, with_services s (<[k := marked e]> (services s)))
    | None => (false, with_error s ERROR_INVALID_HANDLE)
    end).

(** A handle to the service is open. *)
Definition held (k : wstring) (hs : gmap nat (option wstring)) : Prop := map_Exists (λ _ t, t = Some k) hs.
#[global] Instance held_dec k hs : Decision (held k hs).
Proof. unfold held. apply _. Defined.

(** A service marked for deletion goes with its last handle, once stopped.  The
    call may change the last error. *)
Definition CloseServiceHandle (h : nat) : M unit := λ s,
  let rest := delete h (handles s) in
  let kept := match entry_of s h with
              | Some (k, e) => if e_delete e && negb (e_running e) && negb (bool_decide (held k rest))
                               then delete k (services s) else services s
              | None => services s
              end in
  (tt, mkScm kept rest 0 (faults s)).

Definition GetLastError : M Z := λ s, (last_error s, s).

(** ** Win32ServiceInstaller.cpp *)

Definition MakeWin32Error (context : string) : M Error :=
  err ← GetLastError;
  mret (mkError ErrorCode.Win32ApiFailure context err).

(** [ScHandleGuard]: the handle is closed when the block is left, after its
    result is made. *)
Definition ScHandleGuard {A} (acquire : M (option nat)) (block : option nat → M A) : M A :=
  h ← acquire;
  r ← block h;
  match h with
  | Some h => _ ← CloseServiceHandle h; mret r
  | None => mret r
  end.

Definition failure (context : string) : M (Result unit) :=
  err ← MakeWin32Error context;
  mret (Failure err).

Definition is_empty (w : wstring) : bool := match w with [] => true | _ => false end.

Definition no_manager : string := "OpenSCManagerW failed (requires Administrator privileges on real Windows)".

Definition InstallService (options : ServiceInstallOptions) : M (Result unit) :=
  if is_empty (serviceName options) || is_empty (binaryPath options) then
    mret (Failure (mkError ErrorCode.InvalidArgument "serviceName and binaryPath must not be empty" 0))
  else
    ScHandleGuard OpenSCManagerW (λ scm,
      match scm with
      | None => failure no_manager
      | Some _ =>
        let startType := if autoStart options then SERVICE_AUTO_START else SERVICE_DEMAND_START in
        let display := if is_empty (displayName options) then serviceName options else displayName options in
        ScHandleGuard (CreateServiceW (serviceName options) display startType (binaryPath options)) (λ service,
          match service with
          | None => failure "CreateServiceW failed"
          | Some service =>
            if is_empty (description options) then mret (Success tt)
            else _ ← ChangeServiceConfig2W service (description options); mret (Success tt)
          end)
      end).

Definition UninstallService (name : wstring) : M (Result unit) :=
  if is_empty name then
    mret (Failure (mkError ErrorCode.InvalidArgument "serviceName must not be empty" 0))
  else
    ScHandleGuard OpenSCManagerW (λ scm,
      match scm with
      | None => failure no_manager
      | Some _ =>
        ScHandleGuard (OpenServiceW name) (λ service,
          match service with
          | None => failure "OpenServiceW failed"
          | Some service =>
            deleted ← DeleteService service;
            if negb deleted then failure "DeleteService failed" else mret (Success tt)
          end)
      end).

(** ** Reasoning about the calls *)

Definition runs {A} (m : M A) (s : Scm) (Q : A → Scm → Prop) : Prop := let '(a, s') := m s in Q a s'.

Lemma runs_bind {A B} (m : M A) (f : A → M B) s Q : runs m s (λ a s', runs (f a) s' Q) → runs (m ≫= f) s Q.
Proof. unfold runs, mbind, M_bind. by destruct (m s) as [a s']. Qed.

Lemma runs_weaken {A} (m : M A) s (P Q : A → Scm → Prop) : runs m s P → (∀ a s', P a s' → Q a s') → runs m s Q.
Proof. unfold runs. destruct (m s) as [a s']. auto. Qed.

(** The same database: only errors and faults differ. *)
Definition same (s s' : Scm) : Prop :=
  services s' = services s ∧ handles s' = handles s ∧ (faults s = [] → faults s' = []).

(** What an error that is reported looks like. *)
Definition reported (e : Error) : Prop := code e = ErrorCode.Win32ApiFailure ∧ platformErrorValue e ≠ 0.

Lemma runs_attempt {A} (failed : A) f s (Q : A → Scm → Prop) :
  (∀ s', same s s' → last_error s' ≠ 0 → faults s ≠ [] → Q failed s') →
  (∀ s', same s s' → runs f s' Q) → runs (attempt failed f) s Q.
Proof.
  intros Hfail Hok. unfold runs, attempt. destruct (faults s) as [|e rest] eqn:E.
  { apply Hok. split; [done|]. by split. }
  assert (∀ x, same s (mkScm (services s) (handles s) x rest)) as Hs
    by (intros x; split; [done|]; split; [done|]; intros F; congruence).
  destruct (Z.eqb_spec e 0) as [->|Hne]; [by apply (Hok (mkScm _ _ _ _))|]. apply Hfail; [apply Hs|done|congruence].
Qed.

Lemma runs_failure context s (Q : Result unit → Scm → Prop) :
  last_error s ≠ 0 → (∀ e, reported e → Q (Failure e) s) → runs (failure context) s Q.
Proof. intros He HQ. by apply HQ. Qed.

Lemma runs_new_handle target s (Q : option nat → Scm → Prop) :
  (∀ h, handles s !! h = None → Q (Some h) (with_handles s (<[h := target]> (handles s)))) →
  runs (new_handle target) s Q.
Proof. intros HQ. apply HQ, not_elem_of_dom, is_fresh. Qed.

(** The guard, where nothing was acquired and where something was. *)
Lemma runs_guard {A} (acquire : M (option nat)) (block : option nat → M A) s Q :
  runs acquire s (λ h s1, runs (block h) s1 (λ r s2,
    match h with Some h => runs (CloseServiceHandle h) s2 (λ _ s3, Q r s3) | None => Q r s2 end)) →
  runs (ScHandleGuard acquire block) s Q.
Proof.
  intros H. unfold ScHandleGuard. apply runs_bind. eapply runs_weaken; [exact H|]. clear s H.
  intros h s H. apply runs_bind. eapply runs_weaken; [exact H|]. clear s H. intros r s H.
  destruct h as [h|]; [|exact H]. apply runs_bind. eapply runs_weaken; [exact H|]. by intros [] s' HQ.
Qed.

Lemma close_manager h m s (Q : unit → Scm → Prop) :
  handles s = <[h := None]> m → m !! h = None →
  (∀ s', services s' = services s → handles s' = m → Q tt s') → runs (CloseServiceHandle h) s Q.
Proof.
  intros Hh Hm HQ. unfold runs, CloseServiceHandle. apply HQ; cbn.
  - unfold entry_of. by rewrite Hh, lookup_insert_eq.
  - rewrite Hh. by apply delete_insert_id.
Qed.

Lemma runs_manager block s (Q : Result unit → Scm → Prop) :
  (∀ e s', same s s' → reported e → faults s ≠ [] → Q (Failure e) s') →
  (∀ h s1, services s1 = services s → handles s1 = <[h := None]> (handles s) → handles s !! h = None →
     (faults s = [] → faults s1 = []) →
     runs block s1 (λ r s2, handles s2 = handles s1 ∧
       ∀ s3, services s3 = services s2 → handles s3 = handles s → Q r s3)) →
  runs (ScHandleGuard OpenSCManagerW (λ scm, match scm with None => failure no_manager | Some _ => block end)) s Q.
Proof.
  intros Hf Hb. apply runs_guard. apply runs_attempt.
  - intros s' Hs He F. apply runs_failure; [done|]. intros e Hr. by apply Hf.
  - intros s1 (Es & Eh & Ef). apply runs_new_handle. intros h Hh. rewrite Eh in Hh. cbn [with_handles].
    eapply runs_weaken; [apply (Hb h); cbn; [done|by rewrite Eh|done|done]|].
    intros r s2 [E2 H2]. cbn in E2. rewrite Eh in E2. apply (close_manager h (handles s)); [done|done|].
    intros s3 E3 E3'. by apply H2.
Qed.

(** A service marked for deletion is running or has an open handle; a handle to
    a service leads to it. *)
Record scm_ok (s : Scm) : Prop := {
  so_marked k e : services s !! k = Some e → e_delete e = true → e_running e = true ∨ held k (handles s);
  so_held k : held k (handles s) → is_Some (services s !! k)
}.

Lemma close_service h k e m s (Q : unit → Scm → Prop) :
  handles s = <[h := Some k]> m → m !! h = None → services s !! k = Some e →
  (∀ s', services s' = (if e_delete e && negb (e_running e) && negb (bool_decide (held k m))
                        then delete k (services s) else services s) →
         handles s' = m → Q tt s') → runs (CloseServiceHandle h) s Q.
Proof.
  intros Hh Hm He HQ. unfold runs, CloseServiceHandle. rewrite Hh, delete_insert_id by done.
  apply HQ; [|done]. cbn. unfold entry_of. rewrite Hh, lookup_insert_eq. by rewrite He.
Qed.

Lemma held_insert_manager k h m : m !! h = None → held k (<[h := None]> m) ↔ held k m.
Proof.
  intros Hm. unfold held. rewrite !map_Exists_lookup. split.
  - intros (i & x & Hi & ->). apply lookup_insert_Some in Hi as [[_ [=]]|[_ Hi]]. by exists i, (Some k).
  - intros (i & x & Hi & ->). exists i, (Some k). split; [|done]. rewrite lookup_insert_ne; [done|].
    intros ->. by rewrite Hm in Hi.
Qed.

(** ** What installing and removing do *)

Definition installed (options : ServiceInstallOptions) (text : wstring) : Entry :=
  mkEntry (if is_empty (displayName options) then serviceName options else displayName options)
    (if autoStart options then SERVICE_AUTO_START else SERVICE_DEMAND_START)
    (binaryPath options) text false false.

(** What the database is after an installation. *)
Definition install_post (options : ServiceInstallOptions) (s : Scm) (r : Result unit) (s' : Scm) : Prop :=
  let k := fold_name (serviceName options) in
  handles s' = handles s ∧
  match r with
  | Success _ => serviceName options ≠ [] ∧ binaryPath options ≠ [] ∧ services s !! k = None ∧
                 ∃ text, (text = description options ∨ text = [] ∧ faults s ≠ []) ∧
                         services s' = <[k := installed options text]> (services s)
  | Failure e => services s' = services s ∧
                 if is_empty (serviceName options) || is_empty (binaryPath options)
                 then code e = ErrorCode.InvalidArgument
                 else reported e ∧ (faults s ≠ [] ∨ is_Some (services s !! k))
  end.

Lemma InstallService_runs options s : runs (InstallService options) s (install_post options s).
Proof.
  unfold InstallService, install_post. destruct (is_empty (serviceName options)) eqn:En; [by split|].
  destruct (is_empty (binaryPath options)) eqn:Eb; [by split|]. cbn [orb].
  apply runs_manager.
  { intros e s' (Es & Eh & _) He F. split; [done|]. split; [done|]. split; [done|by left]. }
  intros m s1 Es1 Eh1 Hm Ef1. apply runs_guard. apply runs_attempt.
  { intros s2 (Es2 & Eh2 & _) He F. apply runs_failure; [done|]. intros e Hr. split; [done|].
    intros s3 E3 H3. split; [done|]. split; [congruence|]. split; [done|]. left. intros F0. by apply F, Ef1. }
  intros s2 (Es2 & Eh2 & Ef2). unfold runs at 1. destruct (services s2 !! fold_name (serviceName options)) as [old|] eqn:Eo.
  { apply runs_failure; [by destruct (e_delete old)|]. intros e Hr. split; [done|].
    intros s3 E3 H3. split; [done|]. cbn in E3. split; [congruence|]. split; [done|]. right.
    rewrite <- Es1, <- Es2, Eo. by eexists. }
  apply runs_new_handle. intros h Hh. cbn in Hh.
  set (k := fold_name (serviceName options)). unfold with_services, with_handles. cbn [services handles last_error faults].
  set (s4 := mkScm (<[k := _]> (services s2)) _ _ _).
  assert (∀ text s5, handles s5 = handles s4 → (text = description options ∨ text = [] ∧ faults s ≠ []) →
    services s5 = <[k := installed options text]> (services s) →
    runs (CloseServiceHandle h) s5 (λ _ s6, handles s6 = handles s1 ∧ ∀ s7, services s7 = services s6 →
      handles s7 = handles s → handles s7 = handles s ∧ serviceName options ≠ [] ∧ binaryPath options ≠ [] ∧
      services s !! k = None ∧ ∃ text, (text = description options ∨ text = [] ∧ faults s ≠ []) ∧
        services s7 = <[k := installed options text]> (services s))) as Hclose.
  { intros text s5 H5 Ht E5. apply (close_service h k (installed options text) (handles s1)).
    - rewrite H5. cbn. by rewrite Eh2.
    - by rewrite Eh2 in Hh.
    - by rewrite E5, lookup_insert_eq.
    - intros s6 E6 H6. split; [done|]. intros s7 E7 H7. split; [done|]. split; [by intros E; rewrite E in En|].
      split; [by intros E; rewrite E in Eb|]. split; [by rewrite <- Es1, <- Es2|]. exists text.
      split; [done|]. rewrite E7, E6. exact E5. }
  assert (services s4 = <[k := installed options []]> (services s)) as E4
    by (unfold s4; cbn [services]; by rewrite Es2, Es1).
  destruct (is_empty (description options)) eqn:Ed.
  { apply (Hclose []); [done| |done]. left. by destruct (description options). }
  apply runs_bind, runs_attempt.
  { intros s5 (E5 & H5 & _) _ Hf. apply (Hclose []); [done| |congruence]. right. split; [done|].
    intros F0. apply Hf. cbn. by apply Ef2, Ef1. }
  intros s5 (E5 & H5 & _). unfold runs at 1, entry_of. rewrite H5, E5, E4. cbn [handles s4].
  rewrite lookup_insert_eq. cbn [mbind option_bind]. rewrite lookup_insert_eq.
  apply (Hclose (description options)); [done|by left|]. cbn [services with_services].
  rewrite insert_insert_eq. done.
Qed.

(** What the database is after a removal. *)
Definition uninstall_post (name : wstring) (s : Scm) (r : Result unit) (s' : Scm) : Prop :=
  let k := fold_name name in
  handles s' = handles s ∧
  match r with
  | Success _ => ∃ e, services s !! k = Some e ∧ e_delete e = false ∧
                      services s' = if e_running e || bool_decide (held k (handles s))
                                    then <[k := marked e]> (services s) else delete k (services s)
  | Failure e => services s' = services s ∧
                 if is_empty name then code e = ErrorCode.InvalidArgument
                 else reported e ∧ (faults s ≠ [] ∨ ∀ e, services s !! k = Some e → e_delete e = true)
  end.

Lemma held_kept k e hs hs' :
  (held k hs ↔ held k hs') → e_running e || bool_decide (held k hs) = e_running e || bool_decide (held k hs').
Proof. intros H. f_equal. by apply bool_decide_ext. Qed.

Lemma UninstallService_runs name s : scm_ok s → runs (UninstallService name) s (uninstall_post name s).
Proof.
  intros Hok. unfold UninstallService, uninstall_post. destruct (is_empty name) eqn:En; [by split|].
  apply runs_manager.
  { intros e s' (Es & Eh & _) He F. split; [done|]. split; [done|]. split; [done|by left]. }
  intros m s1 Es1 Eh1 Hm Ef1. apply runs_guard. apply runs_attempt.
  { intros s2 (Es2 & Eh2 & _) He F. apply runs_failure; [done|]. intros e Hr. split; [done|].
    intros s3 E3 H3. split; [done|]. split; [congruence|]. split; [done|]. left. intros F0. by apply F, Ef1. }
  intros s2 (Es2 & Eh2 & Ef2). unfold runs at 1. destruct (services s2 !! fold_name name) as [e|] eqn:Eo.
  2:{ apply runs_failure; [done|]. intros e Hr. split; [done|].
      intros s3 E3 H3. split; [done|]. cbn in E3. split; [congruence|]. split; [done|]. right.
      intros x. by rewrite <- Es1, <- Es2, Eo. }
  set (k := fold_name name) in *. rewrite Es2, Es1 in Eo.
  assert (bool_decide (held k (handles s1)) = bool_decide (held k (handles s))) as Hheld
    by (apply bool_decide_ext; rewrite Eh1; by apply held_insert_manager).
  apply runs_new_handle. intros h Hh. rewrite Eh2 in *. unfold with_handles.
  set (s4 := mkScm _ (<[h := Some k]> (handles s1)) _ _).
  assert (services s4 = services s) as E4 by (unfold s4; cbn [services]; congruence).
  match goal with |- runs _ _ ?Q => set (Post := Q) end.
  assert (∀ s5, services s5 = services s → handles s5 = handles s4 → last_error s5 ≠ 0 →
    (faults s ≠ [] ∨ e_delete e = true) → runs (failure "DeleteService failed") s5 Post) as Hrefused.
  { intros s5 E5 H5 He Hwhy. apply runs_failure; [done|]. intros x Hx. unfold Post.
    apply (close_service h k e (handles s1)); [by rewrite H5|done|by rewrite E5|].
    intros s6 E6 H6. split; [done|]. intros s7 E7 H7. split; [done|]. split.
    2:{ split; [done|]. destruct Hwhy; [by left|right]. intros e1 Hx'. rewrite Eo in Hx'. by injection Hx' as <-. }
    rewrite E7, E6, Hheld, E5. destruct (e_delete e) eqn:Ed; [|done].
    destruct (so_marked s Hok k e Eo Ed) as [-> |Hk]; [done|]. rewrite (bool_decide_eq_true_2 _ Hk). by rewrite andb_false_r. }
  apply runs_bind, runs_attempt.
  { intros s5 (E5 & H5 & _) He F. apply Hrefused; [congruence..|]. left. intros F0. by apply F, Ef2, Ef1. }
  intros s5 (E5 & H5 & _). unfold runs at 1, entry_of. rewrite H5, E5, E4. cbn [handles s4].
  rewrite lookup_insert_eq. cbn [mbind option_bind]. rewrite Eo. cbn [mbind option_bind].
  destruct (e_delete e) eqn:Ed.
  { apply Hrefused; [cbn; congruence|done|done|by right]. }
  unfold runs, Post. cbn [negb mret M_ret].
  apply (close_service h k (marked e) (handles s1)); [exact H5|done|by cbn; rewrite lookup_insert_eq|].
  intros s6 E6 H6. split; [done|]. intros s7 E7 H7. split; [done|]. exists e. split; [done|]. split; [done|].
  rewrite E7, E6, Hheld. cbn [marked e_delete e_running andb services with_services].
  destruct (e_running e); cbn [negb andb orb]; [done|]. clear E6; destruct (bool_decide (held k (handles s))); cbn [negb]; [done|]. apply delete_insert_eq.
Qed.

Lemma install_ok options s r s' : scm_ok s → install_post options s r s' → scm_ok s'.
Proof.
  intros [Hm Hh] [Eh Hr]. destruct r as [[]|e].
  - destruct Hr as (_ & _ & Hn & text & _ & Es). split; rewrite Es, Eh; intros k.
    + intros e He. apply lookup_insert_Some in He as [[_ <-]|[_ He]]; [done|by apply Hm].
    + intros Hk. rewrite lookup_insert_is_Some. destruct (Hh k Hk) as [e He]. right.
      split; [|by eexists]. intros <-. by rewrite Hn in He.
  - destruct Hr as [Es _]. by split; rewrite ?Es, Eh.
Qed.

Lemma uninstall_ok name s r s' : scm_ok s → uninstall_post name s r s' → scm_ok s'.
Proof.
  intros [Hm Hh] [Eh Hr]. destruct r as [[]|e].
  - destruct Hr as (e & He & _ & Es). split; rewrite Es, Eh; intros k.
    + intros e' He'. destruct (e_running e) eqn:Er; cbn [orb] in He'.
      * apply lookup_insert_Some in He' as [[<- <-]|[_ He']]; [by left|by apply Hm].
      * destruct (bool_decide_reflect (held (fold_name name) (handles s))) as [Hk|Hk].
        -- apply lookup_insert_Some in He' as [[<- <-]|[_ He']]; [by right|by apply Hm].
        -- apply lookup_delete_Some in He' as [_ He']. by apply Hm.
    + intros Hk. destruct (_ || _) eqn:E.
      * rewrite lookup_insert_is_Some'. right. by apply Hh.
      * rewrite lookup_delete_is_Some. split; [|by apply Hh]. intros <-.
        apply orb_false_iff in E as [_ E]. by apply bool_decide_eq_false in E.
  - destruct Hr as [Es _]. by split; rewrite ?Es, Eh.
Qed.

(** Without faults there are none afterwards. *)
Definition faultless {A} (m : M A) : Prop := ∀ s, faults s = [] → faults (m s).2 = [].

Lemma faultless_bind {A B} (m : M A) (f : A → M B) : faultless m → (∀ a, faultless (f a)) → faultless (m ≫= f).
Proof.
  intros Hm Hf s Hs. specialize (Hm s Hs). unfold mbind, M_bind. destruct (m s) as [a s1]. by apply Hf.
Qed.

Lemma faultless_attempt {A} (failed : A) f : faultless f → faultless (attempt failed f).
Proof. intros Hf s Hs. unfold attempt. rewrite Hs. by apply Hf. Qed.

Lemma faultless_guard {A} acquire (block : option nat → M A) :
  faultless acquire → (∀ h, faultless (block h)) → faultless (ScHandleGuard acquire block).
Proof.
  intros Ha Hb. apply faultless_bind; [done|]. intros h. apply faultless_bind; [done|]. intros r.
  destruct h; [apply faultless_bind|]; by repeat intros ?.
Qed.

Lemma faultless_install options : faultless (InstallService options).
Proof.
  unfold InstallService. destruct (_ || _); [by intros ?|]. apply faultless_guard.
  { apply faultless_attempt. by intros ?. }
  intros [?|]; [|by intros ?]. apply faultless_guard.
  { apply faultless_attempt. intros s Hs. by destruct (services s !! _). }
  intros [?|]; [|by intros ?]. destruct (is_empty (description options)); [by intros ?|].
  apply faultless_bind; [|by repeat intros ?]. apply faultless_attempt. intros s Hs. by destruct (entry_of s _) as [[]|].
Qed.

(** Installing registers the service and removing it undoes that.  Whatever
    calls fail, both close every handle they opened, a failure leaves the
    database as it was and reports the error of the call that failed; an
    installation that succeeds adds exactly the service described, the text of
    its description aside where a call failed; a removal that succeeds deletes
    it, or marks it while it runs or a handle is open.  When no call fails, a
    new service is installed and its removal restores the database. *)
Theorem install_then_uninstall options s :
  scm_ok s →
  let '(r1, s1) := InstallService options s in
  let '(r2, s2) := UninstallService (serviceName options) s1 in
  install_post options s r1 s1 ∧ scm_ok s1 ∧
  uninstall_post (serviceName options) s1 r2 s2 ∧ scm_ok s2 ∧
  (serviceName options ≠ [] → binaryPath options ≠ [] → faults s = [] →
   services s !! fold_name (serviceName options) = None →
   r1 = Success tt ∧ r2 = Success tt ∧ services s2 = services s ∧ handles s2 = handles s).
Proof.
  intros Hok. pose proof (InstallService_runs options s) as H1. unfold runs in H1.
  pose proof (faultless_install options s) as Hf1.
  destruct (InstallService options s) as [r1 s1]. pose proof (install_ok _ _ _ _ Hok H1) as Hok1.
  pose proof (UninstallService_runs (serviceName options) s1 Hok1) as H2. unfold runs in H2.
  destruct (UninstallService (serviceName options) s1) as [r2 s2].
  split; [done|]. split; [done|]. split; [done|]. split; [by eapply uninstall_ok|].
  intros Hn Hb Hf Hnew. destruct H1 as [Eh1 Hr1]. destruct (serviceName options) as [|c name] eqn:En; [done|].
  destruct r1 as [[]|e].
  2:{ destruct (binaryPath options); [done|]. destruct Hr1 as (_ & _ & [Hbad|[x Hx]]); [done|by rewrite Hnew in Hx]. }
  split; [done|]. specialize (Hf1 Hf). cbn in Hf1. destruct Hr1 as (_ & _ & _ & text & _ & Es1). destruct H2 as [Eh2 Hr2].
  destruct r2 as [[]|e].
  - split; [done|]. split; [|congruence]. destruct Hr2 as (e & He & _ & Es2). rewrite Es1, lookup_insert_eq in He.
    injection He as <-. rewrite Es2, bool_decide_eq_false_2; cbn [installed e_running orb].
    + rewrite Es1. by apply delete_insert_id.
    + rewrite Eh1. intros Hk. destruct (so_held s Hok _ Hk) as [x Hx]. by rewrite Hnew in Hx.
  - destruct Hr2 as (_ & _ & [Hbad|Hdel]); [done|]. rewrite Es1, lookup_insert_eq in Hdel. by specialize (Hdel _ eq_refl).
Qed.
End calls.
End Installer.
