(* ===== verification/Logging.v ===== *)
(** * Logging: the logger and its sinks

    Models src/src/Logging: the levels of ILogger.h, [Logger] of Logger.cpp with
    its level filter and its fan-out, the sinks [MemoryLogSink] and
    [FileLogSink] with the time stamp of a line.  Sinks are shared objects: the
    logger holds references into a heap, and the same sink may be added twice.

    The clock and [gmtime] are parameters. *)
From stdpp Require Import gmap strings pretty.
From S2P Require Import Prelude Common.
Open Scope Z_scope.

Module Logging.

Inductive LogLevel := Trace | Debug | Info | Warning | Error | Critical.

Definition LogLevel_val (l : LogLevel) : Z :=
  match l with Trace => 0 | Debug => 1 | Info => 2 | Warning => 3 | Error => 4 | Critical => 5 end.

Definition ToString (level : LogLevel) : string :=
  match level with
  | Trace => "TRACE" | Debug => "DEBUG" | Info => "INFO"
  | Warning => "WARN" | Error => "ERROR" | Critical => "CRITICAL"
  end.

Record Entry := mkEntry { level : LogLevel; component : string; message : string }.

(** [st_buffer] is what [flush] hands to the file; a stream that is not good
    writes nothing. *)
Record Stream := mkStream { st_file : string; st_buffer : string; st_good : bool }.

Inductive Sink :=
  | MemoryLogSink (entries_ : list Entry)
  | FileLogSink (stream_ : Stream).

(** [std::tm]. *)
Record Tm := mkTm { tm_year : Z; tm_mon : Z; tm_mday : Z; tm_hour : Z; tm_min : Z; tm_sec : Z }.

(** A decimal number with zeros in front up to a width. *)
Definition pad (width : nat) (n : Z) : string :=
  let digits := pretty n in
  String.append (String.concat "" (replicate (width - String.length digits) "0"%string)) digits.

(** The heap of sinks, and how often the clock was read. *)
Record World := mkWorld { sinks : gmap nat Sink; reads : nat }.

Section logging.
(** The milliseconds since the epoch at each reading of the clock. *)
Context (system_clock : nat → Z) (gmtime : Z → Tm).

Definition TimestampNow (reading : nat) : string :=
  let now := system_clock reading in
  let tmBuf := gmtime (now ÷ 1000) in
  let ms := Z.rem now 1000 in
  pad 1 (1900 + tm_year tmBuf) +:+ "-" +:+ pad 2 (tm_mon tmBuf + 1) +:+ "-" +:+ pad 2 (tm_mday tmBuf) +:+ "T" +:+
  pad 2 (tm_hour tmBuf) +:+ ":" +:+ pad 2 (tm_min tmBuf) +:+ ":" +:+ pad 2 (tm_sec tmBuf) +:+
  "." +:+ pad 3 ms +:+ "Z".

Definition newline : string := String (Ascii.ascii_of_nat 10) EmptyString.

Definition line (reading : nat) (e : Entry) : string :=
  "[" +:+ TimestampNow reading +:+ "] " +:+ "[" +:+ ToString (level e) +:+ "] " +:+
  "[" +:+ component e +:+ "] " +:+ message e +:+ newline.

(** [Write] of a sink. *)
Definition Write (w : World) (id : nat) (e : Entry) : World :=
  match sinks w !! id with
  | Some (MemoryLogSink entries_) => mkWorld (<[id := MemoryLogSink (entries_ ++ [e])]> (sinks w)) (reads w)
  | Some (FileLogSink st) =>
    let buffer := if st_good st then st_buffer st +:+ line (reads w) e else st_buffer st in
    mkWorld (<[id := FileLogSink (mkStream (st_file st) buffer (st_good st))]> (sinks w)) (S (reads w))
  | None => w
  end.

Definition Flush (w : World) (id : nat) : World :=
  match sinks w !! id with
  | Some (FileLogSink st) =>
    if st_good st
    then mkWorld (<[id := FileLogSink (mkStream (st_file st +:+ st_buffer st) "" true)]> (sinks w)) (reads w)
    else w
  | _ => w
  end.

Definition Snapshot (w : World) (id : nat) : list Entry :=
  match sinks w !! id with Some (MemoryLogSink entries_) => entries_ | _ => [] end.

(** [open] gives what the file holds, which is appended to. *)
Definition CreateFileLogSink (open : string → option string) (path : string) : Result Sink :=
  match open path with
  | None => Failure (mkError ErrorCode.IoError ("failed to open log file: " +:+ path) 0)
  | Some file => Success (FileLogSink (mkStream file "" true))
  end.

(** ** Logger.cpp *)

Record Logger := mkLogger { minimumLevel_ : LogLevel; sinks_ : list nat }.

Definition Logger_new (minimumLevel : LogLevel) : Logger := mkLogger minimumLevel [].

(** A null pointer is [None]. *)
Definition AddSink (l : Logger) (sink : option nat) : Logger :=
  match sink with
  | Some id => mkLogger (minimumLevel_ l) (sinks_ l ++ [id])
  | None => l
  end.

Definition Log (l : Logger) (e : Entry) (w : World) : World :=
  if LogLevel_val (level e) <? LogLevel_val (minimumLevel_ l) then w
  else foldl (λ w id, Write w id e) w (sinks_ l).

Definition SetMinimumLevel (l : Logger) (lvl : LogLevel) : Logger := mkLogger lvl (sinks_ l).

(** ** Runs of a logger *)

Inductive Op := OpLog (e : Entry) | OpSetMinimumLevel (l : LogLevel) | OpAddSink (s : option nat) | OpFlush (id : nat).

Definition step (s : Logger * World) (o : Op) : Logger * World :=
  let '(l, w) := s in
  match o with
  | OpLog e => (l, Log l e w)
  | OpSetMinimumLevel lvl => (SetMinimumLevel l lvl, w)
  | OpAddSink k => (AddSink l k, w)
  | OpFlush id => (l, Flush w id)
  end.

Definition run (s : Logger * World) (ops : list Op) : Logger * World := foldl step s ops.

(** What a history of operations says: the level in force after it and how often
    a sink was added. *)
Definition level_after (l0 : LogLevel) (ops : list Op) : LogLevel :=
  default l0 (last (omap (λ o, match o with OpSetMinimumLevel l => Some l | _ => None end) ops)).

Definition is_add (id : nat) (o : Op) : bool :=
  match o with OpAddSink (Some k) => bool_decide (k = id) | _ => false end.

Definition times_added (id : nat) (ops : list Op) : nat := length (filter (λ o, is_add id o) ops).

(** What operation [i] brings to a sink. *)
Definition brings (id : nat) (l0 : LogLevel) (ops : list Op) (i : nat) (o : Op) : list Entry :=
  match o with
  | OpLog e =>
    if LogLevel_val (level e) <? LogLevel_val (level_after l0 (take i ops)) then []
    else replicate (times_added id (take i ops)) e
  | _ => []
  end.

Definition due (id : nat) (l0 : LogLevel) (ops : list Op) : list Entry :=
  concat (imap (brings id l0 ops) ops).

(** The text of entries, at these readings of the clock. *)
Definition text (readings : list nat) (es : list Entry) : string :=
  foldr String.append "" (zip_with line readings es).

(** A sink has got the entries [es]. *)
Definition got (es : list Entry) (s s' : Sink) : Prop :=
  match s, s' with
  | MemoryLogSink a, MemoryLogSink b => b = a ++ es
  | FileLogSink a, FileLogSink b =>
    st_good b = st_good a ∧
    (st_good a = true → ∃ readings, length readings = length es ∧
       st_file b +:+ st_buffer b = (st_file a +:+ st_buffer a) +:+ text readings es)
  | _, _ => False
  end.

(** ** What a sink gets *)

Lemma sapp_assoc a b c : (a +:+ b) +:+ c = a +:+ b +:+ c.
Proof. induction a as [|x a IH]; [done|]. unfold String.append. cbn. f_equal. exact IH. Qed.

Lemma sapp_nil a : a +:+ "" = a.
Proof. induction a as [|x a IH]; [done|]. unfold String.append. cbn. f_equal. exact IH. Qed.

Lemma text_app r1 r2 es1 es2 :
  length r1 = length es1 → text (r1 ++ r2) (es1 ++ es2) = text r1 es1 +:+ text r2 es2.
Proof.
  unfold text. revert es1. induction r1 as [|r r1 IH]; intros [|e es1] Hl; try done.
  cbn [app zip_with foldr]. rewrite sapp_assoc, IH; [done|]. cbn in Hl. lia.
Qed.

Lemma got_nil s : got [] s s.
Proof. destruct s as [a|a]; cbn; [by rewrite app_nil_r|]. split; [done|]. intros _. exists []. by rewrite sapp_nil. Qed.

Lemma got_app es1 es2 s s1 s2 : got es1 s s1 → got es2 s1 s2 → got (es1 ++ es2) s s2.
Proof.
  destruct s as [a|a], s1 as [b|b], s2 as [c|c]; cbn; try done.
  - intros -> ->. by rewrite app_assoc.
  - intros [Gb Hb] [Gc Hc]. split; [congruence|]. intros Ga. destruct (Hb Ga) as (r1 & L1 & E1).
    rewrite Ga in Gb. destruct (Hc Gb) as (r2 & L2 & E2). exists (r1 ++ r2).
    split; [rewrite !length_app; lia|]. rewrite text_app by done. by rewrite E2, E1, <- !sapp_assoc.
Qed.

(** A sink of the heap after a change that gives it these entries. *)
Definition gains (id : nat) (es : list Entry) (w w' : World) : Prop :=
  ∀ s, sinks w !! id = Some s → ∃ s', sinks w' !! id = Some s' ∧ got es s s'.

Lemma gains_nil id w : gains id [] w w.
Proof. intros s Hs. exists s. split; [done|apply got_nil]. Qed.

Lemma gains_app id es1 es2 w w1 w2 : gains id es1 w w1 → gains id es2 w1 w2 → gains id (es1 ++ es2) w w2.
Proof.
  intros H1 H2 s Hs. destruct (H1 s Hs) as (s1 & E1 & G1). destruct (H2 s1 E1) as (s2 & E2 & G2).
  exists s2. split; [done|by eapply got_app].
Qed.

Lemma Write_gains id w k e : gains id (if bool_decide (k = id) then [e] else []) w (Write w k e).
Proof.
  intros s Hs. unfold Write. case_bool_decide as Hk.
  - subst k. rewrite Hs. destruct s as [a|a]; cbn; rewrite lookup_insert_eq; eexists; (split; [done|]); cbn; [done|].
    split; [done|]. intros ->. exists [reads w]. split; [done|]. unfold text. cbn [zip_with foldr].
    by rewrite sapp_nil, sapp_assoc.
  - exists s. split; [|apply got_nil]. destruct (sinks w !! k) as [[a|a]|]; cbn; [|by rewrite ?lookup_insert_ne|done];
      by rewrite lookup_insert_ne.
Qed.

Lemma Flush_gains id w k : gains id [] w (Flush w k).
Proof.
  intros s Hs. unfold Flush. destruct (decide (k = id)) as [->|Hk].
  - rewrite Hs. destruct s as [a|a]; [exists (MemoryLogSink a); by split; [|apply got_nil]|].
    destruct (st_good a) eqn:Eg; [|exists (FileLogSink a); by split; [|apply got_nil]].
    cbn. rewrite lookup_insert_eq. eexists. split; [done|]. cbn. split; [done|]. intros _. exists [].
    by rewrite !sapp_nil.
  - exists s. split; [|apply got_nil]. destruct (sinks w !! k) as [[a|a]|]; try done.
    destruct (st_good a); [|done]. cbn. by rewrite lookup_insert_ne.
Qed.

(** The fan-out writes once for each time the sink is there. *)
Lemma fan_out_gains id e ids w :
  gains id (replicate (length (filter (λ k, k = id) ids)) e) w (foldl (λ w k, Write w k e) w ids).
Proof.
  revert w. induction ids as [|k ids IH]; intros w; [apply gains_nil|]. cbn [foldl].
  pose proof (gains_app _ _ _ _ _ _ (Write_gains id w k e) (IH (Write w k e))) as H.
  rewrite filter_cons. case_bool_decide; [by rewrite decide_True by done|by rewrite decide_False by done].
Qed.

(** ** Runs *)

Lemma level_after_snoc l0 ops o :
  level_after l0 (ops ++ [o]) = match o with OpSetMinimumLevel l => l | _ => level_after l0 ops end.
Proof. unfold level_after. rewrite omap_app. destruct o; cbn; rewrite ?app_nil_r; try done. by rewrite last_snoc. Qed.

Lemma times_added_snoc id ops o :
  times_added id (ops ++ [o]) = (times_added id ops + if is_add id o then 1 else 0)%nat.
Proof.
  unfold times_added. rewrite filter_app, length_app. f_equal. rewrite filter_cons, filter_nil. by destruct (is_add id o).
Qed.

(** What came before does not depend on what comes after. *)
Lemma due_snoc id l0 ops o : due id l0 (ops ++ [o]) = due id l0 ops ++ brings id l0 ops (length ops) o.
Proof.
  unfold due. rewrite imap_app, concat_app. f_equal.
  - f_equal. apply imap_ext. intros i x Hi. apply lookup_lt_Some in Hi. unfold brings.
    by rewrite !take_app_le by lia.
  - cbn. rewrite app_nil_r, Nat.add_0_r. unfold brings. rewrite take_app_length. by rewrite take_ge by lia.
Qed.

Lemma run_logger lvl ops w :
  let '(l, _) := run (Logger_new lvl, w) ops in
  minimumLevel_ l = level_after lvl ops ∧ ∀ id, length (filter (λ k, k = id) (sinks_ l)) = times_added id ops.
Proof.
  induction ops as [|o ops IH] using rev_ind; [done|]. unfold run in *. rewrite foldl_app.
  destruct (foldl step (Logger_new lvl, w) ops) as [l w1]. destruct IH as [Hl Ha]. cbn [foldl step].
  rewrite level_after_snoc. destruct o as [e|k|[k|]|k]; cbn; (split; [done|]); intros id; rewrite times_added_snoc; cbn;
    rewrite ?Nat.add_0_r; try done.
  rewrite filter_app, length_app, Ha, filter_cons, filter_nil. f_equal.
  case_bool_decide; [by rewrite decide_True|by rewrite decide_False].
Qed.

(** A sink gets what was logged to it.  After any history of the logger,
    each sink of the heap has got, in order, exactly the entries that were
    logged at or above the level in force at that moment, each as often as the
    sink had been added by then: a memory sink in its list, a file sink as
    lines behind its text, flushed or not, while its stream is good. *)
Theorem sinks_get_what_is_due lvl ops w id s :
  sinks w !! id = Some s →
  ∃ s', sinks (run (Logger_new lvl, w) ops).2 !! id = Some s' ∧ got (due id lvl ops) s s'.
Proof.
  revert s. change (gains id (due id lvl ops) w (run (Logger_new lvl, w) ops).2).
  induction ops as [|o ops IH] using rev_ind; [apply gains_nil|]. rewrite due_snoc.
  eapply gains_app; [exact IH|]. pose proof (run_logger lvl ops w) as Hr.
  unfold run in *. rewrite foldl_app. destruct (foldl step (Logger_new lvl, w) ops) as [l w1].
  destruct Hr as [Hl Ha]. cbn [foldl step snd]. destruct o as [e|k|k|k]; cbn [brings]; try apply gains_nil; [|apply Flush_gains].
  unfold Log. rewrite Hl. rewrite take_ge by lia. destruct (_ <? _); [apply gains_nil|]. rewrite <- Ha. apply fan_out_gains.
Qed.
End logging.
End Logging.
