(* ===== verification/Threads.v ===== *)
(** * Threads: the engine under several threads

    Engine.v runs an operation of [CacheEngine] to its end before the next one
    starts.  Here an operation is the sequence of its atomic blocks, each what
    src/src/CoreEngine/src/CacheEngine.cpp does under one lock, in one call of
    the journal or the store, or in one access of an atomic variable; a wait on
    a condition variable is a block that is disabled until its predicate
    holds.  A pool of threads runs under a schedule, the list of the threads
    that take the next step.  The background flusher, its start and its stop
    are modelled here too, having no meaning for one thread.

    The last section proves that an operation that runs alone does what
    Engine.v says. *)
From S2P Require Import Prelude Common RecordCodec Storage Journal Store Shard Engine EngineFacts Durability Client Lifecycle.
Import EntryDirtyState EngineLifecycle Engine.
Open Scope Z_scope.

(** ** Programs *)

(** [Atomic step k]: one block, [None] where it has to wait, then [k]. *)
Inductive Prog (S A : Type) : Type :=
  | Ret (a : A)
  | Atomic {R : Type} (step : S → option (R * S)) (k : R → Prog S A).
Arguments Ret {S A}.
Arguments Atomic {S A R}.

Fixpoint bind {S A B} (p : Prog S A) (f : A → Prog S B) : Prog S B :=
  match p with
  | Ret a => f a
  | Atomic step k => Atomic step (λ r, bind (k r) f)
  end.

Declare Scope prog_scope.
Delimit Scope prog_scope with prog.
Notation "'let!' x := p 'in' q" := (bind p (λ x, q))
  (at level 10, x pattern, p at level 100, q at level 200) : prog_scope.
Open Scope prog_scope.

(** A thread that runs alone: its result, unless it has to wait. *)
Fixpoint run_alone {S A} (p : Prog S A) (s : S) : option (A * S) :=
  match p with
  | Ret a => Some (a, s)
  | Atomic step k => match step s with Some (r, s) => run_alone (k r) s | None => None end
  end.

(** One step of a thread; [None] where it has returned or has to wait. *)
Definition thread_step {S A} (p : Prog S A) (s : S) : option (Prog S A * S) :=
  match p with
  | Ret _ => None
  | Atomic step k => match step s with Some (r, s) => Some (k r, s) | None => None end
  end.

(** The pool under a schedule.  A thread that cannot step loses its turn. *)
Fixpoint run_schedule {S A} (sched : list nat) (ts : list (Prog S A)) (s : S) : list (Prog S A) * S :=
  match sched with
  | [] => (ts, s)
  | i :: sched =>
    match p ← ts !! i; thread_step p s with
    | Some (p, s) => run_schedule sched (<[i := p]> ts) s
    | None => run_schedule sched ts s
    end
  end.

Definition returned {S A} (p : Prog S A) : option A :=
  match p with Ret a => Some a | Atomic _ _ => None end.

(** ** The shared state *)

(** [std::thread backgroundFlushThread_]: [joinable] while [Running] or
    [Finished]. *)
Inductive BackgroundThread := NotStarted | Running | Finished | Joined.

#[global] Instance BackgroundThread_eq_dec : EqDecision BackgroundThread.
Proof. solve_decision. Defined.

Record Shared (B J : Type) := mkShared {
  engine_ : CacheEngine B J;
  backgroundFlushThread_ : BackgroundThread;
  backgroundFlushStopRequested_ : bool
}.
Arguments mkShared {B J}.
Arguments engine_ {B J}.
Arguments backgroundFlushThread_ {B J}.
Arguments backgroundFlushStopRequested_ {B J}.

Module Threads.
Section Threads.
Context {B J : Type} `{IBackingStore.IBackingStore B} `{IWriteAheadJournal J}.
Context (hash : string → Z).
Implicit Types (e : CacheEngine B J) (s : Shared B J).

Abbreviation Program := (Prog (Shared B J)).
Abbreviation ShardFor := (Engine.ShardFor hash).

Definition set_engine s e : Shared B J :=
  mkShared e (backgroundFlushThread_ s) (backgroundFlushStopRequested_ s).
Definition set_background s (t : BackgroundThread) (stop : bool) : Shared B J :=
  mkShared (engine_ s) t stop.

(** A block on the engine that never waits. *)
Definition act {R} (f : CacheEngine B J → R * CacheEngine B J) : Program R :=
  Atomic (λ s, let '(r, e) := f (engine_ s) in Some (r, set_engine s e)) Ret.
Definition modify (f : CacheEngine B J → CacheEngine B J) : Program unit := act (λ e, (tt, f e)).
Definition read {R} (f : CacheEngine B J → R) : Program R := act (λ e, (f e, e)).
(** [cv.wait(lock, ready)], then the rest of the locked block. *)
Definition wait_then {R} (ready : Shared B J → bool) (f : CacheEngine B J → R * CacheEngine B J) : Program R :=
  Atomic (λ s, if ready s then let '(r, e) := f (engine_ s) in Some (r, set_engine s e) else None) Ret.

(** *** Admission and drain *)

Definition TryAdmitWrite : Program bool :=
  wait_then (λ s, negb (compactionPaused_ (engine_ s))) Engine.TryAdmitWrite.

Definition ReleaseWriteAdmission : Program unit := modify Engine.ReleaseWriteAdmission.

Definition DrainInFlightWrites : Program unit :=
  wait_then (λ s, inFlightWriteCount_ (engine_ s) =? 0) (λ e, (tt, e)).

(** *** Flush *)

Definition AppendJournalRecord (record : CacheJournalRecord) : Program (Result unit) :=
  act (λ e, Engine.AppendJournalRecord e record).

Definition begin_flush (k : string) (expectedVersion : Z) (checkVersion : bool) e :
    (Result unit + bytes * Z) * CacheEngine B J :=
  let i := ShardFor e k in
  match flush_begin (shard_at e i) k expectedVersion checkVersion with
  | (inl r, _) => (inl r, e)
  | (inr x, sh) => (inr x, set_shard e i sh)
  end.

Definition on_shard (k : string) (f : Shard → Shard) e : CacheEngine B J :=
  set_shard e (ShardFor e k) (f (shard_at e (ShardFor e k))).

Definition store_put (k : string) (v : bytes) e : Result unit * CacheEngine B J :=
  let '(r, b) := IBackingStore.Put (backingStore_ e) k v in (r, set_store e b).

Definition flush_failed (k : string) (ver : Z) (err : Error) : Program (Result unit) :=
  let! _ := modify (on_shard k (λ sh, RevertFlushInProgressLocked sh k ver)) in
  let! _ := modify (count FlushFailure) in
  Ret (Failure err).

Definition FlushKey (k : string) (expectedVersion : Z) (checkVersion : bool) : Program (Result unit) :=
  let! b := act (begin_flush k expectedVersion checkVersion) in
  match b with
  | inl r => Ret r
  | inr (v, ver) =>
    let! intentResult := AppendJournalRecord (intent k ver) in
    match intentResult with
    | Failure err => flush_failed k ver err
    | Success _ =>
      let! putResult := act (store_put k v) in
      match putResult with
      | Failure err => flush_failed k ver err
      | Success _ =>
        let! completeResult := AppendJournalRecord (complete k ver) in
        match completeResult with
        | Failure err => flush_failed k ver err
        | Success _ =>
          let! _ := modify (on_shard k (λ sh, flush_commit sh k ver)) in
          let! _ := modify (count FlushSuccess) in
          Ret (Success tt)
        end
      end
    end
  end.

(** *** RelieveCapacityPressureIfNeeded *)

(** The first locked block: [None] where the call returns. *)
Definition relieve_pick (i : nat) e : option (string * Z) * CacheEngine B J :=
  let sh := shard_at e i in
  if negb (over_budget (perShardCapacityBytes_ e) (perShardMaxEntries_ e) sh) then (None, e)
  else
    let keyToFlush := match find_from_back is_Dirty (lru sh) with
                      | Some (_, en) => key en
                      | None => ""%string
                      end in
    if String.eqb keyToFlush "" then (None, evict e i) else (Some (keyToFlush, dirtyCount sh), e).

Definition relieve_evict (i : nat) e : Z * CacheEngine B J :=
  let e := evict e i in (dirtyCount (shard_at e i), e).

Fixpoint relieve_loop (attempts : nat) (i : nat) : Program unit :=
  match attempts with
  | O => Ret tt
  | S attempts =>
    let! picked := act (relieve_pick i) in
    match picked with
    | None => Ret tt
    | Some (keyToFlush, dirtyCountBefore) =>
      let! flushResult := FlushKey keyToFlush 0 false in
      let! dirtyCountAfter := act (relieve_evict i) in
      match flushResult with
      | Failure _ => Ret tt
      | Success _ => if dirtyCountBefore <=? dirtyCountAfter then Ret tt else relieve_loop attempts i
      end
    end
  end.

(** *** Get *)

Definition store_get (k : string) e : Result bytes * CacheEngine B J :=
  let '(r, b) := IBackingStore.Get (backingStore_ e) k in (r, set_store e b).

Definition Get (k : string) : Program (Result bytes) :=
  let! ready := read CheckReadyForRead in
  match ready with
  | Failure err => Ret (Failure err)
  | Success _ =>
    let! on := read (λ e, enabled (options_ e)) in
    if negb on then Ret disabled else
    let! b := act (λ e, Get_lookup hash e k) in
    match b with
    | inl v => Ret (Success v)
    | inr fenceAtMiss =>
      let! _ := modify (count Miss) in
      let! backingResult := act (store_get k) in
      match backingResult with
      | Failure err => Ret (Failure err)
      | Success v =>
        if kMaxReasonableValueBytes <? zlen v then
          Ret (Failure (mkError ErrorCode.CorruptData
            "backing store returned an implausibly large value; refusing to cache or trust it" 0))
        else
          let! v := act (λ e, Get_fill hash e k fenceAtMiss v) in
          Ret (Success v)
      end
    end
  end.

(** *** Put *)

Definition append_upsert (k : string) (v : bytes) e : (Result unit * Z) * CacheEngine B J :=
  Engine.AppendJournalRecordWithNewVersion e (mkRecord kCacheRecordFormatVersion CacheRecordType.Upsert k v 0).

Definition insert_dirty (k : string) (v : bytes) (ver : Z) e : CacheEngine B J :=
  insert_or_update e (ShardFor e k) k v ver Dirty true.

Definition Put_admitted (k : string) (v : bytes) : Program (Result unit) :=
  let! (appendResult, ver) := act (append_upsert k v) in
  match appendResult with
  | Failure err => Ret (Failure err)
  | Success _ =>
    let! _ := modify (insert_dirty k v ver) in
    let! i := read (λ e, ShardFor e k) in
    let! _ := relieve_loop kMaxFlushAttemptsPerCall i in
    let! policy := read (λ e, writePolicy (options_ e)) in
    match policy with
    | WritePolicyKind.WriteThrough => FlushKey k ver true
    | WritePolicyKind.WriteBackDeferred => Ret (Success tt)
    end
  end.

(** What [WriteAdmissionGuard] adds to a body. *)
Definition admitted_write (body : Program (Result unit)) : Program (Result unit) :=
  let! ok := TryAdmitWrite in
  if negb ok then Ret not_accepting
  else
    let! r := body in
    let! _ := ReleaseWriteAdmission in
    Ret r.

Definition Put (k : string) (v : bytes) : Program (Result unit) :=
  let! ready := read CheckReadyForWrite in
  match ready with
  | Failure err => Ret (Failure err)
  | Success _ =>
    let! on := read (λ e, enabled (options_ e)) in
    if negb on then Ret disabled else admitted_write (Put_admitted k v)
  end.

(** *** Invalidate *)

Definition store_remove (k : string) e : Result unit * CacheEngine B J :=
  let '(r, b) := IBackingStore.Remove (backingStore_ e) k in (r, set_store e b).

Definition Invalidate_admitted (k : string) (force : bool) : Program (Result unit) :=
  let! peeked := read (λ e, Invalidate_peek hash e k force) in
  match peeked with
  | None => Ret (unflushed k)
  | Some entryVersion =>
    let! journalResult := AppendJournalRecord
      (mkRecord kCacheRecordFormatVersion CacheRecordType.Invalidate k [] entryVersion) in
    match journalResult with
    | Failure err => Ret (Failure err)
    | Success _ =>
      let! backingResult := act (store_remove k) in
      match backingResult with
      | Failure err => Ret (Failure err)
      | Success _ =>
        let! _ := modify (on_shard k (λ sh, invalidate_commit sh k entryVersion)) in
        let! _ := modify (count Invalidation) in
        Ret (Success tt)
      end
    end
  end.

Definition InvalidateImpl (k : string) (force : bool) : Program (Result unit) :=
  let! ready := read CheckReadyForWrite in
  match ready with
  | Failure err => Ret (Failure err)
  | Success _ => admitted_write (Invalidate_admitted k force)
  end.

(** *** Flush and FlushAll *)

Definition Flush (k : string) : Program (Result unit) :=
  let! ready := read CheckReadyForRead in
  match ready with
  | Failure err => Ret (Failure err)
  | Success _ => FlushKey k 0 false
  end.

Fixpoint flush_keys (keys : list string) (last : option Error) : Program (option Error) :=
  match keys with
  | [] => Ret last
  | k :: keys =>
    let! r := FlushKey k 0 false in
    flush_keys keys (match r with Failure err => Some err | Success _ => last end)
  end.

Fixpoint flush_shards (shards : list nat) (last : option Error) : Program (option Error) :=
  match shards with
  | [] => Ret last
  | i :: shards =>
    let! keys := read (λ e, dirty_keys (shard_at e i)) in
    let! last := flush_keys keys last in
    flush_shards shards last
  end.

(** The loop over the shards that adds up [dirtyCount], a lock at a time. *)
Fixpoint sum_dirty (shards : list nat) (acc : Z) : Program Z :=
  match shards with
  | [] => Ret acc
  | i :: shards =>
    let! n := read (λ e, dirtyCount (shard_at e i)) in
    sum_dirty shards (wrap64 (acc + n))
  end.

Definition shard_indexes e : list nat := seq 0 (length (shards_ e)).

Definition pause_admission (paused : bool) : Program unit :=
  modify (λ e, set_admission e (inFlightWriteCount_ e) paused).

(** The block under [journalMutex_]: [true] where another compaction emptied
    the journal, and admission is resumed on the way out. *)
Definition compact_journal e : bool * CacheEngine B J :=
  if RecordCount (journal_ e) =? 0 then (true, set_admission e (inFlightWriteCount_ e) false)
  else (false, set_journal e (snd (Truncate (journal_ e)))).

Definition TryCompactJournalIfFullyClean : Program unit :=
  let! recordCount := read (λ e, RecordCount (journal_ e)) in
  if recordCount =? 0 then Ret tt
  else
    let! _ := pause_admission true in
    let! _ := DrainInFlightWrites in
    let! shards := read shard_indexes in
    let! remainingDirty := sum_dirty shards 0 in
    if remainingDirty =? 0 then
      let! already := act compact_journal in
      if already : bool then Ret tt else pause_admission false
    else pause_admission false.

Definition FlushAll : Program (Result unit) :=
  let! ready := read CheckReadyForRead in
  match ready with
  | Failure err => Ret (Failure err)
  | Success _ =>
    let! shards := read shard_indexes in
    let! failed := flush_shards shards None in
    match failed with
    | Some err => Ret (Failure err)
    | None => let! _ := TryCompactJournalIfFullyClean in Ret (Success tt)
    end
  end.

(** *** The background flusher *)

(** [joinable()]. *)
Definition joinable s : bool :=
  match backgroundFlushThread_ s with Running | Finished => true | NotStarted | Joined => false end.

Definition StartBackgroundFlushThreadIfConfigured s : Shared B J :=
  match flushPolicy (options_ (engine_ s)) with
  | FlushPolicyKind.Manual => s
  | FlushPolicyKind.PeriodicBackground => if joinable s then s else set_background s Running false
  end.

(** The first locked part of the thread's loop, from a [wait_for] on: the
    result says whether a stop was requested.  A timer that fires at most
    [timeouts] times bounds the loop; when it is spent the thread waits for the
    stop.  Every finite run of the thread is a run of one of them. *)
Definition await_tick (timeouts : nat) : Program bool :=
  Atomic (λ s, if backgroundFlushStopRequested_ s then Some (true, s)
               else match timeouts with O => None | S _ => Some (false, s) end) Ret.

Fixpoint background_loop (timeouts : nat) : Program unit :=
  let! stop := await_tick timeouts in
  match stop, timeouts with
  | true, _ | _, O => Ret tt
  | false, S timeouts =>
    let! lifecycleNow := read lifecycle_ in
    if bool_decide (lifecycleNow = Ready) then
      let! _ := FlushAll in background_loop timeouts
    else background_loop timeouts
  end.

Definition background_finish : Program unit :=
  Atomic (λ s, Some (tt, set_background s Finished (backgroundFlushStopRequested_ s))) Ret.

Definition background_thread (timeouts : nat) : Program unit :=
  let! _ := background_loop timeouts in background_finish.

Definition background_join : Program unit :=
  Atomic (λ s, if bool_decide (backgroundFlushThread_ s = Running) then None
               else Some (tt, set_background s Joined (backgroundFlushStopRequested_ s))) Ret.

Definition StopBackgroundFlushThread : Program unit :=
  let! started := Atomic (λ s, Some (joinable s, s)) Ret in
  if negb started then Ret tt
  else
    let! _ := Atomic (λ s, Some (tt, set_background s (backgroundFlushThread_ s) true)) Ret in
    background_join.

(** *** Lifecycle *)

(** [compare_exchange_strong]: what [lifecycle_] was. *)
Definition begin_stop e : EngineLifecycle * CacheEngine B J :=
  match lifecycle_ e with
  | Ready => (Ready, set_lifecycle e Stopping)
  | l => (l, e)
  end.

Definition Shutdown : Program (Result unit) :=
  let! was := act begin_stop in
  match was with
  | Stopped | Stopping => Ret (Success tt)
  | NotReady | RecoveryFailed =>
    Ret (Failure (mkError ErrorCode.InvalidArgument
                    "cannot shut down an engine that was never marked ready" 0))
  | Ready =>
    let! _ := DrainInFlightWrites in
    let! _ := StopBackgroundFlushThread in
    let! _ := FlushAll in
    let! _ := modify (λ e, set_lifecycle e Stopped) in
    let! shards := read shard_indexes in
    let! remainingDirty := sum_dirty shards 0 in
    if remainingDirty =? 0 then
      let! _ := modify (λ e, set_journal e (snd (Truncate (journal_ e)))) in
      Ret (Success tt)
    else Ret (Success tt)
  end.

(** The load and the store of [lifecycle_] are two accesses. *)
Definition MarkRecoveryComplete : Program (Result unit) :=
  let! r := read (λ e, (lifecycle_ e, fst (Engine.MarkRecoveryComplete e))) in
  match r with
  | (NotReady, r) =>
    let! _ := modify (λ e, set_lifecycle e Ready) in
    let! _ := Atomic (λ s, Some (tt, StartBackgroundFlushThreadIfConfigured s)) Ret in
    Ret r
  | (_, r) => Ret r
  end.

(** The thread a client runs for an operation. *)
Definition op_prog (op : Operation) : Program Outcome :=
  let result (p : Program (Result unit)) := let! r := p in Ret (Done r) in
  match op with
  | OpGet k => let! r := Get k in Ret (Value r)
  | OpPut k v => result (Put k v)
  | OpInvalidate k => result (InvalidateImpl k false)
  | OpForceInvalidate k => result (InvalidateImpl k true)
  | OpFlush k => result (Flush k)
  | OpFlushAll => result FlushAll
  | OpShutdown => result Shutdown
  | OpMarkRecoveryComplete => result MarkRecoveryComplete
  end.
End Threads.
End Threads.

(** ** An operation that runs alone *)

Lemma run_bind {S A B} (p : Prog S A) (f : A → Prog S B) s :
  run_alone (bind p f) s = '(a, s) ← run_alone p s; run_alone (f a) s.
Proof.
  revert s. induction p as [a|R step k IH]; intros s; cbn; [done|].
  destruct (step s) as [[r s']|]; [apply IH|done].
Qed.

Section alone.
Context {B J : Type} `{IBackingStore.IBackingStore B} `{IWriteAheadJournal J}.
Context (hash : string → Z).
Implicit Types (e : CacheEngine B J) (s : Shared B J).

(** [p], run alone, does [re] to the engine and nothing else. *)
Definition does {A} (p : Prog (Shared B J) A) s (re : A * CacheEngine B J) : Prop :=
  run_alone p s = Some (fst re, Threads.set_engine s (snd re)).

Lemma does_ret {A} (a : A) s : does (Ret a) s (a, engine_ s).
Proof. by destruct s. Qed.

Lemma does_bind {A C} (p : Prog (Shared B J) A) (f : A → Prog (Shared B J) C) s re re' :
  does p s re → does (f (fst re)) (Threads.set_engine s (snd re)) re' → does (bind p f) s re'.
Proof. unfold does. intros Hp Hf. rewrite run_bind, Hp. cbn. by rewrite Hf. Qed.

Lemma does_act {A} (f : CacheEngine B J → A * CacheEngine B J) s : does (Threads.act f) s (f (engine_ s)).
Proof. unfold does. cbn. by destruct (f (engine_ s)). Qed.

Lemma does_wait {A} ready (f : CacheEngine B J → A * CacheEngine B J) s :
  ready s = true → does (Threads.wait_then ready f) s (f (engine_ s)).
Proof. intros Hr. unfold does. cbn. rewrite Hr. by destruct (f (engine_ s)). Qed.

Lemma does_eq {A} (p : Prog (Shared B J) A) s re re' : does p s re → re = re' → does p s re'.
Proof. by intros ? <-. Qed.
End alone.

(** One block of a program against the specification's next step. *)
Ltac block := eapply does_bind; [first [apply does_act | done]|cbn [fst snd Threads.set_engine engine_]].
Ltac finish := eapply does_eq; [apply does_ret|cbn [engine_ Threads.set_engine]].

Section equivalence.
Context {B J : Type} `{IBackingStore.IBackingStore B} `{IWriteAheadJournal J}.
Context (hash : string → Z).
Implicit Types (e : CacheEngine B J) (s : Shared B J).

Lemma AppendJournalRecord_shards e r : shards_ (snd (Engine.AppendJournalRecord e r)) = shards_ e.
Proof. unfold Engine.AppendJournalRecord. by destruct (Append _ _) as [[?|?] ?]. Qed.

Lemma ShardFor_same e e' k : length (shards_ e') = length (shards_ e) → Engine.ShardFor hash e' k = Engine.ShardFor hash e k.
Proof. unfold Engine.ShardFor, zlen. by intros ->. Qed.

Lemma flush_failed_does k ver err s :
  does (Threads.flush_failed hash k ver err) s (Engine.flush_failed hash (engine_ s) k ver err).
Proof. unfold Threads.flush_failed. do 2 block. by finish. Qed.

Lemma FlushKey_does k ver check s :
  does (Threads.FlushKey hash k ver check) s (Engine.FlushKey hash (engine_ s) k ver check).
Proof.
  unfold Threads.FlushKey, Engine.FlushKey. block. unfold Threads.begin_flush.
  destruct (flush_begin _ _ _ _) as [[r|[v ver']] sh]; cbn [fst snd]; [by finish|].
  block. unfold flush_io, intent, complete, flush_record.
  set (e1 := set_shard _ _ _).
  pose proof (AppendJournalRecord_shards e1
    (mkRecord kCacheRecordFormatVersion CacheRecordType.FlushIntent k [] ver')) as L1.
  destruct (Engine.AppendJournalRecord e1 _) as [[[]|err] e2]; cbn [fst snd] in *; [|apply flush_failed_does].
  block. unfold Threads.store_put. destruct (IBackingStore.Put _ _ _) as [[[]|err] b]; cbn [fst snd];
    [|apply flush_failed_does].
  block. pose proof (AppendJournalRecord_shards (set_store e2 b)
    (mkRecord kCacheRecordFormatVersion CacheRecordType.FlushComplete k [] ver')) as L2.
  destruct (Engine.AppendJournalRecord (set_store e2 b) _) as [[[]|err] e3]; cbn [fst snd] in *;
    [|apply flush_failed_does].
  do 2 block. finish. unfold Threads.on_shard.
  rewrite (ShardFor_same (engine_ s) e3); [done|]. rewrite L2. cbn [set_store shards_]. rewrite L1.
  unfold e1. cbn [set_shard shards_]. by rewrite length_insert.
Qed.

Lemma relieve_does i n s :
  does (Threads.relieve_loop hash n i) s (tt, relieve_loop hash n (engine_ s) i).
Proof.
  revert s. induction n as [|n IH]; intros s; cbn [Threads.relieve_loop relieve_loop]; [by finish|].
  block. unfold Threads.relieve_pick. destruct (negb _); cbn [fst snd]; [by finish|].
  destruct (String.eqb _ _); cbn [fst snd]; [by finish|].
  eapply does_bind; [apply FlushKey_does|]. cbn [fst snd Threads.set_engine engine_].
  destruct (Engine.FlushKey _ _ _ _ _) as [[[]|err] e2]; cbn [fst snd]; block; cbn [Threads.relieve_evict fst snd].
  - destruct (_ <=? _); [by finish|]. apply IH.
  - by finish.
Qed.

Lemma Get_does k s : does (Threads.Get hash k) s (Engine.Get hash (engine_ s) k).
Proof.
  unfold Threads.Get, Engine.Get. block. destruct (CheckReadyForRead _) as [[]|err]; [|by finish].
  block. destruct (negb _); [by finish|]. block.
  destruct (Get_lookup _ _ _) as [[v|fence] e1]; cbn [fst snd]; [by finish|].
  block. block. unfold Threads.store_get. destruct (IBackingStore.Get _ _) as [[v|err] b]; cbn [fst snd]; [|by finish].
  destruct (_ <? _); [by finish|]. block. destruct (Get_fill _ _ _ _ _). by finish.
Qed.

Lemma Put_admitted_does k v s :
  does (Threads.Put_admitted hash k v) s (Engine.Put_admitted hash (engine_ s) k v).
Proof.
  unfold Threads.Put_admitted, Engine.Put_admitted. block. unfold Threads.append_upsert.
  destruct (AppendJournalRecordWithNewVersion _ _) as [[[[]|err] ver] e1]; cbn [fst snd]; [|by finish].
  do 2 block. eapply does_bind; [apply relieve_does|]. cbn [fst snd Threads.set_engine engine_].
  replace (Engine.ShardFor hash (Threads.insert_dirty hash k v ver e1) k) with (Engine.ShardFor hash e1 k).
  2:{ symmetry. apply ShardFor_same. unfold Threads.insert_dirty, insert_or_update.
      destruct (InsertOrUpdateLocked _ _ _ _ _ _ _ _ _). cbn. by rewrite length_insert. }
  block. unfold RelieveCapacityPressureIfNeeded, Threads.insert_dirty.
  destruct (writePolicy _); [|by finish]. eapply does_eq; [apply FlushKey_does|done].
Qed.

Lemma admitted_write_does (body : Prog (Shared B J) (Result unit)) spec s :
  compactionPaused_ (engine_ s) = false →
  (∀ s', does body s' (spec (engine_ s'))) →
  does (Threads.admitted_write body) s
    (let '(admitted, e) := Engine.TryAdmitWrite (engine_ s) in
     if negb admitted then (not_accepting, e)
     else let '(r, e) := spec e in (r, Engine.ReleaseWriteAdmission e)).
Proof.
  intros Hp Hbody. unfold Threads.admitted_write.
  eapply does_bind; [apply does_wait; by rewrite Hp|]. cbn [fst snd Threads.set_engine engine_].
  destruct (Engine.TryAdmitWrite _) as [[|] e1]; cbn [fst snd negb]; [|by finish].
  eapply does_bind; [apply Hbody|]. cbn [fst snd Threads.set_engine engine_].
  destruct (spec e1) as [r e2]. cbn [fst snd]. block. by finish.
Qed.

Lemma Invalidate_admitted_does k force s :
  does (Threads.Invalidate_admitted hash k force) s (Engine.Invalidate_admitted hash (engine_ s) k force).
Proof.
  unfold Threads.Invalidate_admitted, Engine.Invalidate_admitted. block.
  destruct (Invalidate_peek _ _ _ _) as [ver|]; [|by finish]. block.
  pose proof (AppendJournalRecord_shards (engine_ s)
    (mkRecord kCacheRecordFormatVersion CacheRecordType.Invalidate k [] ver)) as L1.
  destruct (Engine.AppendJournalRecord _ _) as [[[]|err] e1]; cbn [fst snd] in *; [|by finish].
  block. unfold Threads.store_remove. destruct (IBackingStore.Remove _ _) as [[[]|err] b]; cbn [fst snd]; [|by finish].
  do 2 block. finish. unfold Threads.on_shard.
  rewrite (ShardFor_same (engine_ s) (set_store e1 b)); [done|]. cbn [set_store shards_]. by rewrite L1.
Qed.

Lemma InvalidateImpl_does k force s :
  compactionPaused_ (engine_ s) = false →
  does (Threads.InvalidateImpl hash k force) s (Engine.InvalidateImpl hash (engine_ s) k force).
Proof.
  intros Hp. unfold Threads.InvalidateImpl, Engine.InvalidateImpl. block.
  destruct (CheckReadyForWrite _) as [[]|err]; [|by finish].
  apply (admitted_write_does _ (λ e, Engine.Invalidate_admitted hash e k force) (Threads.set_engine s _)); [done|].
  intros s'. apply Invalidate_admitted_does.
Qed.

Lemma flush_keys_does keys last s :
  does (Threads.flush_keys hash keys last) s (flush_keys hash (engine_ s) keys last).
Proof.
  revert last s. induction keys as [|k keys IH]; intros last s; cbn [Threads.flush_keys flush_keys]; [by finish|].
  eapply does_bind; [apply FlushKey_does|]. cbn [fst snd Threads.set_engine engine_].
  destruct (Engine.FlushKey _ _ _ _ _) as [[[]|err] e1]; cbn [fst snd]; apply (IH _ (Threads.set_engine s e1)).
Qed.

Lemma flush_shards_does ixs last s :
  does (Threads.flush_shards hash ixs last) s (flush_shards hash (engine_ s) ixs last).
Proof.
  revert last s. induction ixs as [|i ixs IH]; intros last s; cbn [Threads.flush_shards flush_shards]; [by finish|].
  block. eapply does_bind; [apply flush_keys_does|]. cbn [fst snd Threads.set_engine engine_].
  destruct (flush_keys _ _ _ _) as [last' e1]. cbn [fst snd]. apply (IH _ (Threads.set_engine s e1)).
Qed.

Lemma sum_dirty_does ixs acc s :
  does (Threads.sum_dirty ixs acc) s
    (foldl (λ acc i, wrap64 (acc + dirtyCount (shard_at (engine_ s) i))) acc ixs, engine_ s).
Proof.
  revert acc s. induction ixs as [|i ixs IH]; intros acc s; cbn [Threads.sum_dirty foldl]; [by finish|].
  block. apply (IH _ (Threads.set_engine s (engine_ s))).
Qed.

(** The sum over the indexes from [n] on, the list of shards being [l ++ r]. *)
Lemma sum_from_index l r acc :
  foldl (λ acc i, wrap64 (acc + dirtyCount (default Shard_empty ((l ++ r) !! i)))) acc (seq (length l) (length r)) =
  foldl (λ acc sh, wrap64 (acc + dirtyCount sh)) acc r.
Proof.
  revert l acc. induction r as [|sh r IH]; intros l acc; cbn [length seq foldl]; [done|].
  rewrite lookup_app_r, Nat.sub_diag by done. cbn [lookup list_lookup default].
  specialize (IH (l ++ [sh])). rewrite <- app_assoc, length_app in IH. cbn in IH.
  rewrite Nat.add_1_r in IH. apply IH.
Qed.

Lemma sum_is_total_dirty e :
  foldl (λ acc i, wrap64 (acc + dirtyCount (shard_at e i))) 0 (Threads.shard_indexes e) = total_dirty e.
Proof. exact (sum_from_index [] (shards_ e) 0). Qed.

Lemma TryCompact_does s :
  inFlightWriteCount_ (engine_ s) = 0 →
  does Threads.TryCompactJournalIfFullyClean s (tt, TryCompactJournalIfFullyClean (engine_ s)).
Proof.
  intros Hn. unfold Threads.TryCompactJournalIfFullyClean, TryCompactJournalIfFullyClean. block.
  destruct (RecordCount (journal_ (engine_ s)) =? 0); [by finish|]. block.
  eapply does_bind; [apply does_wait; cbn; by rewrite Hn|]. cbn [fst snd Threads.set_engine engine_].
  block. eapply does_bind; [apply sum_dirty_does|]. cbn [fst snd Threads.set_engine engine_].
  rewrite sum_is_total_dirty. destruct (total_dirty _ =? 0).
  - block. unfold Threads.compact_journal. destruct (RecordCount _ =? 0); cbn [fst snd]; [by finish|].
    eapply does_eq; [apply does_act|done].
  - eapply does_eq; [apply does_act|done].
Qed.

Lemma FlushAll_does s :
  inFlightWriteCount_ (engine_ s) = 0 →
  does (Threads.FlushAll hash) s (FlushAll hash (engine_ s)).
Proof.
  intros Hn. unfold Threads.FlushAll, FlushAll. block.
  destruct (CheckReadyForRead _) as [[]|err]; [|by finish]. block.
  eapply does_bind; [apply flush_shards_does|]. cbn [fst snd Threads.set_engine engine_].
  unfold Threads.shard_indexes. destruct (flush_shards _ _ _ _) as [[err|] e1] eqn:E; cbn [fst snd]; [by finish|].
  apply flush_shards_control in E as [= _ _ Hn1 _].
  eapply does_bind; [apply TryCompact_does; cbn; congruence|]. cbn [fst snd Threads.set_engine engine_].
  by finish.
Qed.

(** No writer is in flight or held back, and the background flusher is not in
    its loop. *)
Definition quiescent s : Prop :=
  compactionPaused_ (engine_ s) = false ∧ inFlightWriteCount_ (engine_ s) = 0 ∧
  backgroundFlushThread_ s ≠ Running.

Lemma Stop_alone s :
  backgroundFlushThread_ s ≠ Running →
  ∃ s', run_alone Threads.StopBackgroundFlushThread s = Some (tt, s') ∧ engine_ s' = engine_ s.
Proof.
  intros Hb. destruct s as [e [] stop]; cbn in *; try done; eauto.
Qed.

Lemma Shutdown_alone s :
  quiescent s →
  ∃ s', run_alone (Threads.Shutdown hash) s = Some (fst (Shutdown hash (engine_ s)), s') ∧
        engine_ s' = snd (Shutdown hash (engine_ s)).
Proof.
  intros (_ & Hn & Hb). unfold Threads.Shutdown, Threads.modify, Threads.read, Shutdown. rewrite run_bind, (does_act Threads.begin_stop s).
  unfold Threads.begin_stop. cbn [mbind option_bind].
  destruct (lifecycle_ (engine_ s)) eqn:El; cbn [fst snd]; try (eexists; split; [reflexivity|done]).
  set (s1 := Threads.set_engine s _).
  unfold Threads.DrainInFlightWrites. rewrite run_bind, (does_wait _ _ s1) by (cbn; by rewrite Hn). cbn [mbind option_bind fst snd].
  destruct (Stop_alone (Threads.set_engine s1 (engine_ s1))) as (s2 & E2 & Es2); [done|].
  rewrite run_bind, E2. cbn [mbind option_bind]. change (engine_ s2 = set_lifecycle (engine_ s) Stopping) in Es2.
  rewrite run_bind, (FlushAll_does s2), Es2 by (by rewrite Es2). cbn [mbind option_bind].
  destruct (FlushAll hash (set_lifecycle (engine_ s) Stopping)) as [r e3]. cbn [fst snd].
  set (s3 := Threads.set_engine s2 e3).
  rewrite run_bind, (does_act _ s3). cbn [mbind option_bind fst snd].
  set (s4 := Threads.set_engine s3 _).
  rewrite run_bind, (does_act _ s4). cbn [mbind option_bind fst snd].
  rewrite run_bind, sum_dirty_does, sum_is_total_dirty. cbn [mbind option_bind fst snd].
  change (engine_ (Threads.set_engine s4 (engine_ s4))) with (set_lifecycle e3 Stopped).
  destruct (total_dirty _ =? 0); eexists; (split; [reflexivity|done]).
Qed.
End equivalence.

(** The sequential engine of Engine.v is what a thread does that runs alone:
    from a state where no writer is in flight and the background flusher is
    not in its loop, the program of every operation runs to its end without
    waiting, with the outcome and the engine of [Client.run_op].  So what is
    proved of [run_op] holds of every execution in which operations do not
    overlap. *)
Lemma run_alone_run_op `{IBackingStore.IBackingStore B} `{IWriteAheadJournal J} hash (s : Shared B J) op out e' :
  quiescent s → run_op hash (engine_ s) op = (out, e') →
  ∃ s', run_alone (Threads.op_prog hash op) s = Some (out, s') ∧ engine_ s' = e'.
Proof.
  intros Hq E. assert (∀ (p : Prog (Shared B J) (Result unit)) r s1,
    run_alone p s = Some (r, s1) → run_alone (bind p (λ r, Ret (Done r))) s = Some (Done r, s1)) as Hdone.
  { intros p r s1 Hp. by rewrite run_bind, Hp. }
  assert (∀ (p : Prog (Shared B J) (Result unit)) re, does p s re → (Done (fst re), snd re) = (out, e') →
    ∃ s', run_alone (bind p (λ r, Ret (Done r))) s = Some (out, s') ∧ engine_ s' = e') as Hop.
  { intros p re Hp [= <- <-]. eexists. split; [by apply Hdone|done]. }
  pose proof Hq as (Hp & Hn & Hb).
  destruct op as [k|k v|k|k|k| | |]; cbn [run_op] in E; cbn [Threads.op_prog].
  - pose proof (Get_does hash k s) as HG. destruct (Engine.Get hash (engine_ s) k) as [r e1]. injection E as <- <-.
    eexists. rewrite run_bind, HG. by split.
  - eapply Hop; [|exact E]. unfold Threads.Put, Engine.Put. block.
    destruct (CheckReadyForWrite _) as [[]|err]; [|by finish]. block.
    destruct (negb _); [by finish|]. apply (admitted_write_does _ (λ e, Engine.Put_admitted hash e k v) (Threads.set_engine s _)); [done|].
    intros s'. apply Put_admitted_does.
  - eapply Hop; [|exact E]. by apply InvalidateImpl_does.
  - eapply Hop; [|exact E]. by apply InvalidateImpl_does.
  - eapply Hop; [|exact E]. unfold Threads.Flush, Flush. block.
    destruct (CheckReadyForRead _) as [[]|err]; [|by finish]. eapply does_eq; [apply FlushKey_does|done].
  - eapply Hop; [|exact E]. by apply FlushAll_does.
  - injection E as <- <-. destruct (Shutdown_alone hash s Hq) as (s' & Es & Ee). exists s'.
    split; [by apply Hdone|done].
  - injection E as <- <-. unfold Threads.MarkRecoveryComplete, Threads.modify, Threads.read, Engine.MarkRecoveryComplete.
    rewrite !run_bind, (does_act _ s). cbn [mbind option_bind fst snd].
    destruct (lifecycle_ (engine_ s)); cbn [fst snd]; try (eexists; split; [reflexivity|done]).
    rewrite run_bind, (does_act _ (Threads.set_engine s _)). cbn [mbind option_bind fst snd].
    eexists. split; [reflexivity|]. unfold Threads.StartBackgroundFlushThreadIfConfigured.
    destruct (flushPolicy _); [done|]. by case_match.
Qed.

(** ** The fence of a read miss *)

(** One block on a shard moves the fence by one, or leaves every absent key
    absent. *)
Lemma shard_step_fence cap maxE sh sh' k :
  shard_ok sh → shard_step cap maxE sh sh' →
  mutationFence sh' = wrap64 (mutationFence sh + 1) ∨
  mutationFence sh' = mutationFence sh ∧ (shard_get sh k = None → shard_get sh' k = None).
Proof.
  intros Hs Hstep. destruct Hstep as [s k' it e Hf|s n k' v ver st en|s n|s k' ev cv|s k' ver|s k' ver|s k' ver].
  - right. split; [done|]. apply find_Some in Hf as [Hin _]; [|done]. by rewrite (touch_get s it e).
  - destruct (InsertOrUpdateLocked _ _ _ _ _ _ _ _ _) as [s' n'] eqn:E. cbn.
    pose proof (InsertOrUpdate_contract _ _ _ _ _ _ _ _ _ _ _ Hs E) as HC.
    destruct (stale _ _); [destruct HC as [-> _]; by right|left; apply HC].
  - destruct (EvictCleanEntriesLocked _ _ _ _) as [s' n'] eqn:E. cbn.
    apply EvictCleanEntriesLocked_get in E as (_ & Hev & Hm & _); [|done]. right. split; [done|].
    intros Hn. destruct (Hev k) as [->|(? & _ & _ & ?)]; done.
  - destruct (flush_begin _ _ _ _) as [r s'] eqn:E. cbn.
    apply flush_begin_contract in E as (_ & _ & Hm & Hr); [|done]. right. split; [done|]. intros Hn.
    destruct r as [r|[v ver]]; [by subst|]. destruct Hr as (Hg & _ & Hu). rewrite Hu. by case_decide; [congruence|].
  - destruct (flush_commit_contract s k' ver _ Hs eq_refl) as (_ & _ & Hm & Hu). right. split; [done|].
    intros Hn. destruct (flushing _ _) as [e|] eqn:Ef; [|by rewrite Hu]. rewrite Hu. case_decide as Hk; [|done].
    subst k'. by rewrite Hn in Ef.
  - destruct (Revert_contract s k' ver _ Hs eq_refl) as (_ & _ & Hm & Hu). right. split; [done|].
    intros Hn. destruct (flushing _ _) as [e|] eqn:Ef; [|by rewrite Hu]. rewrite Hu. case_decide as Hk; [|done].
    subst k'. by rewrite Hn in Ef.
  - left. apply (invalidate_commit_contract s k' ver _ Hs eq_refl).
Qed.

(** After fewer than 2^64 blocks, a fence that reads as before has not moved. *)
Lemma fence_unmoved cap maxE n : ∀ sh sh' k,
  shard_ok sh → nsteps (shard_step cap maxE) n sh sh' →
  shard_ok sh' ∧ ∃ m, 0 ≤ m ≤ Z.of_nat n ∧ wrap64 (mutationFence sh') = wrap64 (mutationFence sh + m) ∧
    (m = 0 → shard_get sh k = None → shard_get sh' k = None).
Proof.
  induction n as [|n IH]; intros sh sh' k Hs Hn; inversion Hn as [|? ? sh1 ? Hst Hn']; subst.
  { split; [done|]. exists 0. rewrite Z.add_0_r. by split_and!. }
  destruct (IH sh1 sh' k (shard_step_ok _ _ _ _ Hs Hst) Hn') as (Hs' & m & Hm & Hf & Hk).
  split; [done|]. destruct (shard_step_fence cap maxE sh sh1 k Hs Hst) as [E|[E Hk1]].
  - exists (m + 1). split; [lia|]. split; [|lia]. rewrite Hf, E. unfold wrap. rewrite Z.add_mod_idemp_l by done.
    f_equal. lia.
  - exists m. split; [lia|]. split; [by rewrite Hf, E|]. auto.
Qed.

(** C23: A read miss never hides a newer entry.  A [Get] that missed in the shard
    [sh] comes back from the backing store to the shard after any interleaving
    of fewer than 2^64 locked blocks of other threads: if the key has an entry
    by then, the read returns that entry's value and leaves the entry as it
    is; it inserts and returns what the store gave only where the key is still
    absent. *)
Theorem read_fill_never_stale `{IBackingStore.IBackingStore B} `{IWriteAheadJournal J} hash
    (e : CacheEngine B J) k v cap maxE n sh v' e' :
  shard_ok sh → shard_get sh k = None → u64 (mutationFence sh) → u64 (mutationFence (shard_at e (Engine.ShardFor hash e k))) →
  nsteps (shard_step cap maxE) n sh (shard_at e (Engine.ShardFor hash e k)) → Z.of_nat n < 2 ^ 64 →
  shards_ e ≠ [] →
  Get_fill hash e k (mutationFence sh) v = (v', e') →
  match shard_get (shard_at e (Engine.ShardFor hash e k)) k with
  | Some en => v' = value en ∧ engine_get hash e' k = Some en
  | None => v' = v
  end.
Proof.
  intros Hs Hmiss Hu Hu' Hn Hlt Hne. set (i := Engine.ShardFor hash e k) in *.
  destruct (fence_unmoved cap maxE n sh _ k Hs Hn) as (Hs' & m & Hm & Hf & Hk).
  rewrite (wrap_small _ (mutationFence (shard_at e i))) in Hf by done.
  unfold Get_fill. fold i. destruct (Z.eqb_spec (mutationFence (shard_at e i)) (mutationFence sh)) as [E|E].
  - assert (m = 0) as ->.
    { rewrite E in Hf. unfold wrap in Hf. unfold in_width in Hu.
      destruct (decide (mutationFence sh + m < 2 ^ 64)).
      - rewrite Z.mod_small in Hf by lia. lia.
      - rewrite <- (Z.mod_add _ (-1)), Z.mod_small in Hf by lia. lia. }
    rewrite (Hk eq_refl Hmiss). by intros [= <- _].
  - destruct (find (shard_at e i) k) as [[it en]|] eqn:Ef.
    + rewrite (find_get _ _ it en) by done. intros [= <- <-]. split; [done|].
      unfold engine_get. assert (length (shards_ (count Hit (set_shard e i (touch (shard_at e i) it)))) = length (shards_ e)) as Hlen
        by (cbn; by rewrite length_insert).
      rewrite (ShardFor_frame hash e _ k Hlen). fold i.
      change (shard_at (count Hit ?x) i) with (shard_at x i).
      rewrite shard_at_set by (by apply ShardFor_lt). rewrite decide_True by done.
      pose proof (find_get _ _ _ _ Hs' Ef) as Hg. apply find_Some in Ef as [Hin _]; [|done].
      by rewrite (touch_get _ it en).
    + rewrite (proj1 (find_None_get _ _) Ef). by intros [= <- _].
Qed.
