(* ===== verification/CrashPoints.v ===== *)
(** * CrashPoints: a power cut inside an operation

    Durability.v relates the engine to the journal and the backing store
    between two operations.  Here the power may fail at any block of any
    operation: [moves] are the steps a thread that runs alone takes through a
    program of Threads.v, each of which makes at most one call of a device
    ([io_step]).  In every state on the way the journal and the store together
    hold, under every key the journal holds no invalidation of, what they held
    before the operation or what the operation writes there ([good]).  Then the
    files: what a power cut leaves while a call is under way ([cut_files]). *)
From S2P Require Import Prelude Common RecordCodec Scan Storage Journal Store Shard Engine EngineFacts Durability Client.
From S2P Require Import Lifecycle Threads.
Import EntryDirtyState EngineLifecycle.
Open Scope Z_scope.

(** ** The steps of a thread that runs alone *)

Fixpoint moves {S A} (p : Prog S A) (s : S) : list (S * S) :=
  match p with
  | Ret _ => []
  | Atomic step k => match step s with Some (r, s') => (s, s') :: moves (k r) s' | None => [] end
  end.

Lemma moves_bind {S A C} (p : Prog S A) (f : A → Prog S C) s :
  moves (bind p f) s =
    moves p s ++ match run_alone p s with Some (a, s') => moves (f a) s' | None => [] end.
Proof.
  revert s. induction p as [a|R step k IH]; intros s; cbn; [done|].
  destruct (step s) as [[r s']|]; [by rewrite IH|done].
Qed.

(** ** What a restart finds after one more record, or one more store *)

Lemma recovered_intent ds k ver m k' : recovered (ds ++ [intent k ver]) m k' = recovered ds m k'.
Proof.
  unfold recovered. rewrite !store_after_lookup, invalidated_app, orb_false_r.
  destruct (decide (k' = k)) as [->|Hne].
  - destruct (pending_of ds !! k) as [p|] eqn:Ep.
    + by destruct (pending_intent ds k ver p Ep) as [st ->].
    + rewrite pending_of_snoc. unfold pending_step. cbn. by rewrite Ep, Ep.
  - by rewrite pending_of_snoc, pending_step_ne by done.
Qed.

Lemma recovered_store ds k v m k' :
  (k' = k → ∃ p, pending_of ds !! k = Some p) → recovered ds (<[k := v]> m) k' = recovered ds m k'.
Proof.
  intros Hp. unfold recovered. rewrite !store_after_lookup. destruct (decide (k' = k)) as [->|Hne].
  - by destruct (Hp eq_refl) as [p ->].
  - by rewrite lookup_insert_ne.
Qed.

Lemma recovered_complete ds k v ver st m k' :
  (k' = k → pending_of ds !! k = Some (mkPending v ver st) ∧ invalidated ds k = false ∧ m !! k = Some v) →
  recovered (ds ++ [complete k ver]) m k' = recovered ds m k'.
Proof.
  intros Hp. unfold recovered. rewrite !store_after_lookup, invalidated_app, orb_false_r.
  destruct (decide (k' = k)) as [->|Hne].
  - destruct (Hp eq_refl) as (Hpk & Hi & Hm). by rewrite (pending_complete ds k v ver st Hpk), Hpk, Hi, Hm.
  - by rewrite pending_of_snoc, pending_step_ne by done.
Qed.

Lemma recovered_upsert ds k v ver m k' :
  recovered (ds ++ [upsert k v ver]) m k' = if decide (k' = k) then Some v else recovered ds m k'.
Proof.
  unfold recovered. rewrite pending_of_snoc. destruct (decide (k' = k)) as [->|Hne].
  - unfold pending_step. cbn. by rewrite lookup_insert_eq.
  - rewrite pending_step_ne by done. by rewrite !store_after_lookup, invalidated_app, orb_false_r.
Qed.

Lemma recovered_invalidate ds k ver m m' k' :
  (k' ≠ k → m' !! k' = m !! k') →
  recovered (ds ++ [invalidate_record k ver]) m' k' = if decide (k' = k) then None else recovered ds m k'.
Proof.
  intros Hm. destruct (decide (k' = k)) as [->|Hne]; [apply recovered_invalidated|].
  unfold recovered. rewrite pending_of_snoc, pending_step_ne, !store_after_lookup, invalidated_app, Hm by done.
  cbn. by rewrite (proj2 (String.eqb_neq k k')), orb_false_r by congruence.
Qed.

(** ** What the journal and the store hold on the way *)

Section crash.
Context {B J : Type} `{BackingStoreSpec B} `{JournalSpec J}.
Context (hash : string → Z).
Implicit Types (e : CacheEngine B J) (s : Shared B J).

Abbreviation Program := (Prog (Shared B J)).

(** One block makes at most one call of a device. *)
Inductive io_step e e' : Prop :=
  | io_none : journal_ e' = journal_ e → backingStore_ e' = backingStore_ e → io_step e e'
  | io_append d :
      record_ok d → journal_ e' = snd (Append (journal_ e) (Encode d)) →
      backingStore_ e' = backingStore_ e → io_step e e'
  | io_truncate :
      journal_ e' = snd (Truncate (journal_ e)) → backingStore_ e' = backingStore_ e → io_step e e'
  | io_get k :
      backingStore_ e' = snd (IBackingStore.Get (backingStore_ e) k) → journal_ e' = journal_ e → io_step e e'
  | io_put k v :
      store_fits k v → backingStore_ e' = snd (IBackingStore.Put (backingStore_ e) k v) →
      journal_ e' = journal_ e → io_step e e'
  | io_remove k :
      store_fits k [] → backingStore_ e' = snd (IBackingStore.Remove (backingStore_ e) k) →
      journal_ e' = journal_ e → io_step e e'.

(** [ds0]: the journal before the operation; [I]: the keys the operation
    invalidates; [V]: the values a key may have after a restart. *)
Context (ds0 : list CacheJournalRecord) (I : string → Prop) (V : string → option bytes → Prop).

Abbreviation kept k := (invalidated ds0 k = false).

(** The journal holds [ds], and a restart finds permitted values. *)
Record holds e (ds : list CacheJournalRecord) : Prop := {
  hd_clean : store_clean (backingStore_ e);
  hd_reliable : store_reliable (backingStore_ e);
  hd_log : log_is (journal_ e) ds;
  hd_invalidated k : invalidated ds k = true → invalidated ds0 k = true ∨ I k;
  hd_values k : kept k → V k (recovered ds (store_map (backingStore_ e)) k)
}.

Definition good e : Prop := ∃ ds, holds e ds.

(** Between two calls of the engine's own: everything Durability.v asks. *)
Record sound e : Prop := {
  sd_engine : EngineFacts.engine_ok hash e;
  sd_clean : store_clean (backingStore_ e);
  sd_reliable : store_reliable (backingStore_ e);
  sd_view k : kept k → V k (view hash e k);
  sd_durable : ∃ ds, durable hash e ds ∧ fewer_invalidated ds0 ds
}.

Definition along {A} (p : Program A) s : Prop :=
  Forall (λ '(s1, s2), good (engine_ s1) ∧ good (engine_ s2) ∧ io_step (engine_ s1) (engine_ s2)) (moves p s).

Lemma fewer_kept ds k : fewer_invalidated ds0 ds → kept k → invalidated ds k = false.
Proof. intros Hf Hk. destruct (invalidated ds k) eqn:E; [|done]. by rewrite (Hf k E) in Hk. Qed.

Lemma sound_holds e ds :
  sound e → durable hash e ds → fewer_invalidated ds0 ds → holds e ds.
Proof.
  intros [He Hc Hr Hv _] Hd Hf. constructor; [done|done|apply Hd|intros k Hk; left; by apply Hf|].
  intros k Hk. rewrite (durable_recovered hash e ds k He Hd) by (by apply fewer_kept). by apply Hv.
Qed.

Lemma sound_good e : sound e → good e.
Proof. intros Hs. destruct (sd_durable _ Hs) as (ds & Hd & Hf). exists ds. by apply sound_holds. Qed.

(** A step that keeps the map and loses nothing. *)
Lemma sound_preserved e e' : sound e → preserves hash e e' → good e' → sound e'.
Proof.
  intros [He Hc Hr Hv (ds & Hd & Hf)] (He' & V' & D) (ds1 & [Hc' Hr' _ _ _]). constructor; [done..| |].
  - intros k Hk. rewrite V'. by apply Hv.
  - destruct (D ds Hd) as (ds' & Hd' & Hf'). exists ds'. split; [done|]. intros k Hk. by apply Hf, Hf'.
Qed.

(** The devices are untouched. *)
Definition still e e' : Prop := journal_ e' = journal_ e ∧ backingStore_ e' = backingStore_ e.

Lemma still_holds e e' ds : still e e' → holds e ds → holds e' ds.
Proof. intros [Hj Hb] [? ? ? ? ?]. constructor; by rewrite ?Hj, ?Hb. Qed.

Lemma still_good e e' : still e e' → good e → good e'.
Proof. intros Hst (ds & Hh). exists ds. by eapply still_holds. Qed.

Lemma sound_same_store e e' :
  sound e → preserves hash e e' → backingStore_ e' = backingStore_ e → sound e'.
Proof.
  intros [He Hc Hr Hv (ds & Hd & Hf)] (He' & V' & D) Hb. constructor; rewrite ?Hb; [done..| |].
  - intros k Hk. rewrite V'. by apply Hv.
  - destruct (D ds Hd) as (ds' & Hd' & Hf'). exists ds'. split; [done|]. intros k Hk. by apply Hf, Hf'.
Qed.

Lemma core_still e e' : core_eq e e' → still e e'.
Proof. by intros (_ & ? & ? & _). Qed.

Lemma sound_core e e' : sound e → core_eq e e' → sound e'.
Proof.
  intros Hs Hc. eapply sound_same_store; [done| |by apply core_still]. by eapply core_eq_preserves, Hs.
Qed.

(** *** The device calls *)

Lemma holds_append e d r e' ds :
  holds e ds → record_ok d → Engine.AppendJournalRecord e d = (r, e') →
  (∀ k, invalidated [d] k = true → I k) →
  (∀ k, kept k → V k (recovered (ds ++ [d]) (store_map (backingStore_ e)) k)) →
  r = Success tt ∧ holds e' (ds ++ [d]) ∧ io_step e e'.
Proof.
  intros [Hc Hr Hl Hi _] Hd E Hinv HV.
  destruct (AppendJournalRecord_contract _ _ _ _ E) as (_ & _ & Hb & HL).
  destruct (HL ds Hl Hd) as [-> Hl']. split; [done|]. split.
  - constructor; rewrite ?Hb; [done..| |done]. intros k. rewrite invalidated_app, orb_true_iff.
    intros [Hk|Hk]; [by apply Hi|right; by apply Hinv].
  - apply (io_append _ _ d); [done| |done]. unfold Engine.AppendJournalRecord in E.
    destruct (Append (journal_ e) (Encode d)) as [[?|?] j]; by simplify_eq.
Qed.

Lemma holds_put e k v r e' ds :
  holds e ds → store_fits k v → Threads.store_put k v e = (r, e') →
  (∀ k', kept k' → recovered ds (<[k := v]> (store_map (backingStore_ e))) k' =
                   recovered ds (store_map (backingStore_ e)) k') →
  holds e' ds ∧ io_step e e' ∧
  store_map (backingStore_ e') =
    match r with Success _ => <[k := v]> (store_map (backingStore_ e)) | Failure _ => store_map (backingStore_ e) end.
Proof.
  intros [Hc Hr Hl Hi HV] Hfit E Hsame. unfold Threads.store_put in E.
  destruct (IBackingStore.Put (backingStore_ e) k v) as [pr b] eqn:Ep. injection E as <- <-.
  destruct (Put_reliable _ _ _ _ _ Hc Hr Hfit Ep) as [Hc' Hr'].
  destruct (Put_spec _ _ _ _ _ (store_clean_ok _ Hc) Hfit Ep) as (_ & Hm & _).
  split; [|split; [|done]].
  - constructor; cbn; [done..|]. intros k' Hk'. rewrite Hm. destruct pr; rewrite ?Hsame by done; by apply HV.
  - apply (io_put _ _ k v); cbn; [done|by rewrite Ep|done].
Qed.

Lemma holds_remove e k r e' ds :
  holds e ds → store_fits k [] → Threads.store_remove k e = (r, e') →
  (∀ k', kept k' → recovered ds (delete k (store_map (backingStore_ e))) k' =
                   recovered ds (store_map (backingStore_ e)) k') →
  holds e' ds ∧ io_step e e'.
Proof.
  intros [Hc Hr Hl Hi HV] Hfit E Hsame. unfold Threads.store_remove in E.
  destruct (IBackingStore.Remove (backingStore_ e) k) as [pr b] eqn:Ep. injection E as <- <-.
  destruct (Remove_reliable _ _ _ _ Hc Hr Hfit Ep) as [Hc' Hr'].
  destruct (Remove_spec _ _ _ _ (store_clean_ok _ Hc) Hfit Ep) as (_ & Hm & _). split.
  - constructor; cbn; [done..|]. intros k' Hk'. rewrite Hm. destruct pr; rewrite ?Hsame by done; by apply HV.
  - apply (io_remove _ _ k); cbn; [done|by rewrite Ep|done].
Qed.

Lemma holds_get e k r e' ds :
  holds e ds → Threads.store_get k e = (r, e') → holds e' ds ∧ io_step e e'.
Proof.
  intros [Hc Hr Hl Hi HV] E. unfold Threads.store_get in E.
  destruct (IBackingStore.Get (backingStore_ e) k) as [gr b] eqn:Eg. injection E as <- <-.
  destruct (Get_spec _ _ _ _ (store_clean_ok _ Hc) Eg) as (_ & Hm & Hc' & _ & _ & Hr').
  split; [constructor; cbn; [by apply Hc'|by apply Hr'|done|done|by rewrite Hm]|].
  apply (io_get _ _ k); cbn; [by rewrite Eg|done].
Qed.

(** *** Programs, block by block *)

Lemma along_ret {A} (a : A) s : along (Ret a) s.
Proof. constructor. Qed.

Lemma along_run {A C} (p : Program A) (f : A → Program C) s :
  along p s → (∀ a s', run_alone p s = Some (a, s') → along (f a) s') → along (bind p f) s.
Proof.
  unfold along. intros Hp Hf. rewrite moves_bind. apply Forall_app. split; [done|].
  destruct (run_alone p s) as [[a s']|]; [by apply Hf|done].
Qed.

Lemma along_bind {A C} (p : Program A) (f : A → Program C) s re :
  along p s → does p s re → along (f (fst re)) (Threads.set_engine s (snd re)) → along (bind p f) s.
Proof. unfold does. intros Hp E Hf. apply along_run; [done|]. intros a s'. rewrite E. by intros [= <- <-]. Qed.

(** A program that returns what its first part leaves. *)
Lemma along_map {A C} (p : Program A) (g : A → C) s : along p s → along (let! a := p in Ret (g a)) s.
Proof. intros Hp. apply along_run; [done|]. intros a s' _. apply along_ret. Qed.

Lemma along_block {A} (step : Shared B J → option (A * Shared B J)) s :
  (∀ a s', step s = Some (a, s') →
     good (engine_ s) ∧ good (engine_ s') ∧ io_step (engine_ s) (engine_ s')) →
  along (Atomic step Ret) s.
Proof.
  unfold along. cbn. intros Hs. destruct (step s) as [[a s']|]; [|done].
  constructor; [by apply (Hs a)|done].
Qed.

Lemma along_act {A} (f : CacheEngine B J → A * CacheEngine B J) s :
  good (engine_ s) → good (snd (f (engine_ s))) → io_step (engine_ s) (snd (f (engine_ s))) →
  along (Threads.act f) s.
Proof.
  intros G1 G2 Hio. apply along_block. intros a s'. destruct (f (engine_ s)) as [r e] eqn:E. by intros [= _ <-].
Qed.

Lemma along_still {A} (f : CacheEngine B J → A * CacheEngine B J) s :
  good (engine_ s) → still (engine_ s) (snd (f (engine_ s))) → along (Threads.act f) s.
Proof.
  intros Hg Hst. apply along_act; [done|by eapply still_good|]. destruct Hst. by apply io_none.
Qed.

Lemma along_wait {A} ready (f : CacheEngine B J → A * CacheEngine B J) s :
  good (engine_ s) → still (engine_ s) (snd (f (engine_ s))) → along (Threads.wait_then ready f) s.
Proof.
  intros Hg Hst. apply along_block. intros a s'. destruct (ready s); [|done].
  destruct (f (engine_ s)) as [r e] eqn:E. intros [= _ <-]. split; [done|].
  split; [by eapply still_good|]. destruct Hst. by apply io_none.
Qed.

Lemma along_still_bind {A C} (f : CacheEngine B J → A * CacheEngine B J) (p : A → Program C) s :
  good (engine_ s) → still (engine_ s) (snd (f (engine_ s))) →
  (good (snd (f (engine_ s))) → along (p (fst (f (engine_ s)))) (Threads.set_engine s (snd (f (engine_ s))))) →
  along (bind (Threads.act f) p) s.
Proof.
  intros Hg Hst Hp. eapply along_bind; [by apply along_still|apply does_act|].
  by eapply Hp, still_good.
Qed.

Lemma along_act_bind {A C} (f : CacheEngine B J → A * CacheEngine B J) (p : A → Program C) s r e :
  f (engine_ s) = (r, e) → good (engine_ s) → good e → io_step (engine_ s) e →
  along (p r) (Threads.set_engine s e) → along (bind (Threads.act f) p) s.
Proof.
  intros E Hg Hg' Hio Hp. eapply along_bind; [|apply does_act|]; rewrite ?E; [|done].
  by apply along_act; rewrite ?E.
Qed.

Lemma along_wait_bind {A C} ready (f : CacheEngine B J → A * CacheEngine B J) (p : A → Program C) s :
  good (engine_ s) → still (engine_ s) (snd (f (engine_ s))) →
  along (p (fst (f (engine_ s)))) (Threads.set_engine s (snd (f (engine_ s)))) →
  along (bind (Threads.wait_then ready f) p) s.
Proof.
  unfold along, Threads.wait_then. cbn [bind moves]. intros Hg Hst Hp. destruct (ready s); [|constructor].
  destruct (f (engine_ s)) as [a e] eqn:E. cbn [fst snd] in *. constructor; [|exact Hp].
  split; [done|]. split; [by eapply still_good|]. destruct Hst. by apply io_none.
Qed.

(** The last state is one of them. *)
Lemma along_final {A} (p : Program A) s a s' :
  good (engine_ s) → along p s → run_alone p s = Some (a, s') → good (engine_ s').
Proof.
  unfold along. revert s. induction p as [b|R step k IH]; intros s Hg Ha; cbn in *.
  - by intros [= _ <-].
  - destruct (step s) as [[r s1]|]; [|done]. apply Forall_cons in Ha as [(_ & G1 & _) Ha]. by apply IH.
Qed.

Lemma along_does {A} (p : Program A) s re :
  good (engine_ s) → along p s → does p s re → good (snd re).
Proof. intros Hg Ha E. exact (along_final p s _ _ Hg Ha E). Qed.

(** A part whose specification keeps the map: sound before, sound after. *)
Lemma along_sound {A} (p : Program A) s re :
  sound (engine_ s) → along p s → does p s re → preserves hash (engine_ s) (snd re) → sound (snd re).
Proof.
  intros Hs Ha E Hp. eapply sound_preserved; [done..|]. eapply along_does; [|done..]. by apply sound_good.
Qed.
End crash.

(** *** The operations *)

Section operations.
Context {B J : Type} `{BackingStoreSpec B} `{JournalSpec J}.
Context (hash : string → Z) (ds0 : list CacheJournalRecord) (I : string → Prop) (V : string → option bytes → Prop).
Implicit Types (e : CacheEngine B J) (s : Shared B J).

Abbreviation sound := (sound hash ds0 V).
Abbreviation good := (good ds0 I V).
Abbreviation holds := (holds ds0 I V).
Abbreviation along := (along ds0 I V).
Abbreviation kept k := (invalidated ds0 k = false).

Lemma flush_failed_along k ver err s : good (engine_ s) → along (Threads.flush_failed hash k ver err) s.
Proof.
  intros Hg. unfold Threads.flush_failed. apply along_still_bind; [done..|]. intros Hg1.
  apply along_still_bind; [done..|]. intros _. apply along_ret.
Qed.

(** A flush that begins on an entry the journal still has pending. *)
Lemma FlushKey_along k ev cv s : sound (engine_ s) → along (Threads.FlushKey hash k ev cv) s.
Proof.
  intros Hs. pose proof (sd_engine _ _ _ _ Hs) as He. destruct (sd_durable _ _ _ _ Hs) as (ds & Hd & Hf).
  pose proof (sound_holds hash ds0 I V _ ds Hs Hd Hf) as Hh. unfold Threads.FlushKey.
  assert (still (engine_ s) (snd (Threads.begin_flush hash k ev cv (engine_ s)))) as Hst.
  { unfold Threads.begin_flush. by destruct (flush_begin _ _ _ _) as [[r|x] sh]. }
  apply along_still_bind; [by eexists|exact Hst|]. intros _. pose proof (still_holds _ _ _ _ _ _ Hst Hh) as Hh1.
  unfold Threads.begin_flush in *. destruct (flush_begin _ k ev cv) as [[r|[v ver]] sh] eqn:Eb; [apply along_ret|].
  cbn [fst snd] in *. set (e1 := set_shard _ _ sh) in *.
  pose proof (flush_begin_engine hash _ _ _ _ _ _ (engine_shards hash _ He) Eb) as (Hg & _).
  assert (journalable (mkEntry k v ver Dirty)) as (Hk & Hv & Hver) by (exact (eo_coherent hash _ He k _ Hg)).
  assert (∀ k', kept k' → k' = k →
    ∃ st, pending_of (ds ++ [intent k ver]) !! k = Some (mkPending v ver st)) as Hpend.
  { intros k' Hk' ->. pose proof (proj2 Hd k (fewer_kept ds0 ds k Hf Hk')) as Hj. rewrite Hg in Hj.
    destruct Hj as [st Hp]. by destruct (pending_intent ds k ver _ Hp) as [st' ?]; exists st'. }
  destruct (Engine.AppendJournalRecord e1 (intent k ver)) as [r1 e2] eqn:E1.
  destruct (holds_append ds0 I V e1 (intent k ver) r1 e2 ds Hh1) as (-> & Hh2 & Hio2);
    [by apply flush_record_ok|done|done|intros k' Hk'; rewrite recovered_intent; by apply Hh1|].
  eapply along_act_bind; [exact E1|by eexists|by eexists|done|].
  destruct (Threads.store_put k v e2) as [r2 e3] eqn:E2.
  destruct (holds_put ds0 I V e2 k v r2 e3 _ Hh2) as (Hh3 & Hio3 & Hm); [by apply journalable_fits|done| |].
  { intros k' Hk'. apply recovered_store. intros ->. by destruct (Hpend k Hk' eq_refl) as [st ?]; eauto. }
  eapply along_act_bind; [exact E2|by eexists|by eexists|done|].
  destruct r2 as [[]|err]; [|apply flush_failed_along; by eexists].
  destruct (Engine.AppendJournalRecord e3 (complete k ver)) as [r3 e4] eqn:E3.
  destruct (holds_append ds0 I V e3 (complete k ver) r3 e4 _ Hh3) as (-> & Hh4 & Hio4); [by apply flush_record_ok|done|done| |].
  { intros k' Hk'. destruct (decide (k' = k)) as [->|Hne].
    - destruct (Hpend k Hk' eq_refl) as [st Hp]. erewrite recovered_complete; [by apply Hh3|].
      intros _. split; [exact Hp|]. rewrite Hm, lookup_insert_eq. split; [|done].
      rewrite invalidated_app, orb_false_r. by apply (fewer_kept ds0).
    - rewrite (recovered_complete _ k v ver Dirty) by done. by apply Hh3. }
  eapply along_act_bind; [exact E3|by eexists|by eexists|done|].
  apply along_still_bind; [by eexists|done|]. intros Hg5.
  apply along_still_bind; [done..|]. intros _. apply along_ret.
Qed.

Lemma sound_flush e k ev cv r e' : sound e → Engine.FlushKey hash e k ev cv = (r, e') → sound e'.
Proof.
  intros Hs E. set (s := mkShared e NotStarted false).
  pose proof (FlushKey_does hash k ev cv s) as Hdo. cbn [engine_ s] in Hdo. rewrite E in Hdo.
  apply (along_sound hash ds0 I V _ s _ Hs (FlushKey_along k ev cv s Hs) Hdo).
  apply quiet_preserves. eapply FlushKey_quiet; [apply Hs|exact E].
Qed.

Lemma FlushKey_bind {A} (f : Result unit → Prog (Shared B J) A) k ev cv s :
  sound (engine_ s) →
  (∀ r e, Engine.FlushKey hash (engine_ s) k ev cv = (r, e) → sound e → along (f r) (Threads.set_engine s e)) →
  along (bind (Threads.FlushKey hash k ev cv) f) s.
Proof.
  intros Hs Hf. eapply along_bind; [by apply FlushKey_along|apply FlushKey_does|].
  apply Hf; [apply surjective_pairing|]. eapply sound_flush; [exact Hs|apply surjective_pairing].
Qed.

Lemma evict_still e i : still e (Engine.evict e i).
Proof. unfold Engine.evict. by destruct (EvictCleanEntriesLocked _ _ _ _). Qed.

Lemma sound_evict e i : sound e → (i < length (shards_ e))%nat → sound (Engine.evict e i).
Proof.
  intros Hs Hi. eapply sound_same_store; [exact Hs| |apply evict_still].
  apply quiet_preserves, evict_quiet; [apply Hs|done].
Qed.

Lemma relieve_along n i s :
  sound (engine_ s) → (i < length (shards_ (engine_ s)))%nat → along (Threads.relieve_loop hash n i) s.
Proof.
  revert s. induction n as [|n IH]; intros s Hs Hi; cbn [Threads.relieve_loop]; [apply along_ret|].
  pose proof (sound_good _ _ I _ _ Hs) as Hg.
  assert (still (engine_ s) (snd (Threads.relieve_pick i (engine_ s)))) as Hst.
  { unfold Threads.relieve_pick. destruct (negb _); [done|]. by destruct (String.eqb _ _); [apply evict_still|]. }
  apply along_still_bind; [done|exact Hst|]. intros _. clear Hst. unfold Threads.relieve_pick.
  destruct (negb _); [apply along_ret|]. destruct (String.eqb _ _); [apply along_ret|]. cbn [fst snd].
  apply FlushKey_bind; [done|]. intros r e2 E2 Hs2. cbn [engine_ Threads.set_engine] in E2.
  destruct (FlushKey_quiet hash _ _ _ _ _ _ (sd_engine _ _ _ _ Hs) E2) as (_ & F2 & _).
  assert (i < length (shards_ e2))%nat as Hi2 by (destruct F2 as (_ & _ & _ & _ & _ & _ & _ & ->); done).
  apply along_still_bind; [by eapply sound_good|apply evict_still|]. intros _. cbn [Threads.relieve_evict fst snd].
  destruct r as [[]|err]; [|apply along_ret]. destruct (_ <=? _); [apply along_ret|].
  apply IH; [by apply sound_evict|]. cbn [engine_ Threads.set_engine].
  pose proof (evict_quiet hash e2 i (sd_engine _ _ _ _ Hs2) Hi2) as (_ & F3 & _).
  destruct F3 as (_ & _ & _ & _ & _ & _ & _ & ->). done.
Qed.

Lemma Get_along k s : sound (engine_ s) → along (Threads.Get hash k) s.
Proof.
  intros Hs. pose proof (sound_good _ _ I _ _ Hs) as Hg. unfold Threads.Get.
  apply along_still_bind; [done..|]. intros _. cbn [fst snd].
  destruct (Engine.CheckReadyForRead _) as [[]|err]; [|apply along_ret].
  apply along_still_bind; [done..|]. intros _. cbn [fst snd]. destruct (negb _); [apply along_ret|].
  apply along_still_bind; [done| |].
  { cbn [engine_ Threads.set_engine]. unfold Engine.Get_lookup. by destruct (find _ _) as [[it en]|]. }
  intros Hg1. destruct (Engine.Get_lookup hash _ k) as [[v|fence] e1]; cbn [fst snd] in *; [apply along_ret|].
  apply along_still_bind; [done..|]. intros (ds & Hh2). cbn [fst snd] in *.
  destruct (Threads.store_get k (count Miss e1)) as [r e3] eqn:E3.
  destruct (holds_get _ _ _ _ _ _ _ _ Hh2 E3) as [Hh3 Hio].
  eapply along_act_bind; [exact E3|by eexists|by eexists|done|].
  destruct r as [v|err]; [|apply along_ret]. destruct (_ <? _); [apply along_ret|].
  apply along_still_bind; [by eexists| |intros _; apply along_ret].
  cbn [engine_ Threads.set_engine]. unfold Engine.Get_fill, Engine.insert_or_update.
  destruct (_ =? _); [by destruct (InsertOrUpdateLocked _ _ _ _ _ _ _ _ _)|]. by destruct (find _ _) as [[it en]|].
Qed.

(** An admitted write: its body, and blocks that touch no device around it. *)
Lemma admitted_write_along (body : Prog (Shared B J) (Result unit)) s :
  sound (engine_ s) →
  (∀ s', core_eq (engine_ s) (engine_ s') → sound (engine_ s') → along body s') →
  along (Threads.admitted_write body) s.
Proof.
  intros Hs Hbody. unfold Threads.admitted_write, Threads.TryAdmitWrite.
  pose proof (admit_core (engine_ s)) as Hc. pose proof (sound_core hash ds0 V _ _ Hs Hc) as Hs1.
  pose proof (sound_good _ _ I _ _ Hs) as Hg. unfold CrashPoints.along, Threads.wait_then. cbn [bind moves].
  destruct (negb _); [|constructor]. destruct (Engine.TryAdmitWrite (engine_ s)) as [ok e1]. cbn [snd] in *.
  constructor.
  { cbn. split; [done|]. split; [by eapply sound_good|]. destruct (core_still _ _ Hc). by apply io_none. }
  destruct ok; cbn [negb]; [|constructor]. set (s1 := Threads.set_engine s e1).
  fold (CrashPoints.along ds0 I V (bind body (λ r, let! _ := Threads.ReleaseWriteAdmission in Ret r)) s1).
  pose proof (Hbody s1 Hc Hs1) as Ha. apply along_run; [done|]. intros r s2 E.
  apply along_still_bind; [by eapply along_final; [eapply sound_good|exact Ha|exact E]| |].
  - apply core_still, release_core.
  - intros _. apply along_ret.
Qed.

(** The insertion after the record of the write is in the journal. *)
Lemma insert_dirty_sound k v e e1 ds :
  let ver := globalVersionCounter_ e + 1 in
  sound e → version_room e → op_fits (OpPut k v) → (kept k → V k (Some v)) →
  durable hash e ds → fewer_invalidated ds0 ds →
  shards_ e1 = shards_ e → backingStore_ e1 = backingStore_ e → globalVersionCounter_ e1 = ver →
  holds e1 (ds ++ [upsert k v ver]) →
  still e1 (Threads.insert_dirty hash k v ver e1) ∧ sound (Threads.insert_dirty hash k v ver e1).
Proof.
  intros ver Hs Hroom [Hk Hv] HV Hd Hf S1 B1 V1 Hh1. pose proof (sd_engine _ _ _ _ Hs) as He.
  destruct (put_insert hash e k v He Hroom Hk Hv e1 S1 B1 V1) as (He2 & Hu & Hdur). fold ver in He2, Hu, Hdur.
  specialize (Hdur ds Hd (hd_log _ _ _ _ _ Hh1)).
  change (Engine.insert_or_update e1 (Engine.ShardFor hash e1 k) k v ver Dirty true) with (Threads.insert_dirty hash k v ver e1) in *.
  set (e2 := Threads.insert_dirty hash k v ver e1) in *.
  assert (still e1 e2) as Hst2.
  { unfold e2, Threads.insert_dirty, Engine.insert_or_update. by destruct (InsertOrUpdateLocked _ _ _ _ _ _ _ _ _). }
  split; [exact Hst2|]. pose proof (still_holds _ _ _ _ _ _ Hst2 Hh1) as [? ? ? ? ?]. constructor; [done..| |].
  - intros k' Hk'. rewrite Hu. destruct (decide (k' = k)) as [->|]; [by apply HV|]. by apply Hs.
  - exists (ds ++ [upsert k v ver]). split; [done|]. intros k'. rewrite invalidated_app, orb_false_r. apply Hf.
Qed.

(** What follows it: the relief, and the flush of a write-through. *)
Lemma put_rest_along k ver s :
  sound (engine_ s) →
  along (let! i := Threads.read (λ e, Engine.ShardFor hash e k) in
         let! _ := Threads.relieve_loop hash kMaxFlushAttemptsPerCall i in
         let! policy := Threads.read (λ e, writePolicy (options_ e)) in
         match policy with
         | WritePolicyKind.WriteThrough => Threads.FlushKey hash k ver true
         | WritePolicyKind.WriteBackDeferred => Ret (Success tt)
         end) s.
Proof.
  intros Hs. pose proof (sd_engine _ _ _ _ Hs) as He. pose proof (sound_good _ _ I _ _ Hs) as Hg.
  apply along_still_bind; [done..|]. intros _. cbn [fst snd]. set (s3 := Threads.set_engine s (engine_ s)).
  pose proof (ShardFor_lt hash _ k (eo_some hash _ He)) as Hi.
  eapply along_bind; [by apply relieve_along|apply relieve_does|]. cbn [fst snd engine_ Threads.set_engine s3].
  pose proof (relieve_along kMaxFlushAttemptsPerCall _ s3 Hs Hi) as Ha3.
  pose proof (along_sound hash ds0 I V _ s3 _ Hs Ha3 (relieve_does hash _ _ s3)
                (quiet_preserves hash _ _ (relieve_quiet hash _ _ _ He Hi))) as Hs3.
  apply along_still_bind; [by eapply sound_good|done|]. intros _. cbn [fst snd engine_ Threads.set_engine].
  destruct (writePolicy _); [by apply FlushKey_along|apply along_ret].
Qed.

Lemma Put_admitted_along k v s :
  sound (engine_ s) → version_room (engine_ s) → op_fits (OpPut k v) → (kept k → V k (Some v)) →
  along (Threads.Put_admitted hash k v) s.
Proof.
  intros Hs Hroom Hfit HV. pose proof (sd_engine _ _ _ _ Hs) as He.
  destruct (sd_durable _ _ _ _ Hs) as (ds & Hd & Hf). pose proof (sound_holds hash ds0 I V _ ds Hs Hd Hf) as Hh.
  unfold Threads.Put_admitted. set (e := engine_ s) in *. pose proof (eo_counter hash e He) as Hcnt.
  pose proof Hroom as Hroom'. unfold version_room in Hroom'. set (ver := globalVersionCounter_ e + 1).
  assert (record_ok (upsert k v ver)) as Hrec
    by (destruct Hfit; constructor; cbn; [done|unfold in_width, ver; lia|done|done]).
  destruct (Engine.AppendJournalRecord (set_version e ver) (upsert k v ver)) as [r1 e1] eqn:E1.
  assert (Threads.append_upsert k v e = (r1, ver, e1)) as E.
  { unfold Threads.append_upsert, Engine.AppendJournalRecordWithNewVersion.
    rewrite wrap_small by (unfold in_width, ver; cbn; lia). fold ver. cbn [rec_formatVersion rec_type rec_key rec_value].
    unfold upsert in E1. by rewrite E1. }
  assert (still e (set_version e ver)) as Hst0 by done.
  destruct (AppendJournalRecord_contract _ _ _ _ E1) as (S1 & F1 & B1 & _).
  destruct (holds_append ds0 I V (set_version e ver) (upsert k v ver) r1 e1 ds) as (-> & Hh1 & Hio); try done.
  { by eapply still_holds. }
  { intros k' Hk'. rewrite recovered_upsert. destruct (decide (k' = k)) as [->|]; [by apply HV|]. by apply Hh. }
  eapply along_act_bind; [exact E|by eexists|by eexists|by destruct Hio; econstructor; eauto|].
  assert (globalVersionCounter_ e1 = ver) as V1 by (by destruct F1 as (_ & _ & _ & ? & _)).
  destruct (insert_dirty_sound k v e e1 ds Hs Hroom Hfit HV Hd Hf S1 B1 V1 Hh1) as [Hst2 Hs2].
  apply along_still_bind; [by eexists|exact Hst2|]. intros _. cbn [fst snd]. apply put_rest_along. exact Hs2.
Qed.

Lemma Put_along k v s :
  sound (engine_ s) → version_room (engine_ s) → op_fits (OpPut k v) → (kept k → V k (Some v)) →
  along (Threads.Put hash k v) s.
Proof.
  intros Hs Hroom Hfit HV. pose proof (sound_good _ _ I _ _ Hs) as Hg. unfold Threads.Put.
  apply along_still_bind; [done..|]. intros _. cbn [fst snd].
  destruct (Engine.CheckReadyForWrite _) as [[]|err]; [|apply along_ret].
  apply along_still_bind; [done..|]. intros _. cbn [fst snd]. destruct (negb _); [apply along_ret|].
  apply admitted_write_along; [done|]. intros s' Hc Hs'. apply Put_admitted_along; [done| |done|done].
  destruct Hc as (_ & _ & _ & Hv). unfold version_room in *. rewrite Hv. exact Hroom.
Qed.

Lemma Invalidate_along k force s :
  sound (engine_ s) → str_size k ≤ kMaxReasonableLength → I k → (kept k → V k None) →
  along (Threads.InvalidateImpl hash k force) s.
Proof.
  intros Hs Hk HI HV. unfold Threads.InvalidateImpl.
  apply along_still_bind; [by eapply sound_good|done|]. intros _. cbn [fst snd].
  destruct (Engine.CheckReadyForWrite _) as [[]|err]; [|apply along_ret].
  apply admitted_write_along; [done|]. intros s1 _ Hs1. clear Hs. rename Hs1 into Hs. pose proof (sd_engine _ _ _ _ Hs) as He.
  destruct (sd_durable _ _ _ _ Hs) as (ds & Hd & Hf). pose proof (sound_holds hash ds0 I V _ ds Hs Hd Hf) as Hh.
  unfold Threads.Invalidate_admitted. apply along_still_bind; [by eexists|done|]. intros _. cbn [fst snd].
  destruct (Engine.Invalidate_peek hash (engine_ s1) k force) as [ver|] eqn:Ep; [|apply along_ret].
  destruct (Invalidate_peek_version hash _ _ _ _ He Ep) as [Hver _].
  destruct (Engine.AppendJournalRecord (engine_ s1) (invalidate_record k ver)) as [r1 e1] eqn:E1.
  destruct (holds_append ds0 I V _ (invalidate_record k ver) r1 e1 ds Hh) as (-> & Hh1 & Hio1); [by constructor|done| | |].
  { intros k'. cbn. rewrite orb_false_r. by intros <-%String.eqb_eq. }
  { intros k' Hk'. rewrite (recovered_invalidate ds k ver (store_map (backingStore_ (engine_ s1)))) by done.
    destruct (decide (k' = k)) as [->|]; [by apply HV|by apply Hh]. }
  eapply along_act_bind; [exact E1|by eexists|by eexists|done|].
  destruct (Threads.store_remove k e1) as [r2 e2] eqn:E2.
  destruct (holds_remove ds0 I V e1 k r2 e2 _ Hh1) as [Hh2 Hio2]; [by apply journalable_fits|done| |].
  { intros k' Hk'. rewrite !(recovered_invalidate ds k ver (store_map (backingStore_ e1))); [done|done|].
    intros Hne. by rewrite lookup_delete_ne. }
  eapply along_act_bind; [exact E2|by eexists|by eexists|done|].
  destruct r2 as [[]|err]; [|apply along_ret].
  apply along_still_bind; [by eexists|done|]. intros Hg3.
  apply along_still_bind; [done..|]. intros _. apply along_ret.
Qed.

Lemma flush_keys_along keys last s : sound (engine_ s) → along (Threads.flush_keys hash keys last) s.
Proof.
  revert last s. induction keys as [|k keys IH]; intros last s Hs; cbn [Threads.flush_keys]; [apply along_ret|].
  apply FlushKey_bind; [done|]. intros r e _ Hs'. by apply IH.
Qed.

Lemma flush_shards_along ixs last s : sound (engine_ s) → along (Threads.flush_shards hash ixs last) s.
Proof.
  revert last s. induction ixs as [|i ixs IH]; intros last s Hs; cbn [Threads.flush_shards]; [apply along_ret|].
  apply along_still_bind; [by eapply sound_good|done|]. intros _. cbn [fst snd].
  set (s1 := Threads.set_engine s (engine_ s)).
  pose proof (flush_keys_does hash (Engine.dirty_keys (shard_at (engine_ s) i)) last s1) as Hdo.
  pose proof (flush_keys_along (Engine.dirty_keys (shard_at (engine_ s) i)) last s1 Hs) as Ha.
  eapply along_bind; [exact Ha|exact Hdo|]. apply IH. eapply (along_sound hash ds0 I V _ s1); [done..|].
  eapply quiet_preserves, flush_keys_quiet; [apply Hs|apply surjective_pairing].
Qed.

Lemma sum_dirty_along ixs acc s : good (engine_ s) → along (Threads.sum_dirty ixs acc) s.
Proof.
  revert acc s. induction ixs as [|i ixs IH]; intros acc s Hg; cbn [Threads.sum_dirty]; [apply along_ret|].
  apply along_still_bind; [done..|]. intros _. by apply IH.
Qed.

Lemma sum_dirty_bind {A} (f : Z → Prog (Shared B J) A) s :
  good (engine_ s) → along (f (Engine.total_dirty (engine_ s))) (Threads.set_engine s (engine_ s)) →
  along (bind (Threads.sum_dirty (Threads.shard_indexes (engine_ s)) 0) f) s.
Proof.
  intros Hg Hf. eapply along_bind; [by apply sum_dirty_along|apply sum_dirty_does|]. by rewrite sum_is_total_dirty.
Qed.

(** Emptying the journal of an engine without dirty entries. *)
Lemma sound_truncate e :
  sound e → entry_count e < 2 ^ 64 → Engine.total_dirty e = 0 →
  sound (set_journal e (snd (Truncate (journal_ e)))).
Proof. intros Hs Hc Hz. eapply sound_same_store; [exact Hs| |done]. apply truncate_preserves; [apply Hs|done|done]. Qed.

Lemma TryCompact_along s :
  sound (engine_ s) → entry_count (engine_ s) < 2 ^ 64 → along Threads.TryCompactJournalIfFullyClean s.
Proof.
  intros Hs Hc. unfold Threads.TryCompactJournalIfFullyClean.
  apply along_still_bind; [by eapply sound_good|done|]. intros _. cbn [fst snd].
  destruct (RecordCount _ =? 0); [apply along_ret|].
  apply along_still_bind; [by eapply sound_good|done|]. intros Hg1. cbn [fst snd engine_ Threads.set_engine] in *.
  set (e1 := set_admission (engine_ s) _ true) in *.
  assert (sound e1) as Hs1 by (by apply (sound_core hash ds0 V (engine_ s))).
  apply along_wait_bind; [done..|]. cbn [fst snd engine_ Threads.set_engine].
  apply along_still_bind; [done..|]. intros _. cbn [fst snd engine_ Threads.set_engine].
  set (s1 := Threads.set_engine _ e1). apply (sum_dirty_bind _ s1); [done|].
  destruct (Z.eqb_spec (Engine.total_dirty (engine_ s1)) 0) as [Hz|]; [|by apply along_still].
  cbn [engine_ Threads.set_engine s1] in *.
  destruct (Threads.compact_journal e1) as [b e2] eqn:E. unfold Threads.compact_journal in E.
  pose proof (sound_truncate e1 Hs1 Hc Hz) as Ht. apply (sound_good _ _ I) in Ht.
  destruct (RecordCount (journal_ e1) =? 0) eqn:Er; injection E as <- <-.
  - eapply along_act_bind; [cbn; unfold Threads.compact_journal; by rewrite Er|done|by apply (still_good ds0 I V e1)|by apply io_none|].
    apply along_ret.
  - eapply along_act_bind; [cbn; unfold Threads.compact_journal; by rewrite Er|done|done|by apply io_truncate|].
    by apply along_still.
Qed.

Lemma FlushAll_along s :
  sound (engine_ s) → entry_count (engine_ s) < 2 ^ 64 → along (Threads.FlushAll hash) s.
Proof.
  intros Hs Hc. pose proof (sound_good _ _ I _ _ Hs) as Hg. unfold Threads.FlushAll.
  apply along_still_bind; [done..|]. intros _. cbn [fst snd].
  destruct (Engine.CheckReadyForRead _) as [[]|err]; [|apply along_ret].
  apply along_still_bind; [done..|]. intros _. cbn [fst snd engine_ Threads.set_engine].
  set (s1 := Threads.set_engine _ (engine_ s)). set (ixs := Threads.shard_indexes _).
  pose proof (flush_shards_does hash ixs None s1) as Hdo. pose proof (flush_shards_along ixs None s1 Hs) as Ha.
  destruct (Engine.flush_shards hash (engine_ s1) ixs None) as [last e2] eqn:E2.
  pose proof (flush_shards_quiet hash _ _ _ _ _ (sd_engine _ _ _ _ Hs) E2) as Q.
  eapply along_bind; [exact Ha|exact Hdo|]. cbn [fst snd]. destruct last as [err|]; [apply along_ret|].
  apply along_map, TryCompact_along; cbn [engine_ Threads.set_engine].
  - by apply (along_sound hash ds0 I V _ s1 _ Hs Ha Hdo), quiet_preserves.
  - destruct Q as (_ & _ & Hn & _). lia.
Qed.

Lemma Stop_along s : good (engine_ s) → along Threads.StopBackgroundFlushThread s.
Proof.
  intros Hg. unfold Threads.StopBackgroundFlushThread. eapply along_run.
  { apply along_block. intros a s'. intros [= _ <-]. split; [done|]. split; [done|]. by apply io_none. }
  intros [] s1 [= Hj <-]; cbn [negb]; [|apply along_ret].
  eapply along_run.
  { apply along_block. intros a s'. intros [= _ <-]. split; [done|]. split; [done|]. by apply io_none. }
  intros [] s2 [= <-]. apply along_block. intros a s'. case_bool_decide; [done|]. intros [= _ <-].
  split; [done|]. split; [done|]. by apply io_none.
Qed.

Lemma Shutdown_along s :
  sound (engine_ s) → entry_count (engine_ s) < 2 ^ 64 → quiescent s → along (Threads.Shutdown hash) s.
Proof.
  intros Hs Hc (_ & Hn & Hb). unfold Threads.Shutdown.
  assert (core_eq (engine_ s) (snd (Threads.begin_stop (engine_ s)))) as Hcore
    by (unfold Threads.begin_stop; by destruct (lifecycle_ (engine_ s))).
  pose proof (sound_core hash ds0 V _ _ Hs Hcore) as Hs1. pose proof (sound_good _ _ I _ _ Hs1) as Hg1.
  apply along_still_bind; [by eapply sound_good|by apply core_still|]. intros _.
  unfold Threads.begin_stop in *. destruct (lifecycle_ (engine_ s)); cbn [fst snd] in *; try apply along_ret.
  set (e1 := set_lifecycle (engine_ s) Stopping) in *.
  apply along_wait_bind; [done..|]. cbn [fst snd engine_ Threads.set_engine]. set (s1 := Threads.set_engine _ e1).
  apply along_run; [by apply Stop_along|]. intros [] s2 E2.
  assert (engine_ s2 = e1) as Es2.
  { destruct (Stop_alone s1 Hb) as (s2' & E2' & Ee). rewrite E2 in E2'. by injection E2' as ->. }
  assert (Hflush : along (Threads.FlushAll hash) s2) by (apply FlushAll_along; by rewrite Es2).
  pose proof (FlushAll_does hash s2 ltac:(by rewrite Es2)) as Hdo. rewrite Es2 in Hdo.
  destruct (Engine.FlushAll hash e1) as [fr e3] eqn:E3.
  destruct (FlushAll_contract hash e1 fr e3 (sd_engine _ _ _ _ Hs1) Hc E3) as [P3 [N3 _]].
  assert (sound e3) as Hs3.
  { apply (along_sound hash ds0 I V _ s2 _ ltac:(by rewrite Es2) Hflush Hdo). by rewrite Es2. }
  eapply along_bind; [exact Hflush|exact Hdo|]. cbn [fst snd].
  apply along_still_bind; [by eapply sound_good|done|]. intros Hg4. cbn [fst snd engine_ Threads.set_engine] in *.
  assert (sound (set_lifecycle e3 Stopped)) as Hs4 by (by apply (sound_core hash ds0 V e3)).
  apply along_still_bind; [done..|]. intros _. cbn [fst snd engine_ Threads.set_engine].
  set (s5 := Threads.set_engine _ (set_lifecycle e3 Stopped)). apply (sum_dirty_bind _ s5); [done|].
  destruct (Z.eqb_spec (Engine.total_dirty (engine_ s5)) 0) as [Hz|]; [|apply along_ret].
  assert (entry_count (set_lifecycle e3 Stopped) < 2 ^ 64) as Hc4.
  { change (entry_count e3 < 2 ^ 64). change (entry_count e1) with (entry_count (engine_ s)) in N3. lia. }
  eapply along_act_bind; [reflexivity|done| |by apply io_truncate|apply along_ret].
  by eapply sound_good, sound_truncate.
Qed.

(** Every operation, from a state in which nothing else runs. *)
Lemma op_along op s :
  sound (engine_ s) → quiescent s → room (engine_ s) 1 → op_fits op →
  (∀ k, invalidates op = Some k → I k ∧ (kept k → V k None)) →
  (∀ k v, op = OpPut k v → kept k → V k (Some v)) →
  along (Threads.op_prog hash op) s.
Proof.
  intros Hs Hq [Rv Rc] Hfit HI HV. pose proof (sound_good _ _ I _ _ Hs) as Hg.
  destruct op as [k|k v|k|k|k| | |]; cbn [Threads.op_prog]; try apply along_map.
  - by apply Get_along.
  - apply Put_along; [done|exact Rv|done|by apply HV].
  - destruct (HI k eq_refl). by apply Invalidate_along.
  - destruct (HI k eq_refl). by apply Invalidate_along.
  - unfold Threads.Flush. apply along_still_bind; [done..|]. intros _. cbn [fst snd].
    destruct (Engine.CheckReadyForRead _) as [[]|err]; [by apply FlushKey_along|apply along_ret].
  - apply FlushAll_along; [done|lia].
  - apply Shutdown_along; [done|lia|done].
  - unfold Threads.MarkRecoveryComplete. apply along_still_bind; [done..|]. intros _. cbn [fst snd].
    destruct (lifecycle_ _); try apply along_ret.
    apply along_still_bind; [done..|]. intros Hg1. cbn [fst snd engine_ Threads.set_engine] in *.
    eapply along_run; [|intros ? ? _; apply along_ret]. apply along_block. intros a s'. intros [= _ <-].
    assert (∀ x : Shared B J, engine_ (Threads.StartBackgroundFlushThreadIfConfigured x) = engine_ x) as Hsame.
    { intros x. unfold Threads.StartBackgroundFlushThreadIfConfigured. by repeat case_match. }
    rewrite Hsame. split; [done|]. split; [done|]. by apply io_none.
Qed.
End operations.

(** ** Every operation is crash-atomic *)

(** What a power cut inside an operation may make of the value of a key. *)
Definition may_become (op : Operation) (k : string) (o o' : option bytes) : Prop :=
  o' = o ∨
  match op with
  | OpPut k' v => k' = k ∧ o' = Some v
  | OpInvalidate k' | OpForceInvalidate k' => k' = k ∧ o' = None
  | _ => False
  end.

Section atomic.
Context {B J : Type} `{BackingStoreSpec B} `{JournalSpec J}.
Context (hash : string → Z).
Implicit Types (e : CacheEngine B J) (s : Shared B J).

(** What the devices hold at the moment of the cut. *)
Abbreviation cut_holds e op ds := (holds ds (λ k, invalidates op = Some k) (λ k, may_become op k (view hash e k))).

Lemma op_holds s ds op s1 s2 :
  EngineFacts.engine_ok hash (engine_ s) → durable hash (engine_ s) ds →
  store_clean (backingStore_ (engine_ s)) → store_reliable (backingStore_ (engine_ s)) →
  quiescent s → room (engine_ s) 1 → op_fits op → (s1, s2) ∈ moves (Threads.op_prog hash op) s →
  io_step (engine_ s1) (engine_ s2) ∧
  ∃ ds1 ds2, cut_holds (engine_ s) op ds (engine_ s1) ds1 ∧ cut_holds (engine_ s) op ds (engine_ s2) ds2.
Proof.
  intros He Hd Hc Hr Hq Hroom Hfit Hin.
  assert (sound hash ds (λ k, may_become op k (view hash (engine_ s) k)) (engine_ s)) as Hs.
  { constructor; [done..|by intros k _; left|exists ds; split; [done|by intros k]]. }
  assert (∀ k, invalidates op = Some k → invalidates op = Some k ∧
    (invalidated ds k = false → may_become op k (view hash (engine_ s) k) None)) as HI.
  { intros k Hop. split; [done|]. intros _. right. destruct op; by simplify_eq/=. }
  pose proof (op_along hash ds (λ k, invalidates op = Some k) _ op s Hs Hq Hroom Hfit HI) as Ha.
  unfold along in Ha. rewrite Forall_forall in Ha. apply Ha in Hin as ((ds1 & ?) & (ds2 & ?) & ?); [eauto|].
  intros k v -> _. right. by split.
Qed.

(** C4: Every operation is atomic under power cuts.  An operation that runs
    alone passes from block to block, each making at most one call of the
    journal or the store; whatever the block before which, or after which, the
    power fails, a restart on the journal and the store as they then are finds
    every key that was not invalidated since the journal was last emptied with
    its value from before the operation, or with the one the operation gives
    it: a write is there or not, an invalidation took effect or not, and a
    flush, an eviction, a compaction or a shutdown cut anywhere loses nothing. *)
Theorem operation_crash_atomic s ds op s1 s2 :
  EngineFacts.engine_ok hash (engine_ s) → durable hash (engine_ s) ds →
  store_clean (backingStore_ (engine_ s)) → store_reliable (backingStore_ (engine_ s)) →
  quiescent s → room (engine_ s) 1 → op_fits op → (s1, s2) ∈ moves (Threads.op_prog hash op) s →
  io_step (engine_ s1) (engine_ s2) ∧
  ∀ e', e' = engine_ s1 ∨ e' = engine_ s2 →
    ∃ ds', log_is (journal_ e') ds' ∧ store_clean (backingStore_ e') ∧
      ∀ k, invalidated ds k = false →
        may_become op k (view hash (engine_ s) k) (recovered ds' (store_map (backingStore_ e')) k).
Proof.
  intros He Hd Hc Hr Hq Hroom Hfit Hin.
  destruct (op_holds s ds op s1 s2 He Hd Hc Hr Hq Hroom Hfit Hin) as (Hio & ds1 & ds2 & [C1 _ L1 _ V1] & [C2 _ L2 _ V2]).
  split; [done|]. intros e' [-> | ->]; eauto.
Qed.
End atomic.

(** ** The files a power cut leaves *)

Section files.
Context {F : Type} `{IFileSpec F}.
Abbreviation Store := (FileBackingStore.FileBackingStore F).
Abbreviation Journal := (WriteAheadJournal F).
Implicit Types (e : CacheEngine Store Journal).

(** The journal file and the data file when the power fails between [e] and
    [e'], one block apart: as one of the two has them, or in the middle of the
    device call the block makes. *)
Inductive cut_files e e' : F → F → Prop :=
  | cut_before : cut_files e e' (file_ (journal_ e)) (FileBackingStore.file_ (backingStore_ e))
  | cut_after : cut_files e e' (file_ (journal_ e')) (FileBackingStore.file_ (backingStore_ e'))
  | cut_append d f :
      record_ok d → journal_ e' = snd (Append (journal_ e) (Encode d)) → backingStore_ e' = backingStore_ e →
      f ∈ Append_files (journal_ e) (Encode d) →
      cut_files e e' f (FileBackingStore.file_ (backingStore_ e))
  | cut_truncate f :
      journal_ e' = snd (Truncate (journal_ e)) → backingStore_ e' = backingStore_ e →
      f ∈ Truncate_files (journal_ e) →
      cut_files e e' f (FileBackingStore.file_ (backingStore_ e))
  | cut_store k v tb f :
      store_fits k v → backingStore_ e' = snd (FileBackingStore.AppendRecord (backingStore_ e) k v tb) →
      journal_ e' = journal_ e → f ∈ AppendRecord_files (backingStore_ e) k v tb →
      cut_files e e' (file_ (journal_ e)) f.

Lemma log_is_functional (j : Journal) ds ds' : log_is j ds → log_is j ds' → ds' = ds.
Proof.
  intros (_ & _ & Ha) (_ & _ & Hb). revert ds' Hb.
  induction Ha as [|r d rs ds Hd Ha IH]; intros ds' Hb; inversion Hb as [|? d' ? ds1 Hd' Hb']; subst; [done|].
  f_equal; [congruence|by apply IH].
Qed.

(** The records of a torn journal are those before or those after. *)
Lemma cut_journal (j j' : Journal) d ds ds' f c :
  log_is j ds → log_is j' ds' → record_ok d → j' = snd (Append j (Encode d)) →
  f ∈ Append_files j (Encode d) → crash_image f c →
  ∃ ds1, (ds1 = ds ∨ ds1 = ds') ∧ Forall2 (λ r d, Decode (payload r) = Success d) (frames_of c) ds1.
Proof.
  intros Hl Hl' Hd -> Hf Hc. destruct (append_log j ds d Hl Hd) as (seq & j1 & E & Hl1). rewrite E in Hl'.
  pose proof (log_is_functional _ _ _ Hl1 Hl') as ->. destruct Hl as (_ & Hw & Ha), Hl1 as (_ & _ & Ha1).
  destruct (Append_ok _ _ _ _ Hw (zlen_Encode_fits d Hd) E) as [_ HR]. rewrite HR in Ha1.
  rewrite Append_files_write_through in Hf. apply write_through_files_upto in Hf. rewrite Z.add_0_r in Hf.
  destruct (images_upto_records j f (Encode d) c Hw (zlen_Encode_fits d Hd) Hf Hc) as [-> | ->].
  - exists ds. by split; [left|].
  - exists (ds ++ [d]). split; [by right|]. destruct (Append_inv _ _ _ _ E) as (_ & -> & _). exact Ha1.
Qed.

(** One of the two files, while a call of its device takes it from [e] to [e']:
    each has a lock of its own, so that two threads may each be in one. *)
Inductive cut_journal_file e e' : F → Prop :=
  | journal_before : cut_journal_file e e' (file_ (journal_ e))
  | journal_after : cut_journal_file e e' (file_ (journal_ e'))
  | journal_append d f :
      record_ok d → journal_ e' = snd (Append (journal_ e) (Encode d)) →
      f ∈ Append_files (journal_ e) (Encode d) → cut_journal_file e e' f
  | journal_truncate f :
      journal_ e' = snd (Truncate (journal_ e)) → f ∈ Truncate_files (journal_ e) → cut_journal_file e e' f.

Inductive cut_data_file e e' : F → Prop :=
  | data_before : cut_data_file e e' (FileBackingStore.file_ (backingStore_ e))
  | data_after : cut_data_file e e' (FileBackingStore.file_ (backingStore_ e'))
  | data_store k v tb f :
      store_fits k v → backingStore_ e' = snd (FileBackingStore.AppendRecord (backingStore_ e) k v tb) →
      f ∈ AppendRecord_files (backingStore_ e) k v tb → cut_data_file e e' f.

(** The journal then reads as before the call or as after it. *)
Lemma cut_journal_read e e' ds ds' fj c :
  log_is (journal_ e) ds → log_is (journal_ e') ds' → cut_journal_file e e' fj → crash_image fj c →
  ∃ ds1, (ds1 = ds ∨ ds1 = ds') ∧ Forall2 (λ r d, Decode (payload r) = Success d) (frames_of c) ds1.
Proof.
  intros Hl Hl' Hcut Hc.
  assert (∀ (j : Journal) l, log_is j l → crash_image (file_ j) c →
            Forall2 (λ r d, Decode (payload r) = Success d) (frames_of c) l) as Hlog.
  { intros j l (_ & Hw & Ha) Hcr. by rewrite (wc_synced j Hw c Hcr). }
  destruct Hcut as [| |d f Hrec Ej Hf|f Ej Hf]; [eauto..|by eapply cut_journal|].
  destruct (Truncate_files_images _ _ _ Hf Hc) as [Hj| ->]; [eauto|].
  exists []. split; [right|constructor]. pose proof (proj1 Hl) as Hrel.
  destruct (Truncate_reliable _ Hrel) as (j1 & E1 & _). rewrite Ej, E1 in Hl'.
  destruct (Truncate_ok _ _ E1) as [_ HR]. destruct Hl' as (_ & _ & Ha).
  cbn [snd] in Ha. rewrite HR in Ha. by inversion Ha.
Qed.

(** So does the data file. *)
Lemma cut_data_read e e' fd c :
  store_clean (backingStore_ e) → store_reliable (backingStore_ e) → store_clean (backingStore_ e') →
  cut_data_file e e' fd → crash_image fd c →
  map_of (content_records c) = store_map (backingStore_ e) ∨ map_of (content_records c) = store_map (backingStore_ e').
Proof.
  intros Hc Hr Hc' Hcut Hd.
  assert (∀ b : Store, store_clean b → crash_image (FileBackingStore.file_ b) c →
            map_of (content_records c) = store_map b) as Hmap.
  { intros b Hb Hcr. apply (store_clean_images b); [done|by exists c]. }
  destruct Hcut as [| |k v tb f Hfit Eb Hf]; [eauto..|]. rewrite Eb.
  by eapply AppendRecord_cut.
Qed.

Lemma cut_files_parts e e' fj fd :
  cut_files e e' fj fd →
  cut_journal_file e e' fj ∧ backingStore_ e' = backingStore_ e ∧ cut_data_file e e fd ∨
  cut_data_file e e' fd ∧ journal_ e' = journal_ e ∧ cut_journal_file e e fj ∨
  cut_journal_file e' e' fj ∧ cut_data_file e' e' fd ∨
  cut_journal_file e e fj ∧ cut_data_file e e fd.
Proof.
  destruct 1; [right; right; right|right; right; left|left|left|right; left];
    split_and?; try done; by econstructor.
Qed.

Context (hash : string → Z) (ds0 : list CacheJournalRecord) (I : string → Prop) (V : string → option bytes → Prop).

(** What the next process reads in the files: records and a map that go
    together, from before the block or from after it. *)
Lemma cut_files_read e e' ds ds' fj fd cj cd :
  holds ds0 I V e ds → holds ds0 I V e' ds' → cut_files e e' fj fd →
  crash_image fj cj → crash_image fd cd →
  ∃ ds1, Forall2 (λ r d, Decode (payload r) = Success d) (frames_of cj) ds1 ∧
    (∀ k, invalidated ds1 k = true → invalidated ds0 k = true ∨ I k) ∧
    ∀ k, invalidated ds0 k = false → V k (recovered ds1 (map_of (content_records cd)) k).
Proof.
  intros Hh Hh' Hcut Hj Hd. pose proof Hh as [Hc Hr Hl Hi HV]. pose proof Hh' as [Hc' Hr' Hl' Hi' HV'].
  destruct (cut_files_parts _ _ _ _ Hcut) as [(Fj & Eb & Fd)|[(Fd & Ej & Fj)|[[Fj Fd]|[Fj Fd]]]].
  - destruct (cut_journal_read _ _ _ _ _ _ Hl Hl' Fj Hj) as (ds1 & Hds & Ha). exists ds1. rewrite Eb in HV'.
    destruct (cut_data_read _ _ _ _ Hc Hr Hc Fd Hd) as [-> | ->]; (split; [done|]); destruct Hds as [-> | ->]; auto.
  - rewrite Ej in Hl'. pose proof (log_is_functional _ _ _ Hl Hl') as ->.
    destruct (cut_journal_read _ _ _ _ _ _ Hl Hl Fj Hj) as (ds1 & Hds & Ha). exists ds1.
    split; [done|]. assert (ds1 = ds) as -> by tauto.
    destruct (cut_data_read _ _ _ _ Hc Hr Hc' Fd Hd) as [-> | ->]; auto.
  - destruct (cut_journal_read _ _ _ _ _ _ Hl' Hl' Fj Hj) as (ds1 & Hds & Ha). exists ds1.
    split; [done|]. assert (ds1 = ds') as -> by tauto.
    destruct (cut_data_read _ _ _ _ Hc' Hr' Hc' Fd Hd) as [-> | ->]; auto.
  - destruct (cut_journal_read _ _ _ _ _ _ Hl Hl Fj Hj) as (ds1 & Hds & Ha). exists ds1.
    split; [done|]. assert (ds1 = ds) as -> by tauto.
    destruct (cut_data_read _ _ _ _ Hc Hr Hc Fd Hd) as [-> | ->]; auto.
Qed.
End files.
