(* ===== verification/Lifetime.v ===== *)
(** * Lifetime: any number of processes, one after the other

    The whole of a deployment's life on its three files: a process serves
    clients, is stopped, or loses power at any block of any operation, in the
    middle of a write to the data file too; the next one starts on what is left,
    with whatever configuration and clock; and so on.  [life] are these
    histories, [event_allows] what each event may do to the value of one key.
    The two theorems at the end say that a process starts after every power
    cut, and that no history ever loses or invents a value. *)
From S2P Require Import Prelude Common RecordCodec Scan Storage Journal Marker Recovery Store.
From S2P Require Import Shard Engine EngineFacts Durability Client Lifecycle Service Config Startup Threads CrashPoints.
Import Client.
Open Scope Z_scope.

(** ** What an event may do to the value of a key *)

Inductive Event :=
  | Returned (op : Operation) (out : Outcome)
  | PowerCut (op : Operation)
  | CleanRestart.

(** [allowed], one key at a time. *)
Definition key_allowed (k : string) (op : Operation) (out : Outcome) (o o' : option bytes) : Prop :=
  match op, out with
  | OpGet k', Value (Success v) => o' = o ∧ (k' = k → o = Some v)
  | OpPut k' v, Done (Success _) => o' = if decide (k = k') then Some v else o
  | OpPut k' v, Done (Failure _) => o' = o ∨ k' = k ∧ o' = Some v
  | (OpInvalidate k' | OpForceInvalidate k'), Done (Success _) => o' = if decide (k = k') then None else o
  | _, _ => o' = o
  end.

Lemma allowed_key op out m m' k : allowed op out m m' → key_allowed k op out (m k) (m' k).
Proof.
  destruct op as [k'|k' v|k'|k'|k'| | |], out as [[v'|e]|[[]|e]]; cbn; try done; try (by intros Hm; apply Hm).
  - intros [Hm Hv]. split; [apply Hm|]. by intros <-.
  - intros [Hm|Hm]; [|left; apply Hm]. specialize (Hm k). case_decide as Hk; [by right|by left].
Qed.

Definition event_allows (k : string) (ev : Event) (o o' : option bytes) : Prop :=
  match ev with
  | Returned op out => key_allowed k op out o o'
  | PowerCut op => may_become op k o o'
  | CleanRestart => o' = o
  end.

(** The values of a key along a history. *)
Inductive key_life (k : string) : list Event → option bytes → option bytes → Prop :=
  | key_life_nil o : key_life k [] o o
  | key_life_cons ev evs o o1 o' :
      event_allows k ev o o1 → key_life k evs o1 o' → key_life k (ev :: evs) o o'.

Definition event_invalidates (ev : Event) : option string :=
  match ev with Returned op _ | PowerCut op => invalidates op | CleanRestart => None end.

Definition untouched (evs : list Event) (k : string) : Prop := Forall (λ ev, event_invalidates ev ≠ Some k) evs.

(** The event may write the key. *)
Definition writes (k : string) (ev : Event) : Prop :=
  match ev with
  | Returned (OpPut k' _) _ | PowerCut (OpPut k' _) => k' = k
  | _ => False
  end.

Lemma key_life_app k evs1 evs2 o o' :
  key_life k (evs1 ++ evs2) o o' → ∃ o1, key_life k evs1 o o1 ∧ key_life k evs2 o1 o'.
Proof.
  revert o. induction evs1 as [|ev evs1 IH]; intros o; cbn.
  - intros Hl. exists o. by split; [constructor|].
  - inversion 1 as [|? ? ? o1 ? Hev Hl]; subst. destruct (IH o1 Hl) as (o2 & ? & ?).
    exists o2. split; [by econstructor|done].
Qed.

(** Events that neither write nor invalidate the key leave it. *)
Lemma event_keeps k ev o o' :
  ¬ writes k ev → event_invalidates ev ≠ Some k → event_allows k ev o o' → o' = o.
Proof.
  destruct ev as [op out|op|]; cbn; [| |done].
  - destruct op as [k'|k' v|k'|k'|k'| | |], out as [[v'|e]|[[]|e]]; cbn; try done.
    + by intros _ _ [? _].
    + intros Hw _ ->. by rewrite decide_False by congruence.
    + intros Hw _ [?|[? _]]; congruence.
    + intros _ Hi ->. by rewrite decide_False by congruence.
    + intros _ Hi ->. by rewrite decide_False by congruence.
  - unfold may_become. destruct op; cbn; intros Hw Hi [Ho|Ho]; try done; destruct Ho; congruence.
Qed.

Lemma key_life_keeps k evs o o' :
  Forall (λ ev, ¬ writes k ev) evs → untouched evs k → key_life k evs o o' → o' = o.
Proof.
  intros Hw Hu Hl. induction Hl as [o|ev evs o o1 o' Hev Hl IH]; [done|].
  apply Forall_cons in Hw as [Hw Hws]. apply Forall_cons in Hu as [Hi Hus].
  rewrite IH by done. by eapply event_keeps.
Qed.

(** ** Histories *)

Section lifetime.
Context {F : Type} `{IFileSpec F} {json : Type} `{NlohmannJsonSpec json}.
Context (hash : string → Z)
        (pending_order : gmap string PendingEntry → list (string * PendingEntry)).
Hypothesis pending_order_perm : ∀ m, pending_order m ≡ₚ map_to_list m.

Abbreviation Store := (FileBackingStore.FileBackingStore F).
Abbreviation Journal := (WriteAheadJournal F).
Implicit Types (e : CacheEngine Store Journal) (rm : RecoveryManager (SessionMarker F)) (sv : Service F).

Abbreviation serving rm e := (mkService (Some rm) (Some e)).

(** The service starts on these files, with some configuration, at some time. *)
Definition boots (mf jf df : F) (r : Result unit) sv : Prop :=
  ∃ content now (open : wstring → OpenMode.OpenMode → Result F),
    let config := start_config content in
    open (marker_path config) OpenMode.OpenOrCreate = Success mf ∧
    open (journal_path config) OpenMode.OpenOrCreate = Success jf ∧
    open (backingStoreDataFile config) OpenMode.OpenOrCreate = Success df ∧
    ServiceStart hash pending_order content now open = (r, sv).

(** The power fails at a block of [op], and this is what the next process
    opens. *)
Inductive power_cut rm e (op : Operation) : F → F → F → Prop :=
  | power_cut_intro t stop s1 s2 fj fd mf jf df :
      t ≠ Running → (s1, s2) ∈ moves (Threads.op_prog hash op) (mkShared e t stop) →
      cut_files (engine_ s1) (engine_ s2) fj fd →
      reopened (marker_file (marker_ rm)) mf → reopened fj jf → reopened fd df →
      zlen (file_content df) < 2 ^ 63 → power_cut rm e op mf jf df.

(** A torn record at the end of the journal is not cut off by the next process,
    which appends after it ([Append_after_torn_tail_lost]): a history in which
    that happens is not one of these. *)
Inductive life_step : Service F → Event → Service F → Prop :=
  | life_op rm e op out e' :
      room e 1 → op_fits op → run_op hash e op = (out, e') →
      life_step (serving rm e) (Returned op out) (serving rm e')
  | life_cut rm e op mf jf df sv :
      room e 1 → op_fits op → power_cut rm e op mf jf df → Journal.clean_content (file_content jf) →
      boots mf jf df (Success tt) sv →
      life_step (serving rm e) (PowerCut op) sv
  | life_stop rm e now rm' e' mf jf df sv :
      room e 1 → OnServiceStop hash now (serving rm e) = (Success tt, serving rm' e') →
      Engine.total_dirty e' = 0 → reopened (marker_file (marker_ rm')) mf → next_files e' jf df →
      boots mf jf df (Success tt) sv →
      life_step (serving rm e) CleanRestart sv.

Inductive life : Service F → list Event → Service F → Prop :=
  | life_nil sv : life sv [] sv
  | life_cons sv1 ev sv2 evs sv3 : life_step sv1 ev sv2 → life sv2 evs sv3 → life sv1 (ev :: evs) sv3.

(** ** The invariant *)

(** A serving process whose files are in order, the journal holding [ds]. *)
Record alive rm e (ds : list CacheJournalRecord) : Prop := {
  al_engine : EngineFacts.engine_ok hash e;
  al_durable : durable hash e ds;
  al_clean : fbs_clean (backingStore_ e);
  al_reliable : reliable (FileBackingStore.file_ (backingStore_ e));
  al_session : session_open (marker_ rm);
  al_idle : inFlightWriteCount_ e = 0;
  al_open : compactionPaused_ e = false
}.

Lemma started_alive rm e ds :
  started rm e → EngineFacts.engine_ok hash e → durable hash e ds → fbs_clean (backingStore_ e) →
  reliable (FileBackingStore.file_ (backingStore_ e)) → alive rm e ds.
Proof. intros [? _ ? ?] He Hd Hc Hr. by constructor. Qed.

Lemma alive_quiescent rm e ds t stop : alive rm e ds → t ≠ Running → quiescent (mkShared e t stop).
Proof. intros [] Ht. by split_and!. Qed.

(** An operation that returns. *)
Lemma run_op_alive rm e ds op out e' :
  alive rm e ds → room e 1 → op_fits op → run_op hash e op = (out, e') →
  ∃ ds', alive rm e' ds' ∧ allowed op out (view hash e) (view hash e') ∧
    ∀ k, invalidates op ≠ Some k → invalidated ds k = false → invalidated ds' k = false.
Proof.
  intros Ha Hroom Hfit E. pose proof (alive_quiescent rm e ds NotStarted false Ha ltac:(done)) as Hq.
  destruct Ha as [He Hd Hc Hr Hs Hi Hp].
  destruct (run_op_contract hash e op out e' He Hroom Hfit E) as (He' & _ & Hal & D).
  destruct (run_op_control hash e op out e' ltac:(by rewrite Hi) E) as (_ & Hi' & Hp' & _).
  destruct (D ds Hd) as (ds' & Hd' & Hk). exists ds'. split; [|done].
  set (s := mkShared e NotStarted false) in *.
  assert (sound hash ds (λ _ _, True) (engine_ s)) as Hsd by (constructor; try done; exists ds; by split; [|intros k]).
  pose proof (op_along hash ds (λ _, True) _ op s Hsd Hq Hroom Hfit ltac:(done) ltac:(done)) as Hal'.
  destruct (run_alone_run_op hash s op out e' Hq E) as (s' & Er & <-).
  destruct (along_final ds _ _ _ s _ s' (sound_good _ _ _ _ _ Hsd) Hal' Er) as (ds1 & [Hc' Hr' _ _ _]).
  constructor; [done..|by rewrite Hi'|by apply Hp'].
Qed.

Lemma boots_start mf jf df r sv :
  boots mf jf df r sv →
  ∃ options now, options_valid options ∧ u32 (shardCount options) ∧
    OnServiceStart hash pending_order options now (Success mf) (Success jf) (Success df) = (r, sv).
Proof.
  intros (content & now & open & Om & Oj & Od & E). unfold ServiceStart in E. rewrite Om, Oj, Od in E.
  destruct (start_config_options content) as [Hv Hu]. by eexists _, now.
Qed.

Lemma session_replays (m : SessionMarker F) mf :
  session_open m → reopened (marker_file m) mf →
  ∃ d, marker_state (file_content mf) = Success d ∧ smd_closedCleanly d = false.
Proof. intros [_ Hm] [Hi _ _]. by apply Hm. Qed.

(** The start on files as a power cut left them, that read as [ds1] and a map. *)
Lemma boots_on_read rm fj fd mf jf df ds1 r sv :
  session_open (marker_ rm) → reopened (marker_file (marker_ rm)) mf → reopened fj jf → reopened fd df →
  zlen (file_content df) < 2 ^ 63 →
  Forall2 (λ r d, Decode (payload r) = Success d) (frames_of (file_content jf)) ds1 →
  boots mf jf df r sv →
  (r = Success tt → ∃ rm' e', sv = serving rm' e' ∧ EngineFacts.engine_ok hash e' ∧
     (Journal.clean_content (file_content jf) → alive rm' e' ds1) ∧
     ∀ k, view hash e' k = recovered ds1 (map_of (content_records (file_content df))) k) ∧
  ((∀ k, invalidated ds1 k = false) → r = Success tt).
Proof.
  intros Hs Hm Hj Hd Hsz Hall Hb. destruct (boots_start _ _ _ _ _ Hb) as (options & now & Hopt & Hu & E).
  destruct (reopen_data _ _ Hd Hsz) as (b & Hopen & Hbc & Hbr & Hbm).
  destruct (session_replays _ _ Hs Hm) as (d & Hms & Hnc).
  assert (log_reads (mkJournal jf 0 0) ds1) as Hreads by (split; [apply Hj|exact Hall]).
  destruct (start_replaying hash pending_order pending_order_perm options now mf jf df b ds1 d r sv
              Hopen Hbc Hbr Hreads (ro_reliable _ _ Hm) Hms Hnc Hopt Hu E) as [Hok Hno].
  split; [|done]. intros Hrs. destruct (Hok Hrs) as (rm' & e' & -> & Hst & He' & Hd' & Hc' & Hr' & Hv).
  exists rm', e'. split; [done|]. split; [done|]. split; [|by intros k; rewrite Hv, Hbm].
  intros Hcl. apply started_alive; try done. by apply Hd', (reopen_clean fj).
Qed.

(** The start after a power cut, the journal torn or not. *)
Lemma boots_after_cut rm e ds op mf jf df r sv :
  alive rm e ds → room e 1 → op_fits op → power_cut rm e op mf jf df → boots mf jf df r sv →
  (r = Success tt → ∃ rm' e' ds', sv = serving rm' e' ∧
     EngineFacts.engine_ok hash e' ∧ (Journal.clean_content (file_content jf) → alive rm' e' ds') ∧
     (∀ k, invalidates op ≠ Some k → invalidated ds k = false → invalidated ds' k = false) ∧
     ∀ k, invalidated ds k = false → may_become op k (view hash e k) (view hash e' k)) ∧
  ((∀ k, invalidated ds k = false) → (∀ k, invalidates op ≠ Some k) → r = Success tt).
Proof.
  intros Ha Hroom Hfit Hcut Hb. destruct Hcut as [t stop s1 s2 fj fd mf jf df Ht Hin Hcut Hm Hj Hd Hsz].
  pose proof (alive_quiescent rm e ds t stop Ha Ht) as Hq. destruct Ha as [He Hdu Hc Hr Hs Hi Hp].
  destruct (op_holds hash (mkShared e t stop) ds op s1 s2 He Hdu Hc Hr Hq Hroom Hfit Hin) as (_ & l1 & l2 & Hh1 & Hh2).
  destruct (cut_files_read ds _ _ _ _ l1 l2 fj fd _ _ Hh1 Hh2 Hcut (ro_image _ _ Hj) (ro_image _ _ Hd))
    as (ds1 & Hall & Hinv & HV).
  destruct (boots_on_read rm fj fd mf jf df ds1 r sv Hs Hm Hj Hd Hsz Hall Hb) as [Hok Hno].
  assert (∀ k, invalidates op ≠ Some k → invalidated ds k = false → invalidated ds1 k = false) as Hkeep.
  { intros k Hne Hk. destruct (invalidated ds1 k) eqn:Ek; [|done]. destruct (Hinv k Ek); congruence. }
  split; [|intros Hk Hne; apply Hno; auto].
  intros Hrs. destruct (Hok Hrs) as (rm' & e' & -> & He' & Ha' & Hv). exists rm', e', ds1.
  split; [done|]. split; [done|]. split; [done|]. split; [done|].
  intros k Hk. rewrite Hv. by apply HV.
Qed.

(** The start after an orderly stop that flushed everything. *)
Lemma boots_after_stop rm e ds now rm' e' mf jf df r sv :
  alive rm e ds → room e 1 → OnServiceStop hash now (serving rm e) = (Success tt, serving rm' e') →
  Engine.total_dirty e' = 0 → reopened (marker_file (marker_ rm')) mf → next_files e' jf df →
  boots mf jf df r sv →
  r = Success tt ∧ ∃ rm2 e2 ds2, sv = serving rm2 e2 ∧ alive rm2 e2 ds2 ∧
    (∀ k, invalidated ds k = false → invalidated ds2 k = false) ∧ ∀ k, view hash e2 k = view hash e k.
Proof.
  intros Ha Hroom Es Hz Hm Hn Hb. destruct (boots_start _ _ _ _ _ Hb) as (options & now' & Hopt & Hu & E).
  destruct (start_after_stop hash pending_order options now now' rm e _ mf jf df r sv Es (proj1 (al_session _ _ _ Ha)))
    as (rm1 & e1 & [= <- <-] & He' & Hstart).
  destruct (Engine.Shutdown hash e) as [sr e1] eqn:Esh. cbn [snd] in He'. subst e1.
  destruct (run_op_alive rm e ds OpShutdown (Done sr) e' Ha Hroom ltac:(done)) as (ds2 & Ha' & Hsame & Hkeep);
    [by cbn; rewrite Esh|].
  assert (entry_count e' < 2 ^ 64) as Hcnt.
  { destruct (Shutdown_contract hash e sr e' (al_engine _ _ _ Ha)) as [_ [G _]]; [|done|]; destruct Hroom; lia. }
  destruct Ha' as [He2 Hd2 Hc2 _ _ _ _].
  destruct (Hstart Hc2 Hn (ro_reliable _ _ Hm) (ro_image _ _ Hm) Hopt Hu E)
    as (-> & rm2 & e2 & -> & Hst & Hok & Hdur & Hcl & Hrel & Hv).
  split; [done|]. exists rm2, e2, ds2. split; [done|]. split; [|split].
  - apply started_alive; try done. apply Hdur; [apply Hd2|]. intros k Hk. pose proof (proj2 Hd2 k Hk) as Hj.
    pose proof (total_dirty_zero hash e' (eo_shards hash e' He2) Hcnt Hz k) as Hcln.
    destruct (engine_get hash e' k) as [en|]; [|exact Hj]. cbn in Hj. by rewrite (Hcln en eq_refl) in Hj.
  - intros k. by apply Hkeep.
  - intros k. rewrite Hv, <- (clean_view_is_store hash e' He2 Hcnt Hz). apply Hsame.
Qed.

(** One event of a history. *)
Lemma life_step_alive rm e ds ev sv :
  alive rm e ds → life_step (serving rm e) ev sv →
  ∃ rm' e' ds', sv = serving rm' e' ∧ alive rm' e' ds' ∧
    ∀ k, invalidated ds k = false → event_invalidates ev ≠ Some k →
      invalidated ds' k = false ∧ event_allows k ev (view hash e k) (view hash e' k).
Proof.
  intros Ha Hst. remember (serving rm e) as sv0 eqn:E0.
  destruct Hst as [rm0 e0 op out e' Hroom Hfit E|rm0 e0 op mf jf df sv Hroom Hfit Hcut Hcl Hb
                  |rm0 e0 now rm' e' mf jf df sv Hroom Es Hz Hm Hn Hb]; injection E0 as -> ->.
  - destruct (run_op_alive rm e ds op out e' Ha Hroom Hfit E) as (ds' & Ha' & Hal & Hk).
    exists rm, e', ds'. split; [done|]. split; [done|]. intros k Hi Hne. split; [by apply Hk|].
    by apply allowed_key.
  - destruct (boots_after_cut rm e ds op mf jf df _ sv Ha Hroom Hfit Hcut Hb) as [Hok _].
    destruct (Hok eq_refl) as (rm' & e' & ds' & -> & _ & Ha' & Hk & Hv). exists rm', e', ds'.
    split; [done|]. split; [by apply Ha'|]. intros k Hi Hne. split; [by apply Hk|by apply Hv].
  - destruct (boots_after_stop rm e ds now rm' e' mf jf df _ sv Ha Hroom Es Hz Hm Hn Hb)
      as (_ & rm2 & e2 & ds2 & -> & Ha2 & Hk & Hv).
    exists rm2, e2, ds2. split; [done|]. split; [done|]. intros k Hi _. split; [by apply Hk|exact (Hv k)].
Qed.

Lemma life_alive rm e ds evs sv :
  alive rm e ds → life (serving rm e) evs sv →
  ∃ rm' e' ds', sv = serving rm' e' ∧ alive rm' e' ds' ∧
    ∀ k, invalidated ds k = false → untouched evs k →
      invalidated ds' k = false ∧ key_life k evs (view hash e k) (view hash e' k).
Proof.
  intros Ha Hl. remember (serving rm e) as sv0 eqn:E0. revert rm e ds Ha E0.
  induction Hl as [sv|sv1 ev sv2 evs sv3 Hst Hl IH]; intros rm e ds Ha ->.
  - exists rm, e, ds. split; [done|]. split; [done|]. intros k Hk _. split; [done|constructor].
  - destruct (life_step_alive rm e ds ev sv2 Ha Hst) as (rm1 & e1 & ds1 & -> & Ha1 & H1').
    destruct (IH rm1 e1 ds1 Ha1 eq_refl) as (rm2 & e2 & ds2 & -> & Ha2 & H2').
    exists rm2, e2, ds2. split; [done|]. split; [done|]. intros k Hk Hu.
    apply Forall_cons in Hu as [Hev Hu]. destruct (H1' k Hk Hev) as [Hk1 A1].
    destruct (H2' k Hk1 Hu) as [Hk2 A2]. split; [done|]. by econstructor.
Qed.

(** A first start, on files that are empty. *)
Lemma first_start mf jf df sv :
  reliable mf → file_content mf = [] → reopened jf jf → file_content jf = [] →
  reopened df df → zlen (file_content df) < 2 ^ 63 → boots mf jf df (Success tt) sv →
  ∃ rm e, sv = serving rm e ∧ alive rm e [] ∧ ∀ k, view hash e k = map_of (content_records (file_content df)) !! k.
Proof.
  intros Hm Em Hj Ej Hd Hsz Hb. destruct (boots_start _ _ _ _ _ Hb) as (options & now & Hopt & Hu & E).
  destruct (reopen_data _ _ Hd Hsz) as (b & Hopen & Hbc & Hbr & Hbm).
  pose proof (OnServiceStart_steps hash pending_order options now mf jf df b (mkSessionMarkerData 0 0 true)
                Hopt Hu Hm Hopen ltac:(by rewrite Em)) as Hsteps.
  cbv zeta in Hsteps. cbn [smd_closedCleanly] in Hsteps. destruct Hsteps as (rm & Hst & Es).
  rewrite Es in E. injection E as <-. set (e0 := CacheEngine_new options b (mkJournal jf 0 0)) in *.
  destruct (set_ready_engine hash e0 [] (new_engine_ok hash options b _ (clean_store_ok b Hbc))) as [Hok Hdur].
  eexists rm, _. split; [done|]. split.
  - apply started_alive; try done. apply Hdur, new_durable; [|done]. split; [apply Hj|]. split.
    + apply (reopen_clean jf); [done|]. rewrite Ej. apply clean_nil.
    + cbn. unfold WAL_records. cbn [file_]. rewrite Ej. constructor.
  - intros k. pose proof (new_view hash options b (mkJournal jf 0 0) k) as Hnv.
    change (store_map b) with (fbs_map b) in Hnv. rewrite Hbm in Hnv. exact Hnv.
Qed.

(** ** Theorems *)

(** C2: No history of these events loses or invents a value.  From a serving
    process whose files are in order, through any number of operations, of power
    cuts and restarts, of orderly stops and restarts: the service is again one
    that serves, with its files in order, and every key that was never
    invalidated has gone through the values its events allow: a read returned
    the value it had, an acknowledged write took effect and stayed, a failed or
    interrupted one may have, a restart changed nothing.

    The power cuts of a history are at any block of an operation, in the middle
    of a write of the data file too, but leave no torn record in the journal;
    its stops leave no dirty entry; none falls during a start or a stop.  What is
    left out does lose values: [LifeExamples.write_behind_torn_record_is_lost],
    [Service.stop_forgets_unflushed]. *)
Theorem life_is_a_map rm e ds evs sv :
  alive rm e ds → life (serving rm e) evs sv →
  ∃ rm' e' ds', sv = serving rm' e' ∧ alive rm' e' ds' ∧
    ∀ k, invalidated ds k = false → untouched evs k →
      invalidated ds' k = false ∧ key_life k evs (view hash e k) (view hash e' k).
Proof. apply life_alive. Qed.

(** C1: The last acknowledged write is what the last process shows.  In any
    history from a serving process whose files are in order, a write that was
    acknowledged, of a key the history never invalidates, and after which the
    key was not written again, is in what clients of the last process see:
    through every later operation on other keys, every flush, eviction and
    compaction, every power cut at any block of any of them that leaves the
    journal untorn, every stop that leaves no dirty entry and every restart. *)
Theorem acknowledged_write_survives rm e ds evs1 k v evs2 sv :
  let evs := evs1 ++ Returned (OpPut k v) (Done (Success tt)) :: evs2 in
  alive rm e ds → life (serving rm e) evs sv → invalidated ds k = false → untouched evs k →
  Forall (λ ev, ¬ writes k ev) evs2 →
  ∃ rm' e', sv = serving rm' e' ∧ EngineFacts.engine_ok hash e' ∧ view hash e' k = Some v.
Proof.
  intros evs Ha Hl Hk Hu Hw. destruct (life_alive rm e ds evs sv Ha Hl) as (rm' & e' & ds' & -> & Ha' & Hkeys).
  exists rm', e'. split; [done|]. split; [apply Ha'|]. destruct (Hkeys k Hk Hu) as [_ Hkl].
  apply key_life_app in Hkl as (o1 & _ & Hkl). inversion Hkl as [|? ? ? o2 ? Hev Hkl2]; subst.
  cbn in Hev. rewrite decide_True in Hev by done. subst o2.
  apply Forall_app in Hu as [_ Hu]. apply Forall_cons in Hu as [_ Hu].
  exact (key_life_keeps k evs2 _ _ Hw Hu Hkl2).
Qed.

(** C3: A process starts after a power cut.  The power fails at any block of
    any operation, or in the middle of the device call it makes, a torn record
    left in either file; the next process reads whatever configuration there
    is.  If it starts, its engine shows every key that was not invalidated
    since the journal was last emptied as the old engine did, or, for the key
    of the interrupted operation, with what that operation gives it; and it
    does start when no key was invalidated. *)
Theorem restart_after_power_cut_anywhere rm e ds op mf jf df r sv :
  alive rm e ds → room e 1 → op_fits op → power_cut rm e op mf jf df → boots mf jf df r sv →
  (r = Success tt → ∃ rm' e', sv = serving rm' e' ∧ EngineFacts.engine_ok hash e' ∧
     ∀ k, invalidated ds k = false → may_become op k (view hash e k) (view hash e' k)) ∧
  ((∀ k, invalidated ds k = false) → (∀ k, invalidates op ≠ Some k) → r = Success tt).
Proof.
  intros Ha Hroom Hfit Hcut Hb.
  destruct (boots_after_cut rm e ds op mf jf df r sv Ha Hroom Hfit Hcut Hb) as [Hok Hno]. split; [|done].
  intros Hr. destruct (Hok Hr) as (rm' & e' & ds' & -> & He' & _ & _ & Hv). by exists rm', e'.
Qed.
End lifetime.
