(* ===== verification/Interleaving.v ===== *)
(** * Interleaving: every schedule of the engine's threads

    The invariant of a pool of threads that run Threads.v's programs, by
    assume-guarantee: a ghost state per thread says where in the protocol of
    admission and compaction the thread is, [Inv] ties the shared state to the
    ghosts of all, and [safe] says of a program that each of its blocks keeps
    [Inv], whatever the other threads did since the last one.  From it follow
    the two theorems at the end, for every schedule: compaction never drops
    the journal's record of an unflushed write, and no schedule ends in a
    deadlock. *)
From S2P Require Import Prelude Common RecordCodec Storage Journal Store Shard Engine EngineFacts Durability Client.
From S2P Require Import Lifecycle Threads.
Import EntryDirtyState EngineLifecycle.
Open Scope Z_scope.

(** ** Ghost state *)

(** Where a thread is in emptying the journal: it holds admission back, or it
    has seen no writer in flight and added up the first [n] shards to [acc],
    with admission held back by itself or by the end of the engine. *)
Inductive Phase := Outside | Pausing | Counting (paused : bool) (n : nat) (acc : Z).

Definition pauses (p : Phase) : bool :=
  match p with Outside | Counting false _ _ => false | Pausing | Counting true _ _ => true end.

(** Where a thread is in [Shutdown]. *)
Inductive StopPhase := Working | Draining | Drained.

Record Ghost := mkGhost {
  g_admitted : bool;
  g_pending : option (string * bytes * Z);
  g_phase : Phase;
  g_inserts : Z;
  g_flusher : bool;
  g_stop : StopPhase;
  g_joining : bool;
  g_background : bool
}.

Definition set_admitted (g : Ghost) (b : bool) : Ghost :=
  mkGhost b (g_pending g) (g_phase g) (g_inserts g) (g_flusher g) (g_stop g) (g_joining g) (g_background g).
Definition set_pending (g : Ghost) (p : option (string * bytes * Z)) : Ghost :=
  mkGhost (g_admitted g) p (g_phase g) (g_inserts g) (g_flusher g) (g_stop g) (g_joining g) (g_background g).
Definition set_phase (g : Ghost) (p : Phase) : Ghost :=
  mkGhost (g_admitted g) (g_pending g) p (g_inserts g) (g_flusher g) (g_stop g) (g_joining g) (g_background g).
Definition spend (n : Z) (g : Ghost) : Ghost :=
  mkGhost (g_admitted g) (g_pending g) (g_phase g) (g_inserts g - n) (g_flusher g) (g_stop g) (g_joining g)
    (g_background g).
Definition set_stop (g : Ghost) (p : StopPhase) : Ghost :=
  mkGhost (g_admitted g) (g_pending g) (g_phase g) (g_inserts g) (g_flusher g) p (g_joining g) (g_background g).
Definition set_joining (g : Ghost) : Ghost :=
  mkGhost (g_admitted g) (g_pending g) (g_phase g) (g_inserts g) (g_flusher g) (g_stop g) true (g_background g).
Definition unset_background (g : Ghost) : Ghost :=
  mkGhost (g_admitted g) (g_pending g) (g_phase g) (g_inserts g) (g_flusher g) (g_stop g) (g_joining g) false.

Definition stopping (l : EngineLifecycle) : Prop := l = Stopping ∨ l = Stopped.

#[global] Instance Operation_eq_dec : EqDecision Operation.
Proof. solve_decision. Defined.

Definition is_put (op : Operation) : bool := match op with OpPut _ _ => true | _ => false end.

(** ** Dirty entries *)

Definition dirty_num (sh : Shard) : Z := zlen (dirty_entries (entries (lru sh))).

Lemma dirty_num_nonneg sh : 0 ≤ dirty_num sh.
Proof. apply zlen_nonneg. Qed.

Lemma elem_dirty_key sh k :
  shard_ok sh →
  k ∈ map key (dirty_entries (entries (lru sh))) ↔ ∃ en, shard_get sh k = Some en ∧ is_clean en = false.
Proof.
  intros Hs. change (map key ?l) with (key <$> l). rewrite list_elem_of_fmap. unfold dirty_entries.
  split.
  - intros (en & -> & [Hd Hin]%list_elem_of_filter). exists en. apply negb_true_iff in Hd. split; [|done].
    change (map snd ?l) with (snd <$> l) in Hin. apply list_elem_of_fmap in Hin as ([it en'] & -> & Hin).
    apply shard_get_Some; [done|]. by exists it.
  - intros (en & Hg & Hc). apply shard_get_Some in Hg as (it & Hin & <-); [|done].
    exists en. split; [done|]. apply list_elem_of_filter. unfold is_dirty. rewrite Hc. split; [done|].
    change (map snd ?l) with (snd <$> l). apply list_elem_of_fmap. by exists (it, en).
Qed.

Lemma dirty_num_mono sh sh' :
  shard_ok sh → shard_ok sh' →
  (∀ k en, shard_get sh' k = Some en → is_clean en = false →
     ∃ en', shard_get sh k = Some en' ∧ is_clean en' = false) →
  dirty_num sh' ≤ dirty_num sh.
Proof.
  intros Hs Hs' Hsub. unfold dirty_num, zlen. apply inj_le.
  rewrite <- !(length_map key). apply submseteq_length, NoDup_submseteq.
  - eapply sublist_NoDup; [apply (so_keys _ Hs')|]. apply (fmap_sublist key), sublist_filter.
  - intros k Hk. rewrite elem_dirty_key in Hk |- * by done. destruct Hk as (en & Hg & Hc). by eapply Hsub.
Qed.

Lemma dirty_num_zero sh k en :
  shard_ok sh → dirty_num sh = 0 → shard_get sh k = Some en → is_clean en = true.
Proof.
  intros Hs Hz Hg. destruct (is_clean en) eqn:Hc; [done|exfalso].
  assert (k ∈ map key (dirty_entries (entries (lru sh)))) as Hin by (apply elem_dirty_key; eauto).
  unfold dirty_num, zlen in Hz. destruct (dirty_entries _); [|cbn in Hz; lia].
  by apply not_elem_of_nil in Hin.
Qed.

Lemma dirty_num_le sh : dirty_num sh ≤ zlen (lru sh).
Proof.
  destruct (dirty_le (entries (lru sh))) as [Hle _]. unfold dirty_num.
  assert (zlen (entries (lru sh)) = zlen (lru sh)) by (unfold zlen; by rewrite length_map). lia.
Qed.

Lemma zsum_le {A} (f : A → Z) l i x : (∀ x, 0 ≤ f x) → l !! i = Some x → f x ≤ zsum f l.
Proof.
  intros Hf Hl. rewrite <- (take_drop_middle l i x Hl), zsum_app. unfold zsum at 2. cbn. fold (zsum f).
  pose proof (zsum_nonneg f (take i l) Hf). pose proof (zsum_nonneg f (drop (S i) l) Hf). unfold zsum in *. lia.
Qed.

Section pool.
Context {B J : Type} `{IBackingStore.IBackingStore B} `{JournalSpec J}.
(** The number of shards is fixed. *)
Context (hash : string → Z) (N : nat).
(** Whether no thread ever calls [Put]: then any number of threads may empty the
    journal, since no entry becomes dirty behind their count. *)
Context (no_puts : bool).
Implicit Types (e : CacheEngine B J) (s : Shared B J) (g : Ghost) (gs : list Ghost).

Abbreviation ShardFor := (Engine.ShardFor hash).
Abbreviation engine_get := (EngineFacts.engine_get hash).
Abbreviation shards_ok := (EngineFacts.shards_ok hash).

(** Nothing becomes dirty, shard by shard. *)
Definition fewer_dirty e e' : Prop :=
  Forall2 (λ sh sh', dirty_num sh' ≤ dirty_num sh) (shards_ e) (shards_ e').

Definition unclean e (k : string) (en : Entry) : Prop := engine_get e k = Some en ∧ is_clean en = false.

Lemma shards_ok_fewer e e' :
  shards_ok e → shards_ok e' → length (shards_ e') = length (shards_ e) →
  (∀ k en, unclean e' k en → ∃ en', unclean e k en') → fewer_dirty e e'.
Proof.
  intros He He' Hlen Hsub. apply Forall2_same_length_lookup_2; [done|].
  intros i sh sh' Hi Hi'. apply dirty_num_mono.
  - by eapply Forall_lookup_1; [apply (sh_shards _ _ He)|].
  - by eapply Forall_lookup_1; [apply (sh_shards _ _ He')|].
  - intros k en Hg Hc. assert (shard_at e' i = sh') as Ei' by (unfold shard_at; by rewrite Hi').
    assert (shard_at e i = sh) as Ei by (unfold shard_at; by rewrite Hi).
    assert (ShardFor e' k = i) as Hk by (eapply (sh_place _ _ He'); by rewrite Ei').
    destruct (Hsub k en) as (en' & Hg' & Hc').
    { split; [|done]. unfold EngineFacts.engine_get. by rewrite Hk, Ei'. }
    exists en'. split; [|done]. unfold EngineFacts.engine_get in Hg'.
    by rewrite <- (ShardFor_frame hash e e'), Hk, Ei in Hg' by done.
Qed.

Lemma fewer_dirty_sum e e' n :
  fewer_dirty e e' → zsum dirty_num (drop n (shards_ e')) ≤ zsum dirty_num (drop n (shards_ e)).
Proof.
  intros Hf%(Forall2_drop _ _ _ n). induction Hf as [|sh sh' l l' Hle _ IH]; [done|].
  unfold zsum in *. cbn. lia.
Qed.

(** The sum a compaction or a shutdown has computed so far. *)
Record counted e (n : nat) (acc : Z) : Prop := {
  ct_acc : 0 ≤ acc;
  ct_rest : acc + zsum dirty_num (drop n (shards_ e)) < 2 ^ 64;
  ct_zero : acc = 0 → Forall (λ sh, dirty_num sh = 0) (take n (shards_ e))
}.

Lemma counted_fewer e e' n acc : fewer_dirty e e' → counted e n acc → counted e' n acc.
Proof.
  intros Hf [Ha Hr Hz]. pose proof (fewer_dirty_sum e e' n Hf). constructor; [done|lia|].
  intros E. specialize (Hz E). apply (Forall2_take _ _ _ n) in Hf. revert Hz.
  induction Hf as [|sh sh' l l' Hle _ IH]; [done|]. intros [Hh Ht]%Forall_cons. constructor; [|by apply IH].
  pose proof (dirty_num_nonneg sh'). lia.
Qed.

Lemma zsum_dirty_le (l : list Shard) : zsum dirty_num l ≤ zsum (λ sh, zlen (lru sh)) l.
Proof. induction l as [|sh l IH]; [done|]. unfold zsum in *. cbn. pose proof (dirty_num_le sh). lia. Qed.

Lemma counted_start e : entry_count e < 2 ^ 64 → counted e 0 0.
Proof.
  intros Hc. constructor; [done| |by constructor].
  pose proof (zsum_dirty_le (shards_ e)). rewrite drop_0. unfold entry_count in Hc. lia.
Qed.

(** One turn of the sum, in machine arithmetic. *)
Lemma counted_next e n acc :
  shards_ok e → (n < length (shards_ e))%nat → counted e n acc →
  let acc' := wrap64 (acc + dirtyCount (shard_at e n)) in counted e (S n) acc'.
Proof.
  intros He Hn [Ha Hr Hz]. destruct (lookup_lt_is_Some_2 _ _ Hn) as [sh Hsh].
  assert (shard_at e n = sh) as -> by (unfold shard_at; by rewrite Hsh).
  rewrite (drop_S _ sh) in Hr by done. unfold zsum in Hr at 1. cbn in Hr. fold (zsum dirty_num) in Hr.
  pose proof (dirty_num_nonneg sh). pose proof (zsum_nonneg dirty_num (drop (S n) (shards_ e)) dirty_num_nonneg).
  assert (dirtyCount sh = dirty_num sh) as ->.
  { rewrite (so_dirtyCount sh) by (by eapply Forall_lookup_1; [apply (sh_shards _ _ He)|]).
    apply wrap_small. unfold in_width. unfold dirty_num in *. unfold zsum in *. lia. }
  cbv zeta. rewrite wrap_small by (unfold in_width; unfold zsum in *; lia).
  constructor; [lia|unfold zsum in *; lia|]. intros E.
  rewrite (take_S_r _ _ sh) by done. apply Forall_app. split; [apply Hz; lia|].
  constructor; [lia|constructor].
Qed.

Lemma counted_all_clean e n k en :
  shards_ok e → (length (shards_ e) ≤ n)%nat → counted e n 0 → engine_get e k = Some en → is_clean en = true.
Proof.
  intros He Hn [_ _ Hz] Hg. specialize (Hz eq_refl). rewrite take_ge in Hz by done.
  pose proof (ShardFor_lt hash e k (sh_some _ _ He)) as Hi.
  destruct (lookup_lt_is_Some_2 _ _ Hi) as [sh Hsh].
  unfold EngineFacts.engine_get, shard_at in Hg. rewrite Hsh in Hg.
  eapply dirty_num_zero; [|by eapply (Forall_lookup_1 _ _ _ _ Hz)|exact Hg].
  by eapply Forall_lookup_1; [apply (sh_shards _ _ He)|].
Qed.
(** ** The invariant *)

(** The journal carries the write of every dirty entry. *)
Definition logged e (ds : list CacheJournalRecord) : Prop :=
  ∀ k en, unclean e k en → journalable en ∧ upsert k (value en) (version en) ∈ ds.

Definition closed e : Prop := compactionPaused_ e = true ∨ stopping (lifecycle_ e).

(** What a thread in its phase knows of the shared state. *)
Record ghost_ok s g : Prop := {
  go_inserts : 0 ≤ g_inserts g;
  go_pending : g_pending g ≠ None → g_admitted g = true ∧ no_puts = false;
  go_who : g_phase g ≠ Outside → g_flusher g = true ∨ g_stop g = Drained;
  go_closed : g_phase g ≠ Outside → no_puts = true ∨ closed (engine_ s);
  go_counting b n acc : g_phase g = Counting b n acc →
    (no_puts = true ∨ inFlightWriteCount_ (engine_ s) = 0) ∧ counted (engine_ s) n acc;
  go_stop : g_stop g ≠ Working → stopping (lifecycle_ (engine_ s));
  go_drained : g_stop g = Drained → inFlightWriteCount_ (engine_ s) = 0;
  go_joining : g_joining g = true → backgroundFlushStopRequested_ s = true
}.

Definition in_flight g : Z := if g_admitted g then 1 else 0.

Record Inv s gs : Prop := {
  inv_shards : shards_ok (engine_ s);
  inv_length : length (shards_ (engine_ s)) = N;
  inv_version k en : engine_get (engine_ s) k = Some en → u64 (version en);
  inv_log : ∃ ds, log_is (journal_ (engine_ s)) ds ∧ logged (engine_ s) ds ∧
    ∀ g k v ver, g ∈ gs → g_pending g = Some (k, v, ver) →
      journalable (mkEntry k v ver Dirty) ∧ upsert k v ver ∈ ds;
  inv_inFlight : inFlightWriteCount_ (engine_ s) = zsum in_flight gs;
  inv_count : entry_count (engine_ s) + zsum g_inserts gs < 2 ^ 64;
  inv_threads : zlen gs < 2 ^ 64;
  inv_paused : compactionPaused_ (engine_ s) = true → ∃ i g, gs !! i = Some g ∧ pauses (g_phase g) = true;
  inv_background : backgroundFlushThread_ s = Running → ∃ i g, gs !! i = Some g ∧ g_background g = true;
  inv_ghosts i g : gs !! i = Some g → ghost_ok s g;
  inv_flusher i j g g' :
    no_puts = false → gs !! i = Some g → gs !! j = Some g' → g_flusher g = true → g_flusher g' = true → i = j
}.

(** A step adds to the journal, or finds every entry clean. *)
Definition journal_step e e' : Prop := ∀ ds, log_is (journal_ e) ds →
  (∃ l, log_is (journal_ e') (ds ++ l)) ∨ ∀ k en, engine_get e k = Some en → is_clean en = true.

Lemma journal_step_same e e' : journal_ e' = journal_ e → journal_step e e'.
Proof. intros Hj ds Hl. left. exists []. by rewrite Hj, app_nil_r. Qed.

(** A step of thread [i]: what is left to prove of it. *)
Record step_ok s g s' g' : Prop := {
  st_shards : shards_ok (engine_ s');
  st_length : length (shards_ (engine_ s')) = length (shards_ (engine_ s));
  st_version k en : engine_get (engine_ s') k = Some en → u64 (version en);
  st_log ds : log_is (journal_ (engine_ s)) ds → logged (engine_ s) ds →
    (∀ k v ver, g_pending g = Some (k, v, ver) → journalable (mkEntry k v ver Dirty) ∧ upsert k v ver ∈ ds) →
    ∃ ds', log_is (journal_ (engine_ s')) ds' ∧ logged (engine_ s') ds' ∧
      (∀ k v ver, g_pending g' = Some (k, v, ver) → journalable (mkEntry k v ver Dirty) ∧ upsert k v ver ∈ ds') ∧
      (ds ⊆ ds' ∨ no_puts = true ∨ inFlightWriteCount_ (engine_ s) = 0);
  st_inFlight : inFlightWriteCount_ (engine_ s') = inFlightWriteCount_ (engine_ s) - in_flight g + in_flight g';
  st_count : entry_count (engine_ s') + g_inserts g' ≤ entry_count (engine_ s) + g_inserts g;
  st_paused : compactionPaused_ (engine_ s') = true →
    pauses (g_phase g') = true ∨ compactionPaused_ (engine_ s) = true ∧ pauses (g_phase g) = false;
  st_background : backgroundFlushThread_ s' = Running →
    backgroundFlushThread_ s = Running ∧ g_background g' = g_background g;
  st_self : ghost_ok s' g';
  st_others g0 : (no_puts = false → g_flusher g = true → g_flusher g0 = false) → ghost_ok s g0 → ghost_ok s' g0;
  st_flusher : g_flusher g' = g_flusher g;
  st_client : g_background g = false → g_background g' = false;
  st_journal : journal_step (engine_ s) (engine_ s')
}.

Lemma in_flight_zero gs g : zsum in_flight gs = 0 → g ∈ gs → g_admitted g = false.
Proof.
  intros Hz (i & Hi)%list_elem_of_lookup_1.
  assert (∀ x, 0 ≤ in_flight x) as Hnn by (intros x; unfold in_flight; case_match; lia).
  pose proof (zsum_le in_flight gs i g Hnn Hi) as Hle. unfold in_flight in Hle at 1. destruct (g_admitted g); [lia|done].
Qed.

Lemma Inv_step s g s' g' gs i :
  Inv s gs → gs !! i = Some g → step_ok s g s' g' → Inv s' (<[i := g']> gs).
Proof.
  intros HI Hi [S1 SL S2 S3 S4 S5 S6 S7 S8 S9 S10 _ _].
  pose proof (lookup_lt_Some _ _ _ Hi) as Hlt.
  assert (∀ j x, <[i := g']> gs !! j = Some x → j = i ∧ x = g' ∨ j ≠ i ∧ gs !! j = Some x) as Hlook.
  { intros j x Hj. apply list_lookup_insert_Some in Hj as [(-> & <- & _)|[? ?]]; [by left|by right]. }
  constructor; [done|by rewrite SL, (inv_length _ _ HI)|done| | | | | | | |].
  - destruct (inv_log _ _ HI) as (ds & Hl & Hlg & Hp).
    destruct (S3 ds Hl Hlg) as (ds' & Hl' & Hlg' & Hp' & Hsub).
    { intros k v ver. apply Hp. by eapply list_elem_of_lookup_2. }
    exists ds'. split; [done|]. split; [done|]. intros x k v ver (j & Hj)%list_elem_of_lookup_1 Hx.
    destruct (Hlook j x Hj) as [[-> ->]|[Hne Hj']]; [by apply Hp'|].
    pose proof (list_elem_of_lookup_2 _ _ _ Hj') as Hin. destruct (Hp x k v ver Hin Hx) as [Hok Hd].
    destruct (go_pending s x) as [Ha Hnp]; [by eapply inv_ghosts|by rewrite Hx|].
    split; [done|]. destruct Hsub as [Hsub|[Hq|Hz]]; [by apply Hsub|congruence|exfalso].
    rewrite (inv_inFlight _ _ HI) in Hz. by rewrite (in_flight_zero gs x Hz Hin) in Ha.
  - rewrite S4, (zsum_insert _ _ _ g), (inv_inFlight _ _ HI) by done. done.
  - rewrite (zsum_insert _ _ _ g) by done. pose proof (inv_count _ _ HI). lia.
  - unfold zlen. rewrite length_insert. apply (inv_threads _ _ HI).
  - intros Hp. destruct (S6 Hp) as [Hph|[Hp0 Hph]].
    + exists i, g'. by rewrite list_lookup_insert_eq.
    + destruct (inv_paused _ _ HI Hp0) as (j & x & Hj & Hx). exists j, x.
      rewrite list_lookup_insert_ne; [done|]. intros ->. congruence.
  - intros Hb. destruct (S7 Hb) as [Hb0 Hg]. destruct (inv_background _ _ HI Hb0) as (j & x & Hj & Hx).
    destruct (decide (i = j)) as [->|Hne].
    + exists j, g'. rewrite list_lookup_insert_eq by done. split; [done|]. congruence.
    + exists j, x. by rewrite list_lookup_insert_ne.
  - intros j x Hj. destruct (Hlook j x Hj) as [[-> ->]|[Hne Hj']]; [done|].
    apply S9; [|by eapply inv_ghosts]. intros Hnp Hf. destruct (g_flusher x) eqn:Hx; [|done].
    destruct Hne. by eapply (inv_flusher _ _ HI j i x g).
  - intros j1 j2 x1 x2 Hnp L1 L2 F1 F2.
    destruct (Hlook j1 x1 L1) as [[-> ->]|[N1 M1]], (Hlook j2 x2 L2) as [[-> ->]|[N2 M2]]; [done|..].
    + rewrite S10 in F1. by eapply (inv_flusher _ _ HI i j2 g x2).
    + rewrite S10 in F2. by eapply (inv_flusher _ _ HI j1 i x1 g).
    + by eapply (inv_flusher _ _ HI j1 j2 x1 x2).
Qed.

(** ** Steps that change no account of the protocol *)

(** At most [n] entries more, none of them dirty; the journal only grows. *)
Record gentle (n : Z) e e' : Prop := {
  ge_shards : shards_ok e';
  ge_length : length (shards_ e') = length (shards_ e);
  ge_control : lifecycle_ e' = lifecycle_ e ∧ inFlightWriteCount_ e' = inFlightWriteCount_ e ∧
               compactionPaused_ e' = compactionPaused_ e;
  ge_count : entry_count e' ≤ entry_count e + n;
  ge_version k en : engine_get e' k = Some en →
    u64 (version en) ∨ ∃ en0, engine_get e k = Some en0 ∧ version en0 = version en;
  ge_unclean k en : unclean e' k en →
    ∃ en0, unclean e k en0 ∧ key en0 = key en ∧ value en0 = value en ∧ version en0 = version en;
  ge_log ds : log_is (journal_ e) ds → ∃ l, log_is (journal_ e') (ds ++ l)
}.

Lemma gentle_fewer n e e' : shards_ok e → gentle n e e' → fewer_dirty e e'.
Proof.
  intros He G. apply shards_ok_fewer; [done|apply G..|].
  intros k en Hk. destruct (ge_unclean _ _ _ G k en Hk) as (en0 & ? & _). by exists en0.
Qed.

Lemma gentle_ghost n s e' g :
  shards_ok (engine_ s) → gentle n (engine_ s) e' → ghost_ok s g → ghost_ok (Threads.set_engine s e') g.
Proof.
  intros He G [G1 G2 G3 G4 G5 G6 G7 G8]. pose proof (gentle_fewer n _ _ He G) as Hf.
  destruct (ge_control _ _ _ G) as (Hl & Hn & Hp).
  constructor; cbn [engine_ Threads.set_engine backgroundFlushStopRequested_]; try done.
  - unfold closed. rewrite Hl, Hp. apply G4.
  - intros b m acc Hm. destruct (G5 b m acc Hm) as [? ?]. rewrite Hn. split; [done|]. by eapply counted_fewer.
  - rewrite Hl. apply G6.
  - rewrite Hn. apply G7.
Qed.

Lemma spend_0 g : spend 0 g = g.
Proof. destruct g. unfold spend. cbn. by rewrite Z.sub_0_r. Qed.

Lemma gentle_logged n e e' ds l : gentle n e e' → logged e ds → logged e' (ds ++ l).
Proof.
  intros G Hlg k en Hk. destruct (ge_unclean _ _ _ G k en Hk) as (en0 & Hk0 & Ek & Ev & Er).
  destruct (Hlg k en0 Hk0) as [Hj Hin]. unfold journalable in *. rewrite Ek, Ev, Er in Hj. split; [done|].
  rewrite Ev, Er in Hin. by apply elem_of_app; left.
Qed.

Lemma gentle_step s gs i g n e' :
  Inv s gs → gs !! i = Some g → gentle n (engine_ s) e' → 0 ≤ n ≤ g_inserts g →
  step_ok s g (Threads.set_engine s e') (spend n g).
Proof.
  intros HI Hi G Hn. pose proof (inv_ghosts _ _ HI i g Hi) as Hg. pose proof (inv_shards _ _ HI) as He.
  destruct (ge_control _ _ _ G) as (Hl & Hf & Hp).
  constructor; cbn [engine_ Threads.set_engine backgroundFlushThread_]; try done.
  - apply G.
  - apply G.
  - intros k en Hk. destruct (ge_version _ _ _ G k en Hk) as [?|(en0 & E0 & <-)]; [done|].
    by eapply (inv_version _ _ HI).
  - intros ds Hlog Hlg Hpd. destruct (ge_log _ _ _ G ds Hlog) as [l Hl']. exists (ds ++ l).
    split; [done|]. split; [by eapply gentle_logged|]. split.
    + intros k v ver Hk. destruct (Hpd k v ver Hk). split; [done|]. by apply elem_of_app; left.
    + left. intros x Hx. by apply elem_of_app; left.
  - rewrite Hf. unfold in_flight. cbn. lia.
  - pose proof (ge_count _ _ _ G). cbn. lia.
  - rewrite Hp. intros Hpa. cbn. destruct (pauses (g_phase g)); [by left|by right].
  - destruct (gentle_ghost n s e' g He G Hg) as [G1 G2 G3 G4 G5 G6 G7 G8].
    constructor; cbn; try done. lia.
  - intros g0 _ Hg0. by apply (gentle_ghost n).
  - intros ds Hds. left. apply (ge_log _ _ _ G ds Hds).
Qed.

(** *** The gentle blocks *)

Lemma gentle_same e e' :
  shards_ok e → shards_ e' = shards_ e → lifecycle_ e' = lifecycle_ e →
  inFlightWriteCount_ e' = inFlightWriteCount_ e → compactionPaused_ e' = compactionPaused_ e →
  (∀ ds, log_is (journal_ e) ds → ∃ l, log_is (journal_ e') (ds ++ l)) → gentle 0 e e'.
Proof.
  intros He Hs Hl Hn Hp Hlog.
  assert (∀ k, engine_get e' k = engine_get e k) as Hg by (intros; by apply engine_get_same).
  constructor; [by eapply shards_ok_same|by rewrite Hs|done| | |  |done].
  - rewrite (entry_count_same e e') by done. lia.
  - intros k en. rewrite Hg. right. eauto.
  - intros k en [Hk Hc]. rewrite Hg in Hk. exists en. by split_and!.
Qed.

Lemma gentle_refl e : shards_ok e → gentle 0 e e.
Proof. intros He. apply gentle_same; try done. intros ds Hl. exists []. by rewrite app_nil_r. Qed.

Lemma gentle_store e b : shards_ok e → gentle 0 e (set_store e b).
Proof. intros He. apply gentle_same; try done. intros ds Hl. exists []. by rewrite app_nil_r. Qed.

Lemma gentle_count e c : shards_ok e → gentle 0 e (count c e).
Proof. intros He. apply gentle_same; try done. intros ds Hl. exists []. by rewrite app_nil_r. Qed.

Lemma gentle_append e d :
  shards_ok e → record_ok d → gentle 0 e (snd (Engine.AppendJournalRecord e d)).
Proof.
  intros He Hd. destruct (Engine.AppendJournalRecord e d) as [r e'] eqn:E. cbn.
  apply AppendJournalRecord_contract in E as (Hs & (_ & _ & _ & _ & Hl & Hn & Hp & _) & _ & Hlog).
  apply gentle_same; try done. intros ds Hds. destruct (Hlog ds Hds Hd) as [_ Hl']. by exists [d].
Qed.

Lemma gentle_trans n m e e1 e2 : gentle n e e1 → gentle m e1 e2 → gentle (n + m) e e2.
Proof.
  intros [A1 A2 (A3 & A4 & A5) A6 A7 A8 A9] [B1 B2 (B3 & B4 & B5) B6 B7 B8 B9].
  constructor; [done|congruence|split_and!; congruence|lia| | |].
  - intros k en Hk. destruct (B7 k en Hk) as [?|(en1 & Hk1 & <-)]; [by left|]. by apply A7.
  - intros k en Hk. destruct (B8 k en Hk) as (en1 & Hk1 & <- & <- & <-). by apply A8.
  - intros ds Hl. destruct (A9 ds Hl) as [l1 Hl1]. destruct (B9 _ Hl1) as [l2 Hl2].
    exists (l1 ++ l2). by rewrite app_assoc.
Qed.

(** A block, then a counter. *)
Lemma gentle_counted n e e1 c : gentle n e e1 → gentle n e (count c e1).
Proof.
  intros G. rewrite <- (Z.add_0_r n). eapply gentle_trans; [exact G|]. apply gentle_count, (ge_shards _ _ _ G).
Qed.

(** A block on one shard that changes the entry of one key to [o]. *)
Lemma gentle_shard e k sh o :
  shards_ok e → shard_ok sh → zlen (lru sh) ≤ zlen (lru (shard_at e (ShardFor e k))) →
  updated (shard_at e (ShardFor e k)) sh k o →
  (∀ en, o = Some en → ∃ en0, engine_get e k = Some en0 ∧ key en0 = key en ∧ value en0 = value en ∧
     version en0 = version en ∧ (is_clean en = false → is_clean en0 = false)) →
  gentle 0 e (set_shard e (ShardFor e k) sh).
Proof.
  intros He Hsh Hlen Hu Ho. destruct (set_shard_updated hash e k sh o He Hsh Hu) as (Hok & Hf & Hg).
  constructor; [done|cbn; by rewrite length_insert|done| | | |].
  - rewrite entry_count_set by (by apply ShardFor_lt, (sh_some _ _ He)). lia.
  - intros k' en Hk. rewrite Hg in Hk. right. destruct (decide (k' = k)) as [->|]; [|eauto].
    destruct (Ho en Hk) as (en0 & ? & _ & _ & ? & _). eauto.
  - intros k' en [Hk Hc]. rewrite Hg in Hk. destruct (decide (k' = k)) as [->|].
    + destruct (Ho en Hk) as (en0 & ? & ? & ? & ? & Hcl). exists en0. split_and!; auto. split; auto.
    + exists en. by split_and!.
  - intros ds Hl. exists []. by rewrite app_nil_r.
Qed.

Lemma on_shard_same e k sh :
  shards_ok e → sh = shard_at e (ShardFor e k) → gentle 0 e (set_shard e (ShardFor e k) sh).
Proof.
  intros He ->. pose proof (shard_at_ok e (ShardFor e k) (sh_shards _ _ He)) as Hs.
  apply (gentle_shard e k _ (engine_get e k)); [done|done|lia|apply updated_same|].
  intros en Hen. exists en. by split_and!.
Qed.

Lemma gentle_touch e k it en :
  shards_ok e → find (shard_at e (ShardFor e k)) k = Some (it, en) →
  gentle 0 e (set_shard e (ShardFor e k) (touch (shard_at e (ShardFor e k)) it)).
Proof.
  intros He Hf. pose proof (shard_at_ok e (ShardFor e k) (sh_shards _ _ He)) as Hs.
  apply find_Some in Hf as [Hin _]; [|done].
  apply (gentle_shard e k _ (engine_get e k)); [done|by eapply touch_ok| | |].
  - cbn [touch lru]. rewrite (splice_front_eq _ _ en) by done. rewrite zlen_cons.
    destruct (shard_split _ it en Hs Hin) as (l1 & l2 & E & _ & _ & _ & _ & Her & _).
    rewrite Her, E, !zlen_app, zlen_cons. lia.
  - intros k'. rewrite (touch_get _ it en) by done. by apply updated_same.
  - intros en' Hen. exists en'. by split_and!.
Qed.

Lemma gentle_begin_flush e k ev cv :
  shards_ok e → gentle 0 e (snd (Threads.begin_flush hash k ev cv e)).
Proof.
  intros He. unfold Threads.begin_flush. pose proof (shard_at_ok e (ShardFor e k) (sh_shards _ _ He)) as Hs.
  destruct (flush_begin _ _ _ _) as [[r|[v ver]] sh] eqn:E; cbn; [by apply gentle_refl|].
  apply flush_begin_contract in E as (Hsh & Hlen & _ & Hg & _ & Hu); [|done].
  eapply gentle_shard; [done|done|lia|exact Hu|]. intros en [= <-]. eexists. split; [exact Hg|]. by split_and!.
Qed.

Lemma gentle_flush_end e k sh (st : EntryDirtyState) ver :
  shards_ok e → shard_ok sh → zlen (lru sh) = zlen (lru (shard_at e (ShardFor e k))) →
  match flushing ver (shard_get (shard_at e (ShardFor e k)) k) with
  | Some en => updated (shard_at e (ShardFor e k)) sh k (Some (with_state st en))
  | None => sh = shard_at e (ShardFor e k)
  end → gentle 0 e (set_shard e (ShardFor e k) sh).
Proof.
  intros He Hsh Hlen. destruct (flushing ver _) as [en|] eqn:Ef; [|intros ->; by apply on_shard_same].
  intros Hu. unfold flushing in Ef. destruct (shard_get _ k) as [en'|] eqn:Eg; [|done].
  destruct (flushing_not_clean ver en' en Ef) as [-> Hc].
  eapply gentle_shard; [done|done|lia|exact Hu|]. intros en [= <-]. exists en'. by split_and!.
Qed.

Lemma gentle_revert e k ver :
  shards_ok e → gentle 0 e (Threads.on_shard hash k (λ sh, RevertFlushInProgressLocked sh k ver) e).
Proof.
  intros He. pose proof (shard_at_ok e (ShardFor e k) (sh_shards _ _ He)) as Hs.
  destruct (Revert_contract _ k ver _ Hs eq_refl) as (Hsh & Hlen & _ & Hu). by eapply gentle_flush_end.
Qed.

Lemma gentle_commit e k ver :
  shards_ok e → gentle 0 e (Threads.on_shard hash k (λ sh, flush_commit sh k ver) e).
Proof.
  intros He. pose proof (shard_at_ok e (ShardFor e k) (sh_shards _ _ He)) as Hs.
  destruct (flush_commit_contract _ k ver _ Hs eq_refl) as (Hsh & Hlen & _ & Hu). by eapply gentle_flush_end.
Qed.

Lemma gentle_invalidate e k ver :
  shards_ok e → gentle 0 e (Threads.on_shard hash k (λ sh, invalidate_commit sh k ver) e).
Proof.
  intros He. pose proof (shard_at_ok e (ShardFor e k) (sh_shards _ _ He)) as Hs.
  destruct (invalidate_commit_contract _ k ver _ Hs eq_refl) as (Hsh & Hlen & _ & Hu).
  eapply gentle_shard; [done|done|done|exact Hu|]. unfold EngineFacts.engine_get.
  destruct (shard_get _ k) as [en0|]; [|done]. case_match; [done|].
  intros en [= <-]. exists en0. by split_and!.
Qed.

Lemma gentle_evicted e e' :
  shards_ok e' → frame_eq e e' → journal_ e' = journal_ e → entry_count e' ≤ entry_count e →
  e_evicted hash (engine_get e) e' → gentle 0 e e'.
Proof.
  intros Hok (_ & _ & _ & _ & Hl & Hn & Hp & Hlen) Hj Hc Hev.
  assert (∀ k en, engine_get e' k = Some en → engine_get e k = Some en) as Hsub.
  { intros k en Hk. destruct (Hev k) as [<-|(? & _ & _ & ?)]; [done|congruence]. }
  constructor; [done|done|done|lia|eauto| |].
  - intros k en [Hk Hcl]. exists en. split_and!; [by split; [apply Hsub|]|done..].
  - intros ds Hds. exists []. rewrite app_nil_r. by rewrite Hj.
Qed.

Lemma gentle_evict e i : shards_ok e → gentle 0 e (Engine.evict e i).
Proof.
  intros He. destruct (decide (i < length (shards_ e))%nat) as [Hi|Hi].
  - destruct (evict_contract hash e i He Hi) as (Hok & Hf & [_ Hj] & Hev & Hc).
    by apply gentle_evicted.
  - unfold Engine.evict. destruct (EvictCleanEntriesLocked _ _ _ _) as [sh n].
    apply gentle_same; try done.
    + cbn. apply list_insert_ge. lia.
    + intros ds Hl. exists []. by rewrite app_nil_r.
Qed.

Lemma gentle_relieve_pick e i : shards_ok e → gentle 0 e (snd (Threads.relieve_pick i e)).
Proof.
  intros He. unfold Threads.relieve_pick. destruct (negb _); cbn; [by apply gentle_refl|].
  case_match; cbn; [by apply gentle_evict|by apply gentle_refl].
Qed.

Lemma gentle_lookup e k : shards_ok e → gentle 0 e (snd (Engine.Get_lookup hash e k)).
Proof.
  intros He. unfold Engine.Get_lookup. destruct (find _ k) as [[it en]|] eqn:Ef; cbn; [|by apply gentle_refl].
  by eapply gentle_counted, gentle_touch.
Qed.

Lemma gentle_fill e k fence v : shards_ok e → gentle 1 e (snd (Engine.Get_fill hash e k fence v)).
Proof.
  intros He. assert (∀ e', gentle 0 e e' → gentle 1 e e') as Hle.
  { intros e' []. constructor; try done. lia. }
  unfold Engine.Get_fill. destruct (_ =? _); cbn [snd].
  - destruct (insert_or_update_contract hash e k v 0 Clean true He) as (Hok & Hf & [_ Hj] & Hg).
    pose proof (insert_or_update_count hash e k v 0 Clean true He) as Hc.
    set (e' := Engine.insert_or_update e (ShardFor e k) k v 0 Clean true) in *.
    destruct Hf as (_ & _ & _ & _ & Hl & Hn & Hp & Hlen).
    assert (∀ k' en, engine_get e' k' = Some en →
      engine_get e k' = Some en ∨ version en = 0 ∧ is_clean en = true) as Hsub.
    { intros k' en Hk. destruct (stale _ _); [left; by rewrite <- Hg|]. destruct Hg as [Hev _].
      destruct (Hev k') as [Heq|(? & _ & _ & ?)]; [|congruence]. rewrite Heq in Hk.
      destruct (decide (k' = k)) as [->|]; [|by left]. injection Hk as <-. by right. }
    constructor; [done|done|done|done| | |].
    + intros k' en Hk. destruct (Hsub k' en Hk) as [?|[-> _]]; [right; eauto|by left].
    + intros k' en [Hk Hcl]. destruct (Hsub k' en Hk) as [?|[_ ?]]; [|congruence]. exists en. by split_and!.
    + intros ds Hds. exists []. rewrite app_nil_r. by rewrite Hj.
  - apply Hle. destruct (find _ k) as [[it en]|] eqn:Ef; cbn; [|by apply gentle_refl].
    by eapply gentle_counted, gentle_touch.
Qed.

(** ** Safe programs *)

(** Why a thread may have to wait. *)
Definition blocked_ok s g : Prop :=
  g_admitted g = false ∧
  (inFlightWriteCount_ (engine_ s) ≠ 0 ∨
   g_phase g = Outside ∧
   (compactionPaused_ (engine_ s) = true ∨
    g_joining g = true ∧ g_background g = false ∧ backgroundFlushThread_ s = Running ∨
    g_background g = true ∧ backgroundFlushStopRequested_ s = false)).

Fixpoint safe {A} (p : Prog (Shared B J) A) (Q : A → Ghost → Prop) (g : Ghost) : Prop :=
  match p with
  | Ret a => Q a g
  | Atomic step k => ∀ s gs i, Inv s gs → gs !! i = Some g →
    match step s with
    | None => blocked_ok s g
    | Some (r, s') => ∃ g', step_ok s g s' g' ∧ safe (k r) Q g'
    end
  end.

Lemma safe_bind {A C} (p : Prog (Shared B J) A) (f : A → Prog (Shared B J) C) P Q g :
  safe p P g → (∀ a g', P a g' → safe (f a) Q g') → safe (bind p f) Q g.
Proof.
  intros Hp Hf. revert g Hp. induction p as [a|R step k IH]; intros g; cbn; [apply Hf|].
  intros Hs s gs i HI Hi. specialize (Hs s gs i HI Hi). destruct (step s) as [[r s']|]; [|done].
  destruct Hs as (g' & ? & Hk). exists g'. split; [done|]. by apply IH.
Qed.

Lemma safe_mono {A} (p : Prog (Shared B J) A) (P Q : A → Ghost → Prop) g :
  safe p P g → (∀ a g', P a g' → Q a g') → safe p Q g.
Proof.
  intros Hp Hpq. revert g Hp. induction p as [a|R step k IH]; intros g; cbn; [apply Hpq|].
  intros Hs s gs i HI Hi. specialize (Hs s gs i HI Hi). destruct (step s) as [[r s']|]; [|done].
  destruct Hs as (g' & ? & Hk). exists g'. split; [done|]. by apply IH.
Qed.

Lemma safe_act {A} (f : CacheEngine B J → A * CacheEngine B J) (Q : A → Ghost → Prop) g :
  (∀ s gs i, Inv s gs → gs !! i = Some g →
     ∃ g', step_ok s g (Threads.set_engine s (snd (f (engine_ s)))) g' ∧ Q (fst (f (engine_ s))) g') →
  safe (Threads.act f) Q g.
Proof.
  intros Hf s gs i HI Hi. destruct (Hf s gs i HI Hi) as (g' & Hs & HQ).
  destruct (f (engine_ s)) as [r e']. by exists g'.
Qed.

Lemma safe_gentle {A} n (P : A → Prop) (f : CacheEngine B J → A * CacheEngine B J) g :
  (∀ e, shards_ok e → gentle n e (snd (f e))) → 0 ≤ n ≤ g_inserts g →
  (∀ s gs, Inv s gs → P (fst (f (engine_ s)))) →
  safe (Threads.act f) (λ r g', P r ∧ g' = spend n g) g.
Proof.
  intros Hf Hn HP. apply safe_act. intros s gs i HI Hi. exists (spend n g).
  split; [|split; [by eapply HP|done]]. by eapply gentle_step; [..|apply Hf, (inv_shards _ _ HI)|].
Qed.

(** A block without inserts, of which only the change is used. *)
Lemma safe_gentle0 {A} (f : CacheEngine B J → A * CacheEngine B J) g :
  (∀ e, shards_ok e → gentle 0 e (snd (f e))) → 0 ≤ g_inserts g →
  safe (Threads.act f) (λ _ g', g' = g) g.
Proof.
  intros Hf Hn. eapply safe_mono; [by apply (safe_gentle 0 (λ _, True)); [|lia|]|].
  intros a g' [_ ->]. apply spend_0.
Qed.

Lemma safe_read {A} (f : CacheEngine B J → A) (P : A → Prop) g :
  0 ≤ g_inserts g → (∀ s gs, Inv s gs → P (f (engine_ s))) →
  safe (Threads.read f) (λ r g', P r ∧ g' = g) g.
Proof.
  intros Hn HP. eapply safe_mono; [apply (safe_gentle 0 P); [apply gentle_refl|lia|done]|].
  intros a g' [? ->]. split; [done|apply spend_0].
Qed.

Lemma safe_peek {A} (f : CacheEngine B J → A) g :
  0 ≤ g_inserts g → safe (Threads.read f) (λ _ g', g' = g) g.
Proof. intros Hn. eapply safe_mono; [by apply (safe_read f (λ _, True))|]. by intros a g' [_ ->]. Qed.

Lemma safe_append d g :
  record_ok d → 0 ≤ g_inserts g → safe (Threads.AppendJournalRecord d) (λ _ g', g' = g) g.
Proof. intros Hd Hn. apply safe_gentle0; [|done]. intros e He. by apply gentle_append. Qed.

Lemma safe_modify f g :
  (∀ e, shards_ok e → gentle 0 e (f e)) → 0 ≤ g_inserts g → safe (Threads.modify f) (λ _ g', g' = g) g.
Proof. intros. by apply safe_gentle0. Qed.

(** *** Flushes *)

Lemma safe_flush_failed k ver err g :
  0 ≤ g_inserts g → safe (Threads.flush_failed hash k ver err) (λ _ g', g' = g) g.
Proof.
  intros Hn. eapply safe_bind; [apply safe_modify; [intros; by apply gentle_revert|done]|intros _ g' ->].
  eapply safe_bind; [apply safe_modify; [intros; by apply gentle_count|done]|by intros _ g' ->].
Qed.

Lemma begin_flush_journalable s gs k ev cv v ver :
  Inv s gs → fst (Threads.begin_flush hash k ev cv (engine_ s)) = inr (v, ver) →
  str_size k ≤ kMaxReasonableLength ∧ u64 ver.
Proof.
  intros HI. unfold Threads.begin_flush.
  pose proof (shard_at_ok (engine_ s) (ShardFor (engine_ s) k) (sh_shards _ _ (inv_shards _ _ HI))) as Hs.
  destruct (flush_begin _ _ _ _) as [[r|[v' ver']] sh] eqn:E; cbn; [done|]. intros [= -> ->].
  apply flush_begin_contract in E as (_ & _ & _ & Hg & _); [|done].
  destruct (inv_log _ _ HI) as (ds & _ & Hlg & _).
  destruct (Hlg k (mkEntry k v ver Dirty)) as [(? & _ & ?) _]; by split.
Qed.

Lemma safe_FlushKey k ev cv g :
  0 ≤ g_inserts g → safe (Threads.FlushKey hash k ev cv) (λ _ g', g' = g) g.
Proof.
  intros Hn. unfold Threads.FlushKey. eapply safe_bind.
  { apply (safe_gentle 0 (λ b, match b with
      | inl _ => True | inr (v, ver) => str_size k ≤ kMaxReasonableLength ∧ u64 ver end)); [|lia|].
    - intros e He. by apply gentle_begin_flush.
    - intros s gs HI. destruct (fst _) as [|[v ver]] eqn:E; [done|]. by eapply begin_flush_journalable. }
  intros b g' [Hb ->]. rewrite spend_0. destruct b as [r|[v ver]]; [done|]. destruct Hb as [Hk Hv].
  eapply safe_bind; [apply safe_append; [by apply flush_record_ok|done]|intros r g' ->].
  destruct r; [|by apply safe_flush_failed].
  eapply safe_bind.
  { apply safe_gentle0; [|done]. intros e He. unfold Threads.store_put. destruct (IBackingStore.Put _ _ _).
    by apply gentle_store. }
  intros r g' ->. destruct r; [|by apply safe_flush_failed].
  eapply safe_bind; [apply safe_append; [by apply flush_record_ok|done]|intros r g' ->].
  destruct r; [|by apply safe_flush_failed].
  eapply safe_bind; [apply safe_modify; [intros; by apply gentle_commit|done]|intros _ g' ->].
  eapply safe_bind; [apply safe_modify; [intros; by apply gentle_count|done]|by intros _ g' ->].
Qed.

Lemma safe_relieve n i g :
  0 ≤ g_inserts g → safe (Threads.relieve_loop hash n i) (λ _ g', g' = g) g.
Proof.
  intros Hn. induction n as [|n IH]; cbn [Threads.relieve_loop]; [done|].
  eapply safe_bind; [apply safe_gentle0; [intros; by apply gentle_relieve_pick|done]|intros [[k before]|] g' ->];
    [|done].
  eapply safe_bind; [by apply safe_FlushKey|intros r g' ->].
  eapply safe_bind; [apply safe_gentle0; [intros; by apply gentle_evict|done]|intros after g' ->].
  destruct r; [|done]. by case_match.
Qed.

Lemma safe_flush_keys keys last g :
  0 ≤ g_inserts g → safe (Threads.flush_keys hash keys last) (λ _ g', g' = g) g.
Proof.
  intros Hn. revert last. induction keys as [|k keys IH]; intros last; cbn [Threads.flush_keys]; [done|].
  eapply safe_bind; [by apply safe_FlushKey|intros r g' ->]. apply IH.
Qed.

Lemma safe_flush_shards shs last g :
  0 ≤ g_inserts g → safe (Threads.flush_shards hash shs last) (λ _ g', g' = g) g.
Proof.
  intros Hn. revert last. induction shs as [|i shs IH]; intros last; cbn [Threads.flush_shards]; [done|].
  eapply safe_bind; [by apply safe_peek|intros keys g' ->].
  eapply safe_bind; [by apply safe_flush_keys|intros l g' ->]. apply IH.
Qed.

(** *** Writers *)

Lemma admitted_in_flight s gs i g :
  Inv s gs → gs !! i = Some g → g_admitted g = true → inFlightWriteCount_ (engine_ s) ≠ 0.
Proof.
  intros HI Hi Ha Hz. rewrite (inv_inFlight _ _ HI) in Hz.
  rewrite (in_flight_zero gs g Hz) in Ha; [done|]. by eapply list_elem_of_lookup_2.
Qed.

Lemma in_flight_room s gs i g :
  Inv s gs → gs !! i = Some g → g_admitted g = false → 0 ≤ inFlightWriteCount_ (engine_ s) < 2 ^ 64 - 1.
Proof.
  intros HI Hi Ha. rewrite (inv_inFlight _ _ HI).
  assert (∀ l, 0 ≤ zsum in_flight l ≤ zlen l) as Hb.
  { induction l as [|x l IH]; [done|]. rewrite zlen_cons. unfold zsum in *. cbn. unfold in_flight at 1 3.
    case_match; lia. }
  pose proof (Hb (<[i := set_admitted g true]> gs)) as [_ Hle].
  rewrite (zsum_insert _ _ _ g) in Hle by done. unfold in_flight at 2 3 in Hle. cbn in Hle. rewrite Ha in Hle.
  pose proof (inv_threads _ _ HI). unfold zlen in *. rewrite length_insert in Hle. destruct (Hb gs). lia.
Qed.

(** With a writer in flight that may put, nobody counts. *)
Lemma ghost_ok_busy s e' g :
  no_puts = false → inFlightWriteCount_ (engine_ s) ≠ 0 → lifecycle_ e' = lifecycle_ (engine_ s) →
  compactionPaused_ e' = compactionPaused_ (engine_ s) →
  ghost_ok s g → ghost_ok (Threads.set_engine s e') g.
Proof.
  intros Hnp Hb Hl Hp [G1 G2 G3 G4 G5 G6 G7 G8].
  constructor; cbn [engine_ Threads.set_engine backgroundFlushStopRequested_]; try done.
  - unfold closed. by rewrite Hl, Hp.
  - intros b n acc Hn. destruct (G5 b n acc Hn) as [[?|?] _]; [congruence|done].
  - by rewrite Hl.
  - intros Hd. by destruct Hb; apply G7.
Qed.

(** The steps of a writer in flight: what is left is the journal. *)
Lemma busy_step s gs i g e' g' :
  no_puts = false → Inv s gs → gs !! i = Some g → g_admitted g = true →
  shards_ok e' → length (shards_ e') = length (shards_ (engine_ s)) →
  lifecycle_ e' = lifecycle_ (engine_ s) → inFlightWriteCount_ e' = inFlightWriteCount_ (engine_ s) →
  compactionPaused_ e' = compactionPaused_ (engine_ s) →
  (∀ k en, engine_get e' k = Some en → u64 (version en)) →
  entry_count e' + g_inserts g' ≤ entry_count (engine_ s) + g_inserts g → 0 ≤ g_inserts g' →
  (∀ ds, log_is (journal_ (engine_ s)) ds → logged (engine_ s) ds →
    (∀ k v ver, g_pending g = Some (k, v, ver) → journalable (mkEntry k v ver Dirty) ∧ upsert k v ver ∈ ds) →
    ∃ ds', log_is (journal_ e') ds' ∧ logged e' ds' ∧
      (∀ k v ver, g_pending g' = Some (k, v, ver) → journalable (mkEntry k v ver Dirty) ∧ upsert k v ver ∈ ds') ∧
      ds ⊆ ds') →
  journal_step (engine_ s) e' →
  g' = mkGhost true (g_pending g') (g_phase g) (g_inserts g') (g_flusher g) (g_stop g) (g_joining g) (g_background g) →
  step_ok s g (Threads.set_engine s e') g'.
Proof.
  intros Hnp HI Hi Ha Hok Hlen Hl Hn Hp Hver Hc Hn' Hlog Hjs ->.
  pose proof (admitted_in_flight s gs i g HI Hi Ha) as Hb. pose proof (inv_ghosts _ _ HI i g Hi) as Hg.
  constructor; cbn [engine_ Threads.set_engine backgroundFlushThread_ g_phase g_background g_pending g_inserts]; try done.
  - intros ds L1 L2 L3. destruct (Hlog ds L1 L2 L3) as (ds' & ? & ? & ? & ?). exists ds'. split_and!; auto.
  - unfold in_flight. cbn. rewrite Ha. lia.
  - rewrite Hp. intros Hpa. destruct (pauses (g_phase g)); [by left|by right].
  - destruct (ghost_ok_busy s e' g Hnp Hb Hl Hp Hg). by constructor.
  - intros g0 _. by apply ghost_ok_busy.
Qed.

Lemma step_append_upsert s gs i g k v :
  no_puts = false → Inv s gs → gs !! i = Some g → g_admitted g = true → g_pending g = None → op_fits (OpPut k v) →
  ∃ ver e', Threads.append_upsert k v (engine_ s) = (Success tt, ver, e') ∧
    step_ok s g (Threads.set_engine s e') (set_pending g (Some (k, v, ver))).
Proof.
  intros Hnp HI Hi Ha Hnone [Hk Hv]. unfold Threads.append_upsert, Engine.AppendJournalRecordWithNewVersion. cbn [rec_formatVersion rec_type rec_key rec_value].
  set (ver := wrap64 _). fold (upsert k v ver).
  assert (u64 ver) as Hver by (by apply wrap_width).
  destruct (Engine.AppendJournalRecord _ _) as [r e'] eqn:E.
  apply AppendJournalRecord_contract in E as (Hs & (_ & _ & _ & _ & Hl & Hn & Hp & _) & _ & Hlog).
  cbn [set_version shards_ lifecycle_ inFlightWriteCount_ compactionPaused_ journal_] in *.
  assert (record_ok (upsert k v ver)) as Hrec by (by constructor).
  destruct (inv_log _ _ HI) as (ds0 & Hl0 & _). destruct (Hlog ds0 Hl0 Hrec) as [-> _].
  exists ver, e'. split; [done|]. pose proof (inv_shards _ _ HI) as He.
  assert (∀ k', engine_get e' k' = engine_get (engine_ s) k') as Hget by (intros; by apply engine_get_same).
  eapply busy_step; try done.
  - by eapply shards_ok_same.
  - by rewrite Hs.
  - intros k' en. rewrite Hget. apply (inv_version _ _ HI).
  - cbn. rewrite (entry_count_same (engine_ s) e') by done. lia.
  - apply (inv_ghosts _ _ HI i g Hi).
  - intros ds Hds Hlg _. destruct (Hlog ds Hds Hrec) as [_ Hds']. exists (ds ++ [upsert k v ver]).
    split; [done|]. split; [|split].
    + intros k' en [Hk' Hc]. rewrite Hget in Hk'. destruct (Hlg k' en) as [? ?]; [done|]. split; [done|].
      by apply elem_of_app; left.
    + intros k' v' ver' [= <- <- <-]. split; [done|]. apply elem_of_app; right. by apply list_elem_of_singleton.
    + intros x Hx. by apply elem_of_app; left.
  - intros ds Hds. destruct (Hlog ds Hds Hrec) as [_ Hds']. left. by eexists.
  - unfold set_pending. cbn. by rewrite Ha.
Qed.

Lemma step_insert_dirty s gs i g k v ver :
  no_puts = false → Inv s gs → gs !! i = Some g → g_admitted g = true → g_pending g = Some (k, v, ver) → 1 ≤ g_inserts g →
  step_ok s g (Threads.set_engine s (Threads.insert_dirty hash k v ver (engine_ s)))
    (spend 1 (set_pending g None)).
Proof.
  intros Hnp HI Hi Ha Hpd Hins. pose proof (inv_shards _ _ HI) as He. unfold Threads.insert_dirty.
  destruct (insert_or_update_contract hash (engine_ s) k v ver Dirty true He) as (Hok & Hf & [_ Hj] & Hg).
  pose proof (insert_or_update_count hash (engine_ s) k v ver Dirty true He) as Hc.
  set (e' := Engine.insert_or_update (engine_ s) (ShardFor (engine_ s) k) k v ver Dirty true) in *.
  destruct Hf as (_ & _ & _ & _ & Hl & Hn & Hp & Hlen).
  assert (∀ k' en, engine_get e' k' = Some en →
    engine_get (engine_ s) k' = Some en ∨ k' = k ∧ en = mkEntry k v ver Dirty) as Hsub.
  { intros k' en Hk. destruct (stale _ _); [left; by rewrite <- Hg|]. destruct Hg as [Hev _].
    destruct (Hev k') as [Heq|(? & _ & _ & ?)]; [|congruence]. rewrite Heq in Hk.
    destruct (decide (k' = k)) as [->|]; [|by left]. injection Hk as <-. by right. }
  destruct (inv_log _ _ HI) as (ds0 & _ & _ & Hp0).
  destruct (Hp0 g k v ver) as [Hjo _]; [by eapply list_elem_of_lookup_2|done|].
  eapply busy_step; try done.
  - intros k' en Hk. destruct (Hsub k' en Hk) as [?|[_ ->]]; [by eapply (inv_version _ _ HI)|]. apply Hjo.
  - cbn. lia.
  - cbn. lia.
  - intros ds Hds Hlg Hpds. exists ds. rewrite Hj. split; [done|]. split; [|done].
    intros k' en [Hk Hcl]. destruct (Hsub k' en Hk) as [?|[-> ->]]; [by apply (Hlg k')|]. by apply Hpds.
  - by apply journal_step_same.
  - unfold spend, set_pending. cbn. by rewrite Ha.
Qed.

(** Steps that leave the shards and the journal alone. *)
Lemma control_step s gs i g s' g' :
  Inv s gs → gs !! i = Some g →
  shards_ (engine_ s') = shards_ (engine_ s) → journal_ (engine_ s') = journal_ (engine_ s) →
  g_pending g' = g_pending g → g_inserts g' = g_inserts g → g_flusher g' = g_flusher g →
  (g_background g = false → g_background g' = false) →
  inFlightWriteCount_ (engine_ s') = inFlightWriteCount_ (engine_ s) - in_flight g + in_flight g' →
  (compactionPaused_ (engine_ s') = true →
    pauses (g_phase g') = true ∨ compactionPaused_ (engine_ s) = true ∧ pauses (g_phase g) = false) →
  (backgroundFlushThread_ s' = Running → backgroundFlushThread_ s = Running ∧ g_background g' = g_background g) →
  ghost_ok s' g' →
  (∀ g0, (no_puts = false → g_flusher g = true → g_flusher g0 = false) → ghost_ok s g0 → ghost_ok s' g0) →
  step_ok s g s' g'.
Proof.
  intros HI Hi Hs Hj Hpe Hin Hfl Hcl Hn Hp Hb Hself Hoth. pose proof (inv_shards _ _ HI) as He.
  assert (∀ k, engine_get (engine_ s') k = engine_get (engine_ s) k) as Hget by (intros; by apply engine_get_same).
  constructor; try done.
  - by eapply shards_ok_same.
  - by rewrite Hs.
  - intros k en. rewrite Hget. apply (inv_version _ _ HI).
  - intros ds Hds Hlg Hpd. exists ds. rewrite Hj, Hpe. split; [done|]. split; [|split; [done|by left]].
    intros k en [Hk Hc]. rewrite Hget in Hk. by apply (Hlg k).
  - rewrite (entry_count_same (engine_ s) (engine_ s')) by done. lia.
  - by apply journal_step_same.
Qed.

Lemma counted_same e e' n acc : shards_ e' = shards_ e → counted e n acc → counted e' n acc.
Proof. intros E []. by constructor; rewrite ?E. Qed.

(** Moving [inFlightWriteCount_] and [compactionPaused_]. *)
Lemma ghost_ok_admission s n p g :
  (closed (engine_ s) → g_phase g ≠ Outside → p = true ∨ stopping (lifecycle_ (engine_ s))) →
  (inFlightWriteCount_ (engine_ s) = 0 → closed (engine_ s) → n = 0) →
  ghost_ok s g → ghost_ok (Threads.set_engine s (set_admission (engine_ s) n p)) g.
Proof.
  intros Hp Hn [G1 G2 G3 G4 G5 G6 G7 G8].
  constructor; cbn [engine_ Threads.set_engine set_admission backgroundFlushStopRequested_ lifecycle_
    inFlightWriteCount_ compactionPaused_]; try done.
  - intros Hph. unfold closed. cbn. destruct (G4 Hph); [by left|right; by apply Hp].
  - intros b m acc Hm. destruct (G5 b m acc Hm) as [Hz Hc]. split; [|by apply (counted_same (engine_ s))].
    destruct Hz as [?|Hz]; [by left|]. destruct G4 as [?|Hcl]; [by rewrite Hm|by left|right; by apply Hn].
  - intros Hd. apply Hn; [by apply G7|]. right. apply G6. by rewrite Hd.
Qed.

Definition may_write g : Prop :=
  0 ≤ g_inserts g ∧ g_admitted g = false ∧ g_pending g = None ∧ g_phase g = Outside.

Lemma safe_TryAdmitWrite g :
  may_write g → safe Threads.TryAdmitWrite (λ b g', g' = if b then set_admitted g true else g) g.
Proof.
  intros (Hin & Ha & Hpd & Hph) s gs i HI Hi.
  destruct (compactionPaused_ (engine_ s)) eqn:Ep; cbn [negb]; [by split; [|right; auto]|].
  unfold Engine.TryAdmitWrite. case_bool_decide as Hr.
  - exists (set_admitted g true). split; [|done]. rewrite Ep.
    destruct (in_flight_room s gs i g HI Hi Ha) as [Hlo Hhi].
    rewrite wrap_small by (unfold in_width; lia).
    assert (∀ g0, ghost_ok s g0 → ghost_ok (Threads.set_engine s
      (set_admission (engine_ s) (inFlightWriteCount_ (engine_ s) + 1) false)) g0) as Hoth.
    { intros g0. apply ghost_ok_admission; unfold closed, stopping; rewrite Ep, Hr.
      - by intros [|[|]].
      - by intros _ [|[|]]. }
    eapply control_step; try done.
    + unfold in_flight. cbn. rewrite Ha. lia.
    + destruct (Hoth g (inv_ghosts _ _ HI i g Hi)). by constructor.
    + auto.
  - exists g. split; [|done]. rewrite <- (spend_0 g) at 2.
    eapply gentle_step; [done|done|by apply gentle_refl, (inv_shards _ _ HI)|lia].
Qed.

Lemma safe_ReleaseWriteAdmission g :
  g_admitted g = true → g_pending g = None →
  safe Threads.ReleaseWriteAdmission (λ _ g', g' = set_admitted g false) g.
Proof.
  intros Ha Hpd. apply safe_act. intros s gs i HI Hi. cbn [fst snd]. eexists. split; [|done].
  pose proof (admitted_in_flight s gs i g HI Hi Ha) as Hb.
  assert (0 ≤ inFlightWriteCount_ (engine_ s)) as Hnn.
  { rewrite (inv_inFlight _ _ HI). apply zsum_nonneg. intros x. unfold in_flight. case_match; lia. }
  unfold Engine.ReleaseWriteAdmission. destruct (Z.ltb_spec 0 (inFlightWriteCount_ (engine_ s))); [|lia].
  assert (∀ g0, ghost_ok s g0 → ghost_ok (Threads.set_engine s (set_admission (engine_ s)
    (inFlightWriteCount_ (engine_ s) - 1) (compactionPaused_ (engine_ s)))) g0) as Hoth.
  { intros g0. apply ghost_ok_admission; [intros [->|?]; auto|lia]. }
  eapply control_step; try done.
  - unfold in_flight. cbn. rewrite Ha. lia.
  - intros Hpa. cbn. destruct (pauses (g_phase g)); [by left|by right].
  - destruct (Hoth g (inv_ghosts _ _ HI i g Hi)). by constructor.
  - auto.
Qed.

Lemma safe_admitted_write body g :
  may_write g →
  safe body (λ _ g', ∃ n, 0 ≤ n ≤ 1 ∧ g' = spend n (set_admitted g true)) (set_admitted g true) →
  safe (Threads.admitted_write body) (λ _ g', ∃ n, 0 ≤ n ≤ 1 ∧ g' = spend n g) g.
Proof.
  intros Hm Hbody. pose proof Hm as (Hin & Ha & Hpd & Hph).
  eapply safe_bind; [by apply safe_TryAdmitWrite|]. intros [|] g' ->; cbn [negb].
  2:{ exists 0. rewrite spend_0. split; [lia|done]. }
  eapply safe_bind; [exact Hbody|]. intros r g' (n & Hn & ->).
  eapply safe_bind; [by apply safe_ReleaseWriteAdmission|]. intros _ g' ->.
  exists n. split; [done|]. unfold spend, set_admitted. cbn. by rewrite Ha.
Qed.

Lemma safe_Put k v g :
  no_puts = false → may_write g → 1 ≤ g_inserts g → op_fits (OpPut k v) →
  safe (Threads.Put hash k v) (λ _ g', ∃ n, 0 ≤ n ≤ 1 ∧ g' = spend n g) g.
Proof.
  intros Hnp Hm Hins Hfit. pose proof Hm as (Hin & Ha & Hpd & Hph).
  assert (∀ A (a : A), safe (Ret a) (λ _ g', ∃ n, 0 ≤ n ≤ 1 ∧ g' = spend n g) g) as Hret.
  { intros A a. exists 0. rewrite spend_0. split; [lia|done]. }
  eapply safe_bind; [by apply safe_peek|]. intros [[]|err] g' ->; [|by apply Hret].
  eapply safe_bind; [by apply safe_peek|]. intros on g' ->. destruct (negb on); [by apply Hret|].
  apply safe_admitted_write; [done|]. unfold Threads.Put_admitted.
  eapply (safe_bind _ _ (λ rv g', fst rv = Success tt ∧
    g' = set_pending (set_admitted g true) (Some (k, v, snd rv)))).
  { apply safe_act. intros s gs i HI Hi.
    destruct (step_append_upsert s gs i _ k v Hnp HI Hi eq_refl Hpd Hfit) as (ver & e' & -> & Hst).
    cbn [fst snd]. eexists. split; [exact Hst|done]. }
  intros [r ver] g' [Hr ->]. cbn [fst snd] in *. subst r.
  eapply (safe_bind _ _ (λ _ g', g' = spend 1 (set_admitted g true))).
  { apply safe_act. intros s gs i HI Hi. cbn [fst snd]. eexists. split; [by apply (step_insert_dirty s gs i)|].
    unfold set_pending, set_admitted, spend. cbn. by rewrite Hpd. }
  intros _ g' ->. set (g1 := spend 1 (set_admitted g true)).
  assert (0 ≤ g_inserts g1) as Hn1 by (cbn; lia).
  eapply safe_bind; [by apply safe_peek|]. intros i g' ->.
  eapply safe_bind; [by apply safe_relieve|]. intros _ g' ->.
  eapply safe_bind; [by apply safe_peek|]. intros policy g' ->.
  destruct policy; [|exists 1; split; [lia|done]].
  eapply safe_mono; [by apply safe_FlushKey|]. intros _ g' ->. exists 1. split; [lia|done].
Qed.

Lemma safe_InvalidateImpl k force g :
  may_write g → str_size k ≤ kMaxReasonableLength →
  safe (Threads.InvalidateImpl hash k force) (λ _ g', ∃ n, 0 ≤ n ≤ 1 ∧ g' = spend n g) g.
Proof.
  intros Hm Hk. pose proof Hm as (Hin & Ha & Hpd & Hph).
  eapply safe_bind; [by apply safe_peek|]. intros [[]|err] g' ->.
  2:{ exists 0. rewrite spend_0. split; [lia|done]. }
  apply safe_admitted_write; [done|]. set (g1 := set_admitted g true).
  apply (safe_mono _ (λ _ g', g' = g1)).
  2:{ intros _ g' ->. exists 0. rewrite spend_0. split; [lia|done]. }
  eapply safe_bind.
  { apply (safe_read _ (λ o, match o with Some ver => u64 ver | None => True end)); [done|].
    intros s gs HI. unfold Engine.Invalidate_peek.
    pose proof (shard_at_ok (engine_ s) (ShardFor (engine_ s) k) (sh_shards _ _ (inv_shards _ _ HI))) as Hs.
    destruct (find _ k) as [[it en]|] eqn:Ef; [|done]. destruct (_ && _); [done|].
    eapply (inv_version _ _ HI k). unfold EngineFacts.engine_get. by eapply find_get. }
  intros [ver|] g' [Hv ->]; [|done].
  eapply safe_bind; [apply safe_append; [by constructor|done]|]. intros [|] g' ->; [|done].
  eapply safe_bind.
  { apply safe_gentle0; [|done]. intros e He. unfold Threads.store_remove.
    destruct (IBackingStore.Remove _ _). by apply gentle_store. }
  intros [|] g' ->; [|done].
  eapply safe_bind; [apply safe_modify; [intros; by apply gentle_invalidate|done]|]. intros _ g' ->.
  eapply safe_bind; [apply safe_modify; [intros; by apply gentle_count|done]|]. by intros _ g' ->.
Qed.

Lemma safe_Get k g :
  may_write g → 1 ≤ g_inserts g →
  safe (Threads.Get hash k) (λ _ g', ∃ n, 0 ≤ n ≤ 1 ∧ g' = spend n g) g.
Proof.
  intros (Hin & Ha & Hpd & Hph) Hins.
  assert (∀ A (a : A), safe (Ret a) (λ _ g', ∃ n, 0 ≤ n ≤ 1 ∧ g' = spend n g) g) as Hret.
  { intros A a. exists 0. rewrite spend_0. split; [lia|done]. }
  eapply safe_bind; [by apply safe_peek|]. intros [[]|err] g' ->; [|by apply Hret].
  eapply safe_bind; [by apply safe_peek|]. intros on g' ->. destruct (negb on); [by apply Hret|].
  eapply safe_bind; [apply safe_gentle0; [intros; by apply gentle_lookup|done]|].
  intros [v|fence] g' ->; [by apply Hret|].
  eapply safe_bind; [apply safe_modify; [intros; by apply gentle_count|done]|]. intros _ g' ->.
  eapply safe_bind.
  { apply safe_gentle0; [|done]. intros e He. unfold Threads.store_get.
    destruct (IBackingStore.Get _ _). by apply gentle_store. }
  intros [v|err] g' ->; [|by apply Hret]. destruct (_ <? _); [by apply Hret|].
  eapply safe_bind; [apply (safe_gentle 1 (λ _, True)); [intros; by apply gentle_fill|lia|done]|].
  intros v' g' [_ ->]. exists 1. split; [lia|done].
Qed.

Lemma safe_Flush k g : 0 ≤ g_inserts g → safe (Threads.Flush hash k) (λ _ g', g' = g) g.
Proof.
  intros Hn. eapply safe_bind; [by apply safe_peek|]. intros [[]|err] g' ->; [|done]. by apply safe_FlushKey.
Qed.

(** *** Compaction *)

(** A thread that may empty the journal: the only flusher, or one that has
    stopped the engine and seen the last writer leave. *)
Definition may_compact g : Prop :=
  may_write g ∧ (g_flusher g = true ∨ g_stop g = Drained).

Lemma ghosts_entry_count s gs : Inv s gs → entry_count (engine_ s) < 2 ^ 64.
Proof.
  intros HI. pose proof (inv_count _ _ HI). enough (0 ≤ zsum g_inserts gs) by lia.
  assert (∀ g, g ∈ gs → 0 ≤ g_inserts g) as Hg.
  { intros g (i & Hi)%list_elem_of_lookup_1. by apply (inv_ghosts _ _ HI i g). }
  clear -Hg. induction gs as [|g gs IH]; [done|]. unfold zsum in *. cbn.
  pose proof (Hg g ltac:(by left)). enough (0 ≤ foldr (λ x acc, g_inserts x + acc) 0 gs) by lia.
  apply IH. intros x Hx. apply Hg. by right.
Qed.

(** A change of phase only. *)
Lemma phase_step s gs i g e' ph :
  Inv s gs → gs !! i = Some g →
  shards_ e' = shards_ (engine_ s) → journal_ e' = journal_ (engine_ s) →
  lifecycle_ e' = lifecycle_ (engine_ s) → inFlightWriteCount_ e' = inFlightWriteCount_ (engine_ s) →
  (compactionPaused_ e' = true → pauses ph = true ∨ compactionPaused_ (engine_ s) = true ∧ pauses (g_phase g) = false) →
  (ph ≠ Outside → g_flusher g = true ∨ g_stop g = Drained) →
  (ph ≠ Outside → no_puts = true ∨ closed e') →
  (∀ b n acc, ph = Counting b n acc →
    (no_puts = true ∨ inFlightWriteCount_ (engine_ s) = 0) ∧ counted (engine_ s) n acc) →
  (∀ g0, (no_puts = false → g_flusher g = true → g_flusher g0 = false) → ghost_ok s g0 → g_phase g0 ≠ Outside →
    no_puts = true ∨ closed e') →
  step_ok s g (Threads.set_engine s e') (set_phase g ph).
Proof.
  intros HI Hi Hs Hj Hl Hn Hp Hwho Hcl Hct Hoth.
  assert (∀ g0, (g_phase g0 ≠ Outside → no_puts = true ∨ closed e') → ghost_ok s g0 → ghost_ok (Threads.set_engine s e') g0) as Hkeep.
  { intros g0 Hg0 [G1 G2 G3 G4 G5 G6 G7 G8].
    constructor; cbn [engine_ Threads.set_engine backgroundFlushStopRequested_]; rewrite ?Hl, ?Hn; try done.
    intros b m acc Hm. destruct (G5 b m acc Hm). split; [done|]. by apply (counted_same (engine_ s)). }
  eapply control_step; try done.
  - cbn. rewrite Hn. unfold in_flight. cbn. lia.
  - destruct (inv_ghosts _ _ HI i g Hi) as [G1 G2 G3 G4 G5 G6 G7 G8].
    constructor; cbn [engine_ Threads.set_engine backgroundFlushStopRequested_ set_phase g_inserts g_pending
      g_admitted g_phase g_flusher g_stop g_joining]; rewrite ?Hl, ?Hn; try done.
    intros b m acc Hm. destruct (Hct b m acc Hm). split; [done|]. by apply (counted_same (engine_ s)).
  - intros g0 Hf Hg0. apply Hkeep; [|done]. by apply Hoth.
Qed.

(** Such a change that does not resume admission. *)
Lemma phase_step_closed s gs i g e' ph :
  Inv s gs → gs !! i = Some g →
  shards_ e' = shards_ (engine_ s) → journal_ e' = journal_ (engine_ s) →
  lifecycle_ e' = lifecycle_ (engine_ s) → inFlightWriteCount_ e' = inFlightWriteCount_ (engine_ s) →
  (compactionPaused_ e' = true → pauses ph = true ∨ compactionPaused_ (engine_ s) = true ∧ pauses (g_phase g) = false) →
  (g_flusher g = true ∨ g_stop g = Drained) → no_puts = true ∨ closed e' →
  (∀ b n acc, ph = Counting b n acc →
    (no_puts = true ∨ inFlightWriteCount_ (engine_ s) = 0) ∧ counted (engine_ s) n acc) →
  step_ok s g (Threads.set_engine s e') (set_phase g ph).
Proof. intros. by eapply phase_step. Qed.

Lemma safe_pause g :
  may_compact g → safe (Threads.pause_admission true) (λ _ g', g' = set_phase g Pausing) g.
Proof.
  intros [_ Hwho]. apply safe_act. intros s gs i HI Hi. cbn [fst snd]. eexists. split; [|done].
  eapply phase_step_closed; try done; [by left|by right; left].
Qed.

(** Another thread that counts while this one resumes admission relies on the
    end of the engine. *)
Lemma safe_resume g ph :
  may_compact g → safe (Threads.pause_admission false) (λ _ g', g' = g) (set_phase g ph).
Proof.
  intros [(_ & _ & _ & Hph) Hwho]. apply safe_act. intros s gs i HI Hi. cbn [fst snd]. exists g. split; [|done].
  assert (set_phase (set_phase g ph) Outside = g) as Hback by (destruct g; cbn in *; by rewrite Hph).
  rewrite <- Hback at 2. eapply phase_step; try done.
  intros g0 Hf G0 Hp0. pose proof (inv_ghosts _ _ HI i _ Hi) as Hg.
  destruct no_puts eqn:Hnp; [by left|]. right. right. cbn [set_admission lifecycle_].
  destruct (go_who _ _ G0 Hp0) as [Hfl|Hd]; [|by apply (go_stop _ _ G0); rewrite Hd].
  destruct Hwho as [Hw|Hw]; [cbn in Hf; rewrite (Hf eq_refl Hw) in Hfl; done|].
  apply (go_stop _ _ Hg). cbn. by rewrite Hw.
Qed.

Lemma safe_drain g :
  may_compact g →
  safe Threads.DrainInFlightWrites (λ _ g', g' = set_phase g (Counting true 0 0)) (set_phase g Pausing).
Proof.
  intros [(_ & Ha & _) Hwho] s gs i HI Hi. pose proof (inv_ghosts _ _ HI i _ Hi) as Hg.
  destruct (Z.eqb_spec (inFlightWriteCount_ (engine_ s)) 0) as [Hz|Hnz]; [|by split; [|left]].
  exists (set_phase (set_phase g Pausing) (Counting true 0 0)). split; [|done].
  eapply phase_step_closed; try done.
  - by left.
  - by apply (go_closed _ _ Hg).
  - intros b n acc [= <- <- <-]. split; [by right|]. by eapply counted_start, ghosts_entry_count.
Qed.

Lemma safe_sum_dirty b m : ∀ n acc g,
  (n + m = N)%nat → g_phase g = Counting b n acc →
  safe (Threads.sum_dirty (seq n m) acc) (λ r g', g' = set_phase g (Counting b N r)) g.
Proof.
  induction m as [|m IH]; intros n acc g Hnm Hph; cbn [seq Threads.sum_dirty].
  - rewrite <- Hnm, Nat.add_0_r. cbn. rewrite <- Hph. by destruct g.
  - eapply (safe_bind _ _ (λ d g', g' = set_phase g (Counting b (S n) (wrap64 (acc + d))))).
    + apply safe_act. intros s gs i HI Hi. cbn [fst snd]. eexists. split; [|done].
      pose proof (inv_ghosts _ _ HI i _ Hi) as Hg. destruct (go_counting _ _ Hg b n acc Hph) as [Hz Hc].
      assert (g_phase g ≠ Outside) as Hne by (by rewrite Hph).
      eapply phase_step_closed; try done.
      * rewrite Hph. intros Hp. destruct b; [by left|by right].
      * by apply (go_who _ _ Hg).
      * by apply (go_closed _ _ Hg).
      * intros b' n' acc' [= <- <- <-]. split; [done|].
        apply counted_next; [apply (inv_shards _ _ HI)| |done]. rewrite (inv_length _ _ HI). lia.
    + intros d g' ->. eapply safe_mono; [by apply IH; [lia|]|]. by intros r g' ->.
Qed.

(** The truncation: every entry is clean, and no record is awaited. *)
Lemma truncate_step s gs i g b ph :
  Inv s gs → gs !! i = Some g → g_pending g = None → g_phase g = Counting b N 0 →
  ph = Counting b N 0 ∨ b = false ∧ ph = Outside →
  step_ok s g (Threads.set_engine s (set_journal (engine_ s) (snd (Truncate (journal_ (engine_ s)))))) (set_phase g ph).
Proof.
  intros HI Hi Hpd Hph Hnew. pose proof (inv_shards _ _ HI) as He. pose proof (inv_ghosts _ _ HI i _ Hi) as Hg.
  destruct (go_counting _ _ Hg b N 0 Hph) as [Hz Hc].
  set (e' := set_journal _ _).
  assert (∀ k, engine_get e' k = engine_get (engine_ s) k) as Hget by (intros; by apply engine_get_same).
  assert (∀ g0, ghost_ok s g0 → ghost_ok (Threads.set_engine s e') g0) as Hkeep.
  { intros g0 [G1 G2 G3 G4 G5 G6 G7 G8]. constructor; try done.
    intros b' m acc Hm. destruct (G5 b' m acc Hm). split; [done|]. by apply (counted_same (engine_ s)). }
  constructor; try done.
  - by apply (shards_ok_same hash (engine_ s)).
  - intros k en. cbn [engine_ Threads.set_engine]. rewrite Hget. apply (inv_version _ _ HI).
  - intros ds (Hr & _ & _) _ _. exists [].
    destruct (Truncate_reliable _ Hr) as (j' & Et & Hr'). destruct (Truncate_ok _ _ Et) as [Hcl Hrec].
    split; [|split; [|split; [cbn; by rewrite Hpd|by right]]].
    + cbn. rewrite Et. split; [done|]. split; [done|]. cbn. rewrite Hrec. constructor.
    + intros k en [Hk Hcln]. cbn [engine_ Threads.set_engine] in Hk. rewrite Hget in Hk.
      rewrite (counted_all_clean (engine_ s) N k en) in Hcln; [done|done| |done|done].
      by rewrite (inv_length _ _ HI).
  - unfold in_flight. cbn. lia.
  - rewrite Hph. cbn. intros Hp. destruct Hnew as [->|[-> ->]]; [destruct b; [by left|by right]|by right].
  - destruct (Hkeep g Hg) as [G1 G2 G3 G4 G5 G6 G7 G8].
    destruct Hnew as [->|[-> ->]]; constructor; try done.
    + intros _. apply G3. by rewrite Hph.
    + intros _. apply G4. by rewrite Hph.
    + intros b' m acc [= <- <- <-]. by apply (G5 b).
  - intros g0 _. apply Hkeep.
  - intros ds _. right. intros k en Hk. apply (counted_all_clean (engine_ s) N k en); [done| |done|done].
    by rewrite (inv_length _ _ HI).
Qed.

Lemma safe_compact_journal g :
  may_compact g →
  safe (Threads.act Threads.compact_journal)
    (λ already g', g' = if already : bool then g else set_phase g (Counting true N 0)) (set_phase g (Counting true N 0)).
Proof.
  intros Hm. apply safe_act. intros s gs i HI Hi. unfold Threads.compact_journal.
  destruct (RecordCount _ =? 0); cbn [fst snd].
  - (** what [pause_admission false] does *)
    pose proof (safe_resume g (Counting true N 0) Hm s gs i HI Hi) as (g' & Hst & ->). by exists g.
  - eexists. split; [|done]. destruct Hm as [(_ & _ & Hpd & _) _].
    eapply (truncate_step s gs i (set_phase g (Counting true N 0)) true); try done. by left.
Qed.

Lemma safe_TryCompact g :
  may_compact g → safe Threads.TryCompactJournalIfFullyClean (λ _ g', g' = g) g.
Proof.
  intros Hm. pose proof Hm as [(Hin & Ha & Hpd & Hph) Hwho].
  eapply safe_bind; [by apply safe_peek|]. intros n g' ->. destruct (n =? 0); [done|].
  eapply safe_bind; [by apply safe_pause|]. intros _ g' ->.
  eapply safe_bind; [by apply safe_drain|]. intros _ g' ->.
  eapply safe_bind.
  { apply (safe_read _ (λ shs, shs = seq 0 N)); [done|]. intros s gs HI. unfold Threads.shard_indexes.
    by rewrite (inv_length _ _ HI). }
  intros shs g' [-> ->]. eapply safe_bind; [by eapply (safe_sum_dirty true N 0)|]. intros r g' ->.
  destruct (Z.eqb_spec r 0) as [->|_]; [|by apply (safe_resume g (Counting true N r))].
  eapply safe_bind; [by apply (safe_compact_journal g)|]. intros [|] g' ->; [done|by apply safe_resume].
Qed.

Lemma safe_FlushAll g : may_compact g → safe (Threads.FlushAll hash) (λ _ g', g' = g) g.
Proof.
  intros Hm. pose proof Hm as [(Hin & Ha & Hpd & Hph) Hwho].
  eapply safe_bind; [by apply safe_peek|]. intros [[]|err] g' ->; [|done].
  eapply safe_bind; [by apply safe_peek|]. intros shs g' ->.
  eapply safe_bind; [by apply safe_flush_shards|]. intros [err|] g' ->; [done|].
  eapply safe_bind; [by apply safe_TryCompact|]. by intros _ g' ->.
Qed.

(** *** The background flusher and the shutdown *)

Lemma stay_step s gs i g : Inv s gs → gs !! i = Some g → step_ok s g s g.
Proof.
  intros HI Hi. pose proof (inv_ghosts _ _ HI i g Hi) as [Hn _ _ _ _ _ _ _].
  assert (Threads.set_engine s (engine_ s) = s) as Hs by (by destruct s).
  rewrite <- (spend_0 g) at 2. rewrite <- Hs at 2.
  eapply gentle_step; [done|done|by apply gentle_refl, (inv_shards _ _ HI)|lia].
Qed.

(** A step on the state of the background thread. *)
Lemma background_step s gs i g t stop g' :
  Inv s gs → gs !! i = Some g →
  (t = Running → backgroundFlushThread_ s = Running ∧ g_background g' = g_background g) →
  (backgroundFlushStopRequested_ s = true → stop = true) →
  (g_joining g' = true → stop = true) →
  (g_background g = false → g_background g' = false) →
  g' = mkGhost (g_admitted g) (g_pending g) (g_phase g) (g_inserts g) (g_flusher g) (g_stop g)
         (g_joining g') (g_background g') →
  step_ok s g (Threads.set_background s t stop) g'.
Proof.
  intros HI Hi Ht Hstop Hjoin Hcl ->.
  assert (∀ g0, ghost_ok s g0 → ghost_ok (Threads.set_background s t stop) g0) as Hkeep.
  { intros g0 []. constructor; try done. cbn. auto. }
  eapply control_step; try done.
  - unfold in_flight. cbn. lia.
  - cbn. intros Hp. destruct (pauses (g_phase g)); [by left|by right].
  - destruct (Hkeep g (inv_ghosts _ _ HI i g Hi)). by constructor.
  - auto.
Qed.

Definition flusher_thread g : Prop := may_compact g ∧ g_background g = true.

Lemma safe_background_loop n g :
  flusher_thread g → safe (Threads.background_loop hash n) (λ _ g', g' = g) g.
Proof.
  intros [Hm Hb]. pose proof Hm as [(Hin & Ha & Hpd & Hph) _].
  induction n as [|n IH]; cbn [Threads.background_loop];
    (eapply (safe_bind _ _ (λ _ g', g' = g));
      [intros s gs i HI Hi; destruct (backgroundFlushStopRequested_ s) eqn:Es|]).
  1,4: exists g; split; [by eapply stay_step|done].
  - split; [done|]. right. split; [done|]. right. by right.
  - by intros [|] g' ->.
  - exists g. split; [by eapply stay_step|done].
  - intros [|] g' ->; [done|]. eapply safe_bind; [by apply safe_peek|]. intros l g' ->.
    case_bool_decide; [|done]. eapply safe_bind; [by apply safe_FlushAll|]. by intros _ g' ->.
Qed.

(** What every program leaves behind. *)
Definition finished g : Prop :=
  g_admitted g = false ∧ pauses (g_phase g) = false ∧ g_background g = false.

Lemma safe_background_thread n g :
  flusher_thread g → safe (Threads.background_thread hash n) (λ _ g', finished g') g.
Proof.
  intros Hf. pose proof Hf as [[(Hin & Ha & Hpd & Hph) _] Hb].
  eapply safe_bind; [by apply safe_background_loop|]. intros _ g' -> s gs i HI Hi.
  exists (unset_background g). split; [|by unfold finished; cbn; rewrite Hph].
  eapply background_step; try done. apply (inv_ghosts _ _ HI i g Hi).
Qed.

(** A thread that has stopped the engine and seen the last writer leave. *)
Definition stopper g : Prop :=
  may_write g ∧ g_stop g = Drained ∧ g_background g = false.

Lemma safe_StopBackgroundFlushThread g :
  stopper g → safe Threads.StopBackgroundFlushThread (λ _ g', stopper g') g.
Proof.
  intros Hst. pose proof Hst as ((Hin & Ha & Hpd & Hph) & Hd & Hb).
  eapply (safe_bind _ _ (λ _ g', g' = g)).
  { intros s gs i HI Hi. exists g. split; [by eapply stay_step|done]. }
  intros [|] g' ->; [|done]. cbn [negb].
  eapply (safe_bind _ _ (λ _ g', g' = set_joining g)).
  { intros s gs i HI Hi. exists (set_joining g). split; [|done]. by eapply background_step. }
  intros _ g' -> s gs i HI Hi. case_bool_decide as Hr.
  - split; [done|]. right. split; [done|]. right. by left.
  - exists (set_joining g). split; [|done]. eapply background_step; try done.
    intros _. by apply (go_joining _ _ (inv_ghosts _ _ HI i _ Hi)).
Qed.

(** Moving the lifecycle towards its end. *)
Lemma lifecycle_step s gs i g l p :
  Inv s gs → gs !! i = Some g → g_phase g = Outside → stopping l →
  (p = Drained → inFlightWriteCount_ (engine_ s) = 0) →
  step_ok s g (Threads.set_engine s (set_lifecycle (engine_ s) l)) (set_stop g p).
Proof.
  intros HI Hi Hph Hl Hp.
  assert (∀ g0, ghost_ok s g0 → ghost_ok (Threads.set_engine s (set_lifecycle (engine_ s) l)) g0) as Hkeep.
  { intros g0 [G1 G2 G3 G4 G5 G6 G7 G8]. constructor; try done; [by right; right|].
    intros b m acc Hm. destruct (G5 b m acc Hm). split; [done|]. by apply (counted_same (engine_ s)). }
  eapply control_step; try done.
  - unfold in_flight. cbn. lia.
  - cbn. rewrite Hph. by right.
  - destruct (Hkeep g (inv_ghosts _ _ HI i g Hi)) as [G1 G2 G3 G4 G5 G6 G7 G8].
    constructor; try done; cbn [set_stop g_phase g_stop]; intros; congruence.
  - auto.
Qed.

Lemma safe_Shutdown g :
  may_write g → g_stop g = Working → g_background g = false →
  safe (Threads.Shutdown hash) (λ _ g', finished g') g.
Proof.
  intros Hm Hw Hb. pose proof Hm as (Hin & Ha & Hpd & Hph).
  eapply (safe_bind _ _ (λ was g', g' = match was with Ready => set_stop g Draining | _ => g end)).
  { apply safe_act. intros s gs i HI Hi. unfold Threads.begin_stop.
    pose proof (gentle_step s gs i g 0 (engine_ s) HI Hi (gentle_refl _ (inv_shards _ _ HI)) ltac:(lia)) as Hstay.
    rewrite spend_0 in Hstay.
    destruct (lifecycle_ (engine_ s)); cbn [fst snd]; try (by exists g).
    exists (set_stop g Draining). split; [|done]. eapply lifecycle_step; try done. by left. }
  assert (finished g) as Hfin by (unfold finished; by rewrite Hph).
  intros [] g' ->; try done.
  eapply (safe_bind _ _ (λ _ g', g' = set_stop g Drained)).
  { intros s gs i HI Hi. pose proof (inv_ghosts _ _ HI i _ Hi) as Hg.
    destruct (Z.eqb_spec (inFlightWriteCount_ (engine_ s)) 0) as [Hz|Hnz]; [|by split; [|left]].
    exists (set_stop g Drained). split; [|done].
    assert (set_lifecycle (engine_ s) (lifecycle_ (engine_ s)) = engine_ s) as Hl by (by destruct (engine_ s)).
    rewrite <- Hl. change (set_stop g Drained) with (set_stop (set_stop g Draining) Drained).
    eapply lifecycle_step; try done. by apply (go_stop _ _ Hg). }
  intros _ g' ->.
  eapply safe_bind; [by apply safe_StopBackgroundFlushThread|]. clear Hm Hw Hb Hin Ha Hpd Hph Hfin g.
  intros _ g (Hm & Hd & Hb). pose proof Hm as (Hin & Ha & Hpd & Hph).
  eapply safe_bind; [by apply safe_FlushAll; split; [|right]|]. intros _ g' ->.
  eapply (safe_bind _ _ (λ _ g', g' = g)).
  { apply safe_act. intros s gs i HI Hi. cbn [fst snd]. exists g. split; [|done].
    assert (set_stop g Drained = g) as Hs by (destruct g; cbn in *; by rewrite Hd).
    rewrite <- Hs at 2. eapply lifecycle_step; try done; [by right|].
    intros _. by apply (go_drained _ _ (inv_ghosts _ _ HI i g Hi)). }
  intros _ g' ->.
  eapply (safe_bind _ _ (λ shs g', shs = seq 0 N ∧ g' = set_phase g (Counting false 0 0))).
  { apply safe_act. intros s gs i HI Hi. cbn [fst snd]. eexists.
    split; [|split; [|done]]; [|unfold Threads.shard_indexes; by rewrite (inv_length _ _ HI)].
    pose proof (inv_ghosts _ _ HI i g Hi) as Hg. pose proof (go_stop _ _ Hg) as Hs. rewrite Hd in Hs.
    eapply phase_step_closed; try done; [rewrite Hph; by right|by right|right; right; by apply Hs|].
    intros b n acc [= <- <- <-]. split; [right; by apply (go_drained _ _ Hg)|]. by eapply counted_start, ghosts_entry_count. }
  intros shs g' [-> ->].
  eapply safe_bind; [by apply (safe_sum_dirty false N 0 0 (set_phase g (Counting false 0 0)))|]. intros r g' ->.
  destruct (Z.eqb_spec r 0) as [->|_]; [|done].
  eapply (safe_bind _ _ (λ _ g', g' = set_phase g Outside)); [|by intros _ g' ->].
  apply safe_act. intros s gs i HI Hi. cbn [fst snd]. eexists. split; [|done].
  eapply (truncate_step s gs i (set_phase g (Counting false N 0)) false); try done. by right.
Qed.

(** *** The clients *)

(** A client's thread: its operations one after the other. *)
Fixpoint script_prog (ops : list Operation) : Prog (Shared B J) (list Outcome) :=
  match ops with
  | [] => Ret []
  | op :: ops =>
    let! out := Threads.op_prog hash op in
    let! outs := script_prog ops in
    Ret (out :: outs)
  end.

(** [MarkRecoveryComplete] comes before there are clients. *)
Definition client_op (op : Operation) : Prop :=
  op_fits op ∧ op ≠ OpMarkRecoveryComplete ∧ (no_puts = true → is_put op = false).

(** Nobody calls an engine it has shut down. *)
Fixpoint client_script (ops : list Operation) : Prop :=
  match ops with
  | [] => True
  | op :: ops => client_op op ∧ (op = OpShutdown → ops = []) ∧ client_script ops
  end.

(** The ghost a client's thread starts with. *)
Definition fresh (script : list Operation) : Ghost :=
  mkGhost false None Outside (zlen script) (bool_decide (OpFlushAll ∈ script)) Working false false.

(** Between two operations of a client that has [script] left. *)
Record client (script : list Operation) g : Prop := {
  cl_write : may_write g;
  cl_inserts : zlen script ≤ g_inserts g;
  cl_flusher : OpFlushAll ∈ script → g_flusher g = true;
  cl_working : g_stop g = Working;
  cl_background : g_background g = false
}.

Lemma client_fresh script : client script (fresh script).
Proof.
  constructor; try done; [|intros Hx; by apply bool_decide_eq_true]. split; [apply zlen_nonneg|done].
Qed.

Lemma client_finished script g : client script g → finished g.
Proof. intros [(_ & Ha & _ & Hph) _ _ _ Hb]. split; [done|]. by rewrite Hph. Qed.

Lemma client_next op script g n :
  client (op :: script) g → 0 ≤ n ≤ 1 → client script (spend n g).
Proof.
  intros [(Hin & Ha & Hpd & Hph) Hi Hf Hw Hb] Hn. rewrite zlen_cons in Hi. pose proof (zlen_nonneg script).
  constructor; cbn; try done; [split; [cbn; lia|done]|lia|]. intros Hx. apply Hf. by right.
Qed.

Lemma safe_op op script g :
  client_op op → client (op :: script) g →
  safe (Threads.op_prog hash op) (λ _ g', match op with OpShutdown => finished g' | _ => client script g' end) g.
Proof.
  intros (Hfit & Hne & Hnp) Hc. pose proof Hc as [Hm Hin Hfl Hw Hb]. pose proof Hm as (Hi & _).
  rewrite zlen_cons in Hin. pose proof (zlen_nonneg script) as Hz.
  assert (∀ n, 0 ≤ n ≤ 1 → client script (spend n g)) as Hs by (intros; by eapply client_next).
  pose proof (Hs 0 ltac:(lia)) as Hsame. rewrite spend_0 in Hsame.
  destruct op as [k|k v|k|k|k| | |]; cbn [Threads.op_prog].
  - eapply safe_bind; [apply safe_Get; [done|lia]|]. intros r g' (n & Hn & ->). by apply Hs.
  - eapply safe_bind; [apply safe_Put; [by destruct no_puts; [discriminate Hnp|]|done|lia|done]|].
    intros r g' (n & Hn & ->). by apply Hs.
  - eapply safe_bind; [by apply safe_InvalidateImpl|]. intros r g' (n & Hn & ->). by apply Hs.
  - eapply safe_bind; [by apply safe_InvalidateImpl|]. intros r g' (n & Hn & ->). by apply Hs.
  - eapply safe_bind; [by apply safe_Flush|]. by intros r g' ->.
  - eapply safe_bind; [apply safe_FlushAll; split; [done|left; apply Hfl; by left]|]. by intros r g' ->.
  - by eapply safe_bind; [by apply safe_Shutdown|].
  - done.
Qed.

Lemma safe_script script : ∀ g,
  client_script script → client script g → safe (script_prog script) (λ _ g', finished g') g.
Proof.
  induction script as [|op script IH]; intros g Hs Hc; cbn [script_prog]; [by eapply client_finished|].
  destruct Hs as (Hop & Hlast & Hs). eapply safe_bind; [by eapply safe_op|]. intros out g' Hg'.
  destruct (decide (op = OpShutdown)) as [->|Hd]; [rewrite Hlast by done; exact Hg'|].
  assert (client script g') by (by destruct op). eapply safe_bind; [by apply IH|]. by intros outs g'' ?.
Qed.

(** *** The pool *)

(** The ghosts of the pool, one per thread; the first [c] are clients. *)
Definition pool_safe {A} (c : nat) (ts : list (Prog (Shared B J) A)) s gs : Prop :=
  Inv s gs ∧ Forall2 (λ p g, safe p (λ _ g', finished g') g) ts gs ∧
  ∀ i g, (i < c)%nat → gs !! i = Some g → g_background g = false.

Lemma pool_step {A} c (ts : list (Prog (Shared B J) A)) s gs i p p' s' :
  pool_safe c ts s gs → ts !! i = Some p → thread_step p s = Some (p', s') →
  journal_step (engine_ s) (engine_ s') ∧ ∃ gs', pool_safe c (<[i := p']> ts) s' gs'.
Proof.
  intros (HI & Hall & Hc) Hi Hst. destruct (Forall2_lookup_l _ _ _ _ _ Hall Hi) as (g & Hg & Hsafe).
  destruct p as [a|R step k]; [done|]. cbn in Hst. specialize (Hsafe s gs i HI Hg). cbn in Hsafe.
  destruct (step s) as [[r s1]|]; [|done]. injection Hst as <- <-. destruct Hsafe as (g' & Hok & Hk).
  split; [apply (st_journal _ _ _ _ Hok)|]. exists (<[i := g']> gs). split; [by eapply Inv_step|].
  split; [by apply Forall2_insert|]. intros j x Hj Hx. apply list_lookup_insert_Some in Hx as [(-> & <- & _)|[_ Hx]].
  - eapply (st_client _ _ _ _ Hok), Hc; done.
  - by eapply Hc.
Qed.

Lemma pool_run {A} c sched : ∀ (ts ts' : list (Prog (Shared B J) A)) s s' gs,
  pool_safe c ts s gs → run_schedule sched ts s = (ts', s') → ∃ gs', pool_safe c ts' s' gs'.
Proof.
  induction sched as [|i sched IH]; intros ts ts' s s' gs HS; cbn [run_schedule]; [intros [= <- <-]; by exists gs|].
  destruct (ts !! i) as [p|] eqn:Ei; cbn [mbind option_bind]; [|by eapply IH].
  destruct (thread_step p s) as [[p' s1]|] eqn:Est; [|by eapply IH].
  destruct (pool_step c ts s gs i p p' s1 HS Ei Est) as (_ & gs1 & HS1). by eapply IH.
Qed.

(** When no thread can step, every client has returned, and the engine is as
    if none had ever been there. *)
Lemma no_deadlock {A} c (ts : list (Prog (Shared B J) A)) s gs :
  pool_safe c ts s gs → (∀ j q, ts !! j = Some q → thread_step q s = None) →
  inFlightWriteCount_ (engine_ s) = 0 ∧ compactionPaused_ (engine_ s) = false ∧
  ∀ i p, (i < c)%nat → ts !! i = Some p → is_Some (returned p).
Proof.
  intros (HI & Hall & Hcl) Hstuck.
  assert (∀ j g, gs !! j = Some g → blocked_ok s g ∨ finished g) as Hcase.
  { intros j g Hj. destruct (Forall2_lookup_r _ _ _ _ _ Hall Hj) as (q & Hq & Hsafe).
    specialize (Hstuck j q Hq). destruct q as [a|R step k]; [by right|left].
    cbn in Hstuck. specialize (Hsafe s gs j HI Hj). cbn in Hsafe. destruct (step s) as [[r s1]|]; done. }
  assert (inFlightWriteCount_ (engine_ s) = 0) as Hz.
  { rewrite (inv_inFlight _ _ HI).
    assert (∀ g, g ∈ gs → in_flight g = 0) as Hnone.
    { intros g (j & Hj)%list_elem_of_lookup_1. unfold in_flight.
      by destruct (Hcase j g Hj) as [[-> _]|[-> _]]. }
    rewrite (zsum_ext_in _ (λ _, 0)) by done. clear. induction gs as [|g gs IH]; [done|]. unfold zsum in *. cbn. lia. }
  assert (compactionPaused_ (engine_ s) = false) as Hp.
  { destruct (compactionPaused_ _) eqn:Ep; [|done]. destruct (inv_paused _ _ HI Ep) as (j & g & Hj & Hg).
    destruct (Hcase j g Hj) as [[_ [?|[Ho _]]]|(_ & Ho & _)]; [done| |]; by rewrite Ho in Hg. }
  assert (∀ j g, gs !! j = Some g → blocked_ok s g →
    g_background g = true ∧ backgroundFlushStopRequested_ s = false) as Hbg.
  { intros j g Hj [_ [?|[_ [?|[(Hjn & Hb & Hr)|?]]]]]; [done|congruence| |done].
    destruct (inv_background _ _ HI Hr) as (j' & g' & Hj' & Hb').
    pose proof (go_joining _ _ (inv_ghosts _ _ HI j g Hj) Hjn) as Hs.
    destruct (Hcase j' g' Hj') as [[_ [?|[_ [?|[(_ & ? & _)|[_ ?]]]]]]|(_ & _ & ?)]; congruence. }
  split; [done|]. split; [done|]. intros i p Hic Hi.
  destruct (Forall2_lookup_l _ _ _ _ _ Hall Hi) as (g & Hg & Hsafe).
  specialize (Hstuck i p Hi). destruct p as [a|R step k]; [by exists a|exfalso].
  cbn in Hstuck. specialize (Hsafe s gs i HI Hg). cbn in Hsafe. destruct (step s) as [[r s1]|]; [done|].
  destruct (Hbg i g Hg Hsafe) as [Hb _]. rewrite (Hcl i g Hic Hg) in Hb. done.
Qed.

(** *** Every run of a pool ends *)

Definition child {A} (p' p : Prog (Shared B J) A) : Prop := ∃ s s', thread_step p s = Some (p', s').

Lemma child_wf {A} (p : Prog (Shared B J) A) : Acc child p.
Proof.
  induction p as [a|R step k IH]; constructor; intros p' (s & s' & E); cbn in E; [done|].
  destruct (step s) as [[r s1]|]; [|done]. injection E as <- _. apply IH.
Qed.

Definition pool_child {A} (ts' ts : list (Prog (Shared B J) A)) : Prop :=
  ∃ i p p', ts !! i = Some p ∧ child p' p ∧ ts' = <[i := p']> ts.

Lemma pool_child_wf {A} (ts : list (Prog (Shared B J) A)) : Acc pool_child ts.
Proof.
  induction ts as [|p ts IH]; [constructor; by intros ts' (i & p & p' & ? & _)|].
  revert ts IH. induction (child_wf p) as [p _ IHp]. intros ts Hts. induction Hts as [ts Hacc IHts].
  constructor. intros ts' (i & q & q' & Hi & Hc & ->). destruct i as [|i]; cbn in Hi |- *.
  - injection Hi as ->. apply IHp; [done|]. by constructor.
  - apply IHts. by exists i, q, q'.
Qed.

Lemma step_or_stuck {A} (ts : list (Prog (Shared B J) A)) s :
  (∃ i p p' s', ts !! i = Some p ∧ thread_step p s = Some (p', s')) ∨
  ∀ i p, ts !! i = Some p → thread_step p s = None.
Proof.
  induction ts as [|p ts [(i & q & q' & s' & Hi & E)|Hst]]; [right; by intros i p| |].
  - left. by exists (S i), q, q', s'.
  - destruct (thread_step p s) as [[p' s']|] eqn:E; [left; by exists 0%nat, p, p', s'|].
    right. intros [|i] q Hi; cbn in Hi; [congruence|by eapply Hst].
Qed.

Lemma run_schedule_app {A} sched1 sched2 : ∀ (ts : list (Prog (Shared B J) A)) s,
  run_schedule (sched1 ++ sched2) ts s =
  let '(ts, s) := run_schedule sched1 ts s in run_schedule sched2 ts s.
Proof.
  induction sched1 as [|i sched1 IH]; intros ts s; cbn [app run_schedule]; [done|].
  destruct (ts !! i ≫= _) as [[p' s1]|]; apply IH.
Qed.

Lemma run_schedule_length {A} sched : ∀ (ts : list (Prog (Shared B J) A)) s,
  length (fst (run_schedule sched ts s)) = length ts.
Proof.
  induction sched as [|i sched IH]; intros ts s; cbn [run_schedule]; [done|].
  destruct (ts !! i ≫= _) as [[p' s1]|]; rewrite IH; [|done]. apply length_insert.
Qed.

Lemma runs_to_the_end {A} c (ts : list (Prog (Shared B J) A)) s gs :
  pool_safe c ts s gs →
  ∃ sched ts' s', run_schedule sched ts s = (ts', s') ∧
    inFlightWriteCount_ (engine_ s') = 0 ∧ compactionPaused_ (engine_ s') = false ∧
    ∀ i p, (i < c)%nat → ts' !! i = Some p → is_Some (returned p).
Proof.
  revert s gs. induction (pool_child_wf ts) as [ts _ IH]. intros s gs HS.
  destruct (step_or_stuck ts s) as [(i & p & p' & s1 & Hi & E)|Hst].
  - destruct (pool_step c ts s gs i p p' s1 HS Hi E) as (_ & gs1 & HS1).
    destruct (IH (<[i := p']> ts)) with (s := s1) (gs := gs1) as (sched & ts' & s' & Er & Hend); [|done|].
    { exists i, p, p'. split; [done|]. split; [by exists s, s1|done]. }
    exists (i :: sched), ts', s'. split; [|done]. cbn. rewrite Hi. cbn. by rewrite E.
  - exists [], ts, s. split; [done|]. by eapply no_deadlock.
Qed.
End pool.

(** ** The theorems *)

Section theorems.
Context {B J : Type} `{IBackingStore.IBackingStore B} `{JournalSpec J}.
Context (hash : string → Z).
Implicit Types s : Shared B J.

(** The threads: the clients, each with the operations it calls, and the
    background flusher where there is one, with the number of times its timer
    fires. *)
Definition pool (scripts : list (list Operation)) (background : option nat) : list (Prog (Shared B J) (list Outcome)) :=
  map (script_prog hash) scripts ++
  match background with
  | Some timeouts => [bind (Threads.background_thread hash timeouts) (λ _, Ret [])]
  | None => []
  end.

Definition background_ghost : Ghost := mkGhost false None Outside 0 true Working false true.

Definition pool_ghosts (scripts : list (list Operation)) (background : option nat) : list Ghost :=
  map fresh scripts ++ match background with Some _ => [background_ghost] | None => [] end.

(** No client puts. *)
Definition never_puts (scripts : list (list Operation)) : bool :=
  forallb (forallb (λ op, negb (is_put op))) scripts.

(** At most one thread calls [FlushAll], the background flusher being one. *)
Definition one_flusher (scripts : list (list Operation)) (background : option nat) : Prop :=
  match background with
  | Some _ => ∀ i script, scripts !! i = Some script → OpFlushAll ∉ script
  | None => ∀ i j script script', scripts !! i = Some script → scripts !! j = Some script' →
      OpFlushAll ∈ script → OpFlushAll ∈ script' → i = j
  end.

(** An engine before its clients start: nobody in flight, admission open, every
    dirty entry in the journal. *)
Record ready_for (scripts : list (list Operation)) (background : option nat) s : Prop := {
  rf_shards : shards_ok hash (engine_ s);
  rf_version k en : engine_get hash (engine_ s) k = Some en → u64 (version en);
  rf_log : ∃ ds, log_is (journal_ (engine_ s)) ds ∧ logged hash (engine_ s) ds;
  rf_inFlight : inFlightWriteCount_ (engine_ s) = 0;
  rf_paused : compactionPaused_ (engine_ s) = false;
  rf_background : backgroundFlushThread_ s = Running → is_Some background;
  rf_room : entry_count (engine_ s) + zlen (concat scripts) + zlen scripts + 1 < 2 ^ 64;
  rf_scripts : Forall (client_script (never_puts scripts)) scripts;
  rf_flusher : never_puts scripts = true ∨ one_flusher scripts background
}.

Lemma in_flight_fresh scripts background : zsum in_flight (pool_ghosts scripts background) = 0.
Proof.
  unfold pool_ghosts. rewrite zsum_app. assert (zsum in_flight (map fresh scripts) = 0) as ->.
  { induction scripts as [|script scripts IH]; [done|]. unfold zsum in *. cbn. lia. }
  by destruct background.
Qed.

Lemma inserts_fresh scripts background : zsum g_inserts (pool_ghosts scripts background) = zlen (concat scripts).
Proof.
  unfold pool_ghosts. rewrite zsum_app. assert (zsum g_inserts (map fresh scripts) = zlen (concat scripts)) as ->.
  { induction scripts as [|script scripts IH]; [done|]. cbn [concat]. rewrite zlen_app. unfold zsum in *. cbn. lia. }
  destruct background; unfold zsum; cbn; lia.
Qed.

Lemma pool_ghosts_lookup scripts background i g :
  pool_ghosts scripts background !! i = Some g →
  (∃ script, scripts !! i = Some script ∧ g = fresh script) ∨
  i = length scripts ∧ is_Some background ∧ g = background_ghost.
Proof.
  unfold pool_ghosts. intros [Hl|[Hlen Hr]]%lookup_app_Some.
  - left. change (map fresh scripts) with (fresh <$> scripts) in Hl.
    apply list_lookup_fmap_Some in Hl as (script & -> & Hs). by exists script.
  - right. rewrite length_map in *. destruct background as [n|]; [|done].
    destruct (i - length scripts)%nat eqn:E; cbn in Hr; [|done]. injection Hr as <-. split; [lia|]. by split.
Qed.

Lemma one_flusher_ghosts scripts background i j g g' :
  one_flusher scripts background →
  pool_ghosts scripts background !! i = Some g → pool_ghosts scripts background !! j = Some g' →
  g_flusher g = true → g_flusher g' = true → i = j.
Proof.
  intros Hone [(x & Hi & ->)|(-> & Hb & ->)]%pool_ghosts_lookup
    [(y & Hj & ->)|(-> & Hb' & ->)]%pool_ghosts_lookup; cbn; intros F F'; try done;
    try apply bool_decide_eq_true in F; try apply bool_decide_eq_true in F'; unfold one_flusher in Hone.
  - destruct background; [by destruct (Hone i x)|by eapply Hone].
  - destruct Hb' as [n ->]. by destruct (Hone i x).
  - destruct Hb as [n ->]. by destruct (Hone j y).
Qed.

Lemma pool_start scripts background s :
  ready_for scripts background s →
  pool_safe hash (length (shards_ (engine_ s))) (never_puts scripts) (length scripts)
    (pool scripts background) s (pool_ghosts scripts background).
Proof.
  intros [R1 R2 R3 R4 R5 R6 R7 R8 R9].
  assert (∀ i g, pool_ghosts scripts background !! i = Some g → ghost_ok (never_puts scripts) s g) as Hok.
  { intros i g [(x & _ & ->)|(_ & _ & ->)]%pool_ghosts_lookup; constructor; try done. apply zlen_nonneg. }
  split; [constructor; try done|split].
  - destruct R3 as (ds & Hl & Hlg). exists ds. split; [done|]. split; [done|].
    intros g k v ver (i & Hi)%list_elem_of_lookup_1.
    by apply pool_ghosts_lookup in Hi as [(x & _ & ->)|(_ & _ & ->)].
  - by rewrite R4, in_flight_fresh.
  - rewrite inserts_fresh. pose proof (zlen_nonneg scripts). lia.
  - unfold pool_ghosts. rewrite zlen_app. pose proof (zlen_nonneg (concat scripts)). unfold entry_count in R7.
    assert (0 ≤ zsum (λ sh, zlen (lru sh)) (shards_ (engine_ s))) by (apply zsum_nonneg; intros; apply zlen_nonneg).
    assert (zlen (map fresh scripts) = zlen scripts) as -> by (unfold zlen; by rewrite length_map).
    destruct background; unfold zlen in *; cbn; lia.
  - by rewrite R5.
  - intros Hr. destruct (R6 Hr) as [n ->]. exists (length scripts), background_ghost. split; [|done].
    unfold pool_ghosts. rewrite lookup_app_r by (by rewrite length_map). by rewrite length_map, Nat.sub_diag.
  - intros i j g g' Hnp. destruct R9 as [?|R9]; [congruence|]. by apply one_flusher_ghosts.
  - unfold pool, pool_ghosts. apply Forall2_app.
    + revert R8. generalize (never_puts scripts) as np. clear. intros np R8. induction R8 as [|x l Hx _ IH]; cbn; constructor; [|done].
      apply safe_script; [done|apply client_fresh].
    + destruct background as [n|]; [|constructor]. constructor; [|constructor].
      eapply safe_bind; [apply safe_background_thread; by split; [split; [|left]|]|]. intros u g' Hg. exact Hg.
  - intros i g Hi [(x & _ & ->)|(-> & _)]%pool_ghosts_lookup; [done|lia].
Qed.
End theorems.

Lemma pool_keeps_journal `{IBackingStore.IBackingStore B} `{JournalSpec J} hash scripts background
    (s : Shared B J) sched ts s' :
  ready_for hash scripts background s →
  run_schedule sched (pool hash scripts background) s = (ts, s') →
  ∃ ds, log_is (journal_ (engine_ s')) ds ∧
    ∀ k en, engine_get hash (engine_ s') k = Some en → is_clean en = false →
      upsert k (value en) (version en) ∈ ds.
Proof.
  intros Hr E. destruct (pool_run _ _ _ _ _ _ _ _ _ _ (pool_start hash scripts background s Hr) E) as (gs & HI & _).
  destruct (inv_log _ _ _ _ _ HI) as (ds & Hl & Hlg & _). exists ds. split; [done|].
  intros k en Hk Hc. by apply (Hlg k en).
Qed.

Lemma pool_can_finish `{IBackingStore.IBackingStore B} `{JournalSpec J} hash scripts background
    (s : Shared B J) sched :
  ready_for hash scripts background s →
  Acc pool_child (fst (run_schedule sched (pool hash scripts background) s)) ∧
  ∃ sched' ts s', run_schedule (sched ++ sched') (pool hash scripts background) s = (ts, s') ∧
    (∀ i script, scripts !! i = Some script → ∃ outs, ts !! i = Some (Ret outs)) ∧
    inFlightWriteCount_ (engine_ s') = 0 ∧ compactionPaused_ (engine_ s') = false.
Proof.
  intros Hr. split; [apply pool_child_wf|].
  destruct (run_schedule sched (pool hash scripts background) s) as [ts1 s1] eqn:E.
  destruct (pool_run _ _ _ _ _ _ _ _ _ _ (pool_start hash scripts background s Hr) E) as (gs & HS).
  destruct (runs_to_the_end _ _ _ _ _ _ _ HS) as (sched' & ts & s' & E' & Hn & Hp & Hret).
  exists sched', ts, s'. split; [by rewrite run_schedule_app, E|]. split; [|done].
  intros i script Hi. pose proof (lookup_lt_Some _ _ _ Hi) as Hlt.
  assert (length ts = length (pool hash scripts background)) as Hlen.
  { rewrite <- (run_schedule_length sched (pool hash scripts background) s), E. cbn.
    by rewrite <- (run_schedule_length sched' ts1 s1), E'. }
  destruct (lookup_lt_is_Some_2 ts i) as [p Hp'].
  { rewrite Hlen. unfold pool. rewrite length_app, length_map. lia. }
  destruct (Hret i p Hlt Hp') as [out Ho]. exists out. destruct p; [|done]. by injection Ho as ->.
Qed.

(** C11: Compaction and shutdown against concurrent clients.  Whatever the schedule
    of any number of clients, each of which puts, gets, invalidates, flushes
    and at last shuts down as often as it likes, each entry that is not clean
    has the record of its write in the journal at every moment: no truncation
    ever drops the only durable copy of a write, and none overtakes a writer
    between its record and its entry.  Where clients put, the background
    flusher or one client that calls [FlushAll] may run beside them; where none
    puts, any number of them may. *)
Theorem unflushed_writes_stay_journaled `{IBackingStore.IBackingStore B} `{JournalSpec J} hash scripts background
    (s : Shared B J) sched ts s' :
  ready_for hash scripts background s →
  run_schedule sched (pool hash scripts background) s = (ts, s') →
  ∃ ds, log_is (journal_ (engine_ s')) ds ∧
    ∀ k en, engine_get hash (engine_ s') k = Some en → is_clean en = false →
      upsert k (value en) (version en) ∈ ds.
Proof. apply pool_keeps_journal. Qed.

(** C12: No deadlock.  Whatever the schedule so far, it can be continued until every
    operation of every client has returned, and every continuation that runs as long
    as a thread can step is finite; then no write is in flight and admission
    is open again. *)
Theorem every_schedule_can_finish `{IBackingStore.IBackingStore B} `{JournalSpec J} hash scripts background
    (s : Shared B J) sched :
  ready_for hash scripts background s →
  Acc pool_child (fst (run_schedule sched (pool hash scripts background) s)) ∧
  ∃ sched' ts s', run_schedule (sched ++ sched') (pool hash scripts background) s = (ts, s') ∧
    (∀ i script, scripts !! i = Some script → ∃ outs, ts !! i = Some (Ret outs)) ∧
    inFlightWriteCount_ (engine_ s') = 0 ∧ compactionPaused_ (engine_ s') = false.
Proof. apply pool_can_finish. Qed.
