(* ===== verification/Untouched.v ===== *)
(** * Untouched: what no client changes, on any schedule

    Races.v shows what overlapping operations may do to a key they change.  Here
    is what they cannot do: a key that no client writes or invalidates keeps its
    value, whatever the threads do to other keys and however they flush, evict,
    read and compact this one, for every read on the way and for a restart
    after a power cut at any moment.  [kept] is the invariant for one key, the
    devices being those of CrashPoints.v; [keeps] says of a program that each of
    its blocks keeps it, given what Interleaving.v proves of every schedule. *)
From S2P Require Import Prelude Common RecordCodec Storage Journal Store Shard Engine EngineFacts Durability Client.
From S2P Require Import Lifecycle Marker Recovery Service Config Startup Threads CrashPoints Lifetime Interleaving.
Import EntryDirtyState EngineLifecycle Client.
Open Scope Z_scope.

Section untouched.
Context {B J : Type} `{BackingStoreSpec B} `{JournalSpec J}.
Context (hash : string → Z) (N : nat) (no_puts : bool).
(** The key, its value, and the keys that nobody invalidates. *)
Context (k0 : string) (o : option bytes) (lasting : string → Prop).
Hypothesis lasting_k0 : lasting k0.
Implicit Types (e : CacheEngine B J) (s : Shared B J) (gs : list Ghost).

Abbreviation engine_get := (EngineFacts.engine_get hash).
Abbreviation shards_ok := (EngineFacts.shards_ok hash).
Abbreviation ShardFor := (Engine.ShardFor hash).
Abbreviation Inv := (Interleaving.Inv hash N no_puts).
Abbreviation journal_step := (Interleaving.journal_step hash).

(** ** The invariant *)

(** Once it holds it stays: no thread stores another value of the key. *)
Definition stored e : Prop := store_map (backingStore_ e) !! k0 = o.

Definition entry_ok e : Prop :=
  match engine_get e k0 with
  | Some en => o = Some (value en) ∧ (is_clean en = true → stored e)
  | None => stored e
  end.

(** What the records of the journal say of the key. *)
Record pending_ok ds e : Prop := {
  po_invalidated k : lasting k → invalidated ds k = false;
  po_value p : pending_of ds !! k0 = Some p → o = Some (p_value p);
  po_stored : pending_of ds !! k0 = None → stored e
}.

Record kept e : Prop := {
  kp_clean : store_clean (backingStore_ e);
  kp_reliable : store_reliable (backingStore_ e);
  kp_entry : entry_ok e;
  kp_log : ∃ ds, log_is (journal_ e) ds ∧ pending_ok ds e
}.

Lemma kept_view e : kept e → view hash e k0 = o.
Proof.
  intros [_ _ He _]. unfold entry_ok, view, stored in *.
  destruct (engine_get e k0) as [en|]; [by destruct He as [-> _]|exact He].
Qed.

(** For CrashPoints.v: whatever the other keys, a restart finds [o]. *)
Lemma kept_holds e :
  kept e → ∃ ds, holds [] (λ k, ¬ lasting k) (λ k x, k = k0 → x = o) e ds.
Proof.
  intros [Hc Hr _ (ds & Hl & [Hi Hv Hs])]. exists ds. constructor; try done.
  - intros k Hk. right. intros Hlast. by rewrite Hi in Hk.
  - intros k _ ->. unfold recovered. rewrite store_after_lookup, Hi by done.
    destruct (pending_of ds !! k0) as [p|] eqn:Ep; [symmetry; by apply Hv|by apply Hs].
Qed.

(** ** Blocks that leave the devices alone *)

Lemma kept_still e e' : kept e → still e e' → entry_ok e' → kept e'.
Proof.
  intros [Hc Hr _ (ds & Hl & [Hi Hv Hs])] [Hj Hb] He. constructor; rewrite ?Hb; try done.
  exists ds. rewrite Hj. split; [done|]. constructor; [done..|]. unfold stored. by rewrite Hb.
Qed.

Lemma stored_still e e' : still e e' → stored e → stored e'.
Proof. unfold stored. by intros [_ ->]. Qed.

Lemma entry_ok_same e e' : still e e' → engine_get e' k0 = engine_get e k0 → entry_ok e → entry_ok e'.
Proof.
  unfold entry_ok, stored. intros [_ Hb] ->. by rewrite Hb.
Qed.

Lemma entry_ok_evicted e e' (g : string → option Entry) :
  still e e' → e_evicted hash g e' → g k0 = engine_get e k0 → entry_ok e → entry_ok e'.
Proof.
  intros Hst Hev Hg He. destruct (Hev k0) as [Heq|(en & E & Hc & Hn)].
  - apply (entry_ok_same e); [done|congruence|done].
  - unfold entry_ok in *. rewrite Hn. rewrite Hg in E. rewrite E in He. destruct He as [_ Hs].
    apply (stored_still e); auto.
Qed.

Lemma set_shard_still e i sh : still e (set_shard e i sh).
Proof. done. Qed.

(** The entry of one key becomes [x]. *)
Lemma entry_ok_updated e e' k x :
  still e e' → e_updated hash e e' k x →
  (k = k0 → entry_ok e → match x with
    | Some en => o = Some (value en) ∧ (is_clean en = true → stored e)
    | None => stored e end) →
  entry_ok e → entry_ok e'.
Proof.
  intros Hst Hu Hx He. destruct (decide (k = k0)) as [->|Hne].
  - specialize (Hx eq_refl He). unfold entry_ok. rewrite Hu, decide_True by done.
    destruct x as [en|]; [|by apply (stored_still e)]. destruct Hx as [-> Hs]. split; [done|].
    intros Hc. apply (stored_still e); auto.
  - apply (entry_ok_same e); [done| |done]. by rewrite Hu, decide_False by congruence.
Qed.

Lemma evict_entry_ok e i : shards_ok e → entry_ok e → entry_ok (Engine.evict e i).
Proof.
  intros He Hk. destruct (decide (i < length (shards_ e))%nat) as [Hi|Hi].
  - destruct (evict_contract hash e i He Hi) as (_ & _ & _ & Hev & _).
    apply (entry_ok_evicted e _ (engine_get e)); [apply evict_still|done..].
  - apply (entry_ok_same e); [apply evict_still| |done]. unfold Engine.evict.
    destruct (EvictCleanEntriesLocked _ _ _ _) as [sh n]. apply engine_get_same. cbn. apply list_insert_ge. lia.
Qed.

Lemma insert_still e i k v ver st b : still e (Engine.insert_or_update e i k v ver st b).
Proof. unfold Engine.insert_or_update. by destruct (InsertOrUpdateLocked _ _ _ _ _ _ _ _ _). Qed.

Lemma insert_entry_ok e k v ver st :
  shards_ok e → (k = k0 → stored e ∧ o = Some v) → entry_ok e →
  entry_ok (Engine.insert_or_update e (ShardFor e k) k v ver st true).
Proof.
  intros He Hk Hok. destruct (insert_or_update_contract hash e k v ver st true He) as (_ & _ & _ & Hg).
  set (e' := Engine.insert_or_update _ _ _ _ _ _ _) in *.
  assert (still e e') as Hst by apply insert_still.
  destruct (stale _ _); [by apply (entry_ok_same e)|]. destruct Hg as [Hev _].
  destruct (decide (k = k0)) as [->|Hne].
  - destruct (Hk eq_refl) as [Hs Hv]. unfold entry_ok.
    destruct (Hev k0) as [Heq|(_ & _ & _ & Hn)]; [rewrite Heq, decide_True by done|rewrite Hn].
    + split; [done|]. intros _. by apply (stored_still e).
    + by apply (stored_still e).
  - apply (entry_ok_evicted e _ _ Hst Hev); [|done]. cbn. by rewrite decide_False by congruence.
Qed.

(** The end of a flush: the entry in flight of this version changes its state. *)
Lemma flush_end_entry_ok e k ver sh st :
  shards_ok e → shard_ok sh →
  match flushing ver (shard_get (shard_at e (ShardFor e k)) k) with
  | Some en => updated (shard_at e (ShardFor e k)) sh k (Some (with_state st en))
  | None => sh = shard_at e (ShardFor e k)
  end →
  (k = k0 → st = Clean → stored e) → entry_ok e → entry_ok (set_shard e (ShardFor e k) sh).
Proof.
  intros He Hsh. destruct (flushing ver _) as [en|] eqn:Ef.
  - intros Hu Hst. destruct (set_shard_updated hash e k sh _ He Hsh Hu) as (_ & _ & Hg).
    apply (entry_ok_updated e _ k _ (set_shard_still _ _ _) Hg).
    intros -> Hok. unfold flushing in Ef.
    destruct (shard_get (shard_at e (ShardFor e k0)) k0) as [en'|] eqn:Eg; [|done].
    destruct (flushing_not_clean ver en' en Ef) as [-> _]. unfold entry_ok, EngineFacts.engine_get in Hok.
    rewrite Eg in Hok. destruct Hok as [Hv _]. split; [done|]. intros Hc. apply Hst; [done|]. by destruct st.
  - intros -> _. apply entry_ok_same; [done|].
    destruct (set_shard_updated hash e k _ _ He Hsh (updated_same _ k)) as (_ & _ & Hg). rewrite Hg.
    by case_decide as Hd; [rewrite Hd|].
Qed.

(** ** The device calls *)

Lemma invalidated_snoc ds d k :
  (is_invalidate d = true → rec_key d ≠ k) → invalidated ds k = false → invalidated (ds ++ [d]) k = false.
Proof.
  intros Hd Hi. rewrite invalidated_app, Hi. cbn. rewrite orb_false_r. destruct (is_invalidate d); [|done].
  apply String.eqb_neq. by apply Hd.
Qed.

Lemma pending_ok_other ds e d :
  rec_key d ≠ k0 → (is_invalidate d = true → ¬ lasting (rec_key d)) → pending_ok ds e → pending_ok (ds ++ [d]) e.
Proof.
  intros Hne Hd [Hi Hv Hs]. constructor; rewrite ?pending_of_snoc, ?pending_step_ne by done; [|done..].
  intros k Hk. apply invalidated_snoc; [|by apply Hi]. intros Hx <-. by apply Hd.
Qed.

Lemma pending_ok_intent ds e k ver : pending_ok ds e → pending_ok (ds ++ [intent k ver]) e.
Proof.
  intros Hp. destruct (decide (k = k0)) as [->|Hne]; [|by apply pending_ok_other].
  destruct Hp as [Hi Hv Hs]. constructor; [intros k Hk; apply invalidated_snoc; [done|by apply Hi]| |];
    rewrite pending_of_snoc; unfold pending_step; cbn;
    (destruct (pending_of ds !! k0) as [p|] eqn:Ep; [|by rewrite Ep]); (destruct (_ =? _); [|by rewrite Ep]);
    rewrite lookup_insert_eq; [|done].
  intros p' [= <-]. cbn. by apply (Hv p).
Qed.

Lemma pending_ok_complete ds e k ver :
  (k = k0 → stored e) → pending_ok ds e → pending_ok (ds ++ [complete k ver]) e.
Proof.
  intros Hst Hp. destruct (decide (k = k0)) as [->|Hne]; [|by apply pending_ok_other].
  destruct Hp as [Hi Hv Hs].
  constructor; [intros k Hk; apply invalidated_snoc; [done|by apply Hi]| |by intros _; apply Hst].
  intros p'. rewrite pending_of_snoc. unfold pending_step. cbn.
  destruct (pending_of ds !! k0) as [p|] eqn:Ep; [|by rewrite Ep]. destruct (_ =? _); [by rewrite lookup_delete_eq|].
  rewrite Ep. apply Hv.
Qed.

(** What a block leaves behind. *)
Definition goes_on e e' : Prop := kept e' ∧ (stored e → stored e').

Lemma goes_on_refl e : kept e → goes_on e e.
Proof. by split. Qed.

Lemma goes_on_still e e' : kept e → still e e' → entry_ok e' → goes_on e e'.
Proof. intros Hk Hst He. split; [by eapply kept_still|by apply stored_still]. Qed.

Lemma append_goes_on e d r e' :
  kept e → record_ok d → (∀ ds, pending_ok ds e → pending_ok (ds ++ [d]) e) →
  Engine.AppendJournalRecord e d = (r, e') → r = Success tt ∧ goes_on e e'.
Proof.
  intros [Hc Hr He (ds & Hl & Hp)] Hd Hpd E.
  apply AppendJournalRecord_contract in E as (Hs & _ & Hb & HL). destruct (HL ds Hl Hd) as [-> Hl'].
  assert (∀ k, engine_get e' k = engine_get e k) as Hg by (intros; by apply engine_get_same).
  split; [done|]. split; [|unfold stored; by rewrite Hb]. constructor; rewrite ?Hb; [done..| |].
  - unfold entry_ok, stored in *. by rewrite Hg, Hb.
  - exists (ds ++ [d]). split; [done|]. destruct (Hpd ds Hp) as [? ? ?]. constructor; [done..|].
    unfold stored. by rewrite Hb.
Qed.

(** A step that leaves the journal, the shards, and the value of the key in
    the store unless it becomes [o]. *)
Lemma store_goes_on e b :
  kept e → store_clean b → store_reliable b →
  (store_map b !! k0 = store_map (backingStore_ e) !! k0 ∨ store_map b !! k0 = o) →
  goes_on e (set_store e b).
Proof.
  intros [Hc Hr He (ds & Hl & [Hi Hv Hs])] Hc' Hr' Hm.
  assert (stored e → stored (set_store e b)) as Hst by (unfold stored; cbn; destruct Hm as [-> | ->]; done).
  split; [|done]. constructor; [done..| |].
  - unfold entry_ok in *. rewrite (engine_get_same hash e) by done. destruct (engine_get e k0) as [en|]; [|auto].
    destruct He as [Hen Hcl]. auto.
  - exists ds. split; [done|]. constructor; auto.
Qed.

Lemma store_put_goes_on e k v r e' :
  kept e → store_fits k v → (k = k0 → o = Some v) → Threads.store_put k v e = (r, e') →
  goes_on e e' ∧ (r = Success tt → k = k0 → stored e').
Proof.
  intros Hk Hfit Hv E. pose proof Hk as [Hc Hr _ _]. unfold Threads.store_put in E.
  destruct (IBackingStore.Put (backingStore_ e) k v) as [pr b] eqn:Ep. injection E as <- <-.
  destruct (Put_reliable _ _ _ _ _ Hc Hr Hfit Ep) as [Hc' Hr'].
  destruct (Put_spec _ _ _ _ _ (store_clean_ok _ Hc) Hfit Ep) as (_ & Hm & _).
  assert (k = k0 → <[k := v]> (store_map (backingStore_ e)) !! k0 = o) as Ho
    by (intros ->; rewrite lookup_insert_eq; symmetry; by apply Hv).
  split; [|intros -> E; unfold stored; cbn; rewrite Hm; by apply Ho].
  apply store_goes_on; [done..|]. rewrite Hm. destruct pr; [|by left].
  destruct (decide (k = k0)) as [E|Hne]; [right; by apply Ho|left; by rewrite lookup_insert_ne].
Qed.

Lemma store_remove_goes_on e k r e' :
  kept e → store_fits k [] → k ≠ k0 → Threads.store_remove k e = (r, e') → goes_on e e'.
Proof.
  intros Hk Hfit Hne E. pose proof Hk as [Hc Hr _ _]. unfold Threads.store_remove in E.
  destruct (IBackingStore.Remove (backingStore_ e) k) as [pr b] eqn:Ep. injection E as <- <-.
  destruct (Remove_reliable _ _ _ _ Hc Hr Hfit Ep) as [Hc' Hr'].
  destruct (Remove_spec _ _ _ _ (store_clean_ok _ Hc) Hfit Ep) as (_ & Hm & _).
  apply store_goes_on; [done..|]. left. rewrite Hm. destruct pr; [by rewrite lookup_delete_ne|done].
Qed.

Lemma store_get_goes_on e k r e' :
  kept e → Threads.store_get k e = (r, e') →
  goes_on e e' ∧ (stored e → k = k0 → ∀ v, r = Success v → o = Some v).
Proof.
  intros Hk E. pose proof Hk as [Hc Hr _ _]. unfold Threads.store_get in E.
  destruct (IBackingStore.Get (backingStore_ e) k) as [gr b] eqn:Eg. injection E as <- <-.
  destruct (Get_spec _ _ _ _ (store_clean_ok _ Hc) Eg) as (_ & Hm & Hc' & _ & Hval & Hr').
  split; [apply store_goes_on; [done|by apply Hc'|by apply Hr'|left; by rewrite Hm]|].
  intros Hs -> v Hv. rewrite <- Hs. by apply Hval.
Qed.

(** The journal is emptied where every entry is clean. *)
Lemma truncate_goes_on e :
  let e' := set_journal e (snd (Truncate (journal_ e))) in
  kept e → journal_step e e' → goes_on e e'.
Proof.
  intros e' [Hc Hr He (ds & Hl & Hp)] Hj. pose proof (proj1 Hl) as Hrel.
  destruct (Truncate_reliable _ Hrel) as (j' & Et & Hr'). destruct (Truncate_ok _ _ Et) as [Hcl Hrec].
  assert (log_is (journal_ e') []) as Hl'.
  { cbn. rewrite Et. split; [done|]. split; [done|]. cbn. rewrite Hrec. constructor. }
  split; [|done]. constructor; [done..|]. exists []. split; [done|]. constructor; [done..|]. intros _.
  destruct (Hj ds Hl) as [[l Hl2]|Hclean].
  - destruct Hl' as (_ & _ & HF), Hl2 as (_ & _ & HF2). apply Forall2_length in HF, HF2.
    rewrite length_app in HF2. destruct ds; [by apply Hp|cbn in *; lia].
  - change (stored e). unfold entry_ok in He. destruct (engine_get e k0) as [en|] eqn:Eg; [|exact He].
    apply He. by eapply Hclean.
Qed.

(** ** Programs *)

(** [b]: the thread knows that the store has the value of the key. *)
Fixpoint keeps {A} (p : Prog (Shared B J) A) (Q : A → bool → Prop) (b : bool) : Prop :=
  match p with
  | Ret a => Q a b
  | Atomic step k => ∀ s gs, Inv s gs → kept (engine_ s) → (b = true → stored (engine_ s)) →
    match step s with
    | None => True
    | Some (r, s') => journal_step (engine_ s) (engine_ s') →
      goes_on (engine_ s) (engine_ s') ∧ ∃ b', (b' = true → stored (engine_ s')) ∧ keeps (k r) Q b'
    end
  end.

Lemma keeps_bind {A C} (p : Prog (Shared B J) A) (f : A → Prog (Shared B J) C) P Q b :
  keeps p P b → (∀ a b', P a b' → keeps (f a) Q b') → keeps (bind p f) Q b.
Proof.
  intros Hp Hf. revert b Hp. induction p as [a|R step k IH]; intros b; cbn; [apply Hf|].
  intros Hs s gs HI Hk Hb. specialize (Hs s gs HI Hk Hb). destruct (step s) as [[r s']|]; [|done].
  intros Hj. destruct (Hs Hj) as (Hg & b' & Hb' & Hr). split; [done|]. exists b'. split; [done|]. by apply IH.
Qed.

Lemma keeps_mono {A} (p : Prog (Shared B J) A) (P Q : A → bool → Prop) b :
  keeps p P b → (∀ a b', P a b' → Q a b') → keeps p Q b.
Proof.
  intros Hp Hpq. revert b Hp. induction p as [a|R step k IH]; intros b; cbn; [apply Hpq|].
  intros Hs s gs HI Hk Hb. specialize (Hs s gs HI Hk Hb). destruct (step s) as [[r s']|]; [|done].
  intros Hj. destruct (Hs Hj) as (Hg & b' & Hb' & Hr). split; [done|]. exists b'. split; [done|]. by apply IH.
Qed.

Lemma keeps_act {A} (f : CacheEngine B J → A * CacheEngine B J) (Q : A → bool → Prop) b :
  (∀ s gs, Inv s gs → kept (engine_ s) → (b = true → stored (engine_ s)) →
     let '(r, e') := f (engine_ s) in journal_step (engine_ s) e' →
     goes_on (engine_ s) e' ∧ ∃ b', (b' = true → stored e') ∧ Q r b') →
  keeps (Threads.act f) Q b.
Proof.
  intros Hf s gs HI Hk Hb. specialize (Hf s gs HI Hk Hb). destruct (f (engine_ s)) as [r e']. exact Hf.
Qed.

(** A block that leaves the devices alone, and what its result says. *)
Lemma keeps_still {A} (P : A → Prop) (f : CacheEngine B J → A * CacheEngine B J) b :
  (∀ s gs, Inv s gs → kept (engine_ s) → (b = true → stored (engine_ s)) →
     let '(r, e') := f (engine_ s) in still (engine_ s) e' ∧ entry_ok e' ∧ P r) →
  keeps (Threads.act f) (λ r b', b' = b ∧ P r) b.
Proof.
  intros Hf. apply keeps_act. intros s gs HI Hk Hb. specialize (Hf s gs HI Hk Hb).
  destruct (f (engine_ s)) as [r e']. destruct Hf as (Hst & He & HP). intros _.
  split; [by apply goes_on_still|]. exists b. split; [|done]. intros Ht. apply (stored_still (engine_ s)); auto.
Qed.

(** Such a block that leaves the shards alone, too. *)
Lemma keeps_control {A} (f : CacheEngine B J → A * CacheEngine B J) b :
  (∀ e, still e (snd (f e)) ∧ shards_ (snd (f e)) = shards_ e) →
  keeps (Threads.act f) (λ _ b', b' = b) b.
Proof.
  intros Hf. eapply keeps_mono; [apply (keeps_still (λ _, True))|by intros a b' [-> _]].
  intros s gs HI Hk Hb. specialize (Hf (engine_ s)). destruct (f (engine_ s)) as [r e']. destruct Hf as [Hst Hs].
  split; [done|]. split; [|done]. apply (entry_ok_same (engine_ s)); [done| |apply Hk]. by apply engine_get_same.
Qed.

Lemma keeps_wait {A} ready (f : CacheEngine B J → A * CacheEngine B J) b :
  (∀ e, still e (snd (f e)) ∧ shards_ (snd (f e)) = shards_ e) →
  keeps (Threads.wait_then ready f) (λ _ b', b' = b) b.
Proof.
  intros Hf s gs HI Hk Hb. destruct (ready s); [|done]. exact (keeps_control f b Hf s gs HI Hk Hb).
Qed.

Lemma keeps_read {A} (f : CacheEngine B J → A) b : keeps (Threads.read f) (λ _ b', b' = b) b.
Proof. by apply keeps_control. Qed.

Lemma keeps_count c b : keeps (Threads.modify (count c)) (λ _ b', b' = b) b.
Proof. by apply keeps_control. Qed.

(** A block on the state of the background thread. *)
Lemma keeps_aside {A} (step : Shared B J → option (A * Shared B J)) b :
  (∀ s r s', step s = Some (r, s') → engine_ s' = engine_ s) →
  keeps (Atomic step Ret) (λ _ b', b' = b) b.
Proof.
  intros Hstep s gs HI Hk Hb. destruct (step s) as [[r s']|] eqn:E; [|done]. intros _. cbn.
  rewrite (Hstep s r s' E). split; [by apply goes_on_refl|]. by exists b.
Qed.

(** *** Flushes *)

(** Where the result does not matter. *)
Abbreviation steady p b := (keeps p (λ _ _, True) b).

Lemma steady_bind {A C} (p : Prog (Shared B J) A) (f : A → Prog (Shared B J) C) P b :
  keeps p P b → (∀ a b', steady (f a) b') → steady (bind p f) b.
Proof. intros Hp Hf. by eapply keeps_bind; [exact Hp|]. Qed.

Lemma keeps_revert k ver b :
  keeps (Threads.modify (Threads.on_shard hash k (λ sh, RevertFlushInProgressLocked sh k ver))) (λ _ b', b' = b) b.
Proof.
  eapply keeps_mono; [apply (keeps_still (λ _, True))|by intros a b' [-> _]].
  intros s gs HI Hk _. pose proof (inv_shards _ _ _ _ _ HI) as He. split; [done|]. split; [|done].
  pose proof (shard_at_ok (engine_ s) (ShardFor (engine_ s) k) (sh_shards _ _ He)) as Hs.
  destruct (Revert_contract _ k ver _ Hs eq_refl) as (Hsh & _ & _ & Hu).
  by eapply (flush_end_entry_ok _ k ver _ Dirty); [..|apply Hk].
Qed.

Lemma keeps_commit k ver b :
  (k = k0 → b = true) →
  keeps (Threads.modify (Threads.on_shard hash k (λ sh, flush_commit sh k ver))) (λ _ b', b' = b) b.
Proof.
  intros Hkb. eapply keeps_mono; [apply (keeps_still (λ _, True))|by intros a b' [-> _]].
  intros s gs HI Hk Hb. pose proof (inv_shards _ _ _ _ _ HI) as He. split; [done|]. split; [|done].
  pose proof (shard_at_ok (engine_ s) (ShardFor (engine_ s) k) (sh_shards _ _ He)) as Hs.
  destruct (flush_commit_contract _ k ver _ Hs eq_refl) as (Hsh & _ & _ & Hu).
  eapply (flush_end_entry_ok _ k ver _ Clean); [done|done|done|auto|apply Hk].
Qed.

Lemma keeps_append d b :
  record_ok d →
  (∀ e ds, (b = true → stored e) → pending_ok ds e → pending_ok (ds ++ [d]) e) →
  keeps (Threads.AppendJournalRecord d) (λ _ b', b' = b) b.
Proof.
  intros Hd Hp. apply keeps_act. intros s gs HI Hk Hb.
  destruct (Engine.AppendJournalRecord (engine_ s) d) as [r e'] eqn:E. intros _.
  destruct (append_goes_on _ d r e' Hk Hd) as [_ Hg]; [intros ds; by apply Hp|done|].
  split; [done|]. exists b. split; [|done]. intros Ht. apply Hg. auto.
Qed.

Lemma keeps_flush_failed k ver err b : steady (Threads.flush_failed hash k ver err) b.
Proof.
  eapply steady_bind; [apply keeps_revert|]. intros _ b'. by eapply steady_bind; [apply keeps_count|].
Qed.

Lemma keeps_begin_flush k ev cv b :
  keeps (Threads.act (Threads.begin_flush hash k ev cv))
    (λ r b', b' = b ∧ match r with
      | inl _ => True
      | inr (v, ver) => journalable (mkEntry k v ver Dirty) ∧ (k = k0 → o = Some v)
      end) b.
Proof.
  apply keeps_still. intros s gs HI Hk Hb. pose proof (inv_shards _ _ _ _ _ HI) as He.
  unfold Threads.begin_flush. destruct (flush_begin _ k ev cv) as [[r|[v ver]] sh] eqn:E.
  { split; [done|]. split; [apply Hk|done]. }
  destruct (flush_begin_engine hash _ _ _ _ _ _ He E) as (Hg & _ & _ & _ & Hu & _).
  destruct (inv_log _ _ _ _ _ HI) as (ds & _ & Hlg & _). destruct (Hlg k (mkEntry k v ver Dirty)) as [Hjo _]; [done|].
  assert (k = k0 → o = Some v) as Ho.
  { intros ->. pose proof (kp_entry _ Hk) as Hok. unfold entry_ok in Hok. rewrite Hg in Hok. apply Hok. }
  split; [done|]. split; [|done].
  eapply (entry_ok_updated (engine_ s) _ k _ (set_shard_still _ _ _) Hu); [|apply Hk]. intros Ek _.
  split; [by apply Ho|done].
Qed.

Lemma keeps_store_put k v b :
  store_fits k v → (k = k0 → o = Some v) →
  keeps (Threads.act (Threads.store_put k v)) (λ r b', r = Success tt → k = k0 → b' = true) b.
Proof.
  intros Hfit Hv. apply keeps_act. intros s gs HI Hk Hb.
  destruct (Threads.store_put k v (engine_ s)) as [r e'] eqn:E. intros _.
  destruct (store_put_goes_on _ k v r e' Hk Hfit Hv E) as [Hg Hs]. split; [done|].
  destruct r as [[]|err]; [|exists false; by split].
  destruct (decide (k = k0)) as [->|Hne]; [|exists false; by split]. exists true. split; [|done]. auto.
Qed.

Lemma keeps_FlushKey k ev cv b : steady (Threads.FlushKey hash k ev cv) b.
Proof.
  unfold Threads.FlushKey. eapply keeps_bind; [apply keeps_begin_flush|].
  intros [r|[v ver]] b' [-> HP]; [done|]. destruct HP as [(Hk & Hv & Hver) Ho].
  eapply keeps_bind; [apply keeps_append; [by apply flush_record_ok|intros; by apply pending_ok_intent]|].
  intros [[]|err] b' ->; [|apply keeps_flush_failed].
  eapply keeps_bind; [apply keeps_store_put; [by apply journalable_fits|done]|].
  intros [[]|err] b' Hb'; [|apply keeps_flush_failed].
  eapply keeps_bind; [apply (keeps_append (complete k ver)); [by apply flush_record_ok|]|].
  { intros e ds Hst. apply pending_ok_complete. auto. }
  intros [[]|err] b'' ->; [|apply keeps_flush_failed].
  eapply steady_bind; [apply keeps_commit; auto|]. intros _ b''. by eapply steady_bind; [apply keeps_count|].
Qed.

Lemma keeps_evict i b : keeps (Threads.act (Threads.relieve_evict i)) (λ _ b', b' = b) b.
Proof.
  eapply keeps_mono; [apply (keeps_still (λ _, True))|by intros a b' [-> _]].
  intros s gs HI Hk _. unfold Threads.relieve_evict. split; [apply evict_still|]. split; [|done].
  apply evict_entry_ok; [apply (inv_shards _ _ _ _ _ HI)|apply Hk].
Qed.

Lemma keeps_relieve_pick i b : keeps (Threads.act (Threads.relieve_pick i)) (λ _ b', b' = b) b.
Proof.
  eapply keeps_mono; [apply (keeps_still (λ _, True))|by intros a b' [-> _]].
  intros s gs HI Hk _. unfold Threads.relieve_pick. destruct (negb _); [by split; [|split; [apply Hk|]]|].
  destruct (String.eqb _ _); [|by split; [|split; [apply Hk|]]].
  split; [apply evict_still|]. split; [|done]. apply evict_entry_ok; [apply (inv_shards _ _ _ _ _ HI)|apply Hk].
Qed.

Lemma keeps_relieve n i b : steady (Threads.relieve_loop hash n i) b.
Proof.
  revert b. induction n as [|n IH]; intros b; cbn [Threads.relieve_loop]; [done|].
  eapply steady_bind; [apply keeps_relieve_pick|]. intros [[k before]|] b'; [|done].
  eapply steady_bind; [apply keeps_FlushKey|]. intros r b''.
  eapply steady_bind; [apply keeps_evict|]. intros after b3. destruct r; [|done]. by case_match.
Qed.

Lemma keeps_flush_keys keys last b : steady (Threads.flush_keys hash keys last) b.
Proof.
  revert last b. induction keys as [|k keys IH]; intros last b; cbn [Threads.flush_keys]; [done|].
  eapply steady_bind; [apply keeps_FlushKey|]. intros r b'. apply IH.
Qed.

Lemma keeps_flush_shards shs last b : steady (Threads.flush_shards hash shs last) b.
Proof.
  revert last b. induction shs as [|i shs IH]; intros last b; cbn [Threads.flush_shards]; [done|].
  eapply steady_bind; [apply keeps_read|]. intros keys b'.
  eapply steady_bind; [apply keeps_flush_keys|]. intros l b''. apply IH.
Qed.

Lemma keeps_sum_dirty shs acc b : steady (Threads.sum_dirty shs acc) b.
Proof.
  revert acc b. induction shs as [|i shs IH]; intros acc b; cbn [Threads.sum_dirty]; [done|].
  eapply steady_bind; [apply keeps_read|]. intros n b'. apply IH.
Qed.

Lemma keeps_pause p b : steady (Threads.pause_admission p) b.
Proof. by eapply keeps_mono; [apply keeps_control|]. Qed.

Lemma keeps_truncate b :
  steady (Threads.modify (λ e, set_journal e (snd (Truncate (journal_ e))))) b.
Proof.
  apply keeps_act. intros s gs HI Hk Hb Hj. pose proof (truncate_goes_on _ Hk Hj) as Hg.
  split; [done|]. exists b. split; [|done]. intros Ht. apply Hg. auto.
Qed.

Lemma keeps_compact_journal b : steady (Threads.act Threads.compact_journal) b.
Proof.
  apply keeps_act. intros s gs HI Hk Hb. unfold Threads.compact_journal. destruct (_ =? 0).
  - intros _. split; [|by exists b].
    apply goes_on_still; [done..|]. apply (entry_ok_same (engine_ s)); [done..|apply Hk].
  - intros Hj. pose proof (truncate_goes_on _ Hk Hj) as Hg.
    split; [done|]. exists b. split; [|done]. intros Ht. apply Hg. auto.
Qed.

Lemma keeps_TryCompact b : steady Threads.TryCompactJournalIfFullyClean b.
Proof.
  eapply steady_bind; [apply keeps_read|]. intros n b1. destruct (n =? 0); [done|].
  eapply steady_bind; [apply keeps_pause|]. intros _ b2.
  eapply steady_bind; [by apply keeps_wait|]. intros _ b3.
  eapply steady_bind; [apply keeps_read|]. intros shs b4.
  eapply steady_bind; [apply keeps_sum_dirty|]. intros r b5. destruct (r =? 0); [|apply keeps_pause].
  eapply steady_bind; [apply keeps_compact_journal|]. intros [|] b6; [done|apply keeps_pause].
Qed.

Lemma keeps_FlushAll b : steady (Threads.FlushAll hash) b.
Proof.
  eapply steady_bind; [apply keeps_read|]. intros [[]|err] b1; [|done].
  eapply steady_bind; [apply keeps_read|]. intros shs b2.
  eapply steady_bind; [apply keeps_flush_shards|]. intros [err|] b3; [done|].
  by eapply steady_bind; [apply keeps_TryCompact|].
Qed.

(** *** Reads *)

Lemma find_entry e k it en :
  shards_ok e → find (shard_at e (ShardFor e k)) k = Some (it, en) → engine_get e k = Some en.
Proof. intros He Hf. eapply find_get; [|exact Hf]. apply shard_at_ok, He. Qed.

Lemma touch_entry_ok e k it en :
  shards_ok e → find (shard_at e (ShardFor e k)) k = Some (it, en) → entry_ok e →
  entry_ok (count Hit (set_shard e (ShardFor e k) (touch (shard_at e (ShardFor e k)) it))).
Proof.
  intros He Hf Hok. pose proof (shard_at_ok e (ShardFor e k) (sh_shards _ _ He)) as Hs.
  pose proof Hf as Hf'. apply find_Some in Hf' as [Hin _]; [|done].
  destruct (set_shard_updated hash e k _ (engine_get e k) He (touch_ok _ it en Hs Hin)) as (_ & _ & Hu).
  { intros k'. rewrite (touch_get _ it en) by done. by apply updated_same. }
  apply (entry_ok_same (set_shard e (ShardFor e k) (touch (shard_at e (ShardFor e k)) it))); [done| |].
  { by apply engine_get_same. }
  apply (entry_ok_same e); [done| |done]. rewrite Hu. by case_decide as Hd; [rewrite Hd|].
Qed.

Lemma entry_value e en : entry_ok e → engine_get e k0 = Some en → o = Some (value en).
Proof. unfold entry_ok. intros Hok Hg. rewrite Hg in Hok. apply Hok. Qed.

Lemma keeps_lookup k b :
  keeps (Threads.act (λ e, Engine.Get_lookup hash e k))
    (λ r b', k = k0 → match r with inl v => o = Some v | inr _ => b' = true end) b.
Proof.
  apply keeps_act. intros s gs HI Hk Hb. pose proof (inv_shards _ _ _ _ _ HI) as He. pose proof (kp_entry _ Hk) as Hok.
  unfold Engine.Get_lookup. destruct (find _ k) as [[it en]|] eqn:Ef; intros _.
  - split; [apply goes_on_still; [done|done|by eapply touch_entry_ok]|]. exists false. split; [done|].
    intros ->. eapply entry_value; [done|]. by eapply find_entry.
  - split; [by apply goes_on_refl|]. destruct (decide (k = k0)) as [->|Hne]; [|exists false; by split].
    exists true. split; [|done]. intros _. apply find_None_get in Ef. unfold entry_ok, EngineFacts.engine_get in Hok.
    by rewrite Ef in Hok.
Qed.

Lemma keeps_store_get k b :
  (k = k0 → b = true) →
  keeps (Threads.act (Threads.store_get k)) (λ r b', b' = b ∧ ∀ v, r = Success v → k = k0 → o = Some v) b.
Proof.
  intros Hkb. apply keeps_act. intros s gs HI Hk Hb.
  destruct (Threads.store_get k (engine_ s)) as [r e'] eqn:E. intros _.
  destruct (store_get_goes_on _ k r e' Hk E) as [Hg Hv]. split; [done|]. exists b. split; [|split; [done|]].
  - intros Ht. apply Hg. auto.
  - intros v Er Ek. apply (Hv ltac:(auto) Ek v Er).
Qed.

Lemma keeps_fill k fence v b :
  (k = k0 → b = true ∧ o = Some v) →
  keeps (Threads.act (λ e, Engine.Get_fill hash e k fence v)) (λ v' b', b' = b ∧ (k = k0 → o = Some v')) b.
Proof.
  intros Hkb. apply keeps_still. intros s gs HI Hk Hb. pose proof (inv_shards _ _ _ _ _ HI) as He.
  pose proof (kp_entry _ Hk) as Hok. unfold Engine.Get_fill. destruct (_ =? _).
  - split; [apply insert_still|]. split; [|intros Ek; by apply Hkb].
    apply insert_entry_ok; [done| |done]. intros Ek. destruct (Hkb Ek) as [Ht Ho]. split; [by apply Hb|done].
  - destruct (find _ k) as [[it en]|] eqn:Ef; [|split; [done|]; split; [done|intros Ek; by apply Hkb]].
    split; [done|]. split; [by eapply touch_entry_ok|]. intros ->. eapply entry_value; [done|]. by eapply find_entry.
Qed.

Lemma keeps_Get k b :
  keeps (Threads.Get hash k) (λ r _, k = k0 → ∀ v, r = Success v → o = Some v) b.
Proof.
  eapply keeps_bind; [apply keeps_read|]. intros [[]|err] b1 _; [|done].
  eapply keeps_bind; [apply keeps_read|]. intros on b2 _. destruct (negb on); [done|].
  eapply keeps_bind; [apply keeps_lookup|]. intros [v|fence] b3 Hl; [intros Ek v' [= <-]; by apply Hl|].
  eapply keeps_bind; [apply keeps_count|]. intros _ b4 ->.
  eapply keeps_bind; [by apply keeps_store_get|]. intros [v|err] b5 [-> Hv]; [|done].
  destruct (_ <? _); [done|].
  eapply keeps_bind; [apply keeps_fill; intros Ek; split; [by apply Hl|by apply Hv]|].
  intros v' b6 [_ Hv'] Ek v'' [= <-]. by apply Hv'.
Qed.

(** *** Writes and invalidations of other keys *)

Lemma keeps_append_upsert k v b :
  k ≠ k0 → op_fits (OpPut k v) → steady (Threads.act (Threads.append_upsert k v)) b.
Proof.
  intros Hne [Hkl Hvl]. apply keeps_act. intros s gs HI Hk Hb.
  unfold Threads.append_upsert, Engine.AppendJournalRecordWithNewVersion.
  cbn [rec_formatVersion rec_type rec_key rec_value]. set (ver := wrap64 _). fold (upsert k v ver).
  destruct (Engine.AppendJournalRecord _ _) as [r e'] eqn:E. intros _.
  assert (kept (set_version (engine_ s) ver)) as Hk'.
  { apply (kept_still (engine_ s)); [done..|]. apply (entry_ok_same (engine_ s)); [done..|apply Hk]. }
  destruct (append_goes_on _ (upsert k v ver) r e' Hk') as [_ [Hg Hs]]; [| |done|].
  - constructor; [done|by apply wrap_width|done|done].
  - intros ds. by apply pending_ok_other.
  - split; [split; [done|exact Hs]|]. by exists false.
Qed.

Lemma keeps_insert_dirty k v ver b :
  k ≠ k0 → keeps (Threads.modify (Threads.insert_dirty hash k v ver)) (λ _ b', b' = b) b.
Proof.
  intros Hne. eapply keeps_mono; [apply (keeps_still (λ _, True))|by intros a b' [-> _]].
  intros s gs HI Hk _. split; [apply insert_still|]. split; [|done].
  apply insert_entry_ok; [apply (inv_shards _ _ _ _ _ HI)|done|apply Hk].
Qed.

Lemma keeps_admitted_write body b :
  (∀ b', steady body b') → steady (Threads.admitted_write body) b.
Proof.
  intros Hbody. eapply steady_bind.
  { apply keeps_wait. intros e. unfold Engine.TryAdmitWrite. by case_bool_decide. }
  intros ok b1. destruct (negb ok); [done|].
  eapply steady_bind; [apply Hbody|]. intros r b2.
  eapply steady_bind; [|done]. apply keeps_control. intros e. cbn. unfold Engine.ReleaseWriteAdmission. by case_match.
Qed.

Lemma keeps_Put k v b : k ≠ k0 → op_fits (OpPut k v) → steady (Threads.Put hash k v) b.
Proof.
  intros Hne Hfit. eapply steady_bind; [apply keeps_read|]. intros [[]|err] b1; [|done].
  eapply steady_bind; [apply keeps_read|]. intros on b2. destruct (negb on); [done|].
  apply keeps_admitted_write. intros b3. unfold Threads.Put_admitted.
  eapply steady_bind; [by apply keeps_append_upsert|]. intros [[[]|err] ver] b4; [|done].
  eapply steady_bind; [by apply keeps_insert_dirty|]. intros _ b5.
  eapply steady_bind; [apply keeps_read|]. intros i b6.
  eapply steady_bind; [apply keeps_relieve|]. intros _ b7.
  eapply steady_bind; [apply keeps_read|]. intros policy b8. destruct policy; [apply keeps_FlushKey|done].
Qed.

Lemma keeps_invalidate_commit k ver b :
  k ≠ k0 →
  keeps (Threads.modify (Threads.on_shard hash k (λ sh, invalidate_commit sh k ver))) (λ _ b', b' = b) b.
Proof.
  intros Hne. eapply keeps_mono; [apply (keeps_still (λ _, True))|by intros a b' [-> _]].
  intros s gs HI Hk _. pose proof (inv_shards _ _ _ _ _ HI) as He. split; [done|]. split; [|done].
  pose proof (shard_at_ok (engine_ s) (ShardFor (engine_ s) k) (sh_shards _ _ He)) as Hs.
  destruct (invalidate_commit_contract _ k ver _ Hs eq_refl) as (Hsh & _ & _ & Hu).
  destruct (set_shard_updated hash _ k _ _ He Hsh Hu) as (_ & _ & Hg).
  eapply (entry_ok_updated (engine_ s) _ k _ (set_shard_still _ _ _) Hg); [done|apply Hk].
Qed.

Lemma keeps_peek k force b :
  keeps (Threads.read (λ e, Engine.Invalidate_peek hash e k force))
    (λ r b', b' = b ∧ match r with Some ver => u64 ver | None => True end) b.
Proof.
  apply keeps_still. intros s gs HI Hk _. split; [done|]. split; [apply Hk|]. unfold Engine.Invalidate_peek.
  destruct (find _ k) as [[it en]|] eqn:Ef; [|done]. destruct (_ && _); [done|].
  eapply (inv_version _ _ _ _ _ HI k), find_entry; [apply (inv_shards _ _ _ _ _ HI)|exact Ef].
Qed.

Lemma keeps_InvalidateImpl k force b :
  ¬ lasting k → str_size k ≤ kMaxReasonableLength → steady (Threads.InvalidateImpl hash k force) b.
Proof.
  intros Hlast Hkl. assert (k ≠ k0) as Hne by congruence. eapply steady_bind; [apply keeps_read|]. intros [[]|err] b1; [|done].
  apply keeps_admitted_write. intros b2. unfold Threads.Invalidate_admitted.
  eapply keeps_bind; [apply keeps_peek|]. intros [ver|] b3 [-> Hver]; [|done].
  eapply steady_bind; [apply keeps_append; [by constructor|intros e ds _; by apply pending_ok_other]|].
  intros [[]|err] b4; [|done].
  eapply (steady_bind _ _ (λ _ _, True)).
  { apply keeps_act. intros s gs HI Hk _. destruct (Threads.store_remove k (engine_ s)) as [r e'] eqn:E. intros _.
    split; [|by exists false]. eapply store_remove_goes_on; [done|by apply journalable_fits|exact Hne|exact E]. }
  intros [[]|err] b5; [|done].
  eapply steady_bind; [by apply keeps_invalidate_commit|]. intros _ b6. by eapply steady_bind; [apply keeps_count|].
Qed.

(** *** The other threads *)

Lemma keeps_background_loop n b : steady (Threads.background_loop hash n) b.
Proof.
  revert b. induction n as [|n IH]; intros b; cbn [Threads.background_loop];
    (eapply steady_bind; [apply keeps_aside; intros s r s'; by destruct (backgroundFlushStopRequested_ s); intros [= _ <-]|]);
    intros [|] b1; try done.
  eapply steady_bind; [apply keeps_read|]. intros l b2. case_bool_decide; [|apply IH].
  eapply steady_bind; [apply keeps_FlushAll|]. intros r b3. apply IH.
Qed.

Lemma keeps_background_thread n b : steady (Threads.background_thread hash n) b.
Proof.
  eapply steady_bind; [apply keeps_background_loop|]. intros _ b1.
  eapply keeps_mono; [apply keeps_aside|done]. by intros s r s' [= _ <-].
Qed.

Lemma keeps_Stop b : steady Threads.StopBackgroundFlushThread b.
Proof.
  eapply steady_bind; [apply keeps_aside; by intros s r s' [= _ <-]|]. intros [|] b1; [|done]. cbn [negb].
  eapply steady_bind; [apply keeps_aside; by intros s r s' [= _ <-]|]. intros _ b2.
  eapply keeps_mono; [apply keeps_aside|done]. intros s r s'. case_bool_decide; [done|]. by intros [= _ <-].
Qed.

Lemma keeps_Shutdown b : steady (Threads.Shutdown hash) b.
Proof.
  eapply steady_bind; [apply keeps_control; intros e; unfold Threads.begin_stop; by destruct (lifecycle_ e)|].
  intros [] b1; try done.
  eapply steady_bind; [by apply keeps_wait|]. intros _ b2.
  eapply steady_bind; [apply keeps_Stop|]. intros _ b3.
  eapply steady_bind; [apply keeps_FlushAll|]. intros _ b4.
  eapply steady_bind; [by apply keeps_control|]. intros _ b5.
  eapply steady_bind; [apply keeps_read|]. intros shs b6.
  eapply steady_bind; [apply keeps_sum_dirty|]. intros r b7. destruct (r =? 0); [|done].
  by eapply steady_bind; [apply keeps_truncate|].
Qed.

(** ** Clients that leave the key alone *)

Definition spares (op : Operation) : Prop :=
  op_fits op ∧ op ≠ OpMarkRecoveryComplete ∧
  match op with
  | OpPut k _ => k ≠ k0
  | OpInvalidate k | OpForceInvalidate k => ¬ lasting k
  | _ => True
  end.

(** What a read of the key may return. *)
Definition told (op : Operation) (out : Outcome) : Prop :=
  op = OpGet k0 → ∀ v, out = Value (Success v) → o = Some v.

Lemma keeps_op op b :
  spares op → keeps (Threads.op_prog hash op) (λ out _, told op out) b.
Proof.
  intros (Hfit & Hne & Hk).
  assert (∀ (p : Prog (Shared B J) (Result unit)), (∀ k, op ≠ OpGet k) → steady p b →
    keeps (let! r := p in Ret (Done r)) (λ out _, told op out) b) as Hdone.
  { intros p Hg Hp. eapply keeps_bind; [exact Hp|]. intros r b' _ ->. by destruct (Hg k0). }
  destruct op as [k|k v|k|k|k| | |]; cbn [Threads.op_prog]; try (apply Hdone; [done|]).
  - eapply keeps_bind; [apply keeps_Get|]. intros r b' Hv [= ->] v [= ->]. by apply Hv.
  - by apply keeps_Put.
  - by apply keeps_InvalidateImpl.
  - by apply keeps_InvalidateImpl.
  - eapply steady_bind; [apply keeps_read|]. intros [[]|err] b1; [apply keeps_FlushKey|done].
  - apply keeps_FlushAll.
  - apply keeps_Shutdown.
  - done.
Qed.

Lemma keeps_script ops b :
  Forall spares ops → keeps (script_prog hash ops) (λ outs _, Forall2 told ops outs) b.
Proof.
  intros Hops. revert b. induction Hops as [|op ops Hop _ IH]; intros b; cbn [script_prog]; [by constructor|].
  eapply keeps_bind; [by apply keeps_op|]. intros out b1 Hout.
  eapply keeps_bind; [apply IH|]. intros outs b2 Houts. by constructor.
Qed.

(** ** The pool *)

(** Each thread knows at most what holds. *)
Definition pool_keeps (Qs : list (list Outcome → Prop)) (ts : list (Prog (Shared B J) (list Outcome))) s : Prop :=
  kept (engine_ s) ∧
  Forall2 (λ p Q, ∃ b, (b = true → stored (engine_ s)) ∧ keeps p (λ outs _, Q outs) b) ts Qs.

Lemma pool_keeps_step Qs ts s gs c i p p' s' :
  pool_safe hash N no_puts c ts s gs → pool_keeps Qs ts s → ts !! i = Some p → thread_step p s = Some (p', s') →
  goes_on (engine_ s) (engine_ s') ∧ pool_keeps Qs (<[i := p']> ts) s'.
Proof.
  intros HS [Hk Hall] Hi Hst. destruct (pool_step hash N no_puts c ts s gs i p p' s' HS Hi Hst) as (Hj & _).
  destruct HS as (HI & _ & _). destruct (Forall2_lookup_l _ _ _ _ _ Hall Hi) as (Q & HQ & b & Hb & Hp).
  destruct p as [a|R step k]; [done|]. cbn in Hst, Hp. specialize (Hp s gs HI Hk Hb).
  destruct (step s) as [[r s1]|]; [|done]. injection Hst as <- <-.
  destruct (Hp Hj) as ([Hk' Hstored] & b' & Hb' & Hkeeps). split; [done|]. split; [done|].
  assert (Forall2 (λ p Q, ∃ b, (b = true → stored (engine_ s1)) ∧ keeps p (λ outs _, Q outs) b) ts Qs) as Hall1.
  { eapply Forall2_impl; [exact Hall|]. intros q Q' (b1 & Hb1 & Hq). exists b1. split; [|done]. auto. }
  rewrite <- (list_insert_id Qs i Q HQ). apply Forall2_insert; [done|]. by exists b'.
Qed.

Lemma pool_keeps_run Qs c sched : ∀ ts ts' s s' gs,
  pool_safe hash N no_puts c ts s gs → pool_keeps Qs ts s → run_schedule sched ts s = (ts', s') →
  (∃ gs', pool_safe hash N no_puts c ts' s' gs') ∧ pool_keeps Qs ts' s'.
Proof.
  induction sched as [|i sched IH]; intros ts ts' s s' gs HS Hk; cbn [run_schedule]; [intros [= <- <-]; eauto|].
  destruct (ts !! i) as [p|] eqn:Ei; cbn [mbind option_bind]; [|by eapply IH].
  destruct (thread_step p s) as [[p' s1]|] eqn:Est; [|by eapply IH].
  destruct (pool_step hash N no_puts c ts s gs i p p' s1 HS Ei Est) as (_ & gs1 & HS1).
  apply (IH _ _ _ _ gs1 HS1). by eapply (pool_keeps_step Qs ts s gs c i p).
Qed.
End untouched.

(** ** The start *)

(** Of a client: it neither writes nor invalidates [k]. *)
Definition leaves_alone (k : string) : Operation → Prop := spares k (λ k', k' = k).

(** It invalidates nothing either. *)
Definition invalidates_nothing (op : Operation) : Prop := invalidates op = None.

Lemma leaves_alone_spares k op : leaves_alone k op → invalidates_nothing op → spares k (λ _, True) op.
Proof. intros (Hf & Hm & Hk) Hi. split; [done|]. split; [done|]. by destruct op. Qed.

Section start.
Context {B J : Type} `{BackingStoreSpec B} `{JournalSpec J}.
Context (hash : string → Z).
Implicit Types (e : CacheEngine B J) (s : Shared B J) (lasting : string → Prop).

(** What Durability.v asks of an engine gives the invariant of each key. *)
Lemma kept_start e ds k lasting :
  engine_ok hash e → durable hash e ds → store_clean (backingStore_ e) → store_reliable (backingStore_ e) →
  lasting k → (∀ k, lasting k → invalidated ds k = false) → kept hash k (view hash e k) lasting e.
Proof.
  intros He [Hl Hd] Hc Hr Hlast Hk. specialize (Hd k (Hk k Hlast)). constructor; [done..| |].
  - unfold entry_ok, stored, view. destruct (engine_get hash e k) as [en|] eqn:Eg; [|done].
    split; [done|]. intros Hcl. pose proof (eo_coherent hash e He k en Eg) as Hco. unfold coherent in Hco.
    by rewrite Hcl, (engine_get_key hash e k en He Eg) in Hco.
  - exists ds. split; [done|]. unfold view. constructor; [done| |];
      unfold stored; destruct (engine_get hash e k) as [en|] eqn:Eg; cbn in Hd.
    + destruct (is_clean en); [by rewrite Hd|]. destruct Hd as [st ->]. by intros p [= <-].
    + by rewrite Hd.
    + pose proof (eo_coherent hash e He k en Eg) as Hco. unfold coherent in Hco.
      rewrite (engine_get_key hash e k en He Eg) in Hco.
      destruct (is_clean en); [done|]. destruct Hd as [st ->]. done.
    + done.
Qed.

Abbreviation outcomes_told k o := (map (λ script outs, Forall2 (told k o) script outs)).

Lemma pool_keeps_start scripts background s k o lasting :
  lasting k → kept hash k o lasting (engine_ s) → Forall (Forall (spares k lasting)) scripts →
  pool_keeps hash (length (shards_ (engine_ s))) (never_puts scripts) k o lasting
    (outcomes_told k o scripts ++ match background with Some _ => [λ _, True] | None => [] end)
    (pool hash scripts background) s.
Proof.
  intros Hlast Hk Hall. split; [done|]. unfold pool. apply Forall2_app.
  - generalize (never_puts scripts) as np. intros np. induction Hall as [|script scripts Hs _ IH]; cbn; constructor; [|done].
    exists false. split; [done|]. by apply keeps_script.
  - destruct background as [n|]; [|constructor]. constructor; [|constructor]. exists false. split; [done|].
    by eapply steady_bind; [apply keeps_background_thread|].
Qed.

(** All that is known of a moment of a schedule. *)
Lemma untouched_run scripts background s ds k lasting sched ts s' :
  ready_for hash scripts background s → engine_ok hash (engine_ s) → durable hash (engine_ s) ds →
  store_clean (backingStore_ (engine_ s)) → store_reliable (backingStore_ (engine_ s)) →
  lasting k → (∀ k, lasting k → invalidated ds k = false) → Forall (Forall (spares k lasting)) scripts →
  run_schedule sched (pool hash scripts background) s = (ts, s') →
  let o := view hash (engine_ s) k in
  ∃ gs Qs, pool_safe hash (length (shards_ (engine_ s))) (never_puts scripts) (length scripts) ts s' gs ∧
    pool_keeps hash (length (shards_ (engine_ s))) (never_puts scripts) k o lasting Qs ts s' ∧
    ∀ i script, scripts !! i = Some script → Qs !! i = Some (λ outs, Forall2 (told k o) script outs).
Proof.
  intros Hr He Hd Hc Hrel Hlast Hk Hall E o.
  pose proof (kept_start _ ds k lasting He Hd Hc Hrel Hlast Hk) as Hkept.
  destruct (pool_keeps_run _ _ _ _ _ _ _ _ _ _ _ _ _ _ (pool_start hash scripts background s Hr)
              (pool_keeps_start scripts background s k o lasting Hlast Hkept Hall) E) as [[gs HS] HK].
  eexists gs, _. split; [done|]. split; [done|]. intros i script Hi.
  rewrite lookup_app_l by (rewrite length_map; by eapply lookup_lt_Some).
  change (map ?f scripts) with (f <$> scripts). by rewrite list_lookup_fmap, Hi.
Qed.

Lemma pool_keeps_value scripts background s ds k sched ts s' :
  ready_for hash scripts background s → engine_ok hash (engine_ s) → durable hash (engine_ s) ds →
  store_clean (backingStore_ (engine_ s)) → store_reliable (backingStore_ (engine_ s)) →
  invalidated ds k = false → Forall (Forall (leaves_alone k)) scripts →
  run_schedule sched (pool hash scripts background) s = (ts, s') →
  view hash (engine_ s') k = view hash (engine_ s) k ∧
  (∃ ds', log_is (journal_ (engine_ s')) ds' ∧
     recovered ds' (store_map (backingStore_ (engine_ s'))) k = view hash (engine_ s) k) ∧
  ∀ i script outs, scripts !! i = Some script → ts !! i = Some (Ret outs) →
    Forall2 (told k (view hash (engine_ s) k)) script outs.
Proof.
  intros Hr He Hd Hc Hrel Hk Hall E.
  destruct (untouched_run scripts background s ds k (λ k', k' = k) sched ts s' Hr He Hd Hc Hrel eq_refl
              ltac:(by intros ? ->) Hall E) as (gs & Qs & _ & [Hkept HQ] & Hlook).
  split; [by eapply kept_view|]. split.
  - destruct (kept_holds _ _ _ _ eq_refl _ Hkept) as (ds' & [_ _ Hl _ HV]). exists ds'. split; [done|]. by apply HV.
  - intros i script outs Hi Ht. destruct (Forall2_lookup_lr _ _ _ _ _ _ HQ Ht (Hlook i script Hi)) as (b & _ & Hq). exact Hq.
Qed.
End start.

(** C6: A key that no client writes or invalidates keeps its value.  On any schedule
    of clients that put, get, invalidate and flush other keys, get and flush
    this one, and shut down, with the background flusher beside them, at every
    moment: clients see the value the key had; a restart on the journal and the
    backing store as they then are finds it; and every read of the key that has
    succeeded by then returned it.  The evictions, flushes, compactions and
    read-fills of all the threads may overlap on the key. *)
Theorem untouched_key_keeps_value `{BackingStoreSpec B} `{JournalSpec J} hash scripts background (s : Shared B J) ds k
    sched ts s' :
  ready_for hash scripts background s → engine_ok hash (engine_ s) → durable hash (engine_ s) ds →
  store_clean (backingStore_ (engine_ s)) → store_reliable (backingStore_ (engine_ s)) →
  invalidated ds k = false → Forall (Forall (leaves_alone k)) scripts →
  run_schedule sched (pool hash scripts background) s = (ts, s') →
  view hash (engine_ s') k = view hash (engine_ s) k ∧
  (∃ ds', log_is (journal_ (engine_ s')) ds' ∧
     recovered ds' (store_map (backingStore_ (engine_ s'))) k = view hash (engine_ s) k) ∧
  ∀ i script outs, scripts !! i = Some script → ts !! i = Some (Ret outs) →
    Forall2 (told k (view hash (engine_ s) k)) script outs.
Proof. apply pool_keeps_value. Qed.

(** ** Power cuts *)

Section power_cut.
Context {F : Type} `{IFileSpec F} {json : Type} `{NlohmannJsonSpec json}.
Context (hash : string → Z)
        (pending_order : gmap string PendingEntry → list (string * PendingEntry)).
Hypothesis pending_order_perm : ∀ m, pending_order m ≡ₚ map_to_list m.

Abbreviation Store := (FileBackingStore.FileBackingStore F).
Abbreviation Journal := (WriteAheadJournal F).
Implicit Types (s : Shared Store Journal) (ts : list (Prog (Shared Store Journal) (list Outcome))).

(** The pool at [s], or after the next step of one of its threads. *)
Inductive next_state ts s : Shared Store Journal → Prop :=
  | next_none : next_state ts s s
  | next_step i p p' s' : ts !! i = Some p → thread_step p s = Some (p', s') → next_state ts s s'.

(** The power fails at [s], while one thread may be in a call of the journal,
    and one in a call of the backing store. *)
Inductive cut_under ts s : F → F → Prop :=
  | cut_under_intro sj sd fj fd :
      next_state ts s sj → backingStore_ (engine_ sj) = backingStore_ (engine_ s) →
      cut_journal_file (engine_ s) (engine_ sj) fj →
      next_state ts s sd → cut_data_file (engine_ s) (engine_ sd) fd →
      cut_under ts s fj fd.

Section read.
Context (N : nat) (np : bool) (c : nat) (k : string) (o : option bytes) (lasting : string → Prop).
Context (Qs : list (list Outcome → Prop)) (ts : list (Prog (Shared Store Journal) (list Outcome)))
  (s : Shared Store Journal) (gs : list Ghost).
Hypotheses (lasting_k : lasting k) (Hsafe : pool_safe hash N np c ts s gs)
  (Hkeeps : pool_keeps hash N np k o lasting Qs ts s).

Lemma next_state_kept s1 : next_state ts s s1 → goes_on hash k o lasting (engine_ s) (engine_ s1).
Proof.
  intros Hn. destruct Hn as [|i p p' s1 Hi Hst]; [by apply goes_on_refl, Hkeeps|].
  by eapply (pool_keeps_step hash N np k o lasting Qs ts s gs c i p).
Qed.

(** What the next process reads. *)
Lemma cut_under_read fj fd cj cd :
  cut_under ts s fj fd → crash_image fj cj → crash_image fd cd →
  ∃ ds, Forall2 (λ r d, Decode (payload r) = Success d) (frames_of cj) ds ∧
    recovered ds (map_of (content_records cd)) k = o ∧ ∀ k, lasting k → invalidated ds k = false.
Proof.
  intros Hcut Hj Hd. destruct Hcut as [sj sd fj fd Nj Ej Fj Nd Fd].
  pose proof (proj1 Hkeeps) as [Hc Hr _ (l & Hl & Hp)].
  destruct (next_state_kept sj Nj) as [[_ _ _ (lj & Hlj & Hpj)] _].
  destruct (next_state_kept sd Nd) as [[Hcd _ _ _] Hstored].
  destruct (cut_journal_read _ _ _ _ _ _ Hl Hlj Fj Hj) as (ds & Hds & Ha). exists ds. split; [done|].
  assert (pending_ok k o lasting ds (engine_ s)) as [Hi Hv Hst].
  { destruct Hds as [-> | ->]; [done|]. destruct Hpj as [? ? Hs]. constructor; [done..|].
    unfold stored in *. by rewrite Ej in Hs. }
  split; [|done]. unfold recovered. rewrite store_after_lookup, (Hi k lasting_k).
  destruct (pending_of ds !! k) as [p|] eqn:Ep; [symmetry; by apply Hv|]. specialize (Hst eq_refl).
  destruct (cut_data_read _ _ _ _ Hc Hr Hcd Fd Hd) as [-> | ->]; [exact Hst|by apply Hstored].
Qed.
End read.

(** The start on what a power cut left. *)
Lemma boots_under_cut rm e ds t stop scripts background k lasting sched ts s' fj fd mf jf df r sv :
  alive hash rm e ds → ready_for hash scripts background (mkShared e t stop) →
  lasting k → (∀ k, lasting k → invalidated ds k = false) → Forall (Forall (spares k lasting)) scripts →
  run_schedule sched (pool hash scripts background) (mkShared e t stop) = (ts, s') → cut_under ts s' fj fd →
  reopened (marker_file (marker_ rm)) mf → reopened fj jf → reopened fd df → zlen (file_content df) < 2 ^ 63 →
  boots hash pending_order mf jf df r sv →
  (r = Success tt → ∃ rm' e', sv = mkService (Some rm') (Some e') ∧ engine_ok hash e' ∧ view hash e' k = view hash e k) ∧
  ((∀ k, lasting k) → r = Success tt).
Proof.
  intros [He Hdu Hc Hr Hs _ _] Hready Hlast Hk Hall E Hcut Hm Hj Hd Hsz Hb.
  destruct (untouched_run hash scripts background (mkShared e t stop) ds k lasting sched ts s' Hready He Hdu Hc Hr Hlast Hk Hall E)
    as (gs & Qs & HS & HK & _).
  destruct (cut_under_read _ _ _ _ _ _ _ _ _ _ Hlast HS HK _ _ _ _ Hcut (ro_image _ _ Hj) (ro_image _ _ Hd))
    as (ds1 & Ha & Hv & Hi).
  destruct (boots_on_read hash pending_order pending_order_perm rm fj fd mf jf df ds1 r sv Hs Hm Hj Hd Hsz Ha Hb)
    as [Hok Hno].
  split; [|intros Hl; by apply Hno; auto]. intros Hrs. destruct (Hok Hrs) as (rm' & e' & -> & He' & _ & Hview).
  exists rm', e'. split; [done|]. split; [done|]. rewrite Hview. exact Hv.
Qed.

(** C5: A power cut at any moment of any schedule.  From a serving process
    whose files are in order, with any number of clients and the background
    flusher on any schedule, the power fails at any moment, one thread in the
    middle of a call of the journal and another one in the middle of a call of
    the data file, each file torn or not: the next process, with whatever
    configuration, if it starts, shows every key that no client wrote or
    invalidated with the value the old process served; and it does start when
    nothing was invalidated. *)
Theorem power_cut_keeps_untouched rm e ds t stop scripts background k sched ts s' fj fd mf jf df r sv :
  alive hash rm e ds → ready_for hash scripts background (mkShared e t stop) →
  invalidated ds k = false → Forall (Forall (leaves_alone k)) scripts →
  run_schedule sched (pool hash scripts background) (mkShared e t stop) = (ts, s') → cut_under ts s' fj fd →
  reopened (marker_file (marker_ rm)) mf → reopened fj jf → reopened fd df → zlen (file_content df) < 2 ^ 63 →
  boots hash pending_order mf jf df r sv →
  (r = Success tt → ∃ rm' e', sv = mkService (Some rm') (Some e') ∧ engine_ok hash e' ∧ view hash e' k = view hash e k) ∧
  ((∀ k, invalidated ds k = false) → Forall (Forall invalidates_nothing) scripts → r = Success tt).
Proof.
  intros Ha Hready Hk Hall E Hcut Hm Hj Hd Hsz Hb. split.
  - assert (∀ k', k' = k → invalidated ds k' = false) as Hone by (by intros ? ->).
    exact (proj1 (boots_under_cut rm e ds t stop scripts background k (λ k', k' = k) sched ts s' fj fd mf jf df r sv
      Ha Hready eq_refl Hone Hall E Hcut Hm Hj Hd Hsz Hb)).
  - intros Hn Hi. eapply (boots_under_cut rm e ds t stop scripts background k (λ _, True)); eauto.
    rewrite Forall_forall in Hall |- *. rewrite Forall_forall in Hi. intros script Hin.
    specialize (Hall script Hin). specialize (Hi script Hin). rewrite Forall_forall in Hall |- *.
    rewrite Forall_forall in Hi. intros op Hop. by apply leaves_alone_spares; auto.
Qed.
End power_cut.
