(* ===== verification/ServiceThreads.v ===== *)
(** * ServiceThreads: the threads of the running service over one engine

    While src/src/Service/src/main_service.cpp serves, up to four threads call
    the engine: the pipe thread, which runs what clients ask for
    ([IpcServerThreadBody]), the handler of a pre-shutdown, the one that stops
    the service, and the engine's background flusher.  Requests.v runs the pipe
    thread alone; here it is the script of the operations it calls, proved to
    be the same when it runs alone, and the invariant of Interleaving.v is
    instantiated for the four of them, on any schedule. *)
From S2P Require Import Prelude Common RecordCodec Scan Storage Journal Marker Recovery Store.
From S2P Require Import Shard Engine EngineFacts Durability Client Lifecycle Service Ipc Requests.
From S2P Require Import Config Startup Threads CrashPoints Lifetime Interleaving Untouched.
Import EntryDirtyState EngineLifecycle Client.
Open Scope Z_scope.

(** ** What a client asks of the engine *)

(** The operation a received frame makes the pipe thread call; reading the
    status or the statistics changes nothing. *)
Definition request_ops (frame : bytes) : list Operation :=
  match PeekMessageType frame with
  | Failure _ => []
  | Success type =>
    if type =? MessageType.MessageType_val MessageType.FlushAllRequest then [OpFlushAll]
    else if type =? MessageType.MessageType_val MessageType.InvalidateKeyRequest then
      match DecodeInvalidateKeyRequest frame with
      | Failure _ => []
      | Success request => [OpForceInvalidate (inv_key request)]
      end
    else []
  end.

(** What clients can ask for: never a write. *)
Definition harmless (op : Operation) : Prop := is_put op = false ∧ op_fits op ∧ op ≠ OpShutdown ∧ op ≠ OpMarkRecoveryComplete.

Lemma request_ops_harmless frame : Forall harmless (request_ops frame).
Proof.
  unfold request_ops. destruct (PeekMessageType frame) as [type|]; [|constructor].
  destruct (type =? _); [by repeat constructor|]. destruct (type =? _); [|constructor].
  destruct (DecodeInvalidateKeyRequest frame) as [[key]|] eqn:Ed; [|constructor].
  apply DecodeInvalidateKeyRequest_inv in Ed as [Hk _]. constructor; [|constructor].
  split; [done|]. split; [|done]. by apply key_journalable.
Qed.

Section pipe_thread.
Context {F P : Type} `{IFile F} `{Win32Pipe P}.
Context (hash : string → Z).
Implicit Types (s : Service F) (turns : list (Turn (P := P))).

(** The operations of a connection, and of all the turns of the accept loop up
    to the stop. *)
Definition connection_ops (transport : P) : list Operation :=
  match ReceiveFrame transport with
  | (Success frame, _) => request_ops frame
  | (Failure _, _) => []
  end.

Fixpoint pipe_ops turns : list Operation :=
  match turns with
  | [] => []
  | t :: turns =>
    if stop_before t || stop_after t then []
    else
      match accepted t with
      | Failure err => if decide (code err = ErrorCode.ServiceStopping) then [] else pipe_ops turns
      | Success transport => connection_ops transport ++ pipe_ops turns
      end
  end.

Lemma pipe_ops_harmless turns : Forall harmless (pipe_ops turns).
Proof.
  induction turns as [|t turns IH]; cbn; [constructor|]. destruct (_ || _); [constructor|].
  destruct (accepted t) as [transport|err]; [|by case_decide].
  apply Forall_app. split; [|done]. unfold connection_ops. destruct (ReceiveFrame transport) as [[frame|] ?];
    [apply request_ops_harmless|constructor].
Qed.

Lemma run_ops_app (e : CacheEngine (FileBackingStore.FileBackingStore F) (WriteAheadJournal F)) ops1 ops2 :
  snd (run hash e (ops1 ++ ops2)) = snd (run hash (snd (run hash e ops1)) ops2).
Proof.
  revert e. induction ops1 as [|op ops1 IH]; intros e; cbn [app run]; [done|].
  destruct (run_op hash e op) as [out e1]. specialize (IH e1).
  destruct (run hash e1 (ops1 ++ ops2)) as [? ?], (run hash e1 ops1) as [? ?]. exact IH.
Qed.

Lemma HandleFrame_runs frame s e :
  g_cacheEngine s = Some e → snd (HandleFrame hash frame s) = with_engine s (snd (run hash e (request_ops frame))).
Proof.
  intros Hs. assert (with_engine s e = s) as Hsame by (destruct s; cbn in *; by rewrite Hs).
  unfold HandleFrame, request_ops. rewrite Hs. destruct (PeekMessageType frame) as [type|]; [|done].
  destruct (Z.eqb_spec type (MessageType.MessageType_val MessageType.GetStatusRequest)) as [->|_]; [done|].
  destruct (Z.eqb_spec type (MessageType.MessageType_val MessageType.GetCacheStatisticsRequest)) as [->|_]; [done|].
  destruct (type =? _); [cbn; by destruct (Engine.FlushAll hash e)|]. destruct (type =? _); [|done].
  destruct (DecodeInvalidateKeyRequest frame) as [request|]; [|done].
  cbn. by destruct (Engine.ForceInvalidate hash e _).
Qed.

(** The pipe thread alone does to the engine what a run of [pipe_ops] does, and
    nothing else. *)
Lemma pipe_thread_runs turns s e :
  g_cacheEngine s = Some e →
  snd (IpcServerThreadBody hash turns s) = with_engine s (snd (run hash e (pipe_ops turns))).
Proof.
  assert (∀ s0 e0, g_cacheEngine s0 = Some e0 → s0 = with_engine s0 e0) as Hsame by (intros [? ?] ? [= ->]; done).
  revert s e. induction turns as [|t turns IH]; intros s e Hs; cbn [IpcServerThreadBody pipe_ops]; [by apply Hsame|].
  destruct (stop_before t); [by apply Hsame|]. destruct (stop_after t); [by apply Hsame|].
  cbn [orb]. destruct (accepted t) as [transport|err]; [|case_decide; [by apply Hsame|by apply IH]].
  rewrite run_ops_app. unfold HandleOneIpcRequest, connection_ops.
  destruct (ReceiveFrame transport) as [[frame|] t1].
  - pose proof (HandleFrame_runs frame s e Hs) as Hf. destruct (HandleFrame hash frame s) as [reply s1]. cbn in Hf.
    specialize (IH s1 (snd (run hash e (request_ops frame)))). rewrite Hf in IH. specialize (IH eq_refl).
    destruct reply; rewrite Hf; by destruct (IpcServerThreadBody hash turns _).
  - specialize (IH s e Hs). by destruct (IpcServerThreadBody hash turns s).
Qed.
End pipe_thread.

(** ** The engine a service serves *)

(** What replay has pending for a key was put into the journal. *)
Lemma pending_of_upserted ds k p :
  Forall record_ok ds → pending_of ds !! k = Some p →
  str_size k ≤ kMaxReasonableLength ∧ zlen (p_value p) ≤ kMaxReasonableLength ∧ u64 (p_version p) ∧
  upsert k (p_value p) (p_version p) ∈ ds.
Proof.
  revert k p. induction ds as [|d ds IH] using rev_ind; intros k p; [done|].
  intros [Hok [Hd _]%Forall_cons]%Forall_app. specialize (λ k p, IH k p Hok).
  assert (∀ p', pending_of ds !! k = Some p' → p_value p' = p_value p → p_version p' = p_version p →
    str_size k ≤ kMaxReasonableLength ∧ zlen (p_value p) ≤ kMaxReasonableLength ∧ u64 (p_version p) ∧
    upsert k (p_value p) (p_version p) ∈ ds ++ [d]) as Hold.
  { intros p' Hp <- <-. destruct (IH k p' Hp) as (? & ? & ? & ?). split_and!; try done. by apply elem_of_app; left. }
  rewrite pending_of_snoc. destruct (decide (rec_key d = k)) as [<-|Hne].
  2:{ rewrite pending_step_ne by done. intros Hp. by eapply Hold. }
  unfold pending_step. destruct d as [fv [] k' v ver]; cbn [rec_type rec_key rec_value rec_entryVersion] in *.
  - rewrite lookup_insert_eq. intros [= <-]. cbn. destruct Hd as [Hf Hu Hk Hv]. cbn in *. subst fv.
    split_and!; try done. apply elem_of_app; right. by apply list_elem_of_singleton.
  - destruct (pending_of ds !! k') as [p'|] eqn:Ep; [|by rewrite Ep]. destruct (_ =? _).
    + rewrite lookup_insert_eq. intros [= <-]. by eapply Hold.
    + rewrite Ep. intros [= <-]. by eapply Hold.
  - destruct (pending_of ds !! k') as [p'|] eqn:Ep; [|by rewrite Ep]. destruct (_ =? _).
    + by rewrite lookup_delete_eq.
    + rewrite Ep. intros [= <-]. by eapply Hold.
  - by rewrite lookup_delete_eq.
Qed.

Section service.
Context {F P : Type} `{IFileSpec F} `{Win32Pipe P}.
Context (hash : string → Z).

Abbreviation Store := (FileBackingStore.FileBackingStore F).
Abbreviation Journal := (WriteAheadJournal F).
Implicit Types e : CacheEngine Store Journal.

Lemma log_records_ok (j : Journal) ds : log_is j ds → Forall record_ok ds.
Proof.
  intros (_ & _ & Hl). induction Hl as [|r d rs ds Hd _ IH]; constructor; [|done].
  by apply Decode_inv in Hd as [? _].
Qed.

(** A serving engine none of whose keys were invalidated since the journal was
    last emptied has the record of every write it has not flushed. *)
Lemma durable_logged e ds :
  engine_ok hash e → durable hash e ds → (∀ k, invalidated ds k = false) → logged hash e ds.
Proof.
  intros He [Hl Hd] Hk k en [Hg Hc]. specialize (Hd k (Hk k)).
  change (EngineFacts.engine_get hash e k) with (engine_get hash e k) in Hd. rewrite Hg in Hd. cbn in Hd.
  rewrite Hc in Hd. destruct Hd as [st Hp].
  destruct (pending_of_upserted ds k _ (log_records_ok _ _ Hl) Hp) as (Hsk & Hsv & Hu & Hin).
  pose proof (engine_get_key hash e k en He Hg) as Hkey. unfold journalable. by rewrite Hkey.
Qed.
End service.

(** ** The threads of a service *)

Section schedules.
Context {F P : Type} `{IFileSpec F} `{Win32Pipe P}.
Context (hash : string → Z).

Abbreviation Store := (FileBackingStore.FileBackingStore F).
Abbreviation Journal := (WriteAheadJournal F).
Implicit Types (e : CacheEngine Store Journal) (turns : list (Turn (P := P))).

(** The pipe thread, the handler of a pre-shutdown, and the stop. *)
Definition service_scripts turns : list (list Operation) := [pipe_ops turns; [OpFlushAll]; [OpShutdown]].

(** The end of [MarkRecoveryComplete]: the background flusher starts, where
    there is one; its timer fires [timeouts] times. *)
Definition serving_state e : Shared Store Journal :=
  Threads.StartBackgroundFlushThreadIfConfigured (mkShared e NotStarted false).

Definition service_flusher e (timeouts : nat) : option nat :=
  match flushPolicy (options_ e) with
  | FlushPolicyKind.Manual => None
  | FlushPolicyKind.PeriodicBackground => Some timeouts
  end.

Lemma serving_engine e : engine_ (serving_state e) = e.
Proof. unfold serving_state, Threads.StartBackgroundFlushThreadIfConfigured. cbn. by destruct (flushPolicy _). Qed.

Lemma harmless_client ops : Forall harmless ops → client_script true ops.
Proof.
  induction 1 as [|op ops (Hp & Hf & Hs & Hm) _ IH]; [done|]. cbn. split; [|split; [done|exact IH]].
  by split_and!.
Qed.

Lemma harmless_no_put ops : Forall harmless ops → forallb (λ op, negb (is_put op)) ops = true.
Proof. induction 1 as [|op ops (Hp & _) _ IH]; [done|]. cbn. by rewrite Hp. Qed.

Lemma service_never_puts turns : never_puts (service_scripts turns) = true.
Proof. unfold never_puts. cbn. by rewrite (harmless_no_put _ (pipe_ops_harmless turns)). Qed.

(** A serving engine is ready for clients. *)
Lemma alive_ready rm e ds scripts background n :
  alive hash rm e ds → (∀ k, invalidated ds k = false) → background = service_flusher e n →
  entry_count e + zlen (concat scripts) + zlen scripts + 1 < 2 ^ 64 →
  Forall (client_script (never_puts scripts)) scripts → never_puts scripts = true ∨ one_flusher scripts background →
  ready_for hash scripts background (serving_state e).
Proof.
  intros [He Hd _ _ _ Hi Hp] Hk -> Hroom Hs Hone. constructor; rewrite ?serving_engine; try done.
  - by apply engine_shards.
  - intros k en Hg. pose proof (eo_version hash e He k en Hg). pose proof (eo_counter hash e He).
    unfold in_width. lia.
  - exists ds. split; [apply Hd|]. by apply durable_logged.
  - unfold serving_state, service_flusher, Threads.StartBackgroundFlushThreadIfConfigured. cbn.
    by destruct (flushPolicy _).
Qed.

Lemma service_ready rm e ds turns n :
  alive hash rm e ds → (∀ k, invalidated ds k = false) →
  entry_count e + zlen (pipe_ops turns) + 6 < 2 ^ 64 →
  ready_for hash (service_scripts turns) (service_flusher e n) (serving_state e).
Proof.
  intros Ha Hk Hroom. eapply alive_ready; [done|done|done| | |left; apply service_never_puts].
  - cbn [service_scripts concat]. rewrite !zlen_app. unfold zlen at 2 3 4 5. cbn. lia.
  - rewrite service_never_puts. repeat apply Forall_cons_2; try apply Forall_nil_2; [|done..].
    apply harmless_client, pipe_ops_harmless.
Qed.

(** No request removes [k]. *)
Lemma harmless_leaves ops k :
  Forall harmless ops → OpForceInvalidate k ∉ ops → OpInvalidate k ∉ ops → Forall (leaves_alone k) ops.
Proof.
  rewrite !Forall_forall. intros Hh Hf Hi op Hop. destruct (Hh op Hop) as (Hp & Hfit & _ & Hm).
  split; [done|]. split; [done|]. destruct op; try done; intros ->; done.
Qed.

Lemma pipe_ops_no_invalidate turns k : OpInvalidate k ∉ pipe_ops turns.
Proof.
  assert (∀ frame, OpInvalidate k ∉ request_ops frame) as Hr.
  { intros frame. unfold request_ops.
    destruct (PeekMessageType frame); [|apply not_elem_of_nil]. destruct (_ =? _); [by intros ?%list_elem_of_singleton|].
    destruct (_ =? _); [|apply not_elem_of_nil].
    destruct (DecodeInvalidateKeyRequest frame); [by intros ?%list_elem_of_singleton|apply not_elem_of_nil]. }
  induction turns as [|t turns IH]; cbn [pipe_ops]; [apply not_elem_of_nil|]. destruct (_ || _); [apply not_elem_of_nil|].
  destruct (accepted t) as [transport|err]; [|case_decide; [apply not_elem_of_nil|done]].
  apply not_elem_of_app. split; [|done]. unfold connection_ops.
  destruct (ReceiveFrame transport) as [[frame|] ?]; [apply Hr|apply not_elem_of_nil].
Qed.

(** C13: The threads of a running service do not lose writes to each other, and all
    return.  The pipe thread, whatever frames arrive on however many
    connections, calls the engine for [pipe_ops] and for nothing else.  From a
    serving engine none of whose keys were invalidated since the journal was
    last emptied, with the pre-shutdown handler, the stop and the background
    flusher on any schedule beside it: at every moment the journal has the
    record of every entry that is not flushed; every key no request names shows
    the value it had, and a restart finds it; and the schedule can be continued
    until the pipe thread, the handler and the stop have returned, with no write
    in flight and admission open.  Any number of them may be emptying the
    journal at once. *)
Theorem service_threads_keep_writes rm e ds turns n sched ts s' :
  alive hash rm e ds → (∀ k, invalidated ds k = false) →
  entry_count e + zlen (pipe_ops turns) + 6 < 2 ^ 64 →
  run_schedule sched (pool hash (service_scripts turns) (service_flusher e n)) (serving_state e) = (ts, s') →
  snd (IpcServerThreadBody hash turns (mkService (Some rm) (Some e))) =
    mkService (Some rm) (Some (snd (run hash e (pipe_ops turns)))) ∧
  (∃ ds', log_is (journal_ (engine_ s')) ds' ∧
     ∀ k en, engine_get hash (engine_ s') k = Some en → is_clean en = false →
       upsert k (value en) (version en) ∈ ds') ∧
  (∀ k, OpForceInvalidate k ∉ pipe_ops turns →
     view hash (engine_ s') k = view hash e k ∧
     ∃ ds', log_is (journal_ (engine_ s')) ds' ∧
       recovered ds' (store_map (backingStore_ (engine_ s'))) k = view hash e k) ∧
  ∃ sched' ts2 s2,
    run_schedule (sched ++ sched') (pool hash (service_scripts turns) (service_flusher e n)) (serving_state e) = (ts2, s2) ∧
    (∀ i script, service_scripts turns !! i = Some script → ∃ outs, ts2 !! i = Some (Ret outs)) ∧
    inFlightWriteCount_ (engine_ s2) = 0 ∧ compactionPaused_ (engine_ s2) = false.
Proof.
  intros Ha Hk Hroom E. pose proof (service_ready rm e ds turns n Ha Hk Hroom) as Hr.
  split; [by apply pipe_thread_runs|]. split; [by eapply pool_keeps_journal|]. split; [|by eapply pool_can_finish].
  intros k Hnot. destruct Ha as [He Hd Hc Hrel _ _ _].
  destruct (pool_keeps_value hash _ _ (serving_state e) ds k sched ts s' Hr) as (Hv & Hrec & _);
    rewrite ?serving_engine in *; try done.
  repeat apply Forall_cons_2; try apply Forall_nil_2; [|by repeat constructor..].
  apply harmless_leaves; [apply pipe_ops_harmless|done|apply pipe_ops_no_invalidate].
Qed.
End schedules.
