(* ===== verification/ServiceProcess.v ===== *)
(** * ServiceProcess: the whole process of the service

    QuantumCacheService.exe as src/src/Service/src/main_service.cpp composes it:
    the host of ServiceHost.v, whose two threads call the callbacks [wmain]
    installs, the pipe thread ([IpcServerThreadBody]) and the background flusher
    that the start callback creates, all over one recovery manager and one
    engine.  A request, a flush, the stop callback are the programs of
    Threads.v, of which any thread may do one atomic block at a time: a report
    to the control manager can come in the middle of a request, and a request in
    the middle of a callback.

    The number of turns of the pipe thread and of the flusher has no bound. *)
From S2P Require Import Prelude Common RecordCodec Scan Storage Journal Marker Recovery Store.
From S2P Require Import Shard Engine EngineFacts Durability Client Lifecycle Service Ipc Requests.
From S2P Require Import Config ServiceHost Threads CrashPoints Interleaving ServiceThreads.
Import EntryDirtyState EngineLifecycle ServiceState Control Client.
Open Scope Z_scope.

Section process.
Context {F : Type} `{IFile F}.
Context (hash : string → Z)
        (pending_order : gmap string PendingEntry → list (string * PendingEntry)).
Context (options : CacheEngineOptions) (startTime stopTime : Z).
Context (markerFile journalFile dataFile : Result F).
(** Whether [CreateNamedPipeServer] accepts the configured name. *)
Context (pipe_created : bool).

Abbreviation Store := (FileBackingStore.FileBackingStore F).
Abbreviation Journal := (WriteAheadJournal F).
Abbreviation Engine := (Shared Store Journal).
Abbreviation Program := (Prog Engine).

(** ** The state of the process *)

(** Where [IpcServerThreadBody] stands: at the test of the loop, inside
    [AcceptOnce], behind it, inside [ReceiveFrame], in what the frame asks for,
    at its end. *)
Inductive PipeThread :=
  | pipe_none
  | pipe_loop
  | pipe_accepting
  | pipe_accepted (transport : Result unit)
  | pipe_receiving
  | pipe_serving (request : Program (list Outcome))
  | pipe_exited.

(** Where the background flusher stands: in its [wait_for], in a turn. *)
Inductive Flusher :=
  | flusher_none
  | flusher_waiting
  | flusher_working (turn : Program unit)
  | flusher_returned.

(** Where the callback that runs on the dispatcher's thread stands. *)
Inductive CallbackPc :=
  | no_callback
  | stop_flagged
  | stop_joining
  | stop_shutting (shutdown : Program (Result unit))
  | stop_marking
  | preshutdown_flushing (flush : Program (Result unit))
  | callback_done (r : Result unit).

Record Process := mkProcess {
  p_recoveryManager : option (RecoveryManager (SessionMarker F));
  p_engine : option Engine;
  g_ipcShouldStop : bool;
  shutdown_requested : bool;
  g_ipcThread : PipeThread;
  p_flusher : Flusher;
  p_callback : CallbackPc
}.

Definition with_engine (w : Process) (s : Engine) : Process :=
  mkProcess (p_recoveryManager w) (Some s) (g_ipcShouldStop w) (shutdown_requested w) (g_ipcThread w) (p_flusher w) (p_callback w).
Definition with_manager (w : Process) (rm : RecoveryManager (SessionMarker F)) : Process :=
  mkProcess (Some rm) (p_engine w) (g_ipcShouldStop w) (shutdown_requested w) (g_ipcThread w) (p_flusher w) (p_callback w).
Definition with_pipe (w : Process) (t : PipeThread) : Process :=
  mkProcess (p_recoveryManager w) (p_engine w) (g_ipcShouldStop w) (shutdown_requested w) t (p_flusher w) (p_callback w).
Definition with_flusher (w : Process) (t : Flusher) : Process :=
  mkProcess (p_recoveryManager w) (p_engine w) (g_ipcShouldStop w) (shutdown_requested w) (g_ipcThread w) t (p_callback w).
Definition with_callback (w : Process) (c : CallbackPc) : Process :=
  mkProcess (p_recoveryManager w) (p_engine w) (g_ipcShouldStop w) (shutdown_requested w) (g_ipcThread w) (p_flusher w) c.

Definition nothing_started : Process := mkProcess None None false false pipe_none flusher_none no_callback.

(** ** The threads *)

(** What the environment decides: what [AcceptOnce] and [ReceiveFrame] return,
    that the flusher's timer fires; and which thread takes its next step where
    there is nothing to decide. *)
Inductive Event :=
  | Accepted (transport : Result unit)
  | Received (frame : Result bytes)
  | PipeRuns
  | TimerFires
  | FlusherRuns
  | CallbackRuns.

(** One block of a program over the engine. *)
Definition engine_step {A} (w : Process) (p : Program A) : option (Program A * Process) :=
  s ← p_engine w; '(p, s) ← thread_step p s; Some (p, with_engine w s).

(** What a frame makes the pipe thread do to the engine, if there is one. *)
Definition request_prog (w : Process) (frame : bytes) : Program (list Outcome) :=
  match p_engine w with
  | Some _ => script_prog hash (request_ops frame)
  | None => Ret []
  end.

(** [AcceptOnce] says [ServiceStopping] only once a shutdown was requested. *)
Definition may_return (w : Process) (transport : Result unit) : bool :=
  match transport with
  | Success _ => true
  | Failure err => negb (bool_decide (code err = ErrorCode.ServiceStopping)) || shutdown_requested w
  end.

Definition pipe_step (ev : Event) (w : Process) : option Process :=
  match g_ipcThread w, ev with
  | pipe_loop, PipeRuns => Some (with_pipe w (if g_ipcShouldStop w then pipe_exited else pipe_accepting))
  | pipe_accepting, Accepted transport =>
    if may_return w transport then Some (with_pipe w (pipe_accepted transport)) else None
  | pipe_accepted transport, PipeRuns =>
    Some (with_pipe w
      (if g_ipcShouldStop w then pipe_exited
       else match transport with
            | Success _ => pipe_receiving
            | Failure err => if bool_decide (code err = ErrorCode.ServiceStopping) then pipe_exited else pipe_loop
            end))
  | pipe_receiving, Received (Failure _) => Some (with_pipe w pipe_loop)
  | pipe_receiving, Received (Success frame) => Some (with_pipe w (pipe_serving (request_prog w frame)))
  | pipe_serving p, PipeRuns =>
    match returned p with
    | Some _ => Some (with_pipe w pipe_loop)
    | None => '(p, w) ← engine_step w p; Some (with_pipe w (pipe_serving p))
    end
  | _, _ => None
  end.

(** A turn of the flusher, after its timer fired. *)
Definition background_turn : Program unit :=
  let! lifecycleNow := Threads.read lifecycle_ in
  if bool_decide (lifecycleNow = Ready) then let! _ := Threads.FlushAll hash in Ret tt else Ret tt.

Definition flusher_step (ev : Event) (w : Process) : option Process :=
  match p_flusher w, ev with
  | flusher_waiting, FlusherRuns =>
    s ← p_engine w;
    if backgroundFlushStopRequested_ s
    then Some (with_flusher (with_engine w (Threads.set_background s Finished true)) flusher_returned)
    else None
  | flusher_waiting, TimerFires =>
    s ← p_engine w;
    if backgroundFlushStopRequested_ s then None else Some (with_flusher w (flusher_working background_turn))
  | flusher_working p, FlusherRuns =>
    match returned p with
    | Some _ => Some (with_flusher w flusher_waiting)
    | None => '(p, w) ← engine_step w p; Some (with_flusher w (flusher_working p))
    end
  | _, _ => None
  end.

(** [joinable()] and [join()] of the pipe thread: no thread, or one that has
    returned. *)
Definition pipe_gone (t : PipeThread) : bool :=
  match t with pipe_none | pipe_exited => true | _ => false end.

Definition callback_step (ev : Event) (w : Process) : option Process :=
  match p_callback w, ev with
  | stop_flagged, CallbackRuns =>
    Some (mkProcess (p_recoveryManager w) (p_engine w) (g_ipcShouldStop w) true (g_ipcThread w) (p_flusher w) stop_joining)
  | stop_joining, CallbackRuns =>
    if pipe_gone (g_ipcThread w)
    then Some (with_callback w (match p_engine w with
                                | Some _ => stop_shutting (Threads.Shutdown hash)
                                | None => stop_marking
                                end))
    else None
  | stop_shutting p, CallbackRuns =>
    match returned p with
    | Some _ => Some (with_callback w stop_marking)
    | None => '(p, w) ← engine_step w p; Some (with_callback w (stop_shutting p))
    end
  | stop_marking, CallbackRuns =>
    match p_recoveryManager w with
    | Some rm => let '(r, rm) := MarkCleanShutdown stopTime rm in Some (with_callback (with_manager w rm) (callback_done r))
    | None => Some (with_callback w (callback_done (Success tt)))
    end
  | preshutdown_flushing p, CallbackRuns =>
    match returned p with
    | Some _ => Some (with_callback w (callback_done (Success tt)))
    | None => '(p, w) ← engine_step w p; Some (with_callback w (preshutdown_flushing p))
    end
  | _, _ => None
  end.

(** What any of them may do. *)
Definition process_step (w w' : Process) : Prop :=
  ∃ ev, pipe_step ev w = Some w' ∨ flusher_step ev w = Some w' ∨ callback_step ev w = Some w'.

(** ** The callbacks *)

(** [MarkRecoveryComplete] starts the flusher, the last part of
    [OnServiceStart] the pipe thread. *)
Definition launched (r : Result unit) (s : Service F) : Process :=
  match r, g_cacheEngine s with
  | Success _, Some e =>
    let sh := Threads.StartBackgroundFlushThreadIfConfigured (mkShared e NotStarted false) in
    mkProcess (g_recoveryManager s) (Some sh) false false
      (if pipe_created then pipe_loop else pipe_none)
      (if bool_decide (backgroundFlushThread_ sh = Running) then flusher_waiting else flusher_none) no_callback
  | _, e => mkProcess (g_recoveryManager s) ((λ e, mkShared e NotStarted false) <$> e) false false pipe_none flusher_none no_callback
  end.

Definition service_start (w : Process) : Result unit * Process :=
  let '(r, s) := OnServiceStart hash pending_order options startTime markerFile journalFile dataFile in (r, launched r s).

Definition callback_leave (w : Process) : option (Result unit * Process) :=
  match p_callback w with
  | callback_done r => Some (r, with_callback w no_callback)
  | _ => None
  end.

Definition service_stop : Callback Process := mkCallback
  (λ w, mkProcess (p_recoveryManager w) (p_engine w) true (shutdown_requested w) (g_ipcThread w) (p_flusher w) stop_flagged)
  callback_leave.

Definition service_preshutdown : Callback Process := mkCallback
  (λ w, with_callback w (match p_engine w with
                         | Some _ => preshutdown_flushing (Threads.FlushAll hash)
                         | None => callback_done (Success tt)
                         end))
  callback_leave.

(** The callbacks [wmain] installs. *)
Definition service_callbacks : ServiceCallbacks Process :=
  mkCallbacks (Some service_start) (Some service_stop) (Some service_preshutdown).

(** The exit code, given how the host ran. *)
Definition wmain (hostResult : Result (Host Process)) (Run : ServiceCallbacks Process → Host Process → Result unit) : Z :=
  match hostResult with
  | Failure _ => 1
  | Success host => if IsOk (Run service_callbacks host) then 0 else 1
  end.

(** A reachable state of the process, on any schedule of its threads and with
    any requests on the pipe. *)
Definition service_reaches registered lastError may_send : System Process → Prop :=
  rtc (sys_step service_callbacks registered lastError may_send process_step) (sys_start nothing_started).

(** ** What programs do to admission and to the lifecycle *)

Definition flight (s : Engine) : Z := inFlightWriteCount_ (engine_ s).
Definition phase (s : Engine) : EngineLifecycle := lifecycle_ (engine_ s).
Abbreviation flusher_of := backgroundFlushThread_.

(** No block of the program touches these, nor the flusher's thread. *)
Fixpoint neutral {A} (p : Program A) : Prop :=
  match p with
  | Ret _ => True
  | Atomic step k => ∀ s r s', step s = Some (r, s') →
      flight s' = flight s ∧ phase s' = phase s ∧ flusher_of s' = flusher_of s ∧ neutral (k r)
  end.

(** While the engine is ready the program, which has a write admitted or not,
    keeps it ready and accounts for its own write; at its end [fin]. *)
Fixpoint admits {A} (own fin : bool) (p : Program A) : Prop :=
  match p with
  | Ret _ => own = fin
  | Atomic step k => ∀ s r s',
      phase s = Ready → flight s = Z.b2z own → step s = Some (r, s') →
      phase s' = Ready ∧ flusher_of s' = flusher_of s ∧ ∃ own', flight s' = Z.b2z own' ∧ admits own' fin (k r)
  end.

(** From the lifecycle [l] on, the flusher joined or not, the program leaves the
    engine stopped and the flusher joined. *)
Fixpoint shuts {A} (l : EngineLifecycle) (joined : bool) (p : Program A) : Prop :=
  match p with
  | Ret _ => l = Stopped ∧ joined = true
  | Atomic step k => ∀ s r s',
      phase s = l → (joined = true → flusher_of s ≠ Running) → step s = Some (r, s') →
      flight s' = flight s ∧ (flusher_of s' = Running ↔ flusher_of s = Running) ∧
      ∃ joined', (joined' = true → flusher_of s' ≠ Running) ∧ shuts (phase s') joined' (k r)
  end.

Lemma neutral_bind {A C} (p : Program A) (f : A → Program C) :
  neutral p → (∀ a, neutral (f a)) → neutral (bind p f).
Proof.
  intros Hp Hf. induction p as [a|R step k IH]; cbn; [done|]. intros s r s' E.
  destruct (Hp s r s' E) as (? & ? & ? & ?). auto.
Qed.

Lemma admits_bind {A C} own mid fin (p : Program A) (f : A → Program C) :
  admits own mid p → (∀ a, admits mid fin (f a)) → admits own fin (bind p f).
Proof.
  intros Hp Hf. revert own Hp. induction p as [a|R step k IH]; intros own Hp; cbn; [by cbn in Hp; subst|].
  intros s r s' Hs Hn E. destruct (Hp s r s' Hs Hn E) as (? & ? & own' & ? & ?). eauto 6.
Qed.

Lemma neutral_admits {A} own (p : Program A) : neutral p → admits own own p.
Proof.
  induction p as [a|R step k IH]; cbn; [done|]. intros Hp s r s' Hs Hn E.
  destruct (Hp s r s' E) as (-> & -> & -> & Hk). split; [done|]. split; [done|]. exists own. split; [done|]. by apply IH.
Qed.

Lemma neutral_shuts {A C} l joined (p : Program A) (f : A → Program C) :
  neutral p → (∀ a, shuts l joined (f a)) → shuts l joined (bind p f).
Proof.
  intros Hp Hf. induction p as [a|R step k IH]; cbn; [done|]. intros s r s' Hs Hj E.
  destruct (Hp s r s' E) as (-> & -> & -> & Hk). split; [done|]. split; [done|]. exists joined. rewrite Hs. auto.
Qed.

(** A block that moves the lifecycle on. *)
Lemma block_shuts {R C} l l' joined (f : CacheEngine Store Journal → R * CacheEngine Store Journal) (k : R → Program C) :
  (∀ e, lifecycle_ e = l → lifecycle_ (snd (f e)) = l' ∧ inFlightWriteCount_ (snd (f e)) = inFlightWriteCount_ e ∧
        shuts l' joined (k (fst (f e)))) →
  shuts l joined (bind (Threads.act f) k).
Proof.
  intros Hf s r s' Hs Hj. specialize (Hf (engine_ s) Hs). destruct (f (engine_ s)) as [x e]. intros [= <- <-].
  destruct Hf as (<- & ? & ?). split; [done|]. split; [done|]. by exists joined.
Qed.

(** A block that leaves the control state alone. *)
Lemma neutral_act {R} (f : CacheEngine Store Journal → R * CacheEngine Store Journal) :
  (∀ e, control (snd (f e)) = control e) → neutral (Threads.act f).
Proof.
  intros Hf s r s'. cbn. specialize (Hf (engine_ s)). destruct (f (engine_ s)) as [x e]. intros [= <- <-].
  unfold control in Hf. injection Hf as _ ? ? _. by split_and!.
Qed.

Lemma neutral_modify f : (∀ e, control (f e) = control e) → neutral (Threads.modify f).
Proof. intros Hf. by apply neutral_act. Qed.

Lemma neutral_read {R} (f : CacheEngine Store Journal → R) : neutral (Threads.read f).
Proof. by apply neutral_act. Qed.

Lemma neutral_wait {R} ready (f : CacheEngine Store Journal → R * CacheEngine Store Journal) :
  (∀ e, control (snd (f e)) = control e) → neutral (Threads.wait_then ready f).
Proof.
  intros Hf s r s'. cbn. destruct (ready s); [|done]. exact (neutral_act f Hf s r s').
Qed.

(** *** The programs of the engine *)

Ltac neutral :=
  repeat first
    [ done
    | apply neutral_read
    | apply neutral_modify; done
    | match goal with |- neutral (bind _ _) => apply neutral_bind; [|intros ?] end
    | match goal with |- neutral (match ?x with _ => _ end) => destruct x end ].

Lemma append_neutral record : neutral (Threads.AppendJournalRecord record).
Proof.
  apply neutral_act. intros e. destruct (Engine.AppendJournalRecord e record) as [r e'] eqn:E.
  exact (AppendJournalRecord_control e record r e' E).
Qed.

Lemma FlushKey_neutral k ver check : neutral (Threads.FlushKey hash k ver check).
Proof.
  assert (∀ b, neutral (Threads.act (Threads.store_put (J := Journal) k b))) as Hput.
  { intros v. apply neutral_act. intros e. unfold Threads.store_put. by destruct (IBackingStore.Put _ _ _). }
  assert (∀ v err, neutral (Threads.flush_failed hash k v err)) as Hfail by (intros; unfold Threads.flush_failed; neutral).
  unfold Threads.FlushKey. apply neutral_bind.
  { apply neutral_act. intros e. unfold Threads.begin_flush. by destruct (flush_begin _ _ _ _) as [[?|?] ?]. }
  intros [r|[v ver']]; [done|]. apply neutral_bind; [apply append_neutral|]. intros [[]|err]; [|apply Hfail].
  apply neutral_bind; [apply Hput|]. intros [[]|err]; [|apply Hfail].
  apply neutral_bind; [apply append_neutral|]. intros [[]|err]; [|apply Hfail]. neutral.
Qed.

Lemma sum_neutral shards acc : neutral (Threads.sum_dirty (B := Store) (J := Journal) shards acc).
Proof.
  revert acc. induction shards as [|i shards IH]; intros acc; cbn [Threads.sum_dirty]; [done|].
  apply neutral_bind; [apply neutral_read|intros n; apply IH].
Qed.

Lemma compact_neutral : neutral (Threads.TryCompactJournalIfFullyClean (B := Store) (J := Journal)).
Proof.
  assert (∀ b, neutral (Threads.pause_admission (B := Store) (J := Journal) b)) as Hpause
    by (intros b s r s'; cbn; by intros [= <- <-]).
  unfold Threads.TryCompactJournalIfFullyClean. apply neutral_bind; [apply neutral_read|]. intros n.
  destruct (n =? 0); [done|]. apply neutral_bind; [apply Hpause|]. intros _.
  apply neutral_bind; [by apply neutral_wait|]. intros _. apply neutral_bind; [apply neutral_read|]. intros shards.
  apply neutral_bind; [apply sum_neutral|]. intros d. destruct (d =? 0); [|apply Hpause].
  apply neutral_bind; [|intros []; [done|apply Hpause]].
  intros s r s'. cbn. unfold Threads.compact_journal. destruct (RecordCount _ =? 0); by intros [= <- <-].
Qed.

Lemma FlushAll_neutral : neutral (Threads.FlushAll hash (B := Store) (J := Journal)).
Proof.
  assert (∀ keys last, neutral (Threads.flush_keys hash (B := Store) (J := Journal) keys last)) as Hkeys
    by (induction keys as [|k keys IH]; intros last; cbn [Threads.flush_keys]; [done|];
        apply neutral_bind; [apply FlushKey_neutral|intros r; apply IH]).
  assert (∀ shards last, neutral (Threads.flush_shards hash (B := Store) (J := Journal) shards last)) as Hshards
    by (induction shards as [|i shards IH]; intros last; cbn [Threads.flush_shards]; [done|];
        apply neutral_bind; [apply neutral_read|intros keys; apply neutral_bind; [apply Hkeys|intros l; apply IH]]).
  unfold Threads.FlushAll. apply neutral_bind; [apply neutral_read|]. intros [|]; [|done].
  apply neutral_bind; [apply neutral_read|]. intros shards. apply neutral_bind; [apply Hshards|].
  intros [err|]; [done|]. apply neutral_bind; [apply compact_neutral|done].
Qed.

Lemma background_turn_neutral : neutral background_turn.
Proof.
  unfold background_turn. apply neutral_bind; [apply neutral_read|]. intros l. case_bool_decide; [|done].
  apply neutral_bind; [apply FlushAll_neutral|done].
Qed.

Lemma Invalidate_admitted_neutral k force : neutral (Threads.Invalidate_admitted hash k force (B := Store) (J := Journal)).
Proof.
  unfold Threads.Invalidate_admitted. apply neutral_bind; [apply neutral_read|]. intros [ver|]; [|done].
  apply neutral_bind; [apply append_neutral|]. intros [[]|err]; [|done].
  apply neutral_bind.
  { apply neutral_act. intros e. unfold Threads.store_remove. by destruct (IBackingStore.Remove _ _). }
  intros [[]|err]; [|done]. neutral.
Qed.

(** A write is admitted, does its work, and is released. *)
Lemma admitted_write_admits (body : Program (Result unit)) :
  neutral body → admits false false (Threads.admitted_write body).
Proof.
  intros Hbody. cbn. intros s r s' Hs Hn. destruct (negb (compactionPaused_ (engine_ s))); [|done].
  unfold Engine.TryAdmitWrite. unfold phase in Hs. rewrite Hs. cbn. intros [= <- <-]. split; [done|]. split; [done|]. exists true.
  split; [unfold flight in *; cbn; by rewrite Hn|]. cbn [negb].
  apply (admits_bind true true); [by apply neutral_admits|]. intros x. cbn. clear. intros s r s' Hs Hn. intros [= <- <-].
  unfold flight, phase, Engine.ReleaseWriteAdmission in *. cbn. rewrite Hn. cbn. split; [done|]. split; [done|]. by exists false.
Qed.

Lemma request_admits w frame : admits false false (request_prog w frame).
Proof.
  unfold request_prog, request_ops. destruct (p_engine w); [|done]. destruct (PeekMessageType frame) as [type|]; [|done].
  destruct (type =? _).
  { cbn [script_prog Threads.op_prog]. apply neutral_admits. apply neutral_bind; [|done].
    apply neutral_bind; [apply FlushAll_neutral|done]. }
  destruct (type =? _); [|done]. destruct (DecodeInvalidateKeyRequest frame) as [request|]; [|done].
  cbn [script_prog Threads.op_prog]. apply (admits_bind false false); [|done]. apply (admits_bind false false); [|done].
  unfold Threads.InvalidateImpl. apply (admits_bind false false); [by apply neutral_admits, neutral_read|].
  intros [|]; [|done]. apply admitted_write_admits, Invalidate_admitted_neutral.
Qed.

(** The join of the flusher. *)
Lemma Stop_shuts {C} l (k : unit → Program C) :
  shuts l true (k tt) → shuts l false (bind Threads.StopBackgroundFlushThread k).
Proof.
  intros Hk s r s' Hs _ [= <- <-]. split; [done|]. split; [done|]. rewrite Hs.
  destruct (Threads.joinable s) eqn:Ej; cbn [negb bind].
  - exists false. split; [done|]. clear s Hs Ej. intros s r s' Hs _ [= <- <-]. split; [done|]. split; [done|].
    exists false. split; [done|]. change (phase _) with (phase s). rewrite Hs. clear s Hs.
    intros s r s' Hs _. case_bool_decide; [done|]. intros [= <- <-]. split; [done|]. split; [done|].
    exists true. split; [done|]. change (phase _) with (phase s). rewrite Hs. exact Hk.
  - exists true. split; [|exact Hk]. intros _ Hr. unfold Threads.joinable in Ej. by rewrite Hr in Ej.
Qed.

(** The stop of a ready engine. *)
Lemma Shutdown_shuts : shuts Ready false (Threads.Shutdown hash (B := Store) (J := Journal)).
Proof.
  unfold Threads.Shutdown. apply (block_shuts _ Stopping). intros e He. unfold Threads.begin_stop. rewrite He. cbn [fst snd].
  split_and!; [done..|]. apply neutral_shuts; [by apply neutral_wait|]. intros _. apply Stop_shuts.
  apply neutral_shuts; [apply FlushAll_neutral|]. intros _. apply (block_shuts _ Stopped). intros e1 He1. cbn [fst snd].
  split_and!; [done..|]. apply neutral_shuts; [apply neutral_read|]. intros shards.
  apply neutral_shuts; [apply sum_neutral|]. intros d. destruct (d =? 0); [|done].
  apply neutral_shuts; [by apply neutral_modify|done].
Qed.

(** ** Invariants of the process *)

Definition pipe_admits (own : bool) (t : PipeThread) : Prop :=
  match t with pipe_serving p => admits own false p | _ => own = false end.

Definition flusher_active (t : Flusher) : Prop :=
  match t with flusher_none | flusher_returned => False | _ => True end.

Definition flusher_ok (w : Process) (s : Engine) : Prop :=
  (flusher_active (p_flusher w) → flusher_of s = Running) ∧
  match p_flusher w with flusher_working p => neutral p | _ => True end.

(** The engine is ready, its recovery complete, and what is in flight is the
    write of the pipe thread. *)
Definition ready_process (w : Process) : Prop :=
  ∃ rm s own, p_recoveryManager w = Some rm ∧ p_engine w = Some s ∧ CurrentState rm = RecoveryState.RecoveryComplete ∧
    phase s = Ready ∧ flight s = Z.b2z own ∧ pipe_admits own (g_ipcThread w) ∧ flusher_ok w s.

(** The stop callback has joined the pipe thread. *)
Definition joined_process (P : RecoveryManager (SessionMarker F) → Engine → Prop) (w : Process) : Prop :=
  ∃ rm s, p_recoveryManager w = Some rm ∧ p_engine w = Some s ∧ P rm s ∧ flight s = 0 ∧
    pipe_gone (g_ipcThread w) = true ∧ flusher_ok w s.

Definition engine_stopped (s : Engine) : Prop := phase s = Stopped ∧ flusher_of s ≠ Running.

(** The engine on its way there. *)
Definition shutting (p : Program (Result unit)) (s : Engine) : Prop :=
  ∃ joined, (joined = true → flusher_of s ≠ Running) ∧ shuts (phase s) joined p.

Definition session_closed (rm : RecoveryManager (SessionMarker F)) : Prop :=
  ∃ rm0, rm = snd (MarkCleanShutdown stopTime rm0).

Definition stopping_process (w : Process) : Prop :=
  match p_callback w with
  | stop_flagged | stop_joining => ready_process w
  | stop_shutting p => joined_process (λ _ s, shutting p s) w
  | stop_marking => joined_process (λ _ s, engine_stopped s) w
  | callback_done _ => joined_process (λ rm s, engine_stopped s ∧ session_closed rm) w
  | no_callback | preshutdown_flushing _ => False
  end.

(** What an orderly stop leaves. *)
Definition stopped_process (w : Process) : Prop :=
  p_callback w = no_callback ∧ joined_process (λ rm s, engine_stopped s ∧ session_closed rm) w.

Lemma engine_step_inv {A} w (p p' : Program A) w' s :
  p_engine w = Some s → engine_step w p = Some (p', w') →
  ∃ s', thread_step p s = Some (p', s') ∧ w' = with_engine w s'.
Proof.
  unfold engine_step. intros ->. cbn. destruct (thread_step p s) as [[p1 s1]|]; [|done].
  intros [= <- <-]. by exists s1.
Qed.

Lemma neutral_step {A} (p p' : Program A) s s' :
  neutral p → thread_step p s = Some (p', s') →
  flight s' = flight s ∧ phase s' = phase s ∧ flusher_of s' = flusher_of s ∧ neutral p'.
Proof.
  destruct p as [a|R step k]; [done|]. cbn. intros Hp. destruct (step s) as [[r s1]|] eqn:E; [|done].
  intros [= <- <-]. exact (Hp s r s1 E).
Qed.

Lemma same_engine w s : p_engine w = Some s → with_engine w s = w.
Proof. destruct w; cbn. by intros ->. Qed.

(** A step of the flusher. *)
Lemma flusher_step_inv ev w w' s :
  p_engine w = Some s → flusher_ok w s → flusher_step ev w = Some w' →
  ∃ s' t, w' = with_flusher (with_engine w s') t ∧ flusher_ok w' s' ∧ flight s' = flight s ∧ phase s' = phase s ∧
    (flusher_of s' = flusher_of s ∨ flusher_of s' ≠ Running) ∧ flusher_active (p_flusher w).
Proof.
  intros Hs [Ha Hn]. unfold flusher_step. rewrite Hs. cbn.
  destruct (p_flusher w) as [| |p|] eqn:Ef; destruct ev; try done.
  - destruct (backgroundFlushStopRequested_ s); [done|]. intros [= <-]. exists s. eexists.
    rewrite (same_engine w s Hs). split_and!; try done; [|by left]. split; [exact Ha|apply background_turn_neutral].
  - destruct (backgroundFlushStopRequested_ s); [|done]. intros [= <-]. eexists _, _. split_and!; try done. by right.
  - destruct (returned p) eqn:Er.
    + intros [= <-]. exists s. eexists. rewrite (same_engine w s Hs). split_and!; try done. by left.
    + destruct (engine_step w p) as [[p' w1]|] eqn:E; [|done]. cbn. intros [= <-].
      destruct (engine_step_inv _ _ _ _ _ Hs E) as (s' & Et & ->).
      destruct (neutral_step _ _ _ _ Hn Et) as (Hfl & Hph & Hbg & Hn'). exists s'. eexists.
      split_and!; try done; [|by left]. split; [|done]. rewrite Hbg. exact Ha.
Qed.

Lemma flusher_ready ev w w' : ready_process w → flusher_step ev w = Some w' → ready_process w' ∧ p_callback w' = p_callback w.
Proof.
  intros (rm & s & own & Hr & Hs & Hc & Hp & Hf & Ht & Hok) E.
  destruct (flusher_step_inv _ _ _ _ Hs Hok E) as (s' & t & -> & Hok' & Ef & Ep & _). split; [|done].
  exists rm, s', own. split_and!; try done; congruence.
Qed.

(** A step of the pipe thread. *)
Lemma pipe_ready ev w w' : ready_process w → pipe_step ev w = Some w' → ready_process w' ∧ p_callback w' = p_callback w.
Proof.
  intros (rm & s & own & Hr & Hs & Hc & Hp & Hf & Ht & Hok).
  assert (∀ t own', pipe_admits own' t → own' = own → ready_process (with_pipe w t)) as Hkeep
    by (intros t own' Ha ->; exists rm, s, own; by split_and!).
  unfold pipe_step. destruct (g_ipcThread w) as [| | |transport| |p|] eqn:Et; destruct ev as [tr|[frame|]| | | |]; try done; cbn in Ht.
  - intros [= <-]. split; [|done]. apply (Hkeep _ own); [|done]. by destruct (g_ipcShouldStop w).
  - destruct (may_return w tr); [|done]. intros [= <-]. split; [|done]. by apply (Hkeep _ own).
  - intros [= <-]. split; [|done]. apply (Hkeep _ own); [|done].
    destruct (g_ipcShouldStop w); [done|]. destruct transport; [done|]. by case_bool_decide.
  - intros [= <-]. split; [|done]. apply (Hkeep _ own); [|done]. cbn. subst own. apply request_admits.
  - intros [= <-]. split; [|done]. by apply (Hkeep _ own).
  - destruct p as [outs|R step k]; cbn [returned].
    + intros [= <-]. split; [|done]. by apply (Hkeep _ own).
    + destruct (engine_step w _) as [[p' w1]|] eqn:E; [|done]. cbn. intros [= <-]. split; [|by destruct (engine_step_inv _ _ _ _ _ Hs E) as (? & _ & ->)].
      destruct (engine_step_inv _ _ _ _ _ Hs E) as (s' & Est & ->). cbn in Est.
      destruct (step s) as [[r s1]|] eqn:Es; [|done]. injection Est as <- <-.
      destruct (Ht s r s1 Hp Hf Es) as (Hp1 & Hb & own' & Hf1 & Hk). exists rm, s1, own'. split_and!; try done.
      destruct Hok as [Ha Hn]. split; [|done]. cbn. by rewrite Hb.
Qed.

Lemma pipe_gone_stuck ev w : pipe_gone (g_ipcThread w) = true → pipe_step ev w = None.
Proof. unfold pipe_step. by destruct (g_ipcThread w), ev. Qed.

(** While nothing ends the service. *)
Lemma ready_step w w' :
  process_step w w' → ready_process w ∧ p_callback w = no_callback → ready_process w' ∧ p_callback w' = no_callback.
Proof.
  intros (ev & [E|[E|E]]) [HR Hc].
  - destruct (pipe_ready _ _ _ HR E) as [? ->]. done.
  - destruct (flusher_ready _ _ _ HR E) as [? ->]. done.
  - unfold callback_step in E. rewrite Hc in E. done.
Qed.

(** A step of the flusher beside the stop. *)
Lemma joined_flusher (P P' : RecoveryManager (SessionMarker F) → Engine → Prop) ev w w' :
  joined_process P w → flusher_step ev w = Some w' →
  (∀ rm s s', P rm s → phase s' = phase s → flusher_of s' = flusher_of s ∨ flusher_of s' ≠ Running → P' rm s') →
  joined_process P' w' ∧ p_callback w' = p_callback w.
Proof.
  intros (rm & s & Hr & Hs & HP & Hf & Hg & Hok) E Hkeep.
  destruct (flusher_step_inv _ _ _ _ Hs Hok E) as (s' & t & -> & Hok' & Ef & Ep & Hb & _). split; [|done].
  exists rm, s'. split_and!; try done; [by eapply Hkeep|congruence].
Qed.

Lemma engine_stopped_kept s s' :
  engine_stopped s → phase s' = phase s → flusher_of s' = flusher_of s ∨ flusher_of s' ≠ Running → engine_stopped s'.
Proof. intros [Hp Hb] Ep [Eb|Eb]; split; congruence. Qed.

Lemma shutting_kept p s s' :
  shutting p s → phase s' = phase s → flusher_of s' = flusher_of s ∨ flusher_of s' ≠ Running → shutting p s'.
Proof. intros (j & Hj & Hs) Ep [Eb|Eb]; exists j; rewrite Ep; split; try done. by rewrite Eb. Qed.

Lemma stopping_flusher ev w w' : stopping_process w → flusher_step ev w = Some w' → stopping_process w'.
Proof.
  intros HR E. unfold stopping_process in HR. destruct (p_callback w) as [| | |p| |p|r] eqn:Ec; try done.
  1-2: destruct (flusher_ready _ _ _ HR E) as [HR' Ec']; unfold stopping_process; by rewrite Ec', Ec.
  - destruct (joined_flusher _ (λ _, shutting p) _ _ _ HR E (λ _, shutting_kept p)) as [HR' Ec'].
    unfold stopping_process. by rewrite Ec', Ec.
  - destruct (joined_flusher _ (λ _, engine_stopped) _ _ _ HR E (λ _, engine_stopped_kept)) as [HR' Ec'].
    unfold stopping_process. by rewrite Ec', Ec.
  - destruct (joined_flusher _ (λ rm s, engine_stopped s ∧ session_closed rm) _ _ _ HR E) as [HR' Ec'].
    { intros rm s s' [Hs ?] Ep Hb. split; [by eapply engine_stopped_kept|done]. }
    unfold stopping_process. by rewrite Ec', Ec.
Qed.

(** A step of the stop callback. *)
Lemma stopping_callback ev w w' : stopping_process w → callback_step ev w = Some w' → stopping_process w'.
Proof.
  unfold stopping_process at 1, callback_step. intros HR.
  destruct (p_callback w) as [| | |p| |p|r] eqn:Ec; destruct ev; try done.
  - intros [= <-]. exact HR.
  - destruct (pipe_gone (g_ipcThread w)) eqn:Eg; [|done]. intros [= <-].
    destruct HR as (rm & s & own & Hr & Hs & Hc & Hp & Hf & Ht & Hok). rewrite Hs.
    assert (own = false) as -> by (by destruct (g_ipcThread w)).
    exists rm, s. split_and!; try done. exists false. split; [done|]. rewrite Hp. apply Shutdown_shuts.
  - destruct HR as (rm & s & Hr & Hs & (joined & Hj & Hsh) & Hf & Hg & Hok). destruct p as [a|R step k]; cbn [returned].
    + intros [= <-]. destruct Hsh as [Hp ->]. exists rm, s. split_and!; try done. split; [done|]. by apply Hj.
    + destruct (engine_step w _) as [[p' w1]|] eqn:E; [|done]. cbn. intros [= <-].
      destruct (engine_step_inv _ _ _ _ _ Hs E) as (s' & Est & ->). cbn in Est.
      destruct (step s) as [[x s1]|] eqn:Es; [|done]. injection Est as <- <-.
      destruct (Hsh s x s1 eq_refl Hj Es) as (Hf1 & Hb & j1 & Hj1 & Hk). exists rm, s1. split_and!; try done; [by exists j1|congruence|].
      destruct Hok as [Ha Hn]. split; [|done]. cbn. intros Hact. by apply Hb, Ha.
  - destruct HR as (rm & s & Hr & Hs & Hst & Hf & Hg & Hok). rewrite Hr.
    destruct (MarkCleanShutdown stopTime rm) as [r rm1] eqn:Em. intros [= <-]. exists rm1, s. split_and!; try done.
    exists rm. by rewrite Em.
Qed.

Lemma stopping_step w w' : process_step w w' → stopping_process w → stopping_process w'.
Proof.
  intros (ev & [E|[E|E]]) HR; [|by eapply stopping_flusher|by eapply stopping_callback].
  assert (stopping_process w) as HR0 by done. unfold stopping_process in HR0.
  assert (∀ P, joined_process P w → stopping_process w') as Hgone.
  { intros P (? & ? & _ & _ & _ & _ & Hg & _). by rewrite (pipe_gone_stuck ev w Hg) in E. }
  destruct (p_callback w) as [| | |p| |p|r] eqn:Ec; try done; [| |by eapply Hgone..].
  all: destruct (pipe_ready _ _ _ HR0 E) as [HR' Ec']; unfold stopping_process; by rewrite Ec', Ec.
Qed.

Lemma stop_enters w : ready_process w ∧ p_callback w = no_callback → stopping_process (enter service_stop w).
Proof. intros [(rm & s & own & HR) _]. by exists rm, s, own. Qed.

Lemma stop_leaves w r w' : stopping_process w → leave service_stop w = Some (r, w') → stopped_process w'.
Proof.
  cbn. unfold callback_leave, stopping_process. destruct (p_callback w) as [| | |p| |p|r']; try done.
  intros HR [= <- <-]. by split.
Qed.

(** Nothing is left to run. *)
Lemma stopped_rests w w' : stopped_process w → ¬ process_step w w'.
Proof.
  intros [Hc (rm & s & _ & Hs & [[_ Hb] _] & _ & Hg & [Ha Hn])] (ev & [E|[E|E]]).
  - by rewrite (pipe_gone_stuck ev w Hg) in E.
  - destruct (flusher_step_inv ev w w' s Hs (conj Ha Hn) E) as (_ & _ & _ & _ & _ & _ & _ & Hact). by apply Hb, Ha.
  - unfold callback_step in E. by rewrite Hc in E.
Qed.

Lemma start_ready w w' : service_start w = (Success tt, w') → ready_process w' ∧ p_callback w' = no_callback.
Proof.
  unfold service_start. destruct (OnServiceStart _ _ _ _ _ _ _) as [r s] eqn:E. intros [= -> <-].
  destruct (OnServiceStart_outcome _ _ _ _ _ _ _ _ _ E) as (rm & e & -> & Hl & Hf & Hc). unfold launched. cbn [g_cacheEngine g_recoveryManager].
  set (sh := Threads.StartBackgroundFlushThreadIfConfigured _).
  assert (engine_ sh = e) as He by (unfold sh, Threads.StartBackgroundFlushThreadIfConfigured; cbn; by destruct (flushPolicy _)).
  split; [|done]. exists rm, sh, false. unfold phase, flight. rewrite He. split_and!; try done; [by destruct pipe_created|].
  unfold flusher_ok. cbn [p_flusher]. by case_bool_decide.
Qed.

(** ** What the control manager is told *)

Lemma preshutting_not_stop p : preshutting p ∨ ServiceHost.harmless p →
  (∀ c, ends_service c = true → p ≠ entered c) ∧ (∀ c, c ≠ SERVICE_CONTROL_PRESHUTDOWN → p ≠ in_callback c).
Proof. intros [[->| ->]|[->|(c' & -> & Hc')]]; split; intros c Hc E; try done; injection E as <-; congruence. Qed.

(** C19: What [SERVICE_RUNNING] means.  On any schedule of the threads of the
    process, block by block - the two of the host, the pipe thread, which may be
    in the middle of a request that came before the report, and the background
    flusher - whenever the last status the service has reported is
    [SERVICE_RUNNING], its recovery is complete, its engine is ready, and the
    only write that can be in flight is the invalidation the pipe thread is
    serving at that moment. *)
Theorem running_service_serves registered lastError (may_send : SERVICE_STATUS → Control → bool) s :
  (∀ st c, may_send st c = true → ends_service c = true → acceptsControls st = true) →
  service_reaches registered lastError may_send s →
  last_state s = Some SERVICE_RUNNING →
  ∃ rm sh, p_recoveryManager (process (host s)) = Some rm ∧ p_engine (process (host s)) = Some sh ∧
    CurrentState rm = RecoveryState.RecoveryComplete ∧ lifecycle_ (engine_ sh) = Ready ∧
    (inFlightWriteCount_ (engine_ sh) = 0 ∨
     inFlightWriteCount_ (engine_ sh) = 1 ∧
     ∃ request, g_ipcThread (process (host s)) = pipe_serving request ∧ returned request = None).
Proof.
  intros Hacc Hr Hl.
  destruct (running_started service_callbacks registered lastError may_send process_step service_start
              (λ w, ready_process w ∧ p_callback w = no_callback) eq_refl start_ready ready_step Hacc
              nothing_started s Hr Hl) as [(rm & sh & own & Hrm & Hs & Hc & Hp & Hf & Ht & _) _].
  exists rm, sh. split_and!; try done. destruct own; [right|by left]. split; [exact Hf|].
  destruct (g_ipcThread (process (host s))) as [| | |t| |p|]; try done. exists p. split; [done|].
  by destruct p.
Qed.

(** C22: What [SERVICE_STOPPED] means.  A status [SERVICE_STOPPED] without an error
    code is reported after the stop callback has joined the pipe thread, shut
    the engine down, joined the flusher and closed the session, and then nothing
    of the process changes any more; once the callback has returned the service
    can report it, and [Run] then succeeds. *)
Theorem stopped_service_was_stopped registered lastError (may_send : SERVICE_STATUS → Control → bool) s :
  (∀ st c, may_send st c = true → ends_service c = true → dwCurrentState st = SERVICE_RUNNING) →
  service_reaches registered lastError may_send s →
  (∀ st, head (reported (host s)) = Some st → dwCurrentState st = SERVICE_STOPPED → dwWin32ExitCode st = NO_ERROR →
     (∃ rm sh, p_recoveryManager (process (host s)) = Some (snd (MarkCleanShutdown stopTime rm)) ∧
        p_engine (process (host s)) = Some sh ∧ lifecycle_ (engine_ sh) = Stopped ∧
        inFlightWriteCount_ (engine_ sh) = 0 ∧ backgroundFlushThread_ sh ≠ Running ∧
        pipe_gone (g_ipcThread (process (host s))) = true) ∧
     ∀ s', rtc (sys_step service_callbacks registered lastError may_send process_step) s s' → host s' = host s) ∧
  (∀ c r w', c ≠ SERVICE_CONTROL_PRESHUTDOWN → handler s = in_callback c →
     callback_leave (process (host s)) = Some (r, w') →
     ∃ s' st, rtc (sys_step service_callbacks registered lastError may_send process_step) s s' ∧
       main s' = main_returned ∧ head (reported (host s')) = Some st ∧
       dwCurrentState st = SERVICE_STOPPED ∧ dwWin32ExitCode st = NO_ERROR ∧ Run_result true 0 (host s') = Success tt).
Proof.
  intros Hsend Hr. split.
  - intros st Hst H1 H2.
    destruct (stopped_done service_callbacks registered lastError may_send process_step service_start service_stop
             (λ w, ready_process w ∧ p_callback w = no_callback) stopping_process stopped_process eq_refl eq_refl
             start_ready ready_step stop_enters stopping_step stop_leaves stopped_rests Hsend nothing_started s st Hr Hst H1 H2)
      as [[_ (rm & sh & Hrm & Hs & [[Hp Hb] [rm0 ->]] & Hf & Hg & _)] Hrest].
    split; [|exact Hrest]. by exists rm0, sh.
  - intros c r w' Hpre Hh Hlv.
    destruct (stop_completes service_callbacks registered lastError may_send process_step service_start service_stop
             (λ w, ready_process w ∧ p_callback w = no_callback) stopping_process stopped_process eq_refl eq_refl
             start_ready ready_step stop_enters stopping_step stop_leaves stopped_rests Hsend nothing_started s c r w' Hr Hpre Hh Hlv)
      as (s' & st & Hs' & Hm & _ & Hst & H1 & H2 & _ & HR).
    by exists s', st.
Qed.

(** C20: A pre-shutdown does not stop the service.  Once it has been reported the
    service stays [SERVICE_STOP_PENDING] whatever happens: no control that
    would stop it is sent to a pending service, so that the stop callback,
    which shuts the engine down and closes the session, never runs. *)
Theorem preshutdown_never_stops registered lastError (may_send : SERVICE_STATUS → Control → bool) s s' :
  (∀ st c, may_send st c = true → ends_service c = true → dwCurrentState st = SERVICE_RUNNING) →
  service_reaches registered lastError may_send s →
  handler s = reported_pending SERVICE_CONTROL_PRESHUTDOWN →
  rtc (sys_step service_callbacks registered lastError may_send process_step) s s' →
  main s' = main_waiting ∧ last_state s' = Some SERVICE_STOP_PENDING ∧
  (∀ c, ends_service c = true → handler s' ≠ entered c) ∧
  (∀ c, c ≠ SERVICE_CONTROL_PRESHUTDOWN → handler s' ≠ in_callback c).
Proof.
  intros Hsend Hr Hh Hs'.
  destruct (preshutdown_pending service_callbacks registered lastError may_send process_step service_start service_stop
             (λ w, ready_process w ∧ p_callback w = no_callback) stopping_process stopped_process eq_refl eq_refl
             start_ready ready_step stop_enters stopping_step stop_leaves stopped_rests Hsend nothing_started s Hr Hh s' Hs')
    as (Hm & Hl & _ & Hp).
  split; [done|]. split; [done|]. by apply preshutting_not_stop.
Qed.
End process.
