(* ===== verification/Examples.v ===== *)
(** * Examples: the library at work on concrete files

    A device without errors, small files, a hash and an order of the pending
    entries chosen for the occasion; each property with hypotheses applied to
    a concrete input on which they hold. *)
From S2P Require Import Prelude Common Wire RecordCodec Scan Storage Journal Marker Recovery.
From S2P Require Import Store Shard Engine EngineFacts Durability Client Lifecycle Service.
From Stdlib Require Import Strings.Byte.
Import EntryDirtyState EngineLifecycle.
Open Scope Z_scope.

(** ** Files *)

Lemma synced_image fp d : unsynced fp = [] → FILE_crash fp d → d = stable fp.
Proof. intros Hu (dn & rest & E & H). rewrite Hu in E. destruct dn; [|done]. cbn in E. subst rest.
  by destruct H as [->|(? & ? & ? & ? & _)]. Qed.

Lemma FILE_of_reliable c : reliable (FILE_of c).
Proof. done. Qed.

Definition b1 : bytes := [x01].
Definition b2 : bytes := [x02; x03].

(** ** The CRC and the record codec *)

Definition record1 : CacheJournalRecord := upsert "k" b1 1.

Lemma record1_ok : record_ok record1.
Proof. by constructor. Qed.

Lemma Decode_Encode_witness : Decode (Encode record1 ++ [x05]) = Success record1.
Proof. exact (Decode_Encode record1 [x05] record1_ok). Defined.

Lemma Decode_sound_witness : record_ok record1 ∧ ∃ trailing, Encode record1 = Encode record1 ++ trailing.
Proof. exact (Decode_sound (Encode record1) record1 ltac:(vm_compute; reflexivity)). Defined.

(** A value one byte longer than the decoder accepts, without writing it out. *)
Definition record_large : CacheJournalRecord :=
  upsert "k" (repeat x00 (S (Z.to_nat kMaxReasonableLength))) 1.

Lemma record_large_size : zlen (rec_value record_large) = kMaxReasonableLength + 1.
Proof. unfold zlen, record_large. cbn [rec_value upsert]. rewrite repeat_length. unfold kMaxReasonableLength. lia. Qed.

Lemma Decode_refuses_large_value_witness :
  ∃ e, Decode (Encode record_large) = Failure e ∧ code e = ErrorCode.CorruptData.
Proof.
  refine (Decode_refuses_large_value record_large eq_refl _ _ _); [done|done|].
  rewrite record_large_size. done.
Defined.

(** ** The journal *)

Definition journal0 : WriteAheadJournal FILE := mkJournal (FILE_of []) 0 0.

Lemma journal0_clean : WAL_clean journal0.
Proof. constructor; [apply clean_nil|intros d Hd; by apply FILE_of_synced in Hd|done]. Qed.

Definition journal1 : WriteAheadJournal FILE := snd (WriteAheadJournal_Append journal0 b1).

Lemma Append_durable_witness :
  0 = nextSequenceNumber_ journal0 ∧ WAL_clean journal1 ∧
  WAL_records journal1 = WAL_records journal0 ++ [mkJournalRecord 0 b1] ∧
  nextSequenceNumber_ journal1 = wrap64 (0 + 1) ∧
  ∀ d, crash_image (file_ journal1) d → frames_of d = WAL_records journal0 ++ [mkJournalRecord 0 b1].
Proof. exact (Append_durable journal0 b1 0 journal1 journal0_clean ltac:(done) ltac:(vm_compute; reflexivity)). Defined.

(** The cut falls after the write, before the flush; and after the flush. *)
Lemma Append_crash_atomic_witness :
  (frames_of (take 5 (frame 0 b1)) = WAL_records journal0 ∨
   frames_of (take 5 (frame 0 b1)) = WAL_records journal0 ++ [mkJournalRecord 0 b1]) ∧
  (∀ d, crash_image (file_ journal1) d → frames_of d = WAL_records journal0 ++ [mkJournalRecord 0 b1]).
Proof.
  destruct (Append_crash_atomic journal0 b1 (Success 0) journal1 journal0_clean ltac:(done) ltac:(vm_compute; reflexivity))
    as (Hcut & _ & Hend).
  split; [|by intros d; apply (Hend 0)].
  apply (Hcut (mkFILE [] [OpWrite 0 (frame 0 b1)] 21 false [])).
  - assert (Append_files journal0 b1 =
      [FILE_of []; mkFILE [] [] 0 false []; mkFILE [] [OpWrite 0 (frame 0 b1)] 21 false [];
       snd (FlushDurable (mkFILE [] [OpWrite 0 (frame 0 b1)] 21 false []))]) as -> by (vm_compute; reflexivity).
    right. right. left.
  - exists [], [OpWrite 0 (frame 0 b1)]. split; [done|]. right.
    exists (OpWrite 0 (frame 0 b1)), (OpWrite 0 (take 5 (frame 0 b1))), [].
    split; [done|]. split; [constructor|]. vm_compute. reflexivity.
Defined.

(** A callback that collects the payloads. *)
Definition collect : ReplayCallback (list bytes) := λ s r, (Success ReplayAction.Continue, s ++ [payload r]).

Lemma replay_loop_terminates_witness :
  ∃ l rs, replay_loop collect (replay_fuel (FILE_of (frame 0 b1))) [] (FILE_of (frame 0 b1)) None = Some l ∧
    rs `prefix_of` frames_of (frame 0 b1) ∧
    replay_records collect [] None rs = (le_result _ l, le_state _ l, le_highest _ l).
Proof. exact (replay_loop_terminates collect [] (FILE_of (frame 0 b1)) None eq_refl). Defined.

Definition journal2 : WriteAheadJournal FILE := mkJournal (FILE_of (frame 0 b1 ++ frame 1 b2)) 0 0.

Lemma Replay_delivers_records_witness :
  let '(r, s, j) := WriteAheadJournal_Replay collect [] journal2 in
  file_content (file_ j) = file_content (file_ journal2) ∧
  (∀ d, crash_image (file_ j) d ↔ crash_image (file_ journal2) d) ∧
  ∃ hi, replay_records collect [] None (WAL_records journal2) = (r, s, hi) ∧
        nextSequenceNumber_ j = next_after journal2 r hi.
Proof.
  destruct (WriteAheadJournal_Replay collect [] journal2) as [[r s] j] eqn:E.
  exact (Replay_delivers_records collect [] journal2 r s j (FILE_of_reliable _) E).
Defined.

Example Replay_collects : fst (WriteAheadJournal_Replay collect [] journal2) = (Success tt, [b1; b2]).
Proof. vm_compute. reflexivity. Qed.

Lemma Truncate_durable_witness :
  let j := snd (WriteAheadJournal_Truncate journal2) in
  WAL_records j = [] ∧ WAL_clean j ∧ recordCount_ j = 0 ∧ ∀ d, crash_image (file_ j) d → d = [].
Proof.
  refine (Truncate_durable journal2 (Success tt) (snd (WriteAheadJournal_Truncate journal2)) _).
  vm_compute. reflexivity.
Defined.

Definition frame1 : JournalRecord := mkJournalRecord 0 b1.

Lemma frame1_ok : frame_ok frame1.
Proof. by constructor. Qed.

(** Two bytes of a torn frame, then an acknowledged append. *)
Definition journal_torn : WriteAheadJournal FILE := mkJournal (FILE_of (take 2 (Journal.rec_frame frame1))) 0 0.

Lemma Append_after_torn_tail_lost_witness :
  fst (WriteAheadJournal_Append journal_torn b2) = Success 0 ∧
  let j := snd (WriteAheadJournal_Append journal_torn b2) in
  WAL_records j = [] ∧ ∀ d, crash_image (file_ j) d → frames_of d = [].
Proof.
  split; [vm_compute; reflexivity|].
  refine (Append_after_torn_tail_lost journal_torn [] frame1 2 b2 0
            (snd (WriteAheadJournal_Append journal_torn b2)) (List.Forall_nil _) ltac:(lia) _ _);
    vm_compute; reflexivity.
Defined.

Lemma scan_stops_at_corrupt_byte_witness :
  frames_of (frames [frame1] ++ <[16%nat := x07]> (Journal.rec_frame frame1) ++ frames [frame1]) = [frame1].
Proof.
  refine (scan_stops_at_corrupt_byte [frame1] frame1 16 x01 x07 (frames [frame1]) _ frame1_ok _ _ _).
  - constructor; [apply frame1_ok|constructor].
  - vm_compute. reflexivity.
  - done.
  - lia.
Defined.

(** ** The session marker *)

Definition marker_open : SessionMarker FILE := mkMarker (FILE_of (RawRecord_bytes (sealed 1 5 0))) 1.

Definition marker_new : SessionMarker FILE := mkMarker (FILE_of []) 0.
Definition marker_started : SessionMarker FILE := snd (SessionMarker_OnSessionStart 7 marker_new).
Definition marker_stopped : SessionMarker FILE := snd (SessionMarker_OnCleanShutdown 9 marker_started).

Lemma marker_write_read_back_witness :
  (∀ d, crash_image (marker_file marker_started) d → marker_state d = Success (mkSessionMarkerData 1 7 false)) ∧
  (∀ d, crash_image (marker_file marker_stopped) d → marker_state d = Success (mkSessionMarkerData 1 9 true)).
Proof.
  refine (marker_write_read_back marker_new 7 marker_started 9 marker_stopped _ _); vm_compute; reflexivity.
Defined.

(** The whole record is on the medium. *)
Lemma OnCleanShutdown_torn_witness :
  let d := RawRecord_bytes (sealed 1 9 1) in d = d ++ [].
Proof.
  refine (OnCleanShutdown_torn marker_open 9 5 []
    (snd (WriteRecord (marker_file marker_open) (sealed 1 9 1)))
    (RawRecord_bytes (sealed 1 9 1)) ltac:(done) _ _ _ _).
  - intros d Hd. by apply FILE_of_synced in Hd.
  - rewrite OnCleanShutdown_files_write_through, WriteRecord_write_through. apply write_through_files_last.
  - exists [], []. split; [done|]. left. vm_compute. reflexivity.
  - eexists. split; vm_compute; reflexivity.
Defined.

(** A start on a closed marker, cut before anything reached the medium. *)
Definition marker_closed : SessionMarker FILE := mkMarker (FILE_of (RawRecord_bytes (sealed 1 9 1))) 1.

Lemma OnSessionStart_torn_witness :
  let c := RawRecord_bytes (sealed 1 9 1) in
  c = c ∨ (c ≠ c ∧ drop 24 c = drop 24 c ∧ Crc32.Compute (take 25 c) = crc32 (RawRecord_of (take 29 c))).
Proof.
  refine (OnSessionStart_torn marker_closed 11 (RawRecord_bytes (sealed 1 9 1)) (marker_file marker_closed) _ _ _ _ _).
  - intros d Hd. by apply FILE_of_synced in Hd.
  - rewrite OnSessionStart_files_write_through. unfold write_through_files. destruct (Seek _ _ _) as [sr f1]. left.
  - apply FILE_crash_self.
  - eexists. split; vm_compute; reflexivity.
Defined.

(** ** The backing store *)

Definition store0 : FileBackingStore.FileBackingStore FILE := FileBackingStore.mkStore (FILE_of []) ∅ 0 1.

Lemma store0_clean : fbs_clean store0.
Proof.
  constructor.
  - constructor; [done|constructor|done|done|done|]. intros pre r post E. by destruct pre.
  - intros d Hd. by apply FILE_of_synced in Hd.
Qed.

Lemma store0_ok : fbs_ok store0.
Proof. destruct store0_clean. by eexists _, _. Qed.

Definition store1 := snd (FileBackingStore.Put store0 "k" b1).
Definition data1 : bytes := stable (FileBackingStore.file_ store1).

Lemma Put_durable_witness :
  fbs_map store1 = <["k" := b1]> (fbs_map store0) ∧
  fst (FileBackingStore.Initialize (FileBackingStore.mkStore (FILE_of data1) ∅ 0 0)) = Success tt ∧
  fbs_map (snd (FileBackingStore.Initialize (FileBackingStore.mkStore (FILE_of data1) ∅ 0 0))) =
    <["k" := b1]> (fbs_map store0).
Proof.
  refine (Put_durable store0 "k" b1 store1 (FILE_of data1) _ _ store0_clean _ _ (FILE_of_reliable _) _ _ _).
  - done.
  - vm_compute. reflexivity.
  - exists [], []. split; [vm_compute; reflexivity|]. left. vm_compute. reflexivity.
  - vm_compute. reflexivity.
  - apply surjective_pairing.
Defined.

(** The cut falls before anything is written. *)
Lemma AppendRecord_crash_atomic_witness :
  content_records [] = store_records store0 ∨
  content_records [] = store_records store0 ++ [new_record store0 "k" b1 false].
Proof.
  refine (AppendRecord_crash_atomic store0 "k" b1 false (FILE_of []) [] store0_clean _ _ _ _).
  - done.
  - done.
  - rewrite AppendRecord_files_write_through. unfold write_through_files. destruct (Seek _ _ _) as [sr f1]. left.
  - apply FILE_crash_self.
Defined.

Lemma Get_is_lookup_witness :
  let '(r, s) := FileBackingStore.Get store0 "k" in
  fbs_ok s ∧ fbs_map s = fbs_map store0 ∧
  (fbs_map store0 !! "k"%string = None → r = FileBackingStore.not_found "k") ∧
  (∀ v, r = Success v → fbs_map store0 !! "k"%string = Some v) ∧
  (reliable (FileBackingStore.file_ store0) → ∀ v, fbs_map store0 !! "k"%string = Some v → r = Success v).
Proof.
  destruct (FileBackingStore.Get store0 "k") as [r s] eqn:E. exact (Get_is_lookup store0 "k" r s store0_ok E).
Defined.

Example Get_returns : fst (FileBackingStore.Get store1 "k") = Success b1.
Proof. vm_compute. reflexivity. Qed.

Lemma Initialize_rebuilds_witness :
  let '(r, s) := FileBackingStore.Initialize (FileBackingStore.mkStore (FILE_of data1) ∅ 0 0) in
  r = Success tt ∧ fbs_map s = map_of (content_records data1) ∧
  file_content (FileBackingStore.file_ s) = records (content_records data1) ∧ fbs_clean s.
Proof.
  destruct (FileBackingStore.Initialize _) as [r s] eqn:E.
  assert (zlen (file_content (FILE_of data1)) < 2 ^ 63) as Hlt by (vm_compute; reflexivity).
  destruct (Initialize_rebuilds (FILE_of data1) r s Hlt E) as (_ & _ & _ & HR).
  destruct (HR (FILE_of_reliable data1)) as (Hr & Hm & Hc & Hcl).
  split; [exact Hr|]. split; [exact Hm|]. split; [exact Hc|]. exact (Hcl (FILE_of_synced data1)).
Defined.

Lemma Initialize_read_fault_destroys_witness :
  let '(r, s) := FileBackingStore.Initialize
    (FileBackingStore.mkStore (mkFILE data1 [] 0 false [None; None; Some 0%nat]) ∅ 0 0) in
  r = Success tt ∧ stable (FileBackingStore.file_ s) = [] ∧ fbs_map s = ∅.
Proof. exact (Initialize_read_fault_destroys data1 ltac:(vm_compute; discriminate)). Defined.

(** ** A shard *)

Definition shard1 : Shard := fst (InsertOrUpdateLocked 1000 10 Shard_empty Counters_zero "k" b1 1 Dirty true).
Definition shard2 : Shard := fst (InsertOrUpdateLocked 1000 10 shard1 Counters_zero "l" b2 0 Clean true).

Lemma shard2_reachable : rtc (shard_step 1000 10) Shard_empty shard2.
Proof.
  eapply rtc_l; [apply (step_insert 1000 10 Shard_empty Counters_zero "k" b1 1 Dirty true)|].
  eapply rtc_l; [apply (step_insert 1000 10 shard1 Counters_zero "l" b2 0 Clean true)|]. reflexivity.
Qed.

Lemma shard2_ok : shard_ok shard2.
Proof.
  eapply shard_step_ok; [|apply (step_insert 1000 10 shard1 Counters_zero "l" b2 0 Clean true)].
  eapply shard_step_ok; [apply Shard_empty_ok|apply (step_insert 1000 10 Shard_empty Counters_zero "k" b1 1 Dirty true)].
Qed.

Lemma shard_reachable_ok_witness :
  shard_ok shard2 ∧ index_size shard2 = zlen (lru shard2) ∧
  ∀ k it, index shard2 !! k = Some it → ∃ e, deref it (lru shard2) = Some e ∧ key e = k.
Proof. exact (shard_reachable_ok 1000 10 shard2 shard2_reachable). Defined.

(** Over a limit of one entry: the clean one goes, the dirty one stays. *)
Lemma EvictCleanEntriesLocked_lru_witness :
  let '(s, n) := EvictCleanEntriesLocked 1000 1 shard2 Counters_zero in
  ∃ m, lru s = evict_lru m (lru shard2) ∧
    (∀ i, (i < m)%nat → fits 1000 1 (evict_lru i (lru shard2)) = false) ∧
    (fits 1000 1 (lru s) = true ∨ Forall (λ x, is_clean (snd x) = false) (lru s)) ∧
    dirty_entries (map snd (lru s)) = dirty_entries (map snd (lru shard2)) ∧
    n = Nat.iter m (bump Eviction) Counters_zero ∧ shard_ok s.
Proof.
  destruct (EvictCleanEntriesLocked 1000 1 shard2 Counters_zero) as [s n] eqn:E.
  refine (EvictCleanEntriesLocked_lru 1000 1 shard2 Counters_zero s n shard2_ok _ E). vm_compute. reflexivity.
Defined.

Example Evict_keeps_dirty :
  map (λ x, key (snd x)) (lru (fst (EvictCleanEntriesLocked 1000 1 shard2 Counters_zero))) = ["k"%string].
Proof. vm_compute. reflexivity. Qed.

Lemma InsertOrUpdateLocked_monotone_witness :
  let s' := fst (InsertOrUpdateLocked 1000 10 shard2 Counters_zero "k" b2 2 Dirty true) in
  shard_ok s' ∧ mutationFence s' = wrap64 (mutationFence shard2 + 1) ∧
  (Dirty ≠ Clean ∨ true = false → shard_get s' "k" = Some (mkEntry "k" b2 2 Dirty)) ∧
  ∀ k', k' ≠ "k"%string → shard_get s' k' = shard_get shard2 k' ∨
    ∃ e, shard_get shard2 k' = Some e ∧ is_clean e = true ∧ shard_get s' k' = None.
Proof.
  exact (InsertOrUpdateLocked_monotone 1000 10 shard2 Counters_zero "k" b2 2 Dirty true _ _ shard2_ok
           (surjective_pairing _)).
Defined.

(** ** Recovery *)

Definition rm_open : RecoveryManager (SessionMarker FILE) := mkRecoveryManager marker_open RecoveryState.Unknown.
Definition replay_ok : JournalReplayHandler nat := Some (λ w, (Success tt, S w)).

Lemma InitializeAndRecover_outcome_witness :
  let '(r, rm, w) := InitializeAndRecover replay_ok 7 rm_open 0%nat in
  let '(last, m) := ReadLastState (marker_ rm_open) in
  let '(replay, w1) :=
    match last, replay_ok with
    | Success d, Some handler => if smd_closedCleanly d then (Success tt, 0%nat) else handler 0%nat
    | _, _ => (Success tt, 0%nat)
    end in
  w = w1 ∧
  (CurrentState rm = RecoveryState.RecoveryComplete ∨ CurrentState rm = RecoveryState.RecoveryFailed) ∧
  (r = Success tt ↔ CurrentState rm = RecoveryState.RecoveryComplete) ∧
  match last, replay with
  | Failure e, _ => r = Failure e ∧ marker_ rm = m
  | Success _, Failure e => r = Failure e ∧ marker_ rm = m
  | Success _, Success _ => OnSessionStart 7 m = (r, marker_ rm)
  end.
Proof.
  destruct (InitializeAndRecover replay_ok 7 rm_open 0%nat) as [[r rm] w] eqn:E.
  exact (InitializeAndRecover_outcome replay_ok 7 rm_open 0%nat r rm w E).
Defined.

Example unclean_marker_replays : snd (InitializeAndRecover replay_ok 7 rm_open 0%nat) = 1%nat.
Proof. vm_compute. reflexivity. Qed.

(** ** An engine on these files *)

Definition hash0 (k : string) : Z := Z.of_nat (String.length k).
Definition order0 (m : gmap string PendingEntry) : list (string * PendingEntry) := map_to_list m.

Lemma order0_perm m : order0 m ≡ₚ map_to_list m.
Proof. done. Qed.

Definition options0 : CacheEngineOptions :=
  mkOptions true 1000 10 WritePolicyKind.WriteBackDeferred FlushPolicyKind.Manual 0 2.

Abbreviation FileEngine := (CacheEngine (FileBackingStore.FileBackingStore FILE) (WriteAheadJournal FILE)).

(** Created, not ready; and ready, its files empty. *)
Definition engine_new : FileEngine := CacheEngine_new options0 store0 journal0.
Definition engine0 : FileEngine := set_lifecycle engine_new Ready.

Lemma engine0_core : core_eq engine_new engine0.
Proof. done. Qed.

Lemma journal0_log : log_is journal0 [].
Proof. split; [done|]. split; [apply journal0_clean|]. constructor. Qed.

Lemma engine0_ok : engine_ok hash0 engine0.
Proof.
  apply (core_eq_preserves hash0 engine_new engine0 engine0_core).
  apply (new_engine_ok hash0 options0 store0 journal0 (clean_store_ok store0 store0_clean)).
Qed.

Lemma engine0_durable : durable hash0 engine0 [].
Proof.
  apply (core_eq_durable hash0 engine_new engine0 engine0_core).
  by apply (new_durable hash0 options0 store0 journal0 [] journal0_log).
Qed.

Lemma engine0_room n : n < 2 ^ 64 → room engine0 n.
Proof. intros Hn. exact (new_room options0 store0 journal0 n Hn). Qed.

Definition ops0 : list Operation := [OpPut "k" b1; OpGet "k"; OpFlush "k"; OpInvalidate "l"; OpGet "m"].
Definition outs0 : list Outcome := fst (run hash0 engine0 ops0).
Definition engine1 : FileEngine := snd (run hash0 engine0 ops0).

Lemma ops0_fit : Forall op_fits ops0.
Proof. unfold ops0. repeat apply Forall_cons_2; try apply Forall_nil_2; by vm_compute. Qed.

Lemma run_refines_map_witness :
  engine_ok hash0 engine1 ∧ allowed_run ops0 outs0 (view hash0 engine0) (view hash0 engine1).
Proof.
  refine (run_refines_map hash0 engine0 ops0 outs0 engine1 engine0_ok _ ops0_fit (surjective_pairing _)).
  by apply engine0_room.
Defined.

Example run_outcomes :
  outs0 = [Done (Success tt); Value (Success b1); Done (Success tt); Done (Success tt);
           Value (FileBackingStore.not_found "m")].
Proof. vm_compute. reflexivity. Qed.

Lemma Get_complete_witness :
  ∃ err, fst (Engine.Get hash0 engine0 "k") = Failure err ∧ code err = ErrorCode.NotFound.
Proof.
  exact (Get_complete hash0 engine0 "k" _ _ engine0_ok eq_refl eq_refl (FILE_of_reliable []) (surjective_pairing _)).
Defined.

Lemma Put_acknowledged_witness :
  fst (Engine.Put hash0 engine0 "k" b1) = Success tt ∧
  view hash0 (snd (Engine.Put hash0 engine0 "k" b1)) "k" = Some b1 ∧
  ∃ ds', durable hash0 (snd (Engine.Put hash0 engine0 "k" b1)) ds' ∧
    (invalidated [] "k" = false →
     recovered ds' (store_map (backingStore_ (snd (Engine.Put hash0 engine0 "k" b1)))) "k" = Some b1).
Proof.
  refine (Put_acknowledged hash0 engine0 "k" b1 _ _ [] engine0_ok _ _ _ engine0_durable eq_refl eq_refl eq_refl
            (surjective_pairing _)); done.
Defined.

Definition engine2 : FileEngine := snd (Engine.Put hash0 engine0 "k" b1).

Lemma engine2_ok : engine_ok hash0 engine2.
Proof.
  refine (proj1 (Put_contract hash0 engine0 "k" b1 _ _ engine0_ok _ _ _ (surjective_pairing _))); done.
Qed.

Lemma Flush_stores_witness :
  let e' := snd (Engine.Flush hash0 engine2 "k") in
  engine_ok hash0 e' ∧ (∀ k', view hash0 e' k' = view hash0 engine2 k') ∧
  store_map (backingStore_ e') = <["k"%string := b1]> (store_map (backingStore_ engine2)) ∧
  engine_get hash0 e' "k" = Some (mkEntry "k" b1 1 Clean) ∧
  ∀ ds, log_is (journal_ engine2) ds → log_is (journal_ e') (ds ++ [intent "k" 1; complete "k" 1]).
Proof.
  refine (Flush_stores hash0 engine2 "k" b1 1 (Success tt) (snd (Engine.Flush hash0 engine2 "k")) engine2_ok _ _ _);
    vm_compute; reflexivity.
Defined.

Lemma run_then_restart_recovers_witness :
  ∃ ds', log_is (journal_ engine1) ds' ∧
    ∀ options b j r e2,
      store_ok b → store_map b = store_map (backingStore_ engine1) → log_is j ds' →
      restart hash0 order0 options b j = (r, e2) →
      (r = Success tt → engine_ok hash0 e2 ∧ durable hash0 e2 ds' ∧
         ∀ k, invalidated [] k = false → never_invalidated ops0 k → view hash0 e2 k = view hash0 engine1 k) ∧
      ((∀ k, invalidated ds' k = false) → r = Success tt).
Proof.
  refine (run_then_restart_recovers hash0 order0 order0_perm engine0 [] ops0 outs0 engine1 engine0_ok
            engine0_durable _ ops0_fit (surjective_pairing _)).
  by apply engine0_room.
Defined.

(** ** The lifecycle *)

Lemma CreateCacheEngine_accepts_witness :
  CreateCacheEngine options0 (Some store0) (Some journal0) = Success engine_new ∧
  options_valid options0 ∧ Some store0 = Some (backingStore_ engine_new) ∧
  Some journal0 = Some (journal_ engine_new) ∧ zlen (shards_ engine_new) = shardCount options0 ∧
  lifecycle_ engine_new = NotReady ∧
  perShardCapacityBytes_ engine_new = capacityBytes options0 / shardCount options0.
Proof.
  assert (CreateCacheEngine options0 (Some store0) (Some journal0) = Success engine_new) as E by reflexivity.
  split; [exact E|]. pose proof (CreateCacheEngine_accepts options0 (Some store0) (Some journal0) ltac:(done)) as H.
  rewrite E in H. exact H.
Defined.

Lemma run_op_control_witness :
  let e' := snd (run_op hash0 engine0 OpShutdown) in
  options_ e' = options_ engine0 ∧ inFlightWriteCount_ e' = inFlightWriteCount_ engine0 ∧
  (compactionPaused_ engine0 = false → compactionPaused_ e' = false) ∧ lifecycle_ e' = Stopped.
Proof.
  refine (run_op_control hash0 engine0 OpShutdown _ _ _ (surjective_pairing _)). done.
Defined.

(** A journal whose payloads are no cache records. *)
Lemma failed_replay_is_final_witness :
  let e := snd (Engine.ReplayFromJournal hash0 order0 (CacheEngine_new options0 store0 journal2)) in
  snd (run hash0 e ops0) = e ∧ Forall failed (fst (run hash0 e ops0)).
Proof.
  set (e := snd (Engine.ReplayFromJournal hash0 order0 (CacheEngine_new options0 store0 journal2))).
  refine (failed_replay_is_final hash0 order0 options0 store0 journal2
            (mkError ErrorCode.CorruptData "cache journal record: header truncated" 0) e ops0 _ _ _ (surjective_pairing _)).
  vm_compute. reflexivity.
Defined.

Lemma engine2_durable_room : entry_count engine2 < 2 ^ 64.
Proof. vm_compute. reflexivity. Qed.

Lemma Shutdown_keeps_witness :
  let e' := snd (Engine.Shutdown hash0 engine2) in
  Success tt = Success tt ∧ lifecycle_ e' = Stopped ∧ (∀ k, view hash0 e' k = view hash0 engine2 k) ∧
  (Engine.total_dirty e' = 0 → ∀ k, store_map (backingStore_ e') !! k = view hash0 engine2 k) ∧
  ∀ ds, durable hash0 engine2 ds →
    ∃ ds', durable hash0 e' ds' ∧ (Engine.total_dirty e' = 0 → ds' = []) ∧
           ∀ k, invalidated ds k = false → invalidated ds' k = false.
Proof.
  refine (Shutdown_keeps hash0 engine2 (Success tt) (snd (Engine.Shutdown hash0 engine2)) engine2_ok
            engine2_durable_room _ _); vm_compute; reflexivity.
Defined.

Lemma Invalidate_lasting_witness :
  let e' := snd (Engine.InvalidateImpl hash0 engine2 "k" true) in
  engine_ok hash0 e' ∧
  (∀ k', view hash0 e' k' = if decide (k' = "k"%string) then None else view hash0 engine2 k') ∧
  ∀ ds, durable hash0 engine2 ds → ∃ ds', durable hash0 e' ds' ∧
    (∀ k', k' ≠ "k"%string → invalidated ds' k' = invalidated ds k') ∧
    (true = true → recovered ds' (store_map (backingStore_ e')) "k" = None).
Proof.
  refine (Invalidate_lasting hash0 engine2 "k" true (Success tt) (snd (Engine.InvalidateImpl hash0 engine2 "k" true))
            engine2_ok _ _); vm_compute; (reflexivity || discriminate).
Defined.

Lemma Invalidate_refuses_dirty_witness :
  let '(r, e') := Engine.Invalidate hash0 engine2 "k" in
  (∃ err, r = Failure err ∧ code err = ErrorCode.UnflushedDirtyData) ∧
  shards_ e' = shards_ engine2 ∧ backingStore_ e' = backingStore_ engine2 ∧ journal_ e' = journal_ engine2.
Proof.
  destruct (Engine.Invalidate hash0 engine2 "k") as [r e'] eqn:E.
  refine (Invalidate_refuses_dirty hash0 engine2 "k" (mkEntry "k" b1 1 Dirty) r e' engine2_ok _ _ _ E);
    [vm_compute; reflexivity..|done].
Defined.

(** ** The service *)

(** The files a process left, opened again. *)
Definition journal_file (e : FileEngine) : FILE := FILE_of (stable (file_ (journal_ e))).
Definition data_file (e : FileEngine) : FILE := FILE_of (stable (FileBackingStore.file_ (backingStore_ e))).
Definition marker_bytes (gen now clean : Z) : FILE := FILE_of (RawRecord_bytes (sealed gen now clean)).

Lemma reopened_stable (fp : FILE) : reopened fp (FILE_of (stable fp)).
Proof.
  constructor; [|done|intros d Hd; by apply FILE_of_synced in Hd].
  exists [], (unsynced fp). split; [done|]. by left.
Qed.

Lemma next_files_stable (e : FileEngine) :
  zlen (stable (FileBackingStore.file_ (backingStore_ e))) < 2 ^ 63 → next_files e (journal_file e) (data_file e).
Proof. intros Hlt. constructor; [apply reopened_stable..|exact Hlt]. Qed.

Lemma options0_valid : options_valid options0.
Proof. split; [by exists 1|done]. Qed.

Lemma options0_u32 : u32 (shardCount options0).
Proof. done. Qed.

Lemma OnServiceStart_ready_witness :
  let s := snd (OnServiceStart hash0 order0 options0 7 (Success (FILE_of [])) (Success (FILE_of []))
                  (Success (FILE_of []))) in
  ∃ rm e, s = mkService (Some rm) (Some e) ∧ lifecycle_ e = Ready ∧
          CurrentState rm = RecoveryState.RecoveryComplete.
Proof.
  refine (OnServiceStart_ready hash0 order0 options0 7 (Success (FILE_of [])) (Success (FILE_of []))
            (Success (FILE_of [])) (Success tt) _ _).
  vm_compute. reflexivity.
Defined.

Lemma engine2_durable : ∃ ds, durable hash0 engine2 ds ∧ ∀ k, invalidated ds k = false.
Proof.
  assert (str_size "k" ≤ kMaxReasonableLength ∧ zlen b1 ≤ kMaxReasonableLength) as [Hk Hv] by done.
  destruct (Put_contract hash0 engine0 "k" b1 _ _ engine0_ok ltac:(done) Hk Hv (surjective_pairing _)) as (_ & D & _).
  destruct (D [] engine0_durable) as (ds & Hd & Hf). exists ds. split; [done|].
  intros k. destruct (invalidated ds k) eqn:E; [|done]. by apply Hf in E.
Qed.

(** The power fails after an unflushed write. *)
Example power_cut_keeps_unflushed :
  match OnServiceStart hash0 order0 options0 8 (Success (marker_bytes 1 7 0))
          (Success (journal_file engine2)) (Success (data_file engine2)) with
  | (Success _, mkService (Some _) (Some e)) => view hash0 e "k" = Some b1
  | _ => False
  end.
Proof. vm_compute. reflexivity. Qed.

Definition service2 : Service FILE := mkService (Some (mkRecoveryManager marker_started RecoveryState.RecoveryComplete))
                                           (Some engine2).

Definition stopped (s : Service FILE) : RecoveryManager (SessionMarker FILE) * FileEngine :=
  match snd (OnServiceStop hash0 9 s) with
  | mkService (Some rm) (Some e) => (rm, e)
  | _ => (rm_open, engine_new)
  end.

Definition rm3 := fst (stopped service2).
Definition engine3 := snd (stopped service2).
Definition marker3 : FILE := FILE_of (stable (marker_file (marker_ rm3))).

Lemma put_clean s k v s' :
  fbs_clean s → store_fits k v → FileBackingStore.Put s k v = (Success tt, s') → fbs_clean s'.
Proof.
  intros Hc Hfit E. assert (fbs_ok s) as Hok by (destruct Hc; by eexists _, _).
  destruct (AppendRecord_contract _ _ _ false _ _ Hok Hfit E) as (_ & _ & Hcl). by apply (Hcl Hc).
Qed.

Lemma engine3_clean : fbs_clean (backingStore_ engine3).
Proof.
  refine (put_clean store0 "k" b1 _ store0_clean _ _); [done|]. vm_compute. reflexivity.
Qed.

(** An orderly stop with the flush of [Shutdown]. *)
Lemma restart_after_clean_stop_witness :
  let '(r, s) := OnServiceStart hash0 order0 options0 10 (Success marker3)
                   (Success (journal_file engine3)) (Success (data_file engine3)) in
  r = Success tt ∧ ∃ rm e, s = mkService (Some rm) (Some e) ∧ ∀ k, view hash0 e k = view hash0 engine2 k.
Proof.
  destruct (OnServiceStart _ _ _ _ _ _ _) as [r s] eqn:E.
  refine (restart_after_clean_stop hash0 order0 options0 9 10
            (mkRecoveryManager marker_started RecoveryState.RecoveryComplete) engine2 rm3 engine3 marker3
            (journal_file engine3) (data_file engine3) r s engine2_ok engine2_durable_room _ _ _ engine3_clean
            (next_files_stable engine3 _) (FILE_of_reliable _) (ro_image _ _ (reopened_stable _))
            options0_valid options0_u32 E);
    [split; vm_compute; congruence|vm_compute; reflexivity..].
Defined.

(** A data file whose next seek fails: the flush of [Shutdown] does too. *)
Definition engine_bad : FileEngine :=
  set_lifecycle (CacheEngine_new options0
    (FileBackingStore.mkStore (mkFILE [] [] 0 false [Some 0%nat]) ∅ 0 1) journal0) Ready.
Definition engine4 : FileEngine := snd (Engine.Put hash0 engine_bad "k" b1).
Definition service4 : Service FILE := mkService (Some (mkRecoveryManager marker_started RecoveryState.RecoveryComplete))
                                           (Some engine4).
Definition rm5 := fst (stopped service4).
Definition engine5 := snd (stopped service4).
Definition marker5 : FILE := FILE_of (stable (marker_file (marker_ rm5))).

Lemma engine5_clean : fbs_clean (backingStore_ engine5).
Proof.
  assert (backingStore_ engine5 = store0) as -> by (vm_compute; reflexivity). apply store0_clean.
Qed.

Lemma stop_forgets_unflushed_witness :
  view hash0 engine5 "k" = Some b1 ∧
  let '(r, s) := OnServiceStart hash0 order0 options0 10 (Success marker5)
                   (Success (journal_file engine5)) (Success (data_file engine5)) in
  r = Success tt ∧ ∃ rm e, s = mkService (Some rm) (Some e) ∧ view hash0 e "k" ≠ Some b1.
Proof.
  split; [vm_compute; reflexivity|]. destruct (OnServiceStart _ _ _ _ _ _ _) as [r s] eqn:E.
  refine (stop_forgets_unflushed hash0 order0 options0 9 10
            (mkRecoveryManager marker_started RecoveryState.RecoveryComplete) engine4 rm5 engine5 marker5
            (journal_file engine5) (data_file engine5) r s "k" b1 _ _ _ _ engine5_clean
            (next_files_stable engine5 _) (FILE_of_reliable _) (ro_image _ _ (reopened_stable _))
            options0_valid options0_u32 E);
    [split; vm_compute; congruence|vm_compute; reflexivity|vm_compute; reflexivity
    |vm_compute; discriminate|vm_compute; reflexivity].
Defined.

(** ** A write lost on these files *)

Definition ops_rewrite : list Operation := [OpInvalidate "k"; OpPut "k" b2; OpFlush "k"].
Definition engine6 : FileEngine := snd (run hash0 engine0 ops_rewrite).

(** An acknowledged, flushed write is lost by a restart.  On files without
    errors, a key is invalidated, written and flushed, all with success; the
    value is read back and is in the data file.  After a power cut the next
    start succeeds, and the key is gone from the engine and from the data
    file. *)
Theorem rewritten_key_lost_on_restart :
  fst (run hash0 engine0 ops_rewrite) = [Done (Success tt); Done (Success tt); Done (Success tt)] ∧
  fst (Engine.Get hash0 engine6 "k") = Success b2 ∧
  fst (FileBackingStore.Get (backingStore_ engine6) "k") = Success b2 ∧
  match OnServiceStart hash0 order0 options0 8 (Success (marker_bytes 1 7 0))
          (Success (journal_file engine6)) (Success (data_file engine6)) with
  | (Success _, mkService (Some _) (Some e)) =>
    fst (Engine.Get hash0 e "k") = FileBackingStore.not_found "k" ∧
    content_records (stable (FileBackingStore.file_ (backingStore_ e))) =
      content_records (stable (FileBackingStore.file_ (backingStore_ engine6))) ++
      [new_record (backingStore_ engine6) "k" [] true]
  | _ => False
  end.
Proof. vm_compute. split_and!; reflexivity. Qed.
