(* ===== verification/Races.v ===== *)
(** * Races: schedules that lose what was acknowledged

    Interleaving.v bounds what any schedule can do; the schedules here show
    that its hypotheses are needed and its conclusion is the most that holds.
    Each is a run of Threads.v's programs on the files of Examples.v, without
    any error of the device, in which every call returns success; what the
    calls promised is gone afterwards, from the live engine or after a power
    cut and a restart of the service. *)
From S2P Require Import Prelude Common Wire RecordCodec Storage Journal Marker Recovery.
From S2P Require Import Store Shard Engine EngineFacts Durability Client Lifecycle Service.
From S2P Require Import Threads Interleaving Examples.
Import EntryDirtyState EngineLifecycle.
Open Scope Z_scope.

(** Clients of one operation each: their outcomes, where they have returned,
    and the engine. *)
Definition race (ops : list Operation) (e : FileEngine) (sched : list nat) : list (option Outcome) * FileEngine :=
  let '(ts, s) := run_schedule sched (map (Threads.op_prog hash0) ops) (mkShared e NotStarted false) in
  (map returned ts, engine_ s).

(** [turns [(i, n); ...]]: thread [i] takes [n] steps, and so on. *)
Definition turns (l : list (nat * nat)) : list nat := concat (map (λ '(i, n), replicate n i) l).

(** What a read finds after a power cut and a restart of the service. *)
Definition after_power_cut (e : FileEngine) (k : string) : option (Result bytes) :=
  match OnServiceStart hash0 order0 options0 8 (Success (marker_bytes 1 7 0))
          (Success (journal_file e)) (Success (data_file e)) with
  | (Success _, mkService (Some _) (Some e)) => Some (fst (Engine.Get hash0 e k))
  | _ => None
  end.

Definition ok : option Outcome := Some (Done (Success tt)).

(** An engine on which a client has run alone. *)
Definition after (ops : list Operation) : FileEngine := snd (run hash0 engine0 ops).

(** Two entries at most, one per shard. *)
Definition options_small : CacheEngineOptions :=
  mkOptions true 1000 2 WritePolicyKind.WriteBackDeferred FlushPolicyKind.Manual 0 2.
Definition after_small (ops : list Operation) : FileEngine :=
  snd (run hash0 (set_lifecycle (CacheEngine_new options_small store0 journal0) Ready) ops).

Definition race1 := race [OpFlushAll; OpFlushAll; OpPut "l" b2] (after [OpPut "k" b1; OpFlush "k"])
  (turns [(0, 10); (1, 10); (0, 2); (2, 9); (1, 2)])%nat.

(** Two FlushAll callers share one pause flag: the first to finish lets a writer in
    while the second still truncates, and the journal record of the write is
    dropped with its entry dirty: the write is gone after a power cut. *)
Theorem overlapping_compactions_lose_write :
  fst race1 = [ok; ok; ok] ∧
  fst (Engine.Get hash0 (snd race1) "l") = Success b2 ∧
  engine_get hash0 (snd race1) "l" = Some (mkEntry "l" b2 2 Dirty) ∧
  after_power_cut (snd race1) "l" = Some (FileBackingStore.not_found "l").
Proof. vm_compute. split_and!; reflexivity. Qed.

Definition race2 := race [OpInvalidate "k"; OpPut "k" b2] (after [OpPut "k" b1; OpFlush "k"])
  (turns [(0, 3); (1, 9); (0, 5)])%nat.

(** A Put that runs between the locked snapshot of an invalidation and its journal
    record is served by the live engine and removed by the replay. *)
Theorem invalidation_overtaken_by_write_loses_it :
  fst race2 = [ok; ok] ∧
  fst (Engine.Get hash0 (snd race2) "k") = Success b2 ∧
  after_power_cut (snd race2) "k" = Some (FileBackingStore.not_found "k").
Proof. vm_compute. split_and!; reflexivity. Qed.

Definition race3 := race [OpFlush "k"; OpPut "k" b2; OpFlush "k"; OpFlushAll] (after [OpPut "k" b1])
  (turns [(0, 3); (1, 9); (2, 7); (0, 4); (3, 12)])%nat.

(** Two flushes of different versions of a key: the older value reaches the store
    last, the newer entry is marked clean, and the journal is emptied: the newer
    write is gone after a power cut. *)
Theorem overlapping_flushes_store_stale_value :
  fst race3 = [ok; ok; ok; ok] ∧
  engine_get hash0 (snd race3) "k" = Some (mkEntry "k" b2 2 Clean) ∧
  fst (FileBackingStore.Get (backingStore_ (snd race3)) "k") = Success b1 ∧
  RecordCount (journal_ (snd race3)) = 0 ∧
  after_power_cut (snd race3) "k" = Some (Success b1).
Proof. vm_compute. split_and!; reflexivity. Qed.

Definition race4 := race [OpPut "k" b1; OpPut "k" b2; OpFlush "k"; OpPut "m" b2; OpFlush "m"] (after_small [])
  (turns [(0, 4); (1, 9); (2, 7); (3, 9); (4, 7); (0, 5)])%nat.

(** A Put whose insertion is delayed past a newer Put, its flush and its eviction
    puts its older value in the cache: the engine serves the older of two
    acknowledged writes. *)
Theorem delayed_write_is_lost :
  fst race4 = [ok; ok; ok; ok; ok] ∧
  fst (Engine.Get hash0 (snd race4) "k") = Success b1 ∧
  engine_get hash0 (snd race4) "k" = Some (mkEntry "k" b1 1 Dirty) ∧
  after_power_cut (snd race4) "k" = Some (Success b2).
Proof. vm_compute. split_and!; reflexivity. Qed.

Definition race5 := race [OpInvalidate "k"; OpPut "m" b2; OpFlush "m"; OpGet "k"]
  (after_small [OpPut "k" b1; OpFlush "k"])
  (turns [(0, 3); (1, 9); (2, 7); (3, 5); (0, 2); (3, 1); (0, 3)])%nat.

(** A read that fills the cache between the removal of an invalidation from the
    store and its commit leaves an entry (of version 0) the commit does not
    erase: an invalidated key is still served. *)
Theorem read_fill_resurrects_invalidated_key :
  fst race5 = [ok; ok; ok; Some (Value (Success b1))] ∧
  fst (FileBackingStore.Get (backingStore_ (snd race5)) "k") = FileBackingStore.not_found "k" ∧
  fst (Engine.Get hash0 (snd race5) "k") = Success b1.
Proof. vm_compute. split_and!; reflexivity. Qed.

(** ** The theorems of Threads.v and Interleaving.v, applied *)

Definition shared0 : Shared _ _ := mkShared engine0 Running false.
Definition scripts_pool : list (list Operation) :=
  [[OpPut "k" b1; OpFlush "k"]; [OpInvalidate "l"]; [OpShutdown]; [OpGet "k"; OpPut "m" b2]].
Definition sched_pool : list nat := turns [(0, 4); (4, 6); (2, 3); (1, 9); (0, 6); (3, 3); (2, 20)]%nat.

(** The stop of an engine with an unflushed write, run alone. *)
Example shutdown_run_alone :
  let '(out, e') := run_op hash0 engine2 OpShutdown in
  ∃ s', run_alone (Threads.op_prog hash0 OpShutdown) (mkShared engine2 NotStarted false) = Some (out, s') ∧
        engine_ s' = e'.
Proof.
  assert (quiescent (mkShared engine2 NotStarted false)) as Hq by (split; [|split]; vm_compute; congruence).
  destruct (run_op hash0 engine2 OpShutdown) as [out e'] eqn:E.
  exact (run_alone_run_op hash0 (mkShared engine2 NotStarted false) OpShutdown out e' Hq E).
Qed.

Lemma engine0_empty k : engine_get hash0 engine0 k = None.
Proof.
  unfold engine_get. assert (∀ i, shard_at engine0 i = Shard_empty) as ->; [|done].
  intros i. by destruct i as [|[|i]].
Qed.

Lemma shared0_ready background :
  is_Some background → ready_for hash0 scripts_pool background shared0.
Proof.
  intros [n ->]. constructor; try done.
  - apply engine_shards, engine0_ok.
  - intros k en. cbn [engine_ shared0]. by rewrite engine0_empty.
  - exists []. split; [apply journal0_log|]. intros k en [Hk _]. cbn [engine_ shared0] in Hk.
    by rewrite engine0_empty in Hk.
  - repeat apply Forall_cons_2; try apply Forall_nil_2; vm_compute; by split_and!.
  - right. cbn. intros i script. apply (Forall_lookup_1 (λ script, OpFlushAll ∉ script)).
    apply (bool_decide_unpack _). by vm_compute.
Qed.

Lemma unflushed_writes_stay_journaled_witness :
  let '(ts, s) := run_schedule sched_pool (pool hash0 scripts_pool (Some 2%nat)) shared0 in
  ∃ ds, log_is (journal_ (engine_ s)) ds ∧
    ∀ k en, engine_get hash0 (engine_ s) k = Some en → is_clean en = false →
      upsert k (value en) (version en) ∈ ds.
Proof.
  destruct (run_schedule sched_pool (pool hash0 scripts_pool (Some 2%nat)) shared0) as [ts s] eqn:E.
  exact (unflushed_writes_stay_journaled hash0 scripts_pool (Some 2%nat) shared0 sched_pool ts s
           (shared0_ready (Some 2%nat) ltac:(done)) E).
Defined.

Lemma every_schedule_can_finish_witness :
  Acc pool_child (fst (run_schedule sched_pool (pool hash0 scripts_pool (Some 2%nat)) shared0)) ∧
  ∃ sched' ts s', run_schedule (sched_pool ++ sched') (pool hash0 scripts_pool (Some 2%nat)) shared0 = (ts, s') ∧
    (∀ i script, scripts_pool !! i = Some script → ∃ outs, ts !! i = Some (Ret outs)) ∧
    inFlightWriteCount_ (engine_ s') = 0 ∧ compactionPaused_ (engine_ s') = false.
Proof.
  exact (every_schedule_can_finish hash0 scripts_pool (Some 2%nat) shared0 sched_pool (shared0_ready (Some 2%nat) ltac:(done))).
Defined.

(** The schedule of the witnesses holds a writer in its critical part while the
    shutdown begins. *)
Example sched_pool_state :
  let '(ts, s) := run_schedule (take 13 sched_pool) (pool hash0 scripts_pool (Some 2%nat)) shared0 in
  inFlightWriteCount_ (engine_ s) = 1 ∧ lifecycle_ (engine_ s) = Stopping ∧ RecordCount (journal_ (engine_ s)) = 1.
Proof. vm_compute. by split_and!. Qed.

(** A miss on an empty shard, and a write that came between. *)
Lemma read_fill_never_stale_witness :
  let '(v', e') := Engine.Get_fill hash0 engine2 "k" 0 b2 in
  v' = b1 ∧ engine_get hash0 e' "k" = Some (mkEntry "k" b1 1 Dirty).
Proof.
  destruct (Engine.Get_fill hash0 engine2 "k" 0 b2) as [v' e'] eqn:E.
  assert (nsteps (shard_step 500 5) 1 Shard_empty (shard_at engine2 (Engine.ShardFor hash0 engine2 "k"))) as Hn.
  { assert (shard_at engine2 (Engine.ShardFor hash0 engine2 "k") =
      fst (InsertOrUpdateLocked 500 5 Shard_empty Counters_zero "k" b1 1 Dirty true)) as -> by (vm_compute; reflexivity).
    eapply nsteps_l; [apply step_insert|constructor]. }
  assert (u64 (mutationFence (shard_at engine2 (Engine.ShardFor hash0 engine2 "k")))) as Hu
    by (vm_compute; split; congruence).
  assert (shards_ engine2 ≠ []) as Hne by (vm_compute; congruence).
  pose proof (read_fill_never_stale hash0 engine2 "k" b2 500 5 1 Shard_empty v' e' Shard_empty_ok eq_refl
                ltac:(done) Hu Hn ltac:(done) Hne E) as HR.
  assert (shard_get (shard_at engine2 (Engine.ShardFor hash0 engine2 "k")) "k" = Some (mkEntry "k" b1 1 Dirty)) as Hg
    by (vm_compute; reflexivity).
  rewrite Hg in HR. exact HR.
Defined.
