(* ===== verification/OuterExamples.v ===== *)
(** * OuterExamples: requests, configuration and files at work

    A pipe that delivers in chunks, a JSON library that keeps scalar members and
    writes them in a text of its own, an empty disk; the properties of Ipc.v,
    Requests.v, Config.v, Replace.v, Startup.v and
    Gui.v applied to concrete inputs. *)
From Stdlib Require Import Ascii.
From S2P Require Import Prelude Common Wire Storage Journal Marker Recovery Store Shard.
From S2P Require Import Engine EngineFacts Durability Client Lifecycle Service Ipc Requests.
From S2P Require Import Config Replace Win32Replace Startup Gui Examples.
Open Scope Z_scope.

(** ** A pipe *)

(** What the peer wrote and was not read yet, in the pieces it arrives in. *)
Definition Chunks : Type := list bytes.

Definition read_chunk (p : Chunks) (n : Z) : option bytes * Chunks :=
  if n <? 0 then (None, p) else
  match p with
  | [] => (None, [])
  | c :: cs =>
    let rest := drop (Z.to_nat n) c in
    (Some (take (Z.to_nat n) c), match rest with [] => cs | _ => rest :: cs end)
  end.

#[export] Instance Chunks_Win32Pipe : Win32Pipe Chunks := {
  ReadFile := read_chunk;
  WriteFile p bs := (Some (zlen bs), p);
  GetLastError _ := 109
}.

Lemma read_chunk_ok p n got p' :
  read_chunk p n = (Some got, p') → concat p = got ++ concat p' ∧ zlen got ≤ n.
Proof.
  unfold read_chunk. destruct (Z.ltb_spec n 0); [done|]. destruct p as [|c cs]; [done|].
  cbn. intros [= <- <-]. split.
  - pose proof (take_drop (Z.to_nat n) c) as Hc. destruct (drop (Z.to_nat n) c) eqn:E; cbn.
    + rewrite app_nil_r in Hc. by rewrite Hc.
    + rewrite <- Hc at 1. by rewrite <- app_assoc.
  - unfold zlen. rewrite length_take. lia.
Qed.

Lemma read_chunk_delivers p n :
  Forall (λ c, c ≠ []) p → 0 < n → concat p ≠ [] →
  ∃ got p', read_chunk p n = (Some got, p') ∧ got ≠ [] ∧ Forall (λ c, c ≠ []) p'.
Proof.
  intros Hp Hn Hne. unfold read_chunk. rewrite (proj2 (Z.ltb_ge _ _)) by lia.
  destruct p as [|c cs]; [done|]. apply Forall_cons in Hp as [Hc Hcs]. eexists _, _. split; [done|]. split.
  - destruct c as [|b c]; [done|]. destruct (Z.to_nat n) eqn:E; [lia|done].
  - destruct (drop (Z.to_nat n) c); [done|]. by constructor.
Qed.

#[export] Instance Chunks_Win32PipeSpec : Win32PipeSpec Chunks := {
  pending := @concat byte;
  delivers := Forall (λ c, c ≠ []);
  ReadFile_ok := read_chunk_ok;
  ReadFile_delivers := read_chunk_delivers
}.

(** A request in three pieces. *)
Definition request_k : bytes := EncodeInvalidateKeyRequest (mkInvalidateKey "k").
Definition pipe0 : Chunks := [take 4 request_k; take 5 (drop 4 request_k); drop 9 request_k].

Example ReceiveFrame_pieces : ReceiveFrame pipe0 = (Success request_k, []).
Proof. vm_compute. reflexivity. Qed.

(** A key of 64 KiB and one byte is encoded and not decoded. *)
Lemma messages_roundtrip_witness :
  let status := mkStatus 4 0 true in
  let result := mkOperationResult false 402 "cache is disabled by configuration" in
  let type_of frame := PeekMessageType frame in
  DecodeStatusResponse (EncodeStatusResponse status) = Success status ∧
  DecodeOperationResult (EncodeOperationResult MessageType.FlushAllResponse result) MessageType.FlushAllResponse =
    Success result ∧
  type_of (EncodeEmpty MessageType.FlushAllResponse) =
    Success (MessageType.MessageType_val MessageType.FlushAllResponse).
Proof.
  assert (statistics_ok (mkStatistics 1 2 3 4 5 6 7 8 9 10 11 12)) as Hst.
  { unfold statistics_ok, CacheStatistics_fields. repeat (apply Forall_cons_2; [done|]). apply Forall_nil_2. }
  assert (status_ok (mkStatus 4 0 true)) as Hs by (constructor; done).
  destruct (messages_roundtrip (mkStatus 4 0 true) (mkStatistics 1 2 3 4 5 6 7 8 9 10 11 12)
    MessageType.FlushAllResponse (mkOperationResult false 402 "cache is disabled by configuration")
    (mkInvalidateKey "k") Hs Hst ltac:(done) ltac:(done) ltac:(done)) as ([H1 _] & _ & [H2 _] & _ & [_ H3]).
  split; [exact H1|]. split; [exact H2|exact H3].
Defined.

(** The same frame through [ReceiveFrame_framing], whose premises hold of these
    pieces. *)
Lemma ReceiveFrame_framing_witness : ∃ p', ReceiveFrame pipe0 = (Success request_k, p') ∧ pending p' = [].
Proof.
  refine (proj2 (proj2 (proj2 (ReceiveFrame_framing pipe0))) request_k []
            [take 5 (drop 4 request_k); drop 9 request_k] _ _ _ _).
  - split; [vm_compute; reflexivity|]. split; vm_compute; discriminate.
  - vm_compute. reflexivity.
  - vm_compute. reflexivity.
  - constructor; [done|]. constructor; [done|]. constructor.
Defined.

(** ** Requests *)

Definition service0 : Service FILE := mkService None (Some engine2).

Lemma engine2_entries : entry_count engine2 < 2 ^ 64.
Proof. vm_compute. reflexivity. Qed.

Definition turns0 : list (Turn (P := Chunks)) :=
  [mkTurn false (Failure (mkError ErrorCode.Win32ApiFailure "" 0)) false;
   mkTurn false (Success pipe0) false; mkTurn false (Failure (mkError ErrorCode.ServiceStopping "" 0)) false].

Lemma requests_only_remove_witness :
  let s := snd (IpcServerThreadBody hash0 turns0 service0) in
  g_recoveryManager s = None ∧
  ∃ e', g_cacheEngine s = Some e' ∧ engine_ok hash0 e' ∧
    (∀ k, k ∉ concat (map asked_by turns0) → view hash0 e' k = view hash0 engine2 k) ∧
    ∀ ds, durable hash0 engine2 ds → ∃ ds', durable hash0 e' ds'.
Proof.
  exact (requests_only_remove hash0 turns0 service0 engine2 _ _ eq_refl engine2_ok engine2_entries
           (surjective_pairing _)).
Defined.

Example asked_k : concat (map asked_by turns0) = ["k"%string].
Proof. vm_compute. reflexivity. Qed.

(** The key is removed, and the reply says so. *)
Lemma replies_are_truthful_witness :
  ∃ reply r e', Engine.ForceInvalidate hash0 engine2 "k" = (r, e') ∧
    HandleFrame hash0 request_k service0 = (Some reply, with_engine service0 e') ∧
    says_outcome reply MessageType.InvalidateKeyResponse r "invalidated" ∧
    ∀ k, view hash0 e' k =
      if IsOk r then (if decide (k = "k"%string) then None else view hash0 engine2 k) else view hash0 engine2 k.
Proof.
  exact (proj2 (proj2 (proj2 (proj2 (proj2 (replies_are_truthful hash0 service0))) engine2_ok engine2_entries))
           "k"%string ltac:(done)).
Defined.

Example reply_says_removed :
  ∃ reply, fst (HandleFrame hash0 request_k service0) = Some reply ∧
    DecodeOperationResult reply MessageType.InvalidateKeyResponse = Success (mkOperationResult true 0 "invalidated").
Proof. eexists. split; vm_compute; reflexivity. Qed.

(** ** A JSON library *)

#[export] Instance JsonValue_eq_dec : EqDecision JsonValue.
Proof. solve_decision. Defined.

#[export] Instance JsonValue_countable : Countable JsonValue.
Proof.
  refine (inj_countable'
    (λ v, match v with JNumber z => inl z | JBool b => inr (inl b) | JString s => inr (inr s) end)
    (λ v, match v with inl z => JNumber z | inr (inl b) => JBool b | inr (inr s) => JString s end) _).
  by intros [].
Defined.

Definition Members : Type := gmap string JsonValue.

(** A text for a positive number, and back. *)
Fixpoint pos_text (p : positive) : string :=
  match p with
  | xH => ""
  | xO p => String "0"%char (pos_text p)
  | xI p => String "1"%char (pos_text p)
  end.

Fixpoint text_pos (s : string) : positive :=
  match s with
  | EmptyString => xH
  | String c s => if Ascii.eqb c "0"%char then xO (text_pos s) else xI (text_pos s)
  end.

Lemma text_pos_text p : text_pos (pos_text p) = p.
Proof. induction p as [p IH|p IH|]; cbn; by rewrite ?IH. Qed.

Definition ascii_text (s : string) : bool := forallb (λ b, byte_val b <? 128) (str_bytes s).

Definition writable (v : JsonValue) : bool := match v with JString s => ascii_text s | _ => true end.

Definition number_of (m : Members) (k : string) (convert : Z → Z) : string + Z :=
  match m !! k with
  | Some (JNumber z) => inr (convert z)
  | _ => inl "type must be number"%string
  end.

Definition has_member (m : Members) (k : string) : bool := match m !! k with Some _ => true | None => false end.

Definition bool_of (m : Members) (k : string) : string + bool :=
  match m !! k with Some (JBool b) => inr b | _ => inl "type must be boolean"%string end.

Definition string_of (m : Members) (k : string) : string + string :=
  match m !! k with Some (JString s) => inr s | _ => inl "type must be string"%string end.

#[export] Instance Members_json : NlohmannJson Members := {
  json_null := ∅;
  set m k v := <[k := v]> m;
  contains := has_member;
  get_u32 m k := number_of m k wrap32;
  get_u64 m k := number_of m k wrap64;
  get_int m k := number_of m k (λ z, wrap32 (z + 2 ^ 31) - 2 ^ 31);
  get_bool := bool_of;
  get_string := string_of;
  dump m :=
    if forallb (λ kv, writable (snd kv)) (map_to_list m) then inr (pos_text (encode m))
    else inl "invalid UTF-8 byte"%string;
  parse s := match decode (text_pos s) with Some m => inr m | None => inl "parse error"%string end
}.

Lemma ascii_text_bytes bs : ascii_text (bytes_str bs) = forallb (λ b, byte_val b <? 128) bs.
Proof. unfold ascii_text. by rewrite str_bytes_str. Qed.

Lemma number_of_ok (m : Members) k z f : m !! k = Some (JNumber z) → number_of m k f = inr (f z).
Proof. unfold number_of. by intros ->. Qed.

Lemma number_of_inv (m : Members) k z f : number_of m k f = inr z → ∃ y, z = f y.
Proof. unfold number_of. destruct (m !! k) as [[y| |]|]; intros [= <-]. by exists y. Qed.

Lemma has_member_ok (m : Members) k v : m !! k = Some v → has_member m k = true.
Proof. unfold has_member. by intros ->. Qed.

Lemma get_bool_ok (m : Members) k b : m !! k = Some (JBool b) → bool_of m k = inr b.
Proof. unfold bool_of. by intros ->. Qed.

Lemma get_string_ok (m : Members) k s : m !! k = Some (JString s) → string_of m k = inr s.
Proof. unfold string_of. by intros ->. Qed.

Lemma dump_members (m : Members) :
  (∀ k v, m !! k = Some v → writable v = true) → dump m = inr (pos_text (encode m)).
Proof.
  intros Hm. unfold dump, Members_json.
  assert (forallb (λ kv, writable (snd kv)) (map_to_list m) = true) as ->; [|done].
  apply forallb_forall. intros [k v] Hin. apply list_elem_of_In, elem_of_map_to_list in Hin. by apply (Hm k).
Qed.

Lemma dump_members_refuses (m : Members) k v :
  m !! k = Some v → writable v = false → dump m = inl "invalid UTF-8 byte"%string.
Proof.
  intros E Hv. unfold dump, Members_json.
  assert (forallb (λ kv, writable (snd kv)) (map_to_list m) = false) as ->; [|done].
  apply not_true_iff_false. rewrite forallb_forall. intros Ha.
  specialize (Ha (k, v) ltac:(by apply list_elem_of_In, elem_of_map_to_list)). cbn in Ha. congruence.
Qed.

Lemma parse_members (m : Members) : parse (pos_text (encode m)) = inr m.
Proof. unfold parse, Members_json. by rewrite text_pos_text, decode_encode. Qed.

#[export, refine] Instance Members_spec : NlohmannJsonSpec Members := {
  members m := m;
  utf8 := ascii_text
}.
Proof.
  - done.
  - done.
  - intros m k v E. exact (has_member_ok m k v E).
  - intros m k z E Hz. rewrite <- (wrap_small 32 z Hz). by apply number_of_ok.
  - intros m k z E Hz. rewrite <- (wrap_small 64 z Hz). by apply number_of_ok.
  - intros m k z E Hz. transitivity (inr (wrap32 (z + 2 ^ 31) - 2 ^ 31) : string + Z).
    + by apply (number_of_ok m k z (λ z, wrap32 (z + 2 ^ 31) - 2 ^ 31)).
    + rewrite wrap_small by (unfold in_width; lia). f_equal. lia.
  - intros m k b E. exact (get_bool_ok m k b E).
  - intros m k s E. exact (get_string_ok m k s E).
  - intros m k z E. apply number_of_inv in E as [y ->]. by apply wrap_width.
  - intros m k z E. apply number_of_inv in E as [y ->]. by apply wrap_width.
  - intros m k z E. apply number_of_inv in E as [y ->].
    pose proof (wrap_width 32 (y + 2 ^ 31) ltac:(lia)) as Hw. unfold in_width in Hw. lia.
  - intros bs Hb. rewrite ascii_text_bytes. apply forallb_forall. intros b Hin.
    unfold ascii_bytes in Hb. rewrite Forall_forall in Hb. apply Z.ltb_lt, Hb. by apply list_elem_of_In.
  - intros bs b _ Hb. rewrite ascii_text_bytes, forallb_app. cbn [forallb].
    rewrite (proj2 (Z.ltb_ge _ _)) by lia. by rewrite andb_false_r.
  - intros m _ Hm. exists (pos_text (encode m)), m. split; [|split; [apply parse_members|done]].
    apply dump_members. intros k v E. specialize (Hm k v E). by destruct v.
  - intros m k s _ E Hs. eexists. by apply (dump_members_refuses m k (JString s)).
Defined.

(** ** Configurations *)

Lemma default_typed : config_typed AppConfig_default.
Proof. by constructor; vm_compute. Qed.

Lemma default_ascii : Forall ascii_path (paths AppConfig_default).
Proof.
  assert (∀ s, forallb (λ b, byte_val b <? 128) (str_bytes s) = true → ascii_path (L s)) as Hs.
  { intros s Hb. unfold ascii_path, L. apply Forall_forall. intros u Hu.
    apply list_elem_of_In, in_map_iff in Hu as (b & <- & Hin). pose proof (byte_val_range b).
    rewrite forallb_forall in Hb. specialize (Hb b Hin). apply Z.ltb_lt in Hb. lia. }
  unfold paths, AppConfig_default. repeat (apply Forall_cons_2; [apply Hs; vm_compute; reflexivity|]).
  apply Forall_nil_2.
Qed.

Lemma default_valid : Validate AppConfig_default = Success tt.
Proof. vm_compute. reflexivity. Qed.

Lemma Save_then_Load_witness :
  ∃ text, Save_serialize (json := Members) AppConfig_default = Returned (Success text) ∧
    Load (json := Members) "config" (Some text) = Success (narrowed AppConfig_default) ∧
    (Forall ascii_path (paths AppConfig_default) → narrowed AppConfig_default = AppConfig_default).
Proof.
  refine (Save_then_Load "config" AppConfig_default default_typed _ (ascii_paths_narrow _ default_ascii)).
  vm_compute. reflexivity.
Defined.

(** A state directory that ends in U+00E9. *)
Definition config_wide : AppConfig :=
  mkConfig 2 (L "C:\caf" ++ [0xE9]) (L "C:\Logs") 2 (L "\\.\pipe\QuantumCacheControl") true (L "C:\data")
    1000 10 2 "LeastRecentlyUsed" "WriteThrough" "Manual" 30.

Lemma Save_throws_on_wide_path_witness :
  ∃ what, Save_serialize (json := Members) config_wide = Thrown what.
Proof.
  refine (Save_throws_on_wide_path config_wide (L "C:\caf") 0xE9 _ eq_refl _ _).
  - vm_compute. reflexivity.
  - unfold narrow_ascii, L. cbn [map]. repeat (apply Forall_cons_2; [vm_compute; reflexivity|]). apply Forall_nil_2.
  - vm_compute. discriminate.
Defined.

Definition default_text : string :=
  match Save_serialize (json := Members) AppConfig_default with Returned (Success text) => text | _ => "" end.

Lemma default_loads : Load (json := Members) "config" (Some default_text) = Success AppConfig_default.
Proof. vm_compute. reflexivity. Qed.

Lemma loaded_config_accepted_witness :
  Validate AppConfig_default = Success tt ∧
  (WritePolicyKind_ToString (writePolicy (BuildEngineOptions AppConfig_default)) = cfg_writePolicy AppConfig_default ∧
   FlushPolicyKind_ToString (flushPolicy (BuildEngineOptions AppConfig_default)) = cfg_flushPolicy AppConfig_default) ∧
  CreateCacheEngine (BuildEngineOptions AppConfig_default) (Some store0) (Some journal0) =
    Success (CacheEngine_new (BuildEngineOptions AppConfig_default) store0 journal0) ∧
  options_valid (BuildEngineOptions AppConfig_default) ∧
  cacheShardCount AppConfig_default ≤ 4096 ∧ cacheCapacityBytes AppConfig_default ≤ kMaxSaneCapacityBytes.
Proof.
  exact (loaded_config_accepted "config" (Some default_text) AppConfig_default store0 journal0 default_loads).
Defined.

(** An old configuration on the disk, and a disk whose second [write] fails. *)
Definition disk0 (fs : list Fault) : Disk := mkDisk {[ 0%nat := mkINode b1 [] ]} {[ "config"%string := 0%nat ]} [] fs.

Lemma disk0_ok fs : disk_ok (disk0 fs) "config".
Proof.
  assert (∀ p, stored_dir (disk0 fs) p → p = {[ "config"%string := 0%nat ]}) as Hp.
  { intros p (st & lost & El & ->). cbn in El. symmetry in El. by apply app_eq_nil in El as [-> ->]. }
  split.
  - intros p name ino Hs E. apply Hp in Hs as ->. apply lookup_singleton_Some in E as [_ <-]. by eexists.
  - intros p ino E _. by rewrite (Hp _ (stored_dir_current _)) in E.
Qed.

Definition faults0 : list Fault := [NoFault; Short 9; Fails].
Definition saved0 : list Disk * Outcome (Result unit) * Disk :=
  Save (json := Members) "config" AppConfig_default (disk0 faults0).

Lemma Save_is_atomic_witness :
  let '(trace, r, d') := saved0 in
  disk_ok d' "config" ∧
  (∀ di found, di ∈ trace → disk_crash di "config" found →
     disk_crash (disk0 faults0) "config" found ∨
     Load (json := Members) "config" (bytes_str <$> found) = Success AppConfig_default) ∧
  ∃ res, r = Returned res ∧
    match res with
    | Success _ =>
      Load (json := Members) "config" (bytes_str <$> read_name d' "config") = Success AppConfig_default ∧
      (disk_faults (disk0 faults0) = [] → ¬ in_root "config" → ∀ found, disk_crash d' "config" found →
         Load (json := Members) "config" (bytes_str <$> found) = Success AppConfig_default)
    | Failure e => read_name d' "config" = read_name (disk0 faults0) "config" ∧
                   code e = ErrorCode.IoError ∧ disk_faults (disk0 faults0) ≠ []
    end.
Proof.
  destruct saved0 as [[trace r] d'] eqn:E.
  exact (Save_is_atomic (json := Members) "config" AppConfig_default (disk0 faults0) trace r d'
           default_typed default_valid default_ascii (disk0_ok faults0) E).
Defined.

(** The second [write] fails: the file is as it was, the temporary one is gone. *)
Example Save_fails_cleanly :
  let '(trace, r, d') := saved0 in
  length trace = 4%nat ∧ read_name d' "config" = Some b1 ∧ dir d' !! "config.tmp"%string = None.
Proof. vm_compute. done. Qed.

(** A file of the root directory: the code opens "" for its directory, which
    fails, and syncs nothing.  A [Save] that succeeds, on a disk without faults,
    is undone by a power cut. *)
Definition root_disk : Disk := mkDisk {[ 0%nat := mkINode b1 [] ]} {[ "/config"%string := 0%nat ]} [] [].
Definition root_saved : list Disk * Outcome (Result unit) * Disk :=
  Save (json := Members) "/config" AppConfig_default root_disk.

Example root_directory_not_synced :
  snd (fst root_saved) = Returned (Success tt) ∧ disk_crash (snd root_saved) "/config" (Some b1).
Proof.
  split; [by vm_compute|]. exists [], (dir_unsynced (snd root_saved)). split; [done|].
  assert (dir_of (dir_stable (snd root_saved)) [] !! "/config"%string = Some 0%nat) as -> by by vm_compute.
  exists (mkINode b1 []), b1. split; [by vm_compute|]. split; [|done]. apply FILE_crash_self.
Qed.

(** In any other directory the same [Save] stays. *)
Example other_directory_synced :
  dir_unsynced (snd (Save (json := Members) "etc/config" AppConfig_default root_disk)) = [].
Proof. by vm_compute. Qed.

(** On Windows, with the move of the file failing: the old configuration under
    the wide name, a temporary name that is free. *)
Definition utf8_wide : string → option wstring := λ s, Some (WideFromNarrow s).
Definition wide_config : string := entry (NarrowPathToWide utf8_wide "config").
Definition wide_temp : string := entry (temp_wide (NarrowPathToWide utf8_wide "config") 7).
Definition disk1 (fs : list Fault) : Disk := mkDisk {[ 0%nat := mkINode b1 [] ]} {[ wide_config := 0%nat ]} [] fs.
Definition saved1 (fs : list Fault) : list Disk * Outcome (Result unit) * Disk :=
  SaveOnWindows (json := Members) utf8_wide (λ _, 5) "config" AppConfig_default 7 (disk1 fs).

Lemma SaveOnWindows_is_durable_witness :
  let '(trace, r, d') := saved1 [NoFault; Short 9] in
  let found_new found := Load (json := Members) "config" (bytes_str <$> found) = Success AppConfig_default in
  disk_wf d' ∧
  (∀ di found, di ∈ trace → disk_crash di wide_config found →
     disk_crash (disk1 [NoFault; Short 9]) wide_config found ∨ found_new found) ∧
  ∃ res, r = Returned res ∧
    match res with
    | Success _ => found_new (read_name d' wide_config) ∧ ∀ found, disk_crash d' wide_config found → found_new found
    | Failure e => read_name d' wide_config = read_name (disk1 [NoFault; Short 9]) wide_config ∧
                   code e = ErrorCode.IoError ∧
                   (disk_faults (disk1 [NoFault; Short 9]) ≠ [] ∨
                    ∃ text, Save_serialize (json := Members) AppConfig_default = Returned (Success text) ∧
                            io_limit ≤ zlen (str_bytes text))
    end.
Proof.
  destruct (saved1 [NoFault; Short 9]) as [[trace r] d'] eqn:E.
  assert (∀ p, stored_dir (disk1 [NoFault; Short 9]) p → p = {[ wide_config := 0%nat ]}) as Hp.
  { intros p (st & lost & El & ->). cbn in El. symmetry in El. by apply app_eq_nil in El as [-> ->]. }
  refine (SaveOnWindows_is_durable (json := Members) utf8_wide (λ _, 5) "config" AppConfig_default 7
            (disk1 [NoFault; Short 9]) trace r d' default_typed default_valid default_ascii _ _ E).
  - intros p name ino Hs En. apply Hp in Hs as ->. apply lookup_singleton_Some in En as [_ <-]. by eexists.
  - intros p ino En _. rewrite (Hp _ (stored_dir_current _)) in En. vm_compute in En. discriminate.
Defined.

(** The write that falls short fails cleanly; without faults the save is in
    place and the temporary file gone. *)
Example SaveOnWindows_short_write :
  let '(trace, r, d') := saved1 [NoFault; Short 9] in
  r = Returned (win32_io_failure "AtomicallyReplaceFileContents: WriteFile (temp) failed" 5) ∧
  read_name d' wide_config = Some b1 ∧ dir d' !! wide_temp = None.
Proof. vm_compute. done. Qed.

Example SaveOnWindows_succeeds :
  let '(trace, r, d') := saved1 [] in
  r = Returned (Success tt) ∧ dir_unsynced d' = [] ∧ dir d' !! wide_temp = None ∧
  (bytes_str <$> read_name d' wide_config) = Some default_text.
Proof. vm_compute. done. Qed.

(** ** The user interface *)

(** The reply of the service in two pieces, cut inside its payload. *)
Definition reply0 : bytes := EncodeStatusResponse (status_payload service0).
Definition reply_pipe : Chunks := [take 4 reply0; take 10 (drop 4 reply0); drop 14 reply0].

Lemma FetchStatus_shows_witness :
  ∃ st p', FetchStatus (Some reply_pipe) = (Some st, Some p') ∧ payload_of st = status_payload service0.
Proof.
  destruct (FetchStatus_shows (F := FILE) hash0 reply_pipe) as [_ HS].
  destruct (HS service0 reply_pipe [take 10 (drop 4 reply0); drop 14 reply0] reply0 []) as (p' & st & E & Hst).
  - vm_compute. reflexivity.
  - vm_compute. reflexivity.
  - vm_compute. reflexivity.
  - vm_compute. reflexivity.
  - repeat (apply Forall_cons_2; [done|]). apply Forall_nil_2.
  - exists st, p'. by split.
Defined.

(** ** The start of the process *)

(** No configuration file: the paths of the default configuration, where a power
    cut left the files of an engine with an unflushed write. *)
Definition open0 (path : wstring) (mode : OpenMode.OpenMode) : Result FILE :=
  if bool_decide (path = marker_path AppConfig_default) then Success (marker_bytes 1 7 0)
  else if bool_decide (path = journal_path AppConfig_default) then Success (journal_file engine2)
  else Success (data_file engine2).

Lemma restart_after_power_cut_witness :
  let '(r, s) := ServiceStart (json := Members) hash0 order0 None 8 open0 in
  ∃ ds, (∀ k, invalidated ds k = false) ∧
  (r = Success tt → ∃ rm e2, s = mkService (Some rm) (Some e2) ∧ EngineFacts.engine_ok hash0 e2 ∧ durable hash0 e2 ds ∧
     ∀ k, invalidated ds k = false → view hash0 e2 k = view hash0 engine2 k) ∧
  ((∀ k, invalidated ds k = false) → r = Success tt).
Proof.
  destruct (ServiceStart _ _ _ _ _) as [r s] eqn:E. destruct engine2_durable as (ds & Hd & Hn).
  exists ds. split; [exact Hn|].
  refine (restart_after_power_cut (json := Members) hash0 order0 order0_perm None 8 open0 engine2 ds (marker_bytes 1 7 0)
            (journal_file engine2) (data_file engine2) (mkSessionMarkerData 1 7 false) r s engine2_ok Hd
            store0_clean _ _ _ (next_files_stable engine2 _) (FILE_of_reliable _) _ eq_refl E);
    vm_compute; reflexivity.
Defined.

Example start_with_defaults :
  match ServiceStart (json := Members) hash0 order0 None 8 open0 with
  | (Success _, mkService (Some _) (Some e)) => view hash0 e "k" = Some b1 ∧ length (shards_ e) = 16%nat
  | _ => False
  end.
Proof. vm_compute. by split. Qed.

Definition files0 : FileSystem := mkFileSystem {["f"%string := b1]} [].

Lemma OpenFile_modes_witness :
  let '(r, fs') := OpenFile files0 (L "f") OpenMode.OpenOrCreate in
  r = Success (FILE_of b1) ∧ fs_files fs' = fs_files files0.
Proof.
  destruct (OpenFile files0 (L "f") OpenMode.OpenOrCreate) as [r fs'] eqn:E.
  destruct (OpenFile_modes files0 (L "f") OpenMode.OpenOrCreate r fs' E) as [HO _].
  destruct (HO eq_refl) as [_ HR].
  assert (fs_files files0 !! NarrowPath (L "f") = Some b1) as Hf by (vm_compute; reflexivity).
  rewrite Hf in HR. exact HR.
Defined.
