(* ===== verification/Win32Examples.v ===== *)
(** * Win32Examples: the Win32 calls on a concrete medium

    A handle over the medium of Storage.v, whose calls fail where an oracle
    says, meets the documentation [Win32FileDoc] asks for; the theorems that
    assume it are applied to it here. *)
From stdpp Require Import gmap.
From S2P Require Import Prelude Common Wire Storage Config Win32File Win32Open.
Open Scope Z_scope.

Record Handle := mkHandle { medium : FILE; last_error : Z }.

Definition ERROR_NEGATIVE_SEEK : Z := 131.
Definition ERROR_IO_DEVICE : Z := 1117.

Definition hReadFile (h : Handle) (n : Z) : option bytes * Handle :=
  let '(x, fp) := next_fault (medium h) in
  match x with
  | None => let got := slice (FILE_content fp) (fpos_Z fp) n in
            (Some got, mkHandle (with_pos fp (fpos_Z fp + zlen got)) 0)
  | Some _ => (None, mkHandle fp ERROR_IO_DEVICE)
  end.

Definition hWriteFile (h : Handle) (buffer : bytes) (n : Z) : option Z * Handle :=
  let '(x, fp) := next_fault (medium h) in
  let k := match x with None => Z.to_nat n | Some k => min k (Z.to_nat n) end in
  let fp := with_op fp (OpWrite (fpos_Z fp) (take k buffer)) in
  match x with
  | None => (Some n, mkHandle (with_pos fp (fpos_Z fp + n)) 0)
  | Some _ => (None, mkHandle fp ERROR_IO_DEVICE)
  end.

Definition hSetFilePointerEx (h : Handle) (distance : Z) (fromEnd : bool) : option Z * Handle :=
  let '(x, fp) := next_fault (medium h) in
  let target := (if fromEnd then zlen (FILE_content fp) else 0) + distance in
  match x with
  | Some _ => (None, mkHandle fp ERROR_IO_DEVICE)
  | None => if target <? 0 then (None, mkHandle fp ERROR_NEGATIVE_SEEK)
            else (Some target, mkHandle (with_pos fp target) 0)
  end.

Definition hGetFileSizeEx (h : Handle) : option Z * Handle :=
  let '(x, fp) := next_fault (medium h) in
  match x with
  | Some _ => (None, mkHandle fp ERROR_IO_DEVICE)
  | None => (Some (zlen (FILE_content fp)), mkHandle fp 0)
  end.

Definition hSetEndOfFile (h : Handle) : bool * Handle :=
  let '(x, fp) := next_fault (medium h) in
  match x with
  | Some _ => (false, mkHandle fp ERROR_IO_DEVICE)
  | None => (true, mkHandle (with_op fp (OpLength (fpos_Z fp))) 0)
  end.

Definition hFlushFileBuffers (h : Handle) : bool * Handle :=
  let '(x, fp) := next_fault (medium h) in
  match x with
  | Some _ => (false, mkHandle fp ERROR_IO_DEVICE)
  | None => (true, mkHandle (mkFILE (FILE_content fp) [] (fpos fp) (errflag fp) (faults fp)) 0)
  end.

#[export] Instance Handle_api : Win32FileApi Handle := {
  ReadFile := hReadFile;
  WriteFile := hWriteFile;
  SetFilePointerEx := hSetFilePointerEx;
  GetFileSizeEx := hGetFileSizeEx;
  SetEndOfFile := hSetEndOfFile;
  FlushFileBuffers := hFlushFileBuffers;
  GetLastError := last_error;
  handle_content h := FILE_content (medium h)
}.

(** The oracle changes nothing but itself; with no fault left it says so. *)
Lemma next_fault_still fp x fp1 :
  next_fault fp = (x, fp1) →
  same_file fp fp1 ∧ fpos_Z fp1 = fpos_Z fp ∧ (faults fp = [] → x = None ∧ faults fp1 = []).
Proof.
  intros E. split; [by eapply next_fault_same|].
  unfold next_fault in E. destruct (faults fp) as [|y ys] eqn:Ef; injection E as <- <-; by split.
Qed.

Ltac handle_call :=
  let x := fresh "x" in let fp := fresh "fp" in let E := fresh "E" in
  let S := fresh "S" in let P := fresh "P" in let N := fresh "N" in
  match goal with |- context [next_fault ?f] =>
    destruct (next_fault f) as [x fp] eqn:E; destruct (next_fault_still _ _ _ E) as (S & P & N)
  end;
  pose proof (same_file_content _ _ S); pose proof (same_file_crash _ _ S).

#[export] Program Instance Handle_doc : Win32FileDoc Handle := {
  handle_pos h := fpos_Z (medium h);
  handle_images h := FILE_crash (medium h);
  handle_sound h := faults (medium h) = []
}.
Next Obligation. intros h. unfold fpos_Z. lia. Qed.
Next Obligation. intros h. apply FILE_crash_self. Qed.
Next Obligation.
  intros h n r h' Hn. cbn. unfold hReadFile. handle_call. destruct x as [k|]; intros [= <- <-]; cbn.
  - split_and!; try done. intros Hs. by destruct (N Hs).
  - rewrite H, P. split_and!; try done.
    + intros bs [= <-]. split; [done|]. pose proof (zlen_nonneg (slice (FILE_content (medium h)) (fpos_Z (medium h)) n)).
      unfold fpos_Z in *. cbn. lia.
    + intros Hs. split; [done|]. by apply N.
Qed.
Next Obligation.
  intros h buffer n r h' Hn Hle. cbn. unfold hWriteFile. handle_call.
  set (k := match x with None => Z.to_nat n | Some k => min k (Z.to_nat n) end).
  assert (Z.of_nat k ≤ n) as Hk by (unfold k; destruct x; lia).
  set (fp1 := with_op fp (OpWrite (fpos_Z fp) (take k buffer))).
  assert (FILE_content fp1 = write_at (FILE_content (medium h)) (fpos_Z (medium h)) (take k buffer)) as C.
  { unfold fp1, FILE_content at 1. cbn [with_op stable unsynced]. rewrite foldl_app. cbn [foldl apply_op].
    rewrite P. f_equal. exact H. }
  assert (∀ d, FILE_crash fp1 d → ∃ d0 j, (j ≤ k)%nat ∧ FILE_crash (medium h) d0 ∧
            d = write_at d0 (fpos_Z (medium h)) (take j buffer)) as I.
  { intros d Hd. destruct (torn_write_take _ _ _ _ Hd) as (d0 & j & Hj & Hd0 & ->).
    rewrite length_take in Hj. exists d0, (min j k). split; [lia|]. split; [by apply H0|].
    by rewrite P, take_take. }
  destruct x as [j|]; intros [= <- <-]; cbn [medium]; split.
  - exists k. split_and!; try done. intros d Hd. destruct (I d Hd) as (d0 & i & ? & ? & ?). by exists d0, i.
  - intros Hs. by destruct (N Hs).
  - exists k. split_and!; try done; [intros d Hd; destruct (I d Hd) as (d0 & i & ? & ? & ?); by exists d0, i|].
    intros w [= <-]. unfold fpos_Z in *. cbn. unfold k. lia.
  - intros Hs. split; [done|]. cbn. by apply N.
Qed.
Next Obligation.
  intros h distance fromEnd r h'. cbn. unfold hSetFilePointerEx. handle_call. rewrite H.
  set (target := _ + distance). destruct x as [k|]; [|destruct (Z.ltb_spec target 0)]; intros [= <- <-]; cbn.
  - split_and!; try done. intros Hs. by destruct (N Hs).
  - split_and!; try done. intros Hs. split; [by apply N|lia].
  - split_and!; try done.
    + intros p [= <-]. split; [done|]. unfold fpos_Z. cbn. lia.
    + intros Hs. split; [by apply N|done].
Qed.
Next Obligation.
  intros h r h'. cbn. unfold hGetFileSizeEx. handle_call. destruct x as [k|]; intros [= <- <-]; cbn.
  - split_and!; try done. intros Hs. by destruct (N Hs).
  - split_and!; try done; [intros n [= <-]; by rewrite H|]. intros Hs. split; [done|]. by apply N.
Qed.
Next Obligation.
  intros h ok h'. cbn. unfold hSetEndOfFile. handle_call. destruct x as [k|]; intros [= <- <-]; cbn [medium].
  - split_and!; try done; [intros d Hd; left; by apply H0|]. intros Hs. by destruct (N Hs).
  - split_and!.
    + intros d Hd. destruct (FILE_crash_snoc _ _ _ Hd) as [?|[->|(o' & Ht & _)]].
      * left. by apply H0.
      * right. exists (FILE_content (medium h)). split; [apply FILE_crash_self|]. intros _.
        unfold FILE_content at 1. cbn [with_op stable unsynced]. rewrite foldl_app. cbn [foldl apply_op].
        rewrite P. f_equal. exact H.
      * inversion Ht.
    + intros _. unfold FILE_content at 1. cbn [with_op stable unsynced]. rewrite foldl_app. cbn [foldl apply_op].
      rewrite P. f_equal. exact H.
    + intros Hs. split; [done|]. cbn. by apply N.
Qed.
Next Obligation.
  intros h ok h'. cbn. unfold hFlushFileBuffers. handle_call. destruct x as [k|]; intros [= <- <-]; cbn [medium].
  - split_and!; try done; [intros d Hd; by apply H0|]. intros Hs. by destruct (N Hs).
  - split_and!; [exact H| |].
    + intros d. rewrite <- H. apply FILE_crash_fsync.
    + intros Hs. split; [done|]. cbn. by apply N.
Qed.

(** ** The builds on a journal-like sequence of calls *)

Definition hello : bytes := str_bytes "hello"%string.
Definition calls : list FileCall :=
  [CallSeek 0 true; CallWrite hello; CallFlushDurable; CallSeek 1 false; CallRead 10;
   CallSetLength 3; CallSize; CallFlushDurable].

Definition agreed : option (list FileAnswer * RefFile) :=
  Eval vm_compute in ref_run (mkRefFile [] None false) calls.

Example calls_answers :
  agreed = Some ([Number (Success 0); Number (Success 5); Ack (Success tt); Number (Success 1);
                  Bytes (Success (str_bytes "ello"%string)); Ack (Success tt); Number (Success 3); Ack (Success tt)],
                 mkRefFile (str_bytes "hel"%string) None true).
Proof. vm_compute. reflexivity. Qed.


(** ** Opening files *)

Definition volume0 (faults : list Z) : Win32Open.Volume :=
  Win32Open.mkVolume {[ L "journal" := str_bytes "records" ]} ∅ 0 faults.

Definition openings0 : list Win32Open.Op :=
  [Win32Open.OpOpen (L "journal") OpenMode.OpenOrCreate; Win32Open.OpOpen (L "marker") OpenMode.OpenOrCreate;
   Win32Open.OpClose 1].

(** A second process asks for the journal while the first has it. *)
Lemma OpenFile_exclusive_witness :
  let '(r, v') := Win32Open.OpenFile id (L "journal") OpenMode.OpenOrCreate (Win32Open.run id (volume0 []) openings0) in
  Win32Open.open_post id (L "journal") OpenMode.OpenOrCreate (Win32Open.run id (volume0 []) openings0) r v' ∧
  Win32Open.volume_ok v' ∧
  (∀ name bs, Win32Open.v_files (volume0 []) !! name = Some bs → Win32Open.v_files v' !! name = Some bs).
Proof.
  assert (Win32Open.volume_ok (volume0 [])) as Hok by (split; intros *; cbn; rewrite ?lookup_empty; discriminate).
  destruct (Win32Open.OpenFile id (L "journal") OpenMode.OpenOrCreate _) as [r v'] eqn:E.
  exact (Win32Open.OpenFile_exclusive id openings0 (volume0 []) (L "journal") OpenMode.OpenOrCreate r v' Hok E).
Defined.

Example journal_is_refused :
  let v := Win32Open.run id (volume0 []) openings0 in
  (Win32Open.OpenFile id (L "journal") OpenMode.OpenOrCreate v).1 =
    Failure (mkError ErrorCode.Win32ApiFailure "CreateFileW failed" Win32Open.ERROR_SHARING_VIOLATION) ∧
  (Win32Open.OpenFile id (L "marker") OpenMode.OpenOrCreate v).1 = Success 1%nat.
Proof. vm_compute. done. Qed.
