(* ===== verification/HostExamples.v ===== *)
(** * HostExamples: the process and its pipe server at work

    A scheduler for the process of ServiceProcess.v and its runs on new files,
    with a request of a client under way; a client that connects at once and a
    shutdown before a client comes; a service installed and removed; a logger
    with two sinks; the theorems of ServiceProcess.v, PipeServer.v, Installer.v
    and Logging.v applied to them. *)
From S2P Require Import Prelude Common Wire RecordCodec Scan Storage Journal Marker Recovery.
From S2P Require Import Store Shard Engine EngineFacts Durability Client Lifecycle Service Ipc Requests.
From S2P Require Import Config ServiceHost IpcThread PipeServer Installer Logging Threads Interleaving ServiceThreads.
From S2P Require Import ServiceProcess Examples.
Import EntryDirtyState EngineLifecycle ServiceState Control.
Open Scope Z_scope.

(** A control manager that follows its documentation. *)
Definition may_send0 (st : SERVICE_STATUS) (c : Control) : bool :=
  if ends_service c then bool_decide (dwCurrentState st = SERVICE_RUNNING) && acceptsControls st else true.

Lemma may_send0_accepts st c : may_send0 st c = true → ends_service c = true → acceptsControls st = true.
Proof. unfold may_send0. intros Hs Hc. rewrite Hc in Hs. by apply andb_true_iff in Hs as [_ Hs]. Qed.

Lemma may_send0_running st c :
  may_send0 st c = true → ends_service c = true → dwCurrentState st = SERVICE_RUNNING.
Proof.
  unfold may_send0. intros Hs Hc. rewrite Hc in Hs. apply andb_true_iff in Hs as [Hs _].
  by apply bool_decide_eq_true in Hs.
Qed.

Abbreviation Sys0 := (System (Process (F := FILE))).

Definition callbacks0 : ServiceCallbacks (Process (F := FILE)) :=
  service_callbacks hash0 order0 options0 7 (Success (FILE_of [])) (Success (FILE_of [])) (Success (FILE_of [])) true.

Inductive Move := MainRuns | HandlerRuns | Sends (c : Control) | Pipe (ev : Event) | TheFlusher (ev : Event) | Callback.

Definition other_moves (a : Move) (w : Process (F := FILE)) : option (Process (F := FILE)) :=
  match a with
  | Pipe ev => pipe_step hash0 ev w
  | TheFlusher ev => flusher_step hash0 ev w
  | Callback => callback_step hash0 9 CallbackRuns w
  | _ => None
  end.

Definition move (a : Move) (s : Sys0) : option Sys0 :=
  match a with
  | MainRuns => '(m, h) ← main_step callbacks0 true 0 (main s) (host s); Some (mkSystem m (handler s) h)
  | HandlerRuns => '(p, h) ← handler_step callbacks0 (handler s) (host s); Some (mkSystem (main s) p h)
  | Sends c =>
    match handler s, reported (host s) with
    | idle, st :: _ => if may_send0 st c then Some (mkSystem (main s) (entered c) (host s)) else None
    | _, _ => None
    end
  | a => w ← other_moves a (process (host s)); Some (mkSystem (main s) (handler s) (with_process (host s) w))
  end.

Fixpoint moves (l : list Move) (s : Sys0) : option Sys0 :=
  match l with
  | [] => Some s
  | a :: l => s ← move a s; moves l s
  end.

Abbreviation step0 := (sys_step callbacks0 true 0 may_send0 (process_step hash0 9)).

Lemma other_moves_step a w w' : other_moves a w = Some w' → process_step hash0 9 w w'.
Proof.
  destruct a as [| |c|ev|ev|]; intros E; try done; [exists ev; by left|exists ev; right; by left|].
  exists CallbackRuns. right. by right.
Qed.

Lemma moves_reach l : ∀ s s', moves l s = Some s' → rtc step0 s s'.
Proof.
  induction l as [|a l IH]; intros s s'; cbn [moves]; [by intros [= ->]|].
  destruct (move a s) as [s1|] eqn:E; [cbn|done]. intros Hm. eapply rtc_l; [|by apply IH]. clear Hm.
  destruct s as [m p h]. unfold move in E. cbn [main handler host] in E.
  assert (∀ a', (w ← other_moves a' (process h); Some (mkSystem m p (with_process h w))) = Some s1 →
    step0 (mkSystem m p h) s1) as Hother.
  { intros a'. destruct (other_moves a' _) as [w|] eqn:Ew; [|done]. intros [= <-].
    apply step_other. by apply (other_moves_step a'). }
  destruct a as [| |c|ev|ev|]; [| | |by eapply Hother..].
  - destruct (main_step _ _ _ m h) as [[m' h']|] eqn:Em; [|done]. injection E as <-. by constructor.
  - destruct (handler_step _ p h) as [[p' h']|] eqn:Eh; [|done]. injection E as <-. by constructor.
  - destruct p; try done. destruct (reported h) as [|st earlier] eqn:Er; [done|].
    destruct (may_send0 st c) eqn:Ec; [|done]. injection E as <-. by eapply step_control.
Qed.

Definition start0 : Sys0 := sys_start nothing_started.

(** The state some moves lead to. *)
Definition after (l : list Move) (s : Sys0) : Sys0 := default s (moves l s).
Abbreviation at_ l := (after l start0).

(** Whether all the moves can be made. *)
Definition possible (l : list Move) (s : Sys0) : bool := match moves l s with Some _ => true | None => false end.

Lemma moves_reached l s : possible l s = true → rtc step0 s (after l s).
Proof. unfold possible, after. destruct (moves l s) eqn:E; [|done]. intros _. by apply (moves_reach l). Qed.

Lemma at_reached l : possible l start0 = true → rtc step0 start0 (at_ l).
Proof. apply moves_reached. Qed.

(** A client connects and asks for an invalidation as soon as the pipe thread
    runs; the service reports that it is running in the middle of it. *)
Definition invalidate_k : bytes := EncodeInvalidateKeyRequest (mkInvalidateKey "k").
Definition asked : list Move :=
  [Pipe PipeRuns; Pipe (Accepted (Success tt)); Pipe PipeRuns; Pipe (Received (Success invalidate_k));
   Pipe PipeRuns; Pipe PipeRuns; Pipe PipeRuns].

Definition started : list Move := replicate 3 MainRuns ++ asked ++ [MainRuns].
Definition answered : list Move := replicate 5 (Pipe PipeRuns).
Definition stopped : list Move :=
  started ++ [Sends SERVICE_CONTROL_STOP; HandlerRuns; HandlerRuns; Callback] ++ answered ++
  [Pipe PipeRuns; Pipe PipeRuns] ++ replicate 23 Callback ++ [HandlerRuns; HandlerRuns; MainRuns; MainRuns].
Definition preshutdown : list Move := started ++ [Sends SERVICE_CONTROL_PRESHUTDOWN; HandlerRuns].

Example stopped_reports :
  map dwCurrentState (reported (host (at_ stopped))) =
  [SERVICE_STOPPED; SERVICE_STOP_PENDING; SERVICE_RUNNING; SERVICE_START_PENDING].
Proof. vm_compute. reflexivity. Qed.

Lemma running_service_serves_witness :
  ∃ rm sh, p_recoveryManager (process (host (at_ started))) = Some rm ∧ p_engine (process (host (at_ started))) = Some sh ∧
    CurrentState rm = RecoveryState.RecoveryComplete ∧ lifecycle_ (engine_ sh) = Ready ∧
    (inFlightWriteCount_ (engine_ sh) = 0 ∨
     inFlightWriteCount_ (engine_ sh) = 1 ∧
     ∃ request, g_ipcThread (process (host (at_ started))) = pipe_serving request ∧ returned request = None).
Proof.
  refine (running_service_serves hash0 order0 options0 7 9 (Success (FILE_of [])) (Success (FILE_of []))
            (Success (FILE_of [])) true true 0 may_send0 (at_ started) may_send0_accepts (at_reached started _) _).
  - vm_compute. reflexivity.
  - vm_compute. reflexivity.
Defined.

(** There the invalidation is in flight, and has ended some blocks later. *)
Example invalidation_in_flight :
  (λ sh, inFlightWriteCount_ (engine_ sh)) <$> p_engine (process (host (at_ started))) = Some 1 ∧
  (λ sh, inFlightWriteCount_ (engine_ sh)) <$> p_engine (process (host (at_ (started ++ answered)))) = Some 0.
Proof. by vm_compute. Qed.

(** The stop is handled up to the return of its callback. *)
Definition stop_returned : list Move := take (length stopped - 4) stopped.
Definition returns (s : Sys0) : bool := match callback_leave (process (host s)) with Some _ => true | None => false end.

Lemma returns_leave s : returns s = true → ∃ r w', callback_leave (process (host s)) = Some (r, w').
Proof. unfold returns. destruct (callback_leave _) as [[r w']|]; [eauto|done]. Qed.

Lemma stopped_service_was_stopped_witness :
  (∃ sh, p_engine (process (host (at_ stopped))) = Some sh ∧ lifecycle_ (engine_ sh) = Stopped ∧
     pipe_gone (g_ipcThread (process (host (at_ stopped)))) = true) ∧
  ∃ s' st, rtc step0 (at_ stop_returned) s' ∧
    head (reported (host s')) = Some st ∧ dwCurrentState st = SERVICE_STOPPED.
Proof.
  assert (possible stopped start0 = true) as H1 by (vm_compute; reflexivity).
  assert (possible stop_returned start0 = true) as H2 by (vm_compute; reflexivity).
  assert (returns (at_ stop_returned) = true) as H3 by (vm_compute; reflexivity).
  pose proof (stopped_service_was_stopped hash0 order0 options0 7 9 (Success (FILE_of [])) (Success (FILE_of []))
    (Success (FILE_of [])) true true 0 may_send0) as HT.
  split.
  - destruct (HT _ may_send0_running (at_reached _ H1)) as [HS _].
    destruct (HS (mkStatus SERVICE_STOPPED NO_ERROR 0 true 0)) as [(rm & sh & _ & Hs & Hl & _ & _ & Hg) _];
      [vm_compute; reflexivity|reflexivity|reflexivity|]. exists sh. split; [exact Hs|]. split; [exact Hl|exact Hg].
  - destruct (HT _ may_send0_running (at_reached _ H2)) as [_ HC].
    destruct (returns_leave _ H3) as (r & w' & E).
    destruct (HC SERVICE_CONTROL_STOP r w') as (s' & st & Hs' & _ & Hst & Hx & _); [discriminate|vm_compute; reflexivity|exact E|].
    exists s', st. split; [exact Hs'|]. split; [exact Hst|exact Hx].
Defined.

(** The callback has run, the request was answered meanwhile, and the manager
    has asked how the service does. *)
Definition settling : list Move :=
  [HandlerRuns] ++ answered ++ replicate 13 Callback ++ [HandlerRuns; Sends SERVICE_CONTROL_INTERROGATE; HandlerRuns].
Abbreviation settled := (after settling (at_ preshutdown)).

Lemma preshutdown_never_stops_witness :
  rtc step0 (at_ preshutdown) settled ∧ last_state settled = Some SERVICE_STOP_PENDING ∧ handler settled = idle.
Proof.
  assert (possible preshutdown start0 = true) as H1 by (vm_compute; reflexivity).
  assert (handler (at_ preshutdown) = reported_pending SERVICE_CONTROL_PRESHUTDOWN) as H2 by (vm_compute; reflexivity).
  assert (possible settling (at_ preshutdown) = true) as H3 by (vm_compute; reflexivity).
  pose proof (moves_reached settling (at_ preshutdown) H3) as H4.
  split; [exact H4|].
  destruct (preshutdown_never_stops hash0 order0 options0 7 9 (Success (FILE_of [])) (Success (FILE_of []))
    (Success (FILE_of [])) true true 0 may_send0 (at_ preshutdown) settled may_send0_running (at_reached _ H1) H2 H4)
    as (_ & Hl & _).
  split; [exact Hl|]. vm_compute. reflexivity.
Defined.

(** ** A client that is waiting already *)

Definition server0 : Win32NamedPipeServer := mkServer [] true.
Definition kernel0 : Kernel := mkKernel ∅ false None false 0 false.

Lemma accepts_client :
  ∃ k', exec (AcceptOnce server0) kernel0 (Success 0%nat) k' ∧ open_handles k' = {[0%nat]}.
Proof.
  set (k1 := with_descriptor kernel0 true).
  set (k2 := with_misuse (with_descriptor (with_open k1 ({[0%nat]} ∪ ∅)) false) false).
  set (k3 := with_open k2 ({[1%nat]} ∪ ({[0%nat]} ∪ ∅))).
  set (k4 := with_error k3 ERROR_PIPE_CONNECTED).
  eexists. split.
  - unfold AcceptOnce. apply (exec_call _ _ _ false kernel0); [done|].
    apply (exec_call _ _ _ true k1); [done|]. cbn [negb].
    apply (exec_call _ _ _ (Some 0%nat) (with_open k1 ({[0%nat]} ∪ ∅))); [split; [by vm_compute|done]|].
    apply (exec_call _ _ _ tt k2); [done|].
    apply (exec_call _ _ _ (Some 1%nat) k3); [split; [by vm_compute|done]|].
    apply (exec_call _ _ _ false k4); [by exists ERROR_PIPE_CONNECTED|].
    apply (exec_call _ _ _ ERROR_PIPE_CONNECTED k4); [done|].
    eapply (exec_call _ _ _ tt); [reflexivity|]. by split.
  - by vm_compute.
Qed.

Lemma AcceptOnce_leaks_nothing_witness :
  ∃ k', exec (AcceptOnce server0) kernel0 (Success 0%nat) k' ∧
        misuse k' = false ∧ open_handles k' = {[0%nat]} ∪ ∅ ∧ connecting k' = None.
Proof.
  destruct accepts_client as (k' & E & _). exists k'. split; [exact E|].
  destruct (AcceptOnce_leaks_nothing server0 kernel0 (Success 0%nat) k' eq_refl eq_refl eq_refl) as [HA _].
  destruct (HA E) as (Hu & _ & _ & Ho & Hc). split; [exact Hu|]. split; [exact Ho|exact Hc].
Defined.

Lemma RequestShutdown_ends_accepting_witness :
  ∃ r k', exec (AcceptOnce server0) (RequestShutdown server0 kernel0) r k' ∧
          (∃ msg, r = PipeServer.stopping msg) ∧ open_handles k' = ∅ ∧ stop_signalled k' = true.
Proof.
  assert (exec (AcceptOnce server0) (RequestShutdown server0 kernel0)
    (PipeServer.stopping "AcceptOnce: shutdown already requested") (RequestShutdown server0 kernel0)) as E.
  { eapply (exec_call _ _ _ true); [by split|]. by split. }
  exists (PipeServer.stopping "AcceptOnce: shutdown already requested"), (RequestShutdown server0 kernel0).
  split; [exact E|].
  exact (RequestShutdown_ends_accepting server0 kernel0 _ _ eq_refl E).
Defined.

(** ** The pipe thread *)

(** A client connects and stays silent; then the service is told to stop. *)
Definition silent_client : IpcThread.System :=
  IpcThread.mkSystem IpcThread.t_receiving IpcThread.s_requested true true
    (Some (IpcThread.mkClient None false false)) (mkService (F := FILE) None None).

Lemma silent_client_reachable : rtc (IpcThread.step hash0 0) (IpcThread.start (mkService None None)) silent_client.
Proof.
  eapply rtc_l; [left; by apply IpcThread.check_go|].
  eapply rtc_l; [right; left; by apply IpcThread.client_connects|].
  eapply rtc_l; [left; by eapply IpcThread.accept_client|].
  eapply rtc_l; [left; by apply IpcThread.accepted_client|].
  eapply rtc_l; [right; right; by apply IpcThread.stop_flags|].
  apply rtc_once. right. right. by apply IpcThread.stop_requests.
Qed.

(** The stop hangs until the client acts. *)
Lemma stop_joins_unless_client_waits_witness :
  IpcThread.waits_for_client silent_client ∧
  ∀ s', rtc (λ a b, IpcThread.thread_step hash0 a b ∨ IpcThread.stop_step hash0 0 a b) silent_client s' →
        IpcThread.waits_for_client s' ∧ IpcThread.stopper s' = IpcThread.s_requested.
Proof.
  assert (IpcThread.waits_for_client silent_client) as Hw
    by (exists (IpcThread.mkClient None false false); split; [reflexivity|]; split; [reflexivity|by left]).
  split; [exact Hw|].
  exact (proj1 (proj2 (proj2 (IpcThread.stop_joins_unless_client_waits hash0 0 (mkService None None) silent_client
           silent_client_reachable eq_refl))) Hw).
Defined.

Definition joined0 : IpcThread.System :=
  IpcThread.mkSystem IpcThread.t_exited IpcThread.s_joined true true None (mkService (F := FILE) None None).

Lemma joined0_reachable : rtc (IpcThread.step hash0 0) (IpcThread.start (mkService None None)) joined0.
Proof.
  eapply rtc_l; [right; right; by apply IpcThread.stop_flags|].
  eapply rtc_l; [right; right; by apply IpcThread.stop_requests|].
  eapply rtc_l; [left; by apply IpcThread.check_stop|].
  apply rtc_once. right. right. by apply IpcThread.stop_joins.
Qed.

Lemma stop_runs_alone_witness :
  ∃ s', rtc (IpcThread.step hash0 0) joined0 s' ∧ IpcThread.stopper s' = IpcThread.s_stopped ∧
        IpcThread.thread s' = IpcThread.t_exited.
Proof.
  eexists. assert (rtc (IpcThread.step hash0 0) joined0 (IpcThread.mkSystem IpcThread.t_exited IpcThread.s_stopped true
    true None (OnServiceStop hash0 0 (mkService (F := FILE) None None)).2)) as Hr
    by (apply rtc_once; right; right; by apply IpcThread.stop_finishes).
  split; [exact Hr|]. split; [reflexivity|].
  exact (proj1 (proj2 (IpcThread.stop_runs_alone hash0 0 (mkService None None) joined0 joined0_reachable eq_refl) _ Hr)).
Defined.

(** ** Installation *)

Definition options0 : Installer.ServiceInstallOptions :=
  Installer.mkInstallOptions (L "QuantumCache") [] (L "Cache") (L "C:\qc.exe") true.

(** Another service is marked for deletion and still running. *)
Definition scm0 (faults : list Z) : Installer.Scm :=
  Installer.mkScm
    {[ L "Old" := Installer.mkEntry (L "Old") Installer.SERVICE_DEMAND_START (L "old.exe") [] true true ]} ∅ 0 faults.

Lemma install_then_uninstall_witness :
  Installer.scm_ok (scm0 []) ∧
  let '(r1, s1) := Installer.InstallService id options0 (scm0 []) in
  let '(r2, s2) := Installer.UninstallService id (L "QuantumCache") s1 in
  r1 = Success tt ∧ r2 = Success tt ∧ Installer.services s2 = Installer.services (scm0 []) ∧
  Installer.handles s2 = Installer.handles (scm0 []).
Proof.
  assert (Installer.scm_ok (scm0 [])) as Hok.
  { split; intros k; cbn.
    - intros e He _. apply lookup_singleton_Some in He as [_ <-]. by left.
    - intros Hk. apply map_Exists_empty in Hk. done. }
  split; [exact Hok|]. pose proof (Installer.install_then_uninstall id options0 (scm0 []) Hok) as H.
  destruct (Installer.InstallService id options0 (scm0 [])) as [r1 s1].
  change (Installer.serviceName options0) with (L "QuantumCache") in H.
  destruct (Installer.UninstallService id (L "QuantumCache") s1) as [r2 s2].
  destruct H as (_ & _ & _ & _ & H). apply H; [discriminate|discriminate|reflexivity|vm_compute; reflexivity].
Defined.

(** The manager refuses a second installation, and the error is the one of
    [CreateServiceW], not of the closing that follows. *)
Example second_installation_fails :
  let '(_, s1) := Installer.InstallService id options0 (scm0 []) in
  (Installer.InstallService id options0 s1).1 =
    Failure (mkError ErrorCode.Win32ApiFailure "CreateServiceW failed" Installer.ERROR_SERVICE_EXISTS).
Proof. vm_compute. reflexivity. Qed.

(** ** Logging *)

Definition tm0 (t : Z) : Logging.Tm := Logging.mkTm 124 0 2 3 4 (Z.rem t 60).
Definition entry0 : Logging.Entry := Logging.mkEntry Logging.Warning "Ipc" "AcceptOnce failed".
Definition entry1 : Logging.Entry := Logging.mkEntry Logging.Info "Service" "starting".
Definition world0 : Logging.World :=
  Logging.mkWorld {[ 0%nat := Logging.MemoryLogSink []; 1%nat := Logging.FileLogSink (Logging.mkStream "" "" true) ]} 0.
Definition history0 : list Logging.Op :=
  [Logging.OpAddSink (Some 0%nat); Logging.OpLog entry1; Logging.OpAddSink None; Logging.OpSetMinimumLevel Logging.Warning;
   Logging.OpAddSink (Some 0%nat); Logging.OpAddSink (Some 1%nat); Logging.OpLog entry1; Logging.OpLog entry0].

Lemma sinks_get_what_is_due_witness :
  ∃ s', Logging.sinks (Logging.run (λ n, Z.of_nat n) tm0 (Logging.Logger_new Logging.Info, world0) history0).2 !! 0%nat = Some s' ∧
        Logging.got (λ n, Z.of_nat n) tm0 (Logging.due 0 Logging.Info history0) (Logging.MemoryLogSink []) s'.
Proof.
  apply (Logging.sinks_get_what_is_due (λ n, Z.of_nat n) tm0 Logging.Info history0 world0 0 (Logging.MemoryLogSink [])).
  vm_compute. reflexivity.
Defined.

(** The sink that was added twice has the last entry twice. *)
Example due_entries :
  Logging.due 0 Logging.Info history0 = [entry1; entry0; entry0] ∧ Logging.due 1 Logging.Info history0 = [entry0].
Proof. vm_compute. done. Qed.

Example a_log_line :
  Logging.line (λ _, 1704164645007) (λ _, Logging.mkTm 124 0 2 3 4 5) 0 entry0 =
    String.append "[2024-01-02T03:04:05.007Z] [WARN] [Ipc] AcceptOnce failed" Logging.newline.
Proof. vm_compute. reflexivity. Qed.
