(* ===== verification/LifeExamples.v ===== *)
(** * LifeExamples: a history of three processes

    A first start on empty files, a write, a power cut in the middle of the
    write of the data file by a flush, a second process, an orderly stop and a
    third one: the theorems of CrashPoints.v and Lifetime.v applied to it; and
    the threads of the first process, those of ServiceThreads.v. *)
From S2P Require Import Prelude Common Wire RecordCodec Scan Storage Journal Marker Recovery.
From S2P Require Import Store Shard Engine EngineFacts Durability Client Lifecycle Service Config Startup.
From S2P Require Import Ipc Requests Threads CrashPoints Lifetime Interleaving Untouched ServiceThreads.
From S2P Require Import Examples OuterExamples Races.
Import Client.
Open Scope Z_scope.

(** Three files under the paths of the default configuration. *)
Definition open_at (mf jf df : FILE) (path : wstring) (mode : OpenMode.OpenMode) : Result FILE :=
  if bool_decide (path = marker_path AppConfig_default) then Success mf
  else if bool_decide (path = journal_path AppConfig_default) then Success jf
  else Success df.

Definition boot (now : Z) (mf jf df : FILE) : Result unit * Service FILE :=
  ServiceStart (json := Members) hash0 order0 None now (open_at mf jf df).

Abbreviation Rm := (RecoveryManager (SessionMarker FILE)).

Definition process (sv : Service FILE) : Rm * FileEngine :=
  match sv with mkService (Some rm) (Some e) => (rm, e) | _ => (rm_open, engine_new) end.

Lemma boot_boots now mf jf df :
  boots (json := Members) hash0 order0 mf jf df (fst (boot now mf jf df)) (snd (boot now mf jf df)).
Proof. exists None, now, (open_at mf jf df). split_and!; [done..|apply surjective_pairing]. Qed.

(** The first process. *)
Definition empty : FILE := FILE_of [].
Definition first_rm : Rm := fst (process (snd (boot 7 empty empty empty))).
Definition first_e : FileEngine := snd (process (snd (boot 7 empty empty empty))).
Definition put_e : FileEngine := snd (run_op hash0 first_e (OpPut "k" b1)).

(** Where the power fails: the flush writes the data file. *)
Definition state0 : Shared _ _ := mkShared put_e NotStarted false.
Definition flush_moves := moves (Threads.op_prog hash0 OpFlushAll) state0.
Definition cut_at (n : nat) := default (state0, state0) (flush_moves !! n).

Lemma reopened_torn (fp : FILE) p bs n :
  unsynced fp = [OpWrite p bs] → reopened fp (FILE_of (write_at (stable fp) p (take n bs))).
Proof.
  intros Hu. constructor; [|done|intros d Hd; by apply FILE_of_synced in Hd].
  exists [], [OpWrite p bs]. split; [done|]. right. by eexists _, _, [].
Qed.

(** Ten bytes of the record of the data file reach the medium. *)
Definition cut_e : FileEngine := engine_ (fst (cut_at 6)).
Definition data_write : FILE := default empty (AppendRecord_files (backingStore_ cut_e) "k" b1 false !! 2%nat).
Definition torn_data : FILE :=
  FILE_of (write_at (stable data_write) 0 (take 10 (rec_frame (new_record (backingStore_ cut_e) "k" b1 false)))).
Definition first_marker : FILE := FILE_of (stable (marker_file (marker_ first_rm))).
Definition cut_journal_file : FILE := FILE_of (stable (file_ (journal_ cut_e))).

Definition second : Service FILE := snd (boot 8 first_marker cut_journal_file torn_data).
Definition second_rm : Rm := fst (process second).
Definition second_e : FileEngine := snd (process second).

(** The second process stops, the third starts. *)
Definition stopped2 := process (snd (OnServiceStop hash0 9 second)).
Definition third : Service FILE :=
  snd (boot 10 (FILE_of (stable (marker_file (marker_ (fst stopped2))))) (journal_file (snd stopped2)) (data_file (snd stopped2))).

Definition history : list Event :=
  [Returned (OpPut "k" b1) (Done (Success tt)); PowerCut OpFlushAll; CleanRestart].

Lemma first_alive : alive hash0 first_rm first_e [].
Proof.
  destruct (first_start (json := Members) hash0 order0 empty empty empty _
              (FILE_of_reliable []) eq_refl (reopened_stable empty) eq_refl (reopened_stable empty) eq_refl
              (boot_boots 7 empty empty empty)) as (rm & e & E & Ha & _).
  unfold first_rm, first_e. rewrite E. exact Ha.
Qed.

Lemma room_check (e : FileEngine) : (globalVersionCounter_ e <? 1000) && (entry_count e <? 1000) = true → room e 1.
Proof. unfold room. intros [? ?]%andb_true_iff. zbool. lia. Qed.

Lemma first_cut : power_cut hash0 first_rm put_e OpFlushAll first_marker cut_journal_file torn_data.
Proof.
  apply (power_cut_intro hash0 _ _ _ NotStarted false (fst (cut_at 6)) (snd (cut_at 6)) (file_ (journal_ cut_e)) data_write).
  - done.
  - rewrite <- surjective_pairing. apply (list_elem_of_lookup_2 _ 6). vm_compute. reflexivity.
  - unfold cut_e at 1. apply (cut_store _ _ "k" b1 false data_write); [done|vm_compute; reflexivity..|].
    apply (list_elem_of_lookup_2 _ 2). vm_compute. reflexivity.
  - apply reopened_stable.
  - apply reopened_stable.
  - apply (reopened_torn data_write 0). vm_compute. reflexivity.
  - vm_compute. reflexivity.
Qed.

Lemma history_life : life (json := Members) hash0 order0 (mkService (Some first_rm) (Some first_e)) history third.
Proof.
  eapply life_cons; [apply (life_op _ _ _ _ _ _ put_e); [apply room_check; vm_compute; reflexivity|done|]|].
  { vm_compute. reflexivity. }
  eapply (life_cons _ _ _ _ second); [eapply life_cut; [apply room_check; vm_compute; reflexivity|done|exact first_cut|..]|].
  { vm_compute. reflexivity. }
  { assert (fst (boot 8 first_marker cut_journal_file torn_data) = Success tt) as E by (vm_compute; reflexivity).
    rewrite <- E. apply boot_boots. }
  assert (second = mkService (Some second_rm) (Some second_e)) as -> by (vm_compute; reflexivity).
  eapply (life_cons _ _ _ _ third); [|apply life_nil].
  eapply (life_stop _ _ _ _ 9 (fst stopped2) (snd stopped2)); [apply room_check; vm_compute; reflexivity|..].
  - vm_compute. reflexivity.
  - vm_compute. reflexivity.
  - apply reopened_stable.
  - apply next_files_stable. vm_compute. reflexivity.
  - set (m := FILE_of _). assert (fst (boot 10 m (journal_file (snd stopped2)) (data_file (snd stopped2))) = Success tt) as E
      by (vm_compute; reflexivity).
    rewrite <- E. apply boot_boots.
Qed.

(** ** The theorems, applied *)

Lemma acknowledged_write_survives_witness :
  life (json := Members) hash0 order0 (mkService (Some first_rm) (Some first_e)) history third ∧
  ∃ rm e, third = mkService (Some rm) (Some e) ∧ EngineFacts.engine_ok hash0 e ∧ view hash0 e "k" = Some b1.
Proof.
  split; [exact history_life|].
  refine (acknowledged_write_survives (json := Members) hash0 order0 order0_perm first_rm first_e [] [] "k" b1
            [PowerCut OpFlushAll; CleanRestart] third first_alive history_life eq_refl _ _).
  - repeat (apply Forall_cons_2; [done|]). apply Forall_nil_2.
  - apply Forall_cons_2; [intros []|]. apply Forall_cons_2; [intros []|apply Forall_nil_2].
Defined.

Lemma life_is_a_map_witness :
  untouched history "k" ∧
  ∃ rm e ds, third = mkService (Some rm) (Some e) ∧ alive hash0 rm e ds ∧
    ∀ k, invalidated [] k = false → untouched history k →
      invalidated ds k = false ∧ key_life k history (view hash0 first_e k) (view hash0 e k).
Proof.
  split; [repeat (apply Forall_cons_2; [done|]); apply Forall_nil_2|].
  exact (life_is_a_map (json := Members) hash0 order0 order0_perm first_rm first_e [] history third first_alive history_life).
Defined.

(** The power fails while the flush appends its intent: eight bytes of the frame
    are on the medium. *)
Definition torn_e : FileEngine := engine_ (fst (cut_at 5)).
Definition journal_write : FILE := default empty (Append_files (journal_ torn_e) (Encode (intent "k" 1)) !! 2%nat).
Definition torn_journal : FILE :=
  FILE_of (write_at (stable journal_write) 46
             (take 8 (Journal.frame (nextSequenceNumber_ (journal_ torn_e)) (Encode (intent "k" 1))))).

Lemma torn_cut : power_cut hash0 first_rm put_e OpFlushAll first_marker torn_journal empty.
Proof.
  apply (power_cut_intro hash0 _ _ _ NotStarted false (fst (cut_at 5)) (snd (cut_at 5)) journal_write
           (FileBackingStore.file_ (backingStore_ torn_e))).
  - done.
  - rewrite <- surjective_pairing. apply (list_elem_of_lookup_2 _ 5). vm_compute. reflexivity.
  - unfold torn_e at 1. apply (cut_append _ _ (intent "k" 1)); [by constructor|vm_compute; reflexivity..|].
    apply (list_elem_of_lookup_2 _ 2). vm_compute. reflexivity.
  - apply reopened_stable.
  - apply (reopened_torn journal_write 46). vm_compute. reflexivity.
  - assert (FileBackingStore.file_ (backingStore_ torn_e) = empty) as -> by (vm_compute; reflexivity). apply reopened_stable.
  - done.
Qed.

Lemma alive_put (rm : Rm) (e e' : FileEngine) :
  alive hash0 rm e [] → room e 1 → run_op hash0 e (OpPut "k" b1) = (Done (Success tt), e') →
  ∃ ds, alive hash0 rm e' ds ∧ ∀ k, invalidated ds k = false.
Proof.
  intros Ha Hroom E. destruct (run_op_alive hash0 rm e [] (OpPut "k" b1) _ e' Ha Hroom ltac:(done) E) as (ds & Ha' & _ & Hk).
  exists ds. split; [done|]. intros k. by apply Hk.
Qed.

Lemma put_alive : ∃ ds, alive hash0 first_rm put_e ds ∧ ∀ k, invalidated ds k = false.
Proof.
  apply (alive_put first_rm first_e); [exact first_alive|apply room_check; vm_compute; reflexivity|vm_compute; reflexivity].
Qed.

Lemma restart_after_power_cut_anywhere_witness :
  let '(r, sv) := boot 8 first_marker torn_journal empty in
  r = Success tt ∧ ∃ rm e, sv = mkService (Some rm) (Some e) ∧ ∀ k, may_become OpFlushAll k (view hash0 put_e k) (view hash0 e k).
Proof.
  pose proof (boot_boots 8 first_marker torn_journal empty) as Hb.
  destruct (boot 8 first_marker torn_journal empty) as [r sv]. cbn [fst snd] in Hb.
  destruct put_alive as (ds & Ha & Hk).
  destruct (restart_after_power_cut_anywhere (json := Members) hash0 order0 order0_perm first_rm put_e ds OpFlushAll
              first_marker torn_journal empty r sv Ha (room_check put_e ltac:(vm_compute; reflexivity)) I torn_cut Hb)
    as [Hok Hno].
  assert (r = Success tt) as Hr by (apply Hno; [exact Hk|discriminate]). split; [exact Hr|].
  destruct (Hok Hr) as (rm & e & Hsv & _ & Hv). exists rm, e. split; [exact Hsv|]. intros k. exact (Hv k (Hk k)).
Defined.

Example torn_restart_reads :
  match boot 8 first_marker torn_journal empty with
  | (Success _, mkService (Some _) (Some e)) => fst (Engine.Get hash0 e "k") = Success b1
  | _ => False
  end.
Proof. vm_compute. reflexivity. Qed.

Lemma operation_crash_atomic_witness :
  ∃ ds, (∀ k, invalidated ds k = false) ∧
  io_step (engine_ (fst (cut_at 6))) (engine_ (snd (cut_at 6))) ∧
  ∀ e', e' = engine_ (fst (cut_at 6)) ∨ e' = engine_ (snd (cut_at 6)) →
    ∃ ds', log_is (journal_ e') ds' ∧ store_clean (backingStore_ e') ∧
      ∀ k, invalidated ds k = false →
        may_become OpFlushAll k (view hash0 (engine_ state0) k) (recovered ds' (store_map (backingStore_ e')) k).
Proof.
  destruct put_alive as (ds & Ha & Hk). exists ds. split; [exact Hk|].
  pose proof (alive_quiescent hash0 first_rm put_e ds NotStarted false Ha ltac:(discriminate)) as Hq.
  assert ((fst (cut_at 6), snd (cut_at 6)) ∈ flush_moves) as Hin.
  { rewrite <- surjective_pairing. apply (list_elem_of_lookup_2 _ 6). vm_compute. reflexivity. }
  destruct Ha as [He Hd Hc Hr _ _ _].
  exact (operation_crash_atomic hash0 state0 ds OpFlushAll (fst (cut_at 6)) (snd (cut_at 6)) He Hd Hc Hr Hq
           (room_check put_e ltac:(vm_compute; reflexivity)) I Hin).
Defined.

(** ** A write lost after a torn record *)

(** The process that starts on the torn journal, a write it acknowledges, and
    the process that starts after a second power cut. *)
Definition torn_started : FileEngine := snd (process (snd (boot 8 first_marker torn_journal empty))).
Definition torn_put := run_op hash0 torn_started (OpPut "l" b2).

(** Two power cuts lose an acknowledged write, on devices that never fail.
    The first one tears a record of the journal; the next process starts, and
    appends behind what is left of it; the write it acknowledged is read back,
    and is gone after the second power cut. *)
Theorem write_behind_torn_record_is_lost :
  fst torn_put = Done (Success tt) ∧
  fst (Engine.Get hash0 (snd torn_put) "l") = Success b2 ∧
  match boot 9 (marker_bytes 2 8 0) (journal_file (snd torn_put)) (data_file (snd torn_put)) with
  | (Success _, mkService (Some _) (Some e)) =>
    fst (Engine.Get hash0 e "k") = Success b1 ∧ fst (Engine.Get hash0 e "l") = FileBackingStore.not_found "l"
  | _ => False
  end.
Proof. vm_compute. split_and!; reflexivity. Qed.

(** ** The threads of a process *)

(** A first start with the background flusher on, and a write. *)
Definition config_periodic : AppConfig :=
  mkConfig 2 (stateDirectory AppConfig_default) (logDirectory AppConfig_default) 2 (ipcPipeName AppConfig_default)
    true (backingStoreDataFile AppConfig_default) 1000 10 2 "LeastRecentlyUsed" "WriteBackDeferred" "PeriodicBackground" 30.
Definition periodic_text : string :=
  match Save_serialize (json := Members) config_periodic with Config.Returned (Success text) => text | _ => "" end.
Definition periodic_start : Result unit * Service FILE :=
  ServiceStart (json := Members) hash0 order0 (Some periodic_text) 7 (open_at empty empty empty).
Definition periodic_rm : Rm := fst (process (snd periodic_start)).
Definition periodic_e : FileEngine := snd (run_op hash0 (snd (process (snd periodic_start))) (OpPut "k" b1)).

Lemma periodic_boots : boots (json := Members) hash0 order0 empty empty empty (fst periodic_start) (snd periodic_start).
Proof.
  assert (start_config (json := Members) (Some periodic_text) = config_periodic) as Hc by (vm_compute; reflexivity).
  exists (Some periodic_text), 7, (open_at empty empty empty). cbv zeta. rewrite Hc.
  split_and!; [done..|apply surjective_pairing].
Qed.

Lemma periodic_alive : ∃ ds, alive hash0 periodic_rm periodic_e ds ∧ ∀ k, invalidated ds k = false.
Proof.
  assert (fst periodic_start = Success tt) as Hs by (vm_compute; reflexivity).
  pose proof periodic_boots as Hb. rewrite Hs in Hb.
  destruct (first_start (json := Members) hash0 order0 empty empty empty _
              (FILE_of_reliable []) eq_refl (reopened_stable empty) eq_refl (reopened_stable empty) eq_refl Hb)
    as (rm & e & E & Ha & _).
  apply (alive_put periodic_rm (snd (process (snd periodic_start)))).
  - unfold periodic_rm. rewrite E. exact Ha.
  - apply room_check. vm_compute. reflexivity.
  - vm_compute. reflexivity.
Qed.

(** A client flushes, another one removes the key, then the pipe is closed. *)
Definition first_turns : list (Turn (P := Chunks)) :=
  [mkTurn false (Success [EncodeEmpty MessageType.FlushAllRequest]) false;
   mkTurn false (Success pipe0) false; mkTurn false (Failure (mkError ErrorCode.ServiceStopping "" 0)) false].

Example first_requests : pipe_ops first_turns = [OpFlushAll; OpForceInvalidate "k"].
Proof. vm_compute. reflexivity. Qed.

Definition first_pool := pool hash0 (service_scripts first_turns) (service_flusher periodic_e 2).

(** The request and the pre-shutdown handler both hold admission back, the
    background flusher is in its round; then the request empties the journal
    and lets admission go before the handler has emptied it again. *)
Definition first_sched : list nat := turns [(0, 16); (1, 10); (3, 9); (0, 2)]%nat.

Example first_sched_state :
  let s := snd (run_schedule first_sched first_pool (serving_state periodic_e)) in
  backgroundFlushThread_ s = Running ∧ RecordCount (journal_ (engine_ s)) = 0 ∧
  compactionPaused_ (engine_ s) = false ∧
  engine_get hash0 (engine_ s) "k" = Some (mkEntry "k" b1 1 EntryDirtyState.Clean).
Proof. vm_compute. by split_and!. Qed.

Lemma service_threads_keep_writes_witness :
  let '(ts, s') := run_schedule first_sched (pool hash0 (service_scripts first_turns) (service_flusher periodic_e 2))
                     (serving_state periodic_e) in
  ∃ ds', log_is (journal_ (engine_ s')) ds' ∧
    ∀ k en, engine_get hash0 (engine_ s') k = Some en → is_clean en = false →
      upsert k (value en) (version en) ∈ ds'.
Proof.
  destruct (run_schedule _ _ _) as [ts s'] eqn:E.
  destruct periodic_alive as (ds & Ha & Hk).
  assert (entry_count periodic_e + zlen (pipe_ops first_turns) + 6 < 2 ^ 64) as Hroom by (vm_compute; reflexivity).
  exact (proj1 (proj2 (service_threads_keep_writes hash0 periodic_rm periodic_e ds first_turns 2 first_sched ts s' Ha Hk Hroom E))).
Defined.

(** ** A key that no client changes *)

(** One client writes another key, one flushes this one and removes a third. *)
Definition other_scripts : list (list Operation) :=
  [[OpPut "l" b2; OpGet "k"]; [OpFlush "k"; OpInvalidate "m"; OpGet "k"]].
Definition other_pool := pool hash0 other_scripts (service_flusher periodic_e 2).

Lemma other_ready ds :
  alive hash0 periodic_rm periodic_e ds → (∀ k, invalidated ds k = false) →
  ready_for hash0 other_scripts (service_flusher periodic_e 2) (serving_state periodic_e).
Proof.
  intros Ha Hk. eapply alive_ready; [exact Ha|exact Hk|reflexivity|vm_compute; reflexivity| |right].
  - repeat apply Forall_cons_2; try apply Forall_nil_2; vm_compute; by split_and!.
  - assert (service_flusher periodic_e 2 = Some 2%nat) as -> by (vm_compute; reflexivity).
    intros i script. apply (Forall_lookup_1 (λ script, OpFlushAll ∉ script)). apply (bool_decide_unpack _). by vm_compute.
Qed.

Lemma other_leaves : Forall (Forall (leaves_alone "k")) other_scripts.
Proof. repeat (apply Forall_cons_2 || apply Forall_nil_2); vm_compute; by split_and!. Qed.

(** The flush is about to store the value, and the write about to append its
    record. *)
Definition other_sched : list nat := turns [(1, 3); (0, 3)]%nat.
Definition other_run := run_schedule other_sched other_pool (serving_state periodic_e).

Lemma untouched_key_keeps_value_witness :
  view hash0 (engine_ (snd other_run)) "k" = view hash0 (engine_ (serving_state periodic_e)) "k".
Proof.
  destruct periodic_alive as (ds & Ha & Hk). pose proof (other_ready ds Ha Hk) as Hr.
  destruct Ha as [He Hd Hc Hrel _ _ _]. rewrite <- (serving_engine periodic_e) in He, Hd, Hc, Hrel.
  exact (proj1 (untouched_key_keeps_value hash0 other_scripts (service_flusher periodic_e 2) (serving_state periodic_e) ds "k"
                  other_sched (fst other_run) (snd other_run) Hr He Hd Hc Hrel (Hk "k"%string) other_leaves
                  (surjective_pairing _))).
Defined.

(** The next step of a thread of the pool, as far as it goes. *)
Definition shared_default : Shared (FileBackingStore.FileBackingStore FILE) (WriteAheadJournal FILE) := serving_state periodic_e.
Definition thread_at (i : nat) := default (Ret []) (fst other_run !! i).
Definition after_step (i : nat) := default (thread_at i, shared_default) (thread_step (thread_at i) (snd other_run)).

Lemma other_next (i : nat) :
  bool_decide (is_Some (fst other_run !! i)) = true →
  match thread_step (thread_at i) (snd other_run) with Some _ => true | None => false end = true →
  next_state (fst other_run) (snd other_run) (snd (after_step i)).
Proof.
  intros Hi Hs. apply (next_step _ _ i (thread_at i) (fst (after_step i))).
  - unfold thread_at. apply bool_decide_eq_true in Hi as [p ->]. done.
  - unfold after_step. destruct (thread_step _ _) as [[p' s']|]; [done|discriminate Hs].
Qed.

(** What is on the medium: the record of the write up to its tenth byte in the
    journal, the record of the flush up to its twelfth in the data file. *)
Definition other_e : FileEngine := engine_ (snd other_run).
Definition other_append : FILE := default empty (Append_files (journal_ other_e) (Encode (upsert "l" b2 2)) !! 2%nat).
Definition other_store : FILE := default empty (AppendRecord_files (backingStore_ other_e) "k" b1 false !! 2%nat).
Definition torn_write (n : nat) (f : FILE) : FILE :=
  match unsynced f with
  | [OpWrite p bs] => FILE_of (write_at (stable f) p (take n bs))
  | _ => f
  end.

Lemma reopened_torn_write n f :
  match unsynced f with [OpWrite _ _] => true | _ => false end = true → reopened f (torn_write n f).
Proof.
  unfold torn_write. destruct (unsynced f) as [|[p bs|m] [|? ?]] eqn:E; intros Hx; try discriminate Hx.
  by apply (reopened_torn f p).
Qed.

Lemma other_cut : cut_under (fst other_run) (snd other_run) other_append other_store.
Proof.
  apply (cut_under_intro _ _ (snd (after_step 0)) (snd (after_step 1))).
  - apply other_next; vm_compute; reflexivity.
  - vm_compute. reflexivity.
  - apply (journal_append _ _ (upsert "l" b2 2)); [by constructor|vm_compute; reflexivity|].
    apply (list_elem_of_lookup_2 _ 2). vm_compute. reflexivity.
  - apply other_next; vm_compute; reflexivity.
  - apply (data_store _ _ "k" b1 false); [done|vm_compute; reflexivity|].
    apply (list_elem_of_lookup_2 _ 2). vm_compute. reflexivity.
Qed.

Definition periodic_marker : FILE := FILE_of (stable (marker_file (marker_ periodic_rm))).
Definition after_cut : Result unit * Service FILE :=
  boot 8 periodic_marker (torn_write 10 other_append) (torn_write 12 other_store).

Lemma power_cut_keeps_untouched_witness :
  ∃ rm e, snd after_cut = mkService (Some rm) (Some e) ∧ engine_ok hash0 e ∧ view hash0 e "k" = view hash0 periodic_e "k".
Proof.
  destruct periodic_alive as (ds & Ha & Hk). pose proof (other_ready ds Ha Hk) as Hr.
  assert (serving_state periodic_e = mkShared periodic_e Running false) as Es by (vm_compute; reflexivity).
  rewrite Es in Hr.
  assert (run_schedule other_sched other_pool (mkShared periodic_e Running false) = (fst other_run, snd other_run)) as E.
  { rewrite <- Es. apply surjective_pairing. }
  assert (reopened other_append (torn_write 10 other_append)) as Hj.
  { apply reopened_torn_write. vm_compute. reflexivity. }
  assert (reopened other_store (torn_write 12 other_store)) as Hd.
  { apply reopened_torn_write. vm_compute. reflexivity. }
  assert (zlen (file_content (torn_write 12 other_store)) < 2 ^ 63) as Hsz by (vm_compute; reflexivity).
  assert (fst after_cut = Success tt) as Hs by (vm_compute; reflexivity).
  assert (boots (json := Members) hash0 order0 periodic_marker (torn_write 10 other_append) (torn_write 12 other_store)
            (fst after_cut) (snd after_cut)) as Hb by apply boot_boots.
  exact (proj1 (power_cut_keeps_untouched (json := Members) hash0 order0 order0_perm periodic_rm periodic_e ds Running false
           other_scripts (service_flusher periodic_e 2) "k" other_sched (fst other_run) (snd other_run)
           other_append other_store periodic_marker _ _ (fst after_cut) (snd after_cut)
           Ha Hr (Hk "k"%string) other_leaves E other_cut (reopened_stable _) Hj Hd Hsz Hb) Hs).
Defined.
