(* ===== verification/InterfaceExamples.v ===== *)
(** * InterfaceExamples: the engine behind its interface, on concrete files

    The theorems of EngineInterface.v applied to an engine on the empty files of
    Examples.v, and what is left of a write-through [Put] outside their
    hypotheses: it may report a failure it did not have, and among other threads
    it may report success too early. *)
From S2P Require Import Prelude Common Wire RecordCodec Storage Journal Marker Recovery.
From S2P Require Import Store Shard Engine EngineFacts Durability Client Lifecycle EngineInterface Service.
From S2P Require Import Threads Interleaving Examples Races.
Import EntryDirtyState EngineLifecycle Client.
Open Scope Z_scope.

Abbreviation engine_call := (calls (H := CacheEngine_ICacheEngine hash0 order0)).

(** A client before, during and after the service of an engine. *)
Definition visit : list Call :=
  [Operate (OpPut "k" b1); CallContains "k"; Operate OpMarkRecoveryComplete; Operate (OpPut "k" b2);
   CallContains "k"; CallEntryInfo "k"; CallContains "l"; CallStatistics; Operate (OpInvalidate "k");
   Operate OpShutdown; Operate (OpGet "k")].
Definition visited := engine_call engine_new visit.

Example visit_granted :
  map granted (fst visited) = [false; false; true; true; true; true; false; true; false; true; false].
Proof. vm_compute. reflexivity. Qed.

Lemma engine_new_serves n : n < 1000 → engine_serves hash0 engine_new n.
Proof.
  intros Hn. split; [|split; [|by vm_compute]].
  - apply new_engine_ok, store0_ok.
  - apply new_room. lia.
Qed.

Lemma interface_refines_map_witness :
  EngineFacts.engine_ok hash0 (snd visited) ∧
  spec_run visit (fst visited) (NotReady, view hash0 engine_new)
    (lifecycle_ (snd visited), view hash0 (snd visited)).
Proof.
  refine (interface_refines_map hash0 order0 engine_new visit (fst visited) (snd visited) _ _ (surjective_pairing _)).
  - by apply engine_new_serves.
  - repeat constructor; vm_compute; congruence.
Defined.

(** Its owner replays the journal first. *)
Definition opening : list Call :=
  [CallReplay; Operate (OpGet "k"); Operate OpMarkRecoveryComplete; CallReplay; Operate (OpPut "k" b1)].
Definition opened := engine_call engine_new opening.

Lemma served_only_after_recovery_witness :
  map granted (fst opened) = [true; false; true; false; true] ∧
  ∃ n am, (n < 4)%nat ∧ opening !! n = Some (Operate OpMarkRecoveryComplete) ∧ fst opened !! n = Some am ∧
    ∀ h ah, (h < n)%nat → opening !! h = Some CallReplay → fst opened !! h = Some ah → granted ah = true.
Proof.
  split; [vm_compute; reflexivity|].
  refine (served_only_after_recovery hash0 order0 options0 store0 journal0 opening (fst opened) (snd opened) 4
            (Operate (OpPut "k" b1)) (Reply (Done (Success tt))) (surjective_pairing _) eq_refl _ eq_refl eq_refl).
  vm_compute. reflexivity.
Defined.

(** ** Write-through *)

Definition options_through (capacity : Z) : CacheEngineOptions :=
  mkOptions true capacity 10 WritePolicyKind.WriteThrough FlushPolicyKind.Manual 0 1.
Definition engine_through (capacity : Z) : FileEngine :=
  set_lifecycle (CacheEngine_new (options_through capacity) store0 journal0) Ready.

Lemma engine_through_ok capacity : EngineFacts.engine_ok hash0 (engine_through capacity).
Proof.
  apply (core_eq_preserves hash0 (CacheEngine_new (options_through capacity) store0 journal0)); [done|].
  apply new_engine_ok, store0_ok.
Qed.

Lemma Put_write_through_witness :
  let e' := snd (Engine.Put hash0 (engine_through 1000) "k" b1) in
  EngineFacts.engine_ok hash0 e' ∧ fst (FileBackingStore.Get (backingStore_ e') "k") = Success b1 ∧
  view hash0 e' "k" = Some b1.
Proof.
  intros e'.
  assert (Engine.Put hash0 (engine_through 1000) "k" b1 = (Success tt, e')) as E.
  { assert (fst (Engine.Put hash0 (engine_through 1000) "k" b1) = Success tt) as <- by (vm_compute; reflexivity).
    apply surjective_pairing. }
  destruct (Put_write_through hash0 (engine_through 1000) "k" b1 e') as (Hok & _ & Hv & _);
    [apply engine_through_ok|by vm_compute|by vm_compute..|done|exact E|].
  split; [exact Hok|]. split; [|exact Hv]. vm_compute. reflexivity.
Defined.

(** A write-through [Put] into a cache too small for it: the capacity relief
    stores the value and evicts the entry, and the flush that follows reports
    the missing entry.  The caller is told [NotFound]; the write is in effect. *)
Theorem write_through_reports_false_failure :
  let '(r, e') := Engine.Put hash0 (engine_through 10) "k" b1 in
  (∃ err, r = Failure err ∧ code err = ErrorCode.NotFound) ∧
  fst (FileBackingStore.Get (backingStore_ e') "k") = Success b1 ∧
  fst (Engine.Get hash0 e' "k") = Success b1.
Proof. vm_compute. split; [by eexists|]. split; reflexivity. Qed.

Definition race6 := race [OpPut "k" b1; OpFlush "k"] (engine_through 1000).

(** Among other threads a write-through [Put] may return success before its
    value is stored: it leaves the entry to a flush it finds in progress. *)
Theorem write_through_acknowledges_early :
  ∃ sched, let '(outs, e') := race6 sched in
    outs = [ok; None] ∧
    fst (FileBackingStore.Get (backingStore_ e') "k") = FileBackingStore.not_found "k".
Proof. exists (turns [(0, 5); (1, 3); (0, 8)])%nat. vm_compute. split; reflexivity. Qed.

(** ** A replay, twice *)

(** The journal of a process that wrote, and lost power before any flush. *)
Definition journal_left : WriteAheadJournal FILE := journal_ (snd (Engine.Put hash0 engine0 "k" b1)).
Abbreviation replay := (Engine.ReplayFromJournal hash0 order0).
Definition replayed_once : FileEngine := snd (replay (CacheEngine_new options0 store0 journal_left)).
Definition replayed_twice : FileEngine := snd (replay replayed_once).

Lemma journal_left_reads : log_reads journal_left [upsert "k" b1 1].
Proof.
  split; [done|]. assert (journal_records journal_left = [mkJournalRecord 0 (Encode (upsert "k" b1 1))]) as ->
    by (vm_compute; reflexivity).
  constructor; [vm_compute; reflexivity|constructor].
Qed.

Lemma replay_twice_witness :
  fst (replay replayed_once) = Success tt ∧
  EngineFacts.engine_get hash0 replayed_twice "k" = EngineFacts.engine_get hash0 replayed_once "k" ∧
  globalVersionCounter_ replayed_twice = 1 ∧ view hash0 replayed_twice "k" = Some b1.
Proof.
  assert (fst (replay (CacheEngine_new options0 store0 journal_left)) = Success tt) as E1 by (vm_compute; reflexivity).
  destruct (replay_twice hash0 order0 order0_perm options0 store0 journal_left [upsert "k" b1 1] replayed_once
              (fst (replay replayed_once)) replayed_twice) as [Hr Hsame].
  - apply store0_ok.
  - exact journal_left_reads.
  - apply injective_projections; [exact E1|unfold replayed_once; reflexivity].
  - apply injective_projections; [reflexivity|unfold replayed_twice; reflexivity].
  - assert (fst (replay replayed_once) = Success tt) as E2 by (by apply Hr).
    destruct (Hsame E2) as (Hg & _ & Hv & _ & Hview). split; [exact E2|]. split; [apply Hg|].
    split; [rewrite Hv; vm_compute; reflexivity|]. rewrite (Hview "k"%string). vm_compute. reflexivity.
Defined.
